(* ===== verification/_CoqProject ===== *)
-Q . S2P
Prelude.v
Bidi.v
Bytes.v
Num.v
Codes.v
Token.v
Ast.v
AstProps.v
Lexer.v
LexerProps.v
ParserState.v
Lookahead.v
Grammar.v
ParserLogic.v
GrammarProps.v
HoleProps.v
RulesProps.v
ItemProps.v
Http.v
Machine.v
Atomic.v
Pool.v
TypeMatch.v
TypeErrors.v
Env.v
Checker.v
Overloads.v
Patterns.v
Walk.v
Reachability.v
SourceMap.v
Collections.v
Aliasing.v
Declarations.v
Calls.v
Inference.v
FiberSharing.v
ResultPins.v
Program.v
CheckLogic.v
DeclarationProps.v
CallProps.v
InferenceProps.v
CheckerProps.v
SharingProps.v
PinProps.v
Deferral.v
DeferralProps.v
Qualify.v
QualifyProps.v
Modules.v
ModulesProps.v
LaunchScope.v
Scheduler.v
SchedulerProps.v
Deferred.v
DeferredProps.v
Dispatch.v
TailCalls.v
Utf8.v
Text.v
TextProps.v
Placement.v
PlacementProps.v
Analysis.v
AnalysisProps.v
