(* ===== verification/Prelude.v ===== *)
(** * A verification library for the Quilon toolchain

    Quilon is a language with a compiler ([src/src/]) and a runtime library that
    compiled programs link with ([src/quilon-rt/src/]).  The library models the
    front end of the compiler from bytes to a checked program, the analyses and
    decisions code generation takes from it, the analyses of the language server,
    and the parts of the runtime with a contract of their own, and proves what
    makes them correct.

    ** The program, and the file that models each part

    A compilation reads files, checks their bytes for deceptive controls, lexes,
    parses, loads and qualifies the imported modules, checks types, decides which
    values are deferred and which calls are loops, prunes what is never reached
    and emits LLVM code; positions in diagnostics come from the source map.  The
    compiled program runs fibers over one scheduler per worker thread, places
    launches on workers, hands blocking calls to a pool, resolves deferred values
    when they are forced, and shares bindings between threads.

    Ground:
    - [Prelude], this file: results, fuel, worklists, automation.
    - [Bytes]: UTF-8, [str] and number operations of Rust's standard library, with
      [Utf8]: decoding and encoding undo each other; [Num]: doubles.
    - [Machine]: runs of a machine of events, its invariants and progress.

    Front end:
    - [Bidi]: [quilon-rt/src/bidi.rs], the scope stack of the Trojan Source guard.
    - [Codes]: [diagnostic/codes.rs], the registry of diagnostics.
    - [SourceMap]: [source_map.rs].
    - [Token], [Lexer] with [LexerProps]: [lexer/].
    - [Ast] with [AstProps]: [ast/nodes.rs], the tree and the name tables.
    - [ParserState], [Lookahead], [Grammar] (the rules): [parser/ast_parser/], with
      [ParserLogic] (a weakest-precondition logic of the parser monad) and
      [GrammarProps], [HoleProps], [RulesProps], [ItemProps] (what each rule meets).
    - [Modules] with [ModulesProps]: [modules.rs]; [Qualify] with [QualifyProps]:
      [ast/qualify.rs].

    Type checker ([typechecker/]), the state of [TypeChecker] threaded through every
    rule:
    - [TypeMatch] (matching, resolution, mangling), [TypeErrors], [Env] (scopes,
      narrowing), [Checker] (the shared state).
    - [Aliasing] ([checker/aliasing.rs], deep immutability), [Overloads] (with
      codegen's dispatch on overload sets), [Patterns] (matches and the signal trap,
      with codegen's tests).
    - [Declarations], [Calls] (with [assertions.rs]), [Inference] ([exprs.rs], and
      the knot that ties the recursion), [ResultPins] with [PinProps] ([sums.rs]),
      [FiberSharing] with [SharingProps] ([fiber_sharing.rs]), [Program] (the passes
      over a whole program).
    - [CheckLogic]: what the checker's state keeps to and weakest preconditions over
      its results; [DeclarationProps], [CallProps], [InferenceProps], [CheckerProps]:
      every rule under that logic.

    Analyses and decisions of code generation:
    - [Walk]: [ast/walk.rs] and [ast/captures.rs]; [Reachability]:
      [ast/reachability.rs] and [checker/dead_functions.rs].
    - [Deferral] with [DeferralProps]: [deferral.rs].
    - [Dispatch]: what a call is lowered to, [codegen/generator/calls.rs] and
      [oracle.rs]; [TailCalls]: [codegen/generator/tco.rs].
    - [Analysis] with [AnalysisProps]: [lsp/analysis.rs], name resolution, hover,
      semantic tokens, test lenses.

    Runtime ([quilon-rt/src/]):
    - [Text] with [TextProps]: [text.rs] and the text half of [mem.rs].
    - [Collections]: [collections/], keys, maps and sets on a store of headers.
    - [Http]: the body framing of [http.rs].
    - [Scheduler] with [SchedulerProps]: [scheduler.rs], one worker; [Placement] with
      [PlacementProps]: [placement.rs] and the loops of the leader and the helpers,
      all workers of a run.
    - [LaunchScope]: [launch_scope.rs]; [Deferred] with [DeferredProps]:
      [deferred.rs]; [Pool]: [blocking.rs]; [Atomic]: [atomic_binding.rs].

    ** How code becomes definitions

    State is threaded as the code threads it: a [&mut self] method is a function
    from the old state to a [result] with the new one; [?] is a bind; a panic is an
    error of its own or a [None].  What threads share is a machine whose events are
    the atomic steps of the code - a critical section, an operation on an atomic, a
    wake-up - with the environment's choices, and theorems hold of every
    interleaving.

    A loop or recursion of the code that is not structural takes fuel, and running
    out of it is an outcome different from every error of the code; a theorem shows
    that what the entry point gives suffices:
    - the lexer, a unit per byte ([tokenize_tiles]); the parser, by its nesting limit
      and the sizes of holes ([parse_total]);
    - inference, twice the nodes of the expression ([inference_total],
      [items_total]);
    - the deferral rounds, one for each declared name and one more
      ([deferral_exact]);
    - linking, a unit per file of the system and bundled module ([link_total]);
    - the sharing search and the reachability worklist, what is left of their
      indices ([fiber_sharing_exact], [reachable_functions_least]);
    - dechunking and [split], a unit per byte of the text.
    A sweep of the scheduler polls every entry of a queue once.  Reads of the standard
    input consume a script of the answers of [read(2)].

    ** What the theorems show

    - Totality: a source tiles into tokens ([tokenize_tiles]); the parser never
      panics and what it answers is well formed ([parse_total]); the checker answers
      every expression the parser builds, and every program's items, with a type or a
      diagnostic, its state sound ([inference_total], [items_total]); linking ends
      whatever cycles the imports make ([link_total]); every span resolves
      ([locate_correct]).
    - Names: an answered link has every reached module once, after those it imports
      ([link_modules]); qualification renames by scope and captures nothing
      ([qualification_hygienic]); the language server resolves by lexical scoping
      ([walk_lexical]).
    - Types: a call resolves exactly when one member accepts it
      ([overload_resolution]), codegen calls that member ([codegen_agrees],
      [mangle_overload_inj]); an accepted match always enters an arm ([match_total])
      and a rejected one really misses a value ([non_exhaustive_real]); what a body
      proves of a binding stays in it ([narrowing_confined]).
    - Analyses are exact: sharing across fibers ([fiber_sharing_exact]), deferral
      ([deferral_exact]), reachability ([reachable_functions_least],
      [check_dead_functions_exact]), captures ([captures_free]), self-tail-calls
      ([tail_call_agrees], [loop_exact]).
    - Fibers: every slot of a slab is in exactly one place ([fibers_never_lost]), an
      idle worker waits exactly as long as it must ([idle_plan_exact]), placements
      are counted exactly and all served ([placement_accounts], [placement_serves]),
      a scope settles its own launches in order ([scopes_isolated]).
    - Deferred input is read in launch order, line by line, and every launch is
      served ([stdin_in_launch_order], [reads_are_lines], [stdin_served]); the pool
      answers every call ([pool_serves]); an atomic binding loses no update
      ([atomic_no_lost_update]).
    - Data: headers of texts stay exact and positions count clusters
      ([concat_exact], [slice_clusters], [find_clusters]), [join] undoes [split]
      ([split_join]), a map is a finite map ([map_refines]); string escapes, chunked
      bodies and protocol positions round trip.

    Where the code falls short of what it says, an [Example] evaluates the model on
    the case: the window of [seam_corrected], deferral through captured names, local
    types of imported modules, the initializer of a shadowing binding.

    ** What stands outside, as parameters or not at all

    The recogniser [logos] generates is modelled from its attributes, with its
    Unicode classes as an interface.  Parameters too: Unicode case mapping, the
    character tables of [Debug], the segmentation into grapheme clusters (a class
    with the laws of its documentation, and an instance), the iteration order of the
    standard library's tables, the compiled hooks of a user's key type, the file
    system and the bundled modules, what a resumed fiber does and what the reactor
    and the clock report.

    Not modelled: the LLVM instructions emitted (their semantics is not in the
    sources), the JIT, the linker and the driver around the phases, terminal
    rendering and the texts of explanations, the language server's protocol and its
    completions, sockets and files, the garbage collector, and the reports of a
    fault and the abort that follows. *)

From stdpp Require Export base list strings numbers option.
From stdpp Require Export gmap.
From Stdlib Require Export ZArith Lia.

(** ** Results and early returns *)

(** Rust's [Result<T, E>], the error type first so that [result E] is a monad;
    [?] and an early [return Err(..)] become binds. *)
Inductive result (E T : Type) : Type :=
| Ok (t : T)
| Err (e : E).
Arguments Ok {E T} t.
Arguments Err {E T} e.

#[export] Instance result_ret {E} : MRet (result E) := λ T, Ok.
#[export] Instance result_bind {E} : MBind (result E) :=
  λ T U f m, match m with Ok t => f t | Err e => Err e end.
#[export] Instance result_fmap {E} : FMap (result E) :=
  λ T U f m, match m with Ok t => Ok (f t) | Err e => Err e end.
#[export] Instance result_eq_dec {E T} `{EqDecision E, EqDecision T} :
  EqDecision (result E T).
Proof. solve_decision. Defined.

(** Rust's [Option::ok_or]. *)
Definition ok_or {T E} (o : option T) (e : E) : result E T :=
  match o with Some t => Ok t | None => Err e end.

(** Loops run on fuel: [Err None] is running out of it, [Err (Some e)] an error
    of the code. *)
Notation fueled E := (result (option E)).
Notation out_of_fuel := (Err None).
Notation throw e := (Err (Some e)).

(** An answer or an error of the code, in a computation on fuel. *)
Definition lift {E T} (m : result E T) : fueled E T :=
  match m with Ok t => Ok t | Err e => throw e end.

(** The result of a loop whose fuel is known to suffice; [e] is never used. *)
Definition run_fueled {E T} (e : E) (m : fueled E T) : result E T :=
  match m with Ok t => Ok t | throw e' => Err e' | out_of_fuel => Err e end.

Lemma result_bind_Ok {T U E} (f : T → result E U) (m : result E T) u :
  m ≫= f = Ok u ↔ ∃ t, m = Ok t ∧ f t = Ok u.
Proof. destruct m as [t|e]; split; [by eauto|by intros (?&[= ->]&?)|done|by intros (?&?&?)]. Qed.

Lemma result_bind_Err {T U E} (f : T → result E U) (m : result E T) e :
  m ≫= f = Err e ↔ m = Err e ∨ ∃ t, m = Ok t ∧ f t = Err e.
Proof.
  destruct m as [t|e']; split; [by eauto|intros [?|(?&[= ->]&?)]; done
  |intros [= ->]; by left|by intros [[= ->]|(?&?&?)]].
Qed.

(** ** Machine integers *)

(** The [u32] a wider integer wraps to. *)
Definition u32 (n : Z) : Z := (n mod 2 ^ 32)%Z.

Lemma u32_id n : (0 <= n < 2 ^ 32 → u32 n = n)%Z.
Proof. intros. by apply Z.mod_small. Qed.

(** ** Lists *)

(** A prefix that fits into the first part is a prefix of it. *)
Lemma prefix_app_short {A} (p xs ys : list A) :
  p `prefix_of` xs ++ ys → (length p ≤ length xs)%nat → p `prefix_of` xs.
Proof.
  revert xs. induction p as [|x p IH]; intros xs Hp Hl; [apply prefix_nil|].
  destruct xs as [|y xs]; simpl in *; [lia|].
  apply prefix_cons_inv_1 in Hp as Hxy. apply prefix_cons_inv_2 in Hp. subst.
  apply prefix_cons, IH; [done|lia].
Qed.

Lemma size_list_to_set_le (l : list string) : (size (list_to_set l : gset string) ≤ length l)%nat.
Proof.
  induction l as [|x l IH]; [done|]. rewrite list_to_set_cons, length_cons, size_union_alt, size_singleton.
  pose proof (subseteq_size ((list_to_set l : gset string) ∖ {[x]}) (list_to_set l) ltac:(set_solver)). lia.
Qed.

(** ** Worklists

    A loop over an index visits every key once, and visiting a key pushes [w key]
    entries: what the keys not done yet will push bounds the turns left. *)

Section worklist.
Context {A : Type} (index : gmap string A) (w : string → nat).
Implicit Types (name : string) (done : gset string) (names : list string).

Definition weight (done : gset string) (names : list string) : nat :=
  sum_list_with (λ n, if decide (n ∈ done) then 0%nat else w n) names.

(** What is left of the index. *)
Definition left_to_push (done : gset string) : nat := weight done (map_to_list index).*1.

Lemma weight_other done name names : name ∉ names → weight ({[name]} ∪ done) names = weight done names.
Proof.
  unfold weight. induction names as [|x names IH]; intros Hx; simpl; [done|].
  rewrite not_elem_of_cons in Hx. rewrite IH by tauto. f_equal. apply decide_ext.
  rewrite elem_of_union, elem_of_singleton. naive_solver.
Qed.

Lemma weight_done done name names :
  NoDup names → name ∉ done → name ∈ names → weight done names = (weight ({[name]} ∪ done) names + w name)%nat.
Proof.
  unfold weight. intros Hd Hn. induction Hd as [|m names Hm Hd IH]; intros Hin; [by apply elem_of_nil in Hin|].
  simpl. assert (m ∈ {[name]} ∪ done ↔ m = name ∨ m ∈ done) as Hu by (rewrite elem_of_union, elem_of_singleton; done).
  apply elem_of_cons in Hin as [<-|Hin].
  - rewrite decide_False by done. rewrite decide_True by (apply Hu; auto).
    pose proof (weight_other done name names Hm) as E. unfold weight in E. lia.
  - assert (m ≠ name) by (by intros ->). rewrite IH by done.
    rewrite (decide_ext (m ∈ {[name]} ∪ done) (m ∈ done)) by (rewrite Hu; naive_solver). lia.
Qed.

Lemma left_to_push_done (Hw : ∀ n, index !! n = None → w n = 0%nat) done name :
  name ∉ done → left_to_push done = (left_to_push ({[name]} ∪ done) + w name)%nat.
Proof.
  intros Hn. unfold left_to_push. destruct (index !! name) as [a|] eqn:E.
  - apply weight_done; [apply NoDup_fst_map_to_list|done|].
    apply list_elem_of_fmap. exists (name, a). split; [done|]. by apply elem_of_map_to_list.
  - rewrite (Hw _ E), weight_other; [lia|]. intros ([n a]&En&Ha)%list_elem_of_fmap.
    apply elem_of_map_to_list in Ha. simpl in En. congruence.
Qed.

Lemma left_to_push_start (f : A → nat) (Hw : ∀ n a, index !! n = Some a → w n = f a) :
  left_to_push ∅ = sum_list_with f (map_to_list index).*2.
Proof.
  unfold left_to_push, weight. assert (∀ l, (∀ p, p ∈ l → index !! p.1 = Some p.2) →
    sum_list_with (λ n, if decide (n ∈ (∅ : gset string)) then 0%nat else w n) l.*1
    = sum_list_with f l.*2) as H.
  { induction l as [|[m b] l IH]; intros Hl; [done|]. rewrite !fmap_cons. cbn [sum_list_with fst snd].
    rewrite decide_False by apply not_elem_of_empty. rewrite IH by (intros; apply Hl; by right).
    by rewrite (Hw m b) by (apply (Hl (m, b)); left). }
  apply H. intros [m b] Hp. by apply elem_of_map_to_list.
Qed.
End worklist.

(** ** The development's tactics *)

(** Split every hypothesis that is a successful or failed bind. *)
Ltac inv_bind :=
  repeat match goal with
  | H : mbind _ _ = Ok _ |- _ => apply result_bind_Ok in H as (?&?&?)
  | H : mbind _ _ = Err _ |- _ => apply result_bind_Err in H as [H|(?&?&?)]
  end; simplify_eq/=.

(** Case on every [match] and [if] of the goal and the hypotheses. *)
Ltac break := repeat (case_match; simplify_eq/=).

(** Turn boolean tests on integers into (in)equalities. *)
Ltac unbool :=
  repeat match goal with
  | H : (_ =? _)%Z = true |- _ => apply Z.eqb_eq in H
  | H : (_ =? _)%Z = false |- _ => apply Z.eqb_neq in H
  | H : (_ <? _)%Z = true |- _ => apply Z.ltb_lt in H
  | H : (_ <? _)%Z = false |- _ => apply Z.ltb_ge in H
  | H : (_ <=? _)%Z = true |- _ => apply Z.leb_le in H
  | H : (_ <=? _)%Z = false |- _ => apply Z.leb_gt in H
  | H : (_ =? _)%nat = true |- _ => apply Nat.eqb_eq in H
  | H : (_ =? _)%nat = false |- _ => apply Nat.eqb_neq in H
  | H : (_ <? _)%nat = true |- _ => apply Nat.ltb_lt in H
  | H : (_ <? _)%nat = false |- _ => apply Nat.ltb_ge in H
  | H : (_ <=? _)%nat = true |- _ => apply Nat.leb_le in H
  | H : (_ <=? _)%nat = false |- _ => apply Nat.leb_gt in H
  | H : _ && _ = true |- _ => apply andb_true_iff in H as [??]
  | H : _ && _ = false |- _ => apply andb_false_iff in H
  | H : _ || _ = true |- _ => apply orb_true_iff in H
  | H : _ || _ = false |- _ => apply orb_false_iff in H as [??]
  | H : negb _ = true |- _ => apply negb_true_iff in H
  | H : negb _ = false |- _ => apply negb_false_iff in H
  end.

(** Decide every integer comparison of the goal that [lia] can. *)
Ltac zbool :=
  repeat match goal with
  | |- context [(?a <=? ?b)%Z] =>
      first [rewrite (proj2 (Z.leb_le a b)) by lia | rewrite (proj2 (Z.leb_gt a b)) by lia]
  | |- context [(?a <? ?b)%Z] =>
      first [rewrite (proj2 (Z.ltb_lt a b)) by lia | rewrite (proj2 (Z.ltb_ge a b)) by lia]
  | |- context [(?a =? ?b)%Z] =>
      first [rewrite (proj2 (Z.eqb_eq a b)) by lia | rewrite (proj2 (Z.eqb_neq a b)) by lia]
  end.

(** Evaluate a closed decidable proposition. *)
Ltac compute_done := first [by vm_compute | by apply (bool_decide_unpack _); vm_compute].

Create HintDb quilon.
Create Rewrite HintDb quilon_rw.
