(* ===== verification/Bidi.v ===== *)
(** * The Trojan Source guard: [quilon-rt/src/bidi.rs]

    The classification of the bidirectional control characters, the stack of
    open scopes a string literal or a comment is checked with, and the theorem
    that the stack accepts exactly the well-nested sequences of UAX #9.
    A [char] is a Unicode scalar value, an integer. *)

From S2P Require Import Prelude.
Open Scope Z_scope.


Inductive Control : Type :=
| OpenEmbedding
| CloseEmbedding
| OpenIsolate
| CloseIsolate
| Mark.

#[export] Instance Control_eq_dec : EqDecision Control.
Proof. solve_decision. Defined.

Definition classify (ch : Z) : option Control :=
  if bool_decide (ch ∈ [0x202A; 0x202B; 0x202D; 0x202E]) then Some OpenEmbedding
  else if ch =? 0x202C then Some CloseEmbedding
  else if bool_decide (ch ∈ [0x2066; 0x2067; 0x2068]) then Some OpenIsolate
  else if ch =? 0x2069 then Some CloseIsolate
  else if bool_decide (ch ∈ [0x200E; 0x200F; 0x061C]) then Some Mark
  else None.

Definition is_bidi_control (ch : Z) : bool := bool_decide (is_Some (classify ch)).

Definition name (ch : Z) : string :=
  if ch =? 0x202A then "U+202A LEFT-TO-RIGHT EMBEDDING"
  else if ch =? 0x202B then "U+202B RIGHT-TO-LEFT EMBEDDING"
  else if ch =? 0x202C then "U+202C POP DIRECTIONAL FORMATTING"
  else if ch =? 0x202D then "U+202D LEFT-TO-RIGHT OVERRIDE"
  else if ch =? 0x202E then "U+202E RIGHT-TO-LEFT OVERRIDE"
  else if ch =? 0x2066 then "U+2066 LEFT-TO-RIGHT ISOLATE"
  else if ch =? 0x2067 then "U+2067 RIGHT-TO-LEFT ISOLATE"
  else if ch =? 0x2068 then "U+2068 FIRST STRONG ISOLATE"
  else if ch =? 0x2069 then "U+2069 POP DIRECTIONAL ISOLATE"
  else if ch =? 0x200E then "U+200E LEFT-TO-RIGHT MARK"
  else if ch =? 0x200F then "U+200F RIGHT-TO-LEFT MARK"
  else if ch =? 0x061C then "U+061C ARABIC LETTER MARK"
  else "an unrecognized bidi control".

(** The [Vec<(char, Control)>] of the source, innermost scope first: [push],
    [pop] and [last] act on the head. *)
Definition ScopeStack : Type := list (Z * Control).

Definition new : ScopeStack := [].

Definition feed (stack : ScopeStack) (ch : Z) : result Z ScopeStack :=
  match classify ch with
  | Some OpenEmbedding => Ok ((ch, OpenEmbedding) :: stack)
  | Some OpenIsolate => Ok ((ch, OpenIsolate) :: stack)
  | Some CloseEmbedding =>
      match stack with
      | (_, OpenEmbedding) :: rest => Ok rest
      | _ => Err ch
      end
  | Some CloseIsolate =>
      match stack with
      | (_, OpenIsolate) :: rest => Ok rest
      | _ => Err ch
      end
  | Some Mark | None => Ok stack
  end.

Definition unclosed (stack : ScopeStack) : option Z := fst <$> head stack.

(** The loop every user of the stack runs: feed each character in turn and
    stop at the first stray closer. *)
Fixpoint feed_all (stack : ScopeStack) (chs : list Z) : result Z ScopeStack :=
  match chs with
  | [] => Ok stack
  | ch :: rest => stack' ← feed stack ch; feed_all stack' rest
  end.

(** ** The specification: well-nested sequences *)

(** [opens o k]: [o] opens a scope of family [k]; [closes c k]: [c] ends one. *)
Definition opens (o : Z) (k : Control) : Prop :=
  classify o = Some k ∧ (k = OpenEmbedding ∨ k = OpenIsolate).
Definition closes (c : Z) (k : Control) : Prop :=
  (k = OpenEmbedding ∧ classify c = Some CloseEmbedding)
  ∨ (k = OpenIsolate ∧ classify c = Some CloseIsolate).
Definition neutral (c : Z) : Prop := classify c = None ∨ classify c = Some Mark.

(** UAX #9 nesting: plain characters and marks anywhere, and every opener
    matched with a closer of its own family around a well-nested body. *)
Inductive balanced : list Z → Prop :=
| balanced_nil : balanced []
| balanced_plain c chs : neutral c → balanced chs → balanced (c :: chs)
| balanced_scope o c k body rest :
    opens o k → closes c k → balanced body → balanced rest →
    balanced (o :: body ++ c :: rest).

(** A tail that closes the open scopes of [stack], innermost first. *)
Inductive closes_all : ScopeStack → list Z → Prop :=
| closes_all_nil chs : balanced chs → closes_all [] chs
| closes_all_cons o k stack body c rest :
    balanced body → closes c k → closes_all stack rest →
    closes_all ((o, k) :: stack) (body ++ c :: rest).

(** The recognised controls, listed: the class the lexer repeats. *)
Definition controls : list Z :=
  [0x200E; 0x200F; 0x061C; 0x202A; 0x202B; 0x202C; 0x202D; 0x202E;
   0x2066; 0x2067; 0x2068; 0x2069].

Lemma feed_neutral stack c : neutral c → feed stack c = Ok stack.
Proof. by intros [H|H]; unfold feed; rewrite H. Qed.

Lemma feed_opens stack o k : opens o k → feed stack o = Ok ((o, k) :: stack).
Proof. by intros [H [->| ->]]; unfold feed; rewrite H. Qed.

Lemma feed_closes stack o c k : closes c k → feed ((o, k) :: stack) c = Ok stack.
Proof. by intros [[-> H]|[-> H]]; unfold feed; rewrite H. Qed.

#[export] Hint Rewrite feed_neutral feed_opens feed_closes using done : quilon_rw.

(** The converse: what a successful [feed] can have been. *)
Lemma feed_Ok_inv stack c stack' :
  feed stack c = Ok stack' →
  (neutral c ∧ stack' = stack)
  ∨ (∃ k, opens c k ∧ stack' = (c, k) :: stack)
  ∨ (∃ o k, closes c k ∧ stack = (o, k) :: stack').
Proof.
  unfold feed, neutral, opens, closes. intros H.
  destruct (classify c) as [[]|] eqn:E; break; naive_solver.
Qed.

Lemma feed_all_app stack xs ys :
  feed_all stack (xs ++ ys) = (stack' ← feed_all stack xs; feed_all stack' ys).
Proof.
  revert stack. induction xs as [|x xs IH]; intros stack; [done|]; simpl.
  destruct (feed stack x); simpl; [by rewrite IH|done].
Qed.

Lemma balanced_feed_all chs stack : balanced chs → feed_all stack chs = Ok stack.
Proof.
  intros H. revert stack.
  induction H as [|c chs Hc _ IH|o c k body rest Ho Hc _ IHb _ IHr]; intros stack; [done| |].
  - simpl. rewrite feed_neutral by done. apply IH.
  - simpl. rewrite (feed_opens _ _ _ Ho). simpl. rewrite feed_all_app, IHb. simpl.
    rewrite (feed_closes _ _ _ _ Hc). apply IHr.
Qed.

Lemma closes_all_plain stack c chs :
  neutral c → closes_all stack chs → closes_all stack (c :: chs).
Proof.
  intros Hc H. destruct H as [chs Hb|o k stack body d rest Hb Hd Hr].
  - constructor. by constructor.
  - rewrite app_comm_cons. constructor; [by constructor|done..].
Qed.

Lemma closes_all_scope o k c body stack rest :
  opens o k → closes c k → balanced body → closes_all stack rest →
  closes_all stack (o :: body ++ c :: rest).
Proof.
  intros Ho Hc Hb H. destruct H as [chs Hr|o' k' stack body' d rest Hb' Hd Hr].
  - constructor. by eapply balanced_scope.
  - replace (o :: body ++ c :: body' ++ d :: rest)
      with ((o :: body ++ c :: body') ++ d :: rest) by (simpl; by rewrite <-app_assoc).
    constructor; [by eapply balanced_scope|done..].
Qed.

Lemma feed_all_closes_all chs stack : feed_all stack chs = Ok [] → closes_all stack chs.
Proof.
  revert stack. induction chs as [|c chs IH]; intros stack H; simpl in H.
  - simplify_eq. constructor. constructor.
  - inv_bind. apply feed_Ok_inv in H as [[Hc ->]|[(k&Hk&->)|(o&k&Hc&->)]].
    + by apply closes_all_plain, IH.
    + apply IH in H0. inversion H0; subst. by eapply closes_all_scope.
    + apply (closes_all_cons o k _ []); [constructor|done|by apply IH].
Qed.

(** The scope stack, started empty and fed a whole token, ends with nothing
    open exactly when the token's controls are well nested. *)
Lemma feed_all_balanced chs : feed_all new chs = Ok [] ↔ balanced chs.
Proof.
  split.
  - intros H%feed_all_closes_all. by inversion H.
  - apply balanced_feed_all.
Qed.

Lemma unclosed_None stack : unclosed stack = None ↔ stack = [].
Proof. by destruct stack as [|[]]. Qed.

Lemma is_bidi_control_iff ch :
  is_bidi_control ch = true ↔
  ch ∈ controls.
Proof.
  unfold is_bidi_control. rewrite bool_decide_eq_true. split.
  - intros Hk. destruct (decide (ch ∈ controls)) as [|Hn]; [done|].
    exfalso. unfold controls in Hn. rewrite !not_elem_of_cons in Hn. destruct_and! Hn.
    unfold classify in Hk.
    rewrite !bool_decide_false in Hk by set_solver.
    repeat (rewrite (proj2 (Z.eqb_neq ch _)) in Hk by done). by destruct Hk.
  - unfold controls. rewrite !elem_of_cons, elem_of_nil. intros H.
    destruct_or! H; subst; by eexists.
Qed.

