(* ===== verification/Bytes.v ===== *)
(** * Bytes, characters and the Rust string operations the sources call

    A byte is an integer in [0, 256), a [char] a Unicode scalar value, a [&[u8]]
    a list of bytes and a [&str] the list of its characters. The operations are
    those of Rust's standard library the modelled files use: UTF-8 decoding
    (strict and lossy), [trim], [rsplit], ASCII case folding, [from_str_radix],
    [parse::<usize>], [windows(..).position(..)]. *)

From S2P Require Import Prelude.
Open Scope Z_scope.

Definition usize_max : Z := 2 ^ 64 - 1.
Arguments usize_max : simpl never.

(** The bytes of an ASCII literal of the source. *)
Definition bs (s : string) : list Z :=
  (λ a, Z.of_N (Ascii.N_of_ascii a)) <$> String.list_ascii_of_string s.

Definition string_of_bytes (b : list Z) : string :=
  String.string_of_list_ascii ((λ z, Ascii.ascii_of_N (Z.to_N z)) <$> b).

(** ** UTF-8 *)

Definition is_cont (b : Z) : bool := (128 <=? b) && (b <? 192).

Definition in_range (lo hi b : Z) : bool := (lo <=? b) && (b <=? hi).

(** One decoding step at the head of a non-empty slice: the character, if the
    bytes start a well-formed sequence, and the number of bytes consumed (for an
    ill-formed one, its maximal well-formed prefix, at least one byte). *)
Definition utf8_step (bytes : list Z) : option Z * nat :=
  match bytes with
  | [] => (None, 0%nat)
  | b0 :: rest =>
      if b0 <? 128 then (Some b0, 1%nat)
      else if in_range 0xC2 0xDF b0 then
        match rest with
        | b1 :: _ =>
            if is_cont b1 then (Some ((b0 - 0xC0) * 64 + (b1 - 128)), 2%nat)
            else (None, 1%nat)
        | [] => (None, 1%nat)
        end
      else if in_range 0xE0 0xEF b0 then
        let second b1 :=
          if b0 =? 0xE0 then in_range 0xA0 0xBF b1
          else if b0 =? 0xED then in_range 0x80 0x9F b1
          else is_cont b1 in
        match rest with
        | b1 :: rest' =>
            if second b1 then
              match rest' with
              | b2 :: _ =>
                  if is_cont b2
                  then (Some ((b0 - 0xE0) * 4096 + (b1 - 128) * 64 + (b2 - 128)), 3%nat)
                  else (None, 2%nat)
              | [] => (None, 2%nat)
              end
            else (None, 1%nat)
        | [] => (None, 1%nat)
        end
      else if in_range 0xF0 0xF4 b0 then
        let second b1 :=
          if b0 =? 0xF0 then in_range 0x90 0xBF b1
          else if b0 =? 0xF4 then in_range 0x80 0x8F b1
          else is_cont b1 in
        match rest with
        | b1 :: rest' =>
            if second b1 then
              match rest' with
              | b2 :: rest'' =>
                  if is_cont b2 then
                    match rest'' with
                    | b3 :: _ =>
                        if is_cont b3
                        then (Some ((b0 - 0xF0) * 262144 + (b1 - 128) * 4096
                                    + (b2 - 128) * 64 + (b3 - 128)), 4%nat)
                        else (None, 3%nat)
                    | [] => (None, 3%nat)
                    end
                  else (None, 2%nat)
              | [] => (None, 2%nat)
              end
            else (None, 1%nat)
        | [] => (None, 1%nat)
        end
      else (None, 1%nat)
  end.

Definition replacement_char : Z := 0xFFFD.

(** [str::from_utf8]: [fuel] bounds the characters and the length of the slice
    always suffices. *)
Fixpoint from_utf8_fuel (fuel : nat) (bytes : list Z) : option (list Z) :=
  match fuel, bytes with
  | _, [] => Some []
  | O, _ => None
  | S fuel', _ =>
      match utf8_step bytes with
      | (Some ch, n) => cons ch <$> from_utf8_fuel fuel' (drop n bytes)
      | (None, _) => None
      end
  end.
Definition from_utf8 (bytes : list Z) : option (list Z) :=
  from_utf8_fuel (length bytes) bytes.

(** [String::from_utf8_lossy]. *)
Fixpoint from_utf8_lossy_fuel (fuel : nat) (bytes : list Z) : list Z :=
  match fuel, bytes with
  | _, [] => []
  | O, _ => []
  | S fuel', _ =>
      let '(ch, n) := utf8_step bytes in
      default replacement_char ch :: from_utf8_lossy_fuel fuel' (drop n bytes)
  end.
Definition from_utf8_lossy (bytes : list Z) : list Z :=
  from_utf8_lossy_fuel (length bytes) bytes.

Definition len_utf8 (ch : Z) : nat :=
  if ch <? 0x80 then 1%nat else if ch <? 0x800 then 2%nat
  else if ch <? 0x10000 then 3%nat else 4%nat.

Definition encode_utf8 (ch : Z) : list Z :=
  if ch <? 0x80 then [ch]
  else if ch <? 0x800 then [0xC0 + ch / 64; 128 + ch mod 64]
  else if ch <? 0x10000 then
    [0xE0 + ch / 4096; 128 + ch / 64 mod 64; 128 + ch mod 64]
  else
    [0xF0 + ch / 262144; 128 + ch / 4096 mod 64; 128 + ch / 64 mod 64; 128 + ch mod 64].

(** [char::is_whitespace]: the [White_Space] property. *)
Definition is_whitespace (ch : Z) : bool :=
  in_range 9 13 ch || (ch =? 32) || (ch =? 0x85) || (ch =? 0xA0) || (ch =? 0x1680)
  || in_range 0x2000 0x200A ch || (ch =? 0x2028) || (ch =? 0x2029) || (ch =? 0x202F)
  || (ch =? 0x205F) || (ch =? 0x3000).

Fixpoint trim_start (s : list Z) : list Z :=
  match s with
  | [] => []
  | ch :: rest => if is_whitespace ch then trim_start rest else s
  end.
Definition trim_end (s : list Z) : list Z := reverse (trim_start (reverse s)).
Definition trim (s : list Z) : list Z := trim_end (trim_start s).

(** [s.rsplit(sep).next()]: what follows the last [sep], or all of [s]. *)
Definition rsplit_next (sep : Z) (s : list Z) : list Z :=
  fold_left (λ acc ch, if ch =? sep then [] else acc ++ [ch]) s [].

Definition to_ascii_lowercase (ch : Z) : Z := if in_range 65 90 ch then ch + 32 else ch.
Definition eq_ignore_ascii_case (s t : list Z) : bool :=
  bool_decide (to_ascii_lowercase <$> s = to_ascii_lowercase <$> t).

(** ** Numbers *)

(** [char::to_digit]. *)
Definition to_digit (radix ch : Z) : option Z :=
  let d := if in_range 48 57 ch then Some (ch - 48)
           else if in_range 97 122 ch then Some (ch - 97 + 10)
           else if in_range 65 90 ch then Some (ch - 65 + 10)
           else None in
  match d with Some d => if d <? radix then Some d else None | None => None end.

(** The digit loop of [usize::from_str_radix]: [checked_mul] then [checked_add]. *)
Fixpoint parse_digits (radix acc : Z) (s : list Z) : option Z :=
  match s with
  | [] => Some acc
  | ch :: rest =>
      d ← to_digit radix ch;
      if usize_max <? acc * radix then None
      else if usize_max <? acc * radix + d then None
      else parse_digits radix (acc * radix + d) rest
  end.

(** [usize::from_str_radix]; [str::parse::<usize>] is radix 10. A leading [+] is
    accepted, a lone sign is not, and a [-] is an invalid digit. *)
Definition from_str_radix (radix : Z) (s : list Z) : option Z :=
  match s with
  | [] => None
  | ch :: rest =>
      if ((ch =? 43) || (ch =? 45)) && bool_decide (rest = []) then None
      else if ch =? 43 then parse_digits radix 0 rest
      else parse_digits radix 0 s
  end.

(** [haystack.windows(needle.len()).position(|w| w == needle)]. *)
Fixpoint find_subslice (haystack needle : list Z) : option nat :=
  if bool_decide (needle `prefix_of` haystack) then Some 0%nat
  else match haystack with
       | [] => None
       | _ :: rest => S <$> find_subslice rest needle
       end.

(** [slice.iter().position(|&b| b == byte)]. *)
Fixpoint position (byte : Z) (s : list Z) : option nat :=
  match s with
  | [] => None
  | b :: rest => if b =? byte then Some 0%nat else S <$> position byte rest
  end.

(** ** Printing a [usize] ([{n}] and [{n:x}]) and reading it back *)

Definition digit_char (d : Z) : Z := if d <? 10 then 48 + d else 87 + d.

Fixpoint render_fuel (fuel : nat) (radix n : Z) : list Z :=
  match fuel with
  | O => [digit_char n]
  | S fuel' =>
      if n <? radix then [digit_char n]
      else render_fuel fuel' radix (n / radix) ++ [digit_char (n mod radix)]
  end.
(** Sixty-four digits suffice for a [usize] in any radix. *)
Definition render (radix n : Z) : list Z := render_fuel 64 radix n.

(** A Unicode scalar value; the bytes of a string of them. *)
Definition scalar (ch : Z) : Prop := 0 <= ch < 0xD800 ∨ 0xE000 <= ch < 0x110000.
Definition encode_str (s : list Z) : list Z := concat (encode_utf8 <$> s).

(** ** UTF-8 round trip *)

Lemma encode_utf8_length ch : length (encode_utf8 ch) = len_utf8 ch.
Proof. unfold encode_utf8, len_utf8. by repeat case_match. Qed.

Lemma len_utf8_pos ch : (1 ≤ len_utf8 ch)%nat.
Proof. unfold len_utf8. repeat case_match; lia. Qed.

(** Division by 64 as quotient and remainder. *)
Ltac split64 x q r :=
  let Hd := fresh in let Hm := fresh in
  pose proof (Z.div_mod x 64 ltac:(lia)) as Hd;
  pose proof (Z.mod_pos_bound x 64 ltac:(lia)) as Hm;
  set (q := x / 64) in *; set (r := x mod 64) in *; clearbody q r.

Lemma utf8_step_encode ch rest :
  scalar ch → utf8_step (encode_utf8 ch ++ rest) = (Some ch, len_utf8 ch).
Proof.
  intros Hch. unfold scalar in Hch. unfold encode_utf8, len_utf8.
  destruct (ch <? 0x80) eqn:E1; unbool; [|destruct (ch <? 0x800) eqn:E2; unbool;
    [|destruct (ch <? 0x10000) eqn:E3; unbool]].
  - simpl. by zbool.
  - split64 ch q r. simpl. unfold in_range, is_cont. zbool. simpl. do 2 f_equal. lia.
  - replace (ch / 4096) with (ch / 64 / 64) by (by rewrite Z.div_div by lia).
    split64 ch q r. split64 q a b. simpl. unfold in_range, is_cont. zbool. simpl.
    destruct (decide (a = 0)); [|destruct (decide (a = 13))]; zbool; simpl; zbool; simpl;
      do 2 f_equal; lia.
  - replace (ch / 262144) with (ch / 64 / 64 / 64) by (by rewrite !Z.div_div by lia).
    replace (ch / 4096) with (ch / 64 / 64) by (by rewrite Z.div_div by lia).
    split64 ch q r. split64 q q' b. split64 q' a c. simpl. unfold in_range, is_cont. zbool. simpl.
    destruct (decide (a = 0)); [|destruct (decide (a = 4))]; zbool; simpl; zbool; simpl;
      do 2 f_equal; lia.
Qed.

(** ** Lemmas on searching *)

Lemma find_subslice_Some hay needle i :
  find_subslice hay needle = Some i ↔
  needle `prefix_of` drop i hay ∧ (i ≤ length hay)%nat ∧
  ∀ j, (j < i)%nat → ¬ needle `prefix_of` drop j hay.
Proof.
  revert i. induction hay as [|x hay IH]; intros i; simpl; case_bool_decide as H.
  - split.
    + intros [= <-]. split_and!; [done|lia|lia].
    + intros (?&?&_). by replace i with 0%nat by lia.
  - split; [done|]. intros (?&?&_). replace i with 0%nat in * by lia. done.
  - split.
    + intros [= <-]. split_and!; [done|lia|lia].
    + intros (_&_&Hj). destruct i; [done|]. exfalso. by apply (Hj 0%nat ltac:(lia)).
  - split.
    + intros (k&Hk&->)%fmap_Some. apply IH in Hk as (?&?&Hj).
      split_and!; [done|lia|]. intros [|j] ?; [done|]. apply Hj. lia.
    + intros (Hp&?&Hj). destruct i as [|i]; [done|].
      apply fmap_Some. exists i. split; [|done]. apply IH.
      split_and!; [done|lia|]. intros j ?. apply (Hj (S j)). lia.
Qed.

Lemma find_subslice_None hay needle :
  find_subslice hay needle = None ↔
  ∀ j, (j ≤ length hay)%nat → ¬ needle `prefix_of` drop j hay.
Proof.
  induction hay as [|x hay IH]; simpl; case_bool_decide as H.
  - split; [done|]. intros Hj. by destruct (Hj 0%nat ltac:(lia)).
  - split; [|done]. intros _ j ?. by replace j with 0%nat by lia.
  - split; [done|]. intros Hj. by destruct (Hj 0%nat ltac:(lia)).
  - rewrite fmap_None, IH. split.
    + intros Hj [|j] ?; [done|]. apply Hj. lia.
    + intros Hj j ?. apply (Hj (S j)). lia.
Qed.

(** A match already in hand stays the first one when more bytes arrive. *)
Lemma find_subslice_app hay more needle i :
  find_subslice hay needle = Some i → (i + length needle ≤ length hay)%nat →
  find_subslice (hay ++ more) needle = Some i.
Proof.
  intros H Hlen. apply find_subslice_Some in H as (Hp&?&Hj).
  apply find_subslice_Some. split_and!.
  - rewrite drop_app_le by lia. by apply prefix_app_r.
  - rewrite length_app. lia.
  - intros j ? Hpj. apply (Hj j); [done|]. rewrite drop_app_le in Hpj by lia.
    apply (prefix_app_short _ _ more); [done|]. rewrite length_drop. lia.
Qed.

Lemma find_subslice_bound hay needle i :
  find_subslice hay needle = Some i → (i + length needle ≤ length hay)%nat.
Proof.
  intros (Hp&?&_)%find_subslice_Some. apply prefix_length in Hp.
  rewrite length_drop in Hp. lia.
Qed.

(** The first CRLF after a line with no carriage return ends the line. *)
Lemma find_subslice_line line needle rest b :
  head needle = Some b → b ∉ line →
  find_subslice (line ++ needle ++ rest) needle = Some (length line).
Proof.
  intros Hb Hl. destruct needle as [|b' needle]; simplify_eq/=.
  apply find_subslice_Some. split_and!.
  - rewrite drop_app_length. by exists rest.
  - rewrite length_app. lia.
  - intros j Hj Hp. rewrite drop_app_le in Hp by lia.
    destruct (drop j line) as [|c l] eqn:E.
    + apply (f_equal length) in E. rewrite length_drop in E. simpl in E. lia.
    + apply prefix_cons_inv_1 in Hp as ->. apply Hl.
      rewrite <-(take_drop j line), E. set_solver.
Qed.

(** ** ASCII text is its own UTF-8 *)

Lemma from_utf8_fuel_ascii s fuel :
  Forall (λ b, b < 128) s → (length s ≤ fuel)%nat → from_utf8_fuel fuel s = Some s.
Proof.
  intros Hs. revert fuel. induction Hs as [|b s Hb _ IH]; intros fuel Hf; simpl in *.
  - by destruct fuel.
  - destruct fuel as [|fuel]; [lia|]. simpl.
    rewrite (proj2 (Z.ltb_lt _ _)) by done. by rewrite IH by lia.
Qed.

Lemma from_utf8_ascii s : Forall (λ b, b < 128) s → from_utf8 s = Some s.
Proof. intros. by apply from_utf8_fuel_ascii. Qed.

Lemma trim_start_id s : head s ≫= (λ c, Some (is_whitespace c)) ≠ Some true → trim_start s = s.
Proof. destruct s as [|c s]; simpl; [done|]. by destruct (is_whitespace c). Qed.

Lemma trim_id s : Forall (λ c, is_whitespace c = false) s → trim s = s.
Proof.
  intros H. unfold trim, trim_end. rewrite (trim_start_id s), (trim_start_id (reverse s)).
  - apply reverse_involutive.
  - assert (Hr : Forall (λ c, is_whitespace c = false) (reverse s)) by by apply Forall_reverse.
    destruct Hr as [|c ? Hc]; simpl; congruence.
  - destruct H as [|c ? Hc]; simpl; congruence.
Qed.

Lemma position_None b s : b ∉ s → position b s = None.
Proof.
  induction s as [|c s IH]; [done|]. intros [? ?]%not_elem_of_cons. simpl.
  rewrite (proj2 (Z.eqb_neq c b)) by done. by rewrite IH.
Qed.

(** ** Lemmas on numbers *)

Lemma parse_digits_app radix acc s t :
  parse_digits radix acc (s ++ t) = parse_digits radix acc s ≫= λ a, parse_digits radix a t.
Proof.
  revert acc. induction s as [|c s IH]; intros acc; [done|]. simpl.
  destruct (to_digit radix c) as [d|]; [|done]. simpl.
  repeat (case_match; [done|]). apply IH.
Qed.

Lemma to_digit_digit_char radix d :
  0 <= d < radix → radix <= 36 → to_digit radix (digit_char d) = Some d.
Proof.
  intros Hd Hr. unfold digit_char, to_digit, in_range.
  destruct (d <? 10) eqn:E; unbool.
  - rewrite (proj2 (Z.leb_le 48 (48 + d))), (proj2 (Z.leb_le (48 + d) 57)) by lia. simpl.
    replace (48 + d - 48) with d by lia. by rewrite (proj2 (Z.ltb_lt d radix)) by lia.
  - rewrite (proj2 (Z.leb_le 48 _)), (proj2 (Z.leb_gt (87 + d) 57)) by lia. simpl.
    rewrite (proj2 (Z.leb_le 97 _)), (proj2 (Z.leb_le (87 + d) 122)) by lia. simpl.
    replace (87 + d - 97 + 10) with d by lia. by rewrite (proj2 (Z.ltb_lt d radix)) by lia.
Qed.

Lemma parse_digits_last radix acc d :
  0 <= d < radix → radix <= 36 → 0 <= acc → acc * radix + d <= usize_max →
  parse_digits radix acc [digit_char d] = Some (acc * radix + d).
Proof.
  intros. cbn [parse_digits]. rewrite to_digit_digit_char by lia. cbn.
  rewrite (proj2 (Z.ltb_ge usize_max (acc * radix))) by lia.
  by rewrite (proj2 (Z.ltb_ge usize_max (acc * radix + d))) by lia.
Qed.

Lemma parse_digits_render_fuel radix fuel n :
  2 <= radix <= 36 → 0 <= n < radix ^ Z.of_nat (S fuel) → n <= usize_max →
  parse_digits radix 0 (render_fuel fuel radix n) = Some n.
Proof.
  intros Hr. revert n. induction fuel as [|fuel IH]; intros n Hn Hmax; simpl render_fuel.
  - rewrite parse_digits_last by lia; f_equal; lia.
  - case_match; unbool.
    + rewrite parse_digits_last by lia; f_equal; lia.
    + assert (n = radix * (n / radix) + n mod radix) as Heq by (apply Z.div_mod; lia).
      assert (0 <= n mod radix < radix) by (apply Z.mod_pos_bound; lia).
      assert (0 <= n / radix) by (apply Z.div_pos; lia).
      rewrite parse_digits_app, IH; cbn [mbind option_bind].
      * rewrite parse_digits_last by lia; f_equal; lia.
      * split; [done|]. apply Z.div_lt_upper_bound; [lia|].
        rewrite <-Z.pow_succ_r by lia. rewrite <-Nat2Z.inj_succ. lia.
      * nia.
Qed.

Lemma digit_char_range radix d : 0 <= d < radix → radix <= 36 → 48 <= digit_char d <= 122 ∧ digit_char d ≠ 59.
Proof. unfold digit_char. case_match; unbool; lia. Qed.

Lemma render_fuel_chars radix fuel n :
  2 <= radix <= 36 → 0 <= n < radix ^ Z.of_nat (S fuel) →
  Forall (λ c, 48 <= c <= 122 ∧ c ≠ 59) (render_fuel fuel radix n).
Proof.
  intros Hr. revert n. induction fuel as [|fuel IH]; intros n Hn; simpl.
  - change (Z.of_nat 1) with 1 in Hn. constructor; [|done].
    apply (digit_char_range radix); lia.
  - case_match; unbool.
    + constructor; [|done]. apply (digit_char_range radix); lia.
    + apply Forall_app. split.
      * apply IH. split; [apply Z.div_pos; lia|]. apply Z.div_lt_upper_bound; [lia|].
        rewrite <-Z.pow_succ_r by lia. rewrite <-Nat2Z.inj_succ. lia.
      * constructor; [|done]. apply (digit_char_range radix); [|lia].
        apply Z.mod_pos_bound. lia.
Qed.

Lemma render_fuel_not_nil fuel radix n : render_fuel fuel radix n ≠ [].
Proof. destruct fuel; simpl; [done|]. case_match; [done|]. by intros []%app_nil. Qed.

Lemma render_bound radix n :
  2 <= radix → 0 <= n <= usize_max → 0 <= n < radix ^ Z.of_nat 65.
Proof.
  intros Hr Hn. split; [lia|]. apply Z.le_lt_trans with usize_max; [lia|].
  apply Z.lt_le_trans with (2 ^ Z.of_nat 65); [done|]. apply Z.pow_le_mono_l. lia.
Qed.

Lemma render_not_sign radix n c rest :
  2 <= radix <= 36 → 0 <= n <= usize_max → render radix n = c :: rest → c ≠ 43 ∧ c ≠ 45.
Proof.
  intros Hr Hn E.
  pose proof (render_fuel_chars radix 64 n Hr (render_bound radix n (proj1 Hr) Hn)) as Hc.
  unfold render in E. rewrite E in Hc. inversion Hc; subst. lia.
Qed.

(** Reading back what [{n:x}] (radix 16) or [{n}] (radix 10) printed. *)
Lemma from_str_radix_render radix n :
  2 <= radix <= 36 → 0 <= n <= usize_max → from_str_radix radix (render radix n) = Some n.
Proof.
  intros Hr Hn.
  assert (parse_digits radix 0 (render radix n) = Some n) as H.
  { apply parse_digits_render_fuel; [done| |lia]. apply render_bound; lia. }
  unfold from_str_radix. destruct (render radix n) as [|c rest] eqn:E.
  - by destruct (render_fuel_not_nil 64 radix n).
  - destruct (render_not_sign _ _ _ _ Hr Hn E) as [??].
    by rewrite !(proj2 (Z.eqb_neq c _)) by done.
Qed.

Lemma parse_digits_bound radix acc s n :
  0 <= radix → 0 <= acc <= usize_max → parse_digits radix acc s = Some n → 0 <= n <= usize_max.
Proof.
  intros Hr. revert acc. induction s as [|c s IH]; intros acc Ha; simpl; [naive_solver|].
  destruct (to_digit radix c) as [d|] eqn:Ed; [|done]. simpl.
  assert (0 <= d) by (unfold to_digit, in_range in Ed; break; unbool; lia).
  repeat (case_match; [done|]). unbool. apply IH. nia.
Qed.

Lemma from_str_radix_bound radix s n :
  0 <= radix → from_str_radix radix s = Some n → 0 <= n <= usize_max.
Proof.
  intros Hr H. unfold from_str_radix in H.
  destruct s as [|c s]; [done|]. repeat (case_match; [done|]).
  case_match; eapply parse_digits_bound; eauto; unfold usize_max; lia.
Qed.
