(* ===== verification/Num.v ===== *)
(** * [f64]: the [Num] values of the language

    A double is a [spec_float] of the Standard Library at precision 53 and
    maximal exponent 1024 (one NaN; [NumLit]'s bit equality is then Leibniz
    equality on the values a literal can denote).  The operations are the casts
    and the decimal parser of Rust's standard library that the sources use. *)

From S2P Require Import Prelude Bytes.
From Stdlib Require Import SpecFloat.
Open Scope Z_scope.

Definition f64 : Type := spec_float.
Definition prec : Z := 53.
Definition emax : Z := 1024.

#[export] Instance f64_eq_dec : EqDecision f64.
Proof. unfold f64. solve_decision. Defined.

(** The integer [z], rounded to nearest even. *)
Definition f64_of_Z (z : Z) : f64 := binary_normalize prec emax z 0 false.

(** [f as usize]: towards zero, saturating at the bounds, NaN to 0. *)
Definition as_usize (f : f64) : Z :=
  match f with
  | S754_zero _ | S754_nan => 0
  | S754_infinity s => if s then 0 else usize_max
  | S754_finite s m e =>
      if s then 0
      else Z.min usize_max (if 0 <=? e then Zpos m * 2 ^ e else Zpos m / 2 ^ (- e))
  end.

Lemma as_usize_bound f : 0 <= as_usize f <= usize_max.
Proof.
  destruct f as [s|s| |s m e]; simpl; try (unfold usize_max; lia).
  - destruct s; unfold usize_max; lia.
  - destruct s; [unfold usize_max; lia|]. split; [|lia].
    apply Z.min_glb; [unfold usize_max; lia|]. case_match; unbool.
    + apply Z.mul_nonneg_nonneg; [lia|]. apply Z.pow_nonneg. lia.
    + apply Z.div_pos; [lia|]. apply Z.pow_pos_nonneg; lia.
Qed.

(** The value of a run of decimal digits. *)
Definition decimal (digits : list Z) : Z := fold_left (λ acc c, acc * 10 + (c - 48)) digits 0.

(** [n / 10^k * 10^x], correctly rounded: the quotient of two integers with a
    sticky remainder, rounded once. *)
Definition f64_ratio (n d : Z) : f64 :=
  match n, d with
  | Zpos n, Zpos d =>
      let '(m, e, l) := SFdiv_core_binary prec emax (Zpos n) 0 (Zpos d) 0 in
      binary_round_aux prec emax false m e l
  | _, _ => S754_zero false
  end.

(** [str::parse::<f64>] on the lexer's two shapes of number, [int] and
    [int.frac] ([frac] may be empty), with a decimal exponent. *)
Definition parse_f64 (int frac : list Z) (exponent : Z) : f64 :=
  let n := decimal (int ++ frac) in
  let e := exponent - Z.of_nat (length frac) in
  if 0 <=? e then f64_ratio (n * 10 ^ e) 1 else f64_ratio n (10 ^ (- e)).

Definition is_finite (f : f64) : bool :=
  match f with S754_zero _ | S754_finite _ _ _ => true | _ => false end.

Definition f64_neg (f : f64) : f64 := SFopp f.

Example parse_f64_half : parse_f64 (bs "0") (bs "5") 0 = S754_finite false 4503599627370496 (-53).
Proof. reflexivity. Qed.
Example parse_f64_tenth : parse_f64 (bs "0") (bs "1") 0 = S754_finite false 7205759403792794 (-56).
Proof. reflexivity. Qed.
Example as_usize_1024 : as_usize (f64_of_Z 1024) = 1024.
Proof. reflexivity. Qed.

(** ** Printing: [format!("{value}")] *)

(** The exact value of a finite double as a fraction. *)
Definition fraction (f : f64) : Z * Z :=
  match f with
  | S754_finite _ m e => if 0 <=? e then (Zpos m * 2 ^ e, 1) else (Zpos m, 2 ^ (- e))
  | _ => (0, 1)
  end.

(** The [k] with [10^(k-1) <= n/d < 10^k]. *)
Fixpoint leading_zeros (fuel : nat) (n d : Z) : Z :=
  match fuel with
  | O => 0
  | S fuel' => if d <=? n * 10 then 0 else 1 + leading_zeros fuel' (n * 10) d
  end.
Definition decimal_exponent (n d : Z) : Z :=
  if d <=? n then Z.of_nat (length (render_fuel 400 10 (n / d)))
  else - leading_zeros 400 n d.

Definition scaled (digits e : Z) : f64 :=
  if 0 <=? e then f64_ratio (digits * 10 ^ e) 1 else f64_ratio digits (10 ^ (- e)).

(** The decimal with [p] digits closest to [n/d] among those that read back as
    [f]: its digits and the power of ten they are scaled by. *)
Definition digits_at (f : f64) (n d k p : Z) : option (Z * Z) :=
  let e := k - p in
  let '(num, den) := if 0 <=? e then (n, d * 10 ^ e) else (n * 10 ^ (- e), d) in
  let lo := num / den in
  let candidate c := if bool_decide (scaled c e = f) then Some (c, e) else None in
  let '(near, far) := if 2 * (num mod den) <=? den then (lo, lo + 1) else (lo + 1, lo) in
  match candidate near with Some r => Some r | None => candidate far end.

Fixpoint shortest (fuel : nat) (f : f64) (n d k p : Z) : option (Z * Z) :=
  match fuel with
  | O => None
  | S fuel' =>
      match digits_at f n d k p with
      | Some r => Some r
      | None => shortest fuel' f n d k (p + 1)
      end
  end.

Fixpoint strip_zeros (fuel : nat) (digits e : Z) : Z * Z :=
  match fuel with
  | O => (digits, e)
  | S fuel' =>
      if (e <? 0) && (digits mod 10 =? 0) then strip_zeros fuel' (digits / 10) (e + 1)
      else (digits, e)
  end.

(** Positional notation, never an exponent. *)
Definition positional (digits e : Z) : list Z :=
  let '(digits, e) := strip_zeros 32 digits e in
  let s := render_fuel 400 10 digits in
  if 0 <=? e then s ++ replicate (Z.to_nat e) 48
  else
    let point := Z.to_nat (- e) in
    let s := replicate (S point - length s) 48 ++ s in
    take (length s - point) s ++ [46] ++ drop (length s - point) s.

(** The shortest decimal that reads back as the value; seventeen digits
    always do. *)
Definition f64_display (f : f64) : list Z :=
  match f with
  | S754_zero s => (if s then bs "-" else []) ++ bs "0"
  | S754_infinity s => (if s then bs "-" else []) ++ bs "inf"
  | S754_nan => bs "NaN"
  | S754_finite s m e =>
      let '(n, d) := fraction f in
      (if s then bs "-" else []) ++
      match shortest 17 (S754_finite false m e) n d (decimal_exponent n d) 1 with
      | Some (digits, e) => positional digits e
      | None => bs "?"
      end
  end.

Example display_tenth : f64_display (parse_f64 (bs "0") (bs "1") 0) = bs "0.1".
Proof. reflexivity. Qed.
Example display_1e23 : f64_display (parse_f64 (bs "1") [] 23) = bs "100000000000000000000000".
Proof. vm_compute. reflexivity. Qed.
Example display_1e_5 : f64_display (parse_f64 (bs "1") (bs "0") (-5)) = bs "0.00001".
Proof. vm_compute. reflexivity. Qed.
Example display_third : f64_display (f64_ratio 1 3) = bs "0.3333333333333333".
Proof. vm_compute. reflexivity. Qed.
Example display_max : f64_display (S754_finite false 9007199254740991 971)
  = bs "17976931348623157" ++ replicate 292 48.
Proof. vm_compute. reflexivity. Qed.
Example display_min : f64_display (S754_finite false 1 (-1074)) = bs "0." ++ replicate 323 48 ++ bs "5".
Proof. vm_compute. reflexivity. Qed.

(** ** Whole numbers *)

(** [f.trunc()]. *)
Definition f64_trunc (f : f64) : f64 :=
  match f with
  | S754_finite s m e =>
      if 0 <=? e then f
      else let q := Zpos m / 2 ^ (- e) in
           if q =? 0 then S754_zero s else f64_of_Z (if s then - q else q)
  | _ => f
  end.

(** [f.fract() == 0.0]; the fraction of an infinity is a NaN. *)
Definition is_whole (f : f64) : bool :=
  match f with
  | S754_zero _ => true
  | S754_finite _ m e => (0 <=? e) || (Zpos m mod 2 ^ (- e) =? 0)
  | _ => false
  end.

(** [f as i64] of a value in range. *)
Definition as_i64 (f : f64) : Z :=
  match f with
  | S754_finite s m e =>
      let n := if 0 <=? e then Zpos m * 2 ^ e else Zpos m / 2 ^ (- e) in if s then - n else n
  | _ => 0
  end.

Definition f64_lt (a b : f64) : bool := SFltb a b.
Definition f64_le (a b : f64) : bool := SFleb a b.

(** [quilon-rt/src/mem.rs]: a whole value below [1e15] without a point, anything
    else as Rust prints it. *)
Definition format_num (x : f64) : list Z :=
  if is_finite x && is_whole x && f64_lt (SFabs x) (f64_of_Z (10 ^ 15)) then
    let n := as_i64 x in (if n <? 0 then bs "-" else []) ++ render 10 (Z.abs n)
  else f64_display x.

Definition MAX_EXACT_NUM : f64 := f64_of_Z (2 ^ 53).

Definition is_infinite (f : f64) : bool := match f with S754_infinity _ => true | _ => false end.

(** An end of a range: the integer, or why it is refused. *)
Definition check_range_endpoint (value : f64) : result string Z :=
  if negb (is_whole value) && negb (is_infinite value) then
    Err (string_of_bytes (bs "a range endpoint must be a whole number (got " ++ format_num value ++ bs ")"))
  else if f64_lt MAX_EXACT_NUM (SFabs value) then
    Err (string_of_bytes (bs "a range endpoint must be a whole number a Num holds exactly, at most "
           ++ format_num MAX_EXACT_NUM ++ bs " in magnitude (got " ++ format_num value ++ bs ")"))
  else Ok (as_i64 value).

Example endpoint_fraction :
  check_range_endpoint (f64_ratio 3 2) = Err "a range endpoint must be a whole number (got 1.5)"%string.
Proof. vm_compute. reflexivity. Qed.
Example endpoint_whole : check_range_endpoint (SFopp (f64_of_Z 4)) = Ok (-4).
Proof. reflexivity. Qed.

(** A range the checker accepts is exact: its integer converts back to the value,
    zero losing its sign. *)
Lemma f64_of_Z_small_bound : check_range_endpoint (f64_of_Z (2 ^ 53)) = Ok (2 ^ 53)
  ∧ match check_range_endpoint (f64_of_Z (2 ^ 53 + 2)) with Err _ => True | Ok _ => False end.
Proof. split; vm_compute; done. Qed.
