(* ===== verification/Codes.v ===== *)
(** * The registry of diagnostic codes: [src/diagnostic/codes.rs]

    Every diagnostic the compiler or a compiled program can raise, its number
    and title, the family (and exit status) a number belongs to, and the reading
    and printing of codes as [QN012].  A [&str] is the list of its bytes; the
    explanations, embedded documentation, are not modelled. *)

From S2P Require Import Prelude Bytes.
From Stdlib Require Import Sorted.
Open Scope Z_scope.

Inductive Code : Type :=
| SourceNotReadable
| NotAQuilonSource
| InvalidToken
| UnterminatedString
| BidiControl
| ScientificNotation
| UnexpectedToken
| NestingTooDeep
| TooManyParameters
| EmptyMatch
| InterpolationHole
| ImportPathInterpolated
| NotAnImportedModule
| AmbiguousTypeDeclaration
| OperatorMemberMutable
| VariantNotCapitalized
| SumTypeHasFields
| BodyNotABlock
| ExportMarkerAsBlockClosers
| NameGluedToSymbol
| NestedMatchNeedsParens
| EarlyBlockClose
| InterpolatedTextPattern
| EmptyTrap
| MixedRecordFields
| NumberedRecordFieldWithoutSpread
| LeadingZeroPosition
| VariantMultiplePayloads
| AtDeclarationOutsideCorelib
| UnknownModule
| NotExported
| NameClaimedByImport
| ImportCycle
| ModuleNameCollision
| ModuleIsNotAValue
| AmbiguousModulePrefix
| NoTestHarness
| UndefinedVariable
| TypeMismatch
| NotAFunction
| WrongNumberOfArguments
| ImmutableAssignment
| ImmutableFieldWrite
| MutableAliasOfImmutable
| ImmutableAliasOfMutable
| MutatingMethodOnImmutable
| MutatingMethodDeclaredImmutable
| DuplicateDefinition
| NoMatchingOverload
| AmbiguousOverload
| OverloadMissingAnnotation
| UnannotatedParameter
| SignatureArity
| UninferableLambdaParameter
| RecursiveFunctionNeedsReturnType
| SiteIsImmutable
| MisplacedSiteParameter
| OverloadCallBeforeDefinition
| UnannotatedOverloadMember
| ComparisonOverloadNotBool
| RefutableConstructorArg
| NonExhaustiveMatch
| UnknownConstructor
| ConstructorPatternOnNonSum
| InvalidEntryPointSignature
| InvalidBuiltinArgument
| ExportedMutableGlobal
| OperatorMustBeMember
| OperatorMemberArity
| AssertionNeedsMatcher
| ExpectOutsideTest
| MatcherArity
| MatcherTypeUnsupported
| UnknownMember
| MethodCalledAsFunction
| NotRenderable
| NoEntryPoint
| StaticCallNeedsReceiverValue
| MutableStoreOfImmutable
| MissingConstructorField
| UnknownConstructorField
| ReservedName
| FunctionTypedField
| InvalidPayloadType
| AtomicBindingNotMutable
| AtomicBindingUsedBare
| AtomicReassignmentForced
| SharedAcrossFibers
| UnresolvedResultPayload
| NeverReachable
| ReachableOnlyFromTests
| TrapOutsideRootFile
| SecondTrap
| TrapWithoutProcessImport
| TrapArmNotASignalPattern
| DuplicateTrapArm
| PositionalAccessOnNamedRecord
| RecordPositionOutOfRange
| RecordUpdatePositionOutOfRange
| MultiplePositionalSpreads
| ListenerIdentityMismatch
| AssertionNeverHolds
| UnreachableMatchArm
| PayloadOfUnknownVariant
| PayloadOfPayloadlessVariant
| CodegenFailed
| BuildFailed
| AssertionFailed
| IndexOutOfBounds
| RangeEndpointNotWhole
| MatchFailed
| AllocationFailed
| ReadFailed
| ReplaceEmptyFrom
| StackOverflow
| WriteFdNotWhole
| WriteFailed
| ReplaceInvalidCount
| BindFailed
| ListenerIdentityMismatchAtStartup
| IdentityLoadFailed
| AmbiguousServerAddress.

(** The discriminant: [self as u16]. *)
Definition number (code : Code) : Z :=
  match code with
  | SourceNotReadable => 0
  | NotAQuilonSource => 1
  | InvalidToken => 2
  | UnterminatedString => 3
  | BidiControl => 4
  | ScientificNotation => 5
  | UnexpectedToken => 100
  | NestingTooDeep => 101
  | TooManyParameters => 102
  | EmptyMatch => 103
  | InterpolationHole => 104
  | ImportPathInterpolated => 105
  | NotAnImportedModule => 106
  | AmbiguousTypeDeclaration => 107
  | OperatorMemberMutable => 108
  | VariantNotCapitalized => 109
  | SumTypeHasFields => 110
  | BodyNotABlock => 111
  | ExportMarkerAsBlockClosers => 112
  | NameGluedToSymbol => 113
  | NestedMatchNeedsParens => 114
  | EarlyBlockClose => 115
  | InterpolatedTextPattern => 116
  | EmptyTrap => 117
  | MixedRecordFields => 118
  | NumberedRecordFieldWithoutSpread => 119
  | LeadingZeroPosition => 120
  | VariantMultiplePayloads => 121
  | AtDeclarationOutsideCorelib => 200
  | UnknownModule => 201
  | NotExported => 202
  | NameClaimedByImport => 203
  | ImportCycle => 204
  | ModuleNameCollision => 205
  | ModuleIsNotAValue => 206
  | AmbiguousModulePrefix => 207
  | NoTestHarness => 208
  | UndefinedVariable => 300
  | TypeMismatch => 301
  | NotAFunction => 302
  | WrongNumberOfArguments => 303
  | ImmutableAssignment => 304
  | ImmutableFieldWrite => 305
  | MutableAliasOfImmutable => 306
  | ImmutableAliasOfMutable => 307
  | MutatingMethodOnImmutable => 308
  | MutatingMethodDeclaredImmutable => 309
  | DuplicateDefinition => 310
  | NoMatchingOverload => 311
  | AmbiguousOverload => 312
  | OverloadMissingAnnotation => 313
  | UnannotatedParameter => 314
  | SignatureArity => 315
  | UninferableLambdaParameter => 316
  | RecursiveFunctionNeedsReturnType => 317
  | SiteIsImmutable => 318
  | MisplacedSiteParameter => 319
  | OverloadCallBeforeDefinition => 320
  | UnannotatedOverloadMember => 321
  | ComparisonOverloadNotBool => 322
  | RefutableConstructorArg => 323
  | NonExhaustiveMatch => 324
  | UnknownConstructor => 325
  | ConstructorPatternOnNonSum => 326
  | InvalidEntryPointSignature => 327
  | InvalidBuiltinArgument => 328
  | ExportedMutableGlobal => 329
  | OperatorMustBeMember => 330
  | OperatorMemberArity => 331
  | AssertionNeedsMatcher => 332
  | ExpectOutsideTest => 333
  | MatcherArity => 334
  | MatcherTypeUnsupported => 335
  | UnknownMember => 336
  | MethodCalledAsFunction => 337
  | NotRenderable => 338
  | NoEntryPoint => 339
  | StaticCallNeedsReceiverValue => 340
  | MutableStoreOfImmutable => 341
  | MissingConstructorField => 342
  | UnknownConstructorField => 343
  | ReservedName => 344
  | FunctionTypedField => 345
  | InvalidPayloadType => 346
  | AtomicBindingNotMutable => 347
  | AtomicBindingUsedBare => 348
  | AtomicReassignmentForced => 349
  | SharedAcrossFibers => 350
  | UnresolvedResultPayload => 351
  | NeverReachable => 352
  | ReachableOnlyFromTests => 353
  | TrapOutsideRootFile => 354
  | SecondTrap => 355
  | TrapWithoutProcessImport => 356
  | TrapArmNotASignalPattern => 357
  | DuplicateTrapArm => 358
  | PositionalAccessOnNamedRecord => 359
  | RecordPositionOutOfRange => 360
  | RecordUpdatePositionOutOfRange => 361
  | MultiplePositionalSpreads => 362
  | ListenerIdentityMismatch => 363
  | AssertionNeverHolds => 364
  | UnreachableMatchArm => 365
  | PayloadOfUnknownVariant => 366
  | PayloadOfPayloadlessVariant => 367
  | CodegenFailed => 400
  | BuildFailed => 401
  | AssertionFailed => 500
  | IndexOutOfBounds => 501
  | RangeEndpointNotWhole => 502
  | MatchFailed => 503
  | AllocationFailed => 504
  | ReadFailed => 505
  | ReplaceEmptyFrom => 506
  | StackOverflow => 507
  | WriteFdNotWhole => 508
  | WriteFailed => 509
  | ReplaceInvalidCount => 510
  | BindFailed => 511
  | ListenerIdentityMismatchAtStartup => 512
  | IdentityLoadFailed => 513
  | AmbiguousServerAddress => 514
  end.

(** Every code, in the order of the registry. *)
Definition ALL : list Code :=
  [SourceNotReadable; NotAQuilonSource; InvalidToken;
   UnterminatedString; BidiControl; ScientificNotation;
   UnexpectedToken; NestingTooDeep; TooManyParameters;
   EmptyMatch; InterpolationHole; ImportPathInterpolated;
   NotAnImportedModule; AmbiguousTypeDeclaration; OperatorMemberMutable;
   VariantNotCapitalized; SumTypeHasFields; BodyNotABlock;
   ExportMarkerAsBlockClosers; NameGluedToSymbol; NestedMatchNeedsParens;
   EarlyBlockClose; InterpolatedTextPattern; EmptyTrap;
   MixedRecordFields; NumberedRecordFieldWithoutSpread; LeadingZeroPosition;
   VariantMultiplePayloads; AtDeclarationOutsideCorelib; UnknownModule;
   NotExported; NameClaimedByImport; ImportCycle;
   ModuleNameCollision; ModuleIsNotAValue; AmbiguousModulePrefix;
   NoTestHarness; UndefinedVariable; TypeMismatch;
   NotAFunction; WrongNumberOfArguments; ImmutableAssignment;
   ImmutableFieldWrite; MutableAliasOfImmutable; ImmutableAliasOfMutable;
   MutatingMethodOnImmutable; MutatingMethodDeclaredImmutable; DuplicateDefinition;
   NoMatchingOverload; AmbiguousOverload; OverloadMissingAnnotation;
   UnannotatedParameter; SignatureArity; UninferableLambdaParameter;
   RecursiveFunctionNeedsReturnType; SiteIsImmutable; MisplacedSiteParameter;
   OverloadCallBeforeDefinition; UnannotatedOverloadMember; ComparisonOverloadNotBool;
   RefutableConstructorArg; NonExhaustiveMatch; UnknownConstructor;
   ConstructorPatternOnNonSum; InvalidEntryPointSignature; InvalidBuiltinArgument;
   ExportedMutableGlobal; OperatorMustBeMember; OperatorMemberArity;
   AssertionNeedsMatcher; ExpectOutsideTest; MatcherArity;
   MatcherTypeUnsupported; UnknownMember; MethodCalledAsFunction;
   NotRenderable; NoEntryPoint; StaticCallNeedsReceiverValue;
   MutableStoreOfImmutable; MissingConstructorField; UnknownConstructorField;
   ReservedName; FunctionTypedField; InvalidPayloadType;
   AtomicBindingNotMutable; AtomicBindingUsedBare; AtomicReassignmentForced;
   SharedAcrossFibers; UnresolvedResultPayload; NeverReachable;
   ReachableOnlyFromTests; TrapOutsideRootFile; SecondTrap;
   TrapWithoutProcessImport; TrapArmNotASignalPattern; DuplicateTrapArm;
   PositionalAccessOnNamedRecord; RecordPositionOutOfRange; RecordUpdatePositionOutOfRange;
   MultiplePositionalSpreads; ListenerIdentityMismatch; AssertionNeverHolds;
   UnreachableMatchArm; PayloadOfUnknownVariant; PayloadOfPayloadlessVariant;
   CodegenFailed; BuildFailed; AssertionFailed;
   IndexOutOfBounds; RangeEndpointNotWhole; MatchFailed;
   AllocationFailed; ReadFailed; ReplaceEmptyFrom;
   StackOverflow; WriteFdNotWhole; WriteFailed;
   ReplaceInvalidCount; BindFailed; ListenerIdentityMismatchAtStartup;
   IdentityLoadFailed; AmbiguousServerAddress].

Definition title (code : Code) : string :=
  match code with
  | SourceNotReadable => "unreadable source file"
  | NotAQuilonSource => "source file with an extension other than `.qn`"
  | InvalidToken => "invalid token"
  | UnterminatedString => "unterminated string literal"
  | BidiControl => "misplaced bidirectional control character"
  | ScientificNotation => "scientific notation literal"
  | UnexpectedToken => "unexpected token"
  | NestingTooDeep => "expression nesting too deep"
  | TooManyParameters => "too many parameters"
  | EmptyMatch => "match with no arms"
  | InterpolationHole => "interpolation hole with more than one expression"
  | ImportPathInterpolated => "import path with interpolation"
  | NotAnImportedModule => "qualified name through a missing import"
  | AmbiguousTypeDeclaration => "ambiguous `{ }` type declaration"
  | OperatorMemberMutable => "operator member declared with `:=`"
  | VariantNotCapitalized => "lowercase sum-type variant"
  | SumTypeHasFields => "sum type with fields or a mutating method"
  | BodyNotABlock => "bare expression as a function body"
  | ExportMarkerAsBlockClosers => "`>>` where two block closers were meant"
  | NameGluedToSymbol => "disallowed character glued to a name"
  | NestedMatchNeedsParens => "match used as a match-arm body without parentheses"
  | EarlyBlockClose => "a line-final `>` closed a block earlier than intended"
  | InterpolatedTextPattern => "text pattern with interpolation"
  | EmptyTrap => "signal trap with no arms"
  | MixedRecordFields => "mixed named and positional record fields"
  | NumberedRecordFieldWithoutSpread => "numbered record field without a spread"
  | LeadingZeroPosition => "record position with a leading zero"
  | VariantMultiplePayloads => "sum-type variant with more than one payload"
  | AtDeclarationOutsideCorelib => "`@` primitive declared outside the corelib"
  | UnknownModule => "missing module"
  | NotExported => "private member reached through its module"
  | NameClaimedByImport => "name claimed by an import"
  | ImportCycle => "import cycle"
  | ModuleNameCollision => "two modules with one name"
  | ModuleIsNotAValue => "module binding used as a value"
  | AmbiguousModulePrefix => "ambiguous module prefix"
  | NoTestHarness => "test blocks without `core.test`"
  | UndefinedVariable => "undefined name"
  | TypeMismatch => "type mismatch"
  | NotAFunction => "call on a data value"
  | WrongNumberOfArguments => "wrong number of arguments"
  | ImmutableAssignment => "assignment to an immutable binding"
  | ImmutableFieldWrite => "write through an immutable binding"
  | MutableAliasOfImmutable => "`:=` binding aliasing an immutable value"
  | ImmutableAliasOfMutable => "`=` binding aliasing a mutable value"
  | MutatingMethodOnImmutable => "mutating method on an immutable receiver"
  | MutatingMethodDeclaredImmutable => "mutating method declared with `=`"
  | DuplicateDefinition => "duplicate definition"
  | NoMatchingOverload => "no matching overload"
  | AmbiguousOverload => "ambiguous overload"
  | OverloadMissingAnnotation => "overload member with an unannotated parameter"
  | UnannotatedParameter => "parameter without a type"
  | SignatureArity => "parameter count differs from the function type"
  | UninferableLambdaParameter => "lambda parameter with an open type"
  | RecursiveFunctionNeedsReturnType => "recursive function without a return type"
  | SiteIsImmutable => "write to a `Site` field"
  | MisplacedSiteParameter => "misplaced `Site` parameter"
  | OverloadCallBeforeDefinition => "call before the definition"
  | UnannotatedOverloadMember => "overload member without a return type"
  | ComparisonOverloadNotBool => "comparison operator returning a type other than `Bool`"
  | RefutableConstructorArg => "nested pattern inside a constructor pattern"
  | NonExhaustiveMatch => "non-exhaustive match"
  | UnknownConstructor => "unknown variant"
  | ConstructorPatternOnNonSum => "constructor pattern on a non-sum value"
  | InvalidEntryPointSignature => "unsupported `^` signature"
  | InvalidBuiltinArgument => "invalid argument to a built-in"
  | ExportedMutableGlobal => "mutable global exported"
  | OperatorMustBeMember => "operator defined at the top level"
  | OperatorMemberArity => "operator member with the wrong parameter count"
  | AssertionNeedsMatcher => "assertion without a matcher"
  | ExpectOutsideTest => "`expect` outside a test case"
  | MatcherArity => "matcher with the wrong argument count"
  | MatcherTypeUnsupported => "matcher on a type outside its reach"
  | UnknownMember => "unknown member"
  | MethodCalledAsFunction => "method called as a function"
  | NotRenderable => "value with no rendering"
  | NoEntryPoint => "no `^` entry point"
  | StaticCallNeedsReceiverValue => "static call on a method that reads its receiver"
  | MutableStoreOfImmutable => "store into a mutable container aliasing an immutable value"
  | MissingConstructorField => "missing constructor field"
  | UnknownConstructorField => "unknown constructor field"
  | ReservedName => "reserved name"
  | FunctionTypedField => "record field with a function type"
  | InvalidPayloadType => "unsupported sum-type payload"
  | AtomicBindingNotMutable => "atomic binding declared without `:=`"
  | AtomicBindingUsedBare => "atomic binding used with `@` after its declaration"
  | AtomicReassignmentForced => "atomic binding reassignment waits on a deferred value"
  | SharedAcrossFibers => "`:=` value shared across fibers"
  | UnresolvedResultPayload => "unresolved `Result` payload"
  | NeverReachable => "top-level function never called"
  | ReachableOnlyFromTests => "top-level function reachable only from test blocks"
  | TrapOutsideRootFile => "signal trap outside the root file"
  | SecondTrap => "second signal trap"
  | TrapWithoutProcessImport => "signal trap without `core.process`"
  | TrapArmNotASignalPattern => "signal trap arm without a signal pattern"
  | DuplicateTrapArm => "duplicate signal trap arm"
  | PositionalAccessOnNamedRecord => "positional access on a named record"
  | RecordPositionOutOfRange => "record position out of range"
  | RecordUpdatePositionOutOfRange => "record update overriding a position past the spread source"
  | MultiplePositionalSpreads => "more than one positional spread in a record literal"
  | ListenerIdentityMismatch => "mismatched listener transport and identity"
  | AssertionNeverHolds => "assertion a proven variant already rules out"
  | UnreachableMatchArm => "match arm a proven variant already rules out"
  | PayloadOfUnknownVariant => "payload of a variant that is not known"
  | PayloadOfPayloadlessVariant => "payload of a variant that carries none"
  | CodegenFailed => "code generation failed"
  | BuildFailed => "native build failed"
  | AssertionFailed => "assertion failed"
  | IndexOutOfBounds => "index out of bounds"
  | RangeEndpointNotWhole => "fractional or unrepresentable range endpoint"
  | MatchFailed => "no arm matched"
  | AllocationFailed => "allocation failed"
  | ReadFailed => "reading stdin failed"
  | ReplaceEmptyFrom => "empty `from` in `replace`/`replaceAll`"
  | StackOverflow => "stack overflow"
  | WriteFdNotWhole => "invalid write file descriptor"
  | WriteFailed => "write failed"
  | ReplaceInvalidCount => "invalid `replace` count"
  | BindFailed => "bind failed"
  | ListenerIdentityMismatchAtStartup => "mismatched listener transport and identity at startup"
  | IdentityLoadFailed => "TLS identity failed to load"
  | AmbiguousServerAddress => "address() on a server with more than one listener"
  end%string.

Definition family (code : Code) : Z :=
  let family := number code / 100 in
  if family =? 0 then 1 else family.

(** [str::strip_prefix]. *)
Definition strip_prefix (prefix text : list Z) : option (list Z) :=
  if bool_decide (prefix `prefix_of` text) then Some (drop (length prefix) text) else None.

(** [str::parse::<u16>]: the [usize] reader, with the bound of [u16]. *)
Definition parse_u16 (digits : list Z) : option Z :=
  n ← from_str_radix 10 digits; if n <? 2 ^ 16 then Some n else None.

Definition parse (text : list Z) : option Code :=
  let digits := match strip_prefix (bs "QN") text with
                | Some rest => rest
                | None => default text (strip_prefix (bs "qn") text)
                end in
  n ← parse_u16 digits;
  snd <$> list_find (λ code, number code = n) ALL.

(** [{:03}]: decimal, padded with zeros on the left to three digits. *)
Definition pad3 (n : Z) : list Z :=
  let s := render 10 n in replicate (3 - length s) 48 ++ s.

(** [impl Display for Code]. *)
Definition display (code : Code) : list Z := bs "QN" ++ pad3 (number code).

(** ** Lemmas *)

Definition of_number (n : Z) : option Code :=
  snd <$> list_find (λ code, number code = n) ALL.

Lemma of_number_number code : of_number (number code) = Some code.
Proof. by destruct code; vm_compute. Qed.

#[export] Instance number_inj : Inj (=) (=) number.
Proof.
  intros c1 c2 H. apply (inj Some). by rewrite <-!of_number_number, H.
Qed.

#[export] Instance Code_eq_dec : EqDecision Code.
Proof.
  refine (λ c1 c2, cast_if (decide (number c1 = number c2))); [by apply (inj number)|by intros ->].
Defined.

(** ** Properties *)

(** A printed code reads back as itself, with either spelling of the prefix
    and as a bare number. *)
Theorem parse_display code :
  parse (display code) = Some code ∧
  parse (bs "qn" ++ pad3 (number code)) = Some code ∧
  parse (render 10 (number code)) = Some code.
Proof. destruct code; split_and!; by vm_compute. Qed.

(** The registry lists every code exactly once, in strictly ascending order
    of their numbers, so no two codes share a number. *)
Theorem registry_ascending :
  (∀ code, code ∈ ALL) ∧ Sorted Z.lt (number <$> ALL) ∧ Inj (=) (=) number.
Proof.
  split_and!; [|by repeat constructor|apply _].
  intros code. pose proof (of_number_number code) as H. unfold of_number in H.
  apply fmap_Some in H as ([i c]&H&->). apply list_find_Some in H as [H _].
  by eapply list_elem_of_lookup_2.
Qed.
