(* ===== verification/Token.v ===== *)
(** * Tokens: [src/lexer/token.rs], the data

    Spans, string chunks, the lexer's errors and the token kinds, with how a
    diagnostic names a kind and which kinds can start an operand.  Text is a
    [string] (its bytes); offsets are integers. *)

From S2P Require Import Prelude Bytes Num.
Open Scope Z_scope.

Definition FileId : Type := Z.
Definition ROOT_FILE : FileId := 0.
Definition SYNTHESIZED_FILE : FileId := 2 ^ 32 - 1.

Record Span : Type := mkSpan { start : Z; end_ : Z; file : FileId }.

Definition in_root (start end_ : Z) : Span := mkSpan start end_ ROOT_FILE.
Definition in_file (start end_ : Z) (file : FileId) : Span := mkSpan start end_ file.
(** The half-open byte range, as its two bounds. *)
Definition range (span : Span) : Z * Z := (start span, end_ span).

#[export] Instance Span_eq_dec : EqDecision Span.
Proof. solve_decision. Defined.

(** [NumLit] wraps an [f64] compared by its bits. *)
Definition NumLit : Type := f64.

Module StrChunk.
Inductive StrChunk : Type :=
| Lit (text : string)
| Hole (src : string) (offset : Z).
End StrChunk.
Export StrChunk (StrChunk).

#[export] Instance StrChunk_eq_dec : EqDecision StrChunk.
Proof. solve_decision. Defined.

Module BidiIssue.
Inductive BidiIssue : Type :=
| Unclosed (ch : Z) (token : string)
| StrayCloser (ch : Z) (token : string)
| Outside (ch : Z).
End BidiIssue.
Export BidiIssue (BidiIssue).

Module TokenLexError.
Inductive TokenLexError : Type :=
| InvalidToken
| UnterminatedString
| Bidi (issue : BidiIssue)
| ScientificNotation (rendered : option (list Z)).
End TokenLexError.
Export TokenLexError (TokenLexError).

Module TokenKind.
Inductive TokenKind : Type :=
| Comment
| StrayBidiControl
| Number (value : NumLit)
| String (chunks : list StrChunk)
| True
| False
| Underscore
| Ident
| Assign
| MutAssign
| Arrow
| ReturnArrow
| LeftArrow
| TypeAnnotation
| At
| EntryPoint
| Unit
| Export
| Import
| Trap
| Question
| Pipe
| BlockOpen
| BlockClose
| Gt
| BraceOpen
| BraceClose
| ParenOpen
| ParenClose
| BracketOpen
| BracketClose
| Comma
| Dot
| Plus
| Minus
| Star
| Slash
| Percent
| PlusMinus
| MinusPlus
| Eq
| Ne
| Le
| Ge
| And
| Or
| Not
| Colon
| Backtick
| Eof.
End TokenKind.
Export TokenKind (TokenKind).

#[export] Instance TokenKind_eq_dec : EqDecision TokenKind.
Proof. solve_decision. Defined.

Definition describe (kind : TokenKind) : string :=
  let symbol s := ("`" +:+ s +:+ "`")%string in
  match kind with
  | TokenKind.Comment => "a `~` comment"
  | TokenKind.StrayBidiControl => "a bidirectional control character"
  | TokenKind.Number _ => "a number"
  | TokenKind.String _ => "a string literal"
  | TokenKind.Ident => "a name"
  | TokenKind.Eof => "the end of the file"
  | TokenKind.True => symbol "true"
  | TokenKind.False => symbol "false"
  | TokenKind.Underscore => symbol "_"
  | TokenKind.Assign => symbol "="
  | TokenKind.MutAssign => symbol ":="
  | TokenKind.Arrow => symbol "=>"
  | TokenKind.ReturnArrow => symbol "->"
  | TokenKind.LeftArrow => symbol "<-"
  | TokenKind.TypeAnnotation => symbol "::"
  | TokenKind.At => symbol "@"
  | TokenKind.EntryPoint => symbol "^"
  | TokenKind.Unit => symbol "$"
  | TokenKind.Export => symbol ">>"
  | TokenKind.Import => symbol "<<"
  | TokenKind.Trap => symbol "!>"
  | TokenKind.Question => symbol "?"
  | TokenKind.Pipe => symbol "|"
  | TokenKind.BlockOpen => "a block open `<`"
  | TokenKind.BlockClose => "a block close `>`"
  | TokenKind.Gt => symbol ">"
  | TokenKind.BraceOpen => symbol "{"
  | TokenKind.BraceClose => symbol "}"
  | TokenKind.ParenOpen => symbol "("
  | TokenKind.ParenClose => symbol ")"
  | TokenKind.BracketOpen => symbol "["
  | TokenKind.BracketClose => symbol "]"
  | TokenKind.Comma => symbol ","
  | TokenKind.Dot => symbol "."
  | TokenKind.Plus => symbol "+"
  | TokenKind.Minus => symbol "-"
  | TokenKind.Star => symbol "*"
  | TokenKind.Slash => symbol "/"
  | TokenKind.Percent => symbol "%"
  | TokenKind.PlusMinus => symbol "+-"
  | TokenKind.MinusPlus => symbol "-+"
  | TokenKind.Eq => symbol "=="
  | TokenKind.Ne => symbol "!="
  | TokenKind.Le => symbol "<="
  | TokenKind.Ge => symbol ">="
  | TokenKind.And => symbol "&&"
  | TokenKind.Or => symbol "||"
  | TokenKind.Not => symbol "!"
  | TokenKind.Colon => symbol ":"
  | TokenKind.Backtick => "the render operator `` ` ``"
  end.

Definition starts_operand (kind : TokenKind) : bool :=
  match kind with
  | TokenKind.Number _ | TokenKind.String _ | TokenKind.True | TokenKind.False
  | TokenKind.Unit | TokenKind.At | TokenKind.Ident | TokenKind.ParenOpen
  | TokenKind.BracketOpen | TokenKind.BraceOpen | TokenKind.Minus | TokenKind.Not => true
  | _ => false
  end.

Record Token : Type := mkToken {
  kind : TokenKind;
  span : Span;
  text : string;
  first_on_line : bool
}.
