(* ===== verification/Ast.v ===== *)
(** * The syntax tree: [src/ast/nodes.rs]

    Types, patterns, expressions and declarations with the source's variants, the
    tables of compiler-provided names, the predicates every later pass shares and
    the user-facing rendering of a type.  The declarations are parametric in the
    type of expressions, so that [Expression] nests through them. *)

From S2P Require Import Prelude Bytes Num Token.
Open Scope Z_scope.

(** ** Types *)

Module Ty.
Record SumVariant (T : Type) : Type := mkSumVariant { variant_name : string; variant_fields : list T }.
Arguments mkSumVariant {T} _ _.
Arguments variant_name {T} _.
Arguments variant_fields {T} _.

Inductive Ty : Type :=
| Num
| Text
| Bool
| Unit
| Array (elem : Ty)
| Map (key value : Ty)
| Set_ (elem : Ty)
| Record (fields : list (string * Ty))
| Named (name : string) (fields : list (string * Ty)) (methods : list string)
| Generic (name : string)
| Function (parameters : list Ty) (return_type : Ty)
| Sum (name : string) (variants : list (SumVariant Ty)).
End Ty.
Export Ty (Ty, mkSumVariant, variant_name, variant_fields).
Notation SumVariant := (Ty.SumVariant Ty).

(** [Type::named_ref]. *)
Definition named_ref (name : string) : Ty := Ty.Named name [] [].

Fixpoint contains_generic (ty : Ty) : bool :=
  match ty with
  | Ty.Generic _ => true
  | Ty.Array inner => contains_generic inner
  | Ty.Map k v => contains_generic k || contains_generic v
  | Ty.Set_ inner => contains_generic inner
  | Ty.Sum _ variants =>
      existsb (λ v, existsb contains_generic (variant_fields v)) variants
  | _ => false
  end.

(** ** Patterns and operators *)

Module Pattern.
Inductive Pattern : Type :=
| Identifier (name : string) (span : Span)
| Number (value : f64) (span : Span)
| Text (value : string) (span : Span)
| Constructor (name : string) (arguments : list Pattern) (span : Span)
| Wildcard (span : Span).
End Pattern.
Export Pattern (Pattern).

Definition pattern_span (p : Pattern) : Span :=
  match p with
  | Pattern.Identifier _ span | Pattern.Number _ span | Pattern.Text _ span
  | Pattern.Constructor _ _ span | Pattern.Wildcard span => span
  end.

Definition is_irrefutable (p : Pattern) : bool :=
  match p with Pattern.Identifier _ _ | Pattern.Wildcard _ => true | _ => false end.

Module Binary.
Inductive BinaryOperator : Type :=
| Add | Sub | Mul | Div | Mod | SetIntersect | Eq | Ne | Lt | Le | Gt | Ge | And | Or.
End Binary.
Export Binary (BinaryOperator).

#[export] Instance BinaryOperator_eq_dec : EqDecision BinaryOperator.
Proof. solve_decision. Defined.

(** [BinaryOperator::symbol]. *)
Definition symbol (operator : BinaryOperator) : string :=
  match operator with
  | Binary.Add => "+" | Binary.Sub => "-" | Binary.Mul => "*" | Binary.Div => "/"
  | Binary.Mod => "%" | Binary.SetIntersect => "+-" | Binary.Eq => "==" | Binary.Ne => "!="
  | Binary.Lt => "<" | Binary.Le => "<=" | Binary.Gt => ">" | Binary.Ge => ">="
  | Binary.And => "&&" | Binary.Or => "||"
  end.

Inductive UnaryOperator : Type := Neg | Not.

#[export] Instance UnaryOperator_eq_dec : EqDecision UnaryOperator.
Proof. solve_decision. Defined.

(** ** Declarations *)

Record TypeNameUse : Type := mkTypeNameUse { use_name : string; use_span : Span }.

Record Param : Type := mkParam {
  parameter_name : string;
  type_annotation : option Ty;
  parameter_span : Span
}.

Section declarations.
Context {E : Type}.

Record MatchArm : Type := mkMatchArm { arm_pattern : Pattern; arm_body : E; arm_span : Span }.

Record VariableDeclaration : Type := mkVariableDeclaration {
  mutable : bool;
  variable_name : string;
  variable_annotation : option Ty;
  variable_value : E;
  variable_exported : bool;
  atomic : bool;
  variable_span : Span
}.

Record FunctionDeclaration : Type := mkFunctionDeclaration {
  function_name : string;
  parameters : list Param;
  return_type : option Ty;
  binding_type : option Ty;
  function_body : E;
  function_exported : bool;
  from_corelib : bool;
  function_span : Span
}.

Record MethodDeclaration : Type := mkMethodDeclaration {
  method_name : string;
  method_parameters : list Param;
  method_return_type : option Ty;
  method_body : E;
  mutating : bool;
  method_span : Span
}.

Inductive TypeDefinition : Type :=
| DefSum (variants : list SumVariant) (field_spans : list (list Span))
    (methods : list MethodDeclaration)
| DefRecord (fields : list (string * Ty)) (methods : list MethodDeclaration).

(** [TypeDefinition::methods]. *)
Definition methods (d : TypeDefinition) : list MethodDeclaration :=
  match d with DefSum _ _ methods => methods | DefRecord _ methods => methods end.

Record TypeDeclaration : Type := mkTypeDeclaration {
  type_name : string;
  type_definition : TypeDefinition;
  type_exported : bool;
  type_span : Span
}.

Record TrapDeclaration : Type := mkTrapDeclaration { arms : list MatchArm; trap_span : Span }.

Inductive Item : Type :=
| ItemVariable (declaration : VariableDeclaration)
| ItemFunction (declaration : FunctionDeclaration)
| ItemType (declaration : TypeDeclaration)
| ItemTrap (declaration : TrapDeclaration).

Inductive Statement : Type :=
| StatementItem (item : Item)
| StatementExpression (expression : E).

Inductive InterpolationPart : Type :=
| PartLiteral (text : string)
| PartHole (expression : E).

Definition TRAP_NAME : string := "!>".

(** [Item::name] and [Item::span]. *)
Definition item_name (item : Item) : string :=
  match item with
  | ItemVariable declaration => variable_name declaration
  | ItemFunction declaration => function_name declaration
  | ItemType declaration => type_name declaration
  | ItemTrap _ => TRAP_NAME
  end.
Definition item_span (item : Item) : Span :=
  match item with
  | ItemVariable declaration => variable_span declaration
  | ItemFunction declaration => function_span declaration
  | ItemType declaration => type_span declaration
  | ItemTrap declaration => trap_span declaration
  end.
End declarations.
Arguments MatchArm E : clear implicits.
Arguments VariableDeclaration E : clear implicits.
Arguments FunctionDeclaration E : clear implicits.
Arguments MethodDeclaration E : clear implicits.
Arguments TypeDefinition E : clear implicits.
Arguments TypeDeclaration E : clear implicits.
Arguments TrapDeclaration E : clear implicits.
Arguments Item E : clear implicits.
Arguments Statement E : clear implicits.
Arguments InterpolationPart E : clear implicits.

(** ** Expressions *)

Module Expression.
Inductive Expression : Type :=
| Number (value : f64) (span : Span)
| String (value : string) (span : Span)
| Interpolation (parts : list (InterpolationPart Expression)) (span : Span)
| Bool (value : bool) (span : Span)
| Unit (span : Span)
| Identifier (name : string) (span : Span)
| BinaryOperator (left : Expression) (operator : Binary.BinaryOperator) (right : Expression)
    (span : Span)
| UnaryOperator (operator : Ast.UnaryOperator) (expression : Expression) (span : Span)
| Call (function : Expression) (arguments : list Expression) (member_call : bool) (span : Span)
| Lambda (parameters : list Param) (return_type : option Ty) (body : Expression)
    (span : Span)
| Block (statements : list (Statement Expression)) (span : Span)
| If (condition then_ else_ : Expression) (span : Span)
| Match (expression : Expression) (arms : list (MatchArm Expression)) (span : Span)
| FieldAccess (expression : Expression) (field : string) (span : Span)
| FieldAssign (target value : Expression) (span : Span)
| Index (expression index : Expression) (span : Span)
| IndexAssign (target value : Expression) (span : Span)
| Array (elements : list Expression) (span : Span)
| MapLiteral (entries : list (Expression * Expression)) (span : Span)
| SetLiteral (elements : list Expression) (span : Span)
| Record (fields : list (string * Expression)) (span : Span)
| Constructor (type_name : string) (fields : list (string * Expression)) (span : Span)
| Range (start end_ : Expression) (span : Span)
| Spread (expression : Expression) (span : Span).
End Expression.
Export Expression (Expression).

(** [Expression::span]. *)
Definition expression_span (e : Expression) : Span :=
  match e with
  | Expression.Number _ span | Expression.String _ span | Expression.Interpolation _ span
  | Expression.Bool _ span | Expression.Unit span | Expression.Identifier _ span
  | Expression.BinaryOperator _ _ _ span | Expression.UnaryOperator _ _ span
  | Expression.Call _ _ _ span | Expression.Lambda _ _ _ span | Expression.Block _ span
  | Expression.If _ _ _ span | Expression.Match _ _ span | Expression.FieldAccess _ _ span
  | Expression.FieldAssign _ _ span | Expression.Index _ _ span
  | Expression.IndexAssign _ _ span | Expression.Array _ span | Expression.MapLiteral _ span
  | Expression.SetLiteral _ span | Expression.Record _ span | Expression.Constructor _ _ span
  | Expression.Range _ _ span | Expression.Spread _ span => span
  end.

Definition literal_number (expression : Expression) : option f64 :=
  match expression with
  | Expression.Number value _ => Some value
  | Expression.UnaryOperator Neg (Expression.Number value _) _ =>
      Some (SpecFloat.SFopp value)
  | _ => None
  end.

(** ** Programs *)

Inductive ModulePath : Type :=
| BuiltinDotted (parts : list string)
| FilePath (path : string).

Record Import_ : Type := mkImport { path : ModulePath; import_span : Span }.

Record Program : Type := mkProgram {
  imports : list Import_;
  items : list (Item Expression);
  test_blocks : list Expression;
  type_name_uses : list TypeNameUse;
  variant_declarations : list TypeNameUse
}.

(** [ModulePath::binding_name]; a file path binds its stem as [std::path] splits
    it: the last component that is not a repeated separator or a [.], without what
    follows its last dot, and nothing for [..] or a path with no file name. *)
Definition split_on (sep : Z) (s : list Z) : list (list Z) :=
  foldr (λ b acc, if b =? sep then [] :: acc
                  else match acc with cur :: rest => (b :: cur) :: rest | [] => [[b]] end)
        [[]] s.

Definition file_name (path : list Z) : option (list Z) :=
  match last (filter (λ c, c ≠ [] ∧ c ≠ [46]) (split_on 47 path)) with
  | Some p => if bool_decide (p = [46; 46]) then None else Some p
  | None => None
  end.

(** The part of a file name before its last dot, unless that leaves nothing. *)
Definition before_last_dot (name : list Z) : list Z :=
  match list_find (λ b, b = 46) (reverse name) with
  | Some (i, _) =>
      let stem := take (length name - S i) name in
      if bool_decide (stem = []) then name else stem
  | None => name
  end.
Definition file_stem (path : list Z) : option (list Z) := before_last_dot <$> file_name path.

Definition binding_name (path : ModulePath) : option string :=
  match path with
  | BuiltinDotted parts => last parts
  | FilePath raw =>
      string_of_bytes <$> file_stem ((λ b, if b =? 92 then 47 else b) <$> bs raw)
  end.

(** The path as it was written. *)
Definition show_module_path (path : ModulePath) : string :=
  match path with
  | BuiltinDotted parts => String.concat "." parts
  | FilePath path => string_of_bytes [34] +:+ path +:+ string_of_bytes [34]
  end.

(** ** Names the compiler gives a meaning *)

Definition TEST_BLOCK_MARKER : string := "core.test.describe".
Definition TEST_CASE_MARKER : string := "core.test.it".
Definition RECEIVER : string := "it".

Definition display_name (name : string) : string := string_of_bytes (rsplit_next 46 (bs name)).

(** [name.rsplit_once('@')], its second part. *)
Definition at_primitive_name (name : string) : option string :=
  if bool_decide (64 ∈ bs name) then Some (string_of_bytes (rsplit_next 64 (bs name))) else None.

Record BuiltinOverload : Type := mkBuiltinOverload {
  overload_name : string;
  overload_parameters : list Ty;
  overload_ret : Ty
}.

Record RenderableBuiltin : Type := mkRenderableBuiltin {
  renderable_name : string;
  rest : list Ty;
  renderable_ret : Ty
}.

Definition arity (b : RenderableBuiltin) : nat := 1 + length (rest b).

Definition RENDERABLE_BUILTINS : list RenderableBuiltin :=
  [mkRenderableBuiltin "core.io.print" [] Ty.Unit;
   mkRenderableBuiltin "core.io.eprint" [] Ty.Unit;
   mkRenderableBuiltin "core.io.write" [Ty.Num] Ty.Num].

Definition renderable_builtin (name : string) : option RenderableBuiltin :=
  snd <$> list_find (λ b, renderable_name b = name) RENDERABLE_BUILTINS.

Definition is_renderable (ty : Ty) : bool :=
  match ty with Ty.Function _ _ => false | _ => true end.

Definition BUILTIN_OVERLOADS : list BuiltinOverload :=
  [mkBuiltinOverload "core.time.now" [] Ty.Num;
   mkBuiltinOverload "__platform" [] Ty.Text;
   mkBuiltinOverload "__os" [] Ty.Text;
   mkBuiltinOverload "__quilon_version" [] Ty.Text;
   mkBuiltinOverload "__pointer_bits" [] Ty.Num;
   mkBuiltinOverload "__is_big_endian" [] Ty.Bool;
   mkBuiltinOverload "__is_aot" [] Ty.Bool;
   mkBuiltinOverload "__exit" [Ty.Num] Ty.Unit;
   mkBuiltinOverload "__color_enabled" [Ty.Num] Ty.Bool;
   mkBuiltinOverload "__test_suite_enter" [Ty.Text; Ty.Text; Ty.Num] Ty.Num;
   mkBuiltinOverload "__test_suite_selected" [Ty.Text] Ty.Num;
   mkBuiltinOverload "__test_case_selected" [Ty.Text] Ty.Num;
   mkBuiltinOverload "__test_case_failing" [] Ty.Num;
   mkBuiltinOverload "__test_case_finish" [Ty.Text; Ty.Text; Ty.Num; Ty.Num] Ty.Num;
   mkBuiltinOverload "__test_summary" [Ty.Num; Ty.Num] Ty.Num].

Definition ASSERT : string := "assert".
Definition EXPECT : string := "expect".
Definition MATCHERS : list string :=
  ["equals"; "contains"; "not"; "isOk"; "isNotOk"; "is"; "aborts"].

Definition is_assertion (name : string) : bool := bool_decide (name = ASSERT ∨ name = EXPECT).
Definition is_matcher (name : string) : bool := bool_decide (name ∈ MATCHERS).

Definition RUN_TEST_CASE : string := "__test_run_case".
Definition is_run_test_case (name : string) : bool := bool_decide (name = RUN_TEST_CASE).

Definition NUM_TYPE_NAME : string := "Num".
Definition BOOL_TYPE_NAME : string := "Bool".
Definition TEXT_TYPE_NAME : string := "Text".
Definition RESULT_TYPE_NAME : string := "Result".
Definition MAP_TYPE_NAME : string := "Map".
Definition SET_TYPE_NAME : string := "Set".
Definition SITE_TYPE_NAME : string := "Site".
Definition BUILTIN_TYPE_NAMES : list string :=
  [NUM_TYPE_NAME; BOOL_TYPE_NAME; TEXT_TYPE_NAME; RESULT_TYPE_NAME; SITE_TYPE_NAME;
   MAP_TYPE_NAME; SET_TYPE_NAME].

Definition OK : string := "Ok".
Definition NOT_OK : string := "NotOk".
Definition RESULT_CONSTRUCTORS : list string := [OK; NOT_OK].

Definition reserved_for (name : string) : option string :=
  if bool_decide (name ∈ BUILTIN_TYPE_NAMES) then Some "a built-in type"
  else if bool_decide (name ∈ RESULT_CONSTRUCTORS) then Some "a constructor of `Result`"
  else if bool_decide (name = RECEIVER) then Some "the receiver"
  else if is_assertion name then Some "an assertion"
  else if is_matcher name then Some "a matcher"
  else None.

Definition matcher_variant (matcher : string) : option string :=
  if bool_decide (matcher = "isOk") then Some OK
  else if bool_decide (matcher = "isNotOk") then Some NOT_OK
  else None.

Definition TEST_REGISTRY_PREFIX : string := "__test_".
Definition is_test_registry_intrinsic (name : string) : bool :=
  String.prefix TEST_REGISTRY_PREFIX name.

Definition builtin_parameters (name : string) : option (list Ty) :=
  overload_parameters <$> (snd <$> list_find (λ b, overload_name b = name) BUILTIN_OVERLOADS).

Definition builtin_names : list string :=
  (overload_name <$> BUILTIN_OVERLOADS) ++ (renderable_name <$> RENDERABLE_BUILTINS).

Definition is_compiler_provided_name (name : string) : bool :=
  bool_decide (name ∈ builtin_names).

Definition builtin_arity (name : string) : option nat :=
  match length ∘ overload_parameters <$> (snd <$> list_find (λ b, overload_name b = name) BUILTIN_OVERLOADS) with
  | Some n => Some n
  | None => arity <$> renderable_builtin name
  end.

(** The methods of a [FunctionDeclaration]. *)
Section function_declaration.
Context {E : Type}.
Implicit Types d : FunctionDeclaration E.

Definition is_inert_corelib_placeholder d : bool :=
  from_corelib d
  && (is_compiler_provided_name (function_name d)
      || (negb (bool_decide (46 ∈ bs (function_name d)))
          && bool_decide (function_name d ∈ (display_name <$> builtin_names)))).

Definition emits_module_function d : bool :=
  negb (is_inert_corelib_placeholder d)
  && bool_decide (at_primitive_name (function_name d) = None).

Definition declared_parameters d : option (list Ty) :=
  match binding_type d with
  | Some (Ty.Function slots _) =>
      if (length slots =? length (parameters d))%nat then Some slots else None
  | _ => None
  end.

(** [None] also for an index past the parameters, where the code panics. *)
Definition parameter_type d (index : nat) : option Ty :=
  parameter ← parameters d !! index;
  match type_annotation parameter with
  | Some ty => Some ty
  | None => slots ← declared_parameters d; slots !! index
  end.

Definition declared_return_type d : option Ty :=
  match return_type d with
  | Some annotation => Some annotation
  | None => match binding_type d with
            | Some (Ty.Function _ result) => Some result
            | other => other
            end
  end.
End function_declaration.

(** ** Built-in methods and the call site *)

Definition is_array_method (name : string) : bool :=
  bool_decide (name ∈ ["map"; "filter"; "reduce"; "each"; "find"; "at"; "join"]).

Definition qn_text_impl (name : string) : option string :=
  if bool_decide (name = "trim") then Some "core.text.trim"
  else if bool_decide (name = "contains") then Some "core.text.contains"
  else if bool_decide (name = "repeat") then Some "core.text.repeat"
  else None.

Definition is_text_method (name : string) : bool :=
  bool_decide (is_Some (qn_text_impl name))
  || bool_decide (name ∈ ["trimStart"; "trimEnd"; "indexOf"; "slice"; "split"; "replaceAll";
                          "replace"; "at"; "graphemes"; "toUpper"; "toLower"]).

Definition is_map_method (name : string) : bool :=
  bool_decide (name ∈ ["get"; "has"; "set"; "remove"; "keys"; "values"; "each"]).
Definition is_set_method (name : string) : bool :=
  bool_decide (name ∈ ["has"; "add"; "remove"; "items"; "each"]).

Definition is_operator_symbol (name : string) : bool :=
  bool_decide (name ∈ ["+"; "-"; "*"; "/"; "%"; "=="; "!="; "<"; "<="; ">"; ">="; "&&"; "||"]).

Definition site_fields : list (string * Ty) :=
  [("file", Ty.Text); ("line", Ty.Num); ("column", Ty.Num); ("excerpt", Ty.Text);
   ("width", Ty.Num)].
Definition site_type : Ty := Ty.Named SITE_TYPE_NAME site_fields [].

Definition is_site_type (ty : Ty) : bool :=
  match ty with Ty.Named name _ _ => bool_decide (name = SITE_TYPE_NAME) | _ => false end.

Definition takes_call_site (parameters : list Ty) : bool :=
  match last parameters with Some ty => is_site_type ty | None => false end.

Definition fills_call_site (parameters : list Ty) (arg_count : nat) : bool :=
  (length parameters =? arg_count + 1)%nat && takes_call_site parameters.

Definition visible_parameters (parameters : list Ty) : list Ty :=
  if takes_call_site parameters then take (length parameters - 1) parameters else parameters.

Definition parameters_accept {A} (parameters : list Ty) (args : list A)
    (matches : Ty → A → bool) : bool :=
  if negb (length parameters =? length args)%nat && negb (fills_call_site parameters (length args))
  then false
  else forallb (λ '(p, a), matches p a) (combine parameters args).

(** ** Records and the rendering of types *)

Definition is_ascii_digit (b : Z) : bool := in_range 48 57 b.

Definition is_positional_field (field : string) : bool :=
  negb (bool_decide (bs field = [])) && forallb is_ascii_digit (bs field).

Definition record_fields_are_positional (fields : list (string * Ty)) : bool :=
  match fields with (name, _) :: _ => is_positional_field name | [] => false end.

Definition positional_field_name (index : nat) : string :=
  string_of_bytes (render 10 (Z.of_nat index)).

(** A stable sort by insertion: [sort_by] and [sort_by_key] of the source. *)
Fixpoint insert_by {A} (le : A → A → bool) (x : A) (xs : list A) : list A :=
  match xs with
  | [] => [x]
  | y :: ys => if le x y then x :: xs else y :: insert_by le x ys
  end.
Definition sort_by {A} (le : A → A → bool) (xs : list A) : list A :=
  foldr (insert_by le) [] xs.

Definition position_key (field : string * Ty) : Z :=
  default usize_max (from_str_radix 10 (bs field.1)).

Definition canonical_record_field_order (fields : list (string * Ty)) : list (string * Ty) :=
  if record_fields_are_positional fields
  then sort_by (λ a b, position_key a <=? position_key b) fields
  else sort_by (λ a b, String.leb a.1 b.1) fields.

Fixpoint type_label (ty : Ty) : string :=
  (match ty with
   | Ty.Num => NUM_TYPE_NAME
   | Ty.Text => TEXT_TYPE_NAME
   | Ty.Bool => BOOL_TYPE_NAME
   | Ty.Unit => "$"
   | Ty.Array elem => "[]" +:+ type_label elem
   | Ty.Map k v => "[|" +:+ type_label k +:+ " => " +:+ type_label v +:+ "|]"
   | Ty.Set_ elem => "[|" +:+ type_label elem +:+ "|]"
   | Ty.Record [] => "{}"
   | Ty.Record fields =>
       if record_fields_are_positional fields
       then "{ " +:+ String.concat ", " (map (λ '(_, t), type_label t) fields) +:+ " }"
       else "{ " +:+ String.concat ", "
              (map (λ '(name, t), name +:+ " :: " +:+ type_label t) fields) +:+ " }"
   | Ty.Named name _ _ | Ty.Sum name _ => name
   | Ty.Function parameters result =>
       "(" +:+ String.concat ", " (map type_label parameters) +:+ ") -> " +:+ type_label result
   | Ty.Generic _ => "<unknown>"
   end)%string.
