(* ===== verification/AstProps.v ===== *)
(** * Theorems on the syntax tree: the canonical order of record fields *)

From Stdlib Require Import Sorting.Sorted.
From S2P Require Import Prelude Bytes Num Token Ast.
Open Scope Z_scope.

(** ** The stable sort *)

Section sort.
Context {A : Type} (le : A → A → bool).

Lemma insert_by_perm x xs : insert_by le x xs ≡ₚ x :: xs.
Proof.
  induction xs as [|y ys IH]; simpl; [done|]. case_match; [done|].
  rewrite IH. apply Permutation_swap.
Qed.

Lemma sort_by_perm xs : sort_by le xs ≡ₚ xs.
Proof. induction xs as [|x xs IH]; simpl; [done|]. by rewrite insert_by_perm, IH. Qed.

Definition sorted : list A → Prop := StronglySorted (λ a b, le a b = true).

(** Stability: a sorted list is left as it is. *)
Lemma sort_by_id xs : sorted xs → sort_by le xs = xs.
Proof.
  induction 1 as [|x xs Hs IH Hx]; simpl; [done|]. rewrite IH.
  destruct xs as [|y ys]; simpl; [done|]. inversion Hx; subst. by rewrite H1.
Qed.

(** Sorting by distinct keys forgets the order the list came in. *)
Lemma sorted_perm_eq xs ys :
  (∀ a b, a ∈ xs → b ∈ xs → le a b = true → le b a = true → a = b) →
  sorted xs → sorted ys → xs ≡ₚ ys → xs = ys.
Proof.
  intros Hanti Hx. revert ys. induction Hx as [|x xs Hs IH Hx]; intros ys Hy Hp.
  - by apply Permutation_nil_l in Hp as ->.
  - destruct Hy as [|y ys Hy Hyf]; [by apply Permutation_nil_r in Hp|].
    assert (x = y) as ->.
    { assert (x ∈ y :: ys) as Hin by (rewrite <-Hp; set_solver).
      assert (y ∈ x :: xs) as Hin' by (rewrite Hp; set_solver).
      apply elem_of_cons in Hin as [|Hin]; [done|]. apply elem_of_cons in Hin' as [|Hin']; [done|].
      rewrite Forall_forall in Hx, Hyf. apply Hanti; [set_solver..|by apply Hx|by apply Hyf]. }
    f_equal. apply IH; [|done|by eapply Permutation_cons_inv].
    intros a b ??. apply Hanti; set_solver.
Qed.
Context (le_total : ∀ a b, le a b = false → le b a = true)
        (le_trans : ∀ a b c, le a b = true → le b c = true → le a c = true).

Lemma insert_by_sorted x xs : sorted xs → sorted (insert_by le x xs).
Proof using le_total le_trans.
  induction 1 as [|y ys Hs IH Hy]; simpl; [by repeat constructor|].
  destruct (le x y) eqn:E.
  - constructor; [by constructor|]. constructor; [done|].
    eapply Forall_impl; [exact Hy|]. intros z. by apply le_trans.
  - constructor; [done|]. rewrite insert_by_perm. constructor; [by apply le_total|done].
Qed.

Lemma sort_by_sorted xs : sorted (sort_by le xs).
Proof using le_total le_trans.
  induction xs as [|x xs IH]; simpl; [constructor|]. by apply insert_by_sorted.
Qed.
End sort.

Lemma string_leb_total a b : String.leb a b = false → String.leb b a = true.
Proof.
  unfold String.leb. rewrite (String.compare_antisym a b). by destruct (String.compare b a).
Qed.

Lemma string_leb_antisym a b : String.leb a b = true → String.leb b a = true → a = b.
Proof. apply String.leb_antisym. Qed.

Lemma ascii_compare_trans a b c :
  Ascii.compare a b = Lt → Ascii.compare b c = Lt → Ascii.compare a c = Lt.
Proof. unfold Ascii.compare. rewrite !N.compare_lt_iff. lia. Qed.

Lemma string_compare_lt_trans : ∀ a b c,
  String.compare a b = Lt → String.compare b c = Lt → String.compare a c = Lt.
Proof.
  induction a as [|x a IH]; intros [|y b] [|z c]; simpl; try done.
  destruct (Ascii.compare x y) eqn:E1; try done.
  - apply Ascii.compare_eq_iff in E1 as ->.
    destruct (Ascii.compare y z) eqn:E2; try done. apply IH.
  - intros _. destruct (Ascii.compare y z) eqn:E2; try done.
    + apply Ascii.compare_eq_iff in E2 as ->. by rewrite E1.
    + by rewrite (ascii_compare_trans _ _ _ E1 E2).
Qed.

Lemma string_leb_trans a b c : String.leb a b = true → String.leb b c = true → String.leb a c = true.
Proof.
  unfold String.leb. destruct (String.compare a b) eqn:E1; try done;
    destruct (String.compare b c) eqn:E2; try done; intros _ _.
  - apply String.compare_eq_iff in E1 as ->. by rewrite E2.
  - apply String.compare_eq_iff in E1 as ->. by rewrite E2.
  - apply String.compare_eq_iff in E2 as ->. by rewrite E1.
  - by rewrite (string_compare_lt_trans _ _ _ E1 E2).
Qed.

Lemma canonical_record_field_order_perm fields : canonical_record_field_order fields ≡ₚ fields.
Proof. unfold canonical_record_field_order. case_match; apply sort_by_perm. Qed.

(** Two anonymous record types of the same named fields are the same type,
    however their fields were written: the canonical order of a list of distinct
    names is that of every permutation of it, and is a permutation of it. *)
Theorem canonical_record_field_order_unique (fields fields' : list (string * Ty))
    (Hnodup : NoDup fields.*1)
    (Hnamed : Forall (λ f, is_positional_field f.1 = false) fields)
    (Hperm : fields' ≡ₚ fields) :
  canonical_record_field_order fields' = canonical_record_field_order fields ∧
  canonical_record_field_order fields ≡ₚ fields.
Proof.
  split; [|apply canonical_record_field_order_perm].
  assert (∀ fs : list (string * Ty), fs ≡ₚ fields → record_fields_are_positional fs = false) as Hn.
  { intros fs Hp. rewrite <-Hp in Hnamed. destruct Hnamed as [|[name t] fs H _]; [done|].
    exact H. }
  unfold canonical_record_field_order. rewrite !Hn by done.
  apply (sorted_perm_eq (λ a b, String.leb a.1 b.1)).
  - intros a b Ha Hb H1 H2. rewrite sort_by_perm, Hperm in Ha, Hb.
    pose proof (string_leb_antisym _ _ H1 H2) as E.
    apply list_elem_of_lookup in Ha as (i&Hi). apply list_elem_of_lookup in Hb as (j&Hj).
    assert (i = j) as <-.
    { eapply NoDup_lookup; [exact Hnodup|..]; rewrite list_lookup_fmap.
      - by rewrite Hi.
      - by rewrite Hj, E. }
    congruence.
  - apply sort_by_sorted; intros; [by apply string_leb_total|by eapply string_leb_trans].
  - apply sort_by_sorted; intros; [by apply string_leb_total|by eapply string_leb_trans].
  - by rewrite !sort_by_perm.
Qed.

Example canonical_record_field_order_unique_witness :
  canonical_record_field_order [("y", Ty.Text); ("x", Ty.Num)]%string
  = canonical_record_field_order [("x", Ty.Num); ("y", Ty.Text)]%string ∧
  canonical_record_field_order [("x", Ty.Num); ("y", Ty.Text)]%string
  ≡ₚ [("x", Ty.Num); ("y", Ty.Text)]%string.
Proof.
  apply (canonical_record_field_order_unique
    [("x", Ty.Num); ("y", Ty.Text)]%string [("y", Ty.Text); ("x", Ty.Num)]%string).
  - repeat constructor; simpl; set_solver.
  - repeat constructor.
  - apply Permutation_swap.
Defined.
