(* ===== verification/Lexer.v ===== *)
(** * The lexer: [src/lexer/lexer.rs] and the callbacks of [src/lexer/token.rs]

    From the bytes of a source file to its tokens.  The recogniser derived from
    the [#[token]] and [#[regex]] attributes is modelled by what they say: the
    longest match wins, a literal before a pattern of the same length.  What the
    attributes take from outside the repository, the two Unicode identifier
    classes and how far an unrecognised token extends, is the interface
    [Recogniser]. *)

From S2P Require Import Prelude Bidi Bytes Num Codes Token.
Open Scope Z_scope.

(** ** What the derived recogniser takes from its library *)

(** [\p{XID_Start}], [\p{XID_Continue}], and the number of bytes an error
    token covers at the head of the input. *)
Class Recogniser : Type := {
  xid_start : Z → bool;
  xid_continue : Z → bool;
  error_len : list Z → nat
}.

(** What the lexer relies on: an error token is not empty and stays inside the
    input, and identifiers hold none of the ASCII characters of other tokens. *)
Class RecogniserOk (R : Recogniser) : Prop := {
  error_len_bound : ∀ rest, rest ≠ [] → (1 ≤ error_len rest ≤ length rest)%nat;
  xid_start_letter : ∀ c, 0 <= c < 128 →
    xid_start c = (in_range 65 90 c || in_range 97 122 c);
  xid_continue_word : ∀ c, 0 <= c < 128 →
    xid_continue c = (in_range 65 90 c || in_range 97 122 c || in_range 48 57 c || (c =? 95));
  xid_start_continue : ∀ c, xid_start c = true → xid_continue c = true
}.

(** ** Callbacks *)

(** The loop of [lex_comment], the whole comment's characters in hand. *)
Definition check_bidi (token : string) (chars : list Z) : result TokenLexError unit :=
  match Bidi.feed_all Bidi.new chars with
  | Err ch => Err (TokenLexError.Bidi (BidiIssue.StrayCloser ch token))
  | Ok scopes =>
      match unclosed scopes with
      | Some ch => Err (TokenLexError.Bidi (BidiIssue.Unclosed ch token))
      | None => Ok tt
      end
  end.

Definition lex_comment (slice : list Z) : result TokenLexError unit :=
  check_bidi "comment" (from_utf8_lossy slice).

(** [src.trim().is_empty()]. *)
Definition is_blank (src : list Z) : bool := bool_decide (trim (from_utf8_lossy src) = []).

Definition is_newline (b : Z) : bool := (b =? 10) || (b =? 13).

(** The index of a hole's closing backtick, from index [i] where [rest] starts;
    nested string literals are skipped whole, their holes included. *)
Fixpoint scan_hole_end (fuel : nat) (rest : list Z) (i : nat) : fueled TokenLexError nat :=
  match fuel with
  | O => out_of_fuel
  | S fuel' =>
      match rest with
      | [] => throw TokenLexError.InvalidToken
      | b :: rest' =>
          if is_newline b then throw TokenLexError.UnterminatedString
          else if b =? 96 then Ok i
          else if b =? 34 then
            j ← scan_string_loop fuel' rest' (S i);
            scan_hole_end fuel' (drop (j - i) rest) j
          else scan_hole_end fuel' rest' (S i)
      end
  end
(** The loop of [scan_string_end], past the opening quote: the index just past
    the closing one. *)
with scan_string_loop (fuel : nat) (rest : list Z) (i : nat) : fueled TokenLexError nat :=
  match fuel with
  | O => out_of_fuel
  | S fuel' =>
      match rest with
      | [] => throw TokenLexError.InvalidToken
      | b :: rest' =>
          if is_newline b then throw TokenLexError.UnterminatedString
          else if b =? 92 then
            match rest' with
            | b' :: _ => if is_newline b' then throw TokenLexError.UnterminatedString
                         else scan_string_loop fuel' (drop 2 rest) (i + 2)
            | [] => scan_string_loop fuel' (drop 2 rest) (i + 2)
            end
          else if b =? 34 then Ok (S i)
          else if b =? 96 then
            if bool_decide (head rest' = Some 96) then scan_string_loop fuel' (drop 2 rest) (i + 2)
            else
              j ← scan_hole_end fuel' rest' (S i);
              scan_string_loop fuel' (drop (S j - i) rest) (S j)
          else scan_string_loop fuel' rest' (S i)
      end
  end.

(** The escapes of a string literal. *)
Definition unescape (b : Z) : option Z :=
  if b =? 110 then Some 10
  else if b =? 114 then Some 13
  else if b =? 116 then Some 9
  else if b =? 101 then Some 27
  else if (b =? 34) || (b =? 92) || (b =? 60) then Some b
  else None.

(** The scanning loop of [lex_string]: [rest] starts at index [i] of the
    remainder, [chunks] and [lit] are in order. *)
Fixpoint lex_string_loop (fuel : nat) (base : Z) (rest : list Z) (i : nat)
    (chunks : list StrChunk) (lit : list Z) (scopes : ScopeStack) :
    fueled TokenLexError (list StrChunk * list Z * ScopeStack * nat) :=
  match fuel with
  | O => out_of_fuel
  | S fuel' =>
      match rest with
      | [] => throw TokenLexError.InvalidToken
      | b :: rest' =>
          if is_newline b then throw TokenLexError.UnterminatedString
          else if b =? 34 then Ok (chunks, lit, scopes, S i)
          else if b =? 92 then
            match rest' with
            | [] => throw TokenLexError.InvalidToken
            | b' :: rest'' =>
                if is_newline b' then throw TokenLexError.UnterminatedString
                else match unescape b' with
                     | Some ch => lex_string_loop fuel' base rest'' (i + 2) chunks
                                    (lit ++ [ch]) scopes
                     | None => throw TokenLexError.InvalidToken
                     end
            end
          else if b =? 96 then
            if bool_decide (head rest' = Some 96)
            then lex_string_loop fuel' base (drop 2 rest) (i + 2) chunks (lit ++ [96]) scopes
            else
              let chunks := if bool_decide (lit = []) then chunks
                            else chunks ++ [StrChunk.Lit (string_of_bytes lit)] in
              j ← scan_hole_end fuel' rest' (S i);
              let src := take (j - S i) rest' in
              if is_blank src then throw TokenLexError.InvalidToken
              else lex_string_loop fuel' base (drop (S j - i) rest) (S j)
                     (chunks ++ [StrChunk.Hole (string_of_bytes src) (base + Z.of_nat (S i))])
                     [] scopes
          else
            match utf8_step rest with
            | (None, _) => throw TokenLexError.InvalidToken
            | (Some ch, n) =>
                match Bidi.feed scopes ch with
                | Err ch => throw (TokenLexError.Bidi (BidiIssue.StrayCloser ch "string literal"))
                | Ok scopes => lex_string_loop fuel' base (drop n rest) (i + n) chunks
                                 (lit ++ take n rest) scopes
                end
            end
      end
  end.

(** [lex_string]: [base] is the offset of the first byte past the opening quote
    and [rem] the bytes from there; the chunks and the bytes consumed.  Every
    turn consumes a byte, so [S (length rem)] turns suffice. *)
Definition lex_string (base : Z) (rem : list Z) : result TokenLexError (list StrChunk * nat) :=
  '(chunks, lit, scopes, i) ←
     run_fueled TokenLexError.InvalidToken
       (lex_string_loop (S (length rem)) base rem 0 [] [] Bidi.new);
  match unclosed scopes with
  | Some ch => Err (TokenLexError.Bidi (BidiIssue.Unclosed ch "string literal"))
  | None =>
      Ok ((if negb (bool_decide (lit = [])) || bool_decide (chunks = [])
           then chunks ++ [StrChunk.Lit (string_of_bytes lit)] else chunks), i)
  end.

(** ** The recogniser *)

Section Recogniser.
Context `{R : Recogniser}.

Definition is_digit (b : Z) : bool := in_range 48 57 b.

Fixpoint count_while (p : Z → bool) (rest : list Z) : nat :=
  match rest with
  | b :: rest' => if p b then S (count_while p rest') else 0
  | [] => 0
  end.

(** Bytes of the longest run of characters satisfying [p]. *)
Fixpoint chars_while (fuel : nat) (p : Z → bool) (rest : list Z) : nat :=
  match fuel, rest with
  | S fuel', _ :: _ =>
      match utf8_step rest with
      | (Some ch, n) => if p ch then (n + chars_while fuel' p (drop n rest))%nat else 0
      | (None, _) => 0
      end
  | _, _ => 0
  end.

(** The two shapes of number: [[0-9]+\.?[0-9]*], and the same followed by
    [[eE][+-]?[0-9]*]; integer digits, dot, fraction digits, exponent. *)
Definition number_len (rest : list Z) : option nat :=
  let n := count_while is_digit rest in
  if (n =? 0)%nat then None
  else
    let after := drop n rest in
    if bool_decide (head after = Some 46)
    then Some (n + 1 + count_while is_digit (drop 1 after))%nat
    else Some n.

Definition scientific_len (rest : list Z) : option nat :=
  n ← number_len rest;
  match drop n rest with
  | b :: after =>
      if (b =? 101) || (b =? 69) then
        let sign := match after with
                    | s :: _ => if (s =? 43) || (s =? 45) then 1%nat else 0%nat
                    | [] => 0%nat
                    end in
        Some (n + 1 + sign + count_while is_digit (drop sign after))%nat
      else None
  | [] => None
  end.

(** [slice.parse::<f64>()] on the first shape. *)
Definition number_value (slice : list Z) : f64 :=
  let n := count_while is_digit slice in
  parse_f64 (take n slice) (drop (S n) slice) 0.

(** [lex_scientific_notation]: no value without exponent digits or past the
    finite range. *)
Definition scientific_value (slice : list Z) : option f64 :=
  let n := default 0%nat (number_len slice) in
  let mantissa := take n slice in
  let k := count_while is_digit mantissa in
  let exponent := drop (S n) slice in
  let negative := bool_decide (head exponent = Some 45) in
  let digits := if negative || bool_decide (head exponent = Some 43)
                then drop 1 exponent else exponent in
  if bool_decide (digits = []) then None
  else
    let value := parse_f64 (take k mantissa) (drop (S k) mantissa)
                   (if negative then - decimal digits else decimal digits) in
    if is_finite value then Some value else None.

Definition lex_scientific_notation (slice : list Z) : TokenLexError :=
  TokenLexError.ScientificNotation (f64_display <$> scientific_value slice).

(** The [#[token]] literals, keywords included; the string's quote and the
    comment's tilde have callbacks and come apart. *)
Definition literals : list (string * TokenKind) :=
  [("true", TokenKind.True); ("false", TokenKind.False); ("_", TokenKind.Underscore);
   ("=", TokenKind.Assign); (":=", TokenKind.MutAssign); ("=>", TokenKind.Arrow);
   ("->", TokenKind.ReturnArrow); ("<-", TokenKind.LeftArrow); ("::", TokenKind.TypeAnnotation);
   ("@", TokenKind.At); ("^", TokenKind.EntryPoint); ("$", TokenKind.Unit);
   (">>", TokenKind.Export); ("<<", TokenKind.Import); ("!>", TokenKind.Trap);
   ("?", TokenKind.Question); ("|", TokenKind.Pipe); ("<", TokenKind.BlockOpen);
   (">", TokenKind.BlockClose); ("{", TokenKind.BraceOpen); ("}", TokenKind.BraceClose);
   ("(", TokenKind.ParenOpen); (")", TokenKind.ParenClose); ("[", TokenKind.BracketOpen);
   ("]", TokenKind.BracketClose); (",", TokenKind.Comma); (".", TokenKind.Dot);
   ("+", TokenKind.Plus); ("-", TokenKind.Minus); ("*", TokenKind.Star);
   ("/", TokenKind.Slash); ("%", TokenKind.Percent); ("+-", TokenKind.PlusMinus);
   ("-+", TokenKind.MinusPlus); ("==", TokenKind.Eq); ("!=", TokenKind.Ne);
   ("<=", TokenKind.Le); (">=", TokenKind.Ge); ("&&", TokenKind.And); ("||", TokenKind.Or);
   ("!", TokenKind.Not); (":", TokenKind.Colon); ("`", TokenKind.Backtick)]%string.

Definition ident_len (rest : list Z) : option nat :=
  match utf8_step rest with
  | (Some ch, n) =>
      let more := chars_while (length rest) xid_continue (drop n rest) in
      if ch =? 95 then if (more =? 0)%nat then None else Some (n + more)%nat
      else if xid_start ch then Some (n + more)%nat else None
  | (None, _) => None
  end.

(** One call of the derived lexer's [next] past any skipped input: what matched,
    with the number of bytes. *)
Inductive lexeme : Type :=
| Skipped
| Lexed (kind : TokenKind)
| Failed (error : TokenLexError).

(** A candidate match: its length, and what its attribute makes of it. *)
Definition candidates (base : Z) (rest : list Z) : list (nat * (lexeme * nat)) :=
  let simple n l := (n, (l, n)) in
  omap (λ '(lit, k), if bool_decide (bs lit `prefix_of` rest)
                     then Some (simple (length (bs lit)) (Lexed k)) else None) literals
  ++ match ident_len rest with
     | Some n => [simple n (Lexed TokenKind.Ident)]
     | None => []
     end
  ++ match number_len rest with
     | Some n => [simple n (Lexed (TokenKind.Number (number_value (take n rest))))]
     | None => []
     end
  ++ match scientific_len rest with
     | Some n => [simple n (Failed (lex_scientific_notation (take n rest)))]
     | None => []
     end
  ++ match rest with
     | b :: rest' =>
         if (b =? 32) || (b =? 9) || is_newline b then
           [simple (count_while (λ b, (b =? 32) || (b =? 9) || is_newline b) rest) Skipped]
         else if b =? 126 then
           let n := S (count_while (λ b, negb (b =? 10)) rest') in
           [simple n match lex_comment (take n rest) with Ok _ => Skipped | Err e => Failed e end]
         else if b =? 34 then
           [match lex_string (base + 1) rest' with
            | Ok (chunks, n) => (1%nat, (Lexed (TokenKind.String chunks), S n))
            | Err e => (1%nat, (Failed e, 1%nat))
            end]
         else match utf8_step rest with
              | (Some ch, n) =>
                  if bool_decide (ch ∈ Bidi.controls)
                  then [simple n (Failed (TokenLexError.Bidi (BidiIssue.Outside ch)))]
                  else []
              | (None, _) => []
              end
     | [] => []
     end.

(** Maximal munch: the longest candidate, the first of those on a tie. *)
Definition keep_longest (best x : nat * (lexeme * nat)) : nat * (lexeme * nat) :=
  if (best.1 <? x.1)%nat then x else best.
Definition lex_next (base : Z) (rest : list Z) : lexeme * nat :=
  match candidates base rest with
  | [] => (Failed TokenLexError.InvalidToken, error_len rest)
  | c :: cs => (fold_left keep_longest cs c).2
  end.

(** ** [Lexer::tokenize_in_file] *)

Record LexerError : Type := mkLexerError { code : Code; message : string; error_span : Span }.

(** Walk back over horizontal whitespace to the preceding newline or the start. *)
Definition is_first_on_line (source : list Z) (at_ : nat) : bool :=
  match list_find (λ b, b ≠ 32 ∧ b ≠ 9) (reverse (take at_ source)) with
  | Some (_, b) => is_newline b
  | None => true
  end.

Definition error_text (error : TokenLexError) (text : string) : Code * string :=
  match error with
  | TokenLexError.UnterminatedString => (UnterminatedString, "unterminated string literal")
  | TokenLexError.Bidi (BidiIssue.Unclosed ch token) =>
      (BidiControl, Bidi.name ch +:+ " opened in this " +:+ token +:+ " is never closed")
  | TokenLexError.Bidi (BidiIssue.StrayCloser ch token) =>
      (BidiControl, Bidi.name ch +:+ " in this " +:+ token +:+ " has no matching opener")
  | TokenLexError.Bidi (BidiIssue.Outside ch) =>
      (BidiControl, Bidi.name ch +:+ " is only allowed inside a string literal or a comment")
  | TokenLexError.InvalidToken => (InvalidToken, "invalid token `" +:+ text +:+ "`")
  | TokenLexError.ScientificNotation (Some rendered) =>
      (ScientificNotation,
       "scientific notation is not supported — write " +:+ string_of_bytes rendered)
  | TokenLexError.ScientificNotation None =>
      (ScientificNotation, "scientific notation is not supported")
  end%string.

Definition eof_token (source : list Z) (file : FileId) : Token :=
  let pos := u32 (Z.of_nat (length source)) in
  mkToken TokenKind.Eof (in_file pos pos file) "" (is_first_on_line source (length source)).

(** The loop: [at_] is the offset of the next byte. *)
Fixpoint tokenize_loop (fuel : nat) (source : list Z) (file : FileId) (at_ : nat)
    (tokens : list Token) : fueled LexerError (list Token) :=
  match fuel with
  | O => out_of_fuel
  | S fuel' =>
      match drop at_ source with
      | [] => Ok (tokens ++ [eof_token source file])
      | rest =>
          let '(l, n) := lex_next (Z.of_nat at_) rest in
          let token_span := in_file (u32 (Z.of_nat at_)) (u32 (Z.of_nat (at_ + n))) file in
          let token_text := string_of_bytes (take n rest) in
          match l with
          | Skipped => tokenize_loop fuel' source file (at_ + n) tokens
          | Lexed k =>
              if bool_decide (k = TokenKind.Eof) then Ok (tokens ++ [eof_token source file])
              else tokenize_loop fuel' source file (at_ + n)
                     (tokens ++ [mkToken k token_span token_text (is_first_on_line source at_)])
          | Failed error =>
              let '(c, m) := error_text error token_text in
              throw (mkLexerError c m token_span)
          end
      end
  end.

Fixpoint reclassify_gt (tokens : list Token) : list Token :=
  match tokens with
  | [] => []
  | token :: tail =>
      (if bool_decide (kind token = TokenKind.BlockClose)
          && match tail with
             | next :: _ => negb (first_on_line next) && starts_operand (kind next)
             | [] => false
             end
       then mkToken TokenKind.Gt (span token) (text token) (first_on_line token)
       else token) :: reclassify_gt tail
  end.

(** The unused error of [run_fueled]. *)
Definition no_error : LexerError := mkLexerError InvalidToken "" (in_root 0 0).

Definition tokenize_in_file (source : list Z) (file : FileId) : result LexerError (list Token) :=
  reclassify_gt <$>
    run_fueled no_error (tokenize_loop (S (length source)) source file 0 []).

Definition tokenize (source : list Z) : result LexerError (list Token) :=
  tokenize_in_file source ROOT_FILE.

End Recogniser.

(** ** An instance: identifiers of ASCII letters, one-byte error tokens *)

#[export] Instance ascii_recogniser : Recogniser := {|
  xid_start c := in_range 65 90 c || in_range 97 122 c;
  xid_continue c := in_range 65 90 c || in_range 97 122 c || in_range 48 57 c || (c =? 95);
  error_len rest := 1%nat
|}.

#[export] Instance ascii_recogniser_ok : RecogniserOk ascii_recogniser.
Proof.
  split; simpl; [|done|done|].
  - intros [|b rest] ?; [done|]. simpl. lia.
  - intros c ->. done.
Qed.

(** The tests of [lexer.rs], evaluated. *)
Definition kinds (source : list Z) : result LexerError (list TokenKind) :=
  (λ tokens : list Token, kind <$> tokens) <$> tokenize source.

Example test_module_and_entry_symbols :
  kinds (bs "<< ^ >>") = Ok [TokenKind.Import; TokenKind.EntryPoint; TokenKind.Export; TokenKind.Eof].
Proof. by vm_compute. Qed.
Example test_chained :
  kinds (bs "a > b > c") = Ok [TokenKind.Ident; TokenKind.Gt; TokenKind.Ident; TokenKind.Gt;
                          TokenKind.Ident; TokenKind.Eof].
Proof. by vm_compute. Qed.
Example test_two_closers :
  kinds (bs "< < x > >") = Ok [TokenKind.BlockOpen; TokenKind.BlockOpen; TokenKind.Ident;
                          TokenKind.BlockClose; TokenKind.BlockClose; TokenKind.Eof].
Proof. by vm_compute. Qed.
Example test_comments :
  kinds (bs "x ~ this is a comment" ++ [10] ++ bs "y")
  = Ok [TokenKind.Ident; TokenKind.Ident; TokenKind.Eof].
Proof. by vm_compute. Qed.
