(* ===== verification/LexerProps.v ===== *)
(** * Theorems on the lexer

    The nesting grammar of interpolation holes and the scan that finds a hole's
    end, string literals and the values they denote, the Trojan Source guard on
    literals and comments, the termination of tokenisation, the tiling of the
    source by its tokens, and the [>] rule. *)

From S2P Require Import Prelude Bidi Bytes Num Codes Token Lexer.
Open Scope Z_scope.

(** ** Specifications *)

(** What may stand between a hole's backticks and between a string's quotes: a
    hole holds whole strings, a string whole holes, and neither a line end. *)
Inductive hole_body : list Z → Prop :=
| hole_nil : hole_body []
| hole_byte b h :
    is_newline b = false → b ≠ 96 → b ≠ 34 → hole_body h → hole_body (b :: h)
| hole_string s h :
    string_body s → hole_body h → hole_body (34 :: s ++ 34 :: h)
with string_body : list Z → Prop :=
| string_nil : string_body []
| string_byte b s :
    is_newline b = false → b ≠ 92 → b ≠ 34 → b ≠ 96 → string_body s → string_body (b :: s)
| string_escape b s : is_newline b = false → string_body s → string_body (92 :: b :: s)
| string_backtick s : string_body s → string_body (96 :: 96 :: s)
| string_hole h s :
    h ≠ [] → hole_body h → string_body s → string_body (96 :: h ++ 96 :: s).

Scheme hole_body_mut := Induction for hole_body Sort Prop
with string_body_mut := Induction for string_body Sort Prop.
Combined Scheme hole_string_ind from hole_body_mut, string_body_mut.

(** How a text is written in a string literal without holes: [\n], [\r], [\t],
    [\e], the escaped quote and backslash, the doubled backtick, and every other
    character as it is. *)
Definition escape_char (ch : Z) : list Z :=
  if ch =? 10 then bs "\n" else if ch =? 13 then bs "\r" else if ch =? 9 then bs "\t"
  else if ch =? 27 then bs "\e" else if ch =? 34 then [92; 34]
  else if ch =? 92 then [92; 92] else if ch =? 96 then [96; 96]
  else encode_utf8 ch.
Definition escape (text : list Z) : list Z := concat (escape_char <$> text).

Definition is_space (b : Z) : bool := (b =? 32) || (b =? 9) || is_newline b.

(** What one recogniser step may answer at the head of [rest]. *)
Definition step_ok (rest : list Z) (l : lexeme) (n : nat) : Prop :=
  (1 ≤ n ≤ length rest)%nat ∧
  (l = Skipped → Forall (λ b, is_space b = true) (take n rest) ∨
     (∃ c, take n rest = 126 :: c ∧ Forall (λ b, b ≠ 10) c ∧
           lex_comment (take n rest) = Ok tt)) ∧
  l ≠ Lexed TokenKind.Eof ∧ l ≠ Lexed TokenKind.Gt.

(** What may stand between two tokens: whitespace and comments to the end of
    their line whose bidirectional controls are well nested. *)
Inductive trivia : list Z → Prop :=
| trivia_nil : trivia []
| trivia_space ws gap : Forall (λ b, is_space b = true) ws → trivia gap → trivia (ws ++ gap)
| trivia_comment c gap :
    Forall (λ b, b ≠ 10) c → balanced (from_utf8_lossy (126 :: c)) → trivia gap →
    trivia (126 :: c ++ gap).

(** [tokens] covers [source] from [at_] on: trivia, then a non-empty token with
    its own text, position and line flag, and so on to the end-of-file token. *)
Inductive tiled (source : list Z) (file : FileId) : nat → list Token → Prop :=
| tiled_eof at_ :
    trivia (drop at_ source) → tiled source file at_ [eof_token source file]
| tiled_token at_ gap lexeme rest k from to tokens :
    drop at_ source = gap ++ lexeme ++ rest → trivia gap → lexeme ≠ [] →
    k ≠ TokenKind.Eof →
    from = (at_ + length gap)%nat → to = (from + length lexeme)%nat →
    tiled source file to tokens →
    tiled source file at_
      (mkToken k (in_file (Z.of_nat from) (Z.of_nat to) file) (string_of_bytes lexeme)
         (is_first_on_line source from) :: tokens).

(** ** Hole scanning *)

Lemma drop_through {A} (s : list A) x l : drop (S (length s)) (s ++ x :: l) = l.
Proof. rewrite drop_app_ge by lia. by replace (S (length s) - length s)%nat with 1%nat by lia. Qed.

Lemma scan_sound fuel :
  (∀ rest i j, scan_hole_end fuel rest i = Ok j →
     ∃ h tl, rest = h ++ 96 :: tl ∧ hole_body h ∧ j = (i + length h)%nat) ∧
  (∀ rest i j, scan_string_loop fuel rest i = Ok j →
     ∃ s tl, rest = s ++ 34 :: tl ∧ string_body s ∧ j = (i + S (length s))%nat).
Proof.
  induction fuel as [|fuel [IHh IHs]]; [done|]. split; intros rest i j H.
  - destruct rest as [|b rest]; [done|]. cbn [scan_hole_end] in H.
    destruct (is_newline b) eqn:Hn; [done|].
    destruct (b =? 96) eqn:Eb; unbool; subst.
    { simplify_eq. exists [], rest. simpl. split_and!; [done|constructor|lia]. }
    destruct (b =? 34) eqn:Eq; unbool; subst.
    + inv_bind. apply IHs in H as (s&tl&->&Hs&->). apply IHh in H0 as (h&tl'&Ht&Hh&->).
      replace (S i + S (length s) - i)%nat with (S (S (length s))) in Ht by lia.
      cbn [drop] in Ht. rewrite drop_through in Ht. subst.
      exists (34 :: s ++ 34 :: h), tl'. split_and!; [by simplify_list_eq|by constructor|].
      simpl. rewrite length_app. simpl. lia.
    + apply IHh in H as (h&tl&->&Hh&->). exists (b :: h), tl.
      split_and!; [done|by constructor|simpl; lia].
  - destruct rest as [|b rest]; [done|]. cbn [scan_string_loop] in H.
    destruct (is_newline b) eqn:Hn; [done|].
    destruct (b =? 92) eqn:Eb; unbool; subst.
    { destruct rest as [|b' rest].
      - apply IHs in H as (s&?&Ht&?). by destruct s.
      - destruct (is_newline b') eqn:Hn'; [done|]. change (drop 2 (92 :: b' :: rest)) with rest in H.
        apply IHs in H as (s&tl&->&Hs&->). exists (92 :: b' :: s), tl.
        split_and!; [done|by constructor|simpl; lia]. }
    destruct (b =? 34) eqn:Eq; unbool; subst.
    { simplify_eq. exists [], rest. simpl. split_and!; [done|constructor|lia]. }
    destruct (b =? 96) eqn:Et; unbool; subst.
    + case_bool_decide as Hd.
      * destruct rest as [|b' rest]; [done|]. simplify_eq/=. rewrite ?drop_0 in H.
        apply IHs in H as (s&tl&->&Hs&->). exists (96 :: 96 :: s), tl.
        split_and!; [done|by constructor|simpl; lia].
      * inv_bind. apply IHh in H as (h&tl&->&Hh&->). apply IHs in H0 as (s&tl'&Ht&Hs&->).
        replace (S (S i + length h) - i)%nat with (S (S (length h))) in Ht by lia.
        cbn [drop] in Ht. rewrite drop_through in Ht. subst.
        exists (96 :: h ++ 96 :: s), tl'. split_and!; [by simplify_list_eq| |].
        -- constructor; [|done..]. intros ->. by apply Hd.
        -- simpl. rewrite length_app. simpl. lia.
    + apply IHs in H as (s&tl&->&Hs&->). exists (b :: s), tl.
      split_and!; [done|by constructor|simpl; lia].
Qed.

Lemma hole_body_head h : hole_body h → head h ≠ Some 96.
Proof. by destruct 1; simpl; congruence. Qed.

Lemma is_newline_false_neq b c : is_newline b = false → is_newline c = true → b ≠ c.
Proof. congruence. Qed.

Lemma scan_complete :
  (∀ h, hole_body h → ∀ fuel tl i, (length h < fuel)%nat →
     scan_hole_end fuel (h ++ 96 :: tl) i = Ok (i + length h)%nat) ∧
  (∀ s, string_body s → ∀ fuel tl i, (length s < fuel)%nat →
     scan_string_loop fuel (s ++ 34 :: tl) i = Ok (i + S (length s))%nat).
Proof.
  apply hole_string_ind; intros; (destruct fuel as [|fuel]; [lia|]); simpl in *;
    repeat rewrite length_app in *; simpl in *; repeat match goal with
    | H : is_newline _ = false |- _ => rewrite H
    end.
  - f_equal. lia.
  - zbool. rewrite H by lia. f_equal. lia.
  - rewrite <-app_assoc. simpl. rewrite H by lia. cbn [mbind result_bind].
    replace (S i + S (length s) - i)%nat with (S (S (length s))) by lia.
    cbn [drop]. rewrite drop_through, H0 by lia. f_equal. lia.
  - f_equal. lia.
  - zbool. rewrite H by lia. f_equal. lia.
  - rewrite drop_0, H by lia. f_equal. lia.
  - rewrite drop_0, H by lia. f_equal. lia.
  - rewrite <-app_assoc. simpl. rewrite bool_decide_false.
    2:{ destruct h as [|c h]; [done|]. simpl. intros [= ->].
        by apply (hole_body_head (96 :: h)). }
    rewrite H by lia. cbn [mbind result_bind].
    replace (S (S i + length h) - i)%nat with (S (S (length h))) by lia.
    cbn [drop]. rewrite drop_through, H0 by lia. f_equal. lia.
Qed.

(** The scans never run out of the fuel [lex_string] gives them. *)
Lemma scan_fuel fuel :
  (∀ rest i, (length rest < fuel)%nat → scan_hole_end fuel rest i ≠ out_of_fuel) ∧
  (∀ rest i, (length rest < fuel)%nat → scan_string_loop fuel rest i ≠ out_of_fuel).
Proof.
  induction fuel as [|fuel [IHh IHs]]; [split; intros; lia|]. split; intros rest i Hf H.
  - destruct rest as [|b rest]; [done|]. cbn [scan_hole_end] in H. simpl in Hf.
    destruct (is_newline b); [done|]. destruct (b =? 96); [done|].
    destruct (b =? 34); [|by apply IHh in H; [|lia]].
    apply result_bind_Err in H as [H|(j&H&H0)]; [by apply IHs in H; [|lia]|].
    apply (scan_sound fuel) in H as (s&tl&->&_&->). rewrite length_app in Hf. simpl in Hf.
    apply IHh in H0; [done|]. rewrite length_drop. simpl. rewrite length_app. simpl. lia.
  - destruct rest as [|b rest]; [done|]. cbn [scan_string_loop] in H. simpl in Hf.
    assert (∀ n i, (1 ≤ n)%nat → scan_string_loop fuel (drop n (b :: rest)) i ≠ out_of_fuel) as Hd.
    { intros n k Hn. apply IHs. rewrite length_drop. simpl. lia. }
    destruct (is_newline b); [done|]. destruct (b =? 92).
    { destruct rest as [|b' rest]; [|destruct (is_newline b'); [done|]]; eapply Hd, H; lia. }
    destruct (b =? 34); [done|]. destruct (b =? 96); [|by apply IHs in H; [|lia]].
    case_bool_decide as Ht; [eapply Hd, H; lia|]. clear Ht.
    apply result_bind_Err in H as [H|(j&H&H0)]; [by apply IHh in H; [|lia]|].
    apply (scan_sound fuel) in H as (h&tl&->&_&->). eapply Hd, H0. lia.
Qed.

(** The end of an interpolation hole is where its grammar says it is: the
    scan from a hole's first byte answers index [j] exactly when the bytes up to
    [j] are a hole body (whole nested strings, whose own holes are again hole
    bodies, to any depth) and the byte at [j] is the closing backtick. *)
Theorem scan_hole_end_iff (rest : list Z) (i j : nat) :
  scan_hole_end (S (length rest)) rest i = Ok j ↔
  ∃ h tl, rest = h ++ 96 :: tl ∧ hole_body h ∧ j = (i + length h)%nat.
Proof.
  split; [apply scan_sound|]. intros (h&tl&->&Hh&->).
  apply scan_complete; [done|]. rewrite length_app. lia.
Qed.

(** ** The Trojan Source guard *)

Lemma check_bidi_Ok token chs : check_bidi token chs = Ok tt ↔ balanced chs.
Proof.
  rewrite <-feed_all_balanced. unfold check_bidi.
  destruct (feed_all new chs) as [[|[]]|]; naive_solver.
Qed.

(** A comment is accepted exactly when its bidirectional controls are well
    nested, so none can reorder what is shown after it. *)
Theorem lex_comment_iff (slice : list Z) :
  lex_comment slice = Ok tt ↔ balanced (from_utf8_lossy slice).
Proof. apply check_bidi_Ok. Qed.

(** ** The [>] rule *)

(** The rule of the two token kinds: a block close followed, on its own line, by
    the start of an operand. *)
Definition reads_as_gt (tokens : list Token) (i : nat) : Prop :=
  ∃ t next, tokens !! i = Some t ∧ kind t = TokenKind.BlockClose ∧
    tokens !! S i = Some next ∧ first_on_line next = false ∧ starts_operand (kind next) = true.

(** [reclassify_gt] changes nothing but the kind, and that only of the
    [BlockClose] tokens the rule names, which become [Gt]; no [>]'s reading
    depends on another's. *)
Theorem reclassify_gt_pointwise (tokens : list Token) (i : nat) :
  (reads_as_gt tokens i →
     (kind <$> reclassify_gt tokens !! i) = Some TokenKind.Gt) ∧
  (¬ reads_as_gt tokens i → reclassify_gt tokens !! i = tokens !! i) ∧
  ((λ t, (span t, text t, first_on_line t)) <$> reclassify_gt tokens !! i)
  = ((λ t, (span t, text t, first_on_line t)) <$> tokens !! i).
Proof.
  revert i. induction tokens as [|t tokens IH]; intros i.
  { split_and!; [intros (?&?&?&_)|..]; done. }
  destruct i as [|i]; simpl.
  - case_bool_decide as Hk; simpl; [|split_and!; [|done..]; intros (?&?&[=->]&?&_); done].
    destruct tokens as [|next tokens]; simpl.
    { split_and!; [intros (?&?&?&?&?&_)|..]; done. }
    destruct (negb (first_on_line next) && starts_operand (kind next)) eqn:E.
    + apply andb_true_iff in E as [E1%negb_true_iff E2].
      split_and!; [done| |done]. intros []. by exists t, next.
    + split_and!; [|done..]. intros (t'&next'&[= <-]&_&[= <-]&H1&H2).
      by rewrite H1, H2 in E.
  - destruct (IH i) as (H1&H2&H3).
    split_and!; [intros (t1&n1&?&?&?&?&?); apply H1; by exists t1, n1|intros Hn; apply H2|done].
    intros (t1&n1&?&?&?&?&?). apply Hn. by exists t1, n1.
Qed.

(** ** String literals *)

(** A decoded character's bytes past the first are all above ASCII. *)
Lemma utf8_step_Some bytes ch n :
  utf8_step bytes = (Some ch, n) →
  ∃ b tl, bytes = b :: tl ∧ (1 ≤ n ≤ length bytes)%nat ∧
    Forall (λ c, 128 <= c) (take (n - 1) tl) ∧ (ch < 128 ∧ ch = b ∧ n = 1%nat ∨ 128 <= ch ∧ 128 <= b).
Proof.
  unfold utf8_step, is_cont, in_range. intros H. break; unbool;
    (eexists _, _; split_and!; [done|simpl; lia..| |]); simpl; try lia;
    repeat apply Forall_cons_2; try apply Forall_nil_2; destruct_and?; try lia.
  all: break; unbool; destruct_and?; try lia.
Qed.

Lemma high_not_newline c : 128 <= c → is_newline c = false.
Proof. intros. unfold is_newline. by zbool. Qed.

Lemma string_body_high l s :
  Forall (λ c, 128 <= c) l → string_body s → string_body (l ++ s).
Proof.
  induction 1; intros; [done|]. simpl.
  constructor; [by apply high_not_newline|lia..|by auto].
Qed.

(** Where [lex_string] stops: just past the quote that closes the literal. *)
Lemma lex_string_loop_sound fuel base rest i chunks lit scopes cs l sc j :
  lex_string_loop fuel base rest i chunks lit scopes = Ok (cs, l, sc, j) →
  ∃ s tl, rest = s ++ 34 :: tl ∧ string_body s ∧ j = (i + S (length s))%nat.
Proof.
  revert rest i chunks lit scopes. induction fuel as [|fuel IH]; intros rest i chunks lit scopes H;
    [done|].
  destruct rest as [|b rest]; [done|]. cbn [lex_string_loop] in H.
  destruct (is_newline b) eqn:Hn; [done|]. destruct (b =? 34) eqn:Eq; unbool; subst.
  { simplify_eq. exists [], rest. simpl. split_and!; [done|constructor|lia]. }
  destruct (b =? 92) eqn:Eb; unbool; subst.
  { destruct rest as [|b' rest]; [done|]. destruct (is_newline b') eqn:Hn'; [done|].
    destruct (unescape b'); [|done]. apply IH in H as (s&tl&->&Hs&->).
    exists (92 :: b' :: s), tl. split_and!; [done|by constructor|simpl; lia]. }
  destruct (b =? 96) eqn:Et; unbool; subst.
  - case_bool_decide as Hd.
    + destruct rest as [|b' rest]; [done|]. simplify_eq/=. rewrite drop_0 in H.
      apply IH in H as (s&tl&->&Hs&->). exists (96 :: 96 :: s), tl.
      split_and!; [done|by constructor|simpl; lia].
    + apply result_bind_Ok in H as (k&Hk&H). destruct (is_blank _); [done|].
      apply (scan_sound fuel) in Hk as (h&tl&->&Hh&->). apply IH in H as (s&tl'&Ht&Hs&->).
      replace (S (S i + length h) - i)%nat with (S (S (length h))) in Ht by lia.
      cbn [drop] in Ht. rewrite drop_through in Ht. subst.
      exists (96 :: h ++ 96 :: s), tl'. split_and!; [by simplify_list_eq| |].
      * constructor; [|done..]. intros ->. by apply Hd.
      * simpl. rewrite length_app. simpl. lia.
  - destruct (utf8_step (b :: rest)) as [[ch|] n] eqn:Hu; [|done].
    destruct (feed scopes ch); [|done]. apply utf8_step_Some in Hu as (b'&tl'&[= <- <-]&Hl&Hhi&_).
    apply IH in H as (s&tl&Ht&Hs&->). destruct n as [|n]; [lia|]. cbn [drop] in Ht.
    replace (S n - 1)%nat with n in Hhi by lia.
    exists (b :: take n rest ++ s), tl. split_and!.
    + simpl. by rewrite <-app_assoc, <-Ht, take_drop.
    + constructor; [done..|]. by apply string_body_high.
    + simpl in *. rewrite length_app, length_take. lia.
Qed.

(** It never runs out of its fuel. *)
Lemma lex_string_loop_fuel fuel base rest i chunks lit scopes :
  (length rest < fuel)%nat → lex_string_loop fuel base rest i chunks lit scopes ≠ out_of_fuel.
Proof.
  revert rest i chunks lit scopes. induction fuel as [|fuel IH]; intros rest i chunks lit scopes Hf H;
    [lia|].
  destruct rest as [|b rest]; [done|]. cbn [lex_string_loop] in H. simpl in Hf.
  assert (∀ n i chunks lit scopes, (1 ≤ n)%nat →
    lex_string_loop fuel base (drop n (b :: rest)) i chunks lit scopes ≠ out_of_fuel) as Hd.
  { intros n *. intros. apply IH. rewrite length_drop. simpl. lia. }
  destruct (is_newline b); [done|]. destruct (b =? 34); [done|]. destruct (b =? 92).
  { destruct rest as [|b' rest]; [done|]. destruct (is_newline b'); [done|].
    destruct (unescape b'); [|done]. apply IH in H; [done|]. simpl in Hf. lia. }
  destruct (b =? 96).
  - case_bool_decide; [eapply Hd, H; lia|].
    apply result_bind_Err in H as [H|(k&Hk&H)]; [by apply scan_fuel in H; [|lia]|].
    destruct (is_blank _); [done|].
    apply (scan_sound fuel) in Hk as (h&tl&->&_&->). eapply Hd, H. lia.
  - destruct (utf8_step (b :: rest)) as [[ch|] n] eqn:Hu; [|done].
    destruct (feed scopes ch); [|done]. apply utf8_step_Some in Hu as (?&?&_&?&_).
    eapply Hd, H. lia.
Qed.

Lemma lex_string_sound base rem chunks n :
  lex_string base rem = Ok (chunks, n) →
  ∃ s tl, rem = s ++ 34 :: tl ∧ string_body s ∧ n = S (length s).
Proof.
  unfold lex_string. intros H. apply result_bind_Ok in H as ([[[cs l] sc] j]&Hr&H).
  destruct (lex_string_loop _ _ _ _ _ _ _) eqn:E in Hr; [|by destruct e].
  simpl in Hr. simplify_eq. apply lex_string_loop_sound in E as (s&tl&->&Hs&->).
  destruct (unclosed sc); [done|]. simplify_eq. by exists s, tl.
Qed.

Lemma encode_utf8_cons ch :
  scalar ch → ∃ b l, encode_utf8 ch = b :: l ∧ (b = ch ∨ 128 <= b ∧ 128 <= ch).
Proof.
  unfold scalar, encode_utf8. intros. repeat case_match; unbool;
    eexists _, _; (split; [done|]); [by left|..]; right; (split; [|lia]);
    match goal with |- _ <= _ + ?q => enough (0 <= q) by lia end; apply Z.div_pos; lia.
Qed.

(** One step of the loop over a character copied verbatim. *)
Lemma lex_string_loop_verbatim fuel base ch rest i chunks lit sc :
  scalar ch → is_newline ch = false → ch ≠ 34 → ch ≠ 92 → ch ≠ 96 →
  lex_string_loop (S fuel) base (encode_utf8 ch ++ rest) i chunks lit sc =
  match feed sc ch with
  | Ok sc => lex_string_loop fuel base rest (i + length (encode_utf8 ch)) chunks
               (lit ++ encode_utf8 ch) sc
  | Err ch => throw (TokenLexError.Bidi (BidiIssue.StrayCloser ch "string literal"))
  end.
Proof.
  intros Hs Hn H1 H2 H3. pose proof (utf8_step_encode ch rest Hs) as Hu.
  rewrite <-encode_utf8_length in Hu.
  destruct (encode_utf8_cons ch Hs) as (b&l&E&Hb). rewrite E in Hu |- *.
  assert (is_newline b = false ∧ b ≠ 34 ∧ b ≠ 92 ∧ b ≠ 96) as (Hn'&?&?&?).
  { destruct Hb as [->|[Hb _]]; [done|]. split_and!; [by apply high_not_newline|lia..]. }
  cbn [lex_string_loop app]. rewrite Hn'. zbool. rewrite <-app_comm_cons in Hu. rewrite Hu.
  destruct (feed sc ch); [|done]. rewrite app_comm_cons.
  by rewrite drop_app_length, take_app_length.
Qed.

(** One step over an escape sequence. *)
Lemma lex_string_loop_escape fuel base b ch rest i chunks lit sc :
  unescape b = Some ch → is_newline b = false →
  lex_string_loop (S fuel) base (92 :: b :: rest) i chunks lit sc =
  lex_string_loop fuel base rest (i + 2) chunks (lit ++ [ch]) sc.
Proof. intros Hu Hn. cbn [lex_string_loop]. simpl. by rewrite Hn, Hu. Qed.

Lemma escape_char_cases ch :
  (∃ b, escape_char ch = [92; b] ∧ unescape b = Some ch ∧ is_newline b = false ∧
        classify ch = None ∧ encode_utf8 ch = [ch])
  ∨ ch = 96
  ∨ (escape_char ch = encode_utf8 ch ∧ is_newline ch = false ∧ ch ≠ 34 ∧ ch ≠ 92 ∧ ch ≠ 96).
Proof.
  unfold escape_char.
  repeat (case_match; unbool; [subst; first [by right; left | by left; eexists]|]).
  right. right. unfold is_newline. split_and!; [done|by zbool|done..].
Qed.

Lemma lex_string_loop_text base text : ∀ fuel tl i lit sc,
  Forall scalar text → (length (escape text) < fuel)%nat →
  lex_string_loop fuel base (escape text ++ 34 :: tl) i [] lit sc =
  match feed_all sc text with
  | Ok sc => Ok ([], lit ++ encode_str text, sc, (i + S (length (escape text)))%nat)
  | Err ch => throw (TokenLexError.Bidi (BidiIssue.StrayCloser ch "string literal"))
  end.
Proof.
  induction text as [|ch text IH]; intros fuel tl i lit sc Hs Hf; (destruct fuel as [|fuel]; [lia|]).
  { simpl. rewrite app_nil_r. do 2 f_equal. lia. }
  inversion Hs as [|?? Hc Hs']; subst. simpl feed_all.
  change (escape (ch :: text)) with (escape_char ch ++ escape text) in *.
  change (encode_str (ch :: text)) with (encode_utf8 ch ++ encode_str text).
  rewrite !length_app in *. rewrite <-app_assoc.
  destruct (escape_char_cases ch) as [(b&Eb&Hu&Hn&Hk&He)|[->|(Eb&Hn&?&?&?)]].
  - rewrite Eb, He in *. simpl length in Hf |- *.
    change ([92; b] ++ ?r) with (92 :: b :: r). rewrite (lex_string_loop_escape _ _ _ ch) by done.
    rewrite IH by (done || lia). rewrite feed_neutral by by left. simpl.
    rewrite <-app_assoc. destruct (feed_all sc text); [|done]. do 2 f_equal. lia.
  - simpl in Hf |- *. rewrite drop_0. rewrite IH by (done || lia).
    rewrite <-app_assoc. destruct (feed_all sc text); [|done]. do 2 f_equal. lia.
  - rewrite Eb in *. rewrite lex_string_loop_verbatim by done.
    destruct (feed sc ch); simpl; [|done].
    rewrite IH; [|done|destruct (encode_utf8_cons ch Hc) as (?&?&E&_); rewrite E in Hf; simpl in Hf; lia].
    rewrite <-app_assoc. destruct (feed_all t text); [|done]. do 2 f_equal. lia.
Qed.



(** ** Tokenisation *)

Section tokenize.
Context `{R : Recogniser} `{!RecogniserOk R}.

Lemma count_while_le p rest : (count_while p rest ≤ length rest)%nat.
Proof. induction rest; simpl; [lia|]. case_match; lia. Qed.

Lemma count_while_take p rest : Forall (λ b, p b = true) (take (count_while p rest) rest).
Proof. induction rest; simpl; [done|]. case_match; simpl; by constructor. Qed.

Lemma chars_while_le fuel p rest : (chars_while fuel p rest ≤ length rest)%nat.
Proof.
  revert rest. induction fuel as [|fuel IH]; intros rest; simpl; [lia|].
  destruct rest as [|b rest]; [simpl; lia|].
  destruct (utf8_step (b :: rest)) as [[ch|] n] eqn:E; [|lia].
  destruct (p ch); [|lia]. apply utf8_step_Some in E as (?&?&_&?&_).
  specialize (IH (drop n (b :: rest))). rewrite length_drop in IH. lia.
Qed.

Lemma number_len_bound rest n : number_len rest = Some n → (1 ≤ n ≤ length rest)%nat.
Proof.
  unfold number_len. set (k := count_while is_digit rest).
  pose proof (count_while_le is_digit rest) as Hk. fold k in Hk.
  destruct (k =? 0)%nat eqn:E; [done|]. unbool.
  case_bool_decide as Hd; intros [= <-]; [|lia].
  assert (length (drop k rest) ≠ 0)%nat by (destruct (drop k rest); done).
  pose proof (count_while_le is_digit (drop 1 (drop k rest))) as Hf.
  rewrite !length_drop in *. lia.
Qed.

Lemma scientific_len_bound rest n : scientific_len rest = Some n → (1 ≤ n ≤ length rest)%nat.
Proof.
  unfold scientific_len. intros (k&Hk&H)%bind_Some. apply number_len_bound in Hk.
  destruct (drop k rest) as [|b after] eqn:Ea; [done|].
  destruct ((b =? 101) || (b =? 69)); [|done].
  apply (f_equal length) in Ea. rewrite length_drop in Ea. simpl in Ea.
  set (sign := match after with _ :: _ => _ | [] => _ end) in H.
  assert (sign ≤ length after)%nat by (subst sign; destruct after; [|case_match]; simpl; lia).
  pose proof (count_while_le is_digit (drop sign after)) as Hf. rewrite length_drop in Hf.
  simplify_eq. lia.
Qed.

Lemma ident_len_bound rest n : ident_len rest = Some n → (1 ≤ n ≤ length rest)%nat.
Proof.
  unfold ident_len. destruct (utf8_step rest) as [[ch|] k] eqn:E; [|done].
  apply utf8_step_Some in E as (?&?&_&?&_). intros He.
  pose proof (chars_while_le (length rest) xid_continue (drop k rest)) as Hk.
  rewrite length_drop in Hk. break; lia.
Qed.

Lemma candidates_ok base rest :
  rest ≠ [] → Forall (λ c, step_ok rest c.2.1 c.2.2) (candidates base rest).
Proof.
  intros Hne. unfold candidates. repeat apply Forall_app_2.
  - apply Forall_forall. intros c (x&Hx&Hc)%list_elem_of_omap.
    assert (Forall (λ x : string * TokenKind, bs x.1 ≠ [] ∧ x.2 ≠ TokenKind.Eof ∧ x.2 ≠ TokenKind.Gt)
              literals) as Hl by (apply (bool_decide_unpack _); by vm_compute).
    rewrite Forall_forall in Hl. destruct (Hl x Hx) as (Hn&He&Hg). destruct x as [lit k].
    case_bool_decide as Hp; [|done]. simplify_eq/=. apply prefix_length in Hp.
    destruct (bs lit) eqn:E; [done|]. split_and!; simpl in *; [lia|lia|done|congruence|congruence].
  - destruct (ident_len rest) eqn:E; [|done]. repeat constructor; simpl; try done;
      by apply ident_len_bound in E as [??].
  - destruct (number_len rest) eqn:E; [|done]. repeat constructor; simpl; try done;
      by apply number_len_bound in E as [??].
  - destruct (scientific_len rest) eqn:E; [|done]. repeat constructor; simpl; try done;
      by apply scientific_len_bound in E as [??].
  - destruct rest as [|b rest]; [done|].
    destruct ((b =? 32) || (b =? 9) || is_newline b) eqn:Eb.
    { apply Forall_singleton. cbn [snd fst].
      pose proof (count_while_le is_space (b :: rest)) as Hl.
      pose proof (count_while_take is_space (b :: rest)) as Ht.
      change (λ b, (b =? 32) || (b =? 9) || is_newline b) with is_space.
      split_and!; [|done|by left|done..]. simpl. unfold is_space at 1. rewrite Eb. lia. }
    destruct (b =? 126) eqn:E1; unbool.
    { subst. apply Forall_singleton. cbn [snd fst].
      pose proof (count_while_le (λ b, negb (b =? 10)) rest) as Hl.
      pose proof (count_while_take (λ b, negb (b =? 10)) rest) as Ht.
      destruct (lex_comment _) as [[]|e] eqn:Ec;
        (split_and!; [lia|simpl; lia|intros Hsk|done..]); [|done].
      right. eexists. split_and!; [done| |done]. eapply Forall_impl; [exact Ht|].
      intros c Hc. simpl in Hc. by unbool. }
    destruct (b =? 34) eqn:E2; unbool.
    { apply Forall_singleton.
      destruct (lex_string _ _) as [[chunks n]|e] eqn:Es; cbn [snd fst].
      - apply lex_string_sound in Es as (s&t&->&_&->). split_and!; [lia| |done..].
        simpl. rewrite length_app. simpl. lia.
      - split_and!; [lia|simpl; lia|done..]. }
    destruct (utf8_step (b :: rest)) as [[ch|] n] eqn:E3; [|done].
    apply utf8_step_Some in E3 as (?&?&_&?&_).
    case_bool_decide; [|done]. apply Forall_singleton. cbn [snd fst]. by split_and!; try lia.
Qed.

Lemma keep_longest_elem cs c : fold_left keep_longest cs c ∈ c :: cs.
Proof.
  revert c. induction cs as [|x cs IH]; intros c; simpl; [set_solver|].
  specialize (IH (keep_longest c x)).
  assert (keep_longest c x = x ∨ keep_longest c x = c) as [E|E]
    by (unfold keep_longest; case_match; by auto); rewrite E in IH |- *; set_solver.
Qed.

(** Every step of the recogniser covers at least one byte and stays inside the
    input, and skips nothing but whitespace and accepted comments. *)
Lemma lex_next_ok base rest :
  rest ≠ [] → step_ok rest (lex_next base rest).1 (lex_next base rest).2.
Proof.
  intros Hne. unfold lex_next. pose proof (candidates_ok base rest Hne) as Hc.
  destruct (candidates base rest) as [|c cs].
  - split_and!; try done; by apply error_len_bound.
  - rewrite Forall_forall in Hc. apply Hc, keep_longest_elem.
Qed.

(** The loop answers or reports an error of the code: with [S (length source)]
    turns it never runs out. *)
Lemma tokenize_loop_fuel fuel source file at_ tokens :
  (length source - at_ < fuel)%nat → tokenize_loop fuel source file at_ tokens ≠ out_of_fuel.
Proof.
  revert at_ tokens. induction fuel as [|fuel IH]; intros at_ tokens Hf H; [lia|].
  cbn [tokenize_loop] in H. destruct (drop at_ source) as [|b rest] eqn:Ed; [done|].
  pose proof (lex_next_ok (Z.of_nat at_) (b :: rest) ltac:(done)) as (Hn&_&_&_).
  apply (f_equal length) in Ed. rewrite length_drop in Ed.
  destruct (lex_next _ _) as [[|k|e] n]; simpl in Hn, Ed.
  - apply IH in H; [done|lia].
  - case_bool_decide; [done|]. apply IH in H; [done|lia].
  - by destruct (error_text _ _).
Qed.

Lemma tiled_trivia source file at_ n tokens :
  (∀ gap, trivia gap → trivia (take n (drop at_ source) ++ gap)) →
  (n ≤ length (drop at_ source))%nat →
  tiled source file (at_ + n) tokens → tiled source file at_ tokens.
Proof.
  intros Hg Hn H. inversion H as [?|? gap lexeme rest k from to tokens' Hd Hgap Hne Hk Hf Ht]; subst.
  - constructor. rewrite <-(take_drop n (drop at_ source)), drop_drop. by apply Hg.
  - eapply (tiled_token _ _ _ (take n (drop at_ source) ++ gap) lexeme rest); try done.
    + by rewrite <-app_assoc, <-Hd, <-drop_drop, take_drop.
    + by apply Hg.
    + rewrite length_app, length_take_le by done. lia.
Qed.

Lemma tokenize_loop_tiled fuel source file at_ acc tokens :
  Z.of_nat (length source) < 2 ^ 32 → (at_ ≤ length source)%nat →
  tokenize_loop fuel source file at_ acc = Ok tokens →
  ∃ ts, tokens = acc ++ ts ∧ tiled source file at_ ts.
Proof.
  intros Hu. revert at_ acc. induction fuel as [|fuel IH]; intros at_ acc Ha H; [done|].
  cbn [tokenize_loop] in H. destruct (drop at_ source) as [|b rest] eqn:Ed.
  { simplify_eq. exists [eof_token source file]. split; [done|]. constructor.
    rewrite Ed. constructor. }
  pose proof (lex_next_ok (Z.of_nat at_) (b :: rest) ltac:(done)) as (Hn&Hs&Hk&_).
  pose proof (f_equal length Ed) as El. rewrite length_drop in El.
  set (input := b :: rest) in *. clearbody input.
  destruct (lex_next _ _) as [[|k|e] n]; simpl in Hn, Hs, Hk.
  - apply IH in H as (ts&->&Ht); [|lia]. exists ts. split; [done|].
    apply (tiled_trivia _ _ _ n); [|rewrite Ed; lia|exact Ht]. rewrite Ed. intros gap Hg.
    destruct (Hs eq_refl) as [Hw|(c&->&Hc&Hb)]; [by constructor|].
    apply lex_comment_iff in Hb. by constructor.
  - rewrite bool_decide_false in H by congruence.
    apply IH in H as (ts&->&Ht); [|lia]. rewrite <-app_assoc. eexists. split; [done|].
    rewrite !u32_id by lia.
    eapply (tiled_token _ _ _ [] (take n input) (drop n input) k at_ (at_ + n)); try done.
    + by rewrite Ed, app_nil_l, take_drop.
    + constructor.
    + intros Hnil. apply (f_equal length) in Hnil. rewrite length_take in Hnil. simpl in Hnil. lia.
    + congruence.
    + rewrite length_take. lia.
  - by destruct (error_text _ _).
Qed.

Lemma reclassify_gt_tiled source file at_ tokens :
  tiled source file at_ tokens → tiled source file at_ (reclassify_gt tokens).
Proof.
  induction 1 as [|at_ gap lexeme rest k from to tokens Hd Hg Hl Hk Hf Ht HT IH]; simpl; [by constructor|].
  destruct (_ && _); simpl; by eapply tiled_token.
Qed.


End tokenize.

Definition sample_source : list Z := bs "x = a > 1 ~ note".

