(* ===== verification/ParserState.v ===== *)
(** * The parser's cursor: [src/parser/ast_parser.rs]

    The parser's state, the operations every grammar rule is made of, and the
    state-and-error monad they run in.  A rule ends with a value, with a parse
    error, or with the panic an out-of-range token index would be; loops run on
    fuel, and running out of it is an outcome of its own. *)

From S2P Require Import Prelude Bytes Num Codes Token Ast Lexer.
Open Scope Z_scope.

(** ** What the parser takes from the Unicode tables of Rust's [char] *)

Class UnicodeCase : Type := {
  is_uppercase : Z → bool;
  to_uppercase : Z → list Z
}.

#[export] Instance ascii_case : UnicodeCase := {|
  is_uppercase := in_range 65 90;
  to_uppercase c := [if in_range 97 122 c then c - 32 else c]
|}.

(** ** State and monad *)

Record ParseError : Type := mkParseError {
  error_code : Code;
  error_message : string;
  parse_error_span : Span;
  error_help : option string
}.

(** [ParseError::new] and the [help] setter. *)
Definition error_new (code : Code) (span : Span) (message : string) : ParseError :=
  mkParseError code message span None.
Definition with_help (e : ParseError) (help : string) : ParseError :=
  mkParseError (error_code e) (error_message e) (parse_error_span e) (Some help).

Definition MAX_NESTING_DEPTH : nat := 128.
Definition MAX_PARAMETERS : nat := 10.
Arguments MAX_NESTING_DEPTH : simpl never.
Arguments MAX_PARAMETERS : simpl never.

Record Parser : Type := mkParser {
  tokens : list Token;
  pos : nat;
  file : FileId;
  span_base : Z;
  depth : nat;
  suppress_lambda : bool;
  bare_match_forbidden : bool;
  module_paths : gmap string string;
  last_line_final_block_close : option Span;
  type_name_uses : list TypeNameUse;
  variant_declarations : list TypeNameUse
}.

Definition with_pos (n : nat) (s : Parser) : Parser :=
  mkParser (tokens s) n (file s) (span_base s) (depth s) (suppress_lambda s)
    (bare_match_forbidden s) (module_paths s) (last_line_final_block_close s)
    (type_name_uses s) (variant_declarations s).
Definition with_depth (n : nat) (s : Parser) : Parser :=
  mkParser (tokens s) (pos s) (file s) (span_base s) n (suppress_lambda s)
    (bare_match_forbidden s) (module_paths s) (last_line_final_block_close s)
    (type_name_uses s) (variant_declarations s).
Definition with_suppress_lambda (b : bool) (s : Parser) : Parser :=
  mkParser (tokens s) (pos s) (file s) (span_base s) (depth s) b
    (bare_match_forbidden s) (module_paths s) (last_line_final_block_close s)
    (type_name_uses s) (variant_declarations s).
Definition with_bare_match_forbidden (b : bool) (s : Parser) : Parser :=
  mkParser (tokens s) (pos s) (file s) (span_base s) (depth s) (suppress_lambda s)
    b (module_paths s) (last_line_final_block_close s)
    (type_name_uses s) (variant_declarations s).
Definition with_module_paths (m : gmap string string) (s : Parser) : Parser :=
  mkParser (tokens s) (pos s) (file s) (span_base s) (depth s) (suppress_lambda s)
    (bare_match_forbidden s) m (last_line_final_block_close s)
    (type_name_uses s) (variant_declarations s).
Definition with_block_close (c : option Span) (s : Parser) : Parser :=
  mkParser (tokens s) (pos s) (file s) (span_base s) (depth s) (suppress_lambda s)
    (bare_match_forbidden s) (module_paths s) c
    (type_name_uses s) (variant_declarations s).
Definition push_type_name_use (u : TypeNameUse) (s : Parser) : Parser :=
  mkParser (tokens s) (pos s) (file s) (span_base s) (depth s) (suppress_lambda s)
    (bare_match_forbidden s) (module_paths s) (last_line_final_block_close s)
    (type_name_uses s ++ [u]) (variant_declarations s).
Definition push_variant_declaration (u : TypeNameUse) (s : Parser) : Parser :=
  mkParser (tokens s) (pos s) (file s) (span_base s) (depth s) (suppress_lambda s)
    (bare_match_forbidden s) (module_paths s) (last_line_final_block_close s)
    (type_name_uses s) (variant_declarations s ++ [u]).

(** [Parser::new]. *)
Definition new (tokens : list Token) : Parser :=
  mkParser tokens 0 (match tokens with t :: _ => Token.file (span t) | [] => ROOT_FILE end)
    0 0 false false ∅ None [] [].

Inductive failure : Type :=
| Error (e : ParseError)
| Panic
| OutOfFuel.

Definition P (A : Type) : Type := Parser → result failure A * Parser.

#[export] Instance P_ret : MRet P := λ A a s, (Ok a, s).
#[export] Instance P_bind : MBind P := λ A B f m s,
  match m s with (Ok a, s') => f a s' | (Err e, s') => (Err e, s') end.

(** [if self.check(..) { .. } else { .. }]. *)
Definition branch {A} (c : P bool) (yes no : P A) : P A :=
  b ← c; if (b : bool) then yes else no.
Notation "'ifM' c 'then' a 'else' b" := (branch c a b)
  (at level 200, c, a, b at level 200,
   format "'[hv' 'ifM'  c  '/' 'then'  a  '/' 'else'  b ']'").

Definition get : P Parser := λ s, (Ok s, s).
Definition modify (f : Parser → Parser) : P unit := λ s, (Ok tt, f s).
Definition fail {A} (e : ParseError) : P A := λ s, (Err (Error e), s).
Definition panic {A} : P A := λ s, (Err Panic, s).

(** A [loop] of the source: [inl] goes round again, [inr] breaks. *)
Fixpoint iter {A B} (fuel : nat) (body : A → P (A + B)) (a : A) : P B :=
  match fuel with
  | O => λ s, (Err OutOfFuel, s)
  | S fuel' => r ← body a; match r with inl a' => iter fuel' body a' | inr b => mret b end
  end.

(** No loop of the parser turns more often than there are tokens. *)
Definition loop {A B} (body : A → P (A + B)) (a : A) : P B :=
  λ s, iter (S (length (tokens s))) body a s.

Definition continue_ {A B} (a : A) : P (A + B) := mret (inl a).
Definition break_ {A B} (b : B) : P (A + B) := mret (inr b).

(** ** The cursor *)

Definition peek : P Token := λ s,
  match tokens s !! pos s with Some t => (Ok t, s) | None => (Err Panic, s) end.

Definition at_end (s : Parser) : bool :=
  match tokens s !! pos s with
  | Some t => bool_decide (kind t = TokenKind.Eof)
  | None => true
  end.
Definition is_at_end : P bool := λ s, (Ok (at_end s), s).

Definition advance : P unit := λ s,
  let s' := if at_end s then s else with_pos (S (pos s)) s in
  match pos s' with O => (Err Panic, s') | S _ => (Ok tt, s') end.

Definition check (k : TokenKind) : P bool := t ← peek; mret (bool_decide (kind t = k)).

Definition check_same_line_at (offset : nat) (k : TokenKind) : P bool := λ s,
  (Ok match tokens s !! (pos s + offset)%nat with
      | Some token => bool_decide (kind token = k) && negb (first_on_line token)
      | None => false
      end, s).
Definition check_same_line (k : TokenKind) : P bool := check_same_line_at 0 k.

(** The cursor clamped to the last token, when there is one. *)
Definition peek_ahead (offset : nat) : P Token := λ s,
  match tokens s !! (pos s + offset)%nat with
  | Some t => (Ok t, s)
  | None => match last (tokens s) with Some t => (Ok t, s) | None => (Err Panic, s) end
  end.

(** [Parser::span]. *)
Definition span (start end_ : Z) : P Span := s ← get; mret (in_file start end_ (file s)).
Definition current_span : P Span := t ← peek; mret (Token.span t).
Definition previous_span : P Span := λ s,
  match pos s with
  | O => (Ok (in_file 0 0 (file s)), s)
  | S p => match tokens s !! p with
           | Some t => (Ok (Token.span t), s)
           | None => (Err Panic, s)
           end
  end.

Definition nat_string (n : nat) : string := string_of_bytes (render 10 (Z.of_nat n)).

Definition nested {A} (f : P A) : P A := λ s,
  if (MAX_NESTING_DEPTH <=? depth s)%nat then
    (here ← current_span;
     fail (with_help
       (error_new NestingTooDeep here
          ("expression nesting too deep: more than " +:+ nat_string MAX_NESTING_DEPTH +:+ " levels"))
       "split the expression into named bindings")) s
  else
    let '(result, s') := f (with_depth (S (depth s)) s) in
    (result, with_depth (depth s' - 1) s').

Definition expect (k : TokenKind) : P unit :=
  ifM check k then advance
  else
    t ← peek;
    fail (error_new UnexpectedToken (Token.span t)
            ("expected " +:+ describe k +:+ ", found " +:+ describe (kind t))).

Definition plain_string_literal (chunks : list StrChunk) (at_ : Span) (code : Code)
    (message : string) : P string :=
  advance;;
  match chunks with
  | [StrChunk.Lit value] => mret value
  | _ => fail (error_new code at_ message)
  end.

Definition parse_comma_separated {A} (close : TokenKind) (parse_one : P A) : P (list A) :=
  ifM check close then mret []
  else
    loop (λ items : list A,
      item ← parse_one;
      ifM check TokenKind.Comma then advance;; continue_ (items ++ [item])
      else break_ (items ++ [item])) [].

Definition expect_ident : P string :=
  ifM check TokenKind.Ident then t ← peek; advance;; mret (text t)
  else
    ifM check TokenKind.EntryPoint then advance;; mret "^"%string
    else
      t ← peek;
      fail (error_new UnexpectedToken (Token.span t)
              ("expected a name, found " +:+ describe (kind t))).

(** [Option::take] on the recorded closer. *)
Definition blame_early_block_close (err : ParseError) : P ParseError := λ s,
  match last_line_final_block_close s with
  | Some at_ =>
      (Ok (with_help
         (error_new EarlyBlockClose at_ "this `>` closed its block because it ended the line")
         "to compare, put the right operand on the same line as `>`"),
       with_block_close None s)
  | None => (Ok err, s)
  end.

Definition is_allowed_glued_to_name (k : TokenKind) : bool :=
  match k with
  | TokenKind.TypeAnnotation | TokenKind.Assign | TokenKind.MutAssign | TokenKind.Comma
  | TokenKind.ParenOpen | TokenKind.ParenClose | TokenKind.BraceOpen | TokenKind.BraceClose
  | TokenKind.BracketOpen | TokenKind.BracketClose | TokenKind.Slash | TokenKind.Arrow
  | TokenKind.ReturnArrow | TokenKind.Dot | TokenKind.Eof => true
  | _ => false
  end.

Section names.
Context `{U : UnicodeCase}.

(** The first character of a text and what follows it. *)
Definition first_char (text : string) : option (Z * list Z) :=
  match utf8_step (bs text) with
  | (Some ch, n) => Some (ch, drop n (bs text))
  | (None, _) => None
  end.

Definition is_capitalized (name : string) : bool :=
  match first_char name with Some (c, _) => is_uppercase c | None => false end.

(** Fold each [-word] glued to the name into camel case. *)
Definition suggested_name_fix (name : string) (end_ : Z) : P string :=
  loop (λ '(fixed, end_, offset),
    separator ← peek_ahead offset;
    if bool_decide (kind separator ≠ TokenKind.Minus ∨ start (Token.span separator) ≠ end_)
    then break_ fixed
    else
      word ← peek_ahead (offset + 1);
      if bool_decide (kind word ≠ TokenKind.Ident
                      ∨ start (Token.span word) ≠ Token.end_ (Token.span separator))
      then break_ fixed
      else
        let fixed := match first_char (text word) with
                     | Some (first, rest) =>
                         fixed +:+ string_of_bytes (encode_str (to_uppercase first) ++ rest)
                     | None => fixed
                     end in
        continue_ (fixed, Token.end_ (Token.span word), (offset + 2)%nat))
  (name, end_, 0%nat).

Definition reject_glued_name_suffix (name : string) (name_span : Span) : P unit :=
  next ← peek;
  if negb (bool_decide (Token.file (Token.span next) = Token.file name_span))
     || negb (bool_decide (start (Token.span next) = Token.end_ name_span))
     || is_allowed_glued_to_name (kind next)
  then mret tt
  else
    fixed ← suggested_name_fix name (Token.end_ name_span);
    fail (with_help
      (error_new NameGluedToSymbol (Token.span next)
         ("a name cannot be followed directly by `" +:+ text next
          +:+ "` — a name is letters, digits and `_`"))
      ("did you mean `" +:+ fixed +:+ "`?")).

Definition expect_definition_name : P string :=
  name ← expect_ident;
  name_span ← previous_span;
  reject_glued_name_suffix name name_span;;
  mret name.

End names.

(** ** Qualified names *)

Definition at_possible_module_chain : P bool := s ← get;
  if bool_decide (module_paths s = ∅) then mret false
  else ifM check TokenKind.Ident then check_same_line_at 1 TokenKind.Dot else mret false.

Definition dotted_chain_at_cursor : P (list string) :=
  ifM check TokenKind.Ident then
    t ← peek;
    loop (λ segments : list string,
      let dot := (2 * length segments - 1)%nat in
      ifM check_same_line_at dot TokenKind.Dot then
        ifM check_same_line_at (dot + 1) TokenKind.Ident then
          member ← peek_ahead (dot + 1);
          continue_ (segments ++ [text member])
        else
          ifM check_same_line_at (dot + 1) TokenKind.At then
            ifM check_same_line_at (dot + 2) TokenKind.Ident then
              member ← peek_ahead (dot + 2);
              break_ (segments ++ [("@" +:+ text member)%string])
            else break_ segments
          else break_ segments
      else break_ segments) [text t]
  else mret [].

(** The loop of [resolve_chain], longest prefix first. *)
Fixpoint resolve_chain_from (paths : gmap string string) (segments : list string)
    (prefix_len : nat) : option (string * string * nat) :=
  match prefix_len with
  | O => None
  | S shorter =>
      match paths !! String.concat "." (take prefix_len segments) with
      | Some canonical =>
          member ← segments !! prefix_len; Some (canonical, member, prefix_len)
      | None => resolve_chain_from paths segments shorter
      end
  end.
Definition resolve_chain (paths : gmap string string) (segments : list string) :
    option (string * string * nat) :=
  resolve_chain_from paths segments (length segments - 1).

Fixpoint advance_by (n : nat) : P unit :=
  match n with O => mret tt | S n' => advance;; advance_by n' end.

Definition try_parse_module_member : P (option (string * Span)) :=
  ifM at_possible_module_chain then
    segments ← dotted_chain_at_cursor;
    s ← get;
    match resolve_chain (module_paths s) segments with
    | None => mret None
    | Some (_, member, prefix_len) =>
        let name := (String.concat "." (take prefix_len segments) +:+ "." +:+ member)%string in
        here ← current_span;
        advance_by (2 * prefix_len + (if String.prefix "@" member then 2 else 1));;
        last ← previous_span;
        at_ ← span (start here) (Token.end_ last);
        mret (Some (name, at_))
    end
  else mret None.

Definition parse_name_or_qualified : P (string * Span * bool) :=
  member ← try_parse_module_member;
  match member with
  | Some (name, at_) => mret (name, at_, true)
  | None =>
      at_ ← current_span;
      t ← peek;
      advance;;
      mret (text t, at_, false)
  end.

Definition register_import (path : ModulePath) : P unit :=
  match binding_name path with
  | None => mret tt
  | Some binding =>
      let canonical := match path with
                       | BuiltinDotted parts => String.concat "." parts
                       | FilePath _ => binding
                       end in
      modify (λ s, with_module_paths
                     (<[canonical := canonical]> (<[binding := canonical]> (module_paths s))) s)
  end.
