(* ===== verification/Lookahead.v ===== *)
(** * Speculative scans: [src/parser/ast_parser/lookahead.rs]

    The scans that decide which grammar rule applies; none moves the cursor. *)

From S2P Require Import Prelude Bytes Num Codes Token Ast Lexer ParserState.
Open Scope Z_scope.

(** The token kinds that end a complete operand. *)
Definition ends_operand (k : TokenKind) : bool :=
  match k with
  | TokenKind.Number _ | TokenKind.String _ | TokenKind.True | TokenKind.False
  | TokenKind.Unit | TokenKind.Ident | TokenKind.Backtick | TokenKind.ParenClose
  | TokenKind.BracketClose | TokenKind.BraceClose | TokenKind.BlockClose => true
  | _ => false
  end.

(** The shape every scan shares: look at the token [idx] past the cursor, then
    either answer or go on to the next one. *)
Definition scan {X B} (idx : nat) (x : X) (step : nat → X → TokenKind → P (X + B)) : P B :=
  loop (λ '(idx, x),
    t ← peek_ahead idx;
    r ← step idx x (kind t);
    match r with
    | inl x' => continue_ (S idx, x')
    | inr b => break_ b
    end) (idx, x).

(** The token after a balanced payload list that opens at offset [idx], or
    nothing when the list never closes; [depth] starts at 0 there. *)
Definition skip_payload (idx : nat) : P (option nat) :=
  scan idx 0%nat (λ idx depth k,
    match k with
    | TokenKind.ParenOpen => continue_ (S depth)
    | TokenKind.ParenClose =>
        if (depth - 1 =? 0)%nat then break_ (Some (S idx)) else continue_ (depth - 1)%nat
    | TokenKind.Eof => break_ None
    | _ => continue_ depth
    end).

Definition peek_ahead_is (offset : nat) (k : TokenKind) : P bool :=
  t ← peek_ahead offset; mret (bool_decide (kind t = k)).

Section lookahead.
Context `{U : UnicodeCase}.

Definition looks_like_sum_declaration : P bool :=
  t ← peek;
  if negb (bool_decide (kind t = TokenKind.Ident)) || negb (is_capitalized (text t))
  then mret false
  else
    payload ← peek_ahead 1;
    after ← (if bool_decide (kind payload = TokenKind.ParenOpen) then skip_payload 1
             else mret (Some 1%nat));
    match after with
    | None => mret false
    | Some idx =>
        ifM peek_ahead_is idx TokenKind.Slash then
          after_slash ← peek_ahead (idx + 1);
          mret (bool_decide (kind after_slash = TokenKind.Ident)
                && is_capitalized (text after_slash))
        else mret false
    end.

End lookahead.

Definition is_operator_definition_kind (k : TokenKind) : bool :=
  match k with
  | TokenKind.Plus | TokenKind.Minus | TokenKind.Star | TokenKind.Slash | TokenKind.Percent
  | TokenKind.Eq | TokenKind.Ne | TokenKind.Le | TokenKind.Ge => true
  | _ => false
  end.

Definition at_operator_definition : P bool :=
  t ← peek;
  if is_operator_definition_kind (kind t) then peek_ahead_is 1 TokenKind.Assign
  else mret false.

(** The scan for the [=>] that closes a bare parameter's annotation; the counter
    is the brace depth, an [i32]. *)
Definition annotation_ends_in_arrow : P bool :=
  scan 2 0 (λ _ brace_depth k,
    match k with
    | TokenKind.BraceOpen => continue_ (brace_depth + 1)
    | TokenKind.BraceClose => continue_ (brace_depth - 1)
    | TokenKind.Arrow => if brace_depth =? 0 then break_ true else continue_ brace_depth
    | TokenKind.Eof => break_ false
    | TokenKind.BlockOpen | TokenKind.Comma =>
        if brace_depth =? 0 then break_ false else continue_ brace_depth
    | _ => continue_ brace_depth
    end).

Definition looks_like_bare_lambda : P bool :=
  s ← get;
  if suppress_lambda s then mret false
  else
    t ← peek_ahead 1;
    match kind t with
    | TokenKind.Arrow => mret true
    | TokenKind.TypeAnnotation => annotation_ends_in_arrow
    | _ => mret false
    end.

Definition parameter_list_ahead_from (offset : nat) : P bool :=
  scan (offset + 1) 1%nat (λ idx depth k,
    match k with
    | TokenKind.ParenOpen => continue_ (S depth)
    | TokenKind.ParenClose =>
        if (depth - 1 =? 0)%nat then
          next ← peek_ahead (idx + 1);
          break_ (bool_decide (kind next = TokenKind.Arrow ∨ kind next = TokenKind.ReturnArrow))
        else continue_ (depth - 1)%nat
    | TokenKind.Eof => break_ false
    | _ => continue_ depth
    end).

Definition parameter_list_ahead : P bool := parameter_list_ahead_from 0.

Definition paren_starts_lambda : P bool :=
  s ← get;
  if suppress_lambda s then mret false else parameter_list_ahead.

Definition is_member_name_kind (k : TokenKind) : bool :=
  match k with TokenKind.Ident | TokenKind.Backtick => true | _ => false end.

(** The depths of braces, parentheses, brackets and blocks, each an [i32]. *)
Definition member_block_has_field : P bool :=
  scan 1 (1, 0, 0, 0) (λ idx '(brace, paren, bracket, block) k,
    annotated ← peek_ahead_is (idx + 1) TokenKind.TypeAnnotation;
    if (brace =? 1) && (paren =? 0) && (bracket =? 0) && (block =? 0)
       && is_member_name_kind k && annotated
    then break_ true
    else
      match k with
      | TokenKind.BraceOpen => continue_ (brace + 1, paren, bracket, block)
      | TokenKind.BraceClose =>
          if brace - 1 =? 0 then break_ false else continue_ (brace - 1, paren, bracket, block)
      | TokenKind.ParenOpen => continue_ (brace, paren + 1, bracket, block)
      | TokenKind.ParenClose => continue_ (brace, paren - 1, bracket, block)
      | TokenKind.BracketOpen => continue_ (brace, paren, bracket + 1, block)
      | TokenKind.BracketClose => continue_ (brace, paren, bracket - 1, block)
      | TokenKind.BlockOpen =>
          previous ← peek_ahead (idx - 1);
          continue_ (brace, paren, bracket,
                     if ends_operand (kind previous) then block else block + 1)
      | TokenKind.BlockClose => continue_ (brace, paren, bracket, block - 1)
      | TokenKind.Eof => break_ false
      | _ => continue_ (brace, paren, bracket, block)
      end).

Definition operator_symbol_name : P (option string) :=
  t ← peek;
  mret match kind t with
       | TokenKind.Plus => Some "+"%string
       | TokenKind.Minus => Some "-"%string
       | TokenKind.Star => Some "*"%string
       | TokenKind.Slash => Some "/"%string
       | TokenKind.Percent => Some "%"%string
       | TokenKind.Eq => Some "=="%string
       | TokenKind.Ne => Some "!="%string
       | TokenKind.Le => Some "<="%string
       | TokenKind.Ge => Some ">="%string
       | _ => None
       end.

Definition operator_def_name : P (option string) :=
  name ← operator_symbol_name;
  ifM peek_ahead_is 1 TokenKind.Assign then mret name else mret None.
