(* ===== verification/Grammar.v ===== *)
(** * The grammar: [src/parser/ast_parser/{types,patterns,exprs,items}.rs]

    Every rule of the recursive-descent parser.  The rules that call each other
    through [Parser::nested] do so through the record [Grammar] of the rules one
    level deeper; [grammar] ties the knot on fuel, one unit a level. *)

From Stdlib Require Import Ascii.
From S2P Require Import Prelude Bytes Num Codes Token Ast Lexer ParserState Lookahead.
Open Scope Z_scope.

(** The rules entered through [nested], one level deeper, and the rule for an
    interpolation hole, which starts a parser of its own. *)
Record Grammar : Type := mkGrammar {
  parse_assignment' : P Expression;
  parse_unary' : P Expression;
  parse_type_inner' : P Ty;
  parse_pattern_inner' : P Pattern;
  parse_block_inner' : P Expression
}.

Section grammar.
Context `{R : Recogniser} `{U : UnicodeCase}.

Section rules.
Variable g : Grammar.

(** ** Types *)

Definition parse_type : P Ty := nested (parse_type_inner' g).

Definition expect_fence_close : P unit :=
  expect TokenKind.Pipe;; expect TokenKind.BracketClose.

Definition parse_function_type : P Ty :=
  expect TokenKind.ParenOpen;;
  parameters ← parse_comma_separated TokenKind.ParenClose parse_type;
  expect TokenKind.ParenClose;;
  expect TokenKind.ReturnArrow;;
  return_type ← parse_type;
  mret (Ty.Function parameters return_type).

Definition parse_fenced_type : P Ty :=
  expect TokenKind.BracketOpen;;
  expect TokenKind.Pipe;;
  first ← parse_type;
  ifM check TokenKind.Arrow then
    advance;;
    value ← parse_type;
    expect_fence_close;;
    mret (Ty.Map first value)
  else
    expect_fence_close;;
    mret (Ty.Set_ first).

(** The [Entry] of [parse_anonymous_record_type]: a name for a named field. *)
Definition parse_record_type_entry : P (option string * Ty) :=
  ident ← check TokenKind.Ident;
  annotated ← peek_ahead_is 1 TokenKind.TypeAnnotation;
  if (ident : bool) && (annotated : bool) then
    name ← expect_definition_name;
    expect TokenKind.TypeAnnotation;;
    ty ← parse_type;
    mret (Some name, ty)
  else
    ty ← parse_type;
    mret (None, ty).

Definition parse_anonymous_record_type : P Ty :=
  here ← current_span;
  expect TokenKind.BraceOpen;;
  entries ← parse_comma_separated TokenKind.BraceClose parse_record_type_entry;
  expect TokenKind.BraceClose;;
  last ← previous_span;
  at_ ← span (start here) (end_ last);
  let positional_count := length (filter (λ e, e.1 = None) entries) in
  if bool_decide (entries = []) then
    fail (error_new UnexpectedToken at_ "a record type names at least one field")
  else if (0 <? positional_count)%nat && (positional_count <? length entries)%nat then
    fail (with_help
      (error_new MixedRecordFields at_
         "a record type is all named fields or all positional — not both")
      "write every field as `name :: Type`, or drop the names for a positional type: `{ T1, T2 }`")
  else
    let fields :=
      if (0 <? positional_count)%nat
      then imap (λ index e, (positional_field_name index, snd e)) entries
      else (λ e, (default ""%string (fst e), snd e)) <$> entries in
    mret (Ty.Record (canonical_record_field_order fields)).

Definition result_type : Ty :=
  Ty.Sum "Result" [mkSumVariant "Ok" [Ty.Generic "T"]; mkSumVariant "NotOk" [Ty.Generic "E"]].

Definition parse_type_inner : P Ty :=
  qualified ← try_parse_module_member;
  match qualified with
  | Some (name, at_) =>
      modify (push_type_name_use (mkTypeNameUse name at_));;
      mret (named_ref name)
  | None =>
      token ← peek;
      match kind token with
      | TokenKind.Unit => advance;; mret Ty.Unit
      | TokenKind.BraceOpen => parse_anonymous_record_type
      | TokenKind.ParenOpen => parse_function_type
      | TokenKind.BracketOpen =>
          ifM peek_ahead_is 1 TokenKind.Pipe then parse_fenced_type
          else
            advance;;
            expect TokenKind.BracketClose;;
            elem ← parse_type;
            mret (Ty.Array elem)
      | _ =>
          if bool_decide (text token = "Num"%string) then advance;; mret Ty.Num
          else if bool_decide (text token = "Text"%string) then advance;; mret Ty.Text
          else if bool_decide (text token = "Bool"%string) then advance;; mret Ty.Bool
          else if bool_decide (text token = "Result"%string) then advance;; mret result_type
          else if is_capitalized (text token) then
            advance;;
            modify (push_type_name_use (mkTypeNameUse (text token) (Token.span token)));;
            mret (named_ref (text token))
          else
            fail (error_new UnexpectedToken (Token.span token)
                    ("expected a type, found " +:+ describe (kind token)))
      end
  end.

(** ** Patterns and arms *)

Definition parse_pattern : P Pattern := nested (parse_pattern_inner' g).

Definition parse_pattern_inner : P Pattern :=
  token ← peek;
  match kind token with
  | TokenKind.Ident =>
      '(name, at_, qualified) ← parse_name_or_qualified;
      ifM check TokenKind.ParenOpen then
        advance;;
        arguments ← parse_comma_separated TokenKind.ParenClose parse_pattern;
        expect TokenKind.ParenClose;;
        last ← previous_span;
        whole ← span (start at_) (end_ last);
        mret (Pattern.Constructor name arguments whole)
      else if qualified || is_capitalized name
      then mret (Pattern.Constructor name [] at_)
      else mret (Pattern.Identifier name at_)
  | TokenKind.Number value => advance;; mret (Pattern.Number value (Token.span token))
  | TokenKind.String chunks =>
      value ← plain_string_literal chunks (Token.span token) InterpolatedTextPattern
                "a text pattern is a plain string literal";
      mret (Pattern.Text value (Token.span token))
  | TokenKind.Underscore => advance;; mret (Pattern.Wildcard (Token.span token))
  | _ => fail (error_new UnexpectedToken (Token.span token)
                 ("expected a pattern, found " +:+ describe (kind token)))
  end.

(** Run a rule with a flag of the state set, and restore the flag whatever the
    rule answers. *)
Definition with_flag {A} (read : Parser → bool) (write : bool → Parser → Parser) (value : bool)
    (f : P A) : P A := λ s,
  let previous := read s in
  let '(result, s') := f (write value s) in
  (result, write previous s').

Definition parse_arm_list : P (list (MatchArm Expression)) :=
  loop (λ arms : list (MatchArm Expression),
    ifM check TokenKind.Pipe then
      advance;;
      pattern ← parse_pattern;
      expect TokenKind.Arrow;;
      body ← with_flag bare_match_forbidden with_bare_match_forbidden true
               (nested (parse_assignment' g));
      at_ ← span (start (pattern_span pattern)) (end_ (expression_span body));
      continue_ (arms ++ [mkMatchArm pattern body at_])
    else break_ arms) [].

Definition parse_match (expression : Expression) : P Expression :=
  let from := start (expression_span expression) in
  arms ← parse_arm_list;
  match last arms with
  | None =>
      at_ ← span from from;
      fail (error_new EmptyMatch at_ "a match needs at least one `|` arm")
  | Some arm =>
      at_ ← span from (end_ (arm_span arm));
      mret (Expression.Match expression arms at_)
  end.

(** ** Expressions *)

Definition parse_expression : P Expression :=
  with_flag bare_match_forbidden with_bare_match_forbidden false (nested (parse_assignment' g)).

(** [name.strip_prefix('@')], with whether there was one. *)
Definition strip_at (name : string) : string * bool :=
  match name with
  | String.String c bare => if Ascii.eqb c "@"%char then (bare, true) else (name, false)
  | _ => (name, false)
  end.

(** Build the operand span of a node from its ends. *)
Definition join (a b : Span) : P Span := span (start a) (end_ b).

Definition parse_binary_level (next : P Expression)
    (match_operator : P (option BinaryOperator)) : P Expression :=
  left ← next;
  loop (λ left,
    operator ← match_operator;
    match operator with
    | None => break_ left
    | Some operator =>
        right ← next;
        at_ ← join (expression_span left) (expression_span right);
        continue_ (Expression.BinaryOperator left operator right at_)
    end) left.

Definition match_or : P (option BinaryOperator) :=
  ifM check TokenKind.Or then advance;; mret (Some Binary.Or) else mret None.
Definition match_and : P (option BinaryOperator) :=
  ifM check TokenKind.And then advance;; mret (Some Binary.And) else mret None.

(** The operators of one level, by token kind; none at an operator definition. *)
Definition match_operators (operator_of : TokenKind → option BinaryOperator) :
    P (option BinaryOperator) :=
  ifM at_operator_definition then mret None
  else
    t ← peek;
    match operator_of (kind t) with
    | Some operator => advance;; mret (Some operator)
    | None => mret None
    end.

Definition match_equality : P (option BinaryOperator) :=
  match_operators (λ k, match k with
                        | TokenKind.Eq => Some Binary.Eq
                        | TokenKind.Ne => Some Binary.Ne
                        | _ => None end).
Definition match_comparison : P (option BinaryOperator) :=
  match_operators (λ k, match k with
                        | TokenKind.Le => Some Binary.Le
                        | TokenKind.Ge => Some Binary.Ge
                        | TokenKind.BlockOpen => Some Binary.Lt
                        | TokenKind.Gt => Some Binary.Gt
                        | _ => None end).
Definition match_additive : P (option BinaryOperator) :=
  match_operators (λ k, match k with
                        | TokenKind.Plus => Some Binary.Add
                        | TokenKind.Minus => Some Binary.Sub
                        | _ => None end).
Definition match_multiplicative : P (option BinaryOperator) :=
  match_operators (λ k, match k with
                        | TokenKind.Star => Some Binary.Mul
                        | TokenKind.Slash => Some Binary.Div
                        | TokenKind.Percent => Some Binary.Mod
                        | TokenKind.PlusMinus | TokenKind.MinusPlus => Some Binary.SetIntersect
                        | _ => None end).

(** A position has no leading zero. *)
Definition reject_leading_zero_position (text : string) (at_ : Span) : P unit :=
  match text with
  | String.String "0"%char (String.String _ _) =>
      let digits := (fix trim s := match s with
                                   | String.String "0"%char s' => trim s'
                                   | _ => s end) text in
      let canonical := if bool_decide (digits = ""%string) then "0"%string else digits in
      fail (error_new LeadingZeroPosition at_
              ("position `" +:+ text +:+ "` has a leading zero; write `" +:+ canonical +:+ "`"))
  | _ => mret tt
  end.

(** What follows a consumed dot: a name, and the arguments of a method call. *)
Definition parse_after_dot (expression : Expression) : P Expression :=
  field ← (ifM check TokenKind.At then
             advance;;
             name ← expect_ident;
             mret ("@" +:+ name)%string
           else expect_ident);
  ifM check_same_line TokenKind.ParenOpen then
    advance;;
    arguments ← parse_comma_separated TokenKind.ParenClose parse_expression;
    expect TokenKind.ParenClose;;
    last ← previous_span;
    at_ ← join (expression_span expression) last;
    mret (Expression.Call (Expression.Identifier field at_) (expression :: arguments) true at_)
  else
    last ← previous_span;
    at_ ← join (expression_span expression) last;
    mret (Expression.FieldAccess expression field at_).

(** The loop of [chain_positional_field_accesses] over the parts of the number's
    text; [offset] is a [u32]. *)
Fixpoint chain_parts (token_start : Z) (parts : list (list Z)) (offset : Z)
    (expression : Expression) : P Expression :=
  match parts with
  | [] => mret expression
  | part :: parts =>
      let part_len := u32 (Z.of_nat (length part)) in
      let part_start := u32 (token_start + offset) in
      let offset := u32 (offset + part_len + 1) in
      if bool_decide (part = []) then chain_parts token_start parts offset expression
      else
        at_part ← span part_start (u32 (part_start + part_len));
        reject_leading_zero_position (string_of_bytes part) at_part;;
        at_ ← span (start (expression_span expression)) (u32 (part_start + part_len));
        chain_parts token_start parts offset
          (Expression.FieldAccess expression (string_of_bytes part) at_)
  end.

Definition chain_positional_field_accesses (base : Expression) : P Expression :=
  token ← peek;
  advance;;
  expression ← chain_parts (start (Token.span token)) (split_on 46 (bs (text token))) 0 base;
  if bool_decide (last (bs (text token)) = Some 46) then parse_after_dot expression
  else mret expression.

(** ** Parameters and lambdas *)

Definition parse_parameter : P Param :=
  here ← current_span;
  name ← expect_definition_name;
  annotation ← (ifM check TokenKind.TypeAnnotation then
                  advance;; ty ← parse_type; mret (Some ty)
                else mret None);
  last ← previous_span;
  at_ ← join here last;
  mret (mkParam name annotation at_).

Definition parse_parameter_list : P (list Param) :=
  ifM check TokenKind.ParenOpen then
    advance;;
    parameters ←
      (ifM check TokenKind.ParenClose then mret []
       else
         loop (λ parameters : list Param,
           if (length parameters =? MAX_PARAMETERS)%nat then
             here ← current_span;
             fail (with_help
               (error_new TooManyParameters here
                  ("a function takes at most " +:+ nat_string MAX_PARAMETERS +:+ " parameters"))
               "group them into a record type and take that record as one parameter")
           else
             parameter ← parse_parameter;
             ifM check TokenKind.Comma
             then advance;; continue_ (parameters ++ [parameter])
             else break_ (parameters ++ [parameter])) []);
    expect TokenKind.ParenClose;;
    mret parameters
  else
    ifM check TokenKind.Ident then parameter ← parse_parameter; mret [parameter]
    else mret [].

Definition parse_block : P Expression := nested (parse_block_inner' g).

(** The optional [-> Type] of a signature. *)
Definition parse_return_type : P (option Ty) :=
  ifM check TokenKind.ReturnArrow then advance;; ty ← parse_type; mret (Some ty)
  else mret None.

Definition parse_lambda_expression : P Expression :=
  here ← current_span;
  parameters ← parse_parameter_list;
  return_type ← parse_return_type;
  expect TokenKind.Arrow;;
  body ← (ifM check TokenKind.BlockOpen then parse_block else parse_expression);
  last ← previous_span;
  at_ ← join here last;
  mret (Expression.Lambda parameters return_type body at_).

(** ** Literals *)

Definition try_parse_spread : P (option Expression) :=
  ifM check TokenKind.LeftArrow then
    here ← current_span;
    advance;;
    source ← parse_expression;
    last ← previous_span;
    at_ ← join here last;
    mret (Some (Expression.Spread source at_))
  else mret None.

Definition parse_record_fields : P (list (string * Expression)) :=
  fields ← parse_comma_separated TokenKind.BraceClose
    (spread ← try_parse_spread;
     match spread with
     | Some spread => mret (""%string, spread)
     | None =>
         field_name ← expect_ident;
         expect TokenKind.Assign;;
         value ← parse_expression;
         mret (field_name, value)
     end);
  expect TokenKind.BraceClose;;
  mret fields.

(** The [Entry] of [parse_record_literal_fields]. *)
Inductive RecordEntry : Type :=
| EntrySpread (value : Expression)
| EntryNamed (name : string) (value : Expression)
| EntryNumbered (name : string) (value : Expression)
| EntryPositional (value : Expression).

Definition is_number_kind (k : TokenKind) : bool :=
  match k with TokenKind.Number _ => true | _ => false end.

Definition parse_record_entry : P RecordEntry :=
  spread ← try_parse_spread;
  match spread with
  | Some spread => mret (EntrySpread spread)
  | None =>
      token ← peek;
      assigned ← peek_ahead_is 1 TokenKind.Assign;
      if bool_decide (kind token = TokenKind.Ident) && (assigned : bool) then
        field_name ← expect_ident;
        expect TokenKind.Assign;;
        value ← parse_expression;
        mret (EntryNamed field_name value)
      else if is_number_kind (kind token) && negb (bool_decide (46 ∈ bs (text token)))
              && (assigned : bool) then
        reject_leading_zero_position (text token) (Token.span token);;
        advance;;
        expect TokenKind.Assign;;
        value ← parse_expression;
        mret (EntryNumbered (text token) value)
      else
        value ← parse_expression;
        mret (EntryPositional value)
  end.

Definition count_entries (p : RecordEntry → bool) (entries : list RecordEntry) : nat :=
  length (List.filter p entries).
Definition is_positional e := match e with EntryPositional _ => true | _ => false end.
Definition is_named e := match e with EntryNamed _ _ => true | _ => false end.
Definition is_numbered e := match e with EntryNumbered _ _ => true | _ => false end.
Definition is_spread e := match e with EntrySpread _ => true | _ => false end.

Definition entry_field (index : nat) (e : RecordEntry) : string * Expression :=
  match e with
  | EntryPositional value => (positional_field_name index, value)
  | EntryNamed name value | EntryNumbered name value => (name, value)
  | EntrySpread value => (""%string, value)
  end.

Definition parse_record_literal_fields : P (list (string * Expression)) :=
  here ← current_span;
  entries ← parse_comma_separated TokenKind.BraceClose parse_record_entry;
  expect TokenKind.BraceClose;;
  last ← previous_span;
  at_ ← join here last;
  let bare_count := count_entries is_positional entries in
  let named_count := count_entries is_named entries in
  let numbered_count := count_entries is_numbered entries in
  let spread_count := count_entries is_spread entries in
  let mixed := error_new MixedRecordFields at_
    "a record literal is all named fields or all positional — not both" in
  if (0 <? bare_count)%nat && (bare_count <? length entries)%nat then
    fail (with_help mixed
      "write every field as `name = value`, or drop the names for a positional record: `{ v1, v2 }`")
  else if (0 <? numbered_count)%nat && (spread_count =? 0)%nat then
    fail (with_help
      (error_new NumberedRecordFieldWithoutSpread at_
         "a numbered field only overrides a spread; write the positions directly")
      "drop the positions: `{ v1, v2 }`")
  else if (0 <? named_count)%nat && (0 <? numbered_count)%nat then
    fail (with_help mixed
      "override a spread with either `name = value` entries or `position = value` ones, not both")
  else mret (imap entry_field entries).

Definition parse_record : P Expression :=
  here ← current_span;
  expect TokenKind.BraceOpen;;
  fields ← parse_record_literal_fields;
  last ← previous_span;
  at_ ← join here last;
  mret (Expression.Record fields at_).

Definition parse_array : P Expression :=
  here ← current_span;
  expect TokenKind.BracketOpen;;
  elements ← parse_comma_separated TokenKind.BracketClose
    (spread ← try_parse_spread;
     match spread with Some spread => mret spread | None => parse_expression end);
  expect TokenKind.BracketClose;;
  last ← previous_span;
  at_ ← join here last;
  mret (Expression.Array elements at_).

Definition parse_fence_key : P Expression :=
  with_flag suppress_lambda with_suppress_lambda true parse_expression.

(** The span from a token to the one just consumed. *)
Definition span_from (here : Span) : P Span := last ← previous_span; join here last.

Definition parse_fenced_literal : P Expression :=
  here ← current_span;
  expect TokenKind.BracketOpen;;
  ifM check TokenKind.Or then
    advance;;
    expect TokenKind.BracketClose;;
    at_ ← span_from here;
    mret (Expression.SetLiteral [] at_)
  else
    expect TokenKind.Pipe;;
    ifM check TokenKind.Arrow then
      advance;;
      expect_fence_close;;
      at_ ← span_from here;
      mret (Expression.MapLiteral [] at_)
    else ifM check TokenKind.Pipe then
      expect_fence_close;;
      at_ ← span_from here;
      mret (Expression.SetLiteral [] at_)
    else
      first ← parse_fence_key;
      ifM check TokenKind.Arrow then
        advance;;
        value ← parse_expression;
        entries ← loop (λ entries : list (Expression * Expression),
          ifM check TokenKind.Comma then
            advance;;
            key ← parse_fence_key;
            expect TokenKind.Arrow;;
            value ← parse_expression;
            continue_ (entries ++ [(key, value)])
          else break_ entries) [(first, value)];
        expect_fence_close;;
        at_ ← span_from here;
        mret (Expression.MapLiteral entries at_)
      else
        elements ← loop (λ elements : list Expression,
          ifM check TokenKind.Comma then
            advance;;
            element ← parse_expression;
            continue_ (elements ++ [element])
          else break_ elements) [first];
        expect_fence_close;;
        at_ ← span_from here;
        mret (Expression.SetLiteral elements at_).

(** ** Interpolated strings *)

Definition shift_span (abs : Z) (file : FileId) (s : Span) : Span :=
  in_file (u32 (start s + u32 abs)) (u32 (end_ s + u32 abs)) file.
Definition shift_token (abs : Z) (file : FileId) (t : Token) : Token :=
  mkToken (kind t) (shift_span abs file (Token.span t)) (text t) (first_on_line t).

(** The parser of a hole: its own tokens and depth, the file's imports so far. *)
Definition hole_parser (s : Parser) (abs : Z) (toks : list Token) : Parser :=
  let inner := new toks in
  mkParser toks 0 (file inner) abs 0 false false (module_paths s) None [] [].

Definition parse_hole (src : string) (abs : Z) : P Expression := λ s,
  match tokenize_in_file (bs src) (file s) with
  | Err e =>
      (Err (Error (error_new (Lexer.code e) (shift_span abs (file s) (error_span e))
                     ("in interpolation hole: " +:+ message e))), s)
  | Ok toks =>
      let inner := hole_parser s abs (shift_token abs (file s) <$> toks) in
      match parse_expression inner with
      | (Err e, _) => (Err e, s)
      | (Ok expression, inner') =>
          if at_end inner' then (Ok expression, s)
          else match current_span inner' with
               | (Ok here, _) =>
                   (Err (Error (error_new InterpolationHole here
                                  "an interpolation hole holds a single expression")), s)
               | (Err e, _) => (Err e, s)
               end
      end
  end.

Fixpoint build_parts (chunks : list StrChunk) : P (list (InterpolationPart Expression)) :=
  match chunks with
  | [] => mret []
  | StrChunk.Lit text :: chunks =>
      parts ← build_parts chunks;
      mret (PartLiteral text :: parts)
  | StrChunk.Hole src offset :: chunks =>
      s ← get;
      hole ← parse_hole src (span_base s + offset);
      parts ← build_parts chunks;
      mret (PartHole hole :: parts)
  end.

Definition build_string_expression (chunks : list StrChunk) (at_ : Span) : P Expression :=
  match chunks with
  | [StrChunk.Lit text] => mret (Expression.String text at_)
  | _ =>
      parts ← build_parts chunks;
      mret (Expression.Interpolation parts at_)
  end.

(** ** The precedence chain *)

Definition unexpected {A} (token : Token) (what : string) : P A :=
  fail (error_new UnexpectedToken (Token.span token)
          (what +:+ ", found " +:+ describe (kind token))).

Definition parse_primary : P Expression :=
  token ← peek;
  let at_ := Token.span token in
  match kind token with
  | TokenKind.Number value => advance;; mret (Expression.Number value at_)
  | TokenKind.String chunks => advance;; build_string_expression chunks at_
  | TokenKind.True => advance;; mret (Expression.Bool true at_)
  | TokenKind.False => advance;; mret (Expression.Bool false at_)
  | TokenKind.Unit => advance;; mret (Expression.Unit at_)
  | TokenKind.At =>
      advance;;
      ident ← peek;
      if negb (bool_decide (kind ident = TokenKind.Ident))
      then unexpected ident "expected a primitive name after `@`"
      else
        whole ← join at_ (Token.span ident);
        advance;;
        mret (Expression.Identifier ("@" +:+ text ident) whole)
  | TokenKind.Ident =>
      ifM looks_like_bare_lambda then parse_lambda_expression
      else
        '(name, at_, _) ← parse_name_or_qualified;
        ifM check_same_line TokenKind.BraceOpen then
          advance;;
          fields ← parse_record_fields;
          whole ← span_from at_;
          mret (Expression.Constructor name fields whole)
        else mret (Expression.Identifier name at_)
  | TokenKind.ParenOpen =>
      ifM paren_starts_lambda then parse_lambda_expression
      else
        advance;;
        expression ← parse_expression;
        expect TokenKind.ParenClose;;
        mret expression
  | TokenKind.BracketOpen =>
      next ← peek_ahead 1;
      if bool_decide (kind next = TokenKind.Pipe ∨ kind next = TokenKind.Or)
      then parse_fenced_literal else parse_array
  | TokenKind.BraceOpen => parse_record
  | _ => unexpected token "expected an expression"
  end.

Definition parse_postfix : P Expression :=
  expression ← parse_primary;
  loop (λ expression,
    ifM check TokenKind.Dot then
      advance;;
      token ← peek;
      expression ← (if is_number_kind (kind token)
                    then chain_positional_field_accesses expression
                    else parse_after_dot expression);
      continue_ expression
    else ifM check_same_line TokenKind.BracketOpen then
      advance;;
      index ← parse_expression;
      expect TokenKind.BracketClose;;
      at_ ← span_from (expression_span expression);
      continue_ (Expression.Index expression index at_)
    else ifM check_same_line TokenKind.ParenOpen then
      advance;;
      arguments ← parse_comma_separated TokenKind.ParenClose parse_expression;
      expect TokenKind.ParenClose;;
      at_ ← span_from (expression_span expression);
      continue_ (Expression.Call expression arguments false at_)
    else break_ expression) expression.

(** The two prefix branches of [parse_unary]. *)
Definition parse_prefix (operator : UnaryOperator) : P Expression :=
  here ← current_span;
  advance;;
  expression ← nested (parse_unary' g);
  at_ ← join here (expression_span expression);
  mret (Expression.UnaryOperator operator expression at_).

Definition parse_unary : P Expression :=
  ifM check TokenKind.Minus then parse_prefix Neg
  else ifM check TokenKind.Not then parse_prefix Not
  else parse_postfix.

Definition parse_multiplicative : P Expression := parse_binary_level parse_unary match_multiplicative.
Definition parse_additive : P Expression := parse_binary_level parse_multiplicative match_additive.

Definition parse_range : P Expression :=
  left ← parse_additive;
  ifM check TokenKind.LeftArrow then
    advance;;
    right ← parse_additive;
    at_ ← join (expression_span left) (expression_span right);
    mret (Expression.Range left right at_)
  else mret left.

Definition parse_comparison : P Expression := parse_binary_level parse_range match_comparison.
Definition parse_equality : P Expression := parse_binary_level parse_comparison match_equality.
Definition parse_logical_and : P Expression := parse_binary_level parse_equality match_and.
Definition parse_logical_or : P Expression := parse_binary_level parse_logical_and match_or.

Definition parse_ternary : P Expression :=
  expression ← parse_logical_or;
  ifM check TokenKind.Question then
    advance;;
    question_span ← previous_span;
    ifM check TokenKind.Pipe then
      s ← get;
      if bare_match_forbidden s then
        fail (with_help
          (error_new NestedMatchNeedsParens question_span
             "a match used as a match-arm body needs parentheses")
          "wrap the nested match in parentheses: `| pattern => (scrutinee ? | ... )`")
      else parse_match expression
    else
      then_ ← parse_expression;
      expect TokenKind.Colon;;
      else_ ← parse_expression;
      at_ ← join (expression_span expression) (expression_span else_);
      mret (Expression.If expression then_ else_ at_)
  else mret expression.

(** What a write assigns to: a field, an element, or a name. *)
Definition assign_to (target value : Expression) (at_ : Span) : option Expression :=
  match target with
  | Expression.FieldAccess _ _ _ => Some (Expression.FieldAssign target value at_)
  | Expression.Index _ _ _ => Some (Expression.IndexAssign target value at_)
  | Expression.Identifier name _ =>
      let '(name, atomic) := strip_at name in
      Some (Expression.Block
        [StatementItem (ItemVariable (mkVariableDeclaration true name None value false atomic at_))]
        at_)
  | _ => None
  end.

Definition is_assignable (e : Expression) : bool :=
  match e with
  | Expression.FieldAccess _ _ _ | Expression.Index _ _ _ | Expression.Identifier _ _ => true
  | _ => false
  end.

Definition parse_assignment : P Expression :=
  expression ← parse_ternary;
  assigned ← check TokenKind.MutAssign;
  if (assigned : bool) && is_assignable expression then
    advance;;
    value ← nested (parse_assignment' g);
    at_ ← join (expression_span expression) (expression_span value);
    match assign_to expression value at_ with
    | Some write => mret write
    | None => panic
    end
  else mret expression.

(** ** Declarations *)

(** A definition's body is a block. *)
Definition parse_body (what : string) : P Expression :=
  ifM check TokenKind.BlockOpen then parse_block
  else
    t ← peek;
    fail (error_new BodyNotABlock (Token.span t)
            ("a " +:+ what +:+ " body must be a `< >` block — write `=> < … >`")).

Definition parse_function_declaration (name : string) (here : Span) (binding_type : option Ty)
    (exported : bool) : P (Item Expression) :=
  parameters ← parse_parameter_list;
  return_type ← parse_return_type;
  expect TokenKind.Arrow;;
  body ← parse_body "function";
  at_ ← span_from here;
  mret (ItemFunction
    (mkFunctionDeclaration name parameters return_type binding_type body exported false at_)).

(** The name of a member: the render operator, an operator symbol, [@name] or a
    plain name. *)
Definition parse_member_name : P string :=
  ifM check TokenKind.Backtick then advance;; mret "`"%string
  else
    definition ← operator_def_name;
    symbol ← operator_symbol_name;
    mutable ← peek_ahead_is 1 TokenKind.MutAssign;
    match definition, symbol with
    | Some operator, _ => advance;; mret operator
    | None, Some operator =>
        if (mutable : bool) then
          t ← peek;
          fail (with_help
            (error_new OperatorMemberMutable (Token.span t)
               ("operator member `" +:+ operator +:+ "` cannot be declared with `:=` — an "
                +:+ "operator yields a value and never mutates `it`"))
            ("declare it with `=`: `" +:+ operator +:+ " = (other) => …`"))
        else expect_definition_name
    | None, None =>
        ifM check TokenKind.At then
          advance;; name ← expect_definition_name; mret ("@" +:+ name)%string
        else expect_definition_name
    end.

Definition MemberBlock : Type := list (string * Ty) * list (MethodDeclaration Expression).

(** What follows a method's name and binding operator. *)
Definition parse_method (name : string) (mutating : bool) : P (MethodDeclaration Expression) :=
  here ← current_span;
  parameters ← parse_parameter_list;
  return_type ← parse_return_type;
  expect TokenKind.Arrow;;
  body ← parse_body "method";
  at_ ← span_from here;
  mret (mkMethodDeclaration name parameters return_type body mutating at_).

(** One member of a block, its optional comma included. *)
Definition parse_member (members : MemberBlock) : P MemberBlock :=
  let '(fields, methods) := members in
  name ← parse_member_name;
  members ←
    (ifM check TokenKind.TypeAnnotation then
       advance;;
       ty ← parse_type;
       mret (fields ++ [(name, ty)], methods)
     else
       immutable ← check TokenKind.Assign;
       mutating ← check TokenKind.MutAssign;
       if (immutable : bool) || (mutating : bool) then
         if (mutating : bool) && bool_decide (name = "`"%string) then
           t ← peek;
           fail (with_help
             (error_new OperatorMemberMutable (Token.span t)
                ("the render member `` ` `` cannot be declared with `:=` — it renders a value "
                 +:+ "rather than mutating `it`"))
             "declare it with `=`: `` ` = () -> Text => < … > ``")
         else
           advance;;
           method ← parse_method name mutating;
           mret (fields, methods ++ [method])
       else
         t ← peek;
         unexpected t "expected `::`, `=` or `:=` after the member name");
  ifM check TokenKind.Comma then advance;; mret members else mret members.

Definition parse_member_block : P MemberBlock :=
  expect TokenKind.BraceOpen;;
  members ← loop (λ members : MemberBlock,
    closed ← check TokenKind.BraceClose;
    ended ← is_at_end;
    if (closed : bool) || (ended : bool) then break_ members
    else members ← parse_member members; continue_ members) ([], []);
  expect TokenKind.BraceClose;;
  mret members.

Definition parse_type_declaration (name : string) (here : Span) (exported : bool) :
    P (Item Expression) :=
  '(fields, methods) ← parse_member_block;
  at_ ← span_from here;
  mret (ItemType (mkTypeDeclaration name (DefRecord fields methods) exported at_)).

(** The payload list of a variant, with the span of each type. *)
Definition parse_payload (variant : string) : P (list Ty * list Span) :=
  ifM check TokenKind.ParenOpen then
    paren ← current_span;
    advance;;
    parsed ← parse_comma_separated TokenKind.ParenClose
      (here ← current_span;
       ty ← parse_type;
       at_ ← span_from here;
       mret (ty, at_));
    expect TokenKind.ParenClose;;
    if (1 <? length parsed)%nat then
      whole ← span_from paren;
      fail (with_help
        (error_new VariantMultiplePayloads whole
           ("variant `" +:+ variant +:+ "` carries " +:+ nat_string (length parsed)
            +:+ " payloads — a variant carries at most one"))
        ("combine them into one record: `" +:+ variant +:+ "({ "
         +:+ String.concat ", " (type_label ∘ fst <$> parsed) +:+ " })`"))
    else mret (fst <$> parsed, snd <$> parsed)
  else mret ([], []).

Definition parse_variants : P (list SumVariant * list (list Span)) :=
  loop (λ '(variants, field_spans),
    name ← expect_definition_name;
    at_ ← previous_span;
    if negb (is_capitalized name) then
      fail (error_new VariantNotCapitalized at_
              ("sum-type variant `" +:+ name +:+ "` must start with an uppercase letter"))
    else
      modify (push_variant_declaration (mkTypeNameUse name at_));;
      '(fields, spans) ← parse_payload name;
      let acc := (variants ++ [mkSumVariant name fields], field_spans ++ [spans]) in
      ifM check TokenKind.Slash then advance;; continue_ acc else break_ acc) ([], []).

(** The trailing block of a sum type: methods only, none of them mutating. *)
Definition parse_sum_methods (name : string) : P (list (MethodDeclaration Expression)) :=
  ifM check TokenKind.BraceOpen then
    '(fields, methods) ← parse_member_block;
    if negb (bool_decide (fields = [])) then
      at_ ← previous_span;
      fail (with_help
        (error_new SumTypeHasFields at_
           ("sum type `" +:+ name +:+ "` cannot have fields — its `{ }` block holds methods only"))
        "a sum carries data in its variant payloads: `Name = A(Num) / B`")
    else
      match List.find mutating methods with
      | Some method =>
          fail (with_help
            (error_new SumTypeHasFields (method_span method)
               ("sum type `" +:+ name +:+ "` cannot have a mutating method — `"
                +:+ method_name method +:+ "` is declared with `:=`, but a sum has no fields to write"))
            ("declare it with `=`; a sum's data lives in its variant payloads: `"
             +:+ method_name method +:+ " = …`"))
      | None => mret methods
      end
  else mret [].

Definition parse_sum_type_declaration (name : string) (here : Span) (exported : bool) :
    P (Item Expression) :=
  '(variants, field_spans) ← parse_variants;
  methods ← parse_sum_methods name;
  at_ ← span_from here;
  mret (ItemType (mkTypeDeclaration name (DefSum variants field_spans methods) exported at_)).

(** What [name = {] opens: a type declaration, an error, or neither. *)
Inductive BraceReading : Type := ReadType | ReadAmbiguous | ReadValue.

Definition classify_brace : P BraceReading :=
  first ← peek_ahead 1;
  second ← peek_ahead 2;
  third ← peek_ahead 3;
  if is_member_name_kind (kind first) && bool_decide (kind second = TokenKind.TypeAnnotation)
  then mret ReadType
  else
    method_shaped ←
      (if is_member_name_kind (kind first) && bool_decide (kind second = TokenKind.Assign) then
         match kind third with
         | TokenKind.Arrow => mret true
         | TokenKind.ParenOpen => parameter_list_ahead_from 3
         | _ => mret false
         end
       else mret false);
    if (method_shaped : bool) then
      ifM member_block_has_field then mret ReadType else mret ReadAmbiguous
    else mret ReadValue.

(** A variable's value and the declaration it makes; [@name] declares [name]. *)
Definition parse_variable (name : string) (here : Span) (annotation : option Ty)
    (mutable exported atomic : bool) : P (Item Expression) :=
  value ← parse_expression;
  at_ ← span_from here;
  mret (ItemVariable
    (mkVariableDeclaration mutable (strip_at name).1 annotation value exported atomic at_)).

(** Whether the right-hand side of [name =] is a function. *)
Definition is_function_ahead : P bool :=
  t ← peek;
  match kind t with
  | TokenKind.Arrow => mret true
  | TokenKind.ParenOpen => parameter_list_ahead
  | TokenKind.Ident =>
      ahead ← peek_ahead 1;
      mret (bool_decide (kind ahead = TokenKind.Arrow ∨ kind ahead = TokenKind.TypeAnnotation
                         ∨ kind ahead = TokenKind.ReturnArrow))
  | _ => mret false
  end.

(** The right-hand side of [name =], once no type declaration is in sight. *)
Definition parse_function_or_value (name : string) (here : Span) (annotation : option Ty)
    (exported atomic : bool) : P (Item Expression) :=
  ifM is_function_ahead then parse_function_declaration name here annotation exported
  else parse_variable name here annotation false exported atomic.

(** The right-hand side of [name =]. *)
Definition parse_immutable (name : string) (here : Span) (annotation : option Ty)
    (exported atomic : bool) : P (Item Expression) :=
  brace ← check TokenKind.BraceOpen;
  reading ← (if bool_decide (annotation = None) && (brace : bool) then classify_brace
             else mret ReadValue);
  match reading with
  | ReadType => parse_type_declaration name here exported
  | ReadAmbiguous =>
      at_ ← current_span;
      fail (with_help
        (error_new AmbiguousTypeDeclaration at_
           ("`" +:+ name +:+ " = { … }` is ambiguous — every member here is method-shaped and "
            +:+ "there is no `::` field to settle it"))
        ("add a `::` field to make this a type declaration (`" +:+ name
         +:+ " = { v :: Num, f = => 1 }`), or replace the method bodies with plain values to "
         +:+ "make it a record literal (`" +:+ name +:+ " = { f = 1 }`)"))
  | ReadValue =>
      sum ← (if bool_decide (annotation = None) && is_capitalized name
             then looks_like_sum_declaration else mret false);
      if (sum : bool) then parse_sum_type_declaration name here exported
      else parse_function_or_value name here annotation exported atomic
  end.

Definition parse_item : P (Item Expression) :=
  here ← current_span;
  exported ← (ifM check TokenKind.Export then advance;; mret true else mret false);
  operator ← operator_def_name;
  match operator with
  | Some operator =>
      advance;;
      expect TokenKind.Assign;;
      parse_function_declaration operator here None exported
  | None =>
      at_marker ← check TokenKind.At;
      name ← (if (at_marker : bool)
              then advance;; name ← expect_definition_name; mret ("@" +:+ name)%string
              else expect_definition_name);
      ifM check_same_line TokenKind.Dot then
        at_ ← current_span;
        fail (with_help
          (error_new NotAnImportedModule at_ ("`" +:+ name +:+ "` is not an imported module here"))
          ("a qualified name like `" +:+ name +:+ ".<member>(...)` needs its `<<` import above "
           +:+ "this line — a `test.describe` suite imports `<< core.test`"))
      else
        annotation ← (ifM check TokenKind.TypeAnnotation then
                        advance;; ty ← parse_type; mret (Some ty)
                      else mret None);
        ifM check TokenKind.MutAssign then
          advance;;
          parse_variable name here annotation true exported at_marker
        else
          expect TokenKind.Assign;;
          parse_immutable name here annotation exported at_marker
  end.

(** ** Blocks *)

Definition is_binding_kind (k : TokenKind) : bool :=
  match k with
  | TokenKind.Assign | TokenKind.MutAssign | TokenKind.TypeAnnotation => true
  | _ => false
  end.

(** Whether a statement starts like a declaration. *)
Definition at_binding : P bool :=
  t ← peek;
  first ← peek_ahead 1;
  second ← peek_ahead 2;
  let plain_binding := bool_decide (kind t = TokenKind.Ident) && is_binding_kind (kind first) in
  let atomic_binding :=
    bool_decide (kind t = TokenKind.At) && bool_decide (kind first = TokenKind.Ident)
    && bool_decide (kind second = TokenKind.MutAssign ∨ kind second = TokenKind.TypeAnnotation) in
  mret (plain_binding || atomic_binding).

Definition parse_statement : P (Statement Expression) :=
  ifM check TokenKind.Export then
    here ← current_span;
    fail (with_help
      (error_new ExportMarkerAsBlockClosers here
         "`>>` here is the export marker, not two block closers")
      "separate them with a space: `> >`")
  else
    ifM at_binding then item ← parse_item; mret (StatementItem item)
    else expression ← parse_expression; mret (StatementExpression expression).

(** Remember a closer that only ended its line, in a block of several lines. *)
Definition record_block_close (body_start : nat) : P unit :=
  closer ← peek;
  s ← get;
  let body := drop body_start (take (pos s) (tokens s)) in
  if bool_decide (kind closer = TokenKind.BlockClose) && negb (first_on_line closer)
     && existsb first_on_line body
  then modify (with_block_close (Some (Token.span closer)))
  else mret tt.

Definition parse_block_inner : P Expression :=
  here ← current_span;
  expect TokenKind.BlockOpen;;
  s ← get;
  statements ← loop (λ statements : list (Statement Expression),
    closed ← check TokenKind.BlockClose;
    ended ← is_at_end;
    if (closed : bool) || (ended : bool) then break_ statements
    else statement ← parse_statement; continue_ (statements ++ [statement])) [];
  record_block_close (pos s);;
  expect TokenKind.BlockClose;;
  at_ ← span_from here;
  mret (Expression.Block statements at_).

(** ** Programs *)

Definition at_test_block : P bool :=
  ifM at_possible_module_chain then
    segments ← dotted_chain_at_cursor;
    s ← get;
    match resolve_chain (module_paths s) segments with
    | None => mret false
    | Some (canonical, member, prefix_len) =>
        called ← check_same_line_at (2 * prefix_len + 1) TokenKind.ParenOpen;
        mret (bool_decide ((canonical +:+ "." +:+ member)%string = TEST_BLOCK_MARKER)
              && (length segments =? prefix_len + 1)%nat && called)
    end
  else mret false.

Definition parse_import_path : P ModulePath :=
  t ← peek;
  match kind t with
  | TokenKind.String chunks =>
      value ← plain_string_literal chunks (Token.span t) ImportPathInterpolated
                "an import path is a plain string literal";
      mret (FilePath value)
  | _ =>
      first ← expect_ident;
      parts ← loop (λ parts : list string,
        ifM check TokenKind.Dot then
          advance;; part ← expect_ident; continue_ (parts ++ [part])
        else break_ parts) [first];
      mret (BuiltinDotted parts)
  end.

Definition parse_import : P Import_ :=
  here ← current_span;
  expect TokenKind.Import;;
  path ← parse_import_path;
  register_import path;;
  at_ ← span_from here;
  mret (mkImport path at_).

Definition parse_trap_declaration : P (TrapDeclaration Expression) :=
  here ← current_span;
  expect TokenKind.Trap;;
  arms ← parse_arm_list;
  match last arms with
  | None =>
      at_ ← span_from here;
      fail (error_new EmptyTrap at_ "a signal trap needs at least one `|` arm")
  | Some arm =>
      at_ ← join here (arm_span arm);
      mret (mkTrapDeclaration arms at_)
  end.

(** What a program has collected: imports, items and test blocks. *)
Definition Collected : Type := list Import_ * list (Item Expression) * list Expression.

Definition parse_top_level (acc : Collected) : P Collected :=
  let '(imports, items, test_blocks) := acc in
  ifM check TokenKind.Import then
    import ← parse_import; mret (imports ++ [import], items, test_blocks)
  else ifM at_test_block then
    block ← parse_expression; mret (imports, items, test_blocks ++ [block])
  else ifM check TokenKind.Trap then
    trap ← parse_trap_declaration; mret (imports, items ++ [ItemTrap trap], test_blocks)
  else
    item ← parse_item; mret (imports, items ++ [item], test_blocks).

(** Blame an early block close for an error, and forget one parsing moved past. *)
Definition blaming {A} (f : P A) : P A := λ s,
  let armed_before := last_line_final_block_close s in
  match f s with
  | (Ok a, s') =>
      (Ok a, if bool_decide (last_line_final_block_close s' = armed_before)
             then with_block_close None s' else s')
  | (Err (Error err), s') =>
      match blame_early_block_close err s' with
      | (Ok err, s'') => (Err (Error err), s'')
      | (Err e, s'') => (Err e, s'')
      end
  | (Err e, s') => (Err e, s')
  end.

Definition parse_program : P Program :=
  '(imports, items, test_blocks) ← loop (λ acc : Collected,
    ifM is_at_end then break_ acc
    else acc ← blaming (parse_top_level acc); continue_ acc) ([], [], []);
  s ← get;
  mret (mkProgram imports items test_blocks (type_name_uses s) (variant_declarations s)).

End rules.

(** ** Tying the knot *)

Definition no_fuel {A} : P A := λ s, (Err OutOfFuel, s).

Fixpoint grammar (fuel : nat) : Grammar :=
  match fuel with
  | O => mkGrammar no_fuel no_fuel no_fuel no_fuel no_fuel
  | S fuel' =>
      let g := grammar fuel' in
      mkGrammar (parse_assignment g) (parse_unary g) (parse_type_inner g) (parse_pattern_inner g)
        (parse_block_inner g)
  end.

(** One more than the length of the longest hole of a token, and of a stream. *)
Definition chunk_weight (c : StrChunk) : nat :=
  match c with StrChunk.Lit _ => 0 | StrChunk.Hole src _ => S (String.length src) end.
Definition token_weight (t : Token) : nat :=
  match kind t with TokenKind.String chunks => max_list (chunk_weight <$> chunks) | _ => 0 end.
Definition stream_weight (toks : list Token) : nat := max_list (token_weight <$> toks).

Arguments stream_weight : simpl never.

(** [Parser::parse]: a stream nests [MAX_NESTING_DEPTH] deep, and as deep again in
    each hole inside a hole. *)
Definition parse_fuel (toks : list Token) : nat :=
  (MAX_NESTING_DEPTH + S MAX_NESTING_DEPTH * stream_weight toks)%nat.

Definition parse (toks : list Token) : result failure Program :=
  (parse_program (grammar (parse_fuel toks)) (new toks)).1.

End grammar.
