(* ===== verification/ParserLogic.v ===== *)
(** * A program logic for the grammar rules

    What a syntax tree the parser builds satisfies ([ok]), what its state keeps to
    ([At]), and weakest preconditions: a rule meets its specification when, from a
    state that keeps to the invariant, it ends with a checked value and a state
    further on, or with a parse error, but neither panics nor runs out of fuel. *)

From S2P Require Import Prelude Bytes Num Codes Token Ast Lexer LexerProps ParserState Lookahead.
From S2P Require Import Grammar.
Open Scope Z_scope.

Create HintDb checked.

(** ** Well-formed syntax trees *)

(** What a later pass may rely on in a tree parsed from file [f]. *)
Class Checked (A : Type) : Type := ok : FileId → A → bool.

#[export] Instance span_checked : Checked Span := λ f s, Token.file s =? f.
#[export] Instance unit_checked : Checked unit := λ _ _, true.
#[export] Instance bool_checked : Checked bool := λ _ _, true.
#[export] Instance string_checked : Checked string := λ _ _, true.
#[export] Instance operator_checked : Checked BinaryOperator := λ _ _, true.
#[export] Instance path_checked : Checked ModulePath := λ _ _, true.
#[export] Instance list_checked `{Checked A} : Checked (list A) := λ f, forallb (ok f).
#[export] Instance option_checked `{Checked A} : Checked (option A) :=
  λ f o, match o with Some a => ok f a | None => true end.
#[export] Instance prod_checked `{Checked A, Checked B} : Checked (A * B) :=
  λ f p, ok f p.1 && ok f p.2.

(** A record type names a field; a variant carries at most one payload. *)
#[export] Instance ty_checked : Checked Ty := λ _,
  fix go ty := match ty with
  | Ty.Array t | Ty.Set_ t => go t
  | Ty.Map k v => go k && go v
  | Ty.Record fields => negb (length fields =? 0)%nat && forallb (λ '(_, t), go t) fields
  | Ty.Function parameters result => forallb go parameters && go result
  | _ => true
  end.

#[export] Instance pattern_checked : Checked Pattern := λ f,
  fix go p := match p with
  | Pattern.Identifier _ s | Pattern.Number _ s | Pattern.Text _ s | Pattern.Wildcard s => ok f s
  | Pattern.Constructor _ arguments s => forallb go arguments && ok f s
  end.

#[export] Instance param_checked : Checked Param := λ f p,
  ok f (type_annotation p) && ok f (parameter_span p).

(** A parameter list keeps to the language's limit. *)
Definition params_ok (f : FileId) (ps : list Param) : bool :=
  (length ps <=? MAX_PARAMETERS)%nat && ok f ps.

#[export] Instance use_checked : Checked TypeNameUse := λ f u, ok f (use_span u).

Definition is_block (e : Expression) : bool :=
  match e with Expression.Block _ _ => true | _ => false end.
Definition is_identifier (e : Expression) : bool :=
  match e with Expression.Identifier _ _ => true | _ => false end.
Definition is_field_access (e : Expression) : bool :=
  match e with Expression.FieldAccess _ _ _ => true | _ => false end.
Definition is_index (e : Expression) : bool :=
  match e with Expression.Index _ _ _ => true | _ => false end.

(** The declarations, given the check of their expressions. *)
Section declarations.
Variable go : Expression → bool.
Variable f : FileId.

Definition arm_ok (a : MatchArm Expression) : bool :=
  ok f (arm_pattern a) && go (arm_body a) && ok f (arm_span a).
Definition variable_ok (d : VariableDeclaration Expression) : bool :=
  ok f (variable_annotation d) && go (variable_value d) && ok f (variable_span d).
(** A function's body is a block, and so is a method's. *)
Definition function_ok (d : FunctionDeclaration Expression) : bool :=
  params_ok f (parameters d) && ok f (return_type d) && ok f (binding_type d)
  && is_block (function_body d) && go (function_body d) && ok f (function_span d).
Definition method_ok (d : MethodDeclaration Expression) : bool :=
  params_ok f (method_parameters d) && ok f (method_return_type d)
  && is_block (method_body d) && go (method_body d) && ok f (method_span d).
Definition variant_ok (v : SumVariant) : bool :=
  (length (variant_fields v) <=? 1)%nat && ok f (variant_fields v).
(** A sum type has variants, a span for each payload, and no mutating method. *)
Definition definition_ok (d : TypeDefinition Expression) : bool :=
  match d with
  | DefSum variants field_spans methods =>
      (0 <? length variants)%nat && forallb variant_ok variants
      && bool_decide (length ∘ variant_fields <$> variants = length <$> field_spans)
      && ok f field_spans
      && forallb method_ok methods && forallb (λ m, negb (mutating m)) methods
  | DefRecord fields methods => ok f fields && forallb method_ok methods
  end.
Definition trap_ok (d : TrapDeclaration Expression) : bool :=
  (0 <? length (arms d))%nat && forallb arm_ok (arms d) && ok f (trap_span d).
Definition item_ok (i : Item Expression) : bool :=
  match i with
  | ItemVariable d => variable_ok d
  | ItemFunction d => function_ok d
  | ItemType d => definition_ok (type_definition d) && ok f (type_span d)
  | ItemTrap d => trap_ok d
  end.
Definition is_trap (i : Item Expression) : bool :=
  match i with ItemTrap _ => true | _ => false end.
(** A trap is a top-level item, never a statement. *)
Definition statement_ok (s : Statement Expression) : bool :=
  match s with
  | StatementItem i => negb (is_trap i) && item_ok i
  | StatementExpression e => go e
  end.
Definition part_ok (p : InterpolationPart Expression) : bool :=
  match p with PartLiteral _ => true | PartHole e => go e end.
End declarations.

(** Every node of a tree lies in its file; a member call has its receiver, a
    match its arms, a write the target its kind asks for. *)
#[export] Instance expression_checked : Checked Expression := λ f,
  fix go e := match e with
  | Expression.Number _ s | Expression.String _ s | Expression.Bool _ s | Expression.Unit s
  | Expression.Identifier _ s => ok f s
  | Expression.Interpolation parts s => forallb (part_ok go) parts && ok f s
  | Expression.BinaryOperator l _ r s | Expression.Range l r s => go l && go r && ok f s
  | Expression.UnaryOperator _ e s | Expression.FieldAccess e _ s | Expression.Spread e s =>
      go e && ok f s
  | Expression.Call function arguments member_call s =>
      (negb member_call || is_identifier function && (0 <? length arguments)%nat)
      && go function && forallb go arguments && ok f s
  | Expression.Lambda parameters result body s =>
      params_ok f parameters && ok f result && go body && ok f s
  | Expression.Block statements s => forallb (statement_ok go f) statements && ok f s
  | Expression.If c t e s => go c && go t && go e && ok f s
  | Expression.Match e arms s =>
      go e && (0 <? length arms)%nat && forallb (arm_ok go f) arms && ok f s
  | Expression.FieldAssign t v s => is_field_access t && go t && go v && ok f s
  | Expression.Index e i s => go e && go i && ok f s
  | Expression.IndexAssign t v s => is_index t && go t && go v && ok f s
  | Expression.Array elements s | Expression.SetLiteral elements s =>
      forallb go elements && ok f s
  | Expression.MapLiteral entries s => forallb (λ '(k, v), go k && go v) entries && ok f s
  | Expression.Record fields s | Expression.Constructor _ fields s =>
      forallb (λ '(_, v), go v) fields && ok f s
  end.

#[export] Instance arm_checked : Checked (MatchArm Expression) := λ f, arm_ok (ok f) f.
#[export] Instance item_checked : Checked (Item Expression) := λ f, item_ok (ok f) f.
#[export] Instance statement_checked : Checked (Statement Expression) := λ f, statement_ok (ok f) f.
#[export] Instance method_checked : Checked (MethodDeclaration Expression) :=
  λ f, method_ok (ok f) f.
#[export] Instance trap_checked : Checked (TrapDeclaration Expression) := λ f, trap_ok (ok f) f.
#[export] Instance part_checked : Checked (InterpolationPart Expression) :=
  λ f, part_ok (ok f).
#[export] Instance import_checked : Checked Import_ := λ f i, ok f (import_span i).
#[export] Instance entry_checked : Checked RecordEntry := λ f e,
  match e with
  | EntrySpread v | EntryNamed _ v | EntryNumbered _ v | EntryPositional v => ok f v
  end.
#[export] Instance program_checked : Checked Program := λ f p,
  ok f (imports p) && ok f (items p) && ok f (test_blocks p)
  && ok f (Ast.type_name_uses p) && ok f (Ast.variant_declarations p).
#[export] Instance reading_checked : Checked BraceReading := λ _ _, true.

(** ** The state's invariant *)

(** A stream as the lexer makes it: it ends in the end-of-file token, whose text is
    empty. *)
Definition ends_in_eof (toks : list Token) : Prop :=
  (∃ t, last toks = Some t ∧ kind t = TokenKind.Eof) ∧
  Forall (λ t, kind t = TokenKind.Eof → text t = ""%string) toks.

(** With [n] levels left: the state [s], reached from [s0] past [k] tokens or
    more, is on a token of the same stream, at the same depth and with the same
    flags, its fuel is enough for what may still nest, and what it has recorded
    is checked. *)
Record Reached (n : nat) (s0 : Parser) (k : nat) (s : Parser) : Prop := mkReached {
  at_eof : ends_in_eof (tokens s);
  at_bound : (pos s < length (tokens s))%nat;
  at_depth : (depth s ≤ MAX_NESTING_DEPTH)%nat;
  at_fuel : (MAX_NESTING_DEPTH + S MAX_NESTING_DEPTH * stream_weight (tokens s) ≤ n + depth s)%nat;
  at_files : ok (file s) (Token.span <$> tokens s) = true;
  at_uses : ok (file s) (type_name_uses s) = true;
  at_variants : ok (file s) (variant_declarations s) = true;
  at_close : ok (file s) (last_line_final_block_close s) = true;
  at_pos : (pos s0 + k ≤ pos s)%nat;
  at_tokens : tokens s = tokens s0;
  at_file : file s = file s0;
  at_same_depth : depth s = depth s0;
  at_suppress : suppress_lambda s = suppress_lambda s0;
  at_bare : bare_match_forbidden s = bare_match_forbidden s0
}.

Lemma At_rebase n s0 k s : Reached n s0 k s → Reached n s 0 s.
Proof. intros []. by split; try lia. Qed.

Lemma At_trans n s0 k s k' s' : Reached n s0 k s → Reached n s k' s' → Reached n s0 (k + k') s'.
Proof. intros [] []. split; try done; (lia || congruence). Qed.

Lemma At_weaken n s0 k k' s : Reached n s0 k s → (k' ≤ k)%nat → Reached n s0 k' s.
Proof. intros [] ?. by split; try lia. Qed.

Lemma At_peek n s0 k s : Reached n s0 k s → ∃ t, tokens s !! pos s = Some t.
Proof. intros []. by apply lookup_lt_is_Some_2. Qed.

Lemma At_token_file n s0 k s i t :
  Reached n s0 k s → tokens s !! i = Some t → ok (file s) (Token.span t) = true.
Proof.
  intros [] Hi. pose proof at_files0 as Hf. unfold ok, list_checked in Hf.
  rewrite forallb_forall in Hf. apply Hf, list_elem_of_In, list_elem_of_fmap.
  exists t. split; [done|]. by eapply list_elem_of_lookup_2.
Qed.

(** A token with a text is not the end of the file. *)
Lemma At_text_not_eof n s0 k s i t :
  Reached n s0 k s → tokens s !! i = Some t → text t ≠ ""%string → kind t ≠ TokenKind.Eof.
Proof.
  intros [] Hi Ht Hk. destruct at_eof0 as [_ Hf]. rewrite Forall_forall in Hf.
  by apply Ht, Hf; [eapply list_elem_of_lookup_2|].
Qed.

(** Any token but the last may be stepped over. *)
Lemma At_advance n s0 k s t :
  Reached n s0 k s → tokens s !! pos s = Some t → kind t ≠ TokenKind.Eof →
  Reached n s0 (S k) (with_pos (S (pos s)) s).
Proof.
  intros [] Ht Hk. split; simpl; try done; [|lia].
  destruct at_eof0 as ((e&He&Heof)&_).
  rewrite last_lookup in He. destruct (decide (S (pos s) = length (tokens s))) as [E|]; [|lia].
  rewrite <-E in He. simpl in He. congruence.
Qed.

(** ** Weakest preconditions *)

Definition wp {A} (m : P A) (s : Parser) (Q : A → Parser → Prop) : Prop :=
  match m s with
  | (Ok a, s') => Q a s'
  | (Err (Error _), _) => True
  | (Err _, _) => False
  end.

Lemma wp_mono {A} (m : P A) s (Q Q' : A → Parser → Prop) :
  wp m s Q → (∀ a s', Q a s' → Q' a s') → wp m s Q'.
Proof. unfold wp. destruct (m s) as [[a|[]] s']; auto. Qed.

Lemma wp_ret {A} (a : A) s (Q : A → Parser → Prop) : Q a s → wp (mret a) s Q.
Proof. done. Qed.

Lemma wp_fail {A} e s (Q : A → Parser → Prop) : wp (fail e) s Q.
Proof. done. Qed.

Lemma wp_bind {A B} (m : P A) (f : A → P B) s Q :
  wp m s (λ a s', wp (f a) s' Q) → wp (m ≫= f) s Q.
Proof.
  unfold wp, mbind, P_bind. destruct (m s) as [[a|[]] s']; done.
Qed.

Lemma wp_get s (Q : Parser → Parser → Prop) : Q s s → wp get s Q.
Proof. done. Qed.

Lemma wp_modify f s (Q : unit → Parser → Prop) : Q tt (f s) → wp (modify f) s Q.
Proof. done. Qed.

Lemma wp_branch {A} c (a b : P A) s Q :
  wp c s (λ x s', if (x : bool) then wp a s' Q else wp b s' Q) → wp (ifM c then a else b) s Q.
Proof.
  intros H. apply wp_bind. eapply wp_mono; [exact H|]. by intros [].
Qed.

(** The one rule of every loop: an invariant, and a measure each turn lowers. *)
Lemma wp_iter {A B} (body : A → P (A + B)) (Q : B → Parser → Prop)
    (I : A → Parser → Prop) (μ : A → Parser → nat) :
  (∀ a s, I a s → wp (body a) s (λ r s',
     match r with inl a' => I a' s' ∧ (μ a' s' < μ a s)%nat | inr b => Q b s' end)) →
  ∀ fuel a s, I a s → (μ a s < fuel)%nat → wp (iter fuel body a) s Q.
Proof.
  intros Hbody. induction fuel as [|fuel IH]; intros a s HI Hf; [lia|]. simpl.
  apply wp_bind. eapply wp_mono; [by apply Hbody|]. intros [a'|b] s'; simpl.
  - intros [? ?]. apply IH; [done|lia].
  - done.
Qed.

(** ** The cursor *)

Section rules.
Variable n : nat.
Local Abbreviation At := (Reached n).

(** A rule meets its specification: from a good state it answers a value with
    [Φ], [k] tokens or more further on. *)
Definition spec_on {A} (k : nat) (Φ : FileId → A → bool) (m : P A) : Prop :=
  ∀ s, At s 0 s → wp m s (λ a s', At s k s' ∧ Φ (file s) a = true).
Local Abbreviation spec k m := (spec_on k ok m).

Lemma wp_spec_on {A} k' Φ (m : P A) s0 k s Q :
  spec_on k' Φ m → At s0 k s →
  (∀ a s', At s0 (k + k') s' → Φ (file s0) a = true → Q a s') → wp m s Q.
Proof.
  intros Hm HA HQ. eapply wp_mono; [eapply Hm, At_rebase, HA|].
  intros a s' [H1 H2]. rewrite (at_file _ _ _ _ HA) in H2.
  apply HQ; [by eapply At_trans|done].
Qed.

(** A rule that asks something of its arguments or of the token it starts at. *)
Definition spec_if {A} (Pre : FileId → Token → Prop) (k : nat) (Φ : FileId → A → bool)
    (m : P A) : Prop :=
  ∀ s t, At s 0 s → tokens s !! pos s = Some t → Pre (file s) t →
    wp m s (λ a s', At s k s' ∧ Φ (file s) a = true).

Lemma wp_spec_if {A} Pre k' Φ (m : P A) s0 k s Q :
  spec_if Pre k' Φ m → At s0 k s →
  (∀ t, tokens s !! pos s = Some t → Pre (file s0) t) →
  (∀ a s', At s0 (k + k') s' → Φ (file s0) a = true → Q a s') → wp m s Q.
Proof.
  intros Hm HA HP HQ. destruct (At_peek _ _ _ _ HA) as [t Ht].
  pose proof (at_file _ _ _ _ HA) as Ef. eapply wp_mono.
  { eapply Hm; [by eapply At_rebase|done|rewrite Ef; by apply HP]. }
  intros a s' [H1 H2]. rewrite Ef in H2. apply HQ; [by eapply At_trans|done].
Qed.

(** A rule that only looks: it leaves the state as it is. *)
Definition reads {A} (m : P A) : Prop := ∀ s, At s 0 s → wp m s (λ _ s', s' = s).

Lemma wp_reads {A} (m : P A) s0 k s Q : reads m → At s0 k s → (∀ a, Q a s) → wp m s Q.
Proof.
  intros Hm HA HQ. eapply wp_mono; [eapply Hm, At_rebase, HA|]. by intros a s' ->.
Qed.

Lemma wp_spec `{Checked A} k' (m : P A) s0 k s Q :
  spec k' m → At s0 k s →
  (∀ a s', At s0 (k + k') s' → ok (file s0) a = true → Q a s') → wp m s Q.
Proof. apply wp_spec_on. Qed.

Lemma wp_peek s0 k s Q :
  At s0 k s → (∀ t, tokens s !! pos s = Some t → ok (file s0) (Token.span t) = true → Q t s) →
  wp peek s Q.
Proof.
  intros HA HQ. unfold wp, peek. destruct (At_peek _ _ _ _ HA) as [t Ht]. rewrite Ht.
  apply HQ; [done|]. rewrite <-(at_file _ _ _ _ HA). by eapply At_token_file.
Qed.

Lemma wp_check s0 k s K Q :
  At s0 k s → (∀ t, tokens s !! pos s = Some t → Q (bool_decide (kind t = K)) s) →
  wp (check K) s Q.
Proof.
  intros HA HQ. apply wp_bind. eapply wp_peek; [done|]. intros t Ht _. by apply HQ.
Qed.

Lemma wp_branch_check {A} s0 k s K (a b : P A) Q :
  At s0 k s →
  (∀ t, tokens s !! pos s = Some t → kind t = K → wp a s Q) →
  (∀ t, tokens s !! pos s = Some t → kind t ≠ K → wp b s Q) →
  wp (ifM check K then a else b) s Q.
Proof.
  intros HA Ha Hb. apply wp_branch. eapply wp_check; [done|]. intros t Ht.
  case_bool_decide; by eauto.
Qed.

Lemma wp_advance s0 k s t Q :
  At s0 k s → tokens s !! pos s = Some t → kind t ≠ TokenKind.Eof →
  (∀ s', At s0 (S k) s' → Q tt s') → wp advance s Q.
Proof.
  intros HA Ht Hk HQ. unfold wp, advance, at_end. rewrite Ht, bool_decide_false by done.
  simpl. apply HQ. by eapply At_advance.
Qed.

(** Past the first token a step cannot panic, wherever it stands. *)
Lemma wp_advance_any s0 k s Q :
  At s0 k s → (0 < pos s)%nat → (∀ s', At s0 k s' → (0 < pos s')%nat → Q tt s') → wp advance s Q.
Proof.
  intros HA Hp HQ. destruct (At_peek _ _ _ _ HA) as [t Ht].
  destruct (decide (kind t = TokenKind.Eof)) as [E|E].
  - unfold wp, advance, at_end. rewrite Ht, bool_decide_true by done.
    destruct (pos s) eqn:Ep; [lia|]. by apply HQ; [|lia].
  - unfold wp, advance, at_end. rewrite Ht, bool_decide_false by done. simpl.
    apply HQ; [|simpl; lia]. eapply At_weaken; [by eapply At_advance|lia].
Qed.

Lemma wp_check_same_line_at s0 k s off K Q :
  At s0 k s →
  (∀ t, tokens s !! (pos s + off)%nat = Some t → kind t = K → Q true s) → Q false s →
  wp (check_same_line_at off K) s Q.
Proof.
  intros HA HT HF. unfold wp, check_same_line_at.
  destruct (tokens s !! (pos s + off)%nat) as [t|]; [|done].
  destruct (bool_decide (kind t = K) && negb (first_on_line t)) eqn:E; [|done].
  apply andb_true_iff in E as [E _]. apply bool_decide_eq_true in E. by eapply HT.
Qed.

Lemma wp_check_same_line s0 k s K Q :
  At s0 k s →
  (∀ t, tokens s !! pos s = Some t → kind t = K → Q true s) → Q false s →
  wp (check_same_line K) s Q.
Proof.
  intros HA HT HF. eapply wp_check_same_line_at; [done| |done].
  intros t. rewrite Nat.add_0_r. apply HT.
Qed.

Lemma wp_peek_ahead s0 k s off Q :
  At s0 k s →
  (∀ t, (tokens s !! (pos s + off)%nat = Some t ∨
         (length (tokens s) ≤ pos s + off)%nat ∧ kind t = TokenKind.Eof) → Q t s) →
  wp (peek_ahead off) s Q.
Proof.
  intros HA HQ. unfold wp, peek_ahead. destruct (tokens s !! (pos s + off)%nat) as [t|] eqn:E.
  - apply HQ. by left.
  - destruct (at_eof _ _ _ _ HA) as ((t&->&Hk)&_). apply HQ. right. split; [|done].
    by apply lookup_ge_None_1.
Qed.

Lemma wp_peek_ahead_is s0 k s off K Q :
  At s0 k s → (∀ b, Q b s) → wp (peek_ahead_is off K) s Q.
Proof. intros HA HQ. apply wp_bind. eapply wp_peek_ahead; [done|]. intros t _. apply HQ. Qed.

Lemma wp_span s0 k s a b Q :
  At s0 k s → (∀ sp, ok (file s0) sp = true → Q sp s) → wp (span a b) s Q.
Proof.
  intros HA HQ. unfold wp, span. simpl. apply HQ. unfold ok, span_checked. simpl.
  rewrite (at_file _ _ _ _ HA). apply Z.eqb_refl.
Qed.

Lemma wp_current_span s0 k s Q :
  At s0 k s → (∀ sp, ok (file s0) sp = true → Q sp s) → wp current_span s Q.
Proof. intros HA HQ. apply wp_bind. eapply wp_peek; [done|]. intros t _ Hf. by apply HQ. Qed.

Lemma wp_previous_span s0 k s Q :
  At s0 k s → (∀ sp, ok (file s0) sp = true → Q sp s) → wp previous_span s Q.
Proof.
  intros HA HQ. unfold wp, previous_span. destruct (pos s) as [|p] eqn:Ep.
  - apply HQ. unfold ok, span_checked. simpl. rewrite (at_file _ _ _ _ HA). apply Z.eqb_refl.
  - pose proof (at_bound _ _ _ _ HA).
    destruct (lookup_lt_is_Some_2 (tokens s) p ltac:(lia)) as [t Ht]. rewrite Ht.
    apply HQ. rewrite <-(at_file _ _ _ _ HA). by eapply At_token_file.
Qed.

Lemma wp_is_at_end s0 k s Q :
  At s0 k s →
  (∀ t, tokens s !! pos s = Some t → Q (bool_decide (kind t = TokenKind.Eof)) s) →
  wp is_at_end s Q.
Proof.
  intros HA HQ. unfold wp, is_at_end, at_end. destruct (At_peek _ _ _ _ HA) as [t Ht].
  rewrite Ht. by apply HQ.
Qed.

(** A step of the state that touches only what [Reached] does not read. *)
Lemma At_same s0 k s s' :
  At s0 k s → tokens s' = tokens s → pos s' = pos s → file s' = file s → depth s' = depth s →
  suppress_lambda s' = suppress_lambda s → bare_match_forbidden s' = bare_match_forbidden s →
  ok (file s) (type_name_uses s') = true → ok (file s) (variant_declarations s') = true →
  ok (file s) (last_line_final_block_close s') = true → At s0 k s'.
Proof.
  intros [] Et Ep Ef Ed Es Eb Hu Hv Hc. by split; rewrite ?Et, ?Ep, ?Ef, ?Ed, ?Es, ?Eb.
Qed.

(** A loop each turn of which moves past a token. *)
Lemma wp_loop {A B} (body : A → P (A + B)) (I : FileId → A → Prop) (Φ : FileId → B → Prop)
    s0 k s a (Q : B → Parser → Prop) :
  At s0 k s → I (file s0) a →
  (∀ a s, At s 0 s → I (file s) a → wp (body a) s (λ r s',
     match r with inl a' => At s 1 s' ∧ I (file s) a' | inr b => At s 0 s' ∧ Φ (file s) b end)) →
  (∀ b s', At s0 k s' → Φ (file s0) b → Q b s') →
  wp (loop body a) s Q.
Proof.
  intros HA Ha Hbody HQ. unfold loop, wp.
  change (wp (iter (S (length (tokens s))) body a) s Q).
  apply (wp_iter body Q (λ a s', At s0 k s' ∧ I (file s0) a)
           (λ _ s', length (tokens s0) - pos s')%nat).
  - intros a' s' [HA' Ha']. pose proof (at_file _ _ _ _ HA') as Ef. eapply wp_mono.
    { apply Hbody; [by eapply At_rebase|by rewrite Ef]. }
    intros [a''|b] s'' [HA'' H']; rewrite Ef in H'.
    + assert (At s0 (k + 1) s'') as HA3 by (by eapply At_trans). split_and!.
      * eapply At_weaken; [done|lia].
      * done.
      * pose proof (at_pos _ _ _ _ HA''). pose proof (at_bound _ _ _ _ HA').
        rewrite (at_tokens _ _ _ _ HA') in *. lia.
    + apply HQ; [|done]. eapply At_weaken; [by eapply At_trans|lia].
  - done.
  - rewrite (at_tokens _ _ _ _ HA). lia.
Qed.

(** The usual case: what the loop builds stays checked. *)
Lemma wp_loop_ok `{Checked A, Checked B} (body : A → P (A + B)) s0 k s a (Q : B → Parser → Prop) :
  At s0 k s → ok (file s0) a = true →
  (∀ a s, At s 0 s → ok (file s) a = true → wp (body a) s (λ r s',
     match r with
     | inl a' => At s 1 s' ∧ ok (file s) a' = true
     | inr b => At s 0 s' ∧ ok (file s) b = true
     end)) →
  (∀ b s', At s0 k s' → ok (file s0) b = true → Q b s') →
  wp (loop body a) s Q.
Proof. apply (wp_loop body (λ f a, ok f a = true) (λ f b, ok f b = true)). Qed.

(** A scan leaves the state alone; the clamped lookahead ends it at the stream's
    end-of-file token, where its step must answer. *)
Lemma wp_scan {X B} (step : nat → X → TokenKind → P (X + B)) s0 k s idx x Q :
  At s0 k s →
  (∀ idx x kd, wp (step idx x kd) s (λ r s',
     s' = s ∧ match r with inl _ => kd ≠ TokenKind.Eof | inr _ => True end)) →
  (∀ b, Q b s) →
  wp (scan idx x step) s Q.
Proof.
  intros HA Hstep HQ. unfold scan, loop, wp.
  change (wp (iter (S (length (tokens s)))
    (λ '(idx, x), t ← peek_ahead idx; r ← step idx x (kind t);
       match r with inl x' => continue_ (S idx, x') | inr b => break_ b end) (idx, x)) s Q).
  set (body := λ '(idx, x), _).
  apply (wp_iter body Q (λ _ s', s' = s) (λ '(idx, _) _, length (tokens s) - (pos s + idx))%nat).
  - intros [i y] s' ->. subst body. apply wp_bind. eapply wp_peek_ahead; [done|].
    intros t Ht. apply wp_bind. eapply wp_mono; [apply Hstep|].
    intros [x'|b] s'' [-> Hr]; [|apply HQ]. split; [done|]. simpl.
    destruct Ht as [Ht%lookup_lt_Some|[_ Ht]]; [lia|done].
  - done.
  - lia.
Qed.

End rules.

(** ** Entering a rule one level deeper, and under a flag *)

Lemma Reached_deeper n n' s :
  Reached n s 0 s → (depth s < MAX_NESTING_DEPTH)%nat → n = S n' →
  Reached n' (with_depth (S (depth s)) s) 0 (with_depth (S (depth s)) s).
Proof. intros [] ? ->. split; simpl; try done; unfold MAX_NESTING_DEPTH in *; lia. Qed.

Lemma spec_nested {A} n k Φ (f : P A) :
  (∀ n', n = S n' → spec_on n' k Φ f) → spec_on n k Φ (nested f).
Proof.
  intros Hf s HA. unfold wp, nested.
  destruct (MAX_NESTING_DEPTH <=? depth s)%nat eqn:Ed; unbool.
  - destruct (At_peek _ _ _ _ HA) as [t Ht].
    unfold wp, current_span, mbind, P_bind, peek. by rewrite Ht.
  - pose proof (at_fuel _ _ _ _ HA) as Hfuel.
    destruct n as [|n']; [unfold MAX_NESTING_DEPTH in *; lia|].
    pose proof (Reached_deeper _ n' _ HA Ed eq_refl) as HA'.
    specialize (Hf n' eq_refl _ HA'). unfold wp in *.
    destruct (f (with_depth (S (depth s)) s)) as [[a|[]] s'] eqn:E; try done.
    destruct Hf as [[] Hok]. split; [|done]. destruct HA. simpl in *.
    split; simpl; try done; lia.
Qed.

Lemma spec_with_bare {A} n k Φ b (f : P A) :
  spec_on n k Φ f →
  spec_on n k Φ (with_flag bare_match_forbidden with_bare_match_forbidden b f).
Proof.
  intros Hf s HA. unfold wp, with_flag.
  assert (Reached n (with_bare_match_forbidden b s) 0 (with_bare_match_forbidden b s)) as HA'
    by (destruct HA; by split).
  specialize (Hf _ HA'). unfold wp in Hf.
  destruct (f (with_bare_match_forbidden b s)) as [[a|[]] s']; try done.
  destruct Hf as [[] Hok]. split; [|done]. by split.
Qed.

Lemma spec_with_suppress {A} n k Φ b (f : P A) :
  spec_on n k Φ f → spec_on n k Φ (with_flag suppress_lambda with_suppress_lambda b f).
Proof.
  intros Hf s HA. unfold wp, with_flag.
  assert (Reached n (with_suppress_lambda b s) 0 (with_suppress_lambda b s)) as HA'
    by (destruct HA; by split).
  specialize (Hf _ HA'). unfold wp in Hf.
  destruct (f (with_suppress_lambda b s)) as [[a|[]] s']; try done.
  destruct Hf as [[] Hok]. split; [|done]. by split.
Qed.

(** ** Checking what a rule builds *)

Lemma ok_snoc `{Checked A} f (l : list A) a : ok f l = true → ok f a = true → ok f (l ++ [a]) = true.
Proof. unfold ok, list_checked. intros. rewrite forallb_app. simpl. by rewrite andb_true_r; apply andb_true_iff. Qed.

Lemma ok_cons `{Checked A} f (l : list A) a : ok f a = true → ok f l = true → ok f (a :: l) = true.
Proof. unfold ok, list_checked. intros. simpl. by apply andb_true_iff. Qed.

Lemma ok_pair `{Checked A, Checked B} f (a : A) (b : B) :
  ok f a = true → ok f b = true → ok f (a, b) = true.
Proof. intros. unfold ok, prod_checked. by apply andb_true_iff. Qed.

Lemma ok_pair_inv `{Checked A, Checked B} f (a : A) (b : B) :
  ok f (a, b) = true → ok f a = true ∧ ok f b = true.
Proof. unfold ok, prod_checked. by intros [??]%andb_true_iff. Qed.

(** The span of a checked node is checked. *)
Lemma ok_expression_span f e : ok f e = true → ok f (expression_span e) = true.
Proof. destruct e; simpl; unfold ok at 1; simpl; intros H; unbool; done. Qed.
Lemma ok_pattern_span f p : ok f p = true → ok f (pattern_span p) = true.
Proof. destruct p; simpl; unfold ok at 1; simpl; intros H; unbool; done. Qed.


Lemma ok_imap `{Checked A, Checked B} f (h : nat → A → B) (l : list A) :
  (∀ i a, ok f a = true → ok f (h i a) = true) → ok f l = true → ok f (imap h l) = true.
Proof.
  intros Hh. unfold ok at 2, list_checked. revert h Hh. induction l as [|a l IH]; intros h Hh; simpl; [done|].
  intros [Ha Hl]%andb_true_iff. apply ok_cons; [by apply Hh|]. apply IH; [|done].
  intros i b. apply Hh.
Qed.

Lemma ok_fmap `{Checked A, Checked B} f (h : A → B) (l : list A) :
  (∀ a, ok f a = true → ok f (h a) = true) → ok f l = true → ok f (h <$> l) = true.
Proof.
  intros Hh. unfold ok at 2, list_checked. induction l as [|a l IH]; simpl; [done|].
  intros [Ha Hl]%andb_true_iff. apply ok_cons; [by apply Hh|by apply IH].
Qed.

Lemma ok_last `{Checked A} f (l : list A) a : ok f l = true → last l = Some a → ok f a = true.
Proof.
  unfold ok at 1, list_checked. rewrite forallb_forall. intros Hl Ha. apply Hl.
  apply list_elem_of_In. rewrite last_lookup in Ha. by eapply list_elem_of_lookup_2.
Qed.

Lemma ok_perm `{Checked A} f (l l' : list A) : l ≡ₚ l' → ok f l = true → ok f l' = true.
Proof.
  unfold ok, list_checked. rewrite !forallb_forall. intros Hp Hl a Ha. apply Hl.
  apply list_elem_of_In. rewrite Hp. by apply list_elem_of_In.
Qed.

Lemma ok_record f (fields : list (string * Expression)) sp :
  ok f fields = true → ok f sp = true → ok f (Expression.Record fields sp) = true.
Proof.
  intros Hf Hs. cbn [ok expression_checked]. apply andb_true_iff. split; [|done].
  revert Hf. unfold ok, list_checked. rewrite !forallb_forall. intros Hf [x e] Hx. by apply Hf in Hx.
Qed.

Lemma ok_constructor f name (fields : list (string * Expression)) sp :
  ok f fields = true → ok f sp = true → ok f (Expression.Constructor name fields sp) = true.
Proof. apply ok_record. Qed.

Lemma ok_map f (entries : list (Expression * Expression)) sp :
  ok f entries = true → ok f sp = true → ok f (Expression.MapLiteral entries sp) = true.
Proof.
  intros Hf Hs. cbn [ok expression_checked]. apply andb_true_iff. split; [|done].
  revert Hf. unfold ok, list_checked. rewrite !forallb_forall. intros Hf [x e] Hx. by apply Hf in Hx.
Qed.

Lemma last_not_empty {A} (l : list A) a : last l = Some a → (0 <? length l)%nat = true.
Proof. by destruct l. Qed.

#[export] Hint Resolve last_not_empty ok_record ok_constructor ok_map : checked.

(** ** Symbolic execution of a rule *)

(** A block, which is what a definition's body is. *)
Definition block_ok (f : FileId) (e : Expression) : bool := is_block e && ok f e.

Create HintDb spec.

(** Keep one equation for the token at the cursor of a state. *)
Ltac same_token :=
  repeat match goal with
  | H : tokens ?s !! pos ?s = Some ?t, H' : tokens ?s !! pos ?s = Some ?t' |- _ =>
      rewrite H in H'; injection H' as <-
  end.

Ltac split_ok :=
  repeat match goal with
  | H : ok _ (_, _) = true |- _ => apply ok_pair_inv in H as [? ?]
  | H : block_ok _ _ = true |- _ => apply andb_true_iff in H as [? ?]
  | H : prod _ _ |- _ => destruct H
  end.

Ltac wp_destruct :=
  match goal with
  | |- context [match ?x with _ => _ end] =>
      lazymatch goal with |- wp ?m _ _ =>
        match m with context [match x with _ => _ end] => destruct x eqn:? end end
  end.

Lemma is_capitalized_not_empty `{UnicodeCase} name : is_capitalized name = true → name ≠ ""%string.
Proof. by intros ? ->. Qed.

(** The token at hand is not the end of the file: by its kind, or its text. *)
Ltac not_eof :=
  first [congruence
        |(let E := fresh in intros E; rewrite E in *; discriminate)
        |eapply At_text_not_eof; [eassumption|eassumption|congruence]
        |eapply At_text_not_eof; [eassumption|eassumption|by apply is_capitalized_not_empty]].

(** The end of a rule: far enough on, and the value checked. *)
Ltac reached := first [eassumption | eapply At_weaken; [eassumption|lia]].

(** Unfold the check of the node at hand; those of its parts stay folded. *)
Ltac check_node :=
  first
    [ progress cbn [ok ty_checked pattern_checked expression_checked option_checked prod_checked
                    fst snd is_identifier is_field_access is_index is_block negb andb orb]
    | progress cbv beta iota delta
        [ok param_checked use_checked arm_checked item_checked method_checked trap_checked
         part_checked import_checked entry_checked statement_checked program_checked unit_checked
         arm_ok variable_ok function_ok method_ok definition_ok trap_ok item_ok statement_ok part_ok
         arm_pattern arm_body arm_span variable_annotation variable_value variable_span parameters
         return_type binding_type function_body function_span method_parameters
         method_return_type method_body method_span mutating arms trap_span type_definition
         type_span type_annotation parameter_span use_span import_span is_trap] ].

Ltac checked_ :=
  first
    [ assumption
    | reflexivity
    | lazymatch goal with
      | |- _ ∧ _ => split; checked_
      | |- andb _ _ = true => apply andb_true_iff; split; checked_
      | |- forallb _ (_ :: _) = true => cbn [forallb]; checked_
      | |- ok _ (_ ++ [_]) = true => apply ok_snoc; checked_
      | |- ok _ (_ :: _) = true => apply ok_cons; checked_
      | |- ok _ (_, _) = true => apply ok_pair; checked_
      | |- ok _ (expression_span _) = true => apply ok_expression_span; checked_
      | |- ok _ (pattern_span _) = true => apply ok_pattern_span; checked_
      end
    | solve [eauto 3 with checked]
    | progress check_node; checked_ ].
Ltac checked := solve [checked_].

(** One step: the head of the rule decides which law applies. *)
Ltac wp_step :=
  lazymatch goal with
  | |- if ?b then wp _ _ _ else _ => destruct b eqn:?
  | |- wp (mret _) _ _ => apply wp_ret
  | |- wp (continue_ _) _ _ => apply wp_ret
  | |- wp (break_ _) _ _ => apply wp_ret
  | |- wp (fail _) _ _ => apply wp_fail
  | |- wp (unexpected _ _) _ _ => apply wp_fail
  | |- wp (mbind _ _) _ _ => apply wp_bind; cbv beta
  | |- wp get _ _ => apply wp_get; cbv beta
  | |- wp peek _ _ => eapply wp_peek; [eassumption|intros ? ? ?; same_token]
  | |- wp (branch (check _) _ _) _ _ =>
      eapply wp_branch_check; [eassumption|intros ? ? ?; same_token..]
  | |- wp (branch _ _ _) _ _ => apply wp_branch
  | |- wp (check _) _ _ => eapply wp_check; [eassumption|intros ? ?; same_token]
  | |- wp is_at_end _ _ => eapply wp_is_at_end; [eassumption|intros ? ?; same_token]
  | |- wp advance _ _ =>
      eapply wp_advance; [eassumption|eassumption|not_eof|intros ? ?]
  | |- wp (check_same_line _) _ _ => eapply wp_check_same_line; [eassumption|intros ? ? ?; same_token|]
  | |- wp (check_same_line_at _ _) _ _ => eapply wp_check_same_line_at; [eassumption|intros ? ? ?|]
  | |- wp (peek_ahead_is _ _) _ _ => eapply wp_peek_ahead_is; [eassumption|intros [] ]
  | |- wp (peek_ahead _) _ _ => eapply wp_peek_ahead; [eassumption|intros ? ?]
  | |- wp (span _ _) _ _ => eapply wp_span; [eassumption|intros ? ?]
  | |- wp (join _ _) _ _ => eapply wp_span; [eassumption|intros ? ?]
  | |- wp current_span _ _ => eapply wp_current_span; [eassumption|intros ? ?]
  | |- wp previous_span _ _ => eapply wp_previous_span; [eassumption|intros ? ?]
  | |- wp (if bool_decide _ then _ else _) _ _ => case_bool_decide
  | |- wp (if ?b then _ else _) _ _ => destruct b eqn:?
  | |- wp (match ?x with _ => _ end) _ _ => destruct x eqn:?
  | |- wp (loop _ _) _ _ =>
      eapply wp_loop_ok; [eassumption|checked|intros ? ? ? ?; split_ok|intros ? ? ? ?; split_ok]
  | |- wp _ _ _ =>
      first
        [eapply wp_reads; [solve [eauto with spec]|eassumption|intros ?]
        |eapply wp_spec_on; [solve [eauto with spec]|eassumption|intros ? ? ? ?; split_ok]
        |eapply wp_spec_if;
           [solve [eauto with spec]|eassumption
           |intros ? ?; same_token; cbv beta; repeat split; solve [checked|not_eof]
           |intros ? ? ? ?; split_ok]]
  end.

Ltac wp_go := repeat (wp_step; cbv beta iota); try (split; [reached|checked]); try done.

#[export] Hint Extern 1 (_ ≠ _) => discriminate : spec.
