(* ===== verification/GrammarProps.v ===== *)
(** * The grammar meets its specification

    Every rule of the parser, run on a stream that ends in the end-of-file token
    with fuel for its depth and its holes, answers a well-formed tree further on in
    the stream or a parse error; it never panics and never runs out of fuel. *)

From S2P Require Import Prelude Bytes Num Codes Token Ast Lexer LexerProps ParserState Lookahead.
From S2P Require Import Grammar ParserLogic.
Open Scope Z_scope.

Section cursor.
Variable n : nat.
Local Abbreviation At := (Reached n).
Local Abbreviation spec_on := (spec_on n).
Local Abbreviation spec k m := (spec_on k ok m).
Local Abbreviation spec_if := (spec_if n).

Lemma spec_expect k : k ≠ TokenKind.Eof → spec 1 (expect k).
Proof. intros Hk s HA. unfold expect. wp_go. Qed.

Lemma spec_plain_string_literal chunks at_ c m :
  spec_if (λ _ t, kind t ≠ TokenKind.Eof) 1 ok (plain_string_literal chunks at_ c m).
Proof. intros s t HA Ht Hk. unfold plain_string_literal. wp_go. Qed.

Lemma spec_comma_separated `{Checked A} close (m : P A) :
  spec 1 m → spec 0 (parse_comma_separated close m).
Proof. intros Hm s HA. unfold parse_comma_separated. wp_go. Qed.

Lemma spec_expect_ident : spec 1 expect_ident.
Proof. intros s HA. unfold expect_ident. wp_go. Qed.

Section names.
Context `{U : UnicodeCase}.

(** A lookahead loop's measure: the tokens it has not looked at. *)
Lemma spec_suggested_name_fix name e : spec 0 (suggested_name_fix name e).
Proof.
  intros s HA. unfold suggested_name_fix, loop, wp.
  match goal with |- match iter ?fuel ?body ?a s with _ => _ end =>
    change (wp (iter fuel body a) s (λ x y, At s 0 y ∧ ok (file s) x = true)) end.
  apply (wp_iter _ _ (λ _ s', s' = s)
    (λ '(_, _, offset) _, length (tokens s) - (pos s + offset))%nat); [|done|lia].
  intros [[fixed e'] offset] s' ->. wp_step. wp_step. case_bool_decide as Hk; [by wp_go|].
  apply Decidable.not_or in Hk as [Hk _]. apply dec_stable in Hk.
  wp_step. wp_step. case_bool_decide; [by wp_go|]. wp_step. split; [done|].
  destruct H as [H%lookup_lt_Some|[_ H]]; [lia|congruence].
Qed.

Hint Resolve spec_suggested_name_fix : spec.

Lemma spec_reject_glued_name_suffix name sp :
  spec 0 (reject_glued_name_suffix name sp).
Proof.
  intros s HA. unfold reject_glued_name_suffix. wp_go.
Qed.

Hint Resolve spec_expect_ident spec_reject_glued_name_suffix : spec.

Lemma spec_expect_definition_name : spec 1 expect_definition_name.
Proof. intros s HA. unfold expect_definition_name. wp_go. Qed.

End names.

Lemma spec_advance_by m :
  (0 < m)%nat → spec_if (λ _ t, kind t ≠ TokenKind.Eof) 1 ok (advance_by m).
Proof.
  intros Hm s t HA Ht Hk. destruct m as [|m]; [lia|]. simpl.
  apply wp_bind. eapply wp_advance; [done..|]. intros s' HA'.
  assert (0 < pos s')%nat as Hp by (pose proof (at_pos _ _ _ _ HA'); lia).
  clear Hm. revert s' HA' Hp. induction m as [|m IH]; intros s' HA' Hp; [wp_go|].
  simpl. apply wp_bind. eapply wp_advance_any; [done..|]. intros s'' HA'' Hp''.
  by apply IH.
Qed.

Lemma reads_at_possible_module_chain : reads n at_possible_module_chain.
Proof. intros s HA. unfold at_possible_module_chain. wp_go. Qed.

Lemma reads_dotted_chain_at_cursor : reads n dotted_chain_at_cursor.
Proof.
  intros s HA. unfold dotted_chain_at_cursor. wp_step; [|by wp_go]. wp_step. wp_step.
  unfold loop, wp.
  match goal with |- match iter ?fuel ?body ?a s with _ => _ end =>
    change (wp (iter fuel body a) s (λ _ y, y = s)) end.
  apply (wp_iter _ _ (λ segments s', s' = s ∧ (1 ≤ length segments)%nat)
    (λ segments _, length (tokens s) - length segments)%nat); [|simpl; auto with lia..].
  intros segments s' [-> Hl]. cbv zeta. wp_step.
  eapply wp_check_same_line_at; [done| |by wp_go]. intros x Hx%lookup_lt_Some _.
  wp_step. wp_step; [|by wp_go]. wp_step. wp_step. wp_step. rewrite length_app. simpl.
  split_and!; [done|lia|lia].
Qed.

(** What a qualified reference steps over: its path and one member. *)
Lemma spec_advance_member m b :
  spec_if (λ _ t, kind t ≠ TokenKind.Eof) 1 ok
    (advance_by (2 * m + (if b : bool then 2 else 1))).
Proof. apply spec_advance_by. destruct b; lia. Qed.

Hint Resolve reads_at_possible_module_chain reads_dotted_chain_at_cursor
  spec_advance_member : spec.

(** No member, and the cursor has not moved; or one, with its span. *)
Lemma wp_try_parse_module_member s0 k s Q :
  At s0 k s → Q None s →
  (∀ name at_ s', At s0 (k + 1) s' → ok (file s0) at_ = true → Q (Some (name, at_)) s') →
  wp try_parse_module_member s Q.
Proof.
  intros HA HN HS. unfold try_parse_module_member, at_possible_module_chain. wp_go; auto.
Qed.

Lemma spec_parse_name_or_qualified :
  spec_if (λ _ t, kind t ≠ TokenKind.Eof) 1 ok parse_name_or_qualified.
Proof.
  intros s t HA Ht Hk. unfold parse_name_or_qualified. wp_step.
  eapply wp_try_parse_module_member; [done| |intros]; wp_go.
Qed.

Lemma spec_register_import path : spec 0 (register_import path).
Proof.
  intros s HA. unfold register_import. destruct (binding_name path); [|wp_go].
  apply wp_modify. split; [|done]. eapply At_same; [exact HA|done..| | |]; by destruct HA.
Qed.

Lemma spec_push_type_name_use name at_ :
  spec_if (λ f _, ok f at_ = true) 0 ok (modify (push_type_name_use (mkTypeNameUse name at_))).
Proof.
  intros s t HA Ht Hok. apply wp_modify. split; [|done].
  eapply At_same; [exact HA|done..| | |]; destruct HA; [by apply ok_snoc|done..].
Qed.

Lemma spec_push_variant_declaration name at_ :
  spec_if (λ f _, ok f at_ = true) 0 ok
    (modify (push_variant_declaration (mkTypeNameUse name at_))).
Proof.
  intros s t HA Ht Hok. apply wp_modify. split; [|done].
  eapply At_same; [exact HA|done..| | |]; destruct HA; [done|by apply ok_snoc|done].
Qed.

(** ** Lookahead *)

Section lookahead.
Context `{U : UnicodeCase}.

Ltac scan :=
  eapply wp_scan; [eassumption|intros ? ? []; repeat case_match; wp_go|intros; wp_go].

Lemma reads_skip_payload idx : reads n (skip_payload idx).
Proof. intros s HA. unfold skip_payload. scan. Qed.

Hint Resolve reads_skip_payload : spec.

Lemma reads_looks_like_sum_declaration : reads n looks_like_sum_declaration.
Proof. intros s HA. unfold looks_like_sum_declaration. wp_go. Qed.

Lemma reads_at_operator_definition : reads n at_operator_definition.
Proof. intros s HA. unfold at_operator_definition. wp_go. Qed.

Lemma reads_annotation_ends_in_arrow : reads n annotation_ends_in_arrow.
Proof. intros s HA. unfold annotation_ends_in_arrow. scan. Qed.

Hint Resolve reads_annotation_ends_in_arrow : spec.

Lemma reads_looks_like_bare_lambda : reads n looks_like_bare_lambda.
Proof. intros s HA. unfold looks_like_bare_lambda. wp_go. Qed.

Lemma reads_parameter_list_ahead_from offset : reads n (parameter_list_ahead_from offset).
Proof. intros s HA. unfold parameter_list_ahead_from. scan. Qed.

Hint Resolve reads_parameter_list_ahead_from : spec.

Lemma reads_parameter_list_ahead : reads n parameter_list_ahead.
Proof. apply reads_parameter_list_ahead_from. Qed.

Hint Resolve reads_parameter_list_ahead : spec.

Lemma reads_paren_starts_lambda : reads n paren_starts_lambda.
Proof. intros s HA. unfold paren_starts_lambda. wp_go. Qed.

Lemma reads_member_block_has_field : reads n member_block_has_field.
Proof.
  intros s HA. unfold member_block_has_field. eapply wp_scan; [eassumption| |intros; wp_go].
  intros idx [[[brace paren] bracket] block] k. wp_step. wp_step; [wp_step..];
    destruct k; wp_go.
Qed.

Lemma reads_operator_symbol_name : reads n operator_symbol_name.
Proof. intros s HA. unfold operator_symbol_name. wp_go. Qed.

Hint Resolve reads_operator_symbol_name : spec.

Lemma reads_operator_def_name : reads n operator_def_name.
Proof. intros s HA. unfold operator_def_name. wp_go. Qed.
End lookahead.

End cursor.

#[export] Hint Resolve spec_expect spec_plain_string_literal spec_comma_separated
  spec_expect_ident spec_suggested_name_fix spec_reject_glued_name_suffix
  spec_expect_definition_name spec_parse_name_or_qualified spec_register_import
  spec_push_type_name_use spec_push_variant_declaration
  reads_at_possible_module_chain reads_dotted_chain_at_cursor reads_skip_payload
  reads_looks_like_sum_declaration reads_at_operator_definition reads_looks_like_bare_lambda
  reads_parameter_list_ahead_from reads_parameter_list_ahead reads_paren_starts_lambda
  reads_member_block_has_field reads_operator_symbol_name reads_operator_def_name : spec.
