(* ===== verification/HoleProps.v ===== *)
(** * What the lexer promises the parser of a hole

    The stream of a source ends in its end-of-file token, lies in its file, and
    its holes are shorter than the source: the measure by which holes inside holes
    come to an end. *)

From S2P Require Import Prelude Bytes Num Codes Token Ast Lexer LexerProps ParserState Lookahead.
From S2P Require Import Grammar ParserLogic.
Open Scope Z_scope.

Lemma string_of_bytes_length b : String.length (string_of_bytes b) = length b.
Proof. unfold string_of_bytes. induction b; simpl; [done|]. by f_equal. Qed.

Lemma bs_length s : length (bs s) = String.length s.
Proof. unfold bs. rewrite length_fmap. induction s; simpl; [done|]. by f_equal. Qed.

Definition weights_le (l : nat) (chunks : list StrChunk) : Prop :=
  Forall (λ c, (chunk_weight c ≤ l)%nat) chunks.

Lemma lex_string_loop_weight l fuel base rest i chunks lit scopes cs lt sc j :
  weights_le l chunks → (length rest ≤ l)%nat →
  lex_string_loop fuel base rest i chunks lit scopes = Ok (cs, lt, sc, j) → weights_le l cs.
Proof.
  revert rest i chunks lit scopes. induction fuel as [|fuel IH];
    intros rest i chunks lit scopes Hc Hl H; [done|].
  destruct rest as [|b rest]; [done|]. cbn [lex_string_loop] in H. simpl in Hl.
  assert (∀ m i chunks lit scopes, weights_le l chunks →
    lex_string_loop fuel base (drop m (b :: rest)) i chunks lit scopes = Ok (cs, lt, sc, j) →
    weights_le l cs) as Hd.
  { intros m *. intros Hw. apply IH; [done|]. rewrite length_drop. simpl. lia. }
  destruct (is_newline b); [done|]. destruct (b =? 34); [by simplify_eq|]. destruct (b =? 92).
  { destruct rest as [|b' rest]; [done|]. destruct (is_newline b'); [done|].
    destruct (unescape b'); [|done]. simpl in Hl. apply IH in H; [done..|lia]. }
  destruct (b =? 96).
  - case_bool_decide; [eapply Hd, H; done|].
    apply result_bind_Ok in H as (k&Hk&H). destruct (is_blank _); [done|].
    eapply Hd, H. apply Forall_app. split.
    + case_bool_decide; [done|]. apply Forall_app. split; [done|].
      apply Forall_singleton. simpl. lia.
    + apply Forall_singleton. simpl. rewrite string_of_bytes_length, length_take. lia.
  - destruct (utf8_step (b :: rest)) as [[ch|] n]; [|done].
    destruct (Bidi.feed scopes ch); [|done]. eapply Hd, H. done.
Qed.

Lemma lex_string_weight base rem chunks n :
  lex_string base rem = Ok (chunks, n) → weights_le (length rem) chunks.
Proof.
  unfold lex_string. intros H. apply result_bind_Ok in H as ([[[cs l] sc] j]&Hr&H).
  destruct (lex_string_loop _ _ _ _ _ _ _) eqn:E in Hr; [|by destruct e].
  simpl in Hr. simplify_eq. apply (lex_string_loop_weight (length rem)) in E; [|constructor|done].
  destruct (Bidi.unclosed sc); [done|]. simplify_eq.
  case_match; [|done]. apply Forall_app. split; [done|]. apply Forall_singleton. simpl. lia.
Qed.

Section stream.
Context `{R : Recogniser} `{!RecogniserOk R}.

Definition lexeme_weight_ok (l : nat) (x : lexeme) : Prop :=
  ∀ chunks, x = Lexed (TokenKind.String chunks) → weights_le l chunks.

Lemma candidates_weight base rest :
  Forall (λ c, lexeme_weight_ok (length rest) c.2.1) (candidates base rest).
Proof.
  unfold candidates. repeat apply Forall_app_2.
  - apply Forall_forall. intros c (x&Hx&Hc)%list_elem_of_omap.
    assert (Forall (λ x : string * TokenKind, match x.2 with TokenKind.String _ => False | _ => True end)
              literals) as Hl by (repeat constructor).
    rewrite Forall_forall in Hl. specialize (Hl x Hx). destruct x as [lit k].
    case_bool_decide; [|done]. simplify_eq/=. intros chunks Hk. simpl in Hk.
    injection Hk as ->. done.
  - by destruct (ident_len rest); repeat constructor.
  - by destruct (number_len rest); repeat constructor.
  - by destruct (scientific_len rest); repeat constructor.
  - destruct rest as [|b rest]; [done|].
    destruct (_ || _); [by repeat constructor|].
    destruct (b =? 126).
    { apply Forall_singleton. simpl. by destruct (lex_comment _). }
    destruct (b =? 34).
    { apply Forall_singleton. destruct (lex_string _ _) as [[chunks n]|e] eqn:Es; simpl; [|done].
      intros cs Hk. injection Hk as <-. apply lex_string_weight in Es.
      eapply Forall_impl; [exact Es|]. simpl. intros; lia. }
    destruct (utf8_step (b :: rest)) as [[ch|] n]; [|done].
    case_bool_decide; [|done]. by repeat constructor.
Qed.

Lemma lex_next_weight base rest :
  lexeme_weight_ok (length rest) (lex_next base rest).1.
Proof.
  unfold lex_next. pose proof (candidates_weight base rest) as Hc.
  destruct (candidates base rest) as [|c cs]; [done|].
  rewrite Forall_forall in Hc. apply Hc, keep_longest_elem.
Qed.

(** What each token but the last satisfies. *)
Definition token_good (l : nat) (f : FileId) (t : Token) : Prop :=
  kind t ≠ TokenKind.Eof ∧ (token_weight t ≤ l)%nat ∧ Token.file (Token.span t) = f.

Lemma max_list_le l xs : Forall (λ x, (x ≤ l)%nat) xs ↔ (max_list xs ≤ l)%nat.
Proof.
  induction xs as [|x xs IH]; simpl; [split; [lia|constructor]|].
  rewrite Forall_cons, IH. lia.
Qed.

Lemma tokenize_loop_good fuel source f at_ acc toks :
  Forall (token_good (length source) f) acc →
  tokenize_loop fuel source f at_ acc = Ok toks →
  ∃ body, toks = body ++ [eof_token source f] ∧ Forall (token_good (length source) f) body.
Proof.
  revert at_ acc. induction fuel as [|fuel IH]; intros at_ acc Ha H; [done|].
  cbn [tokenize_loop] in H. destruct (drop at_ source) as [|b rest] eqn:Ed.
  { simplify_eq. by exists acc. }
  pose proof (lex_next_ok (Z.of_nat at_) (b :: rest) ltac:(done)) as (_&_&Hk&_).
  pose proof (lex_next_weight (Z.of_nat at_) (b :: rest)) as Hw.
  apply (f_equal length) in Ed. rewrite length_drop in Ed.
  destruct (lex_next _ _) as [[|k|e] n]; simpl in Hk, Hw.
  - by apply IH in H.
  - rewrite bool_decide_false in H by congruence. apply IH in H; [done|].
    apply Forall_app. split; [done|]. repeat constructor; simpl; [congruence|].
    unfold token_weight. simpl. destruct k; try lia.
    apply max_list_le, Forall_fmap. eapply Forall_impl; [by apply (Hw chunks)|].
    simpl in Ed |- *. intros; lia.
  - by destruct (error_text _ _).
Qed.

Lemma reclassify_gt_app_last body t :
  ∃ body', reclassify_gt (body ++ [t]) = body' ++ reclassify_gt [t] ∧
    ∀ l f, Forall (token_good l f) body → Forall (token_good l f) body'.
Proof.
  induction body as [|x body (body'&E&Hb)]; [by exists []|].
  cbn [app reclassify_gt]. rewrite E. eexists (_ :: body'). split; [reflexivity|].
  intros l f H. inversion H as [|?? Hx Hrest]; subst. constructor; [|by apply Hb].
  destruct (_ && _); [|done]. destruct Hx as (?&?&?).
  split_and!; [done|unfold token_weight; simpl; lia|done].
Qed.

(** The stream of a source, ready for a parser. *)
Lemma tokenize_stream source f toks :
  tokenize_in_file source f = Ok toks →
  ends_in_eof toks ∧ (stream_weight toks ≤ length source)%nat ∧
  Forall (λ t, Token.file (Token.span t) = f) toks.
Proof.
  unfold tokenize_in_file. intros Ht.
  destruct (tokenize_loop _ _ _ _ _) as [ts|[e|]] eqn:E; [|done..]. injection Ht as <-.
  apply tokenize_loop_good in E as (body&->&Hb); [|constructor].
  destruct (reclassify_gt_app_last body (eof_token source f)) as (body'&->&Hg).
  apply Hg in Hb. simpl. split_and!.
  - split; [rewrite last_snoc; by eexists|]. apply Forall_app. split; [|by repeat constructor].
    eapply Forall_impl; [exact Hb|]. by intros t (?&_).
  - apply max_list_le, Forall_fmap, Forall_app. split; [|apply Forall_singleton; unfold token_weight; simpl; lia].
    eapply Forall_impl; [exact Hb|]. by intros t (_&?&_).
  - apply Forall_app. split; [|by repeat constructor].
    eapply Forall_impl; [exact Hb|]. by intros t (_&_&?).
Qed.
End stream.
