(* ===== verification/RulesProps.v ===== *)
(** * The grammar meets its specification, rule by rule *)

From S2P Require Import Prelude Bytes Num Codes Token Ast AstProps Lexer LexerProps ParserState.
From S2P Require Import Lookahead Grammar ParserLogic GrammarProps HoleProps.
Open Scope Z_scope.

(** The rules one level deeper meet their specifications with one level less. *)
Record grammar_ok (n : nat) (g : Grammar) : Prop := {
  assignment_ok : ∀ n', n = S n' → spec_on n' 1 ok (parse_assignment' g);
  unary_ok : ∀ n', n = S n' → spec_on n' 1 ok (parse_unary' g);
  type_inner_ok : ∀ n', n = S n' → spec_on n' 1 ok (parse_type_inner' g);
  pattern_inner_ok : ∀ n', n = S n' → spec_on n' 1 ok (parse_pattern_inner' g);
  block_inner_ok : ∀ n', n = S n' → spec_on n' 1 block_ok (parse_block_inner' g)
}.

Lemma ok_ty_record f (fields : list (string * Ty)) :
  fields ≠ [] → ok f fields = true → ok f (Ty.Record (canonical_record_field_order fields)) = true.
Proof.
  intros Hne Hok. pose proof (canonical_record_field_order_perm fields) as Hp.
  apply (ok_perm _ _ _ (symmetry Hp)) in Hok. apply Permutation_length in Hp.
  revert Hp Hok. generalize (canonical_record_field_order fields). intros l Hl Hok.
  unfold ok, ty_checked. apply andb_true_iff. split.
  - destruct fields; [done|]. by destruct l.
  - revert Hok. unfold ok, list_checked. rewrite !forallb_forall.
    intros Hok [x t] Hx. by apply Hok in Hx.
Qed.

Section rules.
Context `{R : Recogniser} `{!RecogniserOk R} `{U : UnicodeCase}.
Variable n : nat.
Variable g : Grammar.
Hypothesis G : grammar_ok n g.
Local Abbreviation At := (Reached n).
Local Abbreviation spec_on := (spec_on n).
Local Abbreviation spec k m := (spec_on k ok m).
Local Abbreviation spec_if := (spec_if n).

(** ** Types *)

Lemma spec_parse_type : spec 1 (parse_type g).
Proof. apply spec_nested, type_inner_ok, G. Qed.

Lemma spec_expect_fence_close : spec 2 expect_fence_close.
Proof. intros s HA. unfold expect_fence_close. wp_go. Qed.

Hint Resolve spec_parse_type spec_expect_fence_close : spec.

Lemma spec_parse_function_type : spec 1 (parse_function_type g).
Proof. intros s HA. unfold parse_function_type. wp_go. Qed.

Lemma spec_parse_fenced_type : spec 1 (parse_fenced_type g).
Proof. intros s HA. unfold parse_fenced_type. wp_go. Qed.

Lemma spec_parse_record_type_entry : spec 1 (parse_record_type_entry g).
Proof. intros s HA. unfold parse_record_type_entry. wp_go. Qed.

Hint Resolve spec_parse_function_type spec_parse_fenced_type spec_parse_record_type_entry : spec.

Lemma spec_parse_anonymous_record_type : spec 1 (parse_anonymous_record_type g).
Proof.
  intros s HA. unfold parse_anonymous_record_type. wp_go.
  all: split; [reached|]; apply ok_ty_record; [by case_match; destruct a0|]; case_match.
  - apply ok_imap; [|done]. intros ? [] H'; apply ok_pair_inv in H' as []; by apply ok_pair.
  - apply ok_fmap; [|done]. intros [] H'; apply ok_pair_inv in H' as []; by apply ok_pair.
Qed.

Hint Resolve spec_parse_anonymous_record_type : spec.

Lemma spec_parse_type_inner : spec 1 (parse_type_inner g).
Proof.
  intros s HA. unfold parse_type_inner. wp_step.
  eapply wp_try_parse_module_member; [done| |intros]; wp_go.
Qed.

(** ** Patterns and arms *)

Lemma spec_parse_pattern : spec 1 (parse_pattern g).
Proof. apply spec_nested, pattern_inner_ok, G. Qed.

Hint Resolve spec_parse_pattern : spec.

Lemma spec_parse_pattern_inner : spec 1 (parse_pattern_inner g).
Proof. intros s HA. unfold parse_pattern_inner. wp_go. Qed.

Lemma spec_arm_body :
  spec 1 (with_flag bare_match_forbidden with_bare_match_forbidden true
            (nested (parse_assignment' g))).
Proof. apply spec_with_bare, spec_nested, assignment_ok, G. Qed.

Hint Resolve spec_arm_body : spec.

Lemma spec_parse_arm_list : spec 0 (parse_arm_list g).
Proof. intros s HA. unfold parse_arm_list. wp_go. Qed.

Hint Resolve spec_parse_arm_list : spec.

Lemma spec_parse_match e : spec_if (λ f _, ok f e = true) 0 ok (parse_match g e).
Proof. intros s t HA Ht He. unfold parse_match. wp_go. Qed.

(** ** Expressions *)

Lemma spec_parse_expression : spec 1 (parse_expression g).
Proof. apply spec_with_bare, spec_nested, assignment_ok, G. Qed.

Hint Resolve spec_parse_expression spec_parse_match : spec.

Lemma spec_binary_level next match_operator :
  spec 1 next → spec 0 match_operator →
  spec 1 (parse_binary_level next match_operator).
Proof. intros Hn Hm s HA. unfold parse_binary_level. wp_go. Qed.

Lemma spec_match_token k operator :
  k ≠ TokenKind.Eof →
  spec 0 (ifM check k then advance;; mret (Some operator : option BinaryOperator) else mret None).
Proof. intros Hk s HA. wp_go. Qed.

Lemma spec_match_operators operator_of :
  operator_of TokenKind.Eof = None → spec 0 (match_operators operator_of).
Proof. intros He s HA. unfold match_operators. wp_go. Qed.

Lemma spec_match_or : spec 0 match_or.
Proof. by apply spec_match_token. Qed.
Lemma spec_match_and : spec 0 match_and.
Proof. by apply spec_match_token. Qed.
Lemma spec_match_equality : spec 0 match_equality.
Proof. by apply spec_match_operators. Qed.
Lemma spec_match_comparison : spec 0 match_comparison.
Proof. by apply spec_match_operators. Qed.
Lemma spec_match_additive : spec 0 match_additive.
Proof. by apply spec_match_operators. Qed.
Lemma spec_match_multiplicative : spec 0 match_multiplicative.
Proof. by apply spec_match_operators. Qed.

Hint Resolve spec_match_or spec_match_and spec_match_equality spec_match_comparison
  spec_match_additive spec_match_multiplicative : spec.

Lemma reads_reject_leading_zero_position text at_ :
  reads n (reject_leading_zero_position text at_).
Proof. intros s HA. unfold reject_leading_zero_position. cbv zeta. wp_go. Qed.

Hint Resolve reads_reject_leading_zero_position : spec.

Lemma spec_parse_after_dot e : spec_if (λ f _, ok f e = true) 1 ok (parse_after_dot g e).
Proof. intros s t HA Ht He. unfold parse_after_dot. wp_go. Qed.

Hint Resolve spec_parse_after_dot : spec.

Lemma spec_chain_parts from parts offset e :
  spec_if (λ f _, ok f e = true) 0 ok (chain_parts from parts offset e).
Proof.
  revert offset e. induction parts as [|part parts IH]; intros offset e s t HA Ht He; simpl; wp_go.
Qed.

Hint Resolve spec_chain_parts : spec.

Lemma spec_chain_positional_field_accesses e :
  spec_if (λ f t, ok f e = true ∧ kind t ≠ TokenKind.Eof) 1 ok
    (chain_positional_field_accesses g e).
Proof.
  intros s t HA Ht [He Hk]. unfold chain_positional_field_accesses. wp_go.
Qed.

(** ** Parameters and lambdas *)

Lemma spec_parse_parameter : spec 1 (parse_parameter g).
Proof. intros s HA. unfold parse_parameter. wp_go. Qed.

Hint Resolve spec_parse_parameter : spec.

Lemma params_ok_intro f ps :
  (length ps ≤ MAX_PARAMETERS)%nat → ok f ps = true → params_ok f ps = true.
Proof. intros. unfold params_ok. by rewrite (proj2 (Nat.leb_le _ _)). Qed.

(** The limit holds in every list a program writes. *)
Lemma spec_parse_parameter_list : spec_on 0 params_ok (parse_parameter_list g).
Proof.
  intros s HA. unfold parse_parameter_list. wp_step.
  - wp_step. wp_step. wp_step.
    apply (wp_mono _ _ (λ ps s2, At s 1 s2 ∧ params_ok (file s) ps = true)).
    { wp_step; [wp_step; by split|].
      eapply (wp_loop n _ (λ f ps, (length ps ≤ MAX_PARAMETERS)%nat ∧ ok f ps = true)
                (λ f ps, params_ok f ps = true)); [done|split; [unfold MAX_PARAMETERS; simpl; lia|done]| |].
      - intros ps s1 HA1 [Hl Hps]. wp_step; [wp_go|unbool]. wp_step. wp_step.
        assert (length (ps ++ [a]) ≤ MAX_PARAMETERS)%nat by (rewrite length_app; simpl; lia).
        wp_go. split; [reached|]. apply params_ok_intro; [done|checked].
      - intros ps s2 HA2 Hps. done. }
    intros ps s2 [HA2 Hps]. wp_go.
  - wp_go. split; [reached|]. apply params_ok_intro; [unfold MAX_PARAMETERS; simpl; lia|checked].
Qed.

Hint Resolve spec_parse_parameter_list : spec.

Lemma spec_parse_block : spec_on 1 block_ok (parse_block g).
Proof. apply spec_nested, block_inner_ok, G. Qed.

Lemma spec_parse_return_type : spec 0 (parse_return_type g).
Proof. intros s HA. unfold parse_return_type. wp_go. Qed.

Hint Resolve spec_parse_block spec_parse_return_type : spec.

Lemma spec_parse_lambda_expression : spec 1 (parse_lambda_expression g).
Proof.
  intros s HA. unfold parse_lambda_expression. wp_go.
Qed.

Hint Resolve spec_parse_lambda_expression spec_chain_positional_field_accesses : spec.

(** ** Literals *)

(** No spread, and the cursor has not moved; or one, past its first token. *)
Lemma wp_try_parse_spread s0 k s Q :
  At s0 k s → Q None s →
  (∀ e s', At s0 (k + 1) s' → ok (file s0) e = true → Q (Some e) s') →
  wp (try_parse_spread g) s Q.
Proof.
  intros HA HN HS. unfold try_parse_spread. wp_step; [|by apply wp_ret].
  wp_go. apply HS; [reached|checked].
Qed.

Lemma spec_parse_spread_or {A} `{Checked A} (f : Expression → A) (m : P A) :
  (∀ fi e, ok fi e = true → ok fi (f e) = true) → spec 1 m →
  spec 1 (spread ← try_parse_spread g;
          match spread with Some e => mret (f e) | None => m end).
Proof.
  intros Hf Hm s HA. wp_step. eapply wp_try_parse_spread; [done|by apply Hm|].
  intros e s' HA' He. wp_go.
Qed.

Lemma spec_parse_record_fields : spec 0 (parse_record_fields g).
Proof.
  intros s HA. unfold parse_record_fields. wp_step.
  eapply wp_spec_on; [apply spec_comma_separated, spec_parse_spread_or; [by intros; checked|]
    |exact HA|intros]; [intros s1 HA1|]; wp_go.
Qed.

Lemma spec_parse_record_entry : spec 1 (parse_record_entry g).
Proof.
  intros s HA. unfold parse_record_entry. wp_step.
  eapply wp_try_parse_spread; [done| |intros]; wp_go.
Qed.

Hint Resolve spec_parse_record_fields spec_parse_record_entry : spec.

Lemma spec_parse_record_literal_fields : spec 1 (parse_record_literal_fields g).
Proof.
  intros s HA. unfold parse_record_literal_fields. wp_go.
  split; [reached|]. apply ok_imap; [|done]. by intros ? [].
Qed.

Hint Resolve spec_parse_record_literal_fields : spec.

Lemma spec_parse_record : spec 1 (parse_record g).
Proof. intros s HA. unfold parse_record. wp_go. Qed.

Lemma spec_parse_array : spec 1 (parse_array g).
Proof.
  pose proof (spec_parse_spread_or id (parse_expression g) ltac:(done) spec_parse_expression).
  intros s HA. unfold parse_array. wp_go.
Qed.

Lemma spec_parse_fence_key : spec 1 (parse_fence_key g).
Proof. apply spec_with_suppress, spec_parse_expression. Qed.

Lemma spec_span_from here : spec 0 (span_from here).
Proof. intros s HA. unfold span_from. wp_go. Qed.

Hint Resolve spec_parse_record spec_parse_array spec_parse_fence_key spec_span_from : spec.

Lemma spec_parse_fenced_literal : spec 1 (parse_fenced_literal g).
Proof. intros s HA. unfold parse_fenced_literal. wp_go. Qed.

Hint Resolve spec_parse_fenced_literal : spec.

(** ** Interpolated strings *)

(** The tokens of a hole, moved to where it stands, make a state to parse from:
    it is shorter than the stream, which pays for its own levels. *)
Lemma Reached_hole s0 k s src abs toks :
  At s0 k s → (S (String.length src) ≤ stream_weight (tokens s))%nat →
  tokenize_in_file (bs src) (file s) = Ok toks →
  let inner := hole_parser s abs (shift_token abs (file s) <$> toks) in
  Reached n inner 0 inner ∧ file inner = file s.
Proof.
  intros HA Hw Ht. apply tokenize_stream in Ht as (((t&Hl&Hk)&Htext)&Hle&Hf).
  rewrite bs_length in Hle.
  set (toks' := shift_token abs (file s) <$> toks).
  assert (stream_weight toks' = stream_weight toks) as Ew.
  { unfold toks', stream_weight. rewrite <-list_fmap_compose. done. }
  assert (Forall (λ t, Token.file (Token.span t) = file s) toks') as Hf'.
  { apply Forall_fmap. eapply Forall_impl; [exact Hf|]. done. }
  assert (0 < length toks')%nat as Hlen.
  { unfold toks'. rewrite length_fmap. destruct toks; [done|simpl; lia]. }
  assert (match toks' with t :: _ => Token.file (Token.span t) | [] => ROOT_FILE end = file s) as Ef.
  { clearbody toks'. destruct toks'; [simpl in Hlen; lia|]. by inversion Hf'. }
  split; [|exact Ef]. pose proof (at_fuel _ _ _ _ HA) as Hfuel.
  pose proof (at_depth _ _ _ _ HA) as Hdepth.
  split; simpl; try done; try lia.
  - split; [|apply Forall_fmap; eapply Forall_impl; [exact Htext|done]].
    exists (shift_token abs (file s) t). unfold toks'. by rewrite fmap_last, Hl.
  - rewrite Ew. unfold MAX_NESTING_DEPTH in *. lia.
  - rewrite Ef. unfold ok, list_checked. apply forallb_forall.
    intros sp Hsp%list_elem_of_In%list_elem_of_fmap. destruct Hsp as (x&->&Hx).
    rewrite Forall_forall in Hf'. unfold ok, span_checked. by apply Z.eqb_eq, Hf'.
Qed.

(** A hole is parsed aside: the state it is found in does not change. *)
Lemma wp_parse_hole s0 k s src abs Q :
  At s0 k s → (S (String.length src) ≤ stream_weight (tokens s))%nat →
  (∀ e, ok (file s0) e = true → Q e s) → wp (parse_hole g src abs) s Q.
Proof.
  intros HA Hw HQ. unfold wp, parse_hole.
  destruct (tokenize_in_file (bs src) (file s)) as [toks|e] eqn:Et; [|done].
  destruct (Reached_hole _ _ _ _ abs _ HA Hw Et) as [HA' Ef].
  pose proof (spec_parse_expression _ HA') as Hp. unfold wp in Hp. cbv zeta.
  destruct (parse_expression g _) as [[e|[]] inner']; try done.
  destruct Hp as [HA'' He]. destruct (at_end inner').
  - apply HQ. by rewrite <-(at_file _ _ _ _ HA), <-Ef.
  - pose proof (wp_current_span _ _ _ inner' (λ _ _, True) HA'' (λ _ _, I)) as Hc.
    unfold wp in Hc. by destruct (current_span inner') as [[|[]] ?].
Qed.

Lemma spec_build_parts chunks s0 k s Q :
  At s0 k s → Forall (λ c, (chunk_weight c ≤ stream_weight (tokens s))%nat) chunks →
  (∀ parts, ok (file s0) parts = true → Q parts s) → wp (build_parts g chunks) s Q.
Proof.
  intros HA Hc. revert Q. induction Hc as [|c chunks Hc _ IH]; intros Q HQ; simpl.
  - apply wp_ret, HQ. done.
  - destruct c as [text|src offset]; simpl in Hc.
    + wp_step. apply IH. intros parts Hp. wp_step. apply HQ. checked.
    + wp_step. wp_step. wp_step. eapply wp_parse_hole; [done..|]. intros e He.
      wp_step. apply IH. intros parts Hp. wp_step. apply HQ. checked.
Qed.

Lemma stream_chunks toks i t chunks :
  toks !! i = Some t → kind t = TokenKind.String chunks →
  Forall (λ c, (chunk_weight c ≤ stream_weight toks)%nat) chunks.
Proof.
  intros Ht Hk. assert (token_weight t ≤ stream_weight toks)%nat as Hw.
  { pose proof (proj2 (max_list_le _ _) (Nat.le_refl (stream_weight toks))) as Hall.
    apply Forall_fmap in Hall. rewrite Forall_forall in Hall.
    by apply Hall, list_elem_of_lookup_2 with i. }
  unfold token_weight in Hw. rewrite Hk in Hw.
  apply (proj2 (max_list_le _ _)), Forall_fmap in Hw. exact Hw.
Qed.

Lemma wp_build_string_expression s0 k s chunks at_ Q :
  At s0 k s → Forall (λ c, (chunk_weight c ≤ stream_weight (tokens s))%nat) chunks →
  ok (file s0) at_ = true →
  (∀ e, ok (file s0) e = true → Q e s) → wp (build_string_expression g chunks at_) s Q.
Proof.
  intros HA Hc Ha HQ. unfold build_string_expression.
  assert (wp (parts ← build_parts g chunks; mret (Expression.Interpolation parts at_)) s Q) as Hp.
  { apply wp_bind. eapply spec_build_parts; [done..|]. intros parts Hp. apply wp_ret, HQ. checked. }
  destruct chunks as [|[] []]; try exact Hp. apply wp_ret, HQ. checked.
Qed.

(** ** The precedence chain *)

Lemma spec_parse_primary : spec 1 (parse_primary g).
Proof.
  intros s HA. unfold parse_primary. wp_step. wp_step. cbv zeta.
  destruct (kind t) eqn:Ek; try by wp_go.
  wp_step. wp_step. eapply wp_build_string_expression; [done| |done|].
  - rewrite (at_tokens _ _ _ _ H1). by eapply stream_chunks.
  - intros e He. by split.
Qed.

Hint Resolve spec_parse_primary : spec.

Lemma spec_parse_postfix : spec 1 (parse_postfix g).
Proof. intros s HA. unfold parse_postfix. wp_go. Qed.

Lemma spec_inner_unary : spec 1 (nested (parse_unary' g)).
Proof. apply spec_nested, unary_ok, G. Qed.
Lemma spec_inner_assignment : spec 1 (nested (parse_assignment' g)).
Proof. apply spec_nested, assignment_ok, G. Qed.

Hint Resolve spec_parse_postfix spec_inner_unary spec_inner_assignment : spec.

Lemma spec_parse_prefix operator :
  spec_if (λ _ t, kind t ≠ TokenKind.Eof) 1 ok (parse_prefix g operator).
Proof. intros s t HA Ht Hk. unfold parse_prefix. wp_go. Qed.

Hint Resolve spec_parse_prefix : spec.

Lemma spec_parse_unary : spec 1 (parse_unary g).
Proof. intros s HA. unfold parse_unary. wp_go. Qed.

Lemma spec_parse_multiplicative : spec 1 (parse_multiplicative g).
Proof. apply spec_binary_level; [apply spec_parse_unary|eauto with spec]. Qed.
Lemma spec_parse_additive : spec 1 (parse_additive g).
Proof. apply spec_binary_level; [apply spec_parse_multiplicative|eauto with spec]. Qed.

Hint Resolve spec_parse_additive : spec.

Lemma spec_parse_range : spec 1 (parse_range g).
Proof. intros s HA. unfold parse_range. wp_go. Qed.

Lemma spec_parse_comparison : spec 1 (parse_comparison g).
Proof. apply spec_binary_level; [apply spec_parse_range|eauto with spec]. Qed.
Lemma spec_parse_equality : spec 1 (parse_equality g).
Proof. apply spec_binary_level; [apply spec_parse_comparison|eauto with spec]. Qed.
Lemma spec_parse_logical_and : spec 1 (parse_logical_and g).
Proof. apply spec_binary_level; [apply spec_parse_equality|eauto with spec]. Qed.
Lemma spec_parse_logical_or : spec 1 (parse_logical_or g).
Proof. apply spec_binary_level; [apply spec_parse_logical_and|eauto with spec]. Qed.

Hint Resolve spec_parse_logical_or : spec.

Lemma spec_parse_ternary : spec 1 (parse_ternary g).
Proof. intros s HA. unfold parse_ternary. wp_go. Qed.

Hint Resolve spec_parse_ternary : spec.

Lemma assign_to_ok f target value at_ e :
  assign_to target value at_ = Some e →
  ok f target = true → ok f value = true → ok f at_ = true → ok f e = true.
Proof.
  destruct target; simpl; try done; [destruct (strip_at name)|..];
    intros [= <-] Ht Hv Ha; checked.
Qed.

Lemma assign_to_total target value at_ :
  is_assignable target = true → assign_to target value at_ ≠ None.
Proof. destruct target; simpl; try done. by destruct (strip_at name). Qed.

Lemma spec_parse_assignment : spec 1 (parse_assignment g).
Proof.
  intros s HA. unfold parse_assignment. wp_go.
  - split; [reached|]. by eapply assign_to_ok.
  - exfalso. apply andb_true_iff in Heqb as [_ Ht]. by eapply assign_to_total.
Qed.
End rules.

#[export] Hint Resolve spec_parse_type spec_parse_expression spec_parse_arm_list spec_parse_block
  spec_parse_return_type spec_parse_parameter_list spec_span_from : spec.
