(* ===== verification/ItemProps.v ===== *)
(** * Declarations, blocks and programs meet their specification *)

From S2P Require Import Prelude Bytes Num Codes Token Ast AstProps Lexer LexerProps ParserState.
From S2P Require Import Lookahead Grammar ParserLogic GrammarProps HoleProps RulesProps.
Open Scope Z_scope.

(** What a later pass relies on in a block's statement: never a trap. *)
Definition local_item_ok (f : FileId) (i : Item Expression) : bool := negb (is_trap i) && ok f i.

(** The variants of a sum type with the spans of their payloads. *)
Definition variants_ok (f : FileId) (p : list SumVariant * list (list Span)) : bool :=
  forallb (variant_ok f) p.1
  && bool_decide (length ∘ variant_fields <$> p.1 = length <$> p.2) && ok f p.2.

Definition sum_methods_ok (f : FileId) (ms : list (MethodDeclaration Expression)) : bool :=
  ok f ms && forallb (λ m, negb (mutating m)) ms.

(** At most one payload type, and a span for each. *)
Definition payload_ok (f : FileId) (p : list Ty * list Span) : bool :=
  (length p.1 <=? 1)%nat && bool_decide (length p.1 = length p.2) && ok f p.

Section rules.
Context `{R : Recogniser} `{!RecogniserOk R} `{U : UnicodeCase}.
Variable n : nat.
Variable g : Grammar.
Hypothesis G : grammar_ok n g.
Local Abbreviation At := (Reached n).
Local Abbreviation spec_on := (spec_on n).
Local Abbreviation spec k m := (spec_on k ok m).
Local Abbreviation spec_if := (spec_if n).

Lemma spec_parse_body what : spec_on 1 block_ok (parse_body g what).
Proof. intros s HA. unfold parse_body. wp_go. split; [reached|]. by apply andb_true_iff. Qed.

Hint Resolve spec_parse_body : spec.

Lemma spec_parse_function_declaration name here binding exported :
  spec_if (λ f _, ok f binding = true) 1 local_item_ok
    (parse_function_declaration g name here binding exported).
Proof.
  intros s t HA Ht Hb. unfold parse_function_declaration. wp_go.
  split; [reached|]. unfold local_item_ok. checked.
Qed.

(** An operator's name is read off an operator's token. *)
Lemma wp_operator_symbol_name s0 k s Q :
  At s0 k s → Q None s →
  (∀ o t, tokens s !! pos s = Some t → kind t ≠ TokenKind.Eof → Q (Some o) s) →
  wp operator_symbol_name s Q.
Proof.
  intros HA HN HS. unfold operator_symbol_name. wp_step. wp_step. wp_step.
  destruct (kind t) eqn:Ek; try exact HN; eapply HS; (done || congruence).
Qed.

Lemma wp_operator_def_name s0 k s Q :
  At s0 k s → Q None s →
  (∀ o t, tokens s !! pos s = Some t → kind t ≠ TokenKind.Eof → Q (Some o) s) →
  wp operator_def_name s Q.
Proof.
  intros HA HN HS. unfold operator_def_name. wp_step.
  eapply wp_operator_symbol_name; [done| |intros o t Ht Hk]; wp_step; wp_step; wp_step; eauto.
Qed.

Lemma spec_parse_member_name : spec 1 parse_member_name.
Proof.
  intros s HA. unfold parse_member_name. wp_step; [wp_go|]. wp_step.
  eapply wp_operator_def_name; [done| |intros]; wp_go.
Qed.

Lemma spec_parse_method name mutating : spec 1 (parse_method g name mutating).
Proof. intros s HA. unfold parse_method. wp_go. Qed.

Hint Resolve spec_parse_function_declaration spec_parse_member_name spec_parse_method : spec.

Lemma spec_parse_member members :
  spec_if (λ f _, ok f members = true) 1 ok (parse_member g members).
Proof.
  intros s t HA Ht Hm. unfold parse_member. destruct members as [fields methods]. split_ok. wp_go.
Qed.

Hint Resolve spec_parse_member : spec.

Lemma spec_parse_member_block : spec 1 (parse_member_block g).
Proof. intros s HA. unfold parse_member_block. wp_go. Qed.

Hint Resolve spec_parse_member_block : spec.

Lemma spec_parse_type_declaration name here exported :
  spec_on 1 local_item_ok (parse_type_declaration g name here exported).
Proof.
  intros s HA. unfold parse_type_declaration. wp_go.
  split; [reached|]. unfold local_item_ok. checked.
Qed.

(** ** Sum types *)

Lemma ok_fst `{Checked A, Checked B} f (l : list (A * B)) : ok f l = true → ok f l.*1 = true.
Proof. apply ok_fmap. by intros [] [? ?]%ok_pair_inv. Qed.
Lemma ok_snd `{Checked A, Checked B} f (l : list (A * B)) : ok f l = true → ok f l.*2 = true.
Proof. apply ok_fmap. by intros [] [? ?]%ok_pair_inv. Qed.

Lemma spec_payload_type :
  spec 1 (here ← current_span; ty ← parse_type g; at_ ← span_from here; mret (ty, at_)).
Proof. intros s HA. wp_go. Qed.

Lemma spec_parse_payload variant : spec_on 0 payload_ok (parse_payload g variant).
Proof.
  pose proof spec_payload_type. intros s HA. unfold parse_payload. wp_go.
  split; [reached|]. unfold payload_ok. unbool. rewrite !andb_true_iff. split_and!.
  - apply Nat.leb_le. simpl. by rewrite length_fmap.
  - apply bool_decide_eq_true. simpl. by rewrite !length_fmap.
  - apply ok_pair; [by apply ok_fst|by apply ok_snd].
Qed.

Hint Resolve spec_parse_payload : spec.

Lemma variants_ok_snoc f vs sps name fields spans :
  variants_ok f (vs, sps) = true → payload_ok f (fields, spans) = true →
  variants_ok f (vs ++ [mkSumVariant name fields], sps ++ [spans]) = true.
Proof.
  unfold variants_ok, payload_ok. simpl. rewrite !andb_true_iff, !bool_decide_eq_true.
  intros [[Hv Hl] Hs] [[Hp He] [Ht Hsp]%ok_pair_inv]. split_and!.
  - rewrite forallb_app. simpl. rewrite Hv. unfold variant_ok. simpl. by rewrite Hp, Ht.
  - rewrite !fmap_app, Hl. simpl. by rewrite He.
  - by apply ok_snoc.
Qed.

Lemma spec_parse_variants :
  spec_on 0 (λ f p, (0 <? length p.1)%nat && variants_ok f p) (parse_variants g).
Proof.
  intros s HA. unfold parse_variants.
  eapply (wp_loop n _ (λ f p, variants_ok f p = true)
    (λ f p, (0 <? length p.1)%nat && variants_ok f p = true)); [done|done| |done].
  intros [vs sps] s1 HA1 Hv. wp_go.
  all: split; [reached|].
  all: match goal with H : payload_ok _ _ = true |- _ =>
         pose proof (variants_ok_snoc _ _ _ a _ _ Hv H) as Hok end.
  1: exact Hok.
  apply andb_true_iff. split; [|exact Hok]. simpl. rewrite length_app. simpl.
  apply Nat.ltb_lt. lia.
Qed.

Lemma spec_parse_sum_methods name : spec_on 0 sum_methods_ok (parse_sum_methods g name).
Proof.
  intros s HA. unfold parse_sum_methods. wp_go.
  split; [reached|]. unfold sum_methods_ok. apply andb_true_iff. split; [done|].
  apply forallb_forall. intros m Hm. apply negb_true_iff. by eapply List.find_none.
Qed.

Hint Resolve spec_parse_variants spec_parse_sum_methods spec_parse_type_declaration : spec.

Lemma spec_parse_sum_type_declaration name here exported :
  spec_on 0 local_item_ok (parse_sum_type_declaration g name here exported).
Proof.
  intros s HA. unfold parse_sum_type_declaration. wp_go.
  split; [reached|]. unfold local_item_ok, ok, item_checked. simpl.
  unfold variants_ok, sum_methods_ok in *. simpl in *. rewrite !andb_true_iff in *.
  destruct_and!. split_and!; done.
Qed.

(** ** Items *)

Lemma reads_classify_brace : reads n classify_brace.
Proof. intros s HA. unfold classify_brace. wp_go. Qed.

Lemma reads_is_function_ahead : reads n is_function_ahead.
Proof. intros s HA. unfold is_function_ahead. wp_go. Qed.

Lemma spec_parse_variable name here annotation mutable exported atomic :
  spec_if (λ f _, ok f annotation = true) 1 local_item_ok
    (parse_variable g name here annotation mutable exported atomic).
Proof.
  intros s t HA Ht Ha. unfold parse_variable. wp_go.
  split; [reached|]. unfold local_item_ok. checked.
Qed.

Hint Resolve reads_classify_brace reads_is_function_ahead spec_parse_variable
  spec_parse_sum_type_declaration : spec.

Lemma spec_parse_function_or_value name here annotation exported atomic :
  spec_if (λ f _, ok f annotation = true) 1 local_item_ok
    (parse_function_or_value g name here annotation exported atomic).
Proof. intros s t HA Ht Ha. unfold parse_function_or_value. wp_go; by split; [reached|]. Qed.

Hint Resolve spec_parse_function_or_value : spec.

Lemma spec_parse_immutable name here annotation exported atomic :
  spec_if (λ f _, ok f annotation = true) 0 local_item_ok
    (parse_immutable g name here annotation exported atomic).
Proof. intros s t HA Ht Ha. unfold parse_immutable. wp_go; by split; [reached|]. Qed.

Hint Resolve spec_parse_immutable : spec.

Lemma spec_exported :
  spec 0 (ifM check TokenKind.Export then advance;; mret true else mret false).
Proof. intros s HA. wp_go. Qed.

Lemma spec_parse_item : spec_on 1 local_item_ok (parse_item g).
Proof.
  intros s HA. unfold parse_item. wp_step. wp_step. wp_step.
  eapply wp_spec_on; [apply spec_exported|done|intros exported s1 H1 _]. wp_step.
  eapply wp_operator_def_name; [done| |intros]; wp_go; by split; [reached|].
Qed.

Hint Resolve spec_parse_item : spec.

(** ** Blocks *)

Lemma reads_at_binding : reads n at_binding.
Proof. intros s HA. unfold at_binding. wp_go. Qed.

Hint Resolve reads_at_binding : spec.

Lemma spec_parse_statement : spec 1 (parse_statement g).
Proof.
  intros s HA. unfold parse_statement. wp_go.
Qed.

Hint Resolve spec_parse_statement : spec.

Lemma spec_record_block_close body_start : spec 0 (record_block_close body_start).
Proof.
  intros s HA. unfold record_block_close. wp_step. wp_step. wp_step. wp_step. cbv zeta.
  wp_step; [|by wp_go]. apply wp_modify. split; [|done].
  eapply At_same; [exact HA|done..| | |]; by destruct HA.
Qed.

Hint Resolve spec_record_block_close : spec.

Lemma spec_parse_block_inner : spec_on 1 block_ok (parse_block_inner g).
Proof.
  intros s HA. unfold parse_block_inner. wp_go. split; [reached|]. by apply andb_true_iff; split; [|checked].
Qed.

(** ** Programs *)

Lemma reads_at_test_block : reads n at_test_block.
Proof. intros s HA. unfold at_test_block. wp_go. Qed.

Lemma spec_parse_import_path : spec 1 parse_import_path.
Proof.
  intros s HA. unfold parse_import_path. wp_step. wp_step.
  destruct (kind t) eqn:Ek; wp_go.
Qed.

Hint Resolve reads_at_test_block spec_parse_import_path : spec.

Lemma spec_parse_import : spec 1 parse_import.
Proof. intros s HA. unfold parse_import. wp_go. Qed.

Lemma spec_parse_trap_declaration : spec 1 (parse_trap_declaration g).
Proof. intros s HA. unfold parse_trap_declaration. wp_go. Qed.

Hint Resolve spec_parse_import spec_parse_trap_declaration : spec.

Lemma spec_parse_top_level acc :
  spec_if (λ f _, ok f acc = true) 1 ok (parse_top_level g acc).
Proof.
  intros s t HA Ht Ha. unfold parse_top_level. destruct acc as [[imports items] blocks].
  split_ok. wp_go. apply andb_true_iff in H5 as [_ Hi]. split; [reached|checked].
Qed.

Lemma spec_blaming {A} Pre k Φ (f : P A) : spec_if Pre k Φ f → spec_if Pre k Φ (blaming f).
Proof.
  intros Hf s t HA Ht HP. specialize (Hf s t HA Ht HP). unfold wp, blaming in *.
  destruct (f s) as [[a|[err| |]] s']; try done.
  - destruct Hf as [HA' Ha]. split; [|done]. case_bool_decide; [|done].
    eapply At_same; [exact HA'|done..| | |]; by destruct HA'.
  - unfold blame_early_block_close. by destruct (last_line_final_block_close s').
Qed.

Lemma spec_top_level_turn acc :
  spec_if (λ f _, ok f acc = true) 1 ok (blaming (parse_top_level g acc)).
Proof. apply spec_blaming, spec_parse_top_level. Qed.

Hint Resolve spec_top_level_turn : spec.

Lemma spec_parse_program : spec 0 (parse_program g).
Proof.
  intros s HA. unfold parse_program. wp_go.
  split; [reached|]. match goal with H : At s _ ?s' |- _ =>
    pose proof (at_file _ _ _ _ H) as Ef; pose proof (at_uses _ _ _ _ H) as Hu;
    pose proof (at_variants _ _ _ _ H) as Hv end.
  rewrite Ef in Hu, Hv. split_ok.
  cbv beta iota delta [ok program_checked imports items test_blocks Ast.type_name_uses
    Ast.variant_declarations].
  rewrite !andb_true_iff. by split_and!.
Qed.
End rules.

(** ** The knot *)

Section parse.
Context `{R : Recogniser} `{!RecogniserOk R} `{U : UnicodeCase}.

(** The rules tied on [n] units of fuel meet their specifications. *)
Lemma grammar_meets n : grammar_ok n (grammar n).
Proof.
  induction n as [|n IH]; [by split|].
  split; intros n' [= <-]; simpl; [by apply spec_parse_assignment|by apply spec_parse_unary
    |by apply spec_parse_type_inner|by apply spec_parse_pattern_inner
    |by apply spec_parse_block_inner].
Qed.

(** The state a parse starts in. *)
Lemma Reached_new toks f :
  ends_in_eof toks → Forall (λ t, Token.file (Token.span t) = f) toks →
  Reached (parse_fuel toks) (new toks) 0 (new toks) ∧ file (new toks) = f.
Proof.
  intros He Hf. destruct He as [(t&Hl&Hk) Htext].
  assert (file (new toks) = f) as Ef.
  { destruct Hf as [|x l Hx _]; [done|exact Hx]. }
  split; [|done]. split; try done; try (simpl; lia).
  - split; [by exists t|done].
  - simpl. destruct toks; [done|simpl; lia].
  - rewrite Ef. unfold ok, list_checked. apply forallb_forall.
    intros sp Hsp%list_elem_of_In%list_elem_of_fmap. destruct Hsp as (x&->&Hx).
    rewrite Forall_forall in Hf. unfold ok, span_checked. by apply Z.eqb_eq, Hf.
Qed.

(** What the parser answers on a lexed source. *)
Lemma parse_tokens_ok (source : list Z) (f : FileId) (toks : list Token)
    (H : tokenize_in_file source f = Ok toks) :
  match parse toks with
  | Ok program => ok f program = true
  | Err (Error _) => True
  | Err Panic | Err OutOfFuel => False
  end.
Proof.
  destruct (tokenize_stream _ _ _ H) as (He&_&Hf).
  destruct (Reached_new _ _ He Hf) as [HA Ef].
  pose proof (spec_parse_program _ _ (grammar_meets _) _ HA) as Hp.
  unfold parse, wp in *. destruct (parse_program _ _) as [[p|[]] s']; simpl; try done.
  rewrite <-Ef. apply Hp.
Qed.

End parse.

(** A program with an interpolation hole, a match and a member call. *)
Definition sample_program : list Z :=
  bs "Shape = Circle(Num) / Dot" ++ [10] ++
  bs "area = (s :: Shape) -> Text => < s ? | Circle(r) => " ++ [34] ++ bs "r is `r * 2`" ++ [34] ++
  bs " | Dot => unit.name(1, 2) >".

Definition sample_tokens : list Token :=
  match tokenize_in_file sample_program 3 with Ok toks => toks | Err _ => [] end.


Example parse_sample :
  match parse sample_tokens with Ok p => length (items p) = 2%nat | Err _ => False end.
Proof. by vm_compute. Qed.
