(* ===== verification/Http.v ===== *)
(** * HTTP body framing: [quilon-rt/src/http.rs]

    The byte-level work behind [core.http]: finding the blank line that ends a
    head, undoing chunked transfer coding, counting a [Content-Length], for a
    reply already in hand ([frame_body]) and for a request body still arriving
    ([body_progress]).  A slice is the list of its bytes; a header value reaches
    the framing code as the characters of its lossily decoded text. *)

From S2P Require Import Prelude Bytes Num.
Open Scope Z_scope.


(** ** The model *)

(** [deferred.rs]'s [QnResult]: a tag and a [Text] payload, given by its bytes. *)
Record QnResult : Type := { tag : Z; slot : list Z }.
Definition RESULT_OK_TAG : Z := 0.
Definition RESULT_NOTOK_TAG : Z := 1.
Definition ok (bytes : list Z) : QnResult := {| tag := RESULT_OK_TAG; slot := bytes |}.
Definition not_ok (message : list Z) : QnResult :=
  {| tag := RESULT_NOTOK_TAG; slot := message |}.

Definition CR : Z := 13.
Definition LF : Z := 10.
Definition CRLF : list Z := [CR; LF].

Definition BLANK_LINE_SPELLINGS : list (list Z) :=
  [[CR; LF; CR; LF]; [LF; LF]; [CR; LF; LF]; [LF; CR; LF]].

(** [Iterator::min_by_key(|&(at, _)| at)]: the first of the least. *)
Definition keep_least (best : option (nat * nat)) (x : nat * nat) : option (nat * nat) :=
  match best with
  | None => Some x
  | Some b => if (x.1 <? b.1)%nat then Some x else Some b
  end.
Definition min_by_at (found : list (nat * nat)) : option (nat * nat) :=
  fold_left keep_least found None.

Definition find_blank_line (raw : list Z) : option (nat * nat) :=
  min_by_at
    (omap (λ spelling, (λ at_, (at_, length spelling)) <$> find_subslice raw spelling)
       BLANK_LINE_SPELLINGS).

Definition is_chunked (transfer_encoding : list Z) : bool :=
  eq_ignore_ascii_case (trim (rsplit_next 44 transfer_encoding)) (bs "chunked").

Inductive BodyProgress : Type :=
| Complete (bytes : list Z)
| Incomplete
| TooLarge
| Malformed (reason : list Z).

Definition malformed_chunked : list Z := bs "malformed chunked framing".

(** The size line of a chunk: what precedes an optional [;extension], decoded as
    UTF-8, trimmed, read as hexadecimal; [None] is either decoding failure. *)
Definition chunk_size (size_field : list Z) : option Z :=
  let size_hex := match position 59 size_field with
                  | Some at_ => take at_ size_field
                  | None => size_field
                  end in
  size_text ← from_utf8 size_hex;
  from_str_radix 16 (trim size_text).

Definition checked_add (a b : Z) : option Z :=
  if usize_max <? a + b then None else Some (a + b).

(** One turn of the dechunking loop: an answer, or the data decoded so far and
    the bytes left. *)
Definition dechunk_step (decoded rest : list Z) (max_body_size : Z) :
    BodyProgress + (list Z * list Z) :=
  match find_subslice rest CRLF with
  | None => inl Incomplete
  | Some line_end =>
      match chunk_size (take line_end rest) with
      | None => inl (Malformed malformed_chunked)
      | Some size =>
          let rest := drop (line_end + 2) rest in
          if size =? 0 then inl (Complete decoded)
          else
            let over_cap := match checked_add (Z.of_nat (length decoded)) size with
                            | Some total => max_body_size <? total
                            | None => true
                            end in
            if over_cap then inl TooLarge
            else match checked_add size 2 with
                 | None => inl TooLarge
                 | Some chunk_and_terminator =>
                     if Z.of_nat (length rest) <? chunk_and_terminator then inl Incomplete
                     else if negb (bool_decide
                                (take 2 (drop (Z.to_nat size) rest) = CRLF))
                     then inl (Malformed malformed_chunked)
                     else inr (decoded ++ take (Z.to_nat size) rest,
                               drop (Z.to_nat chunk_and_terminator) rest)
                 end
      end
  end.

Fixpoint dechunk_loop (fuel : nat) (decoded rest : list Z) (max_body_size : Z) :
    option BodyProgress :=
  match fuel with
  | O => None
  | S fuel' =>
      match dechunk_step decoded rest max_body_size with
      | inl answer => Some answer
      | inr (decoded', rest') => dechunk_loop fuel' decoded' rest' max_body_size
      end
  end.

(** Every turn that goes on drops at least five bytes, so one more turn than
    there are bytes is never used up ([dechunk_loop_total]). *)
Definition dechunk_progress (body : list Z) (max_body_size : Z) : BodyProgress :=
  default Incomplete (dechunk_loop (S (length body)) [] body max_body_size).

Definition dechunk (body : list Z) : result (list Z) (list Z) :=
  match dechunk_progress body usize_max with
  | Complete decoded => Ok decoded
  | Incomplete | TooLarge => Err malformed_chunked
  | Malformed reason => Err reason
  end.

(** [content_length.trim().parse::<usize>()]. *)
Definition parse_content_length (content_length : list Z) : option Z :=
  from_str_radix 10 (trim content_length).

Definition frame_body (raw : list Z) (bodiless : bool)
    (transfer_encoding content_length : list Z) : QnResult :=
  match find_blank_line raw with
  | None => ok []
  | Some (at_, spelling_len) =>
      let body := drop (at_ + spelling_len) raw in
      if bodiless then ok []
      else if is_chunked transfer_encoding then
        match dechunk body with
        | Ok decoded => ok decoded
        | Err reason => not_ok reason
        end
      else if negb (bool_decide (content_length = [])) then
        match parse_content_length content_length with
        | Some expected =>
            if expected <=? Z.of_nat (length body)
            then ok (take (Z.to_nat expected) body)
            else not_ok (bs "truncated body: expected " ++ render 10 expected
                         ++ bs " bytes, got " ++ render 10 (Z.of_nat (length body)))
        | None => not_ok (bs "malformed Content-Length")
        end
      else ok body
  end.

Definition body_progress (raw transfer_encoding content_length : list Z)
    (max_body_size : Z) : BodyProgress :=
  match find_blank_line raw with
  | None => Incomplete
  | Some (at_, spelling_len) =>
      let body := drop (at_ + spelling_len) raw in
      if is_chunked transfer_encoding then dechunk_progress body max_body_size
      else if negb (bool_decide (transfer_encoding = []))
      then Malformed (bs "unsupported Transfer-Encoding")
      else match parse_content_length content_length with
           | Some expected =>
               if max_body_size <? expected then TooLarge
               else if expected <=? Z.of_nat (length body)
               then Complete (take (Z.to_nat expected) body)
               else Incomplete
           | None => Malformed (bs "malformed Content-Length")
           end
  end.

(** The two intrinsics.  A [Text] argument is given by its bytes; the header
    values are decoded lossily ([text_of]), the body stays bytes. *)
Definition text_of (data : list Z) : list Z := from_utf8_lossy data.

Definition http_body_progress (raw transfer_encoding content_length : list Z)
    (max_body_size : f64) : QnResult :=
  match body_progress raw (text_of transfer_encoding) (text_of content_length)
          (as_usize max_body_size) with
  | Complete bytes => ok bytes
  | Incomplete => not_ok (bs "incomplete")
  | TooLarge => not_ok (bs "too large")
  | Malformed reason => not_ok reason
  end.

Definition http_frame_body (raw : list Z) (bodiless : Z)
    (transfer_encoding content_length : list Z) : QnResult :=
  frame_body raw (negb (bodiless =? 0)) (text_of transfer_encoding) (text_of content_length).

(** ** Specifications: the loop without fuel, blank lines, a reference encoder *)

(** The answer from any point of the loop, free of fuel. *)
Definition dechunk_from (decoded rest : list Z) (cap : Z) : BodyProgress :=
  default Incomplete (dechunk_loop (S (length rest)) decoded rest cap).

(** [blank raw at spelling]: a blank line spelled [spelling] starts at [at]. *)
Definition blank (raw : list Z) (at_ : nat) (spelling : list Z) : Prop :=
  spelling ∈ BLANK_LINE_SPELLINGS ∧ spelling `prefix_of` drop at_ raw.

(** A chunk as a sender writes it: a size line (hexadecimal, possibly padded,
    possibly with an extension) and its data. *)
Definition chunk_ok (chunk : list Z * list Z) : Prop :=
  CR ∉ chunk.1 ∧ chunk_size chunk.1 = Some (Z.of_nat (length chunk.2)) ∧ chunk.2 ≠ [].

Definition encode_chunk (chunk : list Z * list Z) : list Z :=
  chunk.1 ++ CRLF ++ chunk.2 ++ CRLF.

Definition wire (chunks : list (list Z * list Z)) (last_line trailer : list Z) : list Z :=
  concat (encode_chunk <$> chunks) ++ last_line ++ CRLF ++ trailer.

Definition payload (chunks : list (list Z * list Z)) : list Z := concat (snd <$> chunks).

(** A chunk written the plain way, its length in hexadecimal. *)
Definition plain_chunk (data : list Z) : list Z * list Z :=
  (render 16 (Z.of_nat (length data)), data).

(** ** The dechunking loop terminates *)

Lemma chunk_size_bound line n : chunk_size line = Some n → 0 <= n <= usize_max.
Proof.
  unfold chunk_size. intros (?&_&H)%bind_Some. by eapply from_str_radix_bound in H.
Qed.

Lemma checked_add_Some a b c : checked_add a b = Some c ↔ c = a + b ∧ a + b <= usize_max.
Proof. unfold checked_add. case_match; unbool; split; [done|lia|naive_solver|]. by intros [-> ?]. Qed.

(** What a turn that goes on has read: a size line, that many bytes of data and
    the terminator, all in hand. *)
Lemma dechunk_step_inr decoded rest cap decoded' rest' :
  dechunk_step decoded rest cap = inr (decoded', rest') ↔
  ∃ line_end size,
    find_subslice rest CRLF = Some line_end ∧
    chunk_size (take line_end rest) = Some size ∧ 0 < size ∧
    Z.of_nat (length decoded) + size <= Z.min cap usize_max ∧ size + 2 <= usize_max ∧
    (line_end + 2 + Z.to_nat size + 2 ≤ length rest)%nat ∧
    take 2 (drop (line_end + 2 + Z.to_nat size) rest) = CRLF ∧
    decoded' = decoded ++ take (Z.to_nat size) (drop (line_end + 2) rest) ∧
    rest' = drop (line_end + 2 + Z.to_nat size + 2) rest.
Proof.
  unfold dechunk_step. split.
  - intros H. destruct (find_subslice rest CRLF) as [line_end|] eqn:Hl; [|done].
    destruct (chunk_size _) as [size|] eqn:Hs; [|done].
    pose proof (chunk_size_bound _ _ Hs). apply find_subslice_bound in Hl as Hb. simpl in Hb.
    destruct (size =? 0) eqn:?; [done|]. unbool.
    destruct (checked_add _ size) as [total|] eqn:Ht; [|done].
    apply checked_add_Some in Ht as [-> ?].
    destruct (cap <? _) eqn:?; [done|].
    destruct (checked_add size 2) as [cat|] eqn:Hc; [|done].
    apply checked_add_Some in Hc as [-> ?].
    destruct (_ <? size + 2) eqn:?; [done|]. case_bool_decide; [|done]. simpl in *.
    unbool. rewrite length_drop in *. simplify_eq.
    exists line_end, size. rewrite !drop_drop in *.
    rewrite Z2Nat.inj_add by lia. change (Z.to_nat 2) with 2%nat.
    split_and!; try done; try lia. f_equal. lia.
  - intros (line_end&size&->&->&?&?&?&?&Hcr&->&->). 
    rewrite (proj2 (Z.eqb_neq size 0)) by lia.
    rewrite (proj2 (checked_add_Some _ size _)) by (split; [done|lia]).
    rewrite (proj2 (Z.ltb_ge cap _)) by lia.
    rewrite (proj2 (checked_add_Some size 2 _)) by (split; [done|lia]).
    rewrite (proj2 (Z.ltb_ge _ (size + 2))) by (rewrite length_drop; lia).
    rewrite !drop_drop, bool_decide_true by done. simpl.
    rewrite Z2Nat.inj_add by lia. do 3 f_equal. lia.
Qed.

Lemma dechunk_step_shrinks decoded rest cap decoded' rest' :
  dechunk_step decoded rest cap = inr (decoded', rest') → (length rest' + 5 ≤ length rest)%nat.
Proof.
  intros (?&?&_&_&?&_&_&?&_&_&->)%dechunk_step_inr. rewrite length_drop. lia.
Qed.

Lemma dechunk_loop_total fuel decoded rest cap :
  (length rest < fuel)%nat → ∃ answer, dechunk_loop fuel decoded rest cap = Some answer.
Proof.
  revert decoded rest. induction fuel as [|fuel IH]; intros decoded rest Hf; [lia|]. simpl.
  destruct (dechunk_step decoded rest cap) as [a|[d r]] eqn:E; [by eexists|].
  apply IH. apply dechunk_step_shrinks in E. lia.
Qed.

Lemma dechunk_loop_mono fuel fuel' decoded rest cap answer :
  dechunk_loop fuel decoded rest cap = Some answer → (fuel ≤ fuel')%nat →
  dechunk_loop fuel' decoded rest cap = Some answer.
Proof.
  revert fuel' decoded rest.
  induction fuel as [|fuel IH]; intros [|fuel'] decoded rest H ?; [done|done|lia|].
  simpl in *. destruct (dechunk_step decoded rest cap) as [a|[d r]]; [done|].
  apply IH; [done|lia].
Qed.

Lemma dechunk_from_step decoded rest cap :
  dechunk_from decoded rest cap =
  match dechunk_step decoded rest cap with
  | inl answer => answer
  | inr (decoded', rest') => dechunk_from decoded' rest' cap
  end.
Proof.
  unfold dechunk_from at 1. cbn [dechunk_loop].
  destruct (dechunk_step decoded rest cap) as [a|[d r]] eqn:E; [done|].
  apply dechunk_step_shrinks in E. unfold dechunk_from.
  destruct (dechunk_loop_total (S (length r)) d r cap) as [a Ha]; [lia|].
  rewrite Ha. by rewrite (dechunk_loop_mono _ (length rest) _ _ _ _ Ha) by lia.
Qed.

(** Induction along the turns of the loop. *)
Lemma dechunk_ind (P : list Z → list Z → Prop) cap :
  (∀ decoded rest,
     (∀ decoded' rest', dechunk_step decoded rest cap = inr (decoded', rest') → P decoded' rest') →
     P decoded rest) →
  ∀ decoded rest, P decoded rest.
Proof.
  intros HP decoded rest. remember (length rest) as n eqn:Hn. revert decoded rest Hn.
  induction n as [n IH] using lt_wf_ind. intros decoded rest ->. apply HP.
  intros d r E%dechunk_step_shrinks. eapply IH; [|done]. lia.
Qed.

(** ** Answers do not change when more bytes arrive *)

Lemma dechunk_step_app decoded rest more cap :
  (∀ d r, dechunk_step decoded rest cap = inr (d, r) →
          dechunk_step decoded (rest ++ more) cap = inr (d, r ++ more)) ∧
  (∀ a, dechunk_step decoded rest cap = inl a → a ≠ Incomplete →
        dechunk_step decoded (rest ++ more) cap = inl a).
Proof.
  split.
  - intros d r (l&size&Hl&Hs&?&?&?&Hlen&Hcr&->&->)%dechunk_step_inr.
    apply find_subslice_bound in Hl as Hb. simpl in Hb.
    apply dechunk_step_inr. exists l, size. rewrite length_app.
    rewrite take_app_le, !drop_app_le, !take_app_le by (rewrite ?length_drop; lia).
    split_and!; try done; [by apply find_subslice_app|lia].
  - intros a. unfold dechunk_step.
    destruct (find_subslice rest CRLF) as [l|] eqn:Hl; [|naive_solver].
    apply find_subslice_bound in Hl as Hb. simpl in Hb.
    rewrite (find_subslice_app _ more _ _ Hl) by done.
    rewrite take_app_le, drop_app_le by lia.
    destruct (chunk_size _) as [size|] eqn:Hs; [|done]. apply chunk_size_bound in Hs.
    destruct (size =? 0) eqn:?; [done|].
    destruct (checked_add _ size) as [total|]; [|done].
    destruct (cap <? _); [done|].
    destruct (checked_add size 2) as [cat|] eqn:Hc; [|done].
    apply checked_add_Some in Hc as [-> ?].
    destruct (_ <? size + 2) eqn:Hlen; [naive_solver|]. unbool.
    rewrite length_app.
    rewrite (proj2 (Z.ltb_ge (Z.of_nat _) (size + 2))) by lia.
    rewrite length_drop in Hlen.
    rewrite drop_app_le, take_app_le by (rewrite ?length_drop; lia).
    by case_bool_decide.
Qed.

Lemma dechunk_from_app cap more decoded rest :
  dechunk_from decoded rest cap ≠ Incomplete →
  dechunk_from decoded (rest ++ more) cap = dechunk_from decoded rest cap.
Proof.
  revert decoded rest. refine (dechunk_ind _ cap _). intros decoded rest IH H.
  rewrite dechunk_from_step in H. rewrite !(dechunk_from_step decoded).
  destruct (dechunk_step_app decoded rest more cap) as [Hr Hl].
  destruct (dechunk_step decoded rest cap) as [a|[d r]] eqn:E.
  - by rewrite (Hl a).
  - rewrite (Hr d r) by done. by apply IH.
Qed.

Lemma dechunk_progress_app cap more body :
  dechunk_progress body cap ≠ Incomplete →
  dechunk_progress (body ++ more) cap = dechunk_progress body cap.
Proof. apply dechunk_from_app. Qed.

(** ** The blank line *)

Lemma keep_least_fold found best :
  ∃ x, fold_left keep_least found (Some best) = Some x ∧
    (x = best ∨ x ∈ found) ∧ (x.1 ≤ best.1)%nat ∧ ∀ y, y ∈ found → (x.1 ≤ y.1)%nat.
Proof.
  revert best. induction found as [|z found IH]; intros best; simpl.
  - exists best. split_and!; [done|by left|done|]. by intros ? ?%elem_of_nil.
  - destruct (z.1 <? best.1)%nat eqn:E; unbool.
    + destruct (IH z) as (x&Hx&Hin&?&Hle). exists x. split_and!; [done|set_solver|lia|].
      intros y [->|?]%elem_of_cons; auto.
    + destruct (IH best) as (x&Hx&Hin&?&Hle). exists x. split_and!; [done|set_solver|lia|].
      intros y [->|?]%elem_of_cons; [lia|auto].
Qed.

Lemma min_by_at_Some found x :
  min_by_at found = Some x → x ∈ found ∧ ∀ y, y ∈ found → (x.1 ≤ y.1)%nat.
Proof.
  destruct found as [|z found]; [done|]. unfold min_by_at. simpl. intros H.
  destruct (keep_least_fold found z) as (x'&Hx&Hin&?&Hle). simplify_eq.
  split; [set_solver|]. intros y [->|?]%elem_of_cons; auto.
Qed.

Lemma min_by_at_None found : min_by_at found = None → found = [].
Proof.
  destruct found as [|z found]; [done|]. unfold min_by_at. simpl. intros H.
  destruct (keep_least_fold found z) as (x'&Hx&_). by simplify_eq.
Qed.

Lemma blank_bound raw at_ spelling :
  blank raw at_ spelling → (at_ + length spelling ≤ length raw ∧ 2 ≤ length spelling ≤ 4)%nat.
Proof.
  intros [Hs Hp]. apply prefix_length in Hp. rewrite length_drop in Hp.
  unfold BLANK_LINE_SPELLINGS in Hs. set_unfold in Hs.
  destruct_or! Hs; subst; simpl in *; lia.
Qed.

(** At most one spelling starts at any one place. *)
Lemma blank_unique raw at_ s1 s2 : blank raw at_ s1 → blank raw at_ s2 → s1 = s2.
Proof.
  intros [H1 [k1 E1]] [H2 [k2 E2]]. rewrite E1 in E2.
  unfold BLANK_LINE_SPELLINGS in *. set_unfold.
  destruct_or! H1; destruct_or! H2; subst; simplify_eq/=; done.
Qed.

Lemma find_blank_line_Some raw at_ len :
  find_blank_line raw = Some (at_, len) ↔
  ∃ spelling, len = length spelling ∧ blank raw at_ spelling ∧
    ∀ j s, blank raw j s → (at_ ≤ j)%nat.
Proof.
  assert (∀ a l, (a, l) ∈ omap (λ s, (λ i, (i, length s)) <$> find_subslice raw s)
                      BLANK_LINE_SPELLINGS →
                 ∃ s, l = length s ∧ blank raw a s) as Hin.
  { intros a l (s&Hs&(i&Hi&[= -> ->])%fmap_Some)%list_elem_of_omap.
    exists s. split; [done|]. split; [done|].
    by apply find_subslice_Some in Hi as [? _]. }
  assert (∀ j s, blank raw j s → ∃ i, (i ≤ j)%nat ∧
                 (i, length s) ∈ omap (λ s, (λ i, (i, length s)) <$> find_subslice raw s)
                      BLANK_LINE_SPELLINGS) as Hout.
  { intros j s [Hs Hp]. destruct (find_subslice raw s) as [i|] eqn:E.
    - exists i. split.
      + apply find_subslice_Some in E as (_&_&Hj).
        destruct (decide (i ≤ j)%nat); [done|]. exfalso. eapply Hj; [|done]. lia.
      + apply list_elem_of_omap. exists s. by rewrite E.
    - exfalso. eapply find_subslice_None; [done| |done].
      destruct (decide (j ≤ length raw)%nat); [done|].
      rewrite drop_ge in Hp by lia. apply prefix_nil_inv in Hp. subst.
      unfold BLANK_LINE_SPELLINGS in Hs. set_unfold in Hs. naive_solver. }
  unfold find_blank_line. split.
  - intros [Hx Hle]%min_by_at_Some. apply Hin in Hx as (s&->&Hb).
    exists s. split_and!; [done|done|]. intros j s' Hb'.
    destruct (Hout j s' Hb') as (i&?&Hi). apply Hle in Hi. simpl in Hi. lia.
  - intros (s&->&Hb&Hmin). destruct (min_by_at _) as [[a l]|] eqn:E.
    + apply min_by_at_Some in E as [Hx Hle]. apply Hin in Hx as (s'&->&Hb').
      assert (a = at_) as ->.
      { apply Hmin in Hb' as ?. destruct (Hout at_ s Hb) as (i&?&Hi).
        apply Hle in Hi. simpl in Hi. lia. }
      by rewrite (blank_unique raw at_ s s').
    + apply min_by_at_None in E. destruct (Hout at_ s Hb) as (i&?&Hi).
      rewrite E in Hi. by apply elem_of_nil in Hi.
Qed.

Lemma blank_app raw more at_ s : blank raw at_ s → blank (raw ++ more) at_ s.
Proof.
  intros Hb. pose proof (blank_bound _ _ _ Hb). destruct Hb as [Hs Hp]. split; [done|].
  rewrite drop_app_le by lia. by apply prefix_app_r.
Qed.

(** No blank line of [raw ++ more] starts before the first one of [raw]: the
    only spelling long enough to straddle the end and start earlier is
    CR LF CR LF, and it would have to cover an LF LF. *)
Lemma blank_app_inv raw more at_ s j s' :
  blank raw at_ s → blank (raw ++ more) j s' → (j < at_)%nat → blank raw j s'.
Proof.
  intros Hb Hb' Hlt. pose proof (blank_bound _ _ _ Hb) as [Hl ?].
  pose proof (blank_bound _ _ _ Hb') as [_ ?].
  destruct Hb as [Hs [k Hk]], Hb' as [Hs' Hp']. split; [done|].
  rewrite drop_app_le in Hp' by lia.
  destruct (decide (length s' ≤ length (drop j raw))%nat) as [|Hlong];
    [by eapply prefix_app_short|exfalso].
  assert (drop j raw = take (at_ - j) (drop j raw) ++ s ++ k) as Hd.
  { rewrite <-Hk. replace at_ with (j + (at_ - j))%nat at 2 by lia.
    by rewrite <-drop_drop, take_drop. }
  assert (length (take (at_ - j) (drop j raw)) = (at_ - j)%nat) as Hlen.
  { rewrite length_take, length_drop. lia. }
  generalize dependent (take (at_ - j) (drop j raw)). intros pre Hd Hlen.
  rewrite Hd, !length_app in Hlong. rewrite Hd in Hp'.
  destruct pre as [|c [|c' pre]], k; simpl in *; try lia.
  destruct Hp' as [k' Hk']. unfold BLANK_LINE_SPELLINGS in *.
  set_unfold in Hs. set_unfold in Hs'.
  destruct_or! Hs; destruct_or! Hs'; subst; simplify_eq/=; lia.
Qed.

Lemma find_blank_line_app raw more at_len :
  find_blank_line raw = Some at_len → find_blank_line (raw ++ more) = Some at_len.
Proof.
  destruct at_len as [a l]. rewrite !find_blank_line_Some. intros (s&->&Hb&Hmin).
  exists s. split_and!; [done|by apply blank_app|]. intros j s' Hb'.
  destruct (decide (a ≤ j)%nat); [done|].
  eapply Hmin, blank_app_inv; [exact Hb|done|lia].
Qed.

Lemma find_blank_line_bound raw at_ len :
  find_blank_line raw = Some (at_, len) → (at_ + len ≤ length raw)%nat.
Proof. intros (s&->&Hb&_)%find_blank_line_Some. apply blank_bound in Hb. lia. Qed.

(** ** The round trip *)

Lemma wire_cons chunk chunks last_line trailer :
  wire (chunk :: chunks) last_line trailer = encode_chunk chunk ++ wire chunks last_line trailer.
Proof. unfold wire. by rewrite fmap_cons, concat_cons, <-app_assoc. Qed.

Lemma payload_cons chunk chunks : payload (chunk :: chunks) = chunk.2 ++ payload chunks.
Proof. done. Qed.

Lemma dechunk_from_last decoded last_line trailer cap :
  CR ∉ last_line → chunk_size last_line = Some 0 →
  dechunk_from decoded (last_line ++ CRLF ++ trailer) cap = Complete decoded.
Proof.
  intros Hcr Hs. rewrite dechunk_from_step. unfold dechunk_step.
  rewrite (find_subslice_line _ CRLF _ CR) by done.
  by rewrite take_app_length, Hs.
Qed.

Lemma dechunk_from_chunk decoded chunk rest cap :
  chunk_ok chunk → Z.of_nat (length chunk.2) + 2 <= usize_max → cap <= usize_max →
  dechunk_from decoded (encode_chunk chunk ++ rest) cap =
  if bool_decide (Z.of_nat (length decoded + length chunk.2) <= cap)
  then dechunk_from (decoded ++ chunk.2) rest cap else TooLarge.
Proof.
  destruct chunk as [line data]. intros (Hcr&Hs&Hd) Hmax Hcap.
  unfold encode_chunk. cbn [fst snd] in *.
  assert (0 < length data)%nat by (destruct data; simpl; [done|lia]).
  rewrite <-!app_assoc.
  pose proof (find_subslice_line line CRLF (data ++ CRLF ++ rest) CR eq_refl Hcr) as Hfind.
  assert (Hd1 : drop (length line + 2) (line ++ CRLF ++ data ++ CRLF ++ rest)
                = data ++ CRLF ++ rest) by by rewrite drop_app_add.
  assert (Hd2 : drop (length line + 2 + length data) (line ++ CRLF ++ data ++ CRLF ++ rest)
                = CRLF ++ rest) by by rewrite <-drop_drop, Hd1, drop_app_length.
  assert (Hd3 : drop (length line + 2 + length data + 2)
                  (line ++ CRLF ++ data ++ CRLF ++ rest)
                = rest) by by rewrite <-drop_drop, Hd2, drop_app_length'.
  rewrite dechunk_from_step. case_bool_decide as Hc.
  - erewrite (proj2 (dechunk_step_inr _ _ _ (decoded ++ data) rest)); [done|].
    exists (length line), (Z.of_nat (length data)).
    rewrite Nat2Z.id, Hd3, Hd2, Hd1.
    rewrite !length_app, !take_app_length. change (length CRLF) with 2%nat.
    split_and!; try done; lia.
  - unfold dechunk_step. rewrite Hfind, take_app_length, Hs.
    rewrite (proj2 (Z.eqb_neq _ 0)) by lia.
    destruct (checked_add _ (Z.of_nat (length data))) as [t|] eqn:E; [|done].
    apply checked_add_Some in E as [-> ?].
    by rewrite (proj2 (Z.ltb_lt cap _)) by lia.
Qed.

Lemma dechunk_from_wire chunks decoded last_line trailer cap :
  Forall chunk_ok chunks → CR ∉ last_line → chunk_size last_line = Some 0 →
  Z.of_nat (length decoded + length (payload chunks)) + 2 <= usize_max →
  Z.of_nat (length decoded) <= cap <= usize_max →
  dechunk_from decoded (wire chunks last_line trailer) cap =
  if bool_decide (Z.of_nat (length decoded + length (payload chunks)) <= cap)
  then Complete (decoded ++ payload chunks) else TooLarge.
Proof.
  intros Hok Hcr Hs. revert decoded.
  induction Hok as [|chunk chunks Hc _ IH]; intros decoded.
  - change (payload []) with (@nil Z). rewrite app_nil_r, Nat.add_0_r. intros _ ?.
    rewrite bool_decide_true by lia. by apply dechunk_from_last.
  - rewrite wire_cons, payload_cons, length_app. intros Hmax Hcap.
    rewrite dechunk_from_chunk by (done || lia).
    case_bool_decide as Hle.
    + rewrite IH, length_app, <-app_assoc by (rewrite ?length_app; lia).
      by rewrite Nat.add_assoc.
    + by rewrite bool_decide_false by lia.
Qed.

Lemma render_plain radix n :
  2 <= radix <= 36 → 0 <= n <= usize_max →
  Forall (λ c, 48 <= c <= 122 ∧ c ≠ 59) (render radix n).
Proof. intros Hr Hn. apply render_fuel_chars; [done|]. apply render_bound; lia. Qed.

Lemma plain_chunk_ok data :
  data ≠ [] → Z.of_nat (length data) <= usize_max → chunk_ok (plain_chunk data).
Proof.
  intros Hd Hmax. pose proof (render_plain 16 (Z.of_nat (length data))) as Hc.
  specialize (Hc ltac:(lia) ltac:(lia)). rewrite Forall_forall in Hc.
  unfold chunk_ok, plain_chunk, chunk_size. simpl. split_and!; [|  |done].
  - intros ?%Hc. unfold CR in *. lia.
  - rewrite position_None by (intros ?%Hc; lia).
    rewrite from_utf8_ascii by (apply Forall_forall; intros ? ?%Hc; lia). simpl.
    rewrite trim_id; [apply from_str_radix_render; lia|].
    apply Forall_forall. intros c [? ?]%Hc. unfold is_whitespace, in_range.
    repeat (apply orb_false_iff; split); try (apply Z.eqb_neq; lia);
      apply andb_false_iff; [right|left]; apply Z.leb_gt; lia.
Qed.

(** ** Properties *)

Lemma dechunk_from_cap decoded rest cap :
  Z.of_nat (length decoded) <= cap → ∀ bytes,
  dechunk_from decoded rest cap = Complete bytes → Z.of_nat (length bytes) <= cap.
Proof.
  revert decoded rest. refine (dechunk_ind _ cap _). intros decoded rest IH Hd bytes.
  rewrite dechunk_from_step. destruct (dechunk_step decoded rest cap) as [a|[d r]] eqn:E.
  - intros ->. unfold dechunk_step in E. break; naive_solver.
  - apply IH; [done|].
    apply dechunk_step_inr in E as (l&size&_&_&?&?&_&?&_&->&_).
    rewrite length_app, length_take, length_drop. lia.
Qed.

(** A bigger cap changes no complete answer. *)
Lemma dechunk_from_Complete_mono cap cap' decoded rest bytes :
  cap <= cap' → dechunk_from decoded rest cap = Complete bytes →
  dechunk_from decoded rest cap' = Complete bytes.
Proof.
  intros Hcap. revert decoded rest. refine (dechunk_ind _ cap _). intros decoded rest IH.
  rewrite !(dechunk_from_step decoded).
  destruct (dechunk_step decoded rest cap) as [a|[d r]] eqn:E.
  - intros ->. assert (dechunk_step decoded rest cap' = inl (Complete bytes)) as ->; [|done].
    unfold dechunk_step in *. break; try done.
  - apply dechunk_step_inr in E as E'. destruct E' as (l&size&?&?&?&?&?&?&?&?&?).
    rewrite (proj2 (dechunk_step_inr decoded rest cap' d r)).
    + by apply IH.
    + exists l, size. split_and!; try done; lia.
Qed.

(** The framing of a request body does not depend on how its bytes arrive:
    an answer other than [Incomplete] given on the bytes received so far is the
    answer for every continuation of them. *)
Theorem body_progress_stable raw more te cl cap :
  body_progress raw te cl cap ≠ Incomplete →
  body_progress (raw ++ more) te cl cap = body_progress raw te cl cap.
Proof.
  unfold body_progress. destruct (find_blank_line raw) as [[a l]|] eqn:E; [|done].
  apply find_blank_line_bound in E as Hb.
  rewrite (find_blank_line_app _ _ _ E), drop_app_le by done.
  destruct (is_chunked te); [apply dechunk_progress_app|].
  case_bool_decide; [|done]. simpl.
  destruct (parse_content_length cl) as [n|]; [|done].
  destruct (cap <? n); [done|]. destruct (n <=? _) eqn:Hn; [|done]. unbool. intros _.
  rewrite (proj2 (Z.leb_le n _)) by (rewrite length_app; lia).
  by rewrite take_app_le by lia.
Qed.

(** C40: dechunking undoes chunked transfer coding: whatever the sizes' spelling
    (padding, case, extensions), the chunks' data come back concatenated, unless
    their total passes the cap, which is reported as such. *)
Theorem dechunk_progress_wire chunks last_line trailer cap :
  Forall chunk_ok chunks → CR ∉ last_line → chunk_size last_line = Some 0 →
  Z.of_nat (length (payload chunks)) + 2 <= usize_max → 0 <= cap <= usize_max →
  dechunk_progress (wire chunks last_line trailer) cap =
  if bool_decide (Z.of_nat (length (payload chunks)) <= cap)
  then Complete (payload chunks) else TooLarge.
Proof. intros. by apply (dechunk_from_wire chunks []). Qed.

(** The two framers agree: a request body [body_progress] calls complete is
    the body [frame_body] cuts from the same bytes and headers. *)
Theorem frame_body_agrees raw te cl cap bytes :
  cap <= usize_max → body_progress raw te cl cap = Complete bytes →
  frame_body raw false te cl = ok bytes.
Proof.
  intros Hcap. unfold body_progress, frame_body.
  destruct (find_blank_line raw) as [[a l]|]; [|done].
  destruct (is_chunked te).
  - unfold dechunk. intros H.
    assert (dechunk_progress (drop (a + l) raw) usize_max = Complete bytes) as ->; [|done].
    by apply (dechunk_from_Complete_mono cap usize_max []).
  - case_bool_decide; [|done]. simpl. case_bool_decide; [by subst|]. simpl.
    destruct (parse_content_length cl) as [n|]; [|done].
    destruct (cap <? n); [done|]. destruct (n <=? _); [|done]. naive_solver.
Qed.

(** No complete body is larger than the server's cap. *)
Theorem body_progress_cap raw te cl cap bytes :
  0 <= cap → body_progress raw te cl cap = Complete bytes → Z.of_nat (length bytes) <= cap.
Proof.
  intros Hcap. unfold body_progress. destruct (find_blank_line raw) as [[a l]|]; [|done].
  destruct (is_chunked te); [by apply dechunk_from_cap|].
  case_bool_decide; [|done]. simpl. destruct (parse_content_length cl) as [n|] eqn:E; [|done].
  apply from_str_radix_bound in E; [|lia].
  destruct (cap <? n) eqn:?; [done|]. destruct (n <=? _) eqn:?; [|done]. unbool.
  intros [= <-]. rewrite length_take. lia.
Qed.

(** The dechunking loop always answers: one more turn than there are bytes
    is enough, and no larger number of turns changes the answer. *)
Theorem dechunk_terminates fuel body cap :
  (length body < fuel)%nat → dechunk_loop fuel [] body cap = Some (dechunk_progress body cap).
Proof.
  intros Hf. destruct (dechunk_loop_total (S (length body)) [] body cap) as [a Ha]; [lia|].
  unfold dechunk_progress. rewrite Ha. by eapply dechunk_loop_mono.
Qed.

(** *** Witnesses *)

Definition sample_head : list Z := bs "POST / HTTP/1.1" ++ CRLF ++ CRLF.
Definition sample_chunks : list (list Z * list Z) :=
  [(bs " 3;x=1", bs "abc"); (bs "02", bs "de")].
Definition sample_body : list Z := wire sample_chunks (bs "0") (bs "T: v").

Lemma body_progress_stable_witness :
  body_progress (sample_head ++ sample_body) (bs "chunked") [] 10 ≠ Incomplete ∧
  body_progress ((sample_head ++ sample_body) ++ bs "more") (bs "chunked") [] 10
  = Complete (bs "abcde").
Proof.
  split; [by vm_compute|].
  rewrite (body_progress_stable (sample_head ++ sample_body) (bs "more")); by vm_compute.
Defined.

Lemma sample_chunks_ok : Forall chunk_ok sample_chunks.
Proof. repeat constructor; compute_done. Qed.

Lemma dechunk_progress_wire_witness :
  Forall chunk_ok sample_chunks ∧
  dechunk_progress (wire sample_chunks (bs "0") (bs "T: v")) 5 = Complete (bs "abcde") ∧
  dechunk_progress (wire sample_chunks (bs "0") (bs "T: v")) 4 = TooLarge.
Proof.
  split; [exact sample_chunks_ok|].
  split; rewrite dechunk_progress_wire; first [exact sample_chunks_ok|compute_done].
Defined.

Lemma frame_body_agrees_witness :
  frame_body (sample_head ++ sample_body) false (bs "gzip, CHUNKED") [] = ok (bs "abcde").
Proof. apply (frame_body_agrees _ _ _ 1024); by vm_compute. Defined.

Lemma body_progress_cap_witness :
  body_progress (sample_head ++ bs "abcde") [] (bs "5") 5 = Complete (bs "abcde") ∧
  Z.of_nat (length (bs "abcde")) <= 5.
Proof.
  split; [by vm_compute|].
  apply (body_progress_cap (sample_head ++ bs "abcde") [] (bs "5")); by vm_compute.
Defined.

Lemma dechunk_terminates_witness :
  dechunk_loop 100 [] sample_body 10 = Some (dechunk_progress sample_body 10).
Proof. apply dechunk_terminates. vm_compute. lia. Defined.

