(* ===== verification/Machine.v ===== *)
(** * State machines of the runtime's concurrent parts

    A concurrent component is a machine: an event is one atomic step of one of
    its threads (with the choices its environment makes), and an execution is a
    sequence of events, every interleaving being one. *)

From S2P Require Import Prelude.

(** [exec e s]: the state after event [e], if it can happen in [s]. *)
Class Machine (E S : Type) : Type := exec : E → S → option S.

Section machine.
Context {E S : Type} `{M : Machine E S}.

Fixpoint run (events : list E) (s : S) : option S :=
  match events with
  | [] => Some s
  | e :: events => s ← exec e s; run events s
  end.

(** Every event keeps [I]. *)
Definition invariant (I : S → Prop) : Prop :=
  ∀ e s s', I s → exec e s = Some s' → I s'.

Lemma run_app es es' s : run (es ++ es') s = run es s ≫= run es'.
Proof.
  revert s. induction es as [|e es IH]; intros s; simpl; [done|].
  destruct (exec e s); simpl; [apply IH|done].
Qed.

Lemma run_invariant I es s s' : invariant I → I s → run es s = Some s' → I s'.
Proof.
  intros HI. revert s. induction es as [|e es IH]; intros s Hs H; simpl in *; [by simplify_eq|].
  apply bind_Some in H as (s1&H1&H). eauto.
Qed.

(** A measure some enabled event decreases until [done] brings the machine to
    [done]: it cannot get stuck, whatever happened before. *)
Lemma run_progress (I : S → Prop) (done : S → Prop) (measure : S → nat) s :
  invariant I →
  (∀ s, I s → done s ∨ ∃ e s', exec e s = Some s' ∧ (measure s' < measure s)%nat) →
  I s → ∃ es s', run es s = Some s' ∧ done s'.
Proof.
  intros HI Hstep Hs. remember (measure s) as n eqn:Hn.
  revert s Hn Hs. induction (lt_wf n) as [n _ IH]. intros s -> Hs.
  destruct (Hstep s Hs) as [Hd|(e&s1&He&Hlt)]; [by exists [], s|].
  destruct (IH _ Hlt s1 eq_refl) as (es&s'&Hr&Hd); [by eapply HI|].
  exists (e :: es), s'. simpl. by rewrite He.
Qed.

End machine.

Arguments Machine E S : clear implicits.

(** ** Sums over the threads of a machine *)

(** The sum of a measure over a list, and how one element's change moves it. *)
Definition sum_over {A} (f : A → Z) (l : list A) : Z := foldr (λ a acc, f a + acc)%Z 0%Z l.

Lemma sum_over_app {A} (f : A → Z) l k : sum_over f (l ++ k) = (sum_over f l + sum_over f k)%Z.
Proof. induction l as [|a l IH]; simpl; [done|]. rewrite IH. lia. Qed.

Lemma sum_over_insert {A} (f : A → Z) (l : list A) i a b :
  l !! i = Some a → sum_over f (<[i:=b]> l) = (sum_over f l - f a + f b)%Z.
Proof.
  revert i. induction l as [|c l IH]; intros [|i] H; simplify_eq/=; [lia|].
  rewrite (IH i H). lia.
Qed.

Lemma sum_over_nonneg {A} (f : A → Z) l : (∀ a, a ∈ l → 0 ≤ f a)%Z → (0 ≤ sum_over f l)%Z.
Proof.
  induction l as [|a l IH]; intros H; simpl; [done|].
  assert (0 ≤ f a)%Z by (apply H; by left). assert (0 ≤ sum_over f l)%Z; [|lia].
  apply IH. intros b Hb. apply H. by right.
Qed.

(** One element's share is at most the sum. *)
Lemma sum_over_elem {A} (f : A → Z) l i a :
  (∀ a, 0 ≤ f a)%Z → l !! i = Some a → (f a ≤ sum_over f l)%Z.
Proof.
  intros Hf. revert i. induction l as [|c l IH]; intros [|i] H; simplify_eq/=.
  - assert (0 ≤ sum_over f l)%Z by (apply sum_over_nonneg; auto). lia.
  - specialize (IH i H). specialize (Hf c). lia.
Qed.

Lemma sum_over_ext {A} (f g : A → Z) l : (∀ a, a ∈ l → f a = g a) → sum_over f l = sum_over g l.
Proof.
  induction l as [|a l IH]; intros H; simpl; [done|].
  rewrite (H a) by by left. rewrite IH; [done|]. intros b Hb. apply H. by right.
Qed.

Lemma sum_over_zero {A} (f : A → Z) l : (∀ a, a ∈ l → f a = 0)%Z → sum_over f l = 0%Z.
Proof. intros H. rewrite (sum_over_ext f (λ _, 0)%Z l H). clear H. by induction l. Qed.

(** A positive sum has a positive share. *)
Lemma sum_over_pos {A} (f : A → Z) l : (0 < sum_over f l)%Z → ∃ a, a ∈ l ∧ (0 < f a)%Z.
Proof.
  induction l as [|a l IH]; simpl; intros H; [done|].
  destruct (decide (0 < f a)%Z) as [|Hn]; [exists a; split; [by left|done]|].
  destruct IH as (b&Hb&?); [lia|]. exists b. split; [by right|done].
Qed.

(** Case on which element of an updated list is looked up. *)
Ltac lookup_insert H :=
  lazymatch type of H with
  | <[?i:=_]> _ !! ?j = Some _ =>
      apply list_lookup_insert_Some in H as [(<-&<-&_)|[? H]]
  end.
