(* ===== verification/Atomic.v ===== *)
(** * The critical section of atomic bindings: [quilon-rt/src/atomic_binding.rs]

    The process-wide spin lock, re-entrant through a per-thread depth, as a
    machine whose threads run any bracketed sequence of [__atomic_begin],
    [__atomic_end] and accesses to a binding, in any interleaving. *)

From S2P Require Import Prelude Machine.
Open Scope Z_scope.

(** What compiled code does around an atomic binding: the two intrinsics, and
    between them the loads and stores of the binding's storage; [Add n] stores
    what was last loaded plus [n]. *)
Inductive call : Type := Begin | End | Load | Add (n : Z).

(** Where a thread is: outside the intrinsics, at the [swap] of the spin loop,
    past it with the depth still to be written, or at the [store] releasing. *)
Inductive point : Type := Idle | Swap | Count | Release.

#[export] Instance call_eq_dec : EqDecision call.
Proof. solve_decision. Defined.
#[export] Instance point_eq_dec : EqDecision point.
Proof. solve_decision. Defined.

Record Thread : Type := mkThread {
  depth : Z;        (* DEPTH: Cell<u32> *)
  at_ : point;
  register : Z;
  todo : list call
}.

Record State : Type := mkState { LOCK : bool; cell : Z; threads : list Thread }.

(** [__atomic_begin] up to the spin loop or past it. *)
Definition atomic_begin (th : Thread) (rest : list call) : Thread :=
  mkThread (depth th) (if depth th =? 0 then Swap else Count) (register th) rest.

(** [__atomic_end] up to the store of the lock. *)
Definition atomic_end (th : Thread) (rest : list call) : Thread :=
  let next := u32 (depth th - 1) in
  mkThread next (if next =? 0 then Release else Idle) (register th) rest.

(** One atomic step of a thread: its new state, the lock and the binding. *)
Definition thread_step (lock : bool) (v : Z) (th : Thread) : option (Thread * bool * Z) :=
  match at_ th with
  | Idle =>
      match todo th with
      | [] => None
      | Begin :: rest => Some (atomic_begin th rest, lock, v)
      | End :: rest => Some (atomic_end th rest, lock, v)
      | Load :: rest => Some (mkThread (depth th) Idle v rest, lock, v)
      | Add n :: rest => Some (mkThread (depth th) Idle (register th) rest, lock, register th + n)
      end
  | Swap => Some (mkThread (depth th) (if lock then Swap else Count) (register th) (todo th), true, v)
  | Count => Some (mkThread (u32 (depth th + 1)) Idle (register th) (todo th), lock, v)
  | Release => Some (mkThread (depth th) Idle (register th) (todo th), false, v)
  end.

(** An event is the thread that steps. *)
Definition atomic_step (t : nat) (s : State) : option State :=
  th ← threads s !! t;
  '(th', lock, v) ← thread_step (LOCK s) (cell s) th;
  Some (mkState lock v (<[t:=th']> (threads s))).

#[export] Instance atomic_machine : Machine nat State := atomic_step.

Definition start (v : Z) (programs : list (list call)) : State :=
  mkState false v (mkThread 0 Idle 0 <$> programs).

Definition finished (s : State) : Prop := Forall (λ th, at_ th = Idle ∧ todo th = []) (threads s).

(** The thread is in the critical section. *)
Definition inside (th : Thread) : bool :=
  match at_ th with Idle => 0 <? depth th | Swap => false | Count | Release => true end.

(** What the code generator emits: the intrinsics bracket properly, fewer than
    [2^32] deep, the binding is accessed only between them, and a store follows
    its load inside one outermost bracket ([fresh]). *)
Fixpoint bracketed (d : Z) (fresh : bool) (calls : list call) : bool :=
  match calls with
  | [] => d =? 0
  | Begin :: cs => (d <? 2 ^ 32 - 1) && bracketed (d + 1) fresh cs
  | End :: cs => (0 <? d) && bracketed (d - 1) (fresh && (1 <? d)) cs
  | Load :: cs => (0 <? d) && bracketed d true cs
  | Add _ :: cs => (0 <? d) && fresh && bracketed d false cs
  end.

(** What a program adds to the binding. *)
Definition added (calls : list call) : Z :=
  sum_over (λ c, match c with Add n => n | _ => 0 end) calls.

(** The lowering of [a := a + n]: the read nests in the reassignment. *)
Definition reassignment (n : Z) : list call := [Begin; Begin; Load; End; Add n; End].

(** ** The invariant *)

Section invariant.

Definition local (v : Z) (th : Thread) : Prop :=
  ∃ fresh : bool,
    (fresh = true → register th = v ∧ inside th = true) ∧
    match at_ th with
    | Idle => 0 <= depth th < 2 ^ 32 ∧ bracketed (depth th) fresh (todo th) = true
    | Swap => depth th = 0 ∧ bracketed 1 false (todo th) = true
    | Count => 0 <= depth th < 2 ^ 32 - 1 ∧ bracketed (depth th + 1) fresh (todo th) = true
    | Release => depth th = 0 ∧ bracketed 0 false (todo th) = true
    end.

(** The lock is taken exactly when some thread owns it, and the owner is the
    one thread in the critical section. *)
Definition owned_by (owner : option nat) (s : State) : Prop :=
  LOCK s = bool_decide (is_Some owner) ∧
  (∀ o, owner = Some o → (o < length (threads s))%nat) ∧
  ∀ i th, threads s !! i = Some th →
    local (cell s) th ∧ (inside th = true ↔ owner = Some i).

Definition Inv (s : State) : Prop := ∃ owner, owned_by owner s.

(** The new owner after a step of thread [t]. *)
Definition next_owner (t : nat) (inside_after : bool) (owner : option nat) : option nat :=
  if inside_after then Some t else if bool_decide (owner = Some t) then None else owner.

(** The thread was and stays inside. *)
Local Ltac stays Hlock := left; split_and!; [first [done|lia]|apply Hlock; first [done|lia]|left; first [done|lia]].

(** A step keeps the local invariant, changes the binding only inside, and
    moves the lock with the thread. *)
Lemma thread_step_ok lock v th th' lock' v' :
  local v th → thread_step lock v th = Some (th', lock', v') →
  (inside th = true → lock = true) →
  local v' th'
  ∧ (v' ≠ v → inside th = true)
  ∧ v' + added (todo th') = v + added (todo th)
  ∧ (inside th' = true ∧ lock' = true ∧ (inside th = true ∨ lock = false)
     ∨ inside th' = false ∧ inside th = true ∧ lock' = false
     ∨ inside th' = false ∧ inside th = false ∧ lock' = lock).
Proof.
  destruct th as [d p r cs]. intros (fresh&Hf&Hl) H Hlock.
  unfold thread_step, atomic_begin, atomic_end, inside, local in *; simpl in *.
  destruct p; [destruct cs as [|[| | |n] cs]|..]; simplify_eq/=; destruct_and?; unbool.
  - (* Begin *)
    destruct (Z.eqb_spec d 0) as [->|]; simpl in *.
    + assert (fresh = false) as -> by (destruct fresh; [by destruct Hf as [_ ?]|done]).
      split_and!; [by exists false|done|done|by right; right].
    + split_and!; [|done|done|stays Hlock].
      exists fresh. split; [by intros Hr; split; [apply Hf|]|]. split; [lia|done].
  - (* End *)
    rewrite (u32_id (d - 1)) by lia.
    destruct (Z.eqb_spec (d - 1) 0) as [Ed|]; simpl in *.
    + assert (d = 1) as -> by lia. simpl in *. rewrite andb_false_r in *.
      split_and!; [by exists false|done|done|stays Hlock].
    + split_and!; [|done|done|stays Hlock].
      exists fresh. rewrite (proj2 (Z.ltb_lt 1 d)), andb_true_r in * by lia.
      split; [intros Hr; split; [by apply Hf|unfold inside; simpl; lia]|]. split; [lia|done].
  - (* Load *)
    split_and!; [exists true; unfold inside; simpl; auto with lia|done|done|stays Hlock].
  - (* Add *)
    destruct Hf as [-> _]; [done|].
    split_and!; [exists false; unfold inside; simpl; auto with lia|lia|lia|stays Hlock].
  - (* the swap *)
    assert (fresh = false) as -> by (destruct fresh; [by destruct Hf as [_ ?]|done]).
    subst d. destruct lock; (split_and!; [by exists false|done|done|]); [by right; right|left; auto].
  - (* the depth's increment *)
    rewrite (u32_id (d + 1)) by lia. split_and!; [|done|done|stays Hlock].
    exists fresh. split; [intros Hr; split; [by apply Hf|unfold inside; simpl; lia]|].
    split; [lia|done].
  - (* the release *)
    subst d. split_and!; [by exists false|done|done|by right; left].
Qed.

(** A thread outside the section is indifferent to the binding's value. *)
Lemma local_outside v v' th : inside th = false → local v th → local v' th.
Proof.
  intros Ho (fresh&Hf&Hl). exists fresh. split; [|done].
  intros H. destruct (Hf H) as [_ Hi]. by rewrite Ho in Hi.
Qed.

(** Every interleaving keeps the invariant, and what the programs still have to
    add with what they have added. *)
Lemma step_ok t s s' :
  Inv s → exec t s = Some s' →
  Inv s' ∧ cell s' + sum_over (added ∘ todo) (threads s')
           = cell s + sum_over (added ∘ todo) (threads s).
Proof.
  intros (owner&HL&Hr&Hth) H. unfold exec, atomic_machine, atomic_step in H.
  apply bind_Some in H as (th&Ht&H). apply bind_Some in H as ([[th' lock] v]&Hs&[= <-]).
  destruct (Hth t th Ht) as [Hlocal Hin].
  assert (inside th = true → LOCK s = true) as Hlock.
  { intros Hi%Hin. rewrite HL, Hi. by apply bool_decide_eq_true. }
  destruct (thread_step_ok _ _ _ _ _ _ Hlocal Hs Hlock) as (Hl'&Hv&Hadd&Hlk). simpl.
  assert (∀ i thi, threads s !! i = Some thi → t ≠ i →
    local v thi ∧ (owner = Some t → inside thi = false)) as Hother.
  { intros i thi Hi Hne. destruct (Hth i thi Hi) as [Hli Hii].
    assert (owner = Some t → inside thi = false) as Ho.
    { intros ->. apply not_true_is_false. rewrite Hii. congruence. }
    split; [|done]. destruct (decide (v = cell s)) as [->|Hne']; [done|].
    eapply local_outside; [|done]. by apply Ho, Hin, Hv. }
  split.
  - exists (next_owner t (inside th') owner). unfold next_owner. split_and!; simpl.
    + destruct Hlk as [(->&->&_)|[(->&Hi&->)|(->&Hi&->)]]; [done|..].
      * apply Hin in Hi. by rewrite (bool_decide_true (owner = Some t)).
      * rewrite (bool_decide_false (owner = Some t)); [done|]. by rewrite <-Hin, Hi.
    + rewrite length_insert. intros o. apply lookup_lt_Some in Ht.
      destruct (inside th'); [by intros [= <-]|]. destruct (bool_decide (owner = Some t)); [done|apply Hr].
    + intros i thi Hi. lookup_insert Hi.
      * split; [done|]. destruct (inside th'); [done|]. split; [done|].
        by destruct (bool_decide (owner = Some t)) eqn:E; [|intros ->; apply bool_decide_eq_false in E].
      * destruct (Hother i thi Hi) as [Hli Ho]; [done|]. split; [done|].
        rewrite (proj2 (Hth i thi Hi)). destruct (inside th') eqn:E.
        -- destruct Hlk as [(_&_&Hlk)|[(?&_)|(?&_)]]; [|done..]. split; [|congruence].
           destruct Hlk as [Hit%Hin|Hf]; [congruence|]. rewrite HL in Hf.
           apply bool_decide_eq_false in Hf. intros ->. by destruct Hf.
        -- destruct (decide (owner = Some t)) as [Hot|Hot].
           ++ rewrite (bool_decide_true (owner = Some t)) by done. split; [|done]. congruence.
           ++ by rewrite (bool_decide_false (owner = Some t)).
  - rewrite (sum_over_insert _ _ _ _ _ Ht). unfold compose. simpl. lia.
Qed.

Lemma Inv_start v programs :
  Forall (λ p, bracketed 0 false p = true) programs → Inv (start v programs).
Proof.
  intros Hp. exists None. split_and!; [done|done|]. intros i th Hi. simpl in Hi.
  apply list_lookup_fmap_Some in Hi as (p&->&Hpi). split; [|done].
  exists false. split; [done|]. split; [done|]. by apply (Forall_lookup_1 _ _ _ _ Hp Hpi).
Qed.

Lemma Inv_run v programs es s :
  Forall (λ p, bracketed 0 false p = true) programs →
  run es (start v programs) = Some s →
  Inv s ∧ cell s + sum_over (added ∘ todo) (threads s) = v + sum_over added programs.
Proof.
  intros Hp. apply (run_invariant (λ s, Inv s ∧
    cell s + sum_over (added ∘ todo) (threads s) = v + sum_over added programs)).
  - intros t s1 s2 [HI Hsum] He. destruct (step_ok t s1 s2 HI He) as [? Heq].
    split; [done|]. simpl. by rewrite Heq.
  - split; [by apply Inv_start|]. simpl. f_equal.
    clear Hp. induction programs as [|p ps IH]; simpl; [done|]. f_equal. apply IH.
Qed.

(** How many steps a thread can still make without waiting for another. *)
Definition remaining (th : Thread) : nat :=
  3 * length (todo th) + match at_ th with Idle => 0 | Swap => 2 | Count | Release => 1 end.

Definition measure (s : State) : nat := Z.to_nat (sum_over (λ th, Z.of_nat (remaining th)) (threads s)).

Lemma exec_measure t s th th' lock v :
  threads s !! t = Some th → thread_step (LOCK s) (cell s) th = Some (th', lock, v) →
  (remaining th' < remaining th)%nat →
  ∃ s', exec t s = Some s' ∧ (measure s' < measure s)%nat.
Proof.
  intros Ht Hs Hlt. eexists. split; [unfold exec, atomic_machine, atomic_step; by rewrite Ht; simpl; rewrite Hs|].
  unfold measure. simpl. rewrite (sum_over_insert _ _ _ _ _ Ht).
  assert (Z.of_nat (remaining th) <= sum_over (λ th, Z.of_nat (remaining th)) (threads s))
    by (apply (sum_over_elem (λ th, Z.of_nat (remaining th)) _ t); [lia|done]).
  assert (0 <= sum_over (λ th, Z.of_nat (remaining th)) (threads s))
    by (apply sum_over_nonneg; lia). lia.
Qed.

(** A thread that is not waiting for the lock gets on. *)
Lemma thread_progress lock v th :
  local v th → (inside th = true ∨ lock = false) → (at_ th ≠ Idle ∨ todo th ≠ [] ∨ inside th = true) →
  ∃ th' lock' v', thread_step lock v th = Some (th', lock', v') ∧ (remaining th' < remaining th)%nat.
Proof.
  destruct th as [d p r cs]. unfold local, inside, thread_step, remaining. simpl.
  intros (fresh&_&Hl) Hw Hn. destruct p; simpl in *; [|destruct Hw as [Hw|Hw]; [done|subst lock]|..];
    try (do 3 eexists; split; [done|]; simpl; lia).
  destruct cs as [|c cs]; simpl in *; [destruct Hl as [_ Hl]; unbool; naive_solver lia|].
  destruct c; do 3 eexists; (split; [done|]); simpl; try case_match; simpl; lia.
Qed.
End invariant.

(** ** Properties *)

(** The critical section excludes: in every interleaving of any number of
    threads whose calls bracket properly, at most one thread is inside, and the
    lock is taken exactly when one is. *)
Theorem atomic_mutual_exclusion v programs es s :
  Forall (λ p, bracketed 0 false p = true) programs →
  run es (start v programs) = Some s →
  (∀ i j thi thj, threads s !! i = Some thi → threads s !! j = Some thj →
     inside thi = true → inside thj = true → i = j)
  ∧ (LOCK s = true ↔ ∃ i th, threads s !! i = Some th ∧ inside th = true).
Proof.
  intros Hp Hr. destruct (Inv_run _ _ _ _ Hp Hr) as [(owner&HL&Hlen&Hth) _]. split.
  - intros i j thi thj Hi Hj Hii%(Hth i thi Hi) Hjj%(Hth j thj Hj). congruence.
  - rewrite HL, bool_decide_eq_true. split.
    + intros [o Ho]. destruct (lookup_lt_is_Some_2 (threads s) o (Hlen o Ho)) as [th Hi].
      exists o, th. split; [done|]. by apply (Hth o th Hi).
    + intros (i&th&Hi&Hin). exists i. by apply (Hth i th Hi).
Qed.

(** C39: no update is lost: when every thread has finished, however they
    interleaved, the binding holds its first value plus everything the threads'
    reassignments add. *)
Theorem atomic_no_lost_update v programs es s :
  Forall (λ p, bracketed 0 false p = true) programs →
  run es (start v programs) = Some s → finished s →
  cell s = v + sum_over added programs.
Proof.
  intros Hp Hr Hf. destruct (Inv_run _ _ _ _ Hp Hr) as [_ <-].
  assert (sum_over (added ∘ todo) (threads s) = 0) as ->; [|lia].
  unfold finished in Hf. induction Hf as [|th ths [_ Htd] _ IH]; simpl; [done|].
  rewrite IH. by rewrite Htd.
Qed.

(** The lock never deadlocks: from wherever an interleaving has got to, the
    threads can all finish, nested sections included. *)
Theorem atomic_no_deadlock v programs es s :
  Forall (λ p, bracketed 0 false p = true) programs →
  run es (start v programs) = Some s →
  ∃ es' s', run es' s = Some s' ∧ finished s'.
Proof.
  intros Hp Hr. destruct (Inv_run _ _ _ _ Hp Hr) as [HI _].
  apply (run_progress Inv finished measure); [intros t s1 s2 H1 H2; by eapply step_ok| |done].
  clear. intros s (owner&HL&Hlen&Hth).
  assert (∀ t th, threads s !! t = Some th → inside th = true ∨ LOCK s = false →
    at_ th ≠ Idle ∨ todo th ≠ [] ∨ inside th = true →
    ∃ e s', exec e s = Some s' ∧ (measure s' < measure s)%nat) as Hstep.
  { intros t th Ht Hw Hn. destruct (Hth t th Ht) as [Hl _].
    destruct (thread_progress _ _ _ Hl Hw Hn) as (th'&lock&v&Hs&Hlt).
    exists t. by eapply exec_measure. }
  destruct owner as [o|].
  - right. destruct (lookup_lt_is_Some_2 (threads s) o (Hlen o eq_refl)) as [th Ho].
    assert (inside th = true) by by apply (Hth o th Ho). eauto.
  - destruct (decide (finished s)) as [|Hn]; [by left|right]. unfold finished in Hn.
    apply not_Forall_Exists, Exists_exists in Hn as (th&Hin&Hn); [|apply _].
    apply list_elem_of_lookup in Hin as [t Ht]. apply (Hstep t th Ht); [by right|].
    destruct (decide (at_ th = Idle)); [|by left]. destruct (decide (todo th = [])); naive_solver.
Qed.

(** Two workers running [a := a + 1] and [a := a + 10], the second spinning
    while the first is inside. *)
Definition two_workers : list (list call) := [reassignment 1; reassignment 10].
Definition contended : list nat := [0; 0; 1; 0; 1; 0; 0; 1]%nat.
Definition finishing : list nat := [0; 0; 0; 0; 0; 1; 1; 1; 1; 1; 1; 1; 1; 1]%nat.

Lemma two_workers_bracketed : Forall (λ p, bracketed 0 false p = true) two_workers.
Proof. by repeat constructor. Qed.

Lemma atomic_mutual_exclusion_witness :
  ∃ s, run contended (start 5 two_workers) = Some s
  ∧ (at_ <$> threads s) = [Idle; Swap]
  ∧ (LOCK s = true ↔ ∃ i th, threads s !! i = Some th ∧ inside th = true).
Proof.
  eexists. split; [by vm_compute|]. split; [by vm_compute|].
  apply (atomic_mutual_exclusion 5 two_workers contended); [apply two_workers_bracketed|by vm_compute].
Defined.

Lemma atomic_no_lost_update_witness :
  ∃ s, run (contended ++ finishing) (start 5 two_workers) = Some s ∧ cell s = 5 + sum_over added two_workers.
Proof.
  eexists. split; [by vm_compute|].
  apply (atomic_no_lost_update 5 two_workers (contended ++ finishing));
    [apply two_workers_bracketed|by vm_compute|by repeat constructor].
Defined.

Lemma atomic_no_deadlock_witness :
  ∃ s es' s', run contended (start 5 two_workers) = Some s ∧ run es' s = Some s' ∧ finished s'.
Proof.
  eexists. edestruct (atomic_no_deadlock 5 two_workers contended) as (es'&s'&Hr&Hf);
    [apply two_workers_bracketed|by vm_compute|].
  exists es', s'. split; [by vm_compute|done].
Defined.
