(* ===== verification/Pool.v ===== *)
(** * The blocking-call pool: [quilon-rt/src/blocking.rs]

    Fibers hand calls that would block to helper threads: base workers that wait
    for jobs for ever, and overflow workers the pool grows by and that leave when
    they find no job.  The queue and the counters are behind mutexes, so a step
    of the machine is one critical section, one operation on a channel or a
    wake-up, of one fiber or one worker. *)

From S2P Require Import Prelude Machine.
Open Scope Z_scope.

Definition BLOCKING_POOL_BASE_MINIMUM : nat := 4.
Definition BLOCKING_POOL_CEILING : nat := 16.

(** [cpu_count.clamp(minimum, ceiling)]. *)
Definition blocking_pool_base_size (cpu_count : nat) : nat :=
  if (cpu_count <? BLOCKING_POOL_BASE_MINIMUM)%nat then BLOCKING_POOL_BASE_MINIMUM
  else if (BLOCKING_POOL_CEILING <? cpu_count)%nat then BLOCKING_POOL_CEILING
  else cpu_count.

(** A job is known by the call that submits it. *)
Abbreviation Job := nat.

(** Where [run_worker] is. *)
Inductive stage : Type :=
| Looking              (* about to pop *)
| Asleep               (* in [Condvar::wait] *)
| Running (job : Job)  (* in the caller's closure *)
| Waking (job : Job)   (* its result sent, or nothing if it panicked *)
| Dropping (job : Job) (* the fiber woken, the boxed job not yet dropped *)
| Finishing            (* [in_flight -= 1] ahead *)
| Leaving              (* an overflow worker past its loop *)
| Gone.

Record Worker : Type := mkWorker { is_base : bool; stage_of : stage }.

(** Where [run_blocking_on] is, for one call. *)
Inductive Caller : Type :=
| Submitting              (* before [submit]'s first critical section *)
| Counted (grow : bool)   (* the job not yet queued *)
| Growing                 (* an overflow thread to spawn *)
| Refused                 (* not spawned: [total_threads -= 1] ahead *)
| Parked                  (* in [park_on_readiness] *)
| Receiving               (* in [recv] *)
| Returned (result : option Z).

(** [BlockingPool] (the queue, [PoolState]), its workers, the calls, their result
    channels, the tokens made ready and the jobs dropped. *)
Record Pool : Type := mkPool {
  jobs : list Job;
  total_threads : Z;
  in_flight : Z;
  workers : list Worker;
  callers : list Caller;
  channel : gmap Job Z;
  ready : gset Job;
  dropped : list Job
}.

(** [start_blocking_pool]: [spawned i] is whether the [i]th thread was created;
    [calls] is how many calls are going to be made. *)
Definition start_blocking_pool (base_size : nat) (spawned : nat → bool) (calls : nat) : option Pool :=
  if forallb spawned (seq 0 base_size)
  then Some (mkPool [] (Z.of_nat base_size) 0 (replicate base_size (mkWorker true Looking))
               (replicate calls Submitting) ∅ ∅ [])
  else None.

(** The global pool, on a machine of [cpu_count] processors. *)
Definition blocking_pool (cpu_count : nat) : (nat → bool) → nat → option Pool :=
  start_blocking_pool (blocking_pool_base_size cpu_count).

(** ** Steps *)

(** A step of a fiber or a worker, with what its environment decides: whether a
    thread can be created, which waiter [notify_one] wakes. *)
Inductive event : Type :=
| Count (call : nat)
| Push (call : nat) (waiter : nat)
| Spawn (call : nat) (created : bool)
| Undo (call : nat)
| Wake (call : nat)
| Receive (call : nat)
| Work (worker : nat)
| Spurious (worker : nat).

Section steps.
(** What each call's closure computes; [None] is a panic. *)
Context (outcome : Job → option Z).

Definition set_callers (call : nat) (c : Caller) (s : Pool) : Pool :=
  mkPool (jobs s) (total_threads s) (in_flight s) (workers s) (<[call:=c]> (callers s))
    (channel s) (ready s) (dropped s).
Definition set_workers (w : nat) (stage : stage) (base : bool) (s : Pool) : Pool :=
  mkPool (jobs s) (total_threads s) (in_flight s) (<[w:=mkWorker base stage]> (workers s))
    (callers s) (channel s) (ready s) (dropped s).

Definition asleep (w : Worker) : bool := match stage_of w with Asleep => true | _ => false end.

(** The first critical section of [submit]: count the job and decide to grow. *)
Definition submit_count (s : Pool) : Pool * bool :=
  let in_flight := in_flight s + 1 in
  let grow := (total_threads s <? in_flight) && (total_threads s <? Z.of_nat BLOCKING_POOL_CEILING) in
  (mkPool (jobs s) (if grow then total_threads s + 1 else total_threads s) in_flight (workers s)
     (callers s) (channel s) (ready s) (dropped s), grow).

(** [JobQueue::push]: [notify_one] wakes a waiter when there is one. *)
Definition push (job : Job) (waiter : nat) (s : Pool) : option Pool :=
  let s := mkPool (jobs s ++ [job]) (total_threads s) (in_flight s) (workers s) (callers s)
             (channel s) (ready s) (dropped s) in
  if existsb asleep (workers s) then
    w ← workers s !! waiter;
    if asleep w then Some (set_workers waiter Looking (is_base w) s) else None
  else Some s.

Definition spawn_worker (s : Pool) : Pool :=
  mkPool (jobs s) (total_threads s) (in_flight s) (workers s ++ [mkWorker false Looking])
    (callers s) (channel s) (ready s) (dropped s).

Definition uncount_thread (s : Pool) : Pool :=
  mkPool (jobs s) (total_threads s - 1) (in_flight s) (workers s) (callers s) (channel s) (ready s)
    (dropped s).

(** The boxed job's [result_sender.send(value)]; a panic sends nothing. *)
Definition send (job : Job) (channel : gmap Job Z) : gmap Job Z :=
  match outcome job with Some v => <[job:=v]> channel | None => channel end.

(** One step of [run_worker] at [w]. *)
Definition run_worker (n : nat) (w : Worker) (s : Pool) : option Pool :=
  match stage_of w with
  | Looking =>
      match jobs s with
      | job :: rest =>
          Some (set_workers n (Running job) (is_base w)
                  (mkPool rest (total_threads s) (in_flight s) (workers s) (callers s) (channel s)
                     (ready s) (dropped s)))
      | [] => Some (set_workers n (if is_base w then Asleep else Leaving) (is_base w) s)
      end
  | Running job =>
      Some (set_workers n (Waking job) (is_base w)
              (mkPool (jobs s) (total_threads s) (in_flight s) (workers s) (callers s)
                 (send job (channel s))
                 (ready s) (dropped s)))
  | Waking job =>
      Some (set_workers n (Dropping job) (is_base w)
              (mkPool (jobs s) (total_threads s) (in_flight s) (workers s) (callers s) (channel s)
                 ({[job]} ∪ ready s) (dropped s)))
  | Dropping job =>
      Some (set_workers n Finishing (is_base w)
              (mkPool (jobs s) (total_threads s) (in_flight s) (workers s) (callers s) (channel s)
                 (ready s) (dropped s ++ [job])))
  | Finishing =>
      Some (set_workers n Looking (is_base w)
              (mkPool (jobs s) (total_threads s) (in_flight s - 1) (workers s) (callers s)
                 (channel s) (ready s) (dropped s)))
  | Leaving => Some (set_workers n Gone (is_base w) (uncount_thread s))
  | Asleep | Gone => None
  end.

(** [recv]: the value sent, or an error once the sender is dropped. *)
Definition receive (call : nat) (s : Pool) : option (option Z) :=
  match channel s !! call with
  | Some v => Some (Some v)
  | None => if bool_decide (call ∈ dropped s) then Some None else None
  end.

(** One event, of the fibers ([run_blocking_on]) or of the workers. *)
Definition pool_step (e : event) (s : Pool) : option Pool :=
  match e with
  | Count call =>
      c ← callers s !! call;
      match c with
      | Submitting => let '(s, grow) := submit_count s in Some (set_callers call (Counted grow) s)
      | _ => None
      end
  | Push call waiter =>
      c ← callers s !! call;
      match c with
      | Counted grow => s ← push call waiter s; Some (set_callers call (if grow then Growing else Parked) s)
      | _ => None
      end
  | Spawn call created =>
      c ← callers s !! call;
      match c with
      | Growing => Some (if created then set_callers call Parked (spawn_worker s)
                         else set_callers call Refused s)
      | _ => None
      end
  | Undo call =>
      c ← callers s !! call;
      match c with
      | Refused => Some (set_callers call Parked (uncount_thread s))
      | _ => None
      end
  | Wake call =>
      c ← callers s !! call;
      match c with
      | Parked => if bool_decide (call ∈ ready s) then Some (set_callers call Receiving s) else None
      | _ => None
      end
  | Receive call =>
      c ← callers s !! call;
      match c with
      | Receiving => r ← receive call s; Some (set_callers call (Returned r) s)
      | _ => None
      end
  | Work n => w ← workers s !! n; run_worker n w s
  | Spurious n =>
      w ← workers s !! n;
      if asleep w then Some (set_workers n Looking (is_base w) s) else None
  end.

#[export] Instance pool_machine : Machine event Pool := pool_step.

End steps.

(** ** What is counted *)

Definition owes_thread (c : Caller) : Z :=
  match c with Counted true | Growing | Refused => 1 | _ => 0 end.
Definition counted (c : Caller) : Z := match c with Counted _ => 1 | _ => 0 end.
Definition pushed (c : Caller) : Z := match c with Submitting | Counted _ => 0 | _ => 1 end.
Definition live (w : Worker) : Z := match stage_of w with Gone => 0 | _ => 1 end.
Definition busy (w : Worker) : Z :=
  match stage_of w with Running _ | Waking _ | Dropping _ | Finishing => 1 | _ => 0 end.
Definition sleeping (w : Worker) : Z := if asleep w then 1 else 0.
Definition base (w : Worker) : Z := if is_base w then 1 else 0.
Definition base_looking (w : Worker) : Z :=
  match stage_of w with Looking => base w | _ => 0 end.
Definition is_job (job job' : Job) : Z := if bool_decide (job' = job) then 1 else 0.
Definition holds (job : Job) (w : Worker) : Z :=
  match stage_of w with Running j | Waking j | Dropping j => is_job job j | _ => 0 end.

(** A base worker never leaves, an overflow worker never sleeps. *)
Definition in_character (w : Worker) : Prop :=
  match stage_of w with
  | Asleep => is_base w = true
  | Leaving | Gone => is_base w = false
  | _ => True
  end.

(** The pool's threads and the jobs in flight are what the two counters say. *)
Record counters_ok (base_size : nat) (s : Pool) : Prop := {
  total_ok : total_threads s = sum_over live (workers s) + sum_over owes_thread (callers s);
  flight_ok : in_flight s = sum_over counted (callers s) + Z.of_nat (length (jobs s))
                            + sum_over busy (workers s);
  base_ok : sum_over base (workers s) = Z.of_nat base_size;
  character_ok : Forall in_character (workers s);
  ceiling_ok : total_threads s <= Z.of_nat BLOCKING_POOL_CEILING;
  (* while a base worker sleeps, every queued job has a base worker coming *)
  wake_ok : 0 < sum_over sleeping (workers s) →
    Z.of_nat (length (jobs s)) <= sum_over base_looking (workers s)
}.

(** Where every job is: queued, in a worker's hands, or dropped; once. *)
Definition placed (s : Pool) : Prop := ∀ job,
  sum_over (is_job job) (jobs s) + sum_over (holds job) (workers s)
  + sum_over (is_job job) (dropped s) = default 0 (pushed <$> callers s !! job).

(** Every case of a step, with the states before and after spelt out. *)
Ltac step_cases H :=
  unfold exec, pool_machine, pool_step, run_worker, submit_count, push, receive, spawn_worker, uncount_thread in H;
  repeat match goal with
  | H : mbind _ _ = Some _ |- _ => apply bind_Some in H as (?&?&H)
  | H : (match ?x with _ => _ end) = Some _ |- _ => destruct x eqn:?; try done
  end; simplify_eq/=;
  unfold set_workers, set_callers in *; simpl in *;
  repeat match goal with w : Worker |- _ => destruct w; simpl in * end;
  repeat match goal with b : bool |- _ => destruct b end; simplify_eq/=;
  repeat match goal with
  | H : match ?st with Asleep => _ | _ => _ end = true |- _ => destruct st; try done
  end.

(** The sums after a step. *)
Ltac sums :=
  repeat match goal with
  | H : ?l !! ?i = Some _ |- context [sum_over ?f (<[?i:=_]> ?l)] =>
      rewrite (sum_over_insert f _ _ _ _ H)
  | H : ?l !! ?i = Some _, H' : context [sum_over ?f (<[?i:=_]> ?l)] |- _ =>
      rewrite (sum_over_insert f _ _ _ _ H) in H'
  end;
  rewrite ?sum_over_app, ?length_app in *; simpl in *.

Section invariants.
Context (outcome : Job → option Z) (base_size : nat).
Local Existing Instance pool_machine.
Local Abbreviation step e s := (exec (Machine := pool_machine outcome) e s).

Lemma sleeping_pos s : existsb asleep (workers s) = true → 0 < sum_over sleeping (workers s).
Proof.
  intros (w&Hw&Ha)%existsb_exists. apply list_elem_of_In, list_elem_of_lookup in Hw as [i Hi].
  assert (sleeping w <= sum_over sleeping (workers s)).
  { apply (sum_over_elem _ _ i); [|done]. intros w'. unfold sleeping. by destruct (asleep w'). }
  unfold sleeping in H at 1. rewrite Ha in H. lia.
Qed.

Lemma sleeping_none ws : existsb asleep ws = false → sum_over sleeping ws = 0.
Proof.
  induction ws as [|w ws IH]; simpl; [done|]. intros [Hw ?]%orb_false_iff.
  unfold sleeping at 1. rewrite Hw. by rewrite IH.
Qed.

Lemma sum_nonneg_lookup {A} (f : A → Z) l i a :
  (∀ a, 0 <= f a) → l !! i = Some a → 0 <= sum_over f l - f a.
Proof. intros Hf Hi. pose proof (sum_over_elem f l i a Hf Hi). lia. Qed.

Lemma base_looking_nonneg w : 0 <= base_looking w.
Proof. destruct w as [[] []]; done. Qed.

#[local] Arguments owes_thread !_ /.
#[local] Arguments counted !_ /.
#[local] Arguments pushed !_ /.
#[local] Arguments live _ /.
#[local] Arguments busy _ /.
#[local] Arguments sleeping _ /.
#[local] Arguments base _ /.
#[local] Arguments base_looking _ /.
#[local] Arguments holds _ _ /.
#[local] Arguments asleep _ /.

Lemma counters_step : invariant (M := pool_machine outcome) (counters_ok base_size).
Proof.
  intros e s s' [Ht Hf Hb Hc Hl Hw] H. destruct s as [js tot fl ws cs ch rd dr]. simpl in *.
  destruct e; step_cases H.
  all: repeat match goal with
       | H : ?ws !! ?n = Some (mkWorker ?b ?st), Hc : Forall in_character ?ws |- _ =>
           lazymatch goal with
           | _ : in_character (mkWorker b st) |- _ => fail
           | _ => pose proof (Forall_lookup_1 _ _ _ _ Hc H) as Hch;
                  pose proof (sum_nonneg_lookup base_looking _ _ _ base_looking_nonneg H)
           end
       end.
  all: split; simpl; sums; try (apply Forall_insert; done); try done; try lia; try (case_match; lia).
  1, 2: rewrite sleeping_none by done; lia.
  apply Forall_app; split; [done|]. by repeat constructor.
Qed.

Lemma is_job_nonneg job k : 0 <= is_job job k.
Proof. unfold is_job. by destruct (bool_decide _). Qed.

Lemma lookup_insert_pushed (cs : list Caller) call c c' job :
  cs !! call = Some c →
  default 0 (pushed <$> <[call:=c']> cs !! job)
  = default 0 (pushed <$> cs !! job) + is_job job call * (pushed c' - pushed c).
Proof.
  intros Hc. unfold is_job. destruct (decide (call = job)) as [<-|Hne].
  - rewrite list_lookup_insert_eq by by eapply lookup_lt_Some. rewrite Hc.
    rewrite bool_decide_true by done. simpl. lia.
  - rewrite list_lookup_insert_ne by done. rewrite bool_decide_false by done. by rewrite Z.mul_0_l, Z.add_0_r.
Qed.

Lemma placed_step : invariant (M := pool_machine outcome) placed.
Proof.
  intros e s s' Hp H job. specialize (Hp job). destruct s as [js tot fl ws cs ch rd dr]. simpl in *.
  destruct e; step_cases H; sums;
    try (erewrite lookup_insert_pushed by eassumption); simpl in *; try lia.
Qed.

(** The result a call is given is what its job computed. *)
Record results_ok (s : Pool) : Prop := {
  sent_ok : ∀ job v, channel s !! job = Some v → outcome job = Some v;
  ready_ok : ∀ job, job ∈ ready s → channel s !! job = outcome job;
  dropped_ok : ∀ job, job ∈ dropped s → job ∈ ready s;
  worker_ok : ∀ n w, workers s !! n = Some w →
    match stage_of w with
    | Waking job => channel s !! job = outcome job
    | Dropping job => job ∈ ready s
    | _ => True
    end;
  caller_ok : ∀ call c, callers s !! call = Some c →
    match c with
    | Receiving => call ∈ ready s
    | Returned r => call ∈ ready s ∧ r = outcome call
    | _ => True
    end
}.

(** What becomes of the results when one worker or one call moves on. *)
Lemma results_move s s' :
  results_ok s →
  (∀ job v, channel s' !! job = Some v → outcome job = Some v) →
  (∀ job, channel s !! job = outcome job → channel s' !! job = outcome job) →
  (∀ job, job ∈ ready s' → job ∈ ready s ∨ channel s' !! job = outcome job) →
  ready s ⊆ ready s' →
  (∀ job, job ∈ dropped s' → job ∈ ready s') →
  (∀ n w, workers s' !! n = Some w → workers s !! n = Some w ∨
     match stage_of w with
     | Waking job => channel s' !! job = outcome job
     | Dropping job => job ∈ ready s'
     | _ => True
     end) →
  (∀ call c, callers s' !! call = Some c → callers s !! call = Some c ∨
     match c with
     | Receiving => call ∈ ready s
     | Returned r => call ∈ ready s ∧ r = outcome call
     | _ => True
     end) →
  results_ok s'.
Proof.
  intros [Hs Hr Hd Hw Hc] Hch Hkeep Hrd Hsub Hdr Hws Hcs. split; [done| |done|..].
  - intros job [Hj|Hj]%Hrd; [by apply Hkeep, Hr|done].
  - intros n w [Hn|Hn]%Hws; [|done]. specialize (Hw n w Hn). destruct (stage_of w); auto.
  - intros call c [Hn|Hn]%Hcs; [specialize (Hc call c Hn)|]; destruct c; naive_solver.
Qed.

Local Abbreviation sent := (send outcome).

Lemma send_lookup job ch k :
  sent job ch !! k = if decide (k = job ∧ outcome job ≠ None) then outcome job else ch !! k.
Proof.
  unfold send. destruct (outcome job) as [v|]; case_decide; destruct_and?; subst;
    rewrite ?lookup_insert_eq, ?lookup_insert_ne by naive_solver; naive_solver.
Qed.

Lemma send_ok job ch :
  (∀ job v, ch !! job = Some v → outcome job = Some v) →
  (∀ k v, sent job ch !! k = Some v → outcome k = Some v) ∧ sent job ch !! job = outcome job.
Proof.
  intros Hs. split.
  - intros k v. rewrite send_lookup. case_decide as Hk; [destruct Hk; by subst|apply Hs].
  - rewrite send_lookup. case_decide as Hk; [done|]. destruct (outcome job) as [v|] eqn:E.
    + by destruct Hk.
    + destruct (ch !! job) eqn:Ec; [|done]. apply Hs in Ec. congruence.
Qed.

Lemma send_keep job ch k : ch !! k = outcome k → sent job ch !! k = outcome k.
Proof. intros H. rewrite send_lookup. case_decide as Hk; [destruct Hk; by subst|done]. Qed.

(** Worker [n]'s or caller [n]'s new place. *)
Local Ltac moved :=
  let n := fresh in let x := fresh in let H := fresh in
  intros n x H;
  first [lookup_insert H; [right|by left]; simpl
        |apply lookup_app_Some in H as [?|[_ [_ <-]%list_lookup_singleton_Some]]; [by left|by right]].

Lemma results_step : invariant (M := pool_machine outcome) results_ok.
Proof.
  intros e s s' Hok H. pose proof Hok as [Hs Hr Hd Hw Hc]. destruct s as [js tot fl ws cs ch rd dr].
  eapply results_move; [exact Hok|..]; clear Hok; simpl in *; destruct e; step_cases H;
    try done; try (by intros; left); try (by intros; auto); try (by moved).
  all: repeat match goal with
       | H : ?l !! ?i = Some _, Hx : ∀ n w, ?l !! n = Some w → _ |- _ => apply Hx in H; simpl in H
       | H : bool_decide _ = true |- _ => apply bool_decide_eq_true in H
       end.
  all: first
    [ apply (send_ok _ _ Hs)
    | intros ?; apply send_keep
    | intros k [->%elem_of_singleton|]%elem_of_union; auto
    | intros k ?; rewrite elem_of_union; auto
    | intros k [?| ->%list_elem_of_singleton]%elem_of_app; auto
    | moved; auto ].
  all: first
    [ by apply (send_ok _ _ Hs)
    | rewrite elem_of_union, elem_of_singleton; by left
    | split; [done|by rewrite <-Hr] ].
Qed.

(** ** Executions *)

Definition spurious (e : event) : bool := match e with Spurious _ => true | _ => false end.

(** How many more steps a call and a worker can cause. *)
Definition caller_weight (c : Caller) : Z :=
  match c with
  | Submitting => 14 | Counted _ => 13 | Growing => 5 | Refused => 3 | Parked => 2
  | Receiving => 1 | Returned _ => 0
  end.
Definition worker_weight (w : Worker) : Z :=
  match stage_of w with
  | Running _ => 6 | Waking _ => 5 | Dropping _ => 4 | Finishing => 3 | Looking => 2 | Leaving => 1
  | Asleep | Gone => 0
  end.
Definition weight (s : Pool) : Z :=
  sum_over caller_weight (callers s) + 5 * Z.of_nat (length (jobs s))
  + sum_over worker_weight (workers s).

#[local] Arguments caller_weight !_ /.
#[local] Arguments worker_weight _ /.

Lemma weight_step e s s' : spurious e = false → step e s = Some s' → weight s' + 1 <= weight s.
Proof.
  intros Hsp H. destruct s as [js tot fl ws cs ch rd dr]. unfold weight.
  destruct e; [..|done]; step_cases H; sums; lia.
Qed.

Lemma weight_nonneg s : 0 <= weight s.
Proof.
  unfold weight.
  assert (0 <= sum_over caller_weight (callers s)) by (apply sum_over_nonneg; by intros []).
  assert (0 <= sum_over worker_weight (workers s)) by (apply sum_over_nonneg; by intros [? []]). lia.
Qed.

Lemma weight_run es s s' :
  Forall (λ e, spurious e = false) es → run (M := pool_machine outcome) es s = Some s' →
  Z.of_nat (length es) + weight s' <= weight s.
Proof.
  intros Hes. revert s. induction Hes as [|e es He _ IH]; intros s H; simpl in *; [simplify_eq; lia|].
  apply bind_Some in H as (s1&H1&H). apply weight_step in H1; [|done]. apply IH in H. lia.
Qed.

(** ** What an execution from the start has reached *)

Context (calls : nat).

Record Reached (s : Pool) : Prop := {
  reached_counters : counters_ok base_size s;
  reached_placed : placed s;
  reached_results : results_ok s;
  reached_calls : length (callers s) = calls
}.

Lemma length_step e s s' : step e s = Some s' → length (callers s') = length (callers s).
Proof.
  intros H. destruct s. destruct e; step_cases H; by rewrite ?length_insert.
Qed.

Lemma Reached_step : invariant (M := pool_machine outcome) Reached.
Proof.
  intros e s s' [H1 H2 H3 H4] H. split;
    [by eapply counters_step|by eapply placed_step|by eapply results_step|].
  by rewrite (length_step _ _ _ H).
Qed.

Lemma sum_over_replicate {A} (f : A → Z) n a : sum_over f (replicate n a) = Z.of_nat n * f a.
Proof. induction n as [|n IH]; simpl; [done|]. rewrite IH. lia. Qed.

Lemma Reached_start spawned s :
  (base_size ≤ BLOCKING_POOL_CEILING)%nat →
  start_blocking_pool base_size spawned calls = Some s → Reached s.
Proof.
  intros Hb H. unfold start_blocking_pool in H. case_match; [|done]. injection H as <-.
  split; [split| |split|]; simpl; rewrite ?sum_over_replicate; simpl; try lia.
  - by apply Forall_replicate.
  - intros job. simpl. rewrite sum_over_replicate. simpl.
    destruct (decide (job < calls)%nat).
    + by rewrite (lookup_replicate_2 calls), Z.mul_0_r by done.
    + rewrite (lookup_ge_None_2 (replicate calls Submitting)); [by rewrite Z.mul_0_r|].
      rewrite length_replicate. lia.
  - done.
  - by intros job ?%elem_of_empty.
  - by intros job ?%elem_of_nil.
  - intros n w [-> _]%lookup_replicate. done.
  - intros n c [-> _]%lookup_replicate. done.
  - apply length_replicate.
Qed.

(** A machine in which nothing but a spurious wake-up can happen. *)
Definition stuck (s : Pool) : Prop := ∀ e, spurious e = false → step e s = None.

(** Nobody works any more, ... *)
Lemma stuck_workers s w : stuck s → w ∈ workers s → stage_of w = Asleep ∨ stage_of w = Gone.
Proof.
  intros Hs [n Hn]%list_elem_of_lookup. specialize (Hs (Work n) eq_refl).
  unfold exec, pool_machine, pool_step in Hs. rewrite Hn in Hs. simpl in Hs. unfold run_worker in Hs.
  destruct (stage_of w); try done; [|by left|by right]. by destruct (jobs s).
Qed.

(** ... nothing is queued, because a base worker would have been woken for it, ... *)
Lemma stuck_jobs s : (0 < base_size)%nat → Reached s → stuck s → jobs s = [].
Proof.
  intros Hpos [[_ _ Hb Hc _ Hw] _ _ _] Hs.
  destruct (sum_over_pos base (workers s)) as (w&Hin&Hwb); [lia|].
  assert (sum_over base_looking (workers s) = 0) as Hl.
  { apply sum_over_zero. intros w' Hin'. unfold base_looking.
    by destruct (stuck_workers s w' Hs Hin') as [-> | ->]. }
  assert (0 < sum_over sleeping (workers s)) as Hsl.
  { apply list_elem_of_lookup in Hin as [n Hn].
    pose proof (sum_over_elem sleeping (workers s) n w ltac:(by intros [? []]) Hn) as Hle.
    pose proof (Forall_lookup_1 _ _ _ _ Hc Hn) as Hch. unfold in_character, sleeping, asleep, base in *.
    destruct (stuck_workers s w Hs (list_elem_of_lookup_2 _ _ _ Hn)) as [E|E]; rewrite E in *; [lia|].
    by rewrite Hch in Hwb. }
  specialize (Hw Hsl). rewrite Hl in Hw. by destruct (jobs s).
Qed.

(** ... and every call has its answer. *)
Lemma stuck_callers s (call : nat) c :
  (0 < base_size)%nat → Reached s → stuck s → callers s !! call = Some c →
  c = Returned (outcome call).
Proof.
  intros Hpos HR Hs Hc. pose proof (stuck_jobs s Hpos HR Hs) as Hj.
  destruct HR as [_ Hp Hres _].
  assert (pushed c = 1 → call ∈ dropped s) as Hdrop.
  { intros Hpc. specialize (Hp call). rewrite Hj, Hc in Hp. simpl in Hp. rewrite Hpc in Hp.
    rewrite (sum_over_zero (holds call)) in Hp.
    - destruct (sum_over_pos (is_job call) (dropped s)) as (k&Hk&Hk'); [lia|].
      unfold is_job in Hk'. case_bool_decide; by subst.
    - intros w Hw. unfold holds. by destruct (stuck_workers s w Hs Hw) as [-> | ->]. }
  pose proof (Hs (Count call) eq_refl) as H1. pose proof (Hs (Push call 0) eq_refl) as H2.
  pose proof (Hs (Spawn call true) eq_refl) as H3. pose proof (Hs (Undo call) eq_refl) as H4.
  pose proof (Hs (Wake call) eq_refl) as H5. pose proof (Hs (Receive call) eq_refl) as H6.
  unfold exec, pool_machine, pool_step in H1, H2, H3, H4, H5, H6. rewrite Hc in H1, H2, H3, H4, H5, H6. destruct c; simpl in *; try done.
  - exfalso. destruct (existsb asleep (workers s)) eqn:E.
    + apply existsb_exists in E as (w&[n Hn]%list_elem_of_In%list_elem_of_lookup&Ha).
      specialize (Hs (Push call n) eq_refl). unfold exec, pool_machine, pool_step in Hs. rewrite Hc in Hs.
      simpl in Hs. unfold push in Hs. simpl in Hs. destruct (existsb asleep (workers s)); [|done].
      rewrite Hn in Hs. simpl in Hs. simpl in Ha. by rewrite Ha in Hs.
    + unfold push in H2. simpl in H2. by rewrite E in H2.
  - rewrite bool_decide_true in H5; [done|]. by apply Hres, Hdrop.
  - unfold receive in H6. destruct (channel s !! call); [done|].
    rewrite bool_decide_true in H6; [done|]. by apply Hdrop.
  - destruct (caller_ok _ Hres call _ Hc) as [_ ->]. done.
Qed.

(** The jobs an execution queues, and the jobs its workers take, in order. *)
Definition queued_by (es : list event) : list Job :=
  omap (λ e, match e with Push call _ => Some call | _ => None end) es.

Definition takes (e : event) (s : Pool) : list Job :=
  match e with
  | Work n =>
      match stage_of <$> workers s !! n, jobs s with
      | Some Looking, job :: _ => [job]
      | _, _ => []
      end
  | _ => []
  end.

Fixpoint taken (es : list event) (s : Pool) : list Job :=
  match es with
  | [] => []
  | e :: es => takes e s ++ match step e s with Some s' => taken es s' | None => [] end
  end.

(** A call queues its job once. *)
Lemma queued_step e s s' job :
  step e s = Some s' →
  sum_over (is_job job) (queued_by [e]) + default 0 (pushed <$> callers s !! job)
  = default 0 (pushed <$> callers s' !! job).
Proof.
  intros H. destruct s as [js tot fl ws cs ch rd dr].
  destruct e; step_cases H; try done; erewrite lookup_insert_pushed by eassumption; simpl; lia.
Qed.

Lemma queued_run es s s' job :
  run (M := pool_machine outcome) es s = Some s' →
  sum_over (is_job job) (queued_by es) + default 0 (pushed <$> callers s !! job)
  = default 0 (pushed <$> callers s' !! job).
Proof.
  revert s. induction es as [|e es IH]; intros s H; simpl in H; [by simplify_eq|].
  apply bind_Some in H as (s1&H1&H). apply IH in H. pose proof (queued_step e s s1 job H1).
  change (queued_by (e :: es)) with (queued_by ([e] ++ es)). unfold queued_by in *.
  rewrite omap_app, sum_over_app. lia.
Qed.

Lemma NoDup_counted (l : list Job) : (∀ job, sum_over (is_job job) l <= 1) → NoDup l.
Proof.
  induction l as [|a l IH]; intros H; constructor.
  - intros [i Hi]%list_elem_of_lookup. specialize (H a). simpl in H.
    pose proof (sum_over_elem (is_job a) l i a (is_job_nonneg a) Hi) as Hle.
    unfold is_job at 1 in H. unfold is_job at 1 in Hle. rewrite bool_decide_true in H, Hle by done. lia.
  - apply IH. intros job. specialize (H job). simpl in H. pose proof (is_job_nonneg job a). lia.
Qed.

Lemma fifo_step e s s' : step e s = Some s' → jobs s ++ queued_by [e] = takes e s ++ jobs s'.
Proof.
  intros H. destruct s as [js tot fl ws cs ch rd dr].
  destruct e; step_cases H; unfold takes; simpl;
    repeat match goal with H : ws !! _ = Some _ |- _ => rewrite H end; by rewrite ?app_nil_r.
Qed.

Lemma fifo_run es s s' :
  run (M := pool_machine outcome) es s = Some s' → jobs s ++ queued_by es = taken es s ++ jobs s'.
Proof.
  revert s. induction es as [|e es IH]; intros s H; simpl in H; [simplify_eq; by rewrite app_nil_r|].
  apply bind_Some in H as (s1&H1&H). apply IH in H. pose proof (fifo_step e s s1 H1) as Hf.
  change (queued_by (e :: es)) with (queued_by ([e] ++ es)). unfold queued_by at 1.
  rewrite omap_app, app_assoc. fold (queued_by [e]). fold (queued_by es).
  rewrite Hf, <-app_assoc, H, app_assoc. simpl. by rewrite H1.
Qed.
End invariants.

Lemma blocking_pool_base_size_range cpu_count :
  (BLOCKING_POOL_BASE_MINIMUM ≤ blocking_pool_base_size cpu_count ≤ BLOCKING_POOL_CEILING)%nat.
Proof.
  unfold blocking_pool_base_size, BLOCKING_POOL_BASE_MINIMUM, BLOCKING_POOL_CEILING.
  destruct (Nat.ltb_spec cpu_count 4); [lia|]. destruct (Nat.ltb_spec 16 cpu_count); lia.
Qed.

Section properties.
Context (outcome : Job → option Z) (cpu_count : nat) (spawned : nat → bool) (calls : nat).
Local Existing Instance pool_machine.
Local Abbreviation run es s := (run (M := pool_machine outcome) es s).
Local Abbreviation step e s := (exec (Machine := pool_machine outcome) e s).

Lemma reached_run es s0 s :
  blocking_pool cpu_count spawned calls = Some s0 → run es s0 = Some s →
  Reached outcome (blocking_pool_base_size cpu_count) calls s.
Proof.
  intros H0. apply run_invariant; [apply Reached_step|].
  eapply Reached_start; [apply blocking_pool_base_size_range|done].
Qed.

(** C38: no job is lost and no wake-up is missed: however the fibers' calls and
    the workers interleave, once nothing can happen any more every call has
    returned what its own job computed (an error if it panicked), the queue is
    empty and the pool has shrunk back to its base. *)
Theorem pool_serves es s0 s :
  blocking_pool cpu_count spawned calls = Some s0 → run es s0 = Some s →
  stuck outcome s →
  callers s = (λ call, Returned (outcome call)) <$> seq 0 calls
  ∧ jobs s = [] ∧ in_flight s = 0
  ∧ total_threads s = Z.of_nat (blocking_pool_base_size cpu_count).
Proof.
  intros H0 Hr Hs. pose proof (reached_run _ _ _ H0 Hr) as HR.
  pose proof (blocking_pool_base_size_range cpu_count) as [Hb _].
  assert (0 < blocking_pool_base_size cpu_count)%nat as Hpos by (unfold BLOCKING_POOL_BASE_MINIMUM in Hb; lia).
  assert (∀ (call : nat) c, callers s !! call = Some c → c = Returned (outcome call)) as Hc
    by (intros call c; by apply stuck_callers with (base_size := blocking_pool_base_size cpu_count) (calls := calls)).
  pose proof (stuck_jobs _ _ _ _ Hpos HR Hs) as Hj.
  destruct HR as [[Ht Hf Hbase Hch _ _] _ _ Hlen]. split_and!; [|done|..].
  - apply list_eq. intros i. rewrite list_lookup_fmap. destruct (callers s !! i) as [c|] eqn:E.
    + rewrite (Hc i c E), lookup_seq_lt; [done|]. apply lookup_lt_Some in E. lia.
    + apply lookup_ge_None_1 in E. by rewrite lookup_seq_ge by lia.
  - rewrite Hf, Hj. rewrite (sum_over_zero counted), (sum_over_zero busy); [done|..].
    + intros w Hw. unfold busy. by destruct (stuck_workers _ s w Hs Hw) as [-> | ->].
    + intros c [i Hi]%list_elem_of_lookup. by rewrite (Hc i c Hi).
  - rewrite Ht, <-Hbase. rewrite (sum_over_zero owes_thread), Z.add_0_r.
    + apply sum_over_ext. intros w Hw. unfold live, base.
      pose proof (proj1 (Forall_forall _ _) Hch w Hw) as Hi. unfold in_character in Hi.
      destruct (stuck_workers _ s w Hs Hw) as [E|E]; rewrite E in *; by rewrite Hi.
    + intros c [i Hi]%list_elem_of_lookup. by rewrite (Hc i c Hi).
Qed.

(** The pool's work ends: apart from spurious wake-ups, any interleaving is
    over after 14 steps per call and 2 per base worker. *)
Theorem pool_terminates es s0 s :
  blocking_pool cpu_count spawned calls = Some s0 → run es s0 = Some s →
  Forall (λ e, spurious e = false) es →
  Z.of_nat (length es) <= 14 * Z.of_nat calls + 2 * Z.of_nat (blocking_pool_base_size cpu_count).
Proof.
  intros H0 Hr Hes. pose proof (weight_run _ _ _ _ Hes Hr). pose proof (weight_nonneg s).
  enough (weight s0 = 14 * Z.of_nat calls + 2 * Z.of_nat (blocking_pool_base_size cpu_count)) by lia.
  unfold blocking_pool, start_blocking_pool in H0. case_match; [|done]. injection H0 as <-.
  unfold weight. simpl. rewrite !sum_over_replicate. cbv [caller_weight worker_weight stage_of]. lia.
Qed.

(** The counters never underflow and the pool never outgrows its ceiling:
    the base and every live worker are counted, and at most 16 threads are. *)
Theorem pool_bounds es s0 s :
  blocking_pool cpu_count spawned calls = Some s0 → run es s0 = Some s →
  Z.of_nat (blocking_pool_base_size cpu_count) <= total_threads s <= Z.of_nat BLOCKING_POOL_CEILING
  ∧ sum_over live (workers s) <= total_threads s
  ∧ sum_over busy (workers s) <= in_flight s.
Proof.
  intros H0 Hr. destruct (reached_run _ _ _ H0 Hr) as [[Ht Hf Hb Hc Hl _] _ _ _].
  assert (0 <= sum_over owes_thread (callers s)) by (apply sum_over_nonneg; by intros [|[]| | | | |]).
  assert (0 <= sum_over counted (callers s)) by (apply sum_over_nonneg; by intros []).
  assert (sum_over base (workers s) <= sum_over live (workers s)); [|lia].
  clear -Hc. induction Hc as [|w ws Hw _ IH]; simpl; [done|].
  unfold in_character in Hw. unfold base at 1, live at 1.
  destruct w as [[] []]; simpl in *; try done; lia.
Qed.

(** Jobs are taken in the order they were queued, each once: what the
    workers have taken is the first part of what was queued, the rest is still
    in the queue. *)
Theorem pool_fifo es s0 s :
  blocking_pool cpu_count spawned calls = Some s0 → run es s0 = Some s →
  queued_by es = taken outcome es s0 ++ jobs s ∧ NoDup (queued_by es).
Proof.
  intros H0 Hr. split.
  - pose proof (fifo_run _ _ _ _ Hr) as Hf. unfold blocking_pool, start_blocking_pool in H0.
    case_match; [|done]. injection H0 as <-. done.
  - apply NoDup_counted. intros job. pose proof (queued_run _ _ _ _ job Hr) as Hq.
    assert (default 0 (pushed <$> callers s !! job) <= 1) by by destruct (callers s !! job) as [[]|].
    assert (0 <= default 0 (pushed <$> callers s0 !! job)) by by destruct (callers s0 !! job) as [[]|].
    lia.
Qed.
End properties.

(** ** Concrete executions *)

(** Two calls on a single-processor machine, the second of which panics. *)
Definition sample_outcome (job : Job) : option Z := if (job =? 1)%nat then None else Some (100 + Z.of_nat job).
Definition sample_events : list event :=
  [Work 0; Work 1; Count 0; Count 1; Push 1 0; Push 0 1; Work 1; Work 2; Work 0; Work 2; Work 1;
   Work 1; Work 2; Wake 0; Receive 0; Wake 1; Work 1; Receive 1; Work 1; Work 1; Work 2; Work 2;
   Work 2; Work 3].
Definition sample_start : option Pool := blocking_pool 1 (λ _, true) 2.

Lemma pool_serves_witness :
  ∃ s0 s, sample_start = Some s0
  ∧ run (M := pool_machine sample_outcome) sample_events s0 = Some s
  ∧ callers s = [Returned (Some 100); Returned None] ∧ total_threads s = 4.
Proof.
  do 2 eexists. split; [by vm_compute|]. split; [by vm_compute|].
  edestruct (pool_serves sample_outcome 1 (λ _, true) 2 sample_events) as (Hc&_&_&Ht);
    [by vm_compute|by vm_compute| |by split].
  intros [i|i w|i b|i|i|i|n|n] He; try (by do 3 (destruct i as [|i]; [by vm_compute|])); [|done].
  by do 5 (destruct n as [|n]; [by vm_compute|]).
Defined.

Lemma pool_terminates_witness :
  Z.of_nat (length sample_events) <= 14 * 2 + 2 * 4.
Proof.
  eapply (pool_terminates sample_outcome 1 (λ _, true) 2 sample_events);
    [by vm_compute|by vm_compute|by repeat (apply Forall_cons; split; [done|])].
Defined.

(** Four calls occupy the base; a fifth is served by an overflow worker, and a
    sixth arrives while that worker, finding no job, is on its way out. *)
Definition growth_race_events : list event :=
  [Count 0; Push 0 0; Work 0; Count 1; Push 1 0; Work 1; Count 2; Push 2 0; Work 2; Count 3;
   Push 3 0; Work 3; Count 4; Push 4 0; Spawn 4 true; Work 4; Work 4; Work 4; Work 4; Work 4;
   Work 4; Count 5; Push 5 0; Work 4].

(** The growth decision is not race-free: a worker past its last look at the
    queue still counts as a thread, so a call can be left queued behind base
    workers that are all busy, with the pool below its ceiling, nobody about to
    grow it and more jobs in flight than threads. *)
Lemma growth_race :
  ∃ s0 s, blocking_pool 1 (λ _, true) 6 = Some s0
  ∧ run (M := pool_machine (λ _, Some 0)) growth_race_events s0 = Some s
  ∧ jobs s = [5%nat]
  ∧ total_threads s < in_flight s ∧ total_threads s < Z.of_nat BLOCKING_POOL_CEILING
  ∧ callers s = replicate 6 Parked
  ∧ Forall (λ w, stage_of w = Gone ∨ ∃ job, stage_of w = Running job) (workers s).
Proof.
  do 2 eexists. split_and!; [by vm_compute|by vm_compute|by vm_compute..|].
  do 5 (apply Forall_cons; split; [first [right; by eexists|by left]|]). by apply Forall_nil.
Qed.

Lemma pool_bounds_witness :
  ∃ s0 s, blocking_pool 1 (λ _, true) 6 = Some s0
  ∧ run (M := pool_machine (λ _, Some 0)) growth_race_events s0 = Some s
  ∧ 4 <= total_threads s <= 16.
Proof.
  do 2 eexists. split; [by vm_compute|]. split; [by vm_compute|].
  edestruct (pool_bounds (λ _, Some 0) 1 (λ _, true) 6 growth_race_events) as [Hb _];
    [by vm_compute|by vm_compute|exact Hb].
Defined.

Lemma pool_fifo_witness :
  ∃ s0 s, blocking_pool 1 (λ _, true) 6 = Some s0
  ∧ run (M := pool_machine (λ _, Some 0)) growth_race_events s0 = Some s
  ∧ [0; 1; 2; 3; 4; 5]%nat = taken (λ _, Some 0) growth_race_events s0 ++ jobs s.
Proof.
  do 2 eexists. split; [by vm_compute|]. split; [by vm_compute|].
  edestruct (pool_fifo (λ _, Some 0) 1 (λ _, true) 6 growth_race_events) as [Hf _];
    [by vm_compute|by vm_compute|exact Hf].
Defined.
