(* ===== verification/TypeMatch.v ===== *)
(** * Matching, compatibility and mangling of types

    [typechecker/checker.rs] ([types_match], [types_compatible]), the type algebra
    of [typechecker/checker/sums.rs] ([merge_types], [specialize_variant],
    [resolve_type], [resolve_payload_type]) and [codegen/generator/mangle.rs].
    Proved: the derived equality decides equality; matching is an equivalence on
    the types calls dispatch on; equal tags are exactly matching types there, and
    a mangled symbol determines the overload member. *)

From Stdlib Require Import Ascii.
From S2P Require Import Prelude Bytes Token Ast.

(** ** Induction and the derived equality of types *)

Section Ty_induction.
Variable P : Ty → Prop.
Hypotheses (HNum : P Ty.Num) (HText : P Ty.Text) (HBool : P Ty.Bool) (HUnit : P Ty.Unit)
  (HArray : ∀ t, P t → P (Ty.Array t)) (HMap : ∀ k v, P k → P v → P (Ty.Map k v))
  (HSet : ∀ t, P t → P (Ty.Set_ t))
  (HRecord : ∀ fs, Forall (λ f, P f.2) fs → P (Ty.Record fs))
  (HNamed : ∀ n fs ms, Forall (λ f, P f.2) fs → P (Ty.Named n fs ms))
  (HGeneric : ∀ n, P (Ty.Generic n))
  (HFunction : ∀ ps r, Forall P ps → P r → P (Ty.Function ps r))
  (HSum : ∀ n vs, Forall (λ v, Forall P (variant_fields v)) vs → P (Ty.Sum n vs)).

Fixpoint Ty_rect' (t : Ty) : P t :=
  let all := fix all ts : Forall P ts :=
    match ts with [] => Forall_nil_2 _ | t :: ts => Forall_cons_2 _ _ _ (Ty_rect' t) (all ts) end in
  let all_fields := fix all_fields (fs : list (string * Ty)) : Forall (λ f, P f.2) fs :=
    match fs with
    | [] => Forall_nil_2 _
    | f :: fs => Forall_cons_2 _ _ _ (Ty_rect' f.2) (all_fields fs)
    end in
  match t with
  | Ty.Num => HNum | Ty.Text => HText | Ty.Bool => HBool | Ty.Unit => HUnit
  | Ty.Array t => HArray t (Ty_rect' t)
  | Ty.Map k v => HMap k v (Ty_rect' k) (Ty_rect' v)
  | Ty.Set_ t => HSet t (Ty_rect' t)
  | Ty.Record fs => HRecord fs (all_fields fs)
  | Ty.Named n fs ms => HNamed n fs ms (all_fields fs)
  | Ty.Generic n => HGeneric n
  | Ty.Function ps r => HFunction ps r (all ps) (Ty_rect' r)
  | Ty.Sum n vs =>
      HSum n vs ((fix all_variants vs : Forall (λ v, Forall P (variant_fields v)) vs :=
        match vs with
        | [] => Forall_nil_2 _
        | v :: vs => Forall_cons_2 _ _ _ (all (variant_fields v)) (all_variants vs)
        end) vs)
  end.
End Ty_induction.

(** [xs.iter().zip(ys).all(f)]. *)
Definition zip_all {A B} (f : A → B → bool) : list A → list B → bool :=
  fix go xs ys :=
    match xs, ys with
    | x :: xs, y :: ys => f x y && go xs ys
    | _, _ => true
    end.

(** The [PartialEq] of two vectors. *)
Definition vec_eq {A B} (f : A → B → bool) (xs : list A) (ys : list B) : bool :=
  (length xs =? length ys)%nat && zip_all f xs ys.

(** [#[derive(PartialEq)]] on [Type]. *)
Fixpoint Ty_eq (a b : Ty) : bool :=
  match a, b with
  | Ty.Num, Ty.Num | Ty.Text, Ty.Text | Ty.Bool, Ty.Bool | Ty.Unit, Ty.Unit => true
  | Ty.Array a, Ty.Array b => Ty_eq a b
  | Ty.Map ka va, Ty.Map kb vb => Ty_eq ka kb && Ty_eq va vb
  | Ty.Set_ a, Ty.Set_ b => Ty_eq a b
  | Ty.Record fa, Ty.Record fb =>
      vec_eq (λ f g, bool_decide (f.1 = g.1) && Ty_eq f.2 g.2) fa fb
  | Ty.Named na fa ma, Ty.Named nb fb mb =>
      bool_decide (na = nb) && vec_eq (λ f g, bool_decide (f.1 = g.1) && Ty_eq f.2 g.2) fa fb
      && bool_decide (ma = mb)
  | Ty.Generic na, Ty.Generic nb => bool_decide (na = nb)
  | Ty.Function pa ra, Ty.Function pb rb => vec_eq Ty_eq pa pb && Ty_eq ra rb
  | Ty.Sum na va, Ty.Sum nb vb =>
      bool_decide (na = nb)
      && vec_eq (λ v w, bool_decide (variant_name v = variant_name w)
                        && vec_eq Ty_eq (variant_fields v) (variant_fields w)) va vb
  | _, _ => false
  end.

(** ** Exact matching and structural compatibility: [checker.rs] *)

Definition is_generic (ty : Ty) : bool := match ty with Ty.Generic _ => true | _ => false end.

(** [matches!(other, Type::Num | Type::Generic { .. })]. *)
Definition is_num_or_generic (ty : Ty) : bool :=
  match ty with Ty.Num | Ty.Generic _ => true | _ => false end.

Fixpoint types_match (parameter arg : Ty) : bool :=
  match parameter, arg with
  | Ty.Generic _, other | other, Ty.Generic _ => is_num_or_generic other
  | Ty.Num, Ty.Num | Ty.Text, Ty.Text | Ty.Bool, Ty.Bool | Ty.Unit, Ty.Unit => true
  | Ty.Array a, Ty.Array b => types_match a b
  | Ty.Map ka va, Ty.Map kb vb => types_match ka kb && types_match va vb
  | Ty.Set_ a, Ty.Set_ b => types_match a b
  | (Ty.Named a _ _ | Ty.Sum a _), (Ty.Named b _ _ | Ty.Sum b _) => bool_decide (a = b)
  | Ty.Function pa ra, Ty.Function pb rb =>
      (length pa =? length pb)%nat && zip_all types_match pa pb && types_match ra rb
  | _, _ => false
  end.

Fixpoint types_compatible (a b : Ty) : bool :=
  match a, b with
  | Ty.Generic _, _ | _, Ty.Generic _ => true
  | Ty.Sum n1 v1, Ty.Sum n2 v2 =>
      bool_decide (n1 = n2) && (length v1 =? length v2)%nat
      && zip_all (λ x y, bool_decide (variant_name x = variant_name y)
                         && (length (variant_fields x) =? length (variant_fields y))%nat
                         && zip_all types_compatible (variant_fields x) (variant_fields y)) v1 v2
  | Ty.Array e1, Ty.Array e2 => types_compatible e1 e2
  | Ty.Map k1 v1, Ty.Map k2 v2 => types_compatible k1 k2 && types_compatible v1 v2
  | Ty.Set_ e1, Ty.Set_ e2 => types_compatible e1 e2
  | _, _ => Ty_eq a b
  end.

(** ** The type algebra of sums: [checker/sums.rs] *)

Definition merge_types (a b : Ty) : Ty :=
  match a, b with
  | Ty.Sum na va, Ty.Sum nb vb =>
      if bool_decide (na = nb) && (length va =? length vb)%nat
         && zip_all (λ x y, bool_decide (variant_name x = variant_name y)) va vb
      then Ty.Sum na (zip_with (λ x y,
             mkSumVariant (variant_name x)
               (zip_with (λ fx fy, if is_generic fx then fy else fx)
                  (variant_fields x) (variant_fields y))) va vb)
      else a
  | _, _ => a
  end.

Definition specialize_fields (fields arg_types : list Ty) : list Ty :=
  imap (λ i field, if is_generic field then default field (arg_types !! i) else field) fields.

(** Only the first variant of that name is touched. *)
Fixpoint specialize_first (variant : string) (arg_types : list Ty) (variants : list SumVariant)
    : list SumVariant :=
  match variants with
  | [] => []
  | v :: rest =>
      if bool_decide (variant_name v = variant)
      then mkSumVariant (variant_name v) (specialize_fields (variant_fields v) arg_types) :: rest
      else v :: specialize_first variant arg_types rest
  end.

Definition specialize_variant (sum_type : Ty) (variant : string) (arg_types : list Ty) : Ty :=
  match sum_type with
  | Ty.Sum name variants => Ty.Sum name (specialize_first variant arg_types variants)
  | _ => sum_type
  end.

Definition constructed_variant (value : Expression) (ty : Ty) : option string :=
  match ty with
  | Ty.Sum _ variants =>
      name ← match value with
             | Expression.Call (Expression.Identifier name _) _ _ _ => Some name
             | Expression.Identifier name _ => Some name
             | _ => None
             end;
      if existsb (λ variant, bool_decide (variant_name variant = name)) variants
      then Some name else None
  | _ => None
  end.

Section resolution.
Variable sum_types : gmap string Ty.
(** [self.env.get_type]. *)
Variable get_type : string → option Ty.

Fixpoint resolve_type (ty : Ty) : Ty :=
  match ty with
  | Ty.Named name [] _ =>
      match sum_types !! name with
      | Some sum => sum
      | None => match get_type name with Some (Ty.Named _ _ _ as named) => named | _ => ty end
      end
  | Ty.Function parameters return_type =>
      Ty.Function (map resolve_type parameters) (resolve_type return_type)
  | Ty.Array elem => Ty.Array (resolve_type elem)
  | Ty.Map key value => Ty.Map (resolve_type key) (resolve_type value)
  | Ty.Set_ elem => Ty.Set_ (resolve_type elem)
  | Ty.Record fields => Ty.Record (map (λ f, (f.1, resolve_type f.2)) fields)
  | _ => ty
  end.

Fixpoint resolve_payload_type (field_type : Ty) : Ty :=
  match field_type with
  | Ty.Sum name [] => default field_type (sum_types !! name)
  | Ty.Named name [] _ =>
      match get_type name with
      | Some (Ty.Named _ (_ :: _) _ as resolved) => resolved
      | _ => field_type
      end
  | Ty.Array elem => Ty.Array (resolve_payload_type elem)
  | Ty.Map key value => Ty.Map (resolve_payload_type key) (resolve_payload_type value)
  | Ty.Record fields => Ty.Record (map (λ f, (f.1, resolve_payload_type f.2)) fields)
  | _ => field_type
  end.
End resolution.

(** ** Symbol mangling: [codegen/generator/mangle.rs]

    The tag of a type with no case of its own is its [Debug] text with everything
    but letters, digits and [$] dropped; beyond ASCII, which characters are
    alphanumeric and which [Debug] escapes is the standard library's tables. *)
Class CharTables : Type := {
  alphanumeric_ext : Z → bool;
  debug_printable_ext : Z → bool
}.

#[export] Instance ascii_tables : CharTables :=
  {| alphanumeric_ext := λ _, true; debug_printable_ext := λ _, true |}.

Section mangle.
Context `{CharTables}.

(** [char::is_alphanumeric]. *)
Definition is_alphanumeric (c : Z) : bool :=
  if (c <? 128)%Z then in_range 48 57 c || in_range 65 90 c || in_range 97 122 c
  else alphanumeric_ext c.

(** A character inside the [Debug] form of a string. *)
Definition debug_char (c : Z) : list Z :=
  if (c =? 0)%Z then [92; 48]%Z
  else if (c =? 9)%Z then [92; 116]%Z
  else if (c =? 10)%Z then [92; 110]%Z
  else if (c =? 13)%Z then [92; 114]%Z
  else if (c =? 34)%Z || (c =? 92)%Z then [92; c]%Z
  else if in_range 32 126 c || ((127 <? c)%Z && debug_printable_ext c) then [c]
  else [92; 117; 123]%Z ++ render 16 c ++ [125]%Z.

Definition debug_str (s : string) : list Z :=
  [34]%Z ++ concat (debug_char <$> from_utf8_lossy (bs s)) ++ [34]%Z.

(** A [Debug] list from the texts of its elements. *)
Definition debug_list (elements : list (list Z)) : list Z :=
  [91]%Z ++ concat (imap (λ i e, (if (i =? 0)%nat then [] else bs ", ") ++ e) elements) ++ [93]%Z.

(** [#[derive(Debug)]] on [Type], as characters. *)
Fixpoint debug_type (ty : Ty) : list Z :=
  match ty with
  | Ty.Num => bs "Num" | Ty.Text => bs "Text" | Ty.Bool => bs "Bool" | Ty.Unit => bs "Unit"
  | Ty.Array elem => bs "Array(" ++ debug_type elem ++ bs ")"
  | Ty.Map key value => bs "Map(" ++ debug_type key ++ bs ", " ++ debug_type value ++ bs ")"
  | Ty.Set_ elem => bs "Set(" ++ debug_type elem ++ bs ")"
  | Ty.Record fields =>
      bs "Record(" ++ debug_list (map (λ f, bs "(" ++ debug_str f.1 ++ bs ", " ++ debug_type f.2
                                            ++ bs ")") fields) ++ bs ")"
  | Ty.Named name fields methods =>
      bs "Named { name: " ++ debug_str name ++ bs ", fields: "
      ++ debug_list (map (λ f, bs "(" ++ debug_str f.1 ++ bs ", " ++ debug_type f.2 ++ bs ")") fields)
      ++ bs ", methods: " ++ debug_list (map debug_str methods) ++ bs " }"
  | Ty.Generic name => bs "Generic { name: " ++ debug_str name ++ bs " }"
  | Ty.Function parameters return_type =>
      bs "Function { parameters: " ++ debug_list (map debug_type parameters)
      ++ bs ", return_type: " ++ debug_type return_type ++ bs " }"
  | Ty.Sum name variants =>
      bs "Sum { name: " ++ debug_str name ++ bs ", variants: "
      ++ debug_list (map (λ v, bs "SumVariant { name: " ++ debug_str (variant_name v)
           ++ bs ", fields: " ++ debug_list (map debug_type (variant_fields v)) ++ bs " }") variants)
      ++ bs " }"
  end.

Fixpoint type_mangle (ty : Ty) : string :=
  (match ty with
   | Ty.Num => "N"
   | Ty.Text => "T"
   | Ty.Bool => "B"
   | Ty.Unit => "U"
   | Ty.Array elem => "A" +:+ type_mangle elem
   | Ty.Named name _ _ | Ty.Sum name _ => "named$" +:+ name
   | Ty.Generic _ => "N"
   | other =>
       string_of_bytes (encode_str (filter (λ c, is_alphanumeric c || (c =? 36)%Z = true)
                                      (bs "X" ++ debug_type other)%list))
   end)%string.

Definition fmt_parameter_types (parameters : list Ty) : string :=
  String.concat ", " (map type_label parameters).

Definition operator_word (name : string) : option string :=
  if bool_decide (name = "+") then Some "add"
  else if bool_decide (name = "-") then Some "sub"
  else if bool_decide (name = "*") then Some "mul"
  else if bool_decide (name = "/") then Some "div"
  else if bool_decide (name = "%") then Some "mod"
  else if bool_decide (name = "==") then Some "eq"
  else if bool_decide (name = "!=") then Some "ne"
  else if bool_decide (name = "<") then Some "lt"
  else if bool_decide (name = "<=") then Some "le"
  else if bool_decide (name = ">") then Some "gt"
  else if bool_decide (name = ">=") then Some "ge"
  else if bool_decide (name = "&&") then Some "and"
  else if bool_decide (name = "||") then Some "or"
  else None.

(** The name a member's symbol starts with. *)
Definition mangle_base (name : string) : string :=
  match operator_word name with Some w => "op." +:+ w | None => name end.

Definition mangle_overload (name : string) (parameters : list Ty) : string :=
  foldl (λ s p, s +:+ "$" +:+ type_mangle p) (mangle_base name) parameters.

Definition method_symbol (type_name method_name : string) : string :=
  let m := if bool_decide (method_name = "`") then "op$backtick" else method_name in
  type_name +:+ "_" +:+ m.
End mangle.

(** ** The derived equality decides equality *)

Lemma zip_all_Forall2 {A B} (f : A → B → bool) xs ys :
  length xs = length ys → zip_all f xs ys = true ↔ Forall2 (λ x y, f x y = true) xs ys.
Proof.
  revert ys. induction xs as [|x xs IH]; intros [|y ys] Hl; try done.
  simpl. rewrite andb_true_iff, (IH ys) by (simpl in Hl; lia).
  split; [intros []; by constructor|by inversion 1].
Qed.

Lemma vec_eq_Forall2 {A B} (f : A → B → bool) xs ys :
  vec_eq f xs ys = true ↔ Forall2 (λ x y, f x y = true) xs ys.
Proof.
  unfold vec_eq. rewrite andb_true_iff, Nat.eqb_eq. split.
  - intros [Hl Hz]. by apply zip_all_Forall2.
  - intros Hf. pose proof (Forall2_length _ _ _ Hf). by rewrite zip_all_Forall2.
Qed.

Lemma vec_eq_eq {A} (f : A → A → bool) xs :
  Forall (λ x, ∀ y, f x y = true ↔ x = y) xs → ∀ ys, vec_eq f xs ys = true ↔ xs = ys.
Proof.
  intros Hf ys. rewrite vec_eq_Forall2. split.
  - intros H2. revert Hf. induction H2 as [|x y xs ys Hxy H2 IH]; intros Hf; [done|].
    inversion Hf as [|?? Hx Hxs]; subst. f_equal; [by apply Hx|by apply IH].
  - intros <-. induction Hf as [|x xs Hx Hxs IH]; constructor; [by apply Hx|done].
Qed.

(** Componentwise equalities against an equality of constructors. *)
Local Ltac eqs := split; [intros; destruct_and?; by subst|intros [=]; by subst].

Lemma Ty_eq_iff : ∀ a b, Ty_eq a b = true ↔ a = b.
Proof.
  assert (∀ fs : list (string * Ty), Forall (λ f, ∀ b, Ty_eq f.2 b = true ↔ f.2 = b) fs →
    ∀ gs, vec_eq (λ f g, bool_decide (f.1 = g.1) && Ty_eq f.2 g.2) fs gs = true ↔ fs = gs) as Hfs.
  { intros fs Hf. apply vec_eq_eq. eapply Forall_impl; [exact Hf|]. intros [n t] Ht [m u]; simpl in *.
    rewrite andb_true_iff, bool_decide_eq_true, Ht. eqs. }
  induction a as [ | | | |a IH|k v IHk IHv|a IH|fs IH|n fs ms IH|n|ps r IHp IHr|n vs IH]
    using Ty_rect'; intros [ | | | |b|kb vb|b|gs|m gs ms'|m|qs rb|m ws]; simpl; try done.
  - rewrite IH. eqs.
  - rewrite andb_true_iff, IHk, IHv. eqs.
  - rewrite IH. eqs.
  - rewrite Hfs by done. eqs.
  - rewrite !andb_true_iff, !bool_decide_eq_true, Hfs by done. eqs.
  - rewrite bool_decide_eq_true. eqs.
  - rewrite andb_true_iff, (vec_eq_eq Ty_eq ps), IHr by done. eqs.
  - rewrite andb_true_iff, bool_decide_eq_true, vec_eq_eq; [eqs|].
    eapply Forall_impl; [exact IH|]. intros [x fs] Hx [y gs]; simpl in *.
    rewrite andb_true_iff, bool_decide_eq_true, (vec_eq_eq Ty_eq fs) by done. eqs.
Qed.

#[export] Instance Ty_eq_dec : EqDecision Ty.
Proof.
  intros a b. destruct (Ty_eq a b) eqn:E; [left; by apply Ty_eq_iff|right].
  intros ?%Ty_eq_iff. congruence.
Defined.

(** ** Matching is an equivalence where calls dispatch *)

Lemma types_match_sym : ∀ a b, types_match a b = types_match b a.
Proof.
  induction a as [ | | | |a IH|k v IHk IHv|a IH|fs IH|n fs ms IH|n|ps r IHp IHr|n vs IH]
    using Ty_rect'; intros [ | | | |b|kb vb|b|gs|m gs ms'|m|qs rb|m ws]; simpl; try done.
  - by rewrite IHk, IHv.
  - apply bool_decide_ext. naive_solver.
  - apply bool_decide_ext. naive_solver.
  - rewrite IHr, Nat.eqb_sym. f_equal. destruct (length qs =? length ps)%nat eqn:E; [|done]. simpl.
    clear IHr. apply Nat.eqb_eq in E. revert qs E. induction IHp as [|p ps Hp _ IH]; intros [|q qs] E; try done.
    simpl. rewrite Hp. f_equal. apply IH. simpl in E; lia.
  - apply bool_decide_ext. naive_solver.
  - apply bool_decide_ext. naive_solver.
Qed.

Lemma types_match_trans : ∀ a b c,
  types_match a b = true → types_match b c = true → types_match a c = true.
Proof.
  induction a as [ | | | |a IH|k v IHk IHv|a IH|fs IH|n fs ms IH|n|ps r IHp IHr|n vs IH]
    using Ty_rect'; intros [ | | | |b|kb vb|b|gs|m gs ms'|m|qs rb|m ws]
      [ | | | |c|kc vc|c|hs|o hs ms''|o|ss rc|o xs]; simpl; try done;
    rewrite ?andb_true_iff, ?bool_decide_eq_true, ?Nat.eqb_eq; try naive_solver congruence.
  intros [[E1 Hz1] Hr1] [[E2 Hz2] Hr2]. split; [split; [congruence|]|by eapply IHr].
  rewrite zip_all_Forall2 in Hz1, Hz2 by congruence. rewrite zip_all_Forall2 by congruence.
  clear IHr Hr1 Hr2 E1 E2. revert qs ss Hz1 Hz2. induction IHp as [|p ps Hp _ IH]; intros qs ss Hz1 Hz2.
  - inversion Hz1; subst. inversion Hz2; subst. constructor.
  - inversion Hz1; subst. inversion Hz2; subst. constructor; [by eapply Hp|by eapply IH].
Qed.

(** No anonymous record where matching would look: the source never matches one. *)
Fixpoint matchable (ty : Ty) : bool :=
  match ty with
  | Ty.Record _ => false
  | Ty.Array t | Ty.Set_ t => matchable t
  | Ty.Map k v => matchable k && matchable v
  | Ty.Function ps r => forallb matchable ps && matchable r
  | _ => true
  end.

Lemma types_match_refl : ∀ a, types_match a a = matchable a.
Proof.
  induction a as [ | | | |a IH|k v IHk IHv|a IH|fs IH|n fs ms IH|n|ps r IHp IHr|n vs IH]
    using Ty_rect'; simpl; try done.
  - by rewrite IHk, IHv.
  - by rewrite bool_decide_true.
  - rewrite Nat.eqb_refl, IHr. simpl. f_equal.
    induction IHp as [|p ps Hp _ IH]; simpl; [done|]. by rewrite Hp, IH.
  - by rewrite bool_decide_true.
Qed.

(** On the types a call dispatches on, matching is an equivalence: it is
    symmetric and transitive everywhere, and a type matches itself exactly when no
    anonymous record sits where matching looks. *)
Theorem types_match_equivalence :
  (∀ a b, types_match a b = types_match b a) ∧
  (∀ a b c, types_match a b = true → types_match b c = true → types_match a c = true) ∧
  (∀ a, types_match a a = matchable a).
Proof. split_and!; [apply types_match_sym|apply types_match_trans|apply types_match_refl]. Qed.

(** ** Tags and symbols *)

(** The types whose tag is spelled out, not left to the [Debug] fallback: the
    scalars, declared types, payloads, and arrays of these. *)
Fixpoint tagged (ty : Ty) : bool :=
  match ty with
  | Ty.Num | Ty.Text | Ty.Bool | Ty.Unit | Ty.Named _ _ _ | Ty.Sum _ _ | Ty.Generic _ => true
  | Ty.Array t => tagged t
  | _ => false
  end.

Section mangle_laws.
Context `{CharTables}.

Lemma type_mangle_match : ∀ a b,
  tagged a = true → tagged b = true → type_mangle a = type_mangle b ↔ types_match a b = true.
Proof.
  induction a as [ | | | |a IH| | | |n fs ms|n| |n vs];
    intros [ | | | |b| | | |m gs ms'|m| |m ws] Ha Hb; simpl in *; try done;
    rewrite ?bool_decide_eq_true, <-?IH by done; split; first [by intros [=]|congruence].
Qed.

(** Texts without a [$]. *)
Fixpoint plain (s : string) : bool :=
  match s with
  | EmptyString => true
  | String c s => negb (Ascii.eqb c "$"%char) && plain s
  end.

(** The [$]-separated parts of a tag. *)
Fixpoint tag_parts (ty : Ty) : list string :=
  match ty with
  | Ty.Array t => match tag_parts t with p :: ps => ("A" +:+ p) :: ps | [] => [] end
  | Ty.Named name _ _ | Ty.Sum name _ => ["named"; name]
  | _ => [type_mangle ty]
  end.

Definition joined (parts : list string) : string :=
  foldr (λ p s, "$" +:+ p +:+ s) EmptyString parts.

Lemma plain_app s t : plain (s +:+ t) = plain s && plain t.
Proof.
  induction s as [|c s IH]; [done|]. change (String c s +:+ t) with (String c (s +:+ t)).
  simpl. by rewrite IH, andb_assoc.
Qed.

(** Where the [$]s are is a function of the text. *)
Lemma split_plain p q s t :
  plain p → plain q → (s = "" ∨ ∃ s', s = "$" +:+ s')%string → (t = "" ∨ ∃ t', t = "$" +:+ t')%string →
  p +:+ s = q +:+ t → p = q ∧ s = t.
Proof.
  revert q. induction p as [|c p IH]; intros [|d q] Hp Hq Hs Ht E.
  - done.
  - destruct Hs as [->|[s' ->]]; [done|]. injection E as <- _. done.
  - destruct Ht as [->|[t' ->]]; [done|]. injection E as -> _. done.
  - injection E as -> E. simpl in Hp, Hq. apply andb_prop_elim in Hp as [_ Hp], Hq as [_ Hq].
    by destruct (IH q Hp Hq Hs Ht E) as [-> ->].
Qed.

Lemma joined_shape ps : (joined ps = "" ∨ ∃ s, joined ps = "$" +:+ s)%string.
Proof. destruct ps; simpl; eauto. Qed.

Lemma joined_inj ps qs : Forall plain ps → Forall plain qs → joined ps = joined qs → ps = qs.
Proof.
  revert qs. induction ps as [|p ps IH]; intros [|q qs] Hp Hq E; try done.
  apply Forall_cons in Hp as [? Hp], Hq as [? Hq]. simpl in E. injection E as E.
  destruct (split_plain p q (joined ps) (joined qs)) as [-> E']; auto using joined_shape.
  f_equal. auto.
Qed.

Lemma append_assoc s t u : (s +:+ t) +:+ u = s +:+ t +:+ u.
Proof. induction s as [|c s IH]; [done|]. exact (f_equal (String c) IH). Qed.

Lemma append_empty s : s +:+ "" = s.
Proof. induction s as [|c s IH]; [done|]. exact (f_equal (String c) IH). Qed.

Lemma joined_app ps qs : joined (ps ++ qs) = joined ps +:+ joined qs.
Proof. induction ps as [|p ps IH]; [done|]. simpl. by rewrite IH, !append_assoc. Qed.

(** Declared names in a tag have no [$] of their own. *)
Fixpoint plain_names (ty : Ty) : bool :=
  match ty with
  | Ty.Array t => plain_names t
  | Ty.Named name _ _ | Ty.Sum name _ => plain name
  | _ => true
  end.

Lemma tag_parts_joined t : tagged t = true → joined (tag_parts t) = "$" +:+ type_mangle t.
Proof.
  induction t; simpl; try done.
  - intros Ht. specialize (IHt Ht). destruct (tag_parts t) as [|p ps]; [done|].
    simpl in *. apply (inj (String.append "$")) in IHt. by rewrite <-IHt, append_assoc.
  - intros _. by rewrite append_empty.
  - intros _. by rewrite append_empty.
Qed.

Lemma tag_parts_plain t : tagged t = true → plain_names t → Forall plain (tag_parts t).
Proof.
  induction t as [| | | |t IH| | | |n ? ?|n| |n ?]; simpl; intros Ht Hn; try done;
    try by repeat constructor.
  specialize (IH Ht Hn). destruct (tag_parts t) as [|p ps]; [constructor|].
  apply Forall_cons in IH as [Hp Hps]. constructor; [by rewrite plain_app|done].
Qed.

Lemma tag_parts_cons t : tagged t = true → ∃ p ps, tag_parts t = p :: ps.
Proof.
  induction t as [| | | |t IH| | | | | | | ]; simpl; intros Ht; eauto; try done.
  destruct (IH Ht) as (?&?&->). eauto.
Qed.

Lemma tag_parts_parse a b xs ys :
  tagged a = true → tagged b = true → tag_parts a ++ xs = tag_parts b ++ ys →
  type_mangle a = type_mangle b ∧ xs = ys.
Proof.
  revert b xs ys. induction a as [| | | |a IH| | | |na ? ?|?| |na ?];
    intros [| | | |b| | | |nb ? ?|?| |nb ?] xs ys Ha Hb; simpl in *; try done;
    try (destruct (tag_parts_cons _ Ha) as (p&ps&Ep); rewrite Ep in *);
    try (destruct (tag_parts_cons _ Hb) as (q&qs&Eq); rewrite Eq in *);
    intros E; try (injection E; discriminate); try (by injection E as -> ->); try (by injection E as ->).
  destruct (IH b xs ys Ha Hb) as [-> ->]; [|done].
  rewrite Eq. simpl in *. injection E as E1 E. change (p = q) in E1. by rewrite E1, E.
Qed.

(** The text of a symbol, part by part. *)
Definition symbol_parts (parameters : list Ty) : list string := parameters ≫= tag_parts.

Lemma mangle_overload_parts name ps :
  Forall (λ p, tagged p = true) ps → mangle_overload name ps = mangle_base name +:+ joined (symbol_parts ps).
Proof.
  unfold mangle_overload. generalize (mangle_base name) as base. intros base Hps. revert base.
  induction Hps as [|p ps Hp _ IH]; intros base; simpl; [by rewrite append_empty|].
  rewrite IH, joined_app, tag_parts_joined, !append_assoc by done. done.
Qed.

Lemma symbol_parts_parse ps qs :
  Forall (λ p, tagged p = true) ps → Forall (λ p, tagged p = true) qs →
  symbol_parts ps = symbol_parts qs → Forall2 (λ p q, types_match p q = true) ps qs.
Proof.
  intros Hp. revert qs. unfold symbol_parts.
  induction Hp as [|p ps Hp _ IH]; intros [|q qs] Hq E; simpl in E.
  - constructor.
  - apply Forall_cons in Hq as [Hq _]. destruct (tag_parts_cons q Hq) as (?&?&Eq). by rewrite Eq in E.
  - destruct (tag_parts_cons p Hp) as (?&?&Ep). by rewrite Ep in E.
  - apply Forall_cons in Hq as [Hq Hqs]. apply tag_parts_parse in E as [E1 E2]; [|done..].
    constructor; [by apply type_mangle_match|auto].
Qed.

(** Names a symbol's first part can be read back from: operators, and names
    without [$] outside a module called [op]. *)
Definition symbol_name (name : string) : bool :=
  bool_decide (is_Some (operator_word name)) || (plain name && negb (String.prefix "op." name)).

Lemma operator_word_inj m n w : operator_word m = Some w → operator_word n = Some w → m = n.
Proof. unfold operator_word. intros Hm Hn. repeat case_bool_decide; simplify_eq/=; congruence. Qed.

Lemma op_prefix w : negb (String.prefix "op." ("op." +:+ w)) = false.
Proof. by destruct w. Qed.

Lemma mangle_base_inj m n :
  symbol_name m → symbol_name n → mangle_base m = mangle_base n → m = n.
Proof.
  unfold symbol_name, mangle_base.
  destruct (operator_word m) as [w|] eqn:Em, (operator_word n) as [v|] eqn:En; simpl; intros Hm Hn E.
  - apply (inj (String.append "op.")) in E. subst. by eapply operator_word_inj.
  - subst n. by rewrite op_prefix, andb_false_r in Hn.
  - subst m. by rewrite op_prefix, andb_false_r in Hm.
  - done.
Qed.

Lemma mangle_base_plain n : symbol_name n → plain (mangle_base n).
Proof.
  unfold symbol_name, mangle_base. destruct (operator_word n) as [w|] eqn:E; simpl.
  - intros _. unfold operator_word in E. by repeat case_bool_decide; simplify_eq.
  - intros [? _]%andb_prop_elim. done.
Qed.

End mangle_laws.


(** Outside those types the tag and the checker disagree, both ways: a set of a
    generic payload matches a set of numbers but has another tag, and two sets of
    unrelated records share one because the fallback drops the underscore. *)
Lemma set_tags_differ :
  types_match (Ty.Set_ (Ty.Generic "T")) (Ty.Set_ Ty.Num) = true ∧
  type_mangle (Ty.Set_ (Ty.Generic "T")) ≠ type_mangle (Ty.Set_ Ty.Num).
Proof. by vm_compute. Qed.

Lemma set_tags_collide :
  types_match (Ty.Set_ (named_ref "A_b")) (Ty.Set_ (named_ref "Ab")) = false ∧
  type_mangle (Ty.Set_ (named_ref "A_b")) = type_mangle (Ty.Set_ (named_ref "Ab")).
Proof. by vm_compute. Qed.

(** A module called [op] reaches the operators' symbols. *)
Lemma op_module_collides :
  mangle_overload "op.add" [named_ref "op.P"; named_ref "op.P"] =
  mangle_overload "+" [named_ref "op.P"; named_ref "op.P"].
Proof. done. Qed.

(** [Type_method] does not say where the type's name ends. *)
Lemma method_symbol_collides : method_symbol "A" "b_c" = method_symbol "A_b" "c".
Proof. done. Qed.
