(* ===== verification/TypeErrors.v ===== *)
(** * The checker's diagnostics: [typechecker/checker.rs], [TypeError]

    Every error the type checker raises, with what it carries; the registry code
    and the span it reports under, from [typechecker/checker/errors.rs].  Counts
    ([usize]) are integers. *)

From S2P Require Import Prelude Bytes Token Ast Codes.

Module Te.
Inductive TypeError : Type :=
| UndefinedVariable (name : string) (span : Span)
| TypeMismatch (expected : Ty) (got : Ty) (span : Span)
| NotAFunction (got : Ty) (span : Span)
| WrongNumberOfArguments (expected : Z) (got : Z) (span : Span)
| ImmutableAssignment (name : string) (span : Span)
| ImmutableFieldWrite (name : string) (span : Span)
| MutableAliasOfImmutable (name : string) (aliased : string) (parameter : bool) (span : Span)
| ImmutableAliasOfMutable (name : string) (aliased : string) (span : Span)
| MutableStoreOfImmutable (aliased : string) (parameter : bool) (span : Span)
| MutatingMethodOnImmutable (method : string) (receiver : string) (span : Span)
| AssertionNeedsMatcher (name : string) (span : Span)
| ExpectOutsideTest (span : Span)
| MatcherArity (matcher : string) (expected : Z) (got : Z) (span : Span)
| MatcherTypeUnsupported (matcher : string) (ty : Ty) (span : Span)
| MutatingMethodDeclaredImmutable (type_name : string) (method : string)
    (lambda_parameter_shadows_receiver : bool) (span : Span)
| DuplicateDefinition (name : string) (span : Span)
| NoMatchingOverload (name : string) (arg_types : list Ty) (arg_spans : list Span) (candidates :
    list (list Ty)) (span : Span)
| AmbiguousOverload (name : string) (arg_types : list Ty) (candidates : list (list Ty)) (span :
    Span)
| OverloadMissingAnnotation (name : string) (parameter : string) (span : Span)
| UnannotatedParameter (function : string) (parameter : string) (span : Span)
| SignatureArity (subject : string) (expected : Z) (got : Z) (span : Span)
| UninferableLambdaParameter (parameter : string) (open_overload : option string) (span : Span)
| RecursiveFunctionNeedsReturnType (function : string) (span : Span)
| SiteIsImmutable (field : string) (span : Span)
| MisplacedSiteParameter (subject : string) (span : Span)
| OverloadCallBeforeDefinition (name : string) (span : Span)
| UnannotatedOverloadCall (name : string) (parameters : list Ty) (span : Span)
| UnannotatedOverloadMember (name : string) (parameters : list Ty) (span : Span)
| ComparisonOverloadNotBool (operator : string) (got : Ty) (span : Span)
| RefutableConstructorArg (constructor : string) (span : Span)
| NonExhaustiveMatch (scrutinee : Ty) (missing : list string) (mutable_binding : bool) (span :
    Span)
| AssertionNeverHolds (binding : string) (known : list string) (span : Span)
| UnreachableMatchArm (binding : string) (variant : option string) (known : list string) (span :
    Span)
| PayloadOfUnknownVariant (sum : string) (span : Span)
| PayloadOfPayloadlessVariant (variant : string) (span : Span)
| UnknownConstructor (constructor : string) (sum : string) (known : list string) (span : Span)
| ConstructorPatternOnNonSum (constructor : string) (got : Ty) (span : Span)
| InvalidEntryPointSignature (got : list Ty) (span : Span)
| InvalidBuiltinArgument (message : string) (span : Span)
| ExportedMutableGlobal (name : string) (span : Span)
| OperatorMustBeMember (operator : string) (span : Span)
| OperatorMemberArity (operator : string) (got : Z) (span : Span)
| UnknownMember (type_name : string) (member : string) (in_scope : bool) (receiver : option
    string) (more_arguments : bool) (span : Span)
| MethodCalledAsFunction (type_name : string) (member : string) (receiver : option string)
    (more_arguments : bool) (span : Span)
| NotRenderable (name : string) (got : Ty) (span : Span)
| StaticCallNeedsReceiverValue (method : string) (type_name : string) (span : Span)
| MissingConstructorField (type_name : string) (field : string) (span : Span)
| UnknownConstructorField (type_name : string) (field : string) (span : Span)
| ReservedName (name : string) (reserved_for : string) (span : Span)
| FunctionTypedField (name : string) (span : Span)
| PositionalAccessOnNamedRecord (field : string) (span : Span)
| RecordPositionOutOfRange (position : string) (size : Z) (span : Span)
| RecordUpdatePositionOutOfRange (position : string) (size : Z) (span : Span)
| MultiplePositionalSpreads (span : Span)
| InvalidPayloadType (variant : string) (got : Ty) (span : Span)
| AtomicBindingNotMutable (name : string) (span : Span)
| AtomicBindingUsedBare (name : string) (span : Span)
| SharedAcrossFibers (name : string) (primitive : string) (touch : Span) (span : Span)
| UnresolvedResultPayload (function : string) (parameter : string) (variant : string) (span :
    Span)
| NeverReachable (name : string) (span : Span)
| ReachableOnlyFromTests (name : string) (span : Span)
| TrapOutsideRootFile (span : Span)
| SecondTrap (first : Span) (span : Span)
| TrapWithoutProcessImport (span : Span)
| TrapArmNotASignalPattern (span : Span)
| DuplicateTrapArm (variant : string) (first : Span) (span : Span)
| ListenerIdentityMismatch (has_identity : bool) (span : Span).

Definition code (error : TypeError) : Code :=
  match error with
  | UndefinedVariable _ _ => Codes.UndefinedVariable
  | TypeMismatch _ _ _ => Codes.TypeMismatch
  | NotAFunction _ _ => Codes.NotAFunction
  | WrongNumberOfArguments _ _ _ => Codes.WrongNumberOfArguments
  | ImmutableAssignment _ _ => Codes.ImmutableAssignment
  | ImmutableFieldWrite _ _ => Codes.ImmutableFieldWrite
  | MutableAliasOfImmutable _ _ _ _ => Codes.MutableAliasOfImmutable
  | ImmutableAliasOfMutable _ _ _ => Codes.ImmutableAliasOfMutable
  | MutableStoreOfImmutable _ _ _ => Codes.MutableStoreOfImmutable
  | MutatingMethodOnImmutable _ _ _ => Codes.MutatingMethodOnImmutable
  | AssertionNeedsMatcher _ _ => Codes.AssertionNeedsMatcher
  | ExpectOutsideTest _ => Codes.ExpectOutsideTest
  | MatcherArity _ _ _ _ => Codes.MatcherArity
  | MatcherTypeUnsupported _ _ _ => Codes.MatcherTypeUnsupported
  | MutatingMethodDeclaredImmutable _ _ _ _ => Codes.MutatingMethodDeclaredImmutable
  | DuplicateDefinition _ _ => Codes.DuplicateDefinition
  | NoMatchingOverload _ _ _ _ _ => Codes.NoMatchingOverload
  | AmbiguousOverload _ _ _ _ => Codes.AmbiguousOverload
  | OverloadMissingAnnotation _ _ _ => Codes.OverloadMissingAnnotation
  | UnannotatedParameter _ _ _ => Codes.UnannotatedParameter
  | SignatureArity _ _ _ _ => Codes.SignatureArity
  | UninferableLambdaParameter _ _ _ => Codes.UninferableLambdaParameter
  | RecursiveFunctionNeedsReturnType _ _ => Codes.RecursiveFunctionNeedsReturnType
  | SiteIsImmutable _ _ => Codes.SiteIsImmutable
  | MisplacedSiteParameter _ _ => Codes.MisplacedSiteParameter
  | OverloadCallBeforeDefinition _ _ => Codes.OverloadCallBeforeDefinition
  | UnannotatedOverloadCall _ _ _ => Codes.UnannotatedOverloadMember
  | UnannotatedOverloadMember _ _ _ => Codes.UnannotatedOverloadMember
  | ComparisonOverloadNotBool _ _ _ => Codes.ComparisonOverloadNotBool
  | RefutableConstructorArg _ _ => Codes.RefutableConstructorArg
  | NonExhaustiveMatch _ _ _ _ => Codes.NonExhaustiveMatch
  | AssertionNeverHolds _ _ _ => Codes.AssertionNeverHolds
  | UnreachableMatchArm _ _ _ _ => Codes.UnreachableMatchArm
  | PayloadOfUnknownVariant _ _ => Codes.PayloadOfUnknownVariant
  | PayloadOfPayloadlessVariant _ _ => Codes.PayloadOfPayloadlessVariant
  | UnknownConstructor _ _ _ _ => Codes.UnknownConstructor
  | ConstructorPatternOnNonSum _ _ _ => Codes.ConstructorPatternOnNonSum
  | InvalidEntryPointSignature _ _ => Codes.InvalidEntryPointSignature
  | InvalidBuiltinArgument _ _ => Codes.InvalidBuiltinArgument
  | ExportedMutableGlobal _ _ => Codes.ExportedMutableGlobal
  | OperatorMustBeMember _ _ => Codes.OperatorMustBeMember
  | OperatorMemberArity _ _ _ => Codes.OperatorMemberArity
  | UnknownMember _ _ _ _ _ _ => Codes.UnknownMember
  | MethodCalledAsFunction _ _ _ _ _ => Codes.MethodCalledAsFunction
  | NotRenderable _ _ _ => Codes.NotRenderable
  | StaticCallNeedsReceiverValue _ _ _ => Codes.StaticCallNeedsReceiverValue
  | MissingConstructorField _ _ _ => Codes.MissingConstructorField
  | UnknownConstructorField _ _ _ => Codes.UnknownConstructorField
  | ReservedName _ _ _ => Codes.ReservedName
  | FunctionTypedField _ _ => Codes.FunctionTypedField
  | PositionalAccessOnNamedRecord _ _ => Codes.PositionalAccessOnNamedRecord
  | RecordPositionOutOfRange _ _ _ => Codes.RecordPositionOutOfRange
  | RecordUpdatePositionOutOfRange _ _ _ => Codes.RecordUpdatePositionOutOfRange
  | MultiplePositionalSpreads _ => Codes.MultiplePositionalSpreads
  | InvalidPayloadType _ _ _ => Codes.InvalidPayloadType
  | AtomicBindingNotMutable _ _ => Codes.AtomicBindingNotMutable
  | AtomicBindingUsedBare _ _ => Codes.AtomicBindingUsedBare
  | SharedAcrossFibers _ _ _ _ => Codes.SharedAcrossFibers
  | UnresolvedResultPayload _ _ _ _ => Codes.UnresolvedResultPayload
  | NeverReachable _ _ => Codes.NeverReachable
  | ReachableOnlyFromTests _ _ => Codes.ReachableOnlyFromTests
  | TrapOutsideRootFile _ => Codes.TrapOutsideRootFile
  | SecondTrap _ _ => Codes.SecondTrap
  | TrapWithoutProcessImport _ => Codes.TrapWithoutProcessImport
  | TrapArmNotASignalPattern _ => Codes.TrapArmNotASignalPattern
  | DuplicateTrapArm _ _ _ => Codes.DuplicateTrapArm
  | ListenerIdentityMismatch _ _ => Codes.ListenerIdentityMismatch
  end.

Definition span (error : TypeError) : Span :=
  match error with
  | UndefinedVariable _ span | TypeMismatch _ _ span | NotAFunction _ span
  | WrongNumberOfArguments _ _ span | ImmutableAssignment _ span | ImmutableFieldWrite _ span
  | MutableAliasOfImmutable _ _ _ span | ImmutableAliasOfMutable _ _ span
  | MutableStoreOfImmutable _ _ span | MutatingMethodOnImmutable _ _ span
  | AssertionNeedsMatcher _ span | ExpectOutsideTest span | MatcherArity _ _ _ span
  | MatcherTypeUnsupported _ _ span | MutatingMethodDeclaredImmutable _ _ _ span
  | DuplicateDefinition _ span | NoMatchingOverload _ _ _ _ span | AmbiguousOverload _ _ _ span
  | OverloadMissingAnnotation _ _ span | UnannotatedParameter _ _ span
  | SignatureArity _ _ _ span | UninferableLambdaParameter _ _ span
  | RecursiveFunctionNeedsReturnType _ span | SiteIsImmutable _ span
  | MisplacedSiteParameter _ span | OverloadCallBeforeDefinition _ span
  | UnannotatedOverloadCall _ _ span | UnannotatedOverloadMember _ _ span
  | ComparisonOverloadNotBool _ _ span | RefutableConstructorArg _ span
  | NonExhaustiveMatch _ _ _ span | AssertionNeverHolds _ _ span
  | UnreachableMatchArm _ _ _ span | PayloadOfUnknownVariant _ span
  | PayloadOfPayloadlessVariant _ span | UnknownConstructor _ _ _ span
  | ConstructorPatternOnNonSum _ _ span | InvalidEntryPointSignature _ span
  | InvalidBuiltinArgument _ span | ExportedMutableGlobal _ span | OperatorMustBeMember _ span
  | OperatorMemberArity _ _ span | UnknownMember _ _ _ _ _ span
  | MethodCalledAsFunction _ _ _ _ span | NotRenderable _ _ span
  | StaticCallNeedsReceiverValue _ _ span | MissingConstructorField _ _ span
  | UnknownConstructorField _ _ span | ReservedName _ _ span | FunctionTypedField _ span
  | PositionalAccessOnNamedRecord _ span | RecordPositionOutOfRange _ _ span
  | RecordUpdatePositionOutOfRange _ _ span | MultiplePositionalSpreads span
  | InvalidPayloadType _ _ span | AtomicBindingNotMutable _ span | AtomicBindingUsedBare _ span
  | SharedAcrossFibers _ _ _ span | UnresolvedResultPayload _ _ _ span | NeverReachable _ span
  | ReachableOnlyFromTests _ span | TrapOutsideRootFile span | SecondTrap _ span
  | TrapWithoutProcessImport span | TrapArmNotASignalPattern span | DuplicateTrapArm _ _ span
  | ListenerIdentityMismatch _ span => span
  end.

Definition reserved_name (name : string) (span : Span) : option TypeError :=
  reserved_for ← reserved_for name; Some (ReservedName name reserved_for span).
End Te.
Export Te (TypeError).
