(* ===== verification/Env.v ===== *)
(** * The checker's lexical environment: [typechecker/checker/env.rs]

    A stack of scopes and the operations on it, with the aliasing facts a binding
    carries ([checker/aliasing.rs], the data) and the proven variant set narrowing
    keeps on it.  The vector of scopes is never empty: it is its last scope and
    the enclosing ones, innermost first. *)

From S2P Require Import Prelude Bytes Token Ast TypeMatch TypeErrors.

(** ** What a binding carries *)

Record ValueAliasing : Type := mkValueAliasing {
  aliased_mutable : list (Z * string);
  aliased_immutable : list (Z * string);
  aliased_parameters : list (Z * nat * string);
  called_parameters : list (Z * nat * string);
  reaches_setter_receiver : bool
}.

Definition no_aliasing : ValueAliasing := mkValueAliasing [] [] [] [] false.

(** [ValueAliasing::merge]. *)
Definition merge (self other : ValueAliasing) : ValueAliasing :=
  mkValueAliasing (aliased_mutable self ++ aliased_mutable other)
    (aliased_immutable self ++ aliased_immutable other)
    (aliased_parameters self ++ aliased_parameters other)
    (called_parameters self ++ called_parameters other)
    (reaches_setter_receiver self || reaches_setter_receiver other).

Definition immutable_witness (a : ValueAliasing) : option (string * bool) :=
  match head (aliased_parameters a) with
  | Some (_, _, name) => Some (name, true)
  | None => (λ '(_, name), (name, false)) <$> head (aliased_immutable a)
  end.

Definition mutable_witness (a : ValueAliasing) : option string := snd <$> head (aliased_mutable a).

Record ResultAliasing : Type := mkResultAliasing {
  fixed : ValueAliasing;
  argument_slots : list nat;
  called_argument_slots : list nat
}.

Definition fresh_result : ResultAliasing := mkResultAliasing no_aliasing [] [].

Record Symbol : Type := mkSymbol {
  type_ : Ty;
  symbol_mutable : bool;
  owner : Z;
  value_aliasing : ValueAliasing;
  symbol_result_aliasing : option ResultAliasing;
  setter_receiver : bool;
  constant : bool;
  symbol_atomic : bool;
  result_parameter : option (Span * nat);
  narrowable : bool;
  symbol_narrowed : option (gset string)
}.

(** ** The environment *)

Abbreviation Scope := (gmap string Symbol).

Record Environment : Type := mkEnvironment {
  current : Scope;
  enclosing : list Scope;
  enforce_reserved_names : bool
}.

(** The scopes from the innermost out; [self.scopes] is its reverse. *)
Definition scopes_in (env : Environment) : list Scope := current env :: enclosing env.

Definition with_scopes (env : Environment) (scopes : list Scope) : Environment :=
  match scopes with
  | current :: enclosing => mkEnvironment current enclosing (enforce_reserved_names env)
  | [] => env
  end.

Definition new : Environment := mkEnvironment ∅ [] true.

Definition push_scope (env : Environment) : Environment :=
  mkEnvironment ∅ (current env :: enclosing env) (enforce_reserved_names env).

Definition pop_scope (env : Environment) : Environment :=
  match enclosing env with
  | scope :: rest => mkEnvironment scope rest (enforce_reserved_names env)
  | [] => env
  end.

Definition insert_symbol (env : Environment) (name : string) (symbol : Symbol) (span : Span)
    : result TypeError Environment :=
  match current env !! name with
  | Some _ => Err (Te.DuplicateDefinition name span)
  | None => Ok (mkEnvironment (<[name := symbol]> (current env)) (enclosing env)
                  (enforce_reserved_names env))
  end.

Definition define_symbol (env : Environment) (name : string) (symbol : Symbol) (span : Span)
    : result TypeError Environment :=
  match (if enforce_reserved_names env then Te.reserved_name name span else None) with
  | Some error => Err error
  | None => insert_symbol env name symbol span
  end.

(** The symbol of a fresh value; [constant] for a payload-less variant. *)
Definition fresh_symbol (ty : Ty) (mutable constant : bool) : Symbol :=
  mkSymbol ty mutable 0 no_aliasing None false constant false None false None.

Definition define (env : Environment) (name : string) (ty : Ty) (mutable : bool) (span : Span)
    : result TypeError Environment :=
  define_symbol env name (fresh_symbol ty mutable false) span.

Definition define_constant (env : Environment) (name : string) (ty : Ty) (span : Span)
    : result TypeError Environment :=
  define_symbol env name (fresh_symbol ty false true) span.

Definition parameter_symbol (name : string) (ty : Ty) (declaration : Z) (slot : nat) : Symbol :=
  mkSymbol ty false declaration (mkValueAliasing [] [] [(declaration, slot, name)] [] false)
    None false false false None false None.

Definition set_narrowable (symbol : Symbol) (narrowable : bool) : Symbol :=
  mkSymbol (type_ symbol) (symbol_mutable symbol) (owner symbol) (value_aliasing symbol)
    (symbol_result_aliasing symbol) (setter_receiver symbol) (constant symbol)
    (symbol_atomic symbol) (result_parameter symbol) narrowable (symbol_narrowed symbol).

Definition narrowable_parameter_symbol (name : string) (ty : Ty) (declaration : Z) (slot : nat)
    : Symbol :=
  set_narrowable (parameter_symbol name ty declaration slot) true.

Definition define_parameter (env : Environment) (name : string) (ty : Ty) (declaration : Z)
    (slot : nat) (span : Span) : result TypeError Environment :=
  define_symbol env name (narrowable_parameter_symbol name ty declaration slot) span.

Definition define_receiver (env : Environment) (ty : Ty) (declaration : Z) (span : Span)
    : result TypeError Environment :=
  insert_symbol env RECEIVER (narrowable_parameter_symbol RECEIVER ty declaration 0) span.

(** Into the root scope, whatever it already holds. *)
Definition define_builtin (env : Environment) (name : string) (ty : Ty) : Environment :=
  match reverse (scopes_in env) with
  | root :: inner =>
      with_scopes env (reverse (<[name := fresh_symbol ty false false]> root :: inner))
  | [] => env
  end.

Definition define_setter_receiver (env : Environment) (name : string) (ty : Ty) (owner : Z)
    (span : Span) : result TypeError Environment :=
  insert_symbol env name
    (mkSymbol ty false owner no_aliasing None true false false None false None) span.

Definition define_binding (env : Environment) (name : string) (ty : Ty) (mutable : bool)
    (owner : Z) (aliasing : ValueAliasing) (span : Span) : result TypeError Environment :=
  define_symbol env name
    (mkSymbol ty mutable owner aliasing None false false false None (negb mutable) None) span.

(** *** Lookups *)

Fixpoint lookup_in (scopes : list Scope) (name : string) : option Symbol :=
  match scopes with
  | [] => None
  | scope :: rest =>
      match scope !! name with Some symbol => Some symbol | None => lookup_in rest name end
  end.

Definition lookup (env : Environment) (name : string) : option Symbol :=
  lookup_in (scopes_in env) name.

(** [lookup_mut], with what its caller does to the symbol it finds. *)
Fixpoint update_in (scopes : list Scope) (name : string) (f : Symbol → Symbol)
    : option (list Scope) :=
  match scopes with
  | [] => None
  | scope :: rest =>
      match scope !! name with
      | Some symbol => Some (<[name := f symbol]> scope :: rest)
      | None => cons scope <$> update_in rest name f
      end
  end.

(** With whether a binding was found. *)
Definition lookup_mut (env : Environment) (name : string) (f : Symbol → Symbol)
    : Environment * bool :=
  match update_in (scopes_in env) name f with
  | Some scopes => (with_scopes env scopes, true)
  | None => (env, false)
  end.

Definition get_type (env : Environment) (name : string) : option Ty := type_ <$> lookup env name.
Definition is_mutable (env : Environment) (name : string) : bool :=
  default false (symbol_mutable <$> lookup env name).
Definition is_atomic (env : Environment) (name : string) : bool :=
  default false (symbol_atomic <$> lookup env name).

Definition is_top_level (env : Environment) (name : string) : bool :=
  match last (scopes_in env) with
  | Some root => bool_decide (is_Some (root !! name))
  | None => false
  end.

(** *** Updates *)

Definition update_type (env : Environment) (name : string) (new_type : Ty) : Environment * bool :=
  lookup_mut env name (λ s,
    mkSymbol new_type (symbol_mutable s) (owner s) (value_aliasing s) (symbol_result_aliasing s)
      (setter_receiver s) (constant s) (symbol_atomic s) (result_parameter s) (narrowable s)
      (symbol_narrowed s)).

Definition set_result_aliasing (env : Environment) (name : string) (r : ResultAliasing)
    : Environment :=
  (lookup_mut env name (λ s,
    mkSymbol (type_ s) (symbol_mutable s) (owner s) (value_aliasing s) (Some r)
      (setter_receiver s) (constant s) (symbol_atomic s) (result_parameter s) (narrowable s)
      (symbol_narrowed s))).1.

Definition mark_atomic (env : Environment) (name : string) : Environment :=
  (lookup_mut env name (λ s,
    mkSymbol (type_ s) (symbol_mutable s) (owner s) (value_aliasing s) (symbol_result_aliasing s)
      (setter_receiver s) (constant s) true (result_parameter s) (narrowable s)
      (symbol_narrowed s))).1.

Definition set_result_parameter (env : Environment) (name : string) (p : option (Span * nat))
    : Environment :=
  (lookup_mut env name (λ s,
    mkSymbol (type_ s) (symbol_mutable s) (owner s) (value_aliasing s) (symbol_result_aliasing s)
      (setter_receiver s) (constant s) (symbol_atomic s) p (narrowable s) (symbol_narrowed s))).1.

(** *** Narrowing *)

Definition is_narrowable (env : Environment) (name : string) : bool :=
  match lookup env name with Some symbol => narrowable symbol | None => false end.

Definition narrowed_variants (env : Environment) (name : string) : option (gset string) :=
  match lookup env name with
  | Some symbol => if narrowable symbol then symbol_narrowed symbol else None
  | None => None
  end.

Definition set_narrowed (narrowed : option (gset string)) (s : Symbol) : Symbol :=
  mkSymbol (type_ s) (symbol_mutable s) (owner s) (value_aliasing s) (symbol_result_aliasing s)
    (setter_receiver s) (constant s) (symbol_atomic s) (result_parameter s) (narrowable s) narrowed.

Definition narrow (env : Environment) (name : string) (variants : gset string) : Environment :=
  (lookup_mut env name (λ s, if narrowable s then set_narrowed (Some variants) s else s)).1.

Definition Snapshot : Type := list (list (string * option (gset string))).

(** Outermost scope first, as the vector is. *)
Definition snapshot_narrowing (env : Environment) : Snapshot :=
  reverse ((λ scope : Scope, (λ '(name, s), (name, symbol_narrowed s)) <$> map_to_list scope)
             <$> scopes_in env).

Definition restore_scope (scope : Scope) (entries : list (string * option (gset string))) : Scope :=
  foldl (λ scope '(name, narrowed), alter (set_narrowed narrowed) name scope) scope entries.

(** [scopes.iter_mut().zip(snapshot)]: scopes past the snapshot stay. *)
Fixpoint restore_zip (scopes : list Scope) (snapshot : Snapshot) : list Scope :=
  match scopes, snapshot with
  | scope :: scopes, entries :: snapshot =>
      restore_scope scope entries :: restore_zip scopes snapshot
  | _, _ => scopes
  end.

Definition restore_narrowing (env : Environment) (snapshot : Snapshot) : Environment :=
  with_scopes env (reverse (restore_zip (reverse (scopes_in env)) snapshot)).

(** ** What a body can do to the environment

    The steps that check a body: scopes pushed and popped, never below [depth]
    scopes; bindings added to the innermost one; the binding a name resolves to
    updated, which never changes whether it is narrowable. *)
Inductive within (depth : nat) : Environment → Environment → Prop :=
| within_done e : within depth e e
| within_push e e' : within depth (push_scope e) e' → within depth e e'
| within_pop e e' :
    (depth < length (scopes_in e))%nat → within depth (pop_scope e) e' → within depth e e'
| within_insert e name symbol span e1 e' :
    insert_symbol e name symbol span = Ok e1 → within depth e1 e' → within depth e e'
| within_update e name f e' :
    (∀ s, narrowable (f s) = narrowable s) →
    within depth (lookup_mut e name f).1 e' → within depth e e'.

(** ** Lookups and scopes *)

Lemma scopes_in_with env scopes : scopes ≠ [] → scopes_in (with_scopes env scopes) = scopes.
Proof. by destruct scopes. Qed.

Lemma push_pop env : pop_scope (push_scope env) = env.
Proof. by destruct env. Qed.

Lemma insert_symbol_Ok env name s span env' :
  insert_symbol env name s span = Ok env' →
  current env !! name = None ∧ scopes_in env' = <[name := s]> (current env) :: enclosing env.
Proof. unfold insert_symbol. intros. by break. Qed.

Lemma update_in_Some scopes name f scopes' :
  update_in scopes name f = Some scopes' →
  ∃ pre scope s post, scopes = pre ++ scope :: post ∧ scope !! name = Some s ∧
    scopes' = pre ++ <[name := f s]> scope :: post.
Proof.
  revert scopes'. induction scopes as [|scope rest IH]; intros scopes' E; [done|]. simpl in E.
  destruct (scope !! name) as [s|] eqn:Es.
  - injection E as <-. by exists [], scope, s, rest.
  - destruct (update_in rest name f) as [r|] eqn:Er; [|done]. injection E as <-.
    destruct (IH r eq_refl) as (pre&sc&s&post&->&?&->). by exists (scope :: pre), sc, s, post.
Qed.

Lemma scopes_in_lookup_mut env name f :
  scopes_in (lookup_mut env name f).1 = default (scopes_in env) (update_in (scopes_in env) name f).
Proof.
  unfold lookup_mut. destruct (update_in _ _ _) as [scopes|] eqn:E; [|done]. simpl.
  apply scopes_in_with. apply update_in_Some in E as (pre&?&?&?&_&_&->). by destruct pre.
Qed.

(** ** A body only grows the scopes it started from *)

Definition kept (a b : Scope) : Prop :=
  ∀ name s, a !! name = Some s → ∃ s', b !! name = Some s' ∧ narrowable s' = narrowable s.
Definition same_names (a b : Scope) : Prop := kept a b ∧ ∀ name, a !! name = None → b !! name = None.

Lemma kept_refl a : kept a a.
Proof. intros name s ?. by exists s. Qed.

Lemma kept_trans a b c : kept a b → kept b c → kept a c.
Proof.
  intros Hab Hbc name s Hs. destruct (Hab _ _ Hs) as (t&Ht&E). destruct (Hbc _ _ Ht) as (u&?&?).
  exists u. split; congruence.
Qed.

Lemma kept_insert a name s : a !! name = None → kept a (<[name := s]> a).
Proof.
  intros Hn m t Hm. exists t. split; [|done]. rewrite lookup_insert_ne; [done|]. by intros <-; rewrite Hn in Hm.
Qed.

Lemma same_names_update a name s f :
  a !! name = Some s → narrowable (f s) = narrowable s → same_names a (<[name := f s]> a).
Proof.
  intros Hs Hf. split; intros m; destruct (decide (m = name)) as [->|Hne].
  - intros t Ht. rewrite Hs in Ht. injection Ht as <-. exists (f s). by rewrite lookup_insert_eq.
  - intros t Ht. exists t. by rewrite lookup_insert_ne.
  - by rewrite Hs.
  - by rewrite lookup_insert_ne.
Qed.

Lemma same_names_refl a : same_names a a.
Proof. split; [apply kept_refl|done]. Qed.

Lemma same_names_trans a b c : same_names a b → same_names b c → same_names a c.
Proof. intros [? ?] [? ?]. split; [by eapply kept_trans|auto]. Qed.

(** The scopes now, seen from those the body started from. *)
Definition grown (scopes scopes' : list Scope) : Prop :=
  match scopes with
  | [] => False
  | c :: rest => ∃ extra c' rest', scopes' = extra ++ c' :: rest' ∧ kept c c' ∧ Forall2 same_names rest rest'
  end.

Lemma Forall2_same_names_refl l : Forall2 same_names l l.
Proof. induction l; constructor; auto using same_names_refl. Qed.

Lemma Forall2_same_names_trans l1 l2 l3 :
  Forall2 same_names l1 l2 → Forall2 same_names l2 l3 → Forall2 same_names l1 l3.
Proof.
  intros H. revert l3. induction H; inversion 1; subst; constructor; eauto using same_names_trans.
Qed.

Lemma grown_refl env : grown (scopes_in env) (scopes_in env).
Proof. exists [], (current env), (enclosing env). split_and!; auto using kept_refl, Forall2_same_names_refl. Qed.

Lemma grown_push scopes env : grown scopes (scopes_in env) → grown scopes (scopes_in (push_scope env)).
Proof.
  destruct scopes as [|c rest]; [done|]. intros (extra&c'&rest'&E&?&?).
  exists (∅ :: extra), c', rest'. simpl. unfold scopes_in in *. simpl. by rewrite E.
Qed.

Lemma grown_pop scopes env :
  (length scopes < length (scopes_in env))%nat → grown scopes (scopes_in env) →
  grown scopes (scopes_in (pop_scope env)).
Proof.
  destruct scopes as [|c rest]; [done|]. intros Hl (extra&c'&rest'&E&?&H2). rewrite E in Hl.
  apply Forall2_length in H2 as Hr. rewrite length_app in Hl. simpl in Hl.
  destruct extra as [|x extra]; [simpl in Hl; lia|].
  exists extra, c', rest'. split_and!; [|done..]. unfold pop_scope, scopes_in in *. simpl in E.
  injection E as _ ->. by destruct extra.
Qed.

Lemma grown_insert scopes env name s span env' :
  insert_symbol env name s span = Ok env' → grown scopes (scopes_in env) → grown scopes (scopes_in env').
Proof.
  destruct scopes as [|c rest]; [done|]. intros [Hn Ei]%insert_symbol_Ok (extra&c'&rest'&E&?&?).
  rewrite Ei. unfold scopes_in in E. destruct extra as [|x extra]; simpl in E; injection E as Ec Er;
    rewrite Ec, Er in *.
  - exists [], (<[name := s]> c'), rest'. split_and!; [done|by eapply kept_trans, kept_insert|done].
  - by exists (<[name := s]> x :: extra), c', rest'.
Qed.

Lemma update_same_names env name f :
  (∀ s, narrowable (f s) = narrowable s) →
  Forall2 same_names (scopes_in env) (scopes_in (lookup_mut env name f).1).
Proof.
  intros Hf. rewrite scopes_in_lookup_mut.
  destruct (update_in _ _ _) as [scopes|] eqn:E; simpl; [|apply Forall2_same_names_refl].
  apply update_in_Some in E as (pre&scope&s&post&->&Hs&->).
  apply Forall2_app; [apply Forall2_same_names_refl|].
  constructor; [by apply same_names_update|apply Forall2_same_names_refl].
Qed.

Lemma grown_same_names scopes scopes1 scopes2 :
  grown scopes scopes1 → Forall2 same_names scopes1 scopes2 → grown scopes scopes2.
Proof.
  destruct scopes as [|c rest]; [done|]. intros (extra&c'&rest'&->&?&?) H2.
  apply Forall2_app_inv_l in H2 as (extra2&tail&_&H2&->).
  inversion H2 as [|? c2 ? rest2 [? ?] ?]; subst. exists extra2, c2, rest2.
  split_and!; [done|by eapply kept_trans|by eapply Forall2_same_names_trans].
Qed.

Lemma within_grown scopes env env' :
  within (length scopes) env env' → grown scopes (scopes_in env) → grown scopes (scopes_in env').
Proof.
  intros Hw. remember (length scopes) as depth. induction Hw; intros Hg; subst; auto.
  - auto using grown_push.
  - auto using grown_pop.
  - eauto using grown_insert.
  - eauto using grown_same_names, update_same_names.
Qed.

(** ** Restoring *)

Definition restored (name : string) (s : option Symbol) (entry : string * option (gset string))
    : option Symbol :=
  if decide (entry.1 = name) then set_narrowed entry.2 <$> s else s.

Lemma lookup_restore_scope scope entries name :
  restore_scope scope entries !! name =
  foldl (restored name)
        (scope !! name) entries.
Proof.
  unfold restore_scope. revert scope. induction entries as [|[m narrowed] entries IH]; intros scope; [done|].
  simpl. rewrite IH. unfold restored at 3. simpl. f_equal. case_decide as E; [subst; by rewrite lookup_alter_eq|by rewrite lookup_alter_ne].
Qed.

Lemma foldl_not_in (entries : list (string * option (gset string))) name s :
  name ∉ entries.*1 →
  foldl (restored name) s entries = s.
Proof.
  revert s. induction entries as [|[m n] entries IH]; intros s Hn; [done|]. simpl in *.
  rewrite not_elem_of_cons in Hn. destruct Hn as [? ?].
  unfold restored at 2. rewrite decide_False by (simpl; congruence). auto.
Qed.

Lemma foldl_in (entries : list (string * option (gset string))) name narrowed s :
  NoDup entries.*1 → (name, narrowed) ∈ entries →
  foldl (restored name) s entries
  = set_narrowed narrowed <$> s.
Proof.
  revert s. induction entries as [|[m n] entries IH]; intros s Hd Hin; [by apply elem_of_nil in Hin|].
  simpl in *. apply NoDup_cons in Hd as [Hm Hd]. apply elem_of_cons in Hin as [[= -> ->]|Hin]; unfold restored at 2; simpl.
  - rewrite decide_True by done. by apply foldl_not_in.
  - rewrite decide_False; [auto|]. intros ->. apply Hm. apply list_elem_of_fmap. by exists (name, narrowed).
Qed.

(** What restoring a scope to the snapshot of another does to a binding. *)
Definition snapshot_scope (scope : Scope) : list (string * option (gset string)) :=
  (λ '(name, s), (name, symbol_narrowed s)) <$> map_to_list scope.

Lemma lookup_restored (old scope : Scope) name :
  restore_scope scope (snapshot_scope old) !! name =
  match old !! name with
  | Some s => set_narrowed (symbol_narrowed s) <$> scope !! name
  | None => scope !! name
  end.
Proof.
  rewrite lookup_restore_scope. unfold snapshot_scope.
  assert (((λ '(name, s), (name, symbol_narrowed s)) <$> map_to_list old).*1 = (map_to_list old).*1) as E.
  { rewrite <-list_fmap_compose. apply list_fmap_ext. by intros i [??] _. }
  destruct (old !! name) as [s|] eqn:Es.
  - apply foldl_in; [rewrite E; apply NoDup_fst_map_to_list|].
    apply list_elem_of_fmap. exists (name, s). split; [done|]. by apply elem_of_map_to_list.
  - apply foldl_not_in. rewrite E. intros Hin. apply list_elem_of_fmap in Hin as ([m t]&->&Hm).
    apply elem_of_map_to_list in Hm. simpl in Es. congruence.
Qed.

Lemma restore_zip_app scopes snapshot rest :
  length scopes = length snapshot → restore_zip (scopes ++ rest) snapshot = zip_with restore_scope scopes snapshot ++ rest.
Proof.
  revert snapshot. induction scopes as [|s scopes IH]; intros [|e snapshot] E; try done.
  - by destruct rest.
  - simpl. by rewrite IH by (simpl in E; lia).
Qed.

Lemma zip_with_reverse {A B C} (f : A → B → C) xs ys :
  length xs = length ys → zip_with f (reverse xs) (reverse ys) = reverse (zip_with f xs ys).
Proof.
  revert ys. induction xs as [|x xs IH]; intros [|y ys] E; try done. simpl in *.
  rewrite !reverse_cons, zip_with_app by (rewrite !length_reverse; lia). by rewrite IH by lia.
Qed.

Lemma restore_scopes env env' :
  length (scopes_in env') = length (scopes_in env) →
  scopes_in (restore_narrowing env' (snapshot_narrowing env)) =
  zip_with (λ scope old, restore_scope scope (snapshot_scope old)) (scopes_in env') (scopes_in env).
Proof.
  intros E. unfold restore_narrowing, snapshot_narrowing.
  rewrite <-(app_nil_r (reverse (scopes_in env'))), restore_zip_app, app_nil_r
    by (rewrite !length_reverse, length_fmap; done).
  rewrite zip_with_reverse, reverse_involutive by (rewrite length_fmap; done).
  rewrite zip_with_fmap_r. by rewrite scopes_in_with.
Qed.

(** The same binding of [name], or none, in both scopes. *)
Definition same_name (name : string) (a b : Scope) : Prop :=
  match a !! name with
  | Some s => ∃ s', b !! name = Some s' ∧ narrowable s' = narrowable s
  | None => b !! name = None
  end.

Lemma same_names_name name a b : same_names a b → same_name name a b.
Proof. intros [Hk Hn]. unfold same_name. destruct (a !! name) eqn:E; auto. Qed.

Lemma lookup_restored_in name olds scopes :
  Forall2 (same_name name) olds scopes →
  match lookup_in olds name with
  | Some s => ∃ s', lookup_in scopes name = Some s' ∧ narrowable s' = narrowable s ∧
      lookup_in (zip_with (λ scope old, restore_scope scope (snapshot_scope old)) scopes olds) name
      = Some (set_narrowed (symbol_narrowed s) s')
  | None => lookup_in scopes name = None ∧
      lookup_in (zip_with (λ scope old, restore_scope scope (snapshot_scope old)) scopes olds) name = None
  end.
Proof.
  induction 1 as [|old scope olds scopes Hs _ IH]; [done|]. simpl. rewrite lookup_restored.
  unfold same_name in Hs. destruct (old !! name) as [s|].
  - destruct Hs as (s'&->&?). by exists s'.
  - by rewrite Hs.
Qed.

(** C32: what a body proves about a binding stays in the body: whatever it pushes,
    pops, binds and narrows, once the narrowing taken before it is restored every
    name it did not shadow in the innermost scope has the variant set it had, and
    restoring has changed nothing of the binding but that. *)
Theorem narrowing_confined (env env' : Environment) (name : string)
    (Hbody : within (length (scopes_in env)) env env')
    (Hdepth : length (scopes_in env') = length (scopes_in env))
    (Hname : current env !! name = None → current env' !! name = None) :
  let env'' := restore_narrowing env' (snapshot_narrowing env) in
  narrowed_variants env'' name = narrowed_variants env name ∧
  ∃ narrowed, lookup env'' name = set_narrowed narrowed <$> lookup env' name.
Proof.
  simpl. pose proof (within_grown _ _ _ Hbody (grown_refl env)) as (extra&c'&rest'&E&Hc&H2).
  assert (extra = []) as ->.
  { rewrite E, length_app in Hdepth. apply Forall2_length in H2. simpl in Hdepth.
    destruct extra; [done|]. simpl in Hdepth. lia. }
  injection E as Ec Er. rewrite <-Ec in Hc. rewrite <-Er in H2.
  assert (Forall2 (same_name name) (scopes_in env) (scopes_in env')) as Hs.
  { constructor; [|eapply Forall2_impl; [exact H2|]; apply same_names_name].
    unfold same_name. destruct (current env !! name) eqn:En; auto. }
  apply lookup_restored_in in Hs. unfold narrowed_variants, lookup. rewrite restore_scopes by done.
  destruct (lookup_in (scopes_in env) name) as [s|].
  - destruct Hs as (s'&->&Hn&->). split; [|by eexists]. simpl. by rewrite Hn.
  - destruct Hs as [-> ->]. split; [done|]. by exists None.
Qed.

(** A parameter [r], narrowed to [Ok] inside a scope of its own. *)
Definition sample_env : Environment :=
  mkEnvironment {["r" := narrowable_parameter_symbol "r" (named_ref "Result") 1 0]} [] true.
Definition sample_body_end : Environment :=
  pop_scope (narrow (push_scope sample_env) "r" {["Ok"]}).

Example narrowing_confined_witness :
  narrowed_variants sample_body_end "r" = Some {["Ok"]} ∧
  let env'' := restore_narrowing sample_body_end (snapshot_narrowing sample_env) in
  narrowed_variants env'' "r" = narrowed_variants sample_env "r" ∧
  ∃ narrowed, lookup env'' "r" = set_narrowed narrowed <$> lookup sample_body_end "r".
Proof.
  split; [by vm_compute|].
  apply (narrowing_confined sample_env sample_body_end "r"); [|done|done].
  apply within_push.
  apply (within_update _ _ "r" (λ s, if narrowable s then set_narrowed (Some {["Ok"]}) s else s)); [|apply within_pop; [apply Nat.ltb_lt; reflexivity|apply within_done]].
  intros s. destruct (narrowable s) eqn:E; simpl; congruence.
Defined.
