(* ===== verification/Checker.v ===== *)
(** * The state of the type checker: [typechecker/checker.rs]

    Every field of [TypeChecker] and the compatibility check every rule shares.
    A [HashMap] is a [gmap], a [HashSet] a [gset]; the counters ([u64], [usize])
    are integers. *)

From S2P Require Import Prelude Bytes Token Ast TypeMatch TypeErrors Env.

#[export] Instance Span_countable : Countable Span.
Proof.
  apply (inj_countable' (λ s, (start s, end_ s, file s)) (λ '(a, b, c), mkSpan a b c)). by intros [].
Defined.

Record Overload : Type := mkOverload {
  overload_parameters : list Ty;
  overload_ret : option Ty;
  overload_aliasing : option ResultAliasing;
  is_static : bool;
  is_builtin : bool
}.

(** A match on a bare [:: Result] parameter: the names its [Ok] and [NotOk] arms
    bind, where, and in which body. *)
Record ResultScrutinee : Type := mkResultScrutinee {
  parameter_index : nat;
  scrutinee_span : Span;
  ok_binding : option (string * Span * Expression);
  not_ok_binding : option (string * Span * Expression)
}.

Record TypeChecker : Type := mkTypeChecker {
  env : Environment;
  checker_methods : gmap (string * string) (list Param * Ty * Expression);
  sum_types : gmap string Ty;
  setter_methods : gset (string * string);
  static_methods : gset (string * string);
  type_table : gmap Span Ty;
  matcher_hovers : gmap Span string;
  atomic_reassignments : gset Span;
  top_level_reassignments : gset Span;
  overloads : gmap string (list Overload);
  overloaded_names : gset string;
  unannotated_overload_member : option (string * list Ty * Span);
  test_depth : Z;
  case_depth : Z;
  method_result_aliasing : gmap (string * string) ResultAliasing;
  match_aliasing : gmap Span ValueAliasing;
  lambda_result_aliasing : gmap Span ResultAliasing;
  setter_stored_parameters : gmap (string * string) (gset nat);
  declaration_counter : Z;
  current_declaration : Z;
  pending_return_type : option (string * Span);
  checking_corelib_declaration : bool;
  method_call_args : gmap (string * string) (list (list Span));
  overload_call_args : gmap string (list (list Ty * list Span));
  result_scrutinees : gmap Span (list ResultScrutinee)
}.

(** A checker that differs in one field, or in two that change together. *)
Section setters.
Variable c : TypeChecker.

Definition with_env (e : Environment) : TypeChecker :=
  mkTypeChecker e (checker_methods c) (sum_types c) (setter_methods c) (static_methods c)
    (type_table c) (matcher_hovers c) (atomic_reassignments c) (top_level_reassignments c)
    (overloads c) (overloaded_names c) (unannotated_overload_member c) (test_depth c) (case_depth c)
    (method_result_aliasing c) (match_aliasing c) (lambda_result_aliasing c)
    (setter_stored_parameters c) (declaration_counter c) (current_declaration c)
    (pending_return_type c) (checking_corelib_declaration c) (method_call_args c)
    (overload_call_args c) (result_scrutinees c).
Definition with_methods (m : gmap (string * string) (list Param * Ty * Expression)) : TypeChecker :=
  mkTypeChecker (env c) m (sum_types c) (setter_methods c) (static_methods c) (type_table c)
    (matcher_hovers c) (atomic_reassignments c) (top_level_reassignments c) (overloads c)
    (overloaded_names c) (unannotated_overload_member c) (test_depth c) (case_depth c)
    (method_result_aliasing c) (match_aliasing c) (lambda_result_aliasing c)
    (setter_stored_parameters c) (declaration_counter c) (current_declaration c)
    (pending_return_type c) (checking_corelib_declaration c) (method_call_args c)
    (overload_call_args c) (result_scrutinees c).
Definition with_sum_types (t : gmap string Ty) : TypeChecker :=
  mkTypeChecker (env c) (checker_methods c) t (setter_methods c) (static_methods c) (type_table c)
    (matcher_hovers c) (atomic_reassignments c) (top_level_reassignments c) (overloads c)
    (overloaded_names c) (unannotated_overload_member c) (test_depth c) (case_depth c)
    (method_result_aliasing c) (match_aliasing c) (lambda_result_aliasing c)
    (setter_stored_parameters c) (declaration_counter c) (current_declaration c)
    (pending_return_type c) (checking_corelib_declaration c) (method_call_args c)
    (overload_call_args c) (result_scrutinees c).
Definition with_setter_methods (s : gset (string * string)) : TypeChecker :=
  mkTypeChecker (env c) (checker_methods c) (sum_types c) s (static_methods c) (type_table c)
    (matcher_hovers c) (atomic_reassignments c) (top_level_reassignments c) (overloads c)
    (overloaded_names c) (unannotated_overload_member c) (test_depth c) (case_depth c)
    (method_result_aliasing c) (match_aliasing c) (lambda_result_aliasing c)
    (setter_stored_parameters c) (declaration_counter c) (current_declaration c)
    (pending_return_type c) (checking_corelib_declaration c) (method_call_args c)
    (overload_call_args c) (result_scrutinees c).
Definition with_static_methods (s : gset (string * string)) : TypeChecker :=
  mkTypeChecker (env c) (checker_methods c) (sum_types c) (setter_methods c) s (type_table c)
    (matcher_hovers c) (atomic_reassignments c) (top_level_reassignments c) (overloads c)
    (overloaded_names c) (unannotated_overload_member c) (test_depth c) (case_depth c)
    (method_result_aliasing c) (match_aliasing c) (lambda_result_aliasing c)
    (setter_stored_parameters c) (declaration_counter c) (current_declaration c)
    (pending_return_type c) (checking_corelib_declaration c) (method_call_args c)
    (overload_call_args c) (result_scrutinees c).
Definition with_type_table (t : gmap Span Ty) : TypeChecker :=
  mkTypeChecker (env c) (checker_methods c) (sum_types c) (setter_methods c) (static_methods c) t
    (matcher_hovers c) (atomic_reassignments c) (top_level_reassignments c) (overloads c)
    (overloaded_names c) (unannotated_overload_member c) (test_depth c) (case_depth c)
    (method_result_aliasing c) (match_aliasing c) (lambda_result_aliasing c)
    (setter_stored_parameters c) (declaration_counter c) (current_declaration c)
    (pending_return_type c) (checking_corelib_declaration c) (method_call_args c)
    (overload_call_args c) (result_scrutinees c).
Definition with_matcher_hovers (h : gmap Span string) : TypeChecker :=
  mkTypeChecker (env c) (checker_methods c) (sum_types c) (setter_methods c) (static_methods c)
    (type_table c) h (atomic_reassignments c) (top_level_reassignments c) (overloads c)
    (overloaded_names c) (unannotated_overload_member c) (test_depth c) (case_depth c)
    (method_result_aliasing c) (match_aliasing c) (lambda_result_aliasing c)
    (setter_stored_parameters c) (declaration_counter c) (current_declaration c)
    (pending_return_type c) (checking_corelib_declaration c) (method_call_args c)
    (overload_call_args c) (result_scrutinees c).
Definition with_atomic_reassignments (s : gset Span) : TypeChecker :=
  mkTypeChecker (env c) (checker_methods c) (sum_types c) (setter_methods c) (static_methods c)
    (type_table c) (matcher_hovers c) s (top_level_reassignments c) (overloads c)
    (overloaded_names c) (unannotated_overload_member c) (test_depth c) (case_depth c)
    (method_result_aliasing c) (match_aliasing c) (lambda_result_aliasing c)
    (setter_stored_parameters c) (declaration_counter c) (current_declaration c)
    (pending_return_type c) (checking_corelib_declaration c) (method_call_args c)
    (overload_call_args c) (result_scrutinees c).
Definition with_top_level_reassignments (s : gset Span) : TypeChecker :=
  mkTypeChecker (env c) (checker_methods c) (sum_types c) (setter_methods c) (static_methods c)
    (type_table c) (matcher_hovers c) (atomic_reassignments c) s (overloads c) (overloaded_names c)
    (unannotated_overload_member c) (test_depth c) (case_depth c) (method_result_aliasing c)
    (match_aliasing c) (lambda_result_aliasing c) (setter_stored_parameters c)
    (declaration_counter c) (current_declaration c) (pending_return_type c)
    (checking_corelib_declaration c) (method_call_args c) (overload_call_args c)
    (result_scrutinees c).
Definition with_overloads (m : gmap string (list Overload)) : TypeChecker :=
  mkTypeChecker (env c) (checker_methods c) (sum_types c) (setter_methods c) (static_methods c)
    (type_table c) (matcher_hovers c) (atomic_reassignments c) (top_level_reassignments c) m
    (overloaded_names c) (unannotated_overload_member c) (test_depth c) (case_depth c)
    (method_result_aliasing c) (match_aliasing c) (lambda_result_aliasing c)
    (setter_stored_parameters c) (declaration_counter c) (current_declaration c)
    (pending_return_type c) (checking_corelib_declaration c) (method_call_args c)
    (overload_call_args c) (result_scrutinees c).
Definition with_overloaded_names (s : gset string) : TypeChecker :=
  mkTypeChecker (env c) (checker_methods c) (sum_types c) (setter_methods c) (static_methods c)
    (type_table c) (matcher_hovers c) (atomic_reassignments c) (top_level_reassignments c)
    (overloads c) s (unannotated_overload_member c) (test_depth c) (case_depth c)
    (method_result_aliasing c) (match_aliasing c) (lambda_result_aliasing c)
    (setter_stored_parameters c) (declaration_counter c) (current_declaration c)
    (pending_return_type c) (checking_corelib_declaration c) (method_call_args c)
    (overload_call_args c) (result_scrutinees c).
Definition with_unannotated (u : option (string * list Ty * Span)) : TypeChecker :=
  mkTypeChecker (env c) (checker_methods c) (sum_types c) (setter_methods c) (static_methods c)
    (type_table c) (matcher_hovers c) (atomic_reassignments c) (top_level_reassignments c)
    (overloads c) (overloaded_names c) u (test_depth c) (case_depth c) (method_result_aliasing c)
    (match_aliasing c) (lambda_result_aliasing c) (setter_stored_parameters c)
    (declaration_counter c) (current_declaration c) (pending_return_type c)
    (checking_corelib_declaration c) (method_call_args c) (overload_call_args c)
    (result_scrutinees c).
Definition with_depths (test case : Z) : TypeChecker :=
  mkTypeChecker (env c) (checker_methods c) (sum_types c) (setter_methods c) (static_methods c)
    (type_table c) (matcher_hovers c) (atomic_reassignments c) (top_level_reassignments c)
    (overloads c) (overloaded_names c) (unannotated_overload_member c) test case
    (method_result_aliasing c) (match_aliasing c) (lambda_result_aliasing c)
    (setter_stored_parameters c) (declaration_counter c) (current_declaration c)
    (pending_return_type c) (checking_corelib_declaration c) (method_call_args c)
    (overload_call_args c) (result_scrutinees c).
Definition with_method_result_aliasing (m : gmap (string * string) ResultAliasing) : TypeChecker :=
  mkTypeChecker (env c) (checker_methods c) (sum_types c) (setter_methods c) (static_methods c)
    (type_table c) (matcher_hovers c) (atomic_reassignments c) (top_level_reassignments c)
    (overloads c) (overloaded_names c) (unannotated_overload_member c) (test_depth c) (case_depth c)
    m (match_aliasing c) (lambda_result_aliasing c) (setter_stored_parameters c)
    (declaration_counter c) (current_declaration c) (pending_return_type c)
    (checking_corelib_declaration c) (method_call_args c) (overload_call_args c)
    (result_scrutinees c).
Definition with_match_aliasing (m : gmap Span ValueAliasing) : TypeChecker :=
  mkTypeChecker (env c) (checker_methods c) (sum_types c) (setter_methods c) (static_methods c)
    (type_table c) (matcher_hovers c) (atomic_reassignments c) (top_level_reassignments c)
    (overloads c) (overloaded_names c) (unannotated_overload_member c) (test_depth c) (case_depth c)
    (method_result_aliasing c) m (lambda_result_aliasing c) (setter_stored_parameters c)
    (declaration_counter c) (current_declaration c) (pending_return_type c)
    (checking_corelib_declaration c) (method_call_args c) (overload_call_args c)
    (result_scrutinees c).
Definition with_lambda_result_aliasing (m : gmap Span ResultAliasing) : TypeChecker :=
  mkTypeChecker (env c) (checker_methods c) (sum_types c) (setter_methods c) (static_methods c)
    (type_table c) (matcher_hovers c) (atomic_reassignments c) (top_level_reassignments c)
    (overloads c) (overloaded_names c) (unannotated_overload_member c) (test_depth c) (case_depth c)
    (method_result_aliasing c) (match_aliasing c) m (setter_stored_parameters c)
    (declaration_counter c) (current_declaration c) (pending_return_type c)
    (checking_corelib_declaration c) (method_call_args c) (overload_call_args c)
    (result_scrutinees c).
Definition with_setter_stored_parameters (m : gmap (string * string) (gset nat)) : TypeChecker :=
  mkTypeChecker (env c) (checker_methods c) (sum_types c) (setter_methods c) (static_methods c)
    (type_table c) (matcher_hovers c) (atomic_reassignments c) (top_level_reassignments c)
    (overloads c) (overloaded_names c) (unannotated_overload_member c) (test_depth c) (case_depth c)
    (method_result_aliasing c) (match_aliasing c) (lambda_result_aliasing c) m
    (declaration_counter c) (current_declaration c) (pending_return_type c)
    (checking_corelib_declaration c) (method_call_args c) (overload_call_args c)
    (result_scrutinees c).
Definition with_declarations (counter current : Z) : TypeChecker :=
  mkTypeChecker (env c) (checker_methods c) (sum_types c) (setter_methods c) (static_methods c)
    (type_table c) (matcher_hovers c) (atomic_reassignments c) (top_level_reassignments c)
    (overloads c) (overloaded_names c) (unannotated_overload_member c) (test_depth c) (case_depth c)
    (method_result_aliasing c) (match_aliasing c) (lambda_result_aliasing c)
    (setter_stored_parameters c) counter current (pending_return_type c)
    (checking_corelib_declaration c) (method_call_args c) (overload_call_args c)
    (result_scrutinees c).
Definition with_pending (p : option (string * Span)) : TypeChecker :=
  mkTypeChecker (env c) (checker_methods c) (sum_types c) (setter_methods c) (static_methods c)
    (type_table c) (matcher_hovers c) (atomic_reassignments c) (top_level_reassignments c)
    (overloads c) (overloaded_names c) (unannotated_overload_member c) (test_depth c) (case_depth c)
    (method_result_aliasing c) (match_aliasing c) (lambda_result_aliasing c)
    (setter_stored_parameters c) (declaration_counter c) (current_declaration c) p
    (checking_corelib_declaration c) (method_call_args c) (overload_call_args c)
    (result_scrutinees c).
Definition with_checking_corelib (b : bool) : TypeChecker :=
  mkTypeChecker (env c) (checker_methods c) (sum_types c) (setter_methods c) (static_methods c)
    (type_table c) (matcher_hovers c) (atomic_reassignments c) (top_level_reassignments c)
    (overloads c) (overloaded_names c) (unannotated_overload_member c) (test_depth c) (case_depth c)
    (method_result_aliasing c) (match_aliasing c) (lambda_result_aliasing c)
    (setter_stored_parameters c) (declaration_counter c) (current_declaration c)
    (pending_return_type c) b (method_call_args c) (overload_call_args c) (result_scrutinees c).
Definition with_method_call_args (a : gmap (string * string) (list (list Span))) : TypeChecker :=
  mkTypeChecker (env c) (checker_methods c) (sum_types c) (setter_methods c) (static_methods c)
    (type_table c) (matcher_hovers c) (atomic_reassignments c) (top_level_reassignments c)
    (overloads c) (overloaded_names c) (unannotated_overload_member c) (test_depth c) (case_depth c)
    (method_result_aliasing c) (match_aliasing c) (lambda_result_aliasing c)
    (setter_stored_parameters c) (declaration_counter c) (current_declaration c)
    (pending_return_type c) (checking_corelib_declaration c) a (overload_call_args c)
    (result_scrutinees c).
Definition with_call_args (a : gmap string (list (list Ty * list Span))) : TypeChecker :=
  mkTypeChecker (env c) (checker_methods c) (sum_types c) (setter_methods c) (static_methods c)
    (type_table c) (matcher_hovers c) (atomic_reassignments c) (top_level_reassignments c)
    (overloads c) (overloaded_names c) (unannotated_overload_member c) (test_depth c) (case_depth c)
    (method_result_aliasing c) (match_aliasing c) (lambda_result_aliasing c)
    (setter_stored_parameters c) (declaration_counter c) (current_declaration c)
    (pending_return_type c) (checking_corelib_declaration c) (method_call_args c) a
    (result_scrutinees c).
Definition with_result_scrutinees (r : gmap Span (list ResultScrutinee)) : TypeChecker :=
  mkTypeChecker (env c) (checker_methods c) (sum_types c) (setter_methods c) (static_methods c)
    (type_table c) (matcher_hovers c) (atomic_reassignments c) (top_level_reassignments c)
    (overloads c) (overloaded_names c) (unannotated_overload_member c) (test_depth c) (case_depth c)
    (method_result_aliasing c) (match_aliasing c) (lambda_result_aliasing c)
    (setter_stored_parameters c) (declaration_counter c) (current_declaration c)
    (pending_return_type c) (checking_corelib_declaration c) (method_call_args c)
    (overload_call_args c) r.
End setters.

(** The same environment after a scope is pushed or popped. *)
Definition map_env (f : Environment → Environment) (c : TypeChecker) : TypeChecker :=
  with_env c (f (env c)).

(** [resolve_type] and [resolve_payload_type] against the checker's registries. *)
Definition resolve (c : TypeChecker) : Ty → Ty := resolve_type (sum_types c) (get_type (env c)).
Definition resolve_payload (c : TypeChecker) : Ty → Ty :=
  resolve_payload_type (sum_types c) (get_type (env c)).

Definition check_type_compatibility (expected got : Ty) (span : Span) : result TypeError unit :=
  if types_compatible expected got then Ok tt else Err (Te.TypeMismatch expected got span).

(** [enter_declaration] and [leave_declaration]; the first also returns the
    enclosing declaration. *)
Definition enter_declaration (c : TypeChecker) : Z * TypeChecker :=
  (current_declaration c,
   with_declarations c (declaration_counter c + 1) (declaration_counter c + 1)).
Definition leave_declaration (c : TypeChecker) (previous : Z) : TypeChecker :=
  with_declarations c (declaration_counter c) previous.

(** The state [new] starts from, before the built-in types and members. *)
Definition empty_checker (e : Environment) : TypeChecker :=
  mkTypeChecker e ∅ ∅ ∅ ∅ ∅ ∅ ∅ ∅ ∅ ∅ None 0 0 ∅ ∅ ∅ ∅ 0 0 None false ∅ ∅ ∅.
