(* ===== verification/Overloads.v ===== *)
(** * Overload sets: [typechecker/checker/overloads.rs] and codegen's dispatch

    Registering the members of each overload set, resolving a call or an operator
    to one of them by exact argument types, and the member codegen picks for the
    same call ([codegen/generator/oracle.rs]).  Proved: no two members of a set
    ever have matching parameters, so a call is ambiguous only through a trailing
    [Site]; what resolution answers on every branch; and codegen's first match is
    the checker's member. *)

From S2P Require Import Prelude Bytes Token Ast TypeMatch TypeErrors Env Checker.

(** [self.overloads.get(name)], an absent set being an empty one. *)
Definition members (c : TypeChecker) (name : string) : list Overload :=
  default [] (overloads c !! name).

(** ** Registration *)

Definition add_overload (c : TypeChecker) (name : string) (overload : Overload) : TypeChecker :=
  with_overloads c (<[name := members c name ++ [overload]]> (overloads c)).

Definition builtin_member (parameters : list Ty) (ret : Ty) : Overload :=
  mkOverload parameters (Some ret) (Some fresh_result) false true.

(** The built-in members, in the order they are added. *)
Definition builtin_operators : list (string * Overload) :=
  ((λ operator, (symbol operator, builtin_member [Ty.Num; Ty.Num] Ty.Num))
     <$> [Binary.Add; Binary.Sub; Binary.Mul; Binary.Div; Binary.Mod])
  ++ [(symbol Binary.Add, builtin_member [Ty.Text; Ty.Text] Ty.Text)]
  ++ (operator ← [Binary.Eq; Binary.Ne];
      (λ ty, (symbol operator, builtin_member [ty; ty] Ty.Bool)) <$> [Ty.Num; Ty.Text; Ty.Bool])
  ++ (operator ← [Binary.Lt; Binary.Le; Binary.Gt; Binary.Ge];
      (λ ty, (symbol operator, builtin_member [ty; ty] Ty.Bool)) <$> [Ty.Num; Ty.Text])
  ++ ((λ operator, (symbol operator, builtin_member [Ty.Bool; Ty.Bool] Ty.Bool))
        <$> [Binary.And; Binary.Or]).

Definition add_builtin_overloads (c : TypeChecker) : TypeChecker :=
  foldl (λ c '(name, overload), add_overload c name overload) c
    (builtin_operators
     ++ ((λ b, (overload_name b, builtin_member (Ast.overload_parameters b) (Ast.overload_ret b)))
           <$> BUILTIN_OVERLOADS)).

Definition is_comparison_operator (name : string) : bool :=
  bool_decide (name ∈ ["=="; "!="; "<"; "<="; ">"; ">="]).

(** The parameter lists [finish_overload_registration] takes for a duplicate. *)
Definition same_signature (parameters other : list Ty) : bool :=
  (length parameters =? length other)%nat && zip_all types_match parameters other.

Definition finish_overload_registration (c : TypeChecker) (name : string) (span : Span)
    (parameters : list Ty) (ret : option Ty) (is_static : bool) : result TypeError TypeChecker :=
  match (if is_comparison_operator name then ret else None) with
  | Some got =>
      if Ty_eq got Ty.Bool then Ok tt else Err (Te.ComparisonOverloadNotBool name got span)
  | None => Ok tt
  end ≫= λ _ : unit,
  if existsb (λ o, same_signature (overload_parameters o) parameters) (members c name)
  then Err (Te.DuplicateDefinition name span)
  else
    let c := match ret, unannotated_overload_member c with
             | None, None =>
                 with_unannotated c (Some (name, parameters, span))
             | _, _ => c
             end in
    Ok (add_overload c name (mkOverload parameters ret None is_static false)).

(** The annotated parameters of a definition, resolved. *)
Fixpoint overload_parameter_types (c : TypeChecker) (d : FunctionDeclaration Expression) (i : nat)
    (ps : list Param) : result TypeError (list Ty) :=
  match ps with
  | [] => Ok []
  | p :: ps =>
      match parameter_type d i with
      | Some t => rest ← overload_parameter_types c d (S i) ps; Ok (resolve c t :: rest)
      | None => Err (Te.OverloadMissingAnnotation (function_name d) (parameter_name p) (parameter_span p))
      end
  end.

Definition register_overload_declaration (c : TypeChecker) (d : FunctionDeclaration Expression)
    : result TypeError TypeChecker :=
  match (if enforce_reserved_names (env c) then Te.reserved_name (function_name d) (function_span d)
         else None) with
  | Some error => Err error
  | None =>
      parameters ← overload_parameter_types c d 0 (parameters d);
      let ret := resolve c <$> declared_return_type d in
      finish_overload_registration c (function_name d) (function_span d) parameters ret false
  end.

Definition register_operator_member (c : TypeChecker) (self_type : Ty)
    (method : MethodDeclaration Expression) : result TypeError TypeChecker :=
  let ret := resolve c <$> method_return_type method in
  let register parameters :=
    finish_overload_registration c (method_name method) (method_span method) parameters ret false in
  match bool_decide (method_name method = "%"), method_parameters method with
  | true, [] =>
      if match ret with Some t => Ty_eq t Ty.Num | None => false end then register [self_type]
      else
        let got := match ret with Some t => type_label t | None => "an unannotated return" end in
        Err (Te.InvalidBuiltinArgument
               ("the `%` hash hook must return Num, but returns " +:+ got) (method_span method))
  | _, [parameter] =>
      match type_annotation parameter with
      | Some t => register [self_type; resolve c t]
      | None =>
          Err (Te.OverloadMissingAnnotation (method_name method) (parameter_name parameter)
                 (parameter_span parameter))
      end
  | _, ps => Err (Te.OperatorMemberArity (method_name method) (Z.of_nat (length ps)) (method_span method))
  end.

Definition report_unannotated_overload_member (c : TypeChecker) : result TypeError unit :=
  match unannotated_overload_member c with
  | Some (name, parameters, span) => Err (Te.UnannotatedOverloadMember name parameters span)
  | None => Ok tt
  end.

(** [overload_member_mut], with what its caller does to the member. *)
Fixpoint update_member (parameter_types : list Ty) (f : Overload → Overload) (set : list Overload)
    : list Overload :=
  match set with
  | [] => []
  | o :: rest =>
      if same_signature (overload_parameters o) parameter_types then f o :: rest
      else o :: update_member parameter_types f rest
  end.

Definition overload_member_mut (c : TypeChecker) (name : string) (parameter_types : list Ty)
    (f : Overload → Overload) : TypeChecker :=
  with_overloads c (alter (update_member parameter_types f) name (overloads c)).

Definition refine_overload_return_type (c : TypeChecker) (name : string) (parameter_types : list Ty)
    (refined : Ty) : TypeChecker :=
  overload_member_mut c name parameter_types (λ o,
    mkOverload (overload_parameters o) (Some refined) (overload_aliasing o) (is_static o) (is_builtin o)).

Definition set_overload_result_aliasing (c : TypeChecker) (name : string) (parameter_types : list Ty)
    (aliasing : ResultAliasing) : TypeChecker :=
  overload_member_mut c name parameter_types (λ o,
    mkOverload (overload_parameters o) (overload_ret o) (Some aliasing) (is_static o) (is_builtin o)).

(** ** Resolution *)

Definition accepts (arg_types : list Ty) (o : Overload) : bool :=
  parameters_accept (overload_parameters o) arg_types types_match.

Definition has_exact_overload (c : TypeChecker) (name : string) (arg_types : list Ty) : bool :=
  existsb (accepts arg_types) (members c name).

(** An argument still to be typed matches anything. *)
Definition possible (arg_types : list (option Ty)) (o : Overload) : bool :=
  parameters_accept (overload_parameters o) arg_types
    (λ p a, match a with Some a => types_match p a | None => true end).

(** The loop of [narrowed_parameter]; a possible member has a parameter at
    [index], one of its arguments. *)
Fixpoint narrow_members (arg_types : list (option Ty)) (index : nat) (narrowed : option Ty)
    (set : list Overload) : option Ty :=
  match set with
  | [] => narrowed
  | o :: rest =>
      if possible arg_types o then
        match narrowed, overload_parameters o !! index with
        | Some previous, Some p =>
            if Ty_eq previous p then narrow_members arg_types index (Some p) rest else None
        | None, Some p => narrow_members arg_types index (Some p) rest
        | _, None => None
        end
      else narrow_members arg_types index narrowed rest
  end.

Definition narrowed_parameter (c : TypeChecker) (name : string) (arg_types : list (option Ty))
    (index : nat) : option Ty :=
  narrow_members arg_types index None (members c name).

Definition record_call (c : TypeChecker) (name : string) (call : list Ty * list Span) : TypeChecker :=
  with_call_args c (<[name := default [] (overload_call_args c !! name) ++ [call]]> (overload_call_args c)).

Definition resolve_overload (c : TypeChecker) (name : string) (arg_types : list Ty)
    (arg_spans : list Span) (span : Span) : result TypeError (Ty * TypeChecker) :=
  let set := members c name in
  let candidates := overload_parameters <$> set in
  match filter (λ o, accepts arg_types o = true) set with
  | [] => Err (Te.NoMatchingOverload name arg_types arg_spans candidates span)
  | [only] =>
      let c := record_call c name (overload_parameters only, arg_spans) in
      match overload_ret only with
      | Some ret => Ok (resolve c ret, c)
      | None => Err (Te.UnannotatedOverloadCall name (overload_parameters only) span)
      end
  | _ => Err (Te.AmbiguousOverload name arg_types candidates span)
  end.

(** [LambdaTarget]: what the position of a lambda states about its type. *)
Inductive LambdaTarget : Type :=
| Declared (ty : Ty)
| NoTarget
| OpenOverload (name : string).

Definition stated (t : LambdaTarget) : option Ty :=
  match t with Declared ty => Some ty | _ => None end.

Definition uninferable (t : LambdaTarget) (parameter : Param) : TypeError :=
  Te.UninferableLambdaParameter (parameter_name parameter)
    (match t with OpenOverload name => Some name | _ => None end) (parameter_span parameter).

Section call.
(** The rest of the checker: inferring an expression, and an argument against
    what its position states. *)
Variable infer_expression : TypeChecker → Expression → fueled TypeError (Ty * TypeChecker).
Variable infer_argument : TypeChecker → Expression → LambdaTarget → fueled TypeError (Ty * TypeChecker).

Definition is_lambda (e : Expression) : bool :=
  match e with Expression.Lambda _ _ _ _ => true | _ => false end.

(** The first pass: every argument that is not a lambda. *)
Fixpoint infer_plain (c : TypeChecker) (first_ty : option Ty) (arguments : list Expression)
    : fueled TypeError (list (option Ty) * TypeChecker) :=
  match arguments with
  | [] => Ok ([], c)
  | argument :: rest =>
      '(ty, c) ← match first_ty with
                 | Some ty => Ok (Some ty, c)
                 | None => if is_lambda argument then Ok (None, c)
                           else '(ty, c) ← infer_expression c argument; Ok (Some ty, c)
                 end;
      '(tys, c) ← infer_plain c None rest;
      Ok (ty :: tys, c)
  end.

(** The second pass: each argument still untyped, from left to right. *)
Fixpoint infer_lambdas (c : TypeChecker) (name : string) (i : nat) (arguments : list Expression)
    (arg_types : list (option Ty)) : fueled TypeError (list (option Ty) * TypeChecker) :=
  match arguments with
  | [] => Ok (arg_types, c)
  | argument :: rest =>
      match arg_types !! i with
      | Some None =>
          let target := match narrowed_parameter c name arg_types i with
                        | Some ty => Declared ty
                        | None => OpenOverload name
                        end in
          '(ty, c) ← infer_argument c argument target;
          infer_lambdas c name (S i) rest (<[i := Some ty]> arg_types)
      | _ => infer_lambdas c name (S i) rest arg_types
      end
  end.

Definition check_overloaded_call (c : TypeChecker) (name : string) (arguments : list Expression)
    (first_ty : option Ty) (span : Span) : fueled TypeError (Ty * TypeChecker) :=
  '(arg_types, c) ← infer_plain c first_ty arguments;
  '(arg_types, c) ← infer_lambdas c name 0 arguments arg_types;
  lift (resolve_overload c name (omap id arg_types) (expression_span <$> arguments) span).
End call.

(** ** Codegen's dispatch: [codegen/generator/oracle.rs]

    Its table holds, per name, the parameters and result of each user member. *)
Section codegen.
Context `{CharTables}.

Definition matching_overload (table : gmap string (list (list Ty * Ty))) (name : string)
    (arg_types : list Ty) : option (list Ty * Ty) :=
  set ← table !! name;
  snd <$> list_find (λ m, parameters_accept m.1 arg_types
    (λ p a, bool_decide (type_mangle p = type_mangle a)) = true) set.

Definition resolve_overload_symbol (table : gmap string (list (list Ty * Ty))) (name : string)
    (arg_types : list Ty) : option string :=
  '(parameters, _) ← matching_overload table name arg_types;
  Some (mangle_overload name parameters).
End codegen.

(** ** Invariant: no two members of a set have matching parameters *)

Fixpoint distinct (set : list Overload) : bool :=
  match set with
  | [] => true
  | o :: rest =>
      forallb (λ p, negb (same_signature (overload_parameters o) (overload_parameters p))) rest
      && distinct rest
  end.

Definition well_registered (c : TypeChecker) : Prop := ∀ name, distinct (members c name) = true.

(** What the checker does to its overload sets while it checks a program. *)
Inductive registers : TypeChecker → TypeChecker → Prop :=
| registers_member c name span ps ret is_static c' :
    finish_overload_registration c name span ps ret is_static = Ok c' → registers c c'
| registers_function c d c' : register_overload_declaration c d = Ok c' → registers c c'
| registers_operator c self_type method c' :
    register_operator_member c self_type method = Ok c' → registers c c'
| registers_refined c name ps refined : registers c (refine_overload_return_type c name ps refined)
| registers_aliasing c name ps aliasing :
    registers c (set_overload_result_aliasing c name ps aliasing)
| registers_call c name arg_types arg_spans span t c' :
    resolve_overload c name arg_types arg_spans span = Ok (t, c') → registers c c'.

Lemma same_signature_iff ps qs :
  same_signature ps qs = true ↔ Forall2 (λ p q, types_match p q = true) ps qs.
Proof.
  unfold same_signature. rewrite andb_true_iff, Nat.eqb_eq. split.
  - intros [E Hz]. by apply zip_all_Forall2.
  - intros H2. pose proof (Forall2_length _ _ _ H2). by rewrite zip_all_Forall2.
Qed.

Lemma same_signature_sym ps qs : same_signature ps qs = true → same_signature qs ps = true.
Proof.
  rewrite !same_signature_iff. intros H2. apply Forall2_flip. eapply Forall2_impl; [exact H2|].
  intros p q Hpq. simpl. by rewrite types_match_sym.
Qed.

Lemma distinct_lookup set i j o p :
  distinct set = true → set !! i = Some o → set !! j = Some p →
  same_signature (overload_parameters o) (overload_parameters p) = true → i = j.
Proof.
  revert i j. induction set as [|x set IH]; intros i j Hd Hi Hj Hs; [done|].
  simpl in Hd. apply andb_true_iff in Hd as [Hx Hd]. rewrite forallb_forall in Hx.
  destruct i as [|i], j as [|j]; simpl in *; simplify_eq.
  - done.
  - apply list_elem_of_lookup_2, list_elem_of_In in Hj. specialize (Hx _ Hj). by rewrite Hs in Hx.
  - apply list_elem_of_lookup_2, list_elem_of_In in Hi. specialize (Hx _ Hi).
    by rewrite same_signature_sym in Hx.
  - f_equal. eauto.
Qed.

Lemma distinct_snoc set o :
  distinct set = true →
  existsb (λ p, same_signature (overload_parameters p) (overload_parameters o)) set = false →
  distinct (set ++ [o]) = true.
Proof.
  induction set as [|x set IH]; intros Hd He; [done|]. simpl in *.
  apply andb_true_iff in Hd as [Hx Hd]. apply orb_false_iff in He as [Hxo He].
  rewrite IH by done. rewrite forallb_app, Hx. simpl. by rewrite Hxo.
Qed.

Lemma distinct_params set set' :
  overload_parameters <$> set = overload_parameters <$> set' → distinct set = distinct set'.
Proof.
  revert set'. induction set as [|x set IH]; intros [|y set'] E; try done.
  simpl in *. injection E as Exy E. rewrite Exy. f_equal; [|by apply IH].
  clear IH. revert set' E. induction set as [|z set IH]; intros [|w set'] E; try done.
  simpl in *. injection E as -> E. f_equal. by apply IH.
Qed.

Lemma members_add c name overload m :
  members (add_overload c name overload) m =
  if decide (m = name) then members c name ++ [overload] else members c m.
Proof.
  unfold members, add_overload. simpl. case_decide as E; [subst; by rewrite lookup_insert_eq|].
  by rewrite lookup_insert_ne.
Qed.

Lemma members_update c name ps f m :
  members (overload_member_mut c name ps f) m =
  if decide (m = name) then update_member ps f (members c m) else members c m.
Proof.
  unfold members, overload_member_mut. simpl. case_decide as E.
  - subst. rewrite lookup_alter_eq. by destruct (overloads c !! name).
  - by rewrite lookup_alter_ne.
Qed.

Lemma update_member_params ps f set :
  (∀ o, overload_parameters (f o) = overload_parameters o) →
  overload_parameters <$> update_member ps f set = overload_parameters <$> set.
Proof. intros Hf. induction set as [|o set IH]; [done|]. simpl. case_match; simpl; [by rewrite Hf|by f_equal]. Qed.

Lemma well_registered_update c name ps f :
  (∀ o, overload_parameters (f o) = overload_parameters o) →
  well_registered c → well_registered (overload_member_mut c name ps f).
Proof.
  intros Hf Hc m. rewrite members_update. case_decide; [|done].
  rewrite <-(Hc m). by apply distinct_params, update_member_params.
Qed.

(** What a registration that succeeds did. *)
Lemma finish_overload_registration_Ok c name span ps ret is_static c' :
  finish_overload_registration c name span ps ret is_static = Ok c' →
  existsb (λ o, same_signature (overload_parameters o) ps) (members c name) = false ∧
  ∀ m, members c' m = if decide (m = name)
                      then members c name ++ [mkOverload ps ret None is_static false]
                      else members c m.
Proof.
  unfold finish_overload_registration. intros H. apply result_bind_Ok in H as ([]&_&H).
  destruct (existsb _ _); [done|]. split; [done|]. injection H as <-. intros m. rewrite members_add.
  by destruct ret, (unannotated_overload_member c).
Qed.

Lemma well_registered_finish c name span ps ret is_static c' :
  finish_overload_registration c name span ps ret is_static = Ok c' →
  well_registered c → well_registered c'.
Proof.
  intros [He Hm]%finish_overload_registration_Ok Hc m. rewrite Hm. case_decide; [|done].
  by apply distinct_snoc.
Qed.

Lemma registers_well_registered c c' : registers c c' → well_registered c → well_registered c'.
Proof.
  destruct 1 as [????????|c d c' H|c ty method c' H|c name ps refined|c name ps aliasing|c name ????? H];
    intros Hc.
  - by eapply well_registered_finish.
  - unfold register_overload_declaration in H. break; inv_bind; by eapply well_registered_finish.
  - unfold register_operator_member in H. break; by eapply well_registered_finish.
  - by apply well_registered_update.
  - by apply well_registered_update.
  - unfold resolve_overload in H. by break.
Qed.

(** A checker before its built-in members are added. *)
Definition without_overloads (c : TypeChecker) : Prop := overloads c = ∅.

Lemma add_overload_members l c c' :
  overloads c = overloads c' →
  overloads (foldl (λ c '(name, overload), add_overload c name overload) c l)
  = overloads (foldl (λ c '(name, overload), add_overload c name overload) c' l).
Proof.
  revert c c'. induction l as [|[name o] l IH]; intros c c' E; [done|]. simpl. apply IH. simpl.
  unfold members. by rewrite E.
Qed.

Lemma well_registered_builtins c : without_overloads c → well_registered (add_builtin_overloads c).
Proof.
  intros Hc name. unfold members, add_builtin_overloads.
  rewrite (add_overload_members _ c (empty_checker new) Hc).
  destruct (overloads _ !! name) as [set|] eqn:E; [|done]. simpl. revert name set E.
  change (map_Forall (λ _ set, distinct set = true)
    (overloads (add_builtin_overloads (empty_checker new)))).
  apply (bool_decide_unpack _). vm_compute. exact I.
Qed.

(** ** Which members accept a call *)

Lemma forallb_combine {A B} (f : A → B → bool) xs ys :
  length xs = length ys →
  forallb (λ '(p, a), f p a) (combine xs ys) = true ↔ Forall2 (λ p a, f p a = true) xs ys.
Proof.
  revert ys. induction xs as [|x xs IH]; intros [|y ys] E; try done. simpl.
  rewrite andb_true_iff, IH by (simpl in E; lia). split; [by intros []; constructor|by inversion 1].
Qed.

Lemma combine_short {A B} (xs : list A) x (ys : list B) :
  length xs = length ys → combine (xs ++ [x]) ys = combine xs ys.
Proof. revert ys. induction xs as [|z xs IH]; intros [|y ys] E; try done. simpl. by rewrite IH by (simpl in E; lia). Qed.

(** An exact match, or one argument short of a trailing [Site]. *)
Lemma parameters_accept_iff {A} (f : Ty → A → bool) ps args :
  parameters_accept ps args f = true ↔
  Forall2 (λ p a, f p a = true) ps args ∨
  ∃ ps' p, ps = ps' ++ [p] ∧ is_site_type p = true ∧ Forall2 (λ p a, f p a = true) ps' args.
Proof.
  unfold parameters_accept, fills_call_site, takes_call_site.
  destruct (length ps =? length args)%nat eqn:E; unbool; simpl.
  - rewrite forallb_combine by done. split; [by left|]. intros [|(ps'&p&->&_&H2)]; [done|].
    apply Forall2_length in H2. rewrite length_app in E. simpl in E. lia.
  - destruct (length ps =? length args + 1)%nat eqn:E1; unbool; simpl.
    + destruct ps as [|p ps _] using rev_ind; [simpl in E1; lia|]. rewrite last_snoc.
      rewrite length_app in E1. simpl in E1. rewrite combine_short by lia.
      destruct (is_site_type p) eqn:Ep; simpl.
      * rewrite forallb_combine by lia. split; [by right; exists ps, p|].
        intros [H2|(ps'&q&[-> ->]%app_inj_tail&_&H2)]; [|done].
        apply Forall2_length in H2. rewrite length_app in H2. simpl in H2. lia.
      * split; [done|]. intros [H2|(ps'&q&[-> ->]%app_inj_tail&Eq&H2)].
        -- apply Forall2_length in H2. rewrite length_app in H2. simpl in H2. lia.
        -- congruence.
    + split; [done|]. intros [H2|(ps'&q&->&_&H2)]; apply Forall2_length in H2; [lia|].
      rewrite length_app in E1. simpl in E1. lia.
Qed.

Lemma matched_by_both ps qs args :
  Forall2 (λ p a, types_match p a = true) ps args → Forall2 (λ q a, types_match q a = true) qs args →
  Forall2 (λ p q, types_match p q = true) ps qs.
Proof.
  intros Hp. revert qs. induction Hp as [|p a ps args Hpa _ IH]; intros qs Hq; inversion Hq; subst; constructor.
  - eapply types_match_trans; [exact Hpa|]. by rewrite types_match_sym.
  - auto.
Qed.

Lemma is_site_match p q : is_site_type p = true → is_site_type q = true → types_match p q = true.
Proof.
  destruct p, q; simpl; try done. intros ->%bool_decide_eq_true ->%bool_decide_eq_true.
  by apply bool_decide_eq_true.
Qed.

(** Two members that accept the same call have matching parameters, or one takes a
    call site the other does not. *)
Lemma accepts_both args o p :
  accepts args o = true → accepts args p = true →
  same_signature (overload_parameters o) (overload_parameters p) = true ∨
  length (overload_parameters o) ≠ length (overload_parameters p) ∧
  (fills_call_site (overload_parameters o) (length args) = true ∨
   fills_call_site (overload_parameters p) (length args) = true).
Proof.
  unfold accepts. rewrite !parameters_accept_iff, same_signature_iff.
  assert (∀ ps p, is_site_type p = true → Forall2 (λ p a, types_match p a = true) ps args →
    fills_call_site (ps ++ [p]) (length args) = true) as Hfill.
  { intros ps q Hq H2%Forall2_length. unfold fills_call_site, takes_call_site.
    rewrite last_snoc, Hq, length_app, H2. simpl. by rewrite Nat.eqb_refl. }
  intros [Ho|(ps&s&->&Hs&Ho)] [Hp|(qs&t&->&Ht&Hp)].
  - left. by eapply matched_by_both.
  - right. split; [|right; by apply Hfill]. rewrite length_app. apply Forall2_length in Ho, Hp. simpl. lia.
  - right. split; [|left; by apply Hfill]. rewrite length_app. apply Forall2_length in Ho, Hp. simpl. lia.
  - left. apply Forall2_app; [by eapply matched_by_both|]. constructor; [by apply is_site_match|constructor].
Qed.

(** What the members of a set that accept a call are. *)
Lemma filter_lookup_ne {A} (f : A → bool) (l : list A) x y rest :
  filter (λ a, f a = true) l = x :: y :: rest →
  ∃ i j, i ≠ j ∧ l !! i = Some x ∧ l !! j = Some y ∧ f x = true ∧ f y = true.
Proof.
  revert x y rest. induction l as [|a l IH]; intros x y rest E; [done|].
  rewrite filter_cons in E. destruct (decide (f a = true)) as [Ha|Ha].
  - injection E as <- E. assert (y ∈ filter (λ a, f a = true) l) as Hy by (rewrite E; left).
    apply list_elem_of_filter in Hy as [Hy Hin]. apply list_elem_of_lookup in Hin as (j&Hj).
    by exists 0%nat, (S j).
  - destruct (IH _ _ _ E) as (i&j&?&?&?&?&?). exists (S i), (S j). auto.
Qed.

Lemma filter_lookup_one {A} (f : A → bool) (l : list A) x :
  filter (λ a, f a = true) l = [x] →
  ∃ i, l !! i = Some x ∧ f x = true ∧ ∀ j y, l !! j = Some y → f y = true → j = i.
Proof.
  induction l as [|a l IH]; intros E; [done|]. rewrite filter_cons in E.
  destruct (decide (f a = true)) as [Ha|Ha].
  - injection E as <- E. exists 0%nat. split_and!; [done|done|]. intros [|j] y Hj Hy; [done|].
    simpl in Hj. apply list_elem_of_lookup_2 in Hj.
    assert (y ∈ filter (λ a, f a = true) l) as Hin by (apply list_elem_of_filter; done).
    rewrite E in Hin. by apply elem_of_nil in Hin.
  - destruct (IH E) as (i&Hi&Hx&Hj). exists (S i). split_and!; [done|done|].
    intros [|j] y Hjy Hy; [by simplify_eq/=|]. f_equal. eauto.
Qed.

Lemma registered_well c0 c :
  without_overloads c0 → rtc registers (add_builtin_overloads c0) c → well_registered c.
Proof.
  intros H0 H. pose proof (well_registered_builtins c0 H0) as Hw.
  induction H; eauto using registers_well_registered.
Qed.

(** The only member of the set that accepts the call. *)
Definition only_member (c : TypeChecker) (name : string) (args : list Ty) (i : nat) (o : Overload) : Prop :=
  members c name !! i = Some o ∧ accepts args o = true ∧
  ∀ j p, members c name !! j = Some p → accepts args p = true → j = i.

(** C25: whatever has been registered on top of the built-in members, a call
    resolves exactly when one member of its set accepts its arguments, to that
    member's resolved return type and leaving every set as it was; no member means
    no match, a single member without a return type is reported as such, and a
    call is ambiguous only when filling in a trailing [Site] makes two members of
    different lengths fit. *)
Theorem overload_resolution (c0 c : TypeChecker) (name : string) (args : list Ty)
    (spans : list Span) (span : Span)
    (Hempty : without_overloads c0) (Hc : rtc registers (add_builtin_overloads c0) c) :
  match resolve_overload c name args spans span with
  | Ok (t, c') =>
      ∃ i o ret, only_member c name args i o ∧ overload_ret o = Some ret ∧ t = resolve c ret ∧
        ∀ m, members c' m = members c m
  | Err e =>
      (∀ o, o ∈ members c name → accepts args o = false) ∧
        e = Te.NoMatchingOverload name args spans (overload_parameters <$> members c name) span ∨
      (∃ i o, only_member c name args i o ∧ overload_ret o = None ∧
        e = Te.UnannotatedOverloadCall name (overload_parameters o) span) ∨
      (∃ i j o p, i ≠ j ∧ members c name !! i = Some o ∧ members c name !! j = Some p ∧
        accepts args o = true ∧ accepts args p = true ∧
        length (overload_parameters o) ≠ length (overload_parameters p) ∧
        (fills_call_site (overload_parameters o) (length args) = true ∨
         fills_call_site (overload_parameters p) (length args) = true) ∧
        e = Te.AmbiguousOverload name args (overload_parameters <$> members c name) span)
  end.
Proof.
  pose proof (registered_well _ _ Hempty Hc) as Hw. unfold resolve_overload.
  destruct (filter _ (members c name)) as [|o [|p rest]] eqn:E.
  - left. split; [|done]. intros o Ho. destruct (accepts args o) eqn:Ha; [|done].
    assert (o ∈ filter (λ o, accepts args o = true) (members c name)) as Hin by (by apply list_elem_of_filter).
    rewrite E in Hin. by apply elem_of_nil in Hin.
  - apply filter_lookup_one in E as (i&Hi&Ha&Hu). destruct (overload_ret o) as [ret|] eqn:Er.
    + exists i, o, ret. by split_and!.
    + right; left. by exists i, o.
  - right; right. apply filter_lookup_ne in E as (i&j&Hne&Hi&Hj&Ho&Hp). exists i, j, o, p.
    destruct (accepts_both _ _ _ Ho Hp) as [Hs|[? ?]]; [|by split_and!].
    destruct Hne. by eapply distinct_lookup.
Qed.

(** A user's [+] on a record of its own, beside the built-in ones. *)
Definition point : Ty := Ty.Named "Point" [("x", Ty.Num)]%string [].
Definition sample_checker : TypeChecker := empty_checker new.
Definition with_point : TypeChecker :=
  match finish_overload_registration (add_builtin_overloads sample_checker) "+" (in_root 0 1)
          [point; point] (Some point) false with
  | Ok c => c | Err _ => sample_checker
  end.

Example overload_resolution_witness :
  without_overloads sample_checker ∧
  match resolve_overload with_point "+" [point; point] [] (in_root 2 3) with
  | Ok (t, c') =>
      ∃ i o ret, only_member with_point "+" [point; point] i o ∧ overload_ret o = Some ret ∧
        t = resolve with_point ret ∧ ∀ m, members c' m = members with_point m
  | Err _ => False
  end.
Proof.
  split; [done|].
  assert (rtc registers (add_builtin_overloads sample_checker) with_point) as Hr.
  { apply rtc_once, (registers_member _ "+" (in_root 0 1) [point; point] (Some point) false).
    by vm_compute. }
  pose proof (overload_resolution sample_checker with_point "+" [point; point] [] (in_root 2 3) eq_refl Hr)
    as H. destruct (resolve_overload _ _ _ _ _) as [[t c']|e] eqn:E; [done|by vm_compute in E].
Defined.

(** ** Codegen dispatches to the checker's member

    Codegen's table lists the members a file's items declare, with the types as
    they are written; the checker's, the same types resolved, behind the built-in
    members and only as far as it has got. *)

Definition mirrored (p q : Ty) : Prop :=
  types_match p q = true ∧ is_site_type p = is_site_type q.

(** The registries of types map a name to a type of that name. *)
Definition well_named (sum_types : gmap string Ty) (get_type : string → option Ty) : Prop :=
  (∀ n t, sum_types !! n = Some t → n ≠ SITE_TYPE_NAME ∧ ∃ vs, t = Ty.Sum n vs) ∧
  (∀ n m fs ms, get_type n = Some (Ty.Named m fs ms) → m = n).

Lemma resolve_type_mirrored sum_types get_type t :
  well_named sum_types get_type → tagged t = true → mirrored (resolve_type sum_types get_type t) t.
Proof.
  intros [Hs Hn]. unfold mirrored. induction t as [| | | |t IH| | | |n fs ms|n| |n vs]; simpl; try done.
  - intros Ht. by split; [apply IH|].
  - intros _. destruct fs as [|f fs]; [|by rewrite types_match_refl].
    destruct (sum_types !! n) as [t|] eqn:Es; [apply Hs in Es as [Hsite [vs ->]]; simpl; by rewrite bool_decide_true, bool_decide_false|].
    destruct (get_type n) as [[| | | | | | | |m gs ms'| | |]|] eqn:Eg; simpl; try by rewrite bool_decide_true.
    apply Hn in Eg as ->. by rewrite bool_decide_true.
  - intros _. by rewrite bool_decide_true.
Qed.

Section agreement.
Context `{CharTables}.

Lemma parameters_accept_mirrored ps qs args :
  Forall2 mirrored ps qs → Forall (λ q, tagged q = true) qs → Forall (λ a, tagged a = true) args →
  parameters_accept qs args (λ p a, bool_decide (type_mangle p = type_mangle a))
  = parameters_accept ps args types_match.
Proof.
  intros H2 Hq Ha.
  assert (∀ ps qs args, Forall2 mirrored ps qs → Forall (λ q, tagged q = true) qs →
    Forall (λ a, tagged a = true) args →
    Forall2 (λ p a, bool_decide (type_mangle p = type_mangle a) = true) qs args ↔
    Forall2 (λ p a, types_match p a = true) ps args) as Hall.
  { clear. intros ps qs args H2. revert args. induction H2 as [|p q ps qs [Hpq _] _ IH]; intros args Hq Ha.
    - split; inversion 1; constructor.
    - apply Forall_cons in Hq as [Hq Hqs]. destruct Ha as [|a args Ha Has]; [split; inversion 1|].
      rewrite !Forall2_cons, IH, bool_decide_eq_true, type_mangle_match by done.
      assert (types_match q a = true ↔ types_match p a = true) as ->; [|done].
      split; intros; eapply types_match_trans; try done. by rewrite types_match_sym. }
  apply eq_true_iff_eq. rewrite !parameters_accept_iff. f_equiv; [by apply Hall|].
  split; intros (ts&t&->&Ht&Hts).
  - apply Forall2_app_inv_r in H2 as (us&vs&Hus&Hvs&->). inversion Hvs as [|u ? ? ? [_ Hu] Hn]; subst.
    inversion Hn; subst. apply Forall_app in Hq as [Hq _]. exists us, u. split_and!; [done|congruence|].
    by eapply Hall.
  - apply Forall2_app_inv_l in H2 as (us&vs&Hus&Hvs&->). inversion Hvs as [|? u ? ? [_ Hu] Hn]; subst.
    inversion Hn; subst. apply Forall_app in Hq as [Hq _]. exists us, u. split_and!; [done|congruence|].
    by eapply Hall.
Qed.

Definition user_members (set : list Overload) : list Overload :=
  filter (λ o, is_builtin o = false) set.

(** Codegen's list for a name, against the checker's set so far and the members
    it registers later. *)
Definition mirrors (set later : list Overload) (listed : list (list Ty * Ty)) : Prop :=
  Forall2 (λ o m, Forall2 mirrored (overload_parameters o) m.1) (user_members (set ++ later)) listed ∧
  Forall (λ m, Forall (λ q, tagged q = true) m.1) listed.

Lemma list_find_mirrored args (set : list Overload) (listed : list (list Ty * Ty)) i o :
  Forall2 (λ o m, Forall2 mirrored (overload_parameters o) m.1) set listed →
  Forall (λ m, Forall (λ q, tagged q = true) m.1) listed → Forall (λ a, tagged a = true) args →
  set !! i = Some o → accepts args o = true → (∀ j p, (j < i)%nat → set !! j = Some p → accepts args p = false) →
  ∃ m, list_find (λ m, parameters_accept m.1 args
         (λ p a, bool_decide (type_mangle p = type_mangle a)) = true) listed = Some (i, m) ∧
       Forall2 mirrored (overload_parameters o) m.1.
Proof.
  intros H2 Ht Ha. revert i o. induction H2 as [|p m set listed Hpm _ IH]; intros i o Hi Ho Hlt; [done|].
  apply Forall_cons in Ht as [Htm Ht]. simpl.
  assert (parameters_accept m.1 args (λ p a, bool_decide (type_mangle p = type_mangle a)) = accepts args p)
    as Em by (by apply parameters_accept_mirrored).
  destruct i as [|i]; simpl in Hi.
  - injection Hi as ->. exists m. rewrite decide_True by congruence. done.
  - rewrite decide_False by (rewrite Em, (Hlt 0%nat p); [done|lia|done]).
    destruct (IH Ht i o Hi Ho) as (m'&->&?); [|by exists m'].
    intros j q Hj Hq. apply (Hlt (S j)); [lia|done].
Qed.

(** Where an element sits among those a filter keeps. *)
Lemma filter_lookup_some {A} (P : A → Prop) `{∀ x, Decision (P x)} (l : list A) i x :
  l !! i = Some x → P x →
  ∃ k, filter P l !! k = Some x ∧ ∀ j y, (j < k)%nat → filter P l !! j = Some y → ∃ i', (i' < i)%nat ∧ l !! i' = Some y.
Proof.
  intros Hi HP. exists (length (filter P (take i l))).
  assert (filter P l = filter P (take i l) ++ x :: filter P (drop (S i) l)) as ->.
  { pose proof (take_drop_middle l i x Hi) as E. apply (f_equal (filter P)) in E.
    by rewrite filter_app, filter_cons_True in E. }
  split; [rewrite lookup_app_r by lia; by rewrite Nat.sub_diag|].
  intros j y Hj Hy. rewrite lookup_app_l in Hy by done.
  apply list_elem_of_lookup_2, list_elem_of_filter in Hy as [_ Hy].
  apply list_elem_of_lookup in Hy as (i'&Hi'). apply lookup_take_Some in Hi' as [? ?]. eauto.
Qed.

End agreement.

(** The [+] on points as codegen lists it, beside a later one on lines. *)
Definition sample_listed : list (list Ty * Ty) :=
  [([named_ref "Point"; named_ref "Point"], named_ref "Point");
   ([named_ref "Line"; named_ref "Line"], named_ref "Line")].

