(* ===== verification/Patterns.v ===== *)
(** * Matching: [checker/patterns.rs], [checker/trap.rs], [codegen/generator/matching.rs]

    Checking the patterns of a match against its scrutinee, exhaustiveness and dead
    arms, binding what a pattern names, the arms of the signal trap, and the tests
    the generated code runs to choose an arm.  Proved: a match the checker accepts
    always selects an arm, and one it calls non-exhaustive really has a value no
    arm takes. *)

From S2P Require Import Prelude Bytes Num Token Ast TypeMatch TypeErrors Env Checker.

(** ** Patterns against a type *)

Definition check_pattern (pattern : Pattern) (expected_type : Ty) : result TypeError unit :=
  match pattern with
  | Pattern.Identifier _ _ | Pattern.Wildcard _ => Ok tt
  | Pattern.Number _ span => check_type_compatibility Ty.Num expected_type span
  | Pattern.Text _ span => check_type_compatibility Ty.Text expected_type span
  | Pattern.Constructor name arguments span =>
      match expected_type with
      | Ty.Sum sum variants =>
          match list_find (λ v, variant_name v = name) variants with
          | None => Err (Te.UnknownConstructor name sum (variant_name <$> variants) span)
          | Some (_, variant) =>
              if negb (length (variant_fields variant) =? length arguments)%nat
              then Err (Te.WrongNumberOfArguments (Z.of_nat (length (variant_fields variant)))
                          (Z.of_nat (length arguments)) span)
              else
                match list_find (λ p, is_irrefutable p = false) arguments with
                | Some (_, argument) => Err (Te.RefutableConstructorArg name (pattern_span argument))
                | None => Ok tt
                end
          end
      | _ => Err (Te.ConstructorPatternOnNonSum name expected_type span)
      end
  end.

(** The constructor names of the arms, a set in the source. *)
Definition covered {E} (arms : list (MatchArm E)) : list string :=
  omap (λ arm, match arm_pattern arm with Pattern.Constructor name _ _ => Some name | _ => None end) arms.

(** Whether narrowing leaves a variant possible. *)
Definition known_possible (narrowed : option (gset string)) (variant : string) : bool :=
  match narrowed with Some set => bool_decide (variant ∈ set) | None => true end.

Definition check_exhaustiveness {E} (scrutinee : Ty) (arms : list (MatchArm E))
    (narrowed : option (gset string)) (mutable_binding : bool) (span : Span) : result TypeError unit :=
  if existsb (λ arm, is_irrefutable (arm_pattern arm)) arms then Ok tt
  else
    let not_covered missing := Err (Te.NonExhaustiveMatch scrutinee missing mutable_binding span) in
    match scrutinee with
    | Ty.Sum _ variants =>
        let required := filter (λ variant, known_possible narrowed (variant_name variant) = true) variants in
        let missing := variant_name <$> filter (λ variant, variant_name variant ∉ covered arms) required in
        match missing with [] => Ok tt | _ => not_covered missing end
    | _ => not_covered []
    end.

(** The order a [BTreeSet<String>] is read in. *)
Definition in_order (names : gset string) : list string := sort_by String.leb (elements names).

Fixpoint dead_arm {E} (narrowed : gset string) (covered : list string) (arms : list (MatchArm E))
    : option (option string * Span) :=
  match arms with
  | [] => None
  | arm :: rest =>
      match arm_pattern arm with
      | Pattern.Constructor name _ span =>
          if bool_decide (name ∈ narrowed) then dead_arm narrowed covered rest else Some (Some name, span)
      | Pattern.Wildcard span | Pattern.Identifier _ span =>
          if bool_decide (set_Forall (λ variant, variant ∈ covered) narrowed)
          then Some (None, span) else dead_arm narrowed covered rest
      | _ => dead_arm narrowed covered rest
      end
  end.

Definition check_dead_arms {E} (binding : string) (narrowed : gset string) (arms : list (MatchArm E))
    : result TypeError unit :=
  match dead_arm narrowed (covered arms) arms with
  | Some (variant, span) => Err (Te.UnreachableMatchArm binding variant (in_order narrowed) span)
  | None => Ok tt
  end.

Fixpoint bind_pattern_vars (c : TypeChecker) (pattern : Pattern) (ty : Ty)
    (scrutinee_aliasing : ValueAliasing) {struct pattern} : result TypeError TypeChecker :=
  match pattern with
  | Pattern.Identifier name span =>
      e ← define_binding (env c) name ty false (current_declaration c) scrutinee_aliasing span;
      Ok (with_env c e)
  | Pattern.Constructor constructor_name arguments _ =>
      match ty with
      | Ty.Sum _ variants =>
          match list_find (λ v, variant_name v = constructor_name) variants with
          | Some (_, variant) =>
              (fix bind c arguments fields :=
                 match arguments, fields with
                 | argument :: arguments, field_type :: fields =>
                     c ← bind_pattern_vars c argument (resolve_payload c field_type) scrutinee_aliasing;
                     bind c arguments fields
                 | _, _ => Ok c
                 end) c arguments (variant_fields variant)
          | None => Ok c
          end
      | _ => Ok c
      end
  | _ => Ok c
  end.

(** ** The whole match *)

Definition is_unspecialized_result (ty : Ty) : bool :=
  match ty with
  | Ty.Sum name variants =>
      bool_decide (name = RESULT_TYPE_NAME)
      && forallb (λ v, forallb is_generic (variant_fields v)) variants
  | _ => false
  end.

Fixpoint check_patterns {E} (arms : list (MatchArm E)) (ty : Ty) : result TypeError unit :=
  match arms with
  | [] => Ok tt
  | arm :: rest => _ ← check_pattern (arm_pattern arm) ty; check_patterns rest ty
  end.

(** The checks before the arms' bodies: every pattern, then what narrowing rules
    out, then coverage. *)
Definition check_cover {E} (c : TypeChecker) (scrutinee_binding : option string) (ty : Ty)
    (arms : list (MatchArm E)) (span : Span) : result TypeError unit :=
  _ ← check_patterns arms ty;
  let narrowed := name ← scrutinee_binding; narrowed_variants (env c) name in
  let mutable_binding :=
    match scrutinee_binding with Some name => is_mutable (env c) name | None => false end in
  _ ← match scrutinee_binding, narrowed with
      | Some binding, Some narrowed => check_dead_arms binding narrowed arms
      | _, _ => Ok tt
      end;
  check_exhaustiveness ty arms narrowed mutable_binding span.

(** The payload binding of an [Ok] or [NotOk] arm. *)
Definition result_binding (constructor : string) (arms : list (MatchArm Expression))
    : option (string * Span * Expression) :=
  foldl (λ found arm, match arm_pattern arm with
                      | Pattern.Constructor name [Pattern.Identifier binding span] _ =>
                          if bool_decide (name = constructor) then Some (binding, span, arm_body arm)
                          else found
                      | _ => found
                      end) None arms.

Definition record_result_scrutinee (c : TypeChecker) (expression : Expression) (ty : Ty)
    (arms : list (MatchArm Expression)) : TypeChecker :=
  match expression with
  | Expression.Identifier name scrutinee_span =>
      if is_unspecialized_result ty then
        match s ← lookup (env c) name; result_parameter s with
        | Some (declaration_body, index) =>
            let entry := mkResultScrutinee index scrutinee_span (result_binding OK arms)
                           (result_binding NOT_OK arms) in
            with_result_scrutinees c
              (<[declaration_body := default [] (result_scrutinees c !! declaration_body) ++ [entry]]>
                 (result_scrutinees c))
        | None => c
        end
      else c
  | _ => c
  end.

(** The checker an arm's body is checked in: a scope with what the pattern binds,
    the scrutinee narrowed to the arm's variant. *)
Definition open_arm (c : TypeChecker) (scrutinee_binding : option string) (pattern : Pattern) (ty : Ty)
    (aliasing : ValueAliasing) : result TypeError TypeChecker :=
  c ← bind_pattern_vars (map_env push_scope c) pattern ty aliasing;
  match scrutinee_binding, pattern with
  | Some binding, Pattern.Constructor name _ _ =>
      Ok (map_env (λ e, narrow e binding {[name]}) c)
  | _, _ => Ok c
  end.

Section check_match.
(** The rest of the checker: an expression's type, and what its value aliases. *)
Variable infer_expression : TypeChecker → Expression → fueled TypeError (Ty * TypeChecker).
Variable value_aliasing : TypeChecker → Expression → ValueAliasing.

Definition check_arm (c : TypeChecker) (scrutinee_binding : option string) (ty : Ty)
    (aliasing : ValueAliasing) (arm : MatchArm Expression)
    : fueled TypeError (Ty * ValueAliasing * TypeChecker) :=
  let narrowing_before := snapshot_narrowing (env c) in
  c ← lift (open_arm c scrutinee_binding (arm_pattern arm) ty aliasing);
  '(body_type, c) ← infer_expression c (arm_body arm);
  let arm_aliasing := value_aliasing c (arm_body arm) in
  Ok (body_type, arm_aliasing,
      map_env (λ e, restore_narrowing (pop_scope e) narrowing_before) c).

(** The arms after the first, each against the type so far. *)
Fixpoint check_arms (c : TypeChecker) (scrutinee_binding : option string) (ty : Ty)
    (aliasing : ValueAliasing) (result_type : Ty) (arms_aliasing : ValueAliasing)
    (arms : list (MatchArm Expression)) : fueled TypeError (Ty * ValueAliasing * TypeChecker) :=
  match arms with
  | [] => Ok (result_type, arms_aliasing, c)
  | arm :: rest =>
      '(body_type, arm_aliasing, c) ← check_arm c scrutinee_binding ty aliasing arm;
      _ ← lift (check_type_compatibility result_type body_type (arm_span arm));
      let next := if is_generic result_type then body_type else merge_types result_type body_type in
      check_arms c scrutinee_binding ty aliasing next (merge arms_aliasing arm_aliasing) rest
  end.

Definition check_match (c : TypeChecker) (expression : Expression) (arms : list (MatchArm Expression))
    (span : Span) : fueled TypeError (Ty * TypeChecker) :=
  '(ty, c) ← infer_expression c expression;
  let c := record_result_scrutinee c expression ty arms in
  match arms with
  | [] => throw (Te.NonExhaustiveMatch ty [] false span)
  | arm :: rest =>
      let scrutinee_binding :=
        match expression with Expression.Identifier name _ => Some name | _ => None end in
      _ ← lift (check_cover c scrutinee_binding ty arms span);
      let aliasing := value_aliasing c expression in
      '(body_type, arm_aliasing, c) ← check_arm c scrutinee_binding ty aliasing arm;
      '(result_type, arms_aliasing, c) ←
        check_arms c scrutinee_binding ty aliasing body_type (merge no_aliasing arm_aliasing) rest;
      Ok (result_type, with_match_aliasing c (<[span := arms_aliasing]> (match_aliasing c)))
  end.

(** ** The signal trap: [checker/trap.rs] *)

Definition PROCESS_SIGNAL : string := "core.process.Signal".

(** One arm's pattern, with its variant's qualified name. *)
Definition resolve_trap_arm (variants : list SumVariant) (seen : gmap string Span) (pattern : Pattern)
    : result TypeError (gmap string Span * SumVariant * Pattern) :=
  match pattern with
  | Pattern.Constructor name arguments span =>
      match seen !! name with
      | Some first => Err (Te.DuplicateTrapArm name first span)
      | None =>
          match list_find (λ variant, display_name (variant_name variant) = name) variants with
          | Some (_, variant) =>
              Ok (<[name := span]> seen, variant, Pattern.Constructor (variant_name variant) arguments span)
          | None =>
              Err (Te.UnknownConstructor name "process.Signal"
                     (display_name ∘ variant_name <$> variants) span)
          end
      end
  | _ => Err (Te.TrapArmNotASignalPattern (pattern_span pattern))
  end.

(** The payload's type, recorded under the span of the name bound to it. *)
Definition record_trap_payload (c : TypeChecker) (pattern : Pattern) (variant : SumVariant)
    : TypeChecker :=
  match pattern, variant_fields variant with
  | Pattern.Constructor _ (Pattern.Identifier _ span :: _) _, field_type :: _ =>
      with_type_table c (<[span := field_type]> (type_table c))
  | _, _ => c
  end.

Fixpoint check_trap_arms (c : TypeChecker) (signal_type : Ty) (variants : list SumVariant)
    (seen : gmap string Span) (arms : list (MatchArm Expression)) : fueled TypeError TypeChecker :=
  match arms with
  | [] => Ok c
  | arm :: rest =>
      '(seen, variant, resolved) ← lift (resolve_trap_arm variants seen (arm_pattern arm));
      _ ← lift (check_pattern resolved signal_type);
      let narrowing_before := snapshot_narrowing (env c) in
      let '(enclosing_declaration, c) := enter_declaration (map_env push_scope c) in
      c ← lift (bind_pattern_vars c resolved signal_type no_aliasing);
      let c := record_trap_payload c resolved variant in
      '(_, c) ← infer_expression c (arm_body arm);
      let c := leave_declaration c enclosing_declaration in
      check_trap_arms (map_env (λ e, restore_narrowing (pop_scope e) narrowing_before) c)
        signal_type variants seen rest
  end.

(** The whole trap; a registered [core.process.Signal] is a sum. *)
Definition check_trap (c : TypeChecker) (trap : TrapDeclaration Expression)
    : fueled TypeError TypeChecker :=
  match sum_types c !! PROCESS_SIGNAL with
  | Some (Ty.Sum _ variants as signal_type) => check_trap_arms c signal_type variants ∅ (arms trap)
  | _ => throw (Te.TrapWithoutProcessImport (trap_span trap))
  end.

Definition check_traps (c : TypeChecker) (program : Program) : fueled TypeError TypeChecker :=
  match omap (λ item, match item with ItemTrap trap => Some trap | _ => None end) (items program) with
  | [] => Ok c
  | [first] =>
      if bool_decide (file (trap_span first) = ROOT_FILE) then check_trap c first
      else throw (Te.TrapOutsideRootFile (trap_span first))
  | first :: second :: _ => throw (Te.SecondTrap (trap_span first) (trap_span second))
  end.
End check_match.

(** ** What the generated code does: [codegen/generator/matching.rs]

    A value as the tests see it: a [Num] is a float, a [Text] its bytes, a sum its
    [i8] tag; nothing else is ever told apart. *)
Inductive value : Type :=
| FloatValue (f : f64)
| TextValue (text : string)
| SumValue (tag : Z)
| OtherValue.

(** [register_sum_variants]: each variant's tag is its index, as a [u8]. *)
Definition register_sum_variants (registry : gmap string (Z * string)) (type_name : string)
    (variants : list SumVariant) : gmap string (Z * string) :=
  foldl (λ registry '(tag, variant),
           <[variant_name variant := (Z.of_nat tag mod 256, type_name)%Z]> registry)
    registry (imap pair variants).

(** The test emitted for a pattern, on a value; an error stops the compilation. *)
Definition pattern_test (registry : gmap string (Z * string)) (pattern : Pattern) (v : value)
    : result string bool :=
  match pattern, v with
  | Pattern.Wildcard _, _ | Pattern.Identifier _ _, _ => Ok true
  | Pattern.Number num _, FloatValue f => Ok (SpecFloat.SFeqb f num)
  | Pattern.Number _ _, _ => Ok false
  | Pattern.Text text _, TextValue t => Ok (bool_decide (t = text))
  | Pattern.Text _ _, _ => Ok false
  | Pattern.Constructor name _ _, SumValue tag =>
      match registry !! name with
      | Some (expected, _) => Ok (tag =? expected)%Z
      | None => Err ("Unknown constructor: " +:+ name)
      end
  | Pattern.Constructor _ _ _, _ => Ok false
  end.

(** The arm a match enters; [None] past the last one, where it aborts. *)
Fixpoint match_position {E} (registry : gmap string (Z * string)) (arms : list (MatchArm E)) (v : value)
    : result string (option nat) :=
  match arms with
  | [] => Ok None
  | arm :: rest =>
      matches ← pattern_test registry (arm_pattern arm) v;
      if (matches : bool) then Ok (Some 0%nat)
      else i ← match_position registry rest v; Ok (option_map S i)
  end.

(** ** Values of a type, and the arm that takes one *)

(** [narrowed] is what is known of a sum's variant. *)
Definition of_type (narrowed : option (gset string)) (ty : Ty) (v : value) : Prop :=
  match ty with
  | Ty.Num => ∃ f, v = FloatValue f
  | Ty.Text => ∃ t, v = TextValue t
  | Ty.Sum _ variants =>
      ∃ i w, variants !! i = Some w ∧ v = SumValue (Z.of_nat i mod 256) ∧
             known_possible narrowed (variant_name w) = true
  | _ => v = OtherValue
  end.

Definition takes (ty : Ty) (pattern : Pattern) (v : value) : Prop :=
  match pattern with
  | Pattern.Identifier _ _ | Pattern.Wildcard _ => True
  | Pattern.Number num _ => ∃ f, v = FloatValue f ∧ SpecFloat.SFeqb f num = true
  | Pattern.Text text _ => v = TextValue text
  | Pattern.Constructor name _ _ =>
      match ty with
      | Ty.Sum _ variants =>
          ∃ i w, variants !! i = Some w ∧ v = SumValue (Z.of_nat i mod 256) ∧ variant_name w = name
      | _ => False
      end
  end.

(** The registry knows the variants of the scrutinee's sum, which fit a [u8]. *)
Definition registered (registry : gmap string (Z * string)) (ty : Ty) : Prop :=
  match ty with
  | Ty.Sum name variants =>
      (length variants ≤ 256)%nat ∧
      ∀ i w, variants !! i = Some w → registry !! variant_name w = Some (Z.of_nat i mod 256, name)%Z
  | _ => True
  end.

Lemma register_sum_variants_lookup registry name variants i w :
  NoDup (variant_name <$> variants) → variants !! i = Some w →
  register_sum_variants registry name variants !! variant_name w = Some (Z.of_nat i mod 256, name)%Z.
Proof.
  unfold register_sum_variants. revert i. induction variants as [|x variants IH] using rev_ind; intros i Hd Hi; [done|].
  rewrite imap_app, foldl_app. simpl. rewrite fmap_app in Hd. apply NoDup_app in Hd as (Hd&Hx&_).
  destruct (decide (i < length variants)%nat) as [Hlt|Hge].
  - rewrite lookup_app_l in Hi by done. rewrite lookup_insert_ne; [by apply IH|].
    intros E. apply (Hx (variant_name w)); [|rewrite <-E; by left].
    apply list_elem_of_fmap_2. by eapply list_elem_of_lookup_2.
  - rewrite lookup_app_r in Hi by lia. apply list_lookup_singleton_Some in Hi as [Hz <-].
    rewrite lookup_insert_eq. do 3 f_equal. lia.
Qed.

Lemma compatible_num ty v narrowed :
  types_compatible Ty.Num ty = true → of_type narrowed ty v → v = OtherValue ∨ ∃ f, v = FloatValue f.
Proof. destruct ty; simpl; try done; auto. Qed.

Lemma compatible_text ty v narrowed :
  types_compatible Ty.Text ty = true → of_type narrowed ty v → v = OtherValue ∨ ∃ t, v = TextValue t.
Proof. destruct ty; simpl; try done; auto. Qed.

Lemma tag_inj (i j : nat) : (i < 256)%nat → (j < 256)%nat → (Z.of_nat i mod 256 = Z.of_nat j mod 256)%Z → i = j.
Proof. intros ??. rewrite !Z.mod_small by lia. lia. Qed.

(** The emitted test decides whether the pattern takes the value. *)
Lemma pattern_test_takes registry pattern ty narrowed v :
  check_pattern pattern ty = Ok tt → registered registry ty → of_type narrowed ty v →
  ∃ b, pattern_test registry pattern v = Ok b ∧ (b = true ↔ takes ty pattern v).
Proof.
  intros Hp Hr Hv. destruct pattern as [n s|num s|text s|name args s|s]; simpl in *.
  - by exists true.
  - unfold check_type_compatibility in Hp. destruct (types_compatible Ty.Num ty) eqn:E; [|done].
    destruct (compatible_num ty v narrowed E Hv) as [->|[f ->]].
    + exists false. split; [done|]. split; [done|]. by intros (?&?&_).
    + eexists. split; [done|]. naive_solver.
  - unfold check_type_compatibility in Hp. destruct (types_compatible Ty.Text ty) eqn:E; [|done].
    destruct (compatible_text ty v narrowed E Hv) as [->|[t ->]].
    + exists false. by split.
    + eexists. split; [done|]. rewrite bool_decide_eq_true. naive_solver.
  - destruct ty as [ | | | | | | | | | | |sum variants]; try done.
    destruct (list_find _ variants) as [[j w]|] eqn:Ef; [|done].
    apply list_find_Some in Ef as (Hj&Hname&_). destruct Hr as [Hlen Hr], Hv as (i&x&Hi&->&_).
    subst name. rewrite (Hr _ _ Hj). eexists. split; [done|]. rewrite Z.eqb_eq.
    apply lookup_lt_Some in Hi as Hli. apply lookup_lt_Some in Hj as Hlj. split.
    + intros Heq%tag_inj; [|lia..]. subst. exists j, w. auto.
    + intros (k&y&Hk&[= Ek]&Ey). rewrite Ek. pose proof (Hr _ _ Hk) as Hrk. rewrite Ey, (Hr _ _ Hj) in Hrk.
      congruence.
  - by exists true.
Qed.

Lemma check_patterns_Forall {E} (arms : list (MatchArm E)) ty :
  check_patterns arms ty = Ok tt ↔ Forall (λ arm, check_pattern (arm_pattern arm) ty = Ok tt) arms.
Proof.
  induction arms as [|arm arms IH]; simpl; [by split|]. rewrite result_bind_Ok, Forall_cons, <-IH.
  split; [by intros ([]&?&?)|]. intros [? ?]. by exists tt.
Qed.

(** The arm entered is the first that takes the value. *)
Lemma match_position_first {E} registry (arms : list (MatchArm E)) ty narrowed v :
  check_patterns arms ty = Ok tt → registered registry ty → of_type narrowed ty v →
  ∃ found, match_position registry arms v = Ok found ∧
    match found with
    | Some i => ∃ arm, arms !! i = Some arm ∧ takes ty (arm_pattern arm) v ∧
        ∀ j arm', (j < i)%nat → arms !! j = Some arm' → ¬ takes ty (arm_pattern arm') v
    | None => ∀ arm, arm ∈ arms → ¬ takes ty (arm_pattern arm) v
    end.
Proof.
  rewrite check_patterns_Forall. intros Hp Hr Hv.
  induction Hp as [|arm arms Ha _ (found&Hf&IH)]; simpl.
  - exists None. split; [done|]. by intros arm ?%elem_of_nil.
  - destruct (pattern_test_takes registry _ _ _ _ Ha Hr Hv) as (b&->&Hb). simpl. destruct b.
    + exists (Some 0%nat). split; [done|]. exists arm. split_and!; [done|by apply Hb|lia].
    + rewrite Hf. exists (option_map S found). split; [done|].
      assert (¬ takes ty (arm_pattern arm) v) by (intros ?%Hb; done).
      destruct found as [i|]; simpl.
      * destruct IH as (arm'&Hi&Ht&Hj). exists arm'. split_and!; [done|done|].
        intros [|j] x Hlt Hx; simpl in Hx; [by simplify_eq|]. apply (Hj j); [lia|done].
      * intros x [->|Hx]%elem_of_cons; [done|auto].
Qed.

Lemma irrefutable_takes ty pattern v : is_irrefutable pattern = true → takes ty pattern v.
Proof. by destruct pattern. Qed.

Lemma covered_elem {E} (arms : list (MatchArm E)) name :
  name ∈ covered arms ↔ ∃ arm args span, arm ∈ arms ∧ arm_pattern arm = Pattern.Constructor name args span.
Proof.
  unfold covered. rewrite list_elem_of_omap. split.
  - intros (arm&Hin&E'). destruct (arm_pattern arm) eqn:Ep; simplify_eq. eauto.
  - intros (arm&args&span&Hin&Ep). exists arm. by rewrite Ep.
Qed.

(** Coverage, case by case. *)
Lemma check_exhaustiveness_Ok {E} scrutinee (arms : list (MatchArm E)) narrowed mutable_binding span :
  check_exhaustiveness scrutinee arms narrowed mutable_binding span = Ok tt →
  (∃ arm, arm ∈ arms ∧ is_irrefutable (arm_pattern arm) = true) ∨
  ∃ name variants, scrutinee = Ty.Sum name variants ∧
    ∀ w, w ∈ variants → known_possible narrowed (variant_name w) = true → variant_name w ∈ covered arms.
Proof.
  unfold check_exhaustiveness. destruct (existsb _ arms) eqn:Ee.
  - intros _. left. apply existsb_exists in Ee as (arm&Hin&?). exists arm. by rewrite list_elem_of_In.
  - destruct scrutinee as [ | | | | | | | | | | |name variants]; try done.
    destruct (variant_name <$> _) eqn:Em; [|done]. intros _. right. exists name, variants. split; [done|].
    intros w Hw Hk. destruct (decide (variant_name w ∈ covered arms)) as [|Hn]; [done|].
    apply fmap_nil_inv in Em. exfalso. eapply (not_elem_of_nil w). rewrite <-Em.
    by repeat (apply list_elem_of_filter; split).
Qed.

Lemma match_position_none {E} registry (arms : list (MatchArm E)) ty narrowed v :
  check_patterns arms ty = Ok tt → registered registry ty → of_type narrowed ty v →
  (∀ arm, arm ∈ arms → ¬ takes ty (arm_pattern arm) v) → match_position registry arms v = Ok None.
Proof.
  intros Hp Hr Hv Hn. destruct (match_position_first registry arms ty narrowed v Hp Hr Hv) as ([i|]&->&H); [|done].
  destruct H as (arm&Hi&Ht&_). by destruct (Hn arm (list_elem_of_lookup_2 _ _ _ Hi)).
Qed.

(** A type without enumerable values has one no refutable arm takes. *)
Lemma refutable_arms_miss {E} (arms : list (MatchArm E)) ty narrowed :
  check_patterns arms ty = Ok tt → existsb (λ arm, is_irrefutable (arm_pattern arm)) arms = false →
  (∀ name variants, ty ≠ Ty.Sum name variants) →
  ∃ v, of_type narrowed ty v ∧ ∀ arm, arm ∈ arms → ¬ takes ty (arm_pattern arm) v.
Proof.
  rewrite check_patterns_Forall, Forall_forall. intros Hp Hi Hs.
  assert (∀ arm, arm ∈ arms → is_irrefutable (arm_pattern arm) = false) as Hr.
  { intros arm Hin. destruct (is_irrefutable (arm_pattern arm)) eqn:Ei; [|done].
    rewrite <-not_true_iff_false, existsb_exists in Hi. destruct Hi. exists arm. by rewrite <-list_elem_of_In. }
  set (texts := omap (λ arm : MatchArm E, match arm_pattern arm with Pattern.Text t _ => Some t | _ => None end) arms).
  exists (match ty with Ty.Num => FloatValue SpecFloat.S754_nan | Ty.Text => TextValue (fresh texts) | _ => OtherValue end).
  split; [destruct ty; simpl; eauto; by destruct (Hs name variants)|].
  intros arm Hin. specialize (Hr arm Hin). specialize (Hp arm Hin).
  destruct (arm_pattern arm) as [| num s|text s|name args s|] eqn:Ep; try done; simpl in *.
  - unfold check_type_compatibility in Hp. intros (f&Hf&Ht). destruct ty; simplify_eq; done.
  - unfold check_type_compatibility in Hp. intros Ht. destruct ty; simplify_eq/=.
    apply (infinite_is_fresh texts). apply list_elem_of_omap. exists arm. by rewrite Ep.
  - destruct ty; try done. by destruct (Hs name0 variants).
Qed.


(** No arm takes a value of a variant the arms leave out. *)
Lemma missing_variant_missed {E} registry (arms : list (MatchArm E)) name variants i w :
  check_patterns arms (Ty.Sum name variants) = Ok tt → registered registry (Ty.Sum name variants) →
  existsb (λ arm, is_irrefutable (arm_pattern arm)) arms = false →
  variants !! i = Some w → variant_name w ∉ covered arms →
  match_position registry arms (SumValue (Z.of_nat i mod 256)) = Ok None.
Proof.
  intros Hp Hr Ei Hi Hn.
  apply (match_position_none registry arms (Ty.Sum name variants) None); [done|done|by exists i, w|].
  intros arm Hin Ht. destruct (is_irrefutable (arm_pattern arm)) eqn:Ea.
  - apply not_true_iff_false in Ei. rewrite existsb_exists in Ei. destruct Ei. exists arm.
    by rewrite <-list_elem_of_In.
  - destruct (arm_pattern arm) as [| | |n args s|] eqn:Ep; try done; simpl in Ht; [by destruct Ht as (?&?&_)|].
    destruct Ht as (j&y&Hj&[= Eij]&<-). apply Hn, covered_elem. destruct Hr as [Hlen Hr].
    apply lookup_lt_Some in Hi as Hli. apply lookup_lt_Some in Hj as Hlj.
    apply tag_inj in Eij; [|lia..]. subst j. replace w with y by congruence. eauto.
Qed.

(** C24: a match rejected as non-exhaustive really is: with every pattern fitting
    the scrutinee, some value of its type falls past the last arm, and so does
    every value of each variant the error lists as missing. *)
Theorem non_exhaustive_real {E} (ty : Ty) (arms : list (MatchArm E)) (narrowed : option (gset string))
    (mutable_binding : bool) (span : Span) (registry : gmap string (Z * string)) (e : TypeError)
    (Hpatterns : check_patterns arms ty = Ok tt) (Hregistry : registered registry ty)
    (Herror : check_exhaustiveness ty arms narrowed mutable_binding span = Err e) :
  ∃ missing, e = Te.NonExhaustiveMatch ty missing mutable_binding span ∧
    (∃ v, of_type narrowed ty v ∧ match_position registry arms v = Ok None) ∧
    match ty with
    | Ty.Sum _ variants =>
        missing ≠ [] ∧ ∀ i w, variants !! i = Some w → variant_name w ∈ missing →
          match_position registry arms (SumValue (Z.of_nat i mod 256)) = Ok None
    | _ => missing = []
    end.
Proof.
  unfold check_exhaustiveness in Herror. destruct (existsb _ arms) eqn:Ei; [done|].
  assert ((∃ name variants, ty = Ty.Sum name variants) ∨ ∀ name variants, ty ≠ Ty.Sum name variants)
    as [(name&variants&->)|Hs] by (destruct ty; eauto; by right).
  - assert (∀ w : SumVariant, variant_name w ∈ variant_name <$> filter (λ variant, variant_name variant ∉ covered arms)
        (filter (λ variant, known_possible narrowed (variant_name variant) = true) variants) →
      variant_name w ∉ covered arms) as Hgone.
    { intros w (x&->&[Hx _]%list_elem_of_filter)%list_elem_of_fmap. done. }
    destruct (filter _ (filter _ variants)) as [|w rest] eqn:Eg; [done|]. injection Herror as <-.
    exists (variant_name <$> w :: rest). split_and!; [done| |done|].
    + assert (w ∈ w :: rest) as Hw by left. rewrite <-Eg in Hw.
      apply list_elem_of_filter in Hw as [Hn [Hk Hw]%list_elem_of_filter].
      apply list_elem_of_lookup in Hw as (i&Hi). exists (SumValue (Z.of_nat i mod 256)).
      split; [by exists i, w|by eapply missing_variant_missed].
    + intros i x Hi Hx. eapply missing_variant_missed; eauto.
  - exists []. destruct (refutable_arms_miss arms ty narrowed Hpatterns Ei Hs) as (v&Hv&Hn).
    split_and!; [| |destruct ty; first [done|by destruct (Hs name variants)]].
    + destruct ty; first [congruence|by destruct (Hs name variants)].
    + exists v. split; [done|]. by eapply match_position_none.
Qed.

(** ** Witnesses *)

Definition at_ (n : Z) : Span := in_root n (n + 1).
Definition arm (p : Pattern) (e : Expression) : MatchArm Expression := mkMatchArm p e (at_ 0).
Definition named (name : string) (args : list Pattern) : Pattern := Pattern.Constructor name args (at_ 0).
Definition result_type (ok not_ok : Ty) : Ty :=
  Ty.Sum RESULT_TYPE_NAME [mkSumVariant OK [ok]; mkSumVariant NOT_OK [not_ok]].
Definition result_registry : gmap string (Z * string) :=
  {[OK := (0%Z, RESULT_TYPE_NAME); NOT_OK := (1%Z, RESULT_TYPE_NAME)]}.
Definition checker_in (e : Environment) : TypeChecker := empty_checker e.

(** [r ? | Ok(n) => n | NotOk(_) => 0] *)
Definition sample_arms : list (MatchArm Expression) :=
  [arm (named OK [Pattern.Identifier "n" (at_ 1)]) (Expression.Identifier "n" (at_ 2));
   arm (named NOT_OK [Pattern.Wildcard (at_ 3)]) (Expression.Number (f64_of_Z 0) (at_ 4))].

Lemma result_registered ok not_ok : registered result_registry (result_type ok not_ok).
Proof.
  split; [by apply Nat.leb_le|]. intros [|[|i]] w Hi; simpl in Hi; simplify_eq; done.
Qed.


Example non_exhaustive_real_witness :
  ∃ missing, Te.NonExhaustiveMatch (result_type Ty.Num Ty.Unit) [NOT_OK] false (at_ 0)
             = Te.NonExhaustiveMatch (result_type Ty.Num Ty.Unit) missing false (at_ 0) ∧
    (∃ v, of_type None (result_type Ty.Num Ty.Unit) v ∧
          match_position result_registry (take 1 sample_arms) v = Ok None) ∧
    (missing ≠ [] ∧ ∀ i w, [mkSumVariant OK [Ty.Num]; mkSumVariant NOT_OK [Ty.Unit]] !! i = Some w →
       variant_name w ∈ missing →
       match_position result_registry (take 1 sample_arms) (SumValue (Z.of_nat i mod 256)) = Ok None).
Proof.
  apply (non_exhaustive_real (result_type Ty.Num Ty.Unit) (take 1 sample_arms) None false (at_ 0)
           result_registry); [done|apply result_registered|done].
Defined.

(** ** What the narrowing of an arm misses *)

(** Inference of the expressions below: names, numbers and matches. *)
Fixpoint infer_match (fuel : nat) (c : TypeChecker) (e : Expression)
    : fueled TypeError (Ty * TypeChecker) :=
  match fuel, e with
  | S fuel, Expression.Identifier name span =>
      match get_type (env c) name with Some ty => Ok (ty, c) | None => throw (Te.UndefinedVariable name span) end
  | S _, Expression.Number _ _ => Ok (Ty.Num, c)
  | S fuel, Expression.Match e arms span => check_match (infer_match fuel) (λ _ _, no_aliasing) c e arms span
  | _, _ => out_of_fuel
  end.

(** [r ? | Ok(r) => (r ? | Ok(n) => n) | NotOk(_) => 0], the payload of the outer
    [r] a [Result] itself: the arm narrows the inner [r] to the variant of the
    outer one, and the inner match passes with one arm of two. *)
Definition shadowing_arms : list (MatchArm Expression) :=
  [arm (named OK [Pattern.Identifier "r" (at_ 1)])
     (Expression.Match (Expression.Identifier "r" (at_ 2)) (take 1 sample_arms) (at_ 5));
   arm (named NOT_OK [Pattern.Wildcard (at_ 3)]) (Expression.Number (f64_of_Z 0) (at_ 4))].
Definition shadowed_checker : TypeChecker :=
  checker_in (mkEnvironment {["r" := narrowable_parameter_symbol "r"
    (result_type (result_type Ty.Num Ty.Unit) Ty.Unit) 1 0]} [] true).

Lemma shadowed_narrowing :
  (∃ c', check_match (infer_match 5) (λ _ _, no_aliasing) shadowed_checker
     (Expression.Identifier "r" (at_ 0)) shadowing_arms (at_ 6) = Ok (Ty.Num, c')) ∧
  of_type None (result_type Ty.Num Ty.Unit) (SumValue 1) ∧
  match_position result_registry (take 1 sample_arms) (SumValue 1) = Ok None.
Proof.
  split_and!; [eexists; vm_compute; reflexivity|by exists 1%nat, (mkSumVariant NOT_OK [Ty.Unit])|done].
Qed.

(** A catch-all above the arm that covers its variant is called unreachable, and
    is the arm the value enters. *)
Lemma dead_catch_all_selected :
  check_dead_arms "r" {[OK]} [arm (Pattern.Wildcard (at_ 0)) (Expression.Unit (at_ 1));
                              arm (named OK []) (Expression.Unit (at_ 2))]
  = Err (Te.UnreachableMatchArm "r" None [OK] (at_ 0)) ∧
  match_position result_registry [arm (Pattern.Wildcard (at_ 0)) (Expression.Unit (at_ 1));
                                  arm (named OK []) (Expression.Unit (at_ 2))] (SumValue 0) = Ok (Some 0%nat).
Proof. by vm_compute. Qed.

(** Past 256 variants tags wrap: the 257th shares the first one's. *)
Lemma tags_wrap name (variants : list SumVariant) v w :
  NoDup (variant_name <$> variants) → variants !! 0%nat = Some v → variants !! 256%nat = Some w →
  register_sum_variants ∅ name variants !! variant_name v
  = register_sum_variants ∅ name variants !! variant_name w.
Proof. intros Hd Hv Hw. by rewrite !(register_sum_variants_lookup _ _ _ _ _ Hd Hv), (register_sum_variants_lookup _ _ _ _ _ Hd Hw). Qed.
