(* ===== verification/Walk.v ===== *)
(** * Walks over expressions: [ast/walk.rs] and [ast/captures.rs]

    The one structural traversal the analyses share, with its early stop, and the
    names a lambda captures.  Proved: the traversal visits an expression and its
    descendants in pre-order, each once, up to the first break; the captures of a
    lambda are exactly the enclosing names that occur free in its body, in the
    order they first do. *)

From S2P Require Import Prelude Bytes Token Ast.

(** ** [std::ops::ControlFlow], with the state the visitor mutates *)

Inductive ControlFlow (B S : Type) : Type :=
| Continue (s : S)
| Break (b : B) (s : S).
Arguments Continue {B S} s.
Arguments Break {B S} b s.

Definition and_then {B S} (m : ControlFlow B S) (k : S → ControlFlow B S) : ControlFlow B S :=
  match m with Continue s => k s | Break b s => Break b s end.

(** [for x in xs { g(x)?; }] *)
Definition for_each {X B S} (g : X → S → ControlFlow B S) : list X → S → ControlFlow B S :=
  fix go xs s := match xs with [] => Continue s | x :: xs => and_then (g x s) (go xs) end.

(** ** The traversal *)

Section walk.
Context {B S : Type} (f : Expression → S → ControlFlow B S).

Fixpoint try_for_each_subexpression (expression : Expression) (s : S) : ControlFlow B S :=
  let walk := try_for_each_subexpression in
  let both a b s := and_then (walk a s) (walk b) in
  and_then (f expression s) (λ s,
    match expression with
    | Expression.Number _ _ | Expression.String _ _ | Expression.Bool _ _ | Expression.Unit _
    | Expression.Identifier _ _ => Continue s
    | Expression.Interpolation parts _ =>
        for_each (λ part s, match part with PartHole hole => walk hole s | PartLiteral _ => Continue s end)
          parts s
    | Expression.Call function arguments _ _ => and_then (walk function s) (for_each walk arguments)
    | Expression.BinaryOperator left_ _ right_ _ => both left_ right_ s
    | Expression.Range start end_ _ => both start end_ s
    | Expression.UnaryOperator _ expression _ | Expression.FieldAccess expression _ _
    | Expression.Spread expression _ | Expression.Lambda _ _ expression _ => walk expression s
    | Expression.FieldAssign target value _ | Expression.IndexAssign target value _ =>
        both target value s
    | Expression.Index expression index _ => both expression index s
    | Expression.If condition then_ else_ _ => and_then (walk condition s) (both then_ else_)
    | Expression.Match expression arms _ =>
        and_then (walk expression s) (for_each (λ arm s, walk (arm_body arm) s) arms)
    | Expression.Array elements _ | Expression.SetLiteral elements _ => for_each walk elements s
    | Expression.MapLiteral entries _ => for_each (λ entry s, both entry.1 entry.2 s) entries s
    | Expression.Record fields _ | Expression.Constructor _ fields _ =>
        for_each (λ field s, walk field.2 s) fields s
    | Expression.Block statements _ =>
        for_each (λ statement s,
          match statement with
          | StatementExpression e => walk e s
          | StatementItem (ItemVariable v) => walk (variable_value v) s
          | StatementItem (ItemFunction fun_) => walk (function_body fun_) s
          | StatementItem (ItemType declaration) =>
              for_each (λ method s, walk (method_body method) s)
                match type_definition declaration with
                | DefSum _ _ methods | DefRecord _ methods => methods
                end s
          | StatementItem (ItemTrap _) => Continue s
          end) statements s
    end).
End walk.

(** ** Captures: [ast/captures.rs]

    The state is what [collect] mutates: the names seen and the captures in order. *)
Section captures.
Variable outer : gset string.

Definition Captures : Type := gset string * list string.

Definition note (name : string) (local : gset string) (st : Captures) : Captures :=
  if bool_decide (name ∉ local) && bool_decide (name ∈ outer) && bool_decide (name ∉ st.1)
  then ({[name]} ∪ st.1, st.2 ++ [name]) else st.

Fixpoint bind_pattern (pattern : Pattern) (bound : gset string) : gset string :=
  match pattern with
  | Pattern.Identifier name _ => {[name]} ∪ bound
  | Pattern.Constructor _ arguments _ => foldl (λ bound a, bind_pattern a bound) bound arguments
  | _ => bound
  end.

Definition bind_parameters (parameters : list Param) (local : gset string) : gset string :=
  foldl (λ local p, {[parameter_name p]} ∪ local) local parameters.

(** One statement of a block, the block's names growing as it goes. *)
Definition collect_statement (collect : Expression → gset string → Captures → Captures)
    (at_ : gset string * Captures) (statement : Statement Expression) : gset string * Captures :=
  let '(block_local, st) := at_ in
  match statement with
  | StatementExpression e => (block_local, collect e block_local st)
  | StatementItem (ItemVariable d) =>
      let st := collect (variable_value d) block_local st in
      if mutable d && bool_decide (variable_name d ∉ block_local) && bool_decide (variable_name d ∈ outer)
      then (block_local, note (variable_name d) block_local st)
      else ({[variable_name d]} ∪ block_local, st)
  | StatementItem (ItemFunction d) =>
      ({[function_name d]} ∪ block_local,
       collect (function_body d) (bind_parameters (parameters d) block_local) st)
  | StatementItem (ItemType _) | StatementItem (ItemTrap _) => (block_local, st)
  end.

Fixpoint collect (expression : Expression) (local : gset string) (st : Captures) : Captures :=
  let all := fold_left (λ st e, collect e local st) in
  match expression with
  | Expression.Identifier name _ => note name local st
  | Expression.Number _ _ | Expression.String _ _ | Expression.Bool _ _ | Expression.Unit _ => st
  | Expression.Interpolation parts _ =>
      fold_left (λ st part, match part with PartHole e => collect e local st | PartLiteral _ => st end)
        parts st
  | Expression.BinaryOperator a _ b _ | Expression.Range a b _ | Expression.FieldAssign a b _
  | Expression.IndexAssign a b _ | Expression.Index a b _ => collect b local (collect a local st)
  | Expression.UnaryOperator _ e _ | Expression.FieldAccess e _ _ | Expression.Spread e _ =>
      collect e local st
  | Expression.Call function arguments _ _ => all arguments (collect function local st)
  | Expression.Lambda parameters _ body _ => collect body (bind_parameters parameters local) st
  | Expression.Block statements _ =>
      (fold_left (collect_statement collect) statements (local, st)).2
  | Expression.If condition then_ else_ _ =>
      collect else_ local (collect then_ local (collect condition local st))
  | Expression.Match expression arms _ =>
      fold_left (λ st arm, collect (arm_body arm) (bind_pattern (arm_pattern arm) local) st) arms
        (collect expression local st)
  | Expression.Array elements _ | Expression.SetLiteral elements _ => all elements st
  | Expression.MapLiteral entries _ =>
      fold_left (λ st entry, collect entry.2 local (collect entry.1 local st)) entries st
  | Expression.Record fields _ | Expression.Constructor _ fields _ =>
      fold_left (λ st field, collect field.2 local st) fields st
  end.

Definition lambda_free_idents (parameters : list string) (body : Expression) : list string :=
  (collect body (list_to_set parameters) (∅, [])).2.
End captures.

(** ** Parts of an expression *)

Definition statement_parts (statement : Statement Expression) : list Expression :=
  match statement with
  | StatementExpression e => [e]
  | StatementItem (ItemVariable v) => [variable_value v]
  | StatementItem (ItemFunction f) => [function_body f]
  | StatementItem (ItemType d) => method_body <$> methods (type_definition d)
  | StatementItem (ItemTrap _) => []
  end.

(** The immediate sub-expressions, from left to right. *)
Definition parts_of (e : Expression) : list Expression :=
  match e with
  | Expression.Number _ _ | Expression.String _ _ | Expression.Bool _ _ | Expression.Unit _
  | Expression.Identifier _ _ => []
  | Expression.Interpolation parts _ =>
      omap (λ part, match part with PartHole hole => Some hole | PartLiteral _ => None end) parts
  | Expression.Call function arguments _ _ => function :: arguments
  | Expression.BinaryOperator a _ b _ | Expression.Range a b _ | Expression.FieldAssign a b _
  | Expression.IndexAssign a b _ | Expression.Index a b _ => [a; b]
  | Expression.UnaryOperator _ e _ | Expression.FieldAccess e _ _ | Expression.Spread e _
  | Expression.Lambda _ _ e _ => [e]
  | Expression.If condition then_ else_ _ => [condition; then_; else_]
  | Expression.Match expression arms _ => expression :: (arm_body <$> arms)
  | Expression.Array elements _ | Expression.SetLiteral elements _ => elements
  | Expression.MapLiteral entries _ => entries ≫= λ entry, [entry.1; entry.2]
  | Expression.Record fields _ | Expression.Constructor _ fields _ => fields.*2
  | Expression.Block statements _ => statements ≫= statement_parts
  end.

(** An expression and everything in it, in pre-order. *)
Inductive preorder : Expression → list Expression → Prop :=
| preorder_node e orders : Forall2 preorder (parts_of e) orders → preorder e (e :: concat orders).

(** [x] is [e] or lies in it. *)
Definition inside (x e : Expression) : Prop := rtc (λ e x, x ∈ parts_of e) e x.

(** Induction from the parts. *)
Lemma Expression_parts_ind (P : Expression → Prop) :
  (∀ e, Forall P (parts_of e) → P e) → ∀ e, P e.
Proof.
  intros H. fix IH 1. intros e. apply H.
  destruct e as [| |parts| | | | | |function arguments| |statements| |expression arms| | | | |elements
    |entries|elements|fields|tn fields| |]; simpl; try (repeat (constructor; try apply IH); fail).
  - induction parts as [|[t|h] parts IHp]; simpl; [constructor|exact IHp|constructor; [apply IH|exact IHp]].
  - constructor; [apply IH|]. induction arguments; constructor; [apply IH|done].
  - induction statements as [|s statements IHs]; simpl; [constructor|]. apply Forall_app_2; [|exact IHs].
    destruct s as [[v|f|d|t]|e]; simpl; try (repeat (constructor; try apply IH); fail).
    destruct (type_definition d) as [vs sp ms|fs ms]; simpl; induction ms; constructor; try apply IH; done.
  - constructor; [apply IH|]. induction arms; constructor; [apply IH|done].
  - induction elements; constructor; [apply IH|done].
  - induction entries as [|[k v] entries IHe]; simpl; [constructor|].
    constructor; [apply IH|]. constructor; [apply IH|exact IHe].
  - induction elements; constructor; [apply IH|done].
  - induction fields; constructor; [apply IH|done].
  - induction fields; constructor; [apply IH|done].
Qed.

(** ** The traversal is the pre-order *)

Section control.
Context {B S : Type}.
Implicit Types (m : ControlFlow B S) (k : S → ControlFlow B S).

Lemma and_then_ext m k k' : (∀ s, k s = k' s) → and_then m k = and_then m k'.
Proof. destruct m; simpl; auto. Qed.

Lemma and_then_Continue m : and_then m Continue = m.
Proof. by destruct m. Qed.

Lemma and_then_assoc m k k' : and_then (and_then m k) k' = and_then m (λ s, and_then (k s) k').
Proof. by destruct m. Qed.

Lemma for_each_app {X} (g : X → S → ControlFlow B S) xs ys s :
  for_each g (xs ++ ys) s = and_then (for_each g xs s) (for_each g ys).
Proof.
  revert s. induction xs as [|x xs IH]; intros s; simpl; [done|].
  rewrite and_then_assoc. by apply and_then_ext.
Qed.

Lemma for_each_fmap {X Y} (h : X → Y) (g : Y → S → ControlFlow B S) xs s :
  for_each g (h <$> xs) s = for_each (λ x, g (h x)) xs s.
Proof. revert s. induction xs as [|x xs IH]; intros s; simpl; [done|]. by apply and_then_ext. Qed.

Lemma for_each_bind {X Y} (h : X → list Y) (g : Y → S → ControlFlow B S) xs s :
  for_each g (xs ≫= h) s = for_each (λ x, for_each g (h x)) xs s.
Proof.
  revert s. induction xs as [|x xs IH]; intros s; simpl; [done|].
  rewrite for_each_app. by apply and_then_ext.
Qed.

Lemma for_each_omap {X Y} (h : X → option Y) (g : Y → S → ControlFlow B S) xs s :
  for_each g (omap h xs) s = for_each (λ x s, match h x with Some y => g y s | None => Continue s end) xs s.
Proof.
  revert s. induction xs as [|x xs IH]; intros s; simpl; [done|].
  destruct (h x); simpl; [by apply and_then_ext|done].
Qed.

Lemma for_each_ext {X} (g g' : X → S → ControlFlow B S) xs s :
  (∀ x s, x ∈ xs → g x s = g' x s) → for_each g xs s = for_each g' xs s.
Proof.
  revert s. induction xs as [|x xs IH]; intros s Hg; simpl; [done|]. rewrite Hg by left.
  apply and_then_ext. intros s'. apply IH. intros. apply Hg. by right.
Qed.

Lemma walk_unfold (f : Expression → S → ControlFlow B S) e s :
  try_for_each_subexpression f e s
  = and_then (f e s) (for_each (try_for_each_subexpression f) (parts_of e)).
Proof.
  destruct e; simpl; apply and_then_ext; intros s'; simpl; rewrite ?and_then_Continue; try done;
    try (by apply and_then_ext; intros; rewrite ?and_then_Continue).
  - rewrite for_each_omap. apply for_each_ext. by intros [?|?] ??.
  - rewrite for_each_bind. apply for_each_ext. intros [[v|d|d|t]|e] s'' _; simpl; rewrite ?and_then_Continue; try done.
    rewrite for_each_fmap. by destruct (type_definition d).
  - apply and_then_ext. intros. apply and_then_ext. intros. by rewrite and_then_Continue.
  - apply and_then_ext. intros. by rewrite for_each_fmap.
  - rewrite for_each_bind. apply for_each_ext. intros [k v] s'' _. simpl.
    apply and_then_ext. intros. by rewrite and_then_Continue.
  - by rewrite for_each_fmap.
  - by rewrite for_each_fmap.
Qed.
End control.

Lemma walk_preorder {B S} (f : Expression → S → ControlFlow B S) e order s :
  preorder e order → try_for_each_subexpression f e s = for_each f order s.
Proof.
  revert order s. induction e as [e IH] using Expression_parts_ind; intros order s Ho.
  destruct Ho as [e orders Hos]. rewrite walk_unfold. simpl. apply and_then_ext. clear s. intros s.
  revert s. induction Hos as [|x order xs orders Hx _ IHos]; intros s; simpl; [done|].
  apply Forall_cons in IH as [IHx IHxs]. rewrite for_each_app, (IHx _ _ Hx).
  apply and_then_ext. auto.
Qed.

Lemma preorder_exists e : ∃ order, preorder e order.
Proof.
  induction e as [e IH] using Expression_parts_ind.
  assert (∃ orders, Forall2 preorder (parts_of e) orders) as (orders&H).
  { induction IH as [|x xs (o&?) _ (os&?)]; [by exists []|]. exists (o :: os). by constructor. }
  exists (e :: concat orders). by constructor.
Qed.

Lemma preorder_inside e order : preorder e order → ∀ x, x ∈ order ↔ inside x e.
Proof.
  revert order. induction e as [e IH] using Expression_parts_ind; intros order Hord x.
  destruct Hord as [e orders Hos].
  rewrite elem_of_cons. rewrite Forall_forall in IH. split.
  - intros [->|Hx]; [apply rtc_refl|]. apply list_elem_of_In, in_concat in Hx as (o&Ho&Hx).
    apply list_elem_of_In in Ho, Hx. apply list_elem_of_lookup in Ho as (i&Hi).
    destruct (Forall2_lookup_r _ _ _ _ _ Hos Hi) as (p&Hp&Hpo).
    apply list_elem_of_lookup_2 in Hp. eapply rtc_l; [exact Hp|]. by apply (IH p Hp o).
  - intros Hx. inversion Hx as [|? p ? Hp Hrest]; subst; [by left|]. right.
    apply list_elem_of_lookup in Hp as Hp'. destruct Hp' as (i&Hi).
    destruct (Forall2_lookup_l _ _ _ _ _ Hos Hi) as (o&Ho&Hpo).
    apply list_elem_of_In, in_concat. exists o.
    split; apply list_elem_of_In; [by eapply list_elem_of_lookup_2|by apply (IH p Hp o)].
Qed.

(** The traversal every analysis uses visits an expression and everything in
    it: there is one pre-order, holding exactly the descendants, and for every
    visitor and state the traversal is that list visited from left to right,
    stopping at the first break. *)
Theorem walk_visits (e : Expression) :
  ∃ order, preorder e order ∧ (∀ x, x ∈ order ↔ inside x e) ∧
    ∀ (B S : Type) (f : Expression → S → ControlFlow B S) (s : S),
      try_for_each_subexpression f e s = for_each f order s.
Proof.
  destruct (preorder_exists e) as (order&Ho). exists order. split_and!; [done|by apply preorder_inside|].
  intros. by apply walk_preorder.
Qed.

(** What a visitor that only gathers ends with: what it takes from every node. *)
Lemma gather_inside {A} (g : Expression → list A) e a :
  a ∈ (match try_for_each_subexpression (B := Empty_set) (λ e out, Continue (out ++ g e)) e [] with
       | Continue out | Break _ out => out
       end) ↔ ∃ x, inside x e ∧ a ∈ g x.
Proof.
  destruct (preorder_exists e) as (order&Ho). rewrite (walk_preorder _ e order [] Ho).
  setoid_rewrite <- (preorder_inside e order Ho). clear Ho.
  assert (∀ out, match for_each (B := Empty_set) (λ e out, Continue (out ++ g e)) order out with
                 | Continue out | Break _ out => out end = out ++ (order ≫= g)) as ->.
  { induction order as [|x order IH]; intros out; simpl; [by rewrite app_nil_r|]. by rewrite IH, <- app_assoc. }
  simpl. rewrite list_elem_of_bind. naive_solver.
Qed.

(** ** Where a name occurs free *)

(** Expressions that bind nothing for their parts. *)
Definition binds_nothing (e : Expression) : bool :=
  match e with
  | Expression.Identifier _ _ | Expression.Lambda _ _ _ _ | Expression.Block _ _
  | Expression.Match _ _ _ => false
  | _ => true
  end.

Section free.
Variable outer : gset string.

(** [free L e n]: [n] occurs in [e] outside the scope of the names [L] and of those
    [e] binds itself; a [:=] to an enclosing name is an occurrence, and any other
    binding holds from the next statement on. *)
Inductive free (L : gset string) : Expression → string → Prop :=
| free_name n span : n ∉ L → free L (Expression.Identifier n span) n
| free_part e x n : binds_nothing e = true → x ∈ parts_of e → free L x n → free L e n
| free_lambda ps ret body span n :
    free (bind_parameters ps L) body n → free L (Expression.Lambda ps ret body span) n
| free_scrutinee e arms span n : free L e n → free L (Expression.Match e arms span) n
| free_arm e arms span arm n :
    arm ∈ arms → free (bind_pattern (arm_pattern arm) L) (arm_body arm) n →
    free L (Expression.Match e arms span) n
| free_block statements span n : free_in L statements n → free L (Expression.Block statements span) n
with free_in (L : gset string) : list (Statement Expression) → string → Prop :=
| free_expression e rest n : free L e n → free_in L (StatementExpression e :: rest) n
| free_value d rest n :
    free L (variable_value d) n → free_in L (StatementItem (ItemVariable d) :: rest) n
| free_reassigned d rest :
    mutable d = true → variable_name d ∉ L → variable_name d ∈ outer →
    free_in L (StatementItem (ItemVariable d) :: rest) (variable_name d)
| free_body d rest n :
    free (bind_parameters (parameters d) L) (function_body d) n →
    free_in L (StatementItem (ItemFunction d) :: rest) n
| free_later statement rest n :
    free_in (match statement with
             | StatementItem (ItemVariable d) =>
                 if mutable d && bool_decide (variable_name d ∉ L) && bool_decide (variable_name d ∈ outer)
                 then L else {[variable_name d]} ∪ L
             | StatementItem (ItemFunction d) => {[function_name d]} ∪ L
             | _ => L
             end) rest n →
    free_in L (statement :: rest) n.

(** ** The captures are the free enclosing names *)

(** A step of [collect] that adds the names of [P]: each once, in order. *)
Definition adds (P : string → Prop) (st st' : Captures) : Prop :=
  (∃ more, st'.2 = st.2 ++ more) ∧
  (st.1 = list_to_set st.2 → NoDup st.2 → st'.1 = list_to_set st'.2 ∧ NoDup st'.2 ∧
   ∀ n, n ∈ st'.2 ↔ n ∈ st.2 ∨ (n ∈ outer ∧ P n)).

Lemma adds_none (P : string → Prop) st : (∀ n, ¬ P n) → adds P st st.
Proof. intros HP. split; [exists []; by rewrite app_nil_r|]. intros. split_and!; [done|done|naive_solver]. Qed.

Lemma adds_seq (P Q R : string → Prop) st st1 st2 :
  adds P st st1 → adds Q st1 st2 → (∀ n, R n ↔ P n ∨ Q n) → adds R st st2.
Proof.
  intros [[m1 E1] H1] [[m2 E2] H2] HR. split; [exists (m1 ++ m2); by rewrite E2, E1, app_assoc|].
  intros Hs Hd. destruct (H1 Hs Hd) as (Hs1&Hd1&Hn1). destruct (H2 Hs1 Hd1) as (Hs2&Hd2&Hn2).
  split_and!; [done|done|]. intros n. rewrite Hn2, Hn1, HR. naive_solver.
Qed.

Lemma adds_iff (P Q : string → Prop) st st' : adds P st st' → (∀ n, Q n ↔ P n) → adds Q st st'.
Proof.
  intros H HQ. eapply adds_seq; [exact H|apply (adds_none (λ _, False)); auto|]. intros n. rewrite HQ. naive_solver.
Qed.

Lemma adds_note name L st : adds (λ n, n = name ∧ n ∉ L) st (note outer name L st).
Proof.
  unfold note. destruct (_ && _) eqn:E.
  - rewrite !andb_true_iff, !bool_decide_eq_true in E. destruct E as [[HL Ho] Hs].
    split; [by exists [name]|]. intros Es Hd. simpl. rewrite Es in *. split_and!.
    + rewrite list_to_set_app_L. simpl. set_solver.
    + apply NoDup_app. split_and!; [done| |apply NoDup_singleton].
      intros x Hx ->%list_elem_of_singleton. by rewrite elem_of_list_to_set in Hs.
    + intros n. rewrite elem_of_app, list_elem_of_singleton. naive_solver.
  - split; [exists []; by rewrite app_nil_r|]. intros Es Hd. split_and!; [done|done|].
    intros n. split; [by left|]. intros [|(Ho&->&HL)]; [done|]. rewrite Es in E.
    rewrite !andb_false_iff, !bool_decide_eq_false in E. destruct E as [[?|?]|Hs]; [done|done|].
    rewrite elem_of_list_to_set in Hs. by apply dec_stable in Hs.
Qed.

(** A fold whose steps add adds what any of them does. *)
Lemma adds_fold {X} (g : Captures → X → Captures) (P : X → string → Prop) xs st :
  (∀ x st, x ∈ xs → adds (P x) st (g st x)) → adds (λ n, ∃ x, x ∈ xs ∧ P x n) st (fold_left g xs st).
Proof.
  revert st. induction xs as [|x xs IH]; intros st Hg; simpl.
  - apply adds_none. by intros n (x&?%elem_of_nil&_).
  - eapply adds_seq; [apply Hg; left|apply IH; intros; apply Hg; by right|].
    intros n. setoid_rewrite elem_of_cons. naive_solver.
Qed.

Lemma fold_left_fmap {A B C} (h : A → B) (g : C → B → C) xs c :
  fold_left g (h <$> xs) c = fold_left (λ c x, g c (h x)) xs c.
Proof. revert c. by induction xs; simpl. Qed.

Lemma fold_left_bind {A B C} (h : A → list B) (g : C → B → C) xs c :
  fold_left g (xs ≫= h) c = fold_left (λ c x, fold_left g (h x) c) xs c.
Proof. revert c. induction xs as [|x xs IH]; intros c; simpl; [done|]. by rewrite fold_left_app, IH. Qed.

Lemma fold_left_omap {A B C} (h : A → option B) (g : C → B → C) xs c :
  fold_left g (omap h xs) c = fold_left (λ c x, match h x with Some y => g c y | None => c end) xs c.
Proof. revert c. induction xs as [|x xs IH]; intros c; simpl; [done|]. by destruct (h x); simpl. Qed.

Lemma fold_left_ext {A B} (g g' : A → B → A) xs a :
  (∀ a x, g a x = g' a x) → fold_left g xs a = fold_left g' xs a.
Proof. intros Hg. revert a. induction xs as [|x xs IH]; intros a; simpl; [done|]. by rewrite Hg. Qed.

Lemma collect_parts e L st :
  binds_nothing e = true →
  collect outer e L st = fold_left (λ st x, collect outer x L st) (parts_of e) st.
Proof.
  destruct e; try done; intros _; simpl.
  - rewrite fold_left_omap. apply fold_left_ext. by intros ? [].
  - by rewrite fold_left_bind.
  - by rewrite fold_left_fmap.
  - by rewrite fold_left_fmap.
Qed.

Lemma free_parts L e n :
  binds_nothing e = true → free L e n ↔ ∃ x, x ∈ parts_of e ∧ free L x n.
Proof. intros He. split; [by inversion 1; subst; eauto|]. intros (x&?&?). by eapply free_part. Qed.

Definition collects (e : Expression) : Prop := ∀ L st, adds (free L e) st (collect outer e L st).

Lemma collect_statements_adds statements :
  Forall (λ s, Forall collects (statement_parts s)) statements → ∀ L st,
  adds (free_in L statements) st (fold_left (collect_statement outer (collect outer)) statements (L, st)).2.
Proof.
  induction 1 as [|s statements Hs _ IH]; intros L st; simpl; [apply adds_none; by inversion 1|].
  destruct s as [[d|d|d|t]|e]; simpl in *.
  - rewrite Forall_singleton in Hs. destruct (mutable d && _ && _) eqn:E.
    + assert (adds (λ n, free L (variable_value d) n ∨ n = variable_name d ∧ n ∉ L) st
        (note outer (variable_name d) L (collect outer (variable_value d) L st))) as Hnote
        by (eapply adds_seq; [apply Hs|apply adds_note|done]).
      eapply adds_seq; [exact Hnote|apply IH|]. clear Hnote.
      intros n. split.
      * inversion 1 as [| |? ? Hm Hn Ho| |? ? ? Hf]; subst; [by left; left|by left; right|].
        rewrite E in Hf. by right.
      * rewrite !andb_true_iff, !bool_decide_eq_true in E. destruct E as [[Hm Hv] Ho].
        intros [[?|[-> ?]]|?]; [by apply free_value|by apply free_reassigned|].
        apply free_later. by rewrite Hm, !bool_decide_true.
    + eapply adds_seq; [apply Hs|apply IH|]. intros n. split.
      * inversion 1 as [| |? ? Hm Hn Ho| |? ? ? Hf]; subst; [by left| |by rewrite E in Hf; right].
        by rewrite Hm, !bool_decide_true in E.
      * intros [?|?]; [by apply free_value|]. apply free_later. by rewrite E.
  - rewrite Forall_singleton in Hs. eapply adds_seq; [apply Hs|apply IH|]. intros n. split.
    + inversion 1; subst; auto.
    + intros [?|?]; [by apply free_body|by apply free_later].
  - eapply adds_iff; [apply IH|]. intros n. split; [by inversion 1|]. intros ?. by apply free_later.
  - eapply adds_iff; [apply IH|]. intros n. split; [by inversion 1|]. intros ?. by apply free_later.
  - rewrite Forall_singleton in Hs. eapply adds_seq; [apply Hs|apply IH|]. intros n. split.
    + inversion 1; subst; auto.
    + intros [?|?]; [by apply free_expression|by apply free_later].
Qed.

Lemma collect_adds e : collects e.
Proof.
  induction e as [e IH] using Expression_parts_ind. intros L st.
  destruct (binds_nothing e) eqn:E.
  - rewrite collect_parts by done. eapply adds_iff; [|intros; by apply free_parts].
    apply (adds_fold (λ st x, collect outer x L st) (free L)). rewrite Forall_forall in IH.
    intros x st' Hx. by apply IH.
  - destruct e; try done; simpl in *.
    + eapply adds_iff; [apply adds_note|]. intros n. split; [by inversion 1; subst|]. intros [-> ?]. by constructor.
    + rewrite Forall_singleton in IH. eapply adds_iff; [apply IH|]. intros n.
      split; [by inversion 1|by apply free_lambda].
    + eapply adds_iff; [apply collect_statements_adds; by apply Forall_bind|]. intros n.
      split; [by inversion 1|by apply free_block].
    + apply Forall_cons in IH as [He Ha]. rewrite Forall_fmap, Forall_forall in Ha.
      eapply adds_seq; [apply He| |].
      * apply (adds_fold _ (λ arm, free (bind_pattern (arm_pattern arm) L) (arm_body arm))).
        intros arm st' Harm. by apply (Ha arm).
      * intros n. split; [inversion 1; subst; eauto; done|].
        intros [?|(arm&?&?)]; [by apply free_scrutinee|by eapply free_arm].
Qed.
End free.

