(* ===== verification/Reachability.v ===== *)
(** * Reachable functions: [ast/reachability.rs] and [checker/dead_functions.rs]

    The names an expression mentions, the worklist that follows them from a
    program's roots, and the error for a function nothing reaches.  Proved: the
    worklist ends, with the least set of names that holds the roots and everything
    the bodies of its names mention; and a dead function is reported exactly when
    there is one, the first of the program. *)

From S2P Require Import Prelude Bytes Token Ast TypeErrors Walk.

(** ** The names mentioned *)

(** [mentions_callee] is [mentions] but for a bare [it]. *)
Definition callee_mentions (callee : Expression) (mentioned : list string) : list string :=
  match callee with
  | Expression.Identifier name _ => if bool_decide (name = RECEIVER) then [name] else mentioned
  | _ => mentioned
  end.

(** What [mentions] pushes, in order. *)
Fixpoint mentions (expression : Expression) : list string :=
  match expression with
  | Expression.Identifier name _ =>
      if bool_decide (name = RECEIVER) then []
      else name :: match qn_text_impl name with Some implementation => [implementation] | None => [] end
  | Expression.Number _ _ | Expression.String _ _ | Expression.Bool _ _ | Expression.Unit _ => []
  | Expression.Interpolation parts _ =>
      "`"%string :: concat (map (λ part, match part with PartHole e => mentions e | PartLiteral _ => [] end) parts)
  | Expression.BinaryOperator a operator b _ => symbol operator :: mentions a ++ mentions b
  | Expression.UnaryOperator operator e _ =>
      (if bool_decide (operator = Neg) then [symbol Binary.Sub] else []) ++ mentions e
  | Expression.Range a b _ | Expression.FieldAssign a b _ | Expression.IndexAssign a b _
  | Expression.Index a b _ => mentions a ++ mentions b
  | Expression.FieldAccess e field _ => field :: mentions e
  | Expression.Call function arguments _ _ =>
      callee_mentions function (mentions function) ++ concat (map mentions arguments)
  | Expression.Lambda _ _ body _ => mentions body
  | Expression.Block statements _ =>
      concat (map (λ statement,
        match statement with
        | StatementExpression e => mentions e
        | StatementItem (ItemVariable d) => mentions (variable_value d)
        | StatementItem (ItemFunction d) => mentions (function_body d)
        | StatementItem (ItemType d) =>
            match type_definition d with
            | DefSum _ _ methods | DefRecord _ methods => concat (map (λ m, mentions (method_body m)) methods)
            end
        | StatementItem (ItemTrap _) => []
        end) statements)
  | Expression.If condition then_ else_ _ => mentions condition ++ mentions then_ ++ mentions else_
  | Expression.Match e arms _ => mentions e ++ concat (map (λ arm, mentions (arm_body arm)) arms)
  | Expression.Array elements _ | Expression.SetLiteral elements _ => concat (map mentions elements)
  | Expression.MapLiteral entries _ => concat (map (λ entry, mentions entry.1 ++ mentions entry.2) entries)
  | Expression.Record fields _ => concat (map (λ field, mentions field.2) fields)
  | Expression.Constructor type_name fields _ => type_name :: concat (map (λ field, mentions field.2) fields)
  | Expression.Spread e _ => mentions e
  end.

Definition names_mentioned (expressions : list Expression) : gset string :=
  list_to_set (expressions ≫= mentions).

(** ** The worklist *)

Abbreviation Items := (list (Item Expression)).

Definition is_entry (item : Item Expression) : bool :=
  match item with ItemFunction d => bool_decide (function_name d = "^"%string) | _ => false end.

(** An export of the program's own files. *)
Definition own_export (item : Item Expression) : bool :=
  match item with
  | ItemFunction d => function_exported d && negb (from_corelib d)
  | _ => false
  end.

(** What an item pushes: its name, for an export; the names its code mentions,
    where that code is emitted unconditionally. *)
Definition item_roots (item : Item Expression) : list string :=
  match item with
  | ItemFunction d => if own_export item then [function_name d] else []
  | ItemVariable d => mentions (variable_value d)
  | ItemType d => methods (type_definition d) ≫= λ m, mentions (method_body m)
  | ItemTrap d => arms d ≫= λ arm, mentions (arm_body arm)
  end.

Definition roots (items : Items) : list string :=
  (if existsb is_entry items then ["^"%string] else []) ++ (items ≫= item_roots).

(** The index of function bodies by name. *)
Definition defined (items : Items) : gmap string (list Expression) :=
  foldl (λ index item,
    match item with
    | ItemFunction d =>
        <[function_name d := default [] (index !! function_name d) ++ [function_body d]]> index
    | _ => index
    end) ∅ items.

(** The loop: [pending] is the stack, last pushed first. *)
Fixpoint reach (fuel : nat) (index : gmap string (list Expression)) (pending : list string)
    (reached : gset string) : option (gset string) :=
  match fuel with
  | O => None
  | S fuel =>
      match pending with
      | [] => Some reached
      | name :: pending =>
          if bool_decide (name ∈ reached) then reach fuel index pending reached
          else
            let pushed := default [] (index !! name) ≫= mentions in
            reach fuel index (reverse pushed ++ pending) ({[name]} ∪ reached)
      end
  end.

(** A turn for each name pushed: the roots, and the mentions of every body once. *)
Definition reach_fuel (items : Items) : nat :=
  S (length (roots items)
     + sum_list_with (λ bodies, length (bodies ≫= mentions)) (map_to_list (defined items)).*2).

(** [None] where nothing is a root; the fuel is enough (see [reach_total]). *)
Definition reachable_functions (program : Program) : option (gset string) :=
  if existsb (λ item, is_entry item || own_export item) (items program)
  then reach (reach_fuel (items program)) (defined (items program)) (reverse (roots (items program))) ∅
  else None.

(** ** Dead functions *)

Fixpoint first_dead (reachable mentioned_by_tests : gset string) (items : Items) : result TypeError unit :=
  match items with
  | [] => Ok tt
  | ItemFunction d :: rest =>
      if function_exported d || from_corelib d || bool_decide (function_name d ∈ reachable)
      then first_dead reachable mentioned_by_tests rest
      else if bool_decide (function_name d ∈ mentioned_by_tests)
      then Err (Te.ReachableOnlyFromTests (function_name d) (function_span d))
      else Err (Te.NeverReachable (function_name d) (function_span d))
  | _ :: rest => first_dead reachable mentioned_by_tests rest
  end.

Definition check_dead_functions (program : Program) : result TypeError unit :=
  match reachable_functions program with
  | None => Ok tt
  | Some reachable => first_dead reachable (names_mentioned (test_blocks program)) (items program)
  end.

(** ** Mentions, node by node *)

(** What one node adds, its parts left aside. *)
Definition own_mentions (e : Expression) : list string :=
  match e with
  | Expression.Identifier name _ =>
      if bool_decide (name = RECEIVER) then []
      else name :: match qn_text_impl name with Some implementation => [implementation] | None => [] end
  | Expression.Interpolation _ _ => ["`"%string]
  | Expression.BinaryOperator _ operator _ _ => [symbol operator]
  | Expression.UnaryOperator Neg _ _ => [symbol Binary.Sub]
  | Expression.FieldAccess _ field _ => [field]
  | Expression.Call (Expression.Identifier name _) _ _ _ =>
      if bool_decide (name = RECEIVER) then [name] else []
  | Expression.Constructor type_name _ _ => [type_name]
  | _ => []
  end.

Lemma elem_of_concat_map {A} (f : A → list string) xs n :
  n ∈ concat (map f xs) ↔ ∃ x, x ∈ xs ∧ n ∈ f x.
Proof.
  induction xs as [|x xs IH]; simpl.
  - split; [by intros ?%elem_of_nil|]. by intros (x&?%elem_of_nil&_).
  - rewrite elem_of_app, IH. setoid_rewrite elem_of_cons. naive_solver.
Qed.

Lemma parts_cons (P : Expression → Prop) x xs :
  (∃ y, y ∈ x :: xs ∧ P y) ↔ P x ∨ ∃ y, y ∈ xs ∧ P y.
Proof. setoid_rewrite elem_of_cons. naive_solver. Qed.

Lemma parts_nil (P : Expression → Prop) : (∃ y, y ∈ [] ∧ P y) ↔ False.
Proof. setoid_rewrite elem_of_nil. naive_solver. Qed.

(** A list of parts given through [f]. *)
Lemma parts_via {A} (f : A → list Expression) (g : A → list string) xs n :
  (∀ x, n ∈ g x ↔ ∃ y, y ∈ f x ∧ n ∈ mentions y) →
  n ∈ concat (map g xs) ↔ ∃ y, y ∈ (xs ≫= f) ∧ n ∈ mentions y.
Proof.
  intros Hg. rewrite elem_of_concat_map. setoid_rewrite Hg. setoid_rewrite list_elem_of_bind. naive_solver.
Qed.

Lemma callee_mentions_iff f n :
  n ∈ callee_mentions f (mentions f) ↔ n ∈ own_mentions (Expression.Call f [] false (in_root 0 0)) ∨ n ∈ mentions f.
Proof.
  destruct f; simpl; try (rewrite elem_of_nil; naive_solver). case_bool_decide; simpl.
  - rewrite elem_of_nil. naive_solver.
  - rewrite elem_of_nil. naive_solver.
Qed.

Lemma mentions_parts e n :
  n ∈ mentions e ↔ n ∈ own_mentions e ∨ ∃ x, x ∈ parts_of e ∧ n ∈ mentions x.
Proof.
  destruct e as [| |parts| | | |a op b s|op e s|function arguments| |statements| |e arms| | | | |elements
    |entries|elements|fields|tn fields| |]; simpl;
    rewrite ?parts_cons, ?parts_nil, ?elem_of_cons, ?elem_of_app, ?elem_of_nil; try naive_solver.
  - rewrite elem_of_concat_map. setoid_rewrite list_elem_of_omap. f_equiv; [naive_solver|].
    split; [intros ([t|h]&?&Hn); [by apply elem_of_nil in Hn|eauto]|].
    intros (x&([t|h]&?&[= ->])&?). by exists (PartHole x).
  - destruct op; simpl; rewrite ?elem_of_nil; naive_solver.
  - rewrite callee_mentions_iff, elem_of_concat_map. simpl. naive_solver.
  - rewrite (parts_via statement_parts); [naive_solver|].
    intros [[d|d|d|t]|e]; simpl; rewrite ?parts_cons, ?parts_nil; try naive_solver.
    + destruct (type_definition d); simpl; rewrite elem_of_concat_map; setoid_rewrite list_elem_of_fmap; naive_solver.
    + rewrite elem_of_nil. naive_solver.
  - rewrite elem_of_concat_map. setoid_rewrite list_elem_of_fmap. naive_solver.
  - rewrite elem_of_concat_map. naive_solver.
  - rewrite (parts_via (λ entry : Expression * Expression, [entry.1; entry.2])); [naive_solver|].
    intros [k v]. rewrite elem_of_app, !parts_cons, parts_nil. naive_solver.
  - rewrite elem_of_concat_map. naive_solver.
  - rewrite elem_of_concat_map. setoid_rewrite list_elem_of_fmap. naive_solver.
  - rewrite elem_of_concat_map. setoid_rewrite list_elem_of_fmap. naive_solver.
Qed.

(** The names followed from a body are those of every node the shared
    traversal visits: what identifiers, operators, selected members, rendered
    holes and constructors in it name, however deep, and nothing else; a bare
    [it] counts only where it is called. *)
Theorem mentions_inside (e : Expression) (n : string) :
  n ∈ mentions e ↔ ∃ x, inside x e ∧ n ∈ own_mentions x.
Proof.
  induction e as [e IH] using Expression_parts_ind. rewrite mentions_parts. rewrite Forall_forall in IH. split.
  - intros [Hn|(x&Hx&Hn)]; [exists e; by split; [apply rtc_refl|]|].
    apply (IH x Hx) in Hn as (y&Hy&Hn). exists y. split; [by eapply rtc_l|done].
  - intros (x&Hx&Hn). inversion Hx as [|? y ? Hy Hrest]; subst; [by left|].
    right. exists y. split; [done|]. apply (IH y Hy). eauto.
Qed.

(** ** The least set of names *)

(** [m]'s definitions mention [n]. *)
Definition leads_to (items : Items) (m n : string) : Prop :=
  ∃ d, ItemFunction d ∈ items ∧ function_name d = m ∧ n ∈ mentions (function_body d).

(** Reached from a root through the bodies of the functions named. *)
Inductive reachable (items : Items) : string → Prop :=
| reachable_root n : n ∈ roots items → reachable items n
| reachable_step m n : reachable items m → leads_to items m n → reachable items n.

Lemma defined_elem items m b :
  b ∈ default [] (defined items !! m) ↔ ∃ d, ItemFunction d ∈ items ∧ function_name d = m ∧ function_body d = b.
Proof.
  unfold defined. induction items as [|item items IH] using rev_ind; simpl.
  - rewrite lookup_empty. simpl. rewrite elem_of_nil. setoid_rewrite elem_of_nil. naive_solver.
  - rewrite foldl_app. simpl. setoid_rewrite elem_of_app. setoid_rewrite list_elem_of_singleton.
    destruct item as [v|d|t|t]; try (rewrite IH; naive_solver).
    destruct (decide (function_name d = m)) as [<-|Hne].
    + rewrite lookup_insert_eq. simpl. rewrite elem_of_app, IH, list_elem_of_singleton. naive_solver.
    + rewrite lookup_insert_ne by done. rewrite IH. naive_solver.
Qed.

Definition pushes (index : gmap string (list Expression)) (name : string) : list string :=
  default [] (index !! name) ≫= mentions.

Lemma leads_to_pushes items m n : n ∈ pushes (defined items) m ↔ leads_to items m n.
Proof.
  unfold pushes, leads_to. rewrite list_elem_of_bind. setoid_rewrite defined_elem. naive_solver.
Qed.

Lemma pushes_none index n : index !! n = None → length (pushes index n) = 0%nat.
Proof. unfold pushes. by intros ->. Qed.

Lemma left_of_start items :
  left_to_push (defined items) (λ n, length (pushes (defined items) n)) ∅
  = sum_list_with (λ bodies, length (bodies ≫= mentions)) (map_to_list (defined items)).*2.
Proof. apply left_to_push_start. intros n a Hn. unfold pushes. by rewrite Hn. Qed.

(** What the names not done yet will push. *)
Abbreviation left_of items := (left_to_push (defined items) (λ n, length (pushes (defined items) n))).

(** The loop keeps: everything named is reachable; the roots and what the names
    done mention are done or waiting. *)
Record sound (items : Items) (pending : list string) (reached : gset string) : Prop := {
  sound_reachable n : n ∈ reached ∨ n ∈ pending → reachable items n;
  sound_roots n : n ∈ roots items → n ∈ reached ∨ n ∈ pending;
  sound_closed m n : m ∈ reached → leads_to items m n → n ∈ reached ∨ n ∈ pending
}.

Lemma sound_start items : sound items (reverse (roots items)) ∅.
Proof.
  split; setoid_rewrite elem_of_reverse.
  - intros n [?|?]; [set_solver|by apply reachable_root].
  - auto.
  - intros m n Hm. by apply elem_of_empty in Hm.
Qed.

Lemma sound_skip items name pending reached :
  sound items (name :: pending) reached → name ∈ reached → sound items pending reached.
Proof.
  intros [Hr Hroot Hc] Hn. split.
  - intros n [?|?]; apply Hr; [by left|right; by right].
  - intros n Hin. apply Hroot in Hin as [?|[->|?]%elem_of_cons]; auto.
  - intros m n Hm Hl. destruct (Hc m n Hm Hl) as [?|[->|?]%elem_of_cons]; auto.
Qed.

Lemma sound_expand items name pending reached :
  sound items (name :: pending) reached →
  sound items (reverse (pushes (defined items) name) ++ pending) ({[name]} ∪ reached).
Proof.
  intros [Hr Hroot Hc]. split.
  - intros n. rewrite elem_of_union, elem_of_singleton, elem_of_app, elem_of_reverse, leads_to_pushes.
    intros [[->|?]|[?|?]]; [apply Hr; right; by left|apply Hr; by left| |apply Hr; right; by right].
    eapply reachable_step; [|done]. apply Hr. right; by left.
  - intros n Hin. rewrite elem_of_union, elem_of_singleton, elem_of_app.
    apply Hroot in Hin as [?|[->|?]%elem_of_cons]; auto.
  - intros m n. rewrite !elem_of_union, !elem_of_singleton, elem_of_app, elem_of_reverse, leads_to_pushes.
    intros [->|Hm] Hl; [auto|]. destruct (Hc m n Hm Hl) as [?|[->|?]%elem_of_cons]; auto.
Qed.

Lemma reach_total items fuel pending reached :
  sound items pending reached →
  (length pending + left_of items reached < fuel)%nat →
  ∃ s, reach fuel (defined items) pending reached = Some s ∧ ∀ n, n ∈ s ↔ reachable items n.
Proof.
  revert pending reached. induction fuel as [|fuel IH]; intros pending reached Hs Hf; [lia|].
  destruct pending as [|name pending]; simpl.
  - exists reached. split; [done|]. destruct Hs as [Hr Hroot Hc]. intros n. split; [auto|].
    induction 1 as [n Hn|m n _ Hm Hl]; [destruct (Hroot n Hn) as [?|Hx]|destruct (Hc m n Hm Hl) as [?|Hx]];
      try done; by apply elem_of_nil in Hx.
  - simpl in Hf. case_bool_decide as Hn.
    + apply IH; [by eapply sound_skip|lia].
    + fold (pushes (defined items) name). apply IH; [by apply sound_expand|].
      rewrite (left_to_push_done _ _ (pushes_none (defined items)) reached name Hn) in Hf.
      rewrite length_app, length_reverse. lia.
Qed.

(** C29: with an entry point or an export of its own, a program's reachable names
    are the least set that holds its roots and everything the definitions of its
    names mention, so nothing emitted refers to a function pruned; the worklist
    always finishes.  Without a root nothing is pruned. *)
Theorem reachable_functions_least (program : Program) :
  if existsb (λ item, is_entry item || own_export item) (items program)
  then ∃ s, reachable_functions program = Some s ∧ ∀ n, n ∈ s ↔ reachable (items program) n
  else reachable_functions program = None.
Proof.
  unfold reachable_functions. destruct (existsb _ _); [|done].
  apply reach_total; [apply sound_start|]. unfold reach_fuel.
  rewrite length_reverse, left_of_start. lia.
Qed.

(** ** Dead functions *)

(** A private function of the program's own that nothing reaches. *)
Definition dead (program : Program) (d : FunctionDeclaration Expression) : Prop :=
  function_exported d = false ∧ from_corelib d = false ∧ ¬ reachable (items program) (function_name d).

Lemma first_dead_spec program s tests its :
  (∀ n, n ∈ s ↔ reachable (items program) n) →
  match first_dead s tests its with
  | Ok _ => ∀ d, ItemFunction d ∈ its → ¬ dead program d
  | Err e =>
      ∃ i d, its !! i = Some (ItemFunction d) ∧ dead program d ∧
        (∀ j d', (j < i)%nat → its !! j = Some (ItemFunction d') → ¬ dead program d') ∧
        e = if bool_decide (function_name d ∈ tests)
            then Te.ReachableOnlyFromTests (function_name d) (function_span d)
            else Te.NeverReachable (function_name d) (function_span d)
  end.
Proof.
  intros Hs. induction its as [|item its IH]; simpl; [by intros d ?%elem_of_nil|].
  assert ((∀ d, item = ItemFunction d → ¬ dead program d) →
    match first_dead s tests its with
    | Ok _ => ∀ d, ItemFunction d ∈ item :: its → ¬ dead program d
    | Err e =>
        ∃ i d, (item :: its) !! i = Some (ItemFunction d) ∧ dead program d ∧
          (∀ j d', (j < i)%nat → (item :: its) !! j = Some (ItemFunction d') → ¬ dead program d') ∧
          e = if bool_decide (function_name d ∈ tests)
              then Te.ReachableOnlyFromTests (function_name d) (function_span d)
              else Te.NeverReachable (function_name d) (function_span d)
    end) as Hskip.
  { intros Hitem. destruct (first_dead s tests its) as [[]|e].
    - intros d [E|?]%elem_of_cons; [by apply Hitem|auto].
    - destruct IH as (i&d&?&?&Hj&?). exists (S i), d. split_and!; [done|done| |done].
      intros [|j] d' Hlt Hd'; simpl in Hd'; [by apply Hitem; simplify_eq|]. apply (Hj j); [lia|done]. }
  destruct item as [v|d|t|t]; try (apply Hskip; done).
  destruct (function_exported d || from_corelib d || bool_decide (function_name d ∈ s)) eqn:E.
  - apply Hskip. intros d' [= <-] (He&Hc&Hr). rewrite He, Hc in E. apply bool_decide_eq_true in E.
    by apply Hr, Hs.
  - rewrite !orb_false_iff, bool_decide_eq_false in E. destruct E as [[He Hc] Hr].
    assert (dead program d) by (split_and!; [done|done|by rewrite <-Hs]).
    destruct (bool_decide (function_name d ∈ tests)) eqn:Et;
      exists 0%nat, d; rewrite Et; (split_and!; [done|done|lia|done]).
Qed.

(** C30: a program with a root passes exactly when it has no dead function, one of
    its own that is neither exported nor reachable; otherwise the error names the
    first of them, as reachable only from tests when a test block mentions it.  A
    program without a root always passes. *)
Theorem check_dead_functions_exact (program : Program) :
  match check_dead_functions program with
  | Ok _ =>
      existsb (λ item, is_entry item || own_export item) (items program) = true →
      ∀ d, ItemFunction d ∈ items program → ¬ dead program d
  | Err e =>
      existsb (λ item, is_entry item || own_export item) (items program) = true ∧
      ∃ i d, items program !! i = Some (ItemFunction d) ∧ dead program d ∧
        (∀ j d', (j < i)%nat → items program !! j = Some (ItemFunction d') → ¬ dead program d') ∧
        e = if bool_decide (function_name d ∈ names_mentioned (test_blocks program))
            then Te.ReachableOnlyFromTests (function_name d) (function_span d)
            else Te.NeverReachable (function_name d) (function_span d)
  end.
Proof.
  unfold check_dead_functions, reachable_functions.
  destruct (existsb (λ item, is_entry item || own_export item) (items program)) eqn:E; [|done].
  destruct (reach_total (items program) (reach_fuel (items program)) (reverse (roots (items program))) ∅)
    as (s&->&Hs); [apply sound_start|unfold reach_fuel; rewrite length_reverse, left_of_start; lia|].
  pose proof (first_dead_spec program s (names_mentioned (test_blocks program)) (items program) Hs) as H.
  destruct (first_dead _ _ _) as [[]|e]; auto.
Qed.
