(* ===== verification/SourceMap.v ===== *)
(** * Source positions (src/source_map.rs)

    Where a span points: the line table of a text and its binary search, the
    resolution of a span to a line, a column, an excerpt and a caret width, and
    the translation between byte offsets and the UTF-16 positions of the
    Language Server Protocol.  A [&str] is the list of its characters and an
    offset counts the bytes of their UTF-8 encodings; slicing off a character
    boundary, indexing past the end and an underflow are [None]. *)

From S2P Require Import Prelude Bytes Token.
Open Scope Z_scope.

(** ** The string operations used *)

(** [str::len]. *)
Definition str_len (s : list Z) : Z := foldr (λ ch n, Z.of_nat (len_utf8 ch) + n) 0 s.

(** [str::is_char_boundary], [&s[i..]], [&s[..i]] and [&s[i..j]]. *)
Fixpoint is_char_boundary (s : list Z) (i : Z) : bool :=
  if i =? 0 then true
  else match s with
       | [] => false
       | ch :: rest =>
           if i <? Z.of_nat (len_utf8 ch) then false
           else is_char_boundary rest (i - Z.of_nat (len_utf8 ch))
       end.

Fixpoint slice_from (s : list Z) (i : Z) : option (list Z) :=
  if i =? 0 then Some s
  else match s with
       | [] => None
       | ch :: rest =>
           if i <? Z.of_nat (len_utf8 ch) then None
           else slice_from rest (i - Z.of_nat (len_utf8 ch))
       end.

Fixpoint slice_to (s : list Z) (i : Z) : option (list Z) :=
  if i =? 0 then Some []
  else match s with
       | [] => None
       | ch :: rest =>
           if i <? Z.of_nat (len_utf8 ch) then None
           else cons ch <$> slice_to rest (i - Z.of_nat (len_utf8 ch))
       end.

Definition slice (s : list Z) (i j : Z) : option (list Z) :=
  if j <? i then None else rest ← slice_from s i; slice_to rest (j - i).

(** [str::char_indices], from the offset [i]. *)
Fixpoint char_indices (i : Z) (s : list Z) : list (Z * Z) :=
  match s with
  | [] => []
  | ch :: rest => (i, ch) :: char_indices (i + Z.of_nat (len_utf8 ch)) rest
  end.

(** [Iterator::take_while]. *)
Fixpoint take_while {A} (p : A → bool) (l : list A) : list A :=
  match l with
  | [] => []
  | x :: rest => if p x then x :: take_while p rest else []
  end.

(** [s.lines().next()]: the text up to the first newline, without it and without
    the carriage return before it. *)
Definition first_line (s : list Z) : option (list Z) :=
  let line := take_while (λ ch, negb (ch =? 10)) s in
  match s with
  | [] => None
  | _ => Some (if bool_decide (length line = length s) then line
               else match last line with Some 13 => removelast line | _ => line end)
  end.

(** [char::len_utf16]. *)
Definition len_utf16 (ch : Z) : Z := if ch <? 0x10000 then 1 else 2.

(** [slice::binary_search] as the standard library runs it: [size] halves, the
    base moves up while its element is not greater. [inl] is [Ok], [inr] [Err]. *)
Fixpoint search_base (fuel : nat) (l : list Z) (x : Z) (base size : nat) : nat :=
  match fuel with
  | O => base
  | S fuel' =>
      if (1 <? size)%nat then
        let half := Nat.div2 size in
        let mid := (base + half)%nat in
        search_base fuel' l x (if x <? nth mid l 0 then base else mid) (size - half)
      else base
  end.
Definition binary_search (l : list Z) (x : Z) : nat + nat :=
  match length l with
  | O => inr 0%nat
  | size =>
      let base := search_base size l x 0 size in
      let y := nth base l 0 in
      if y =? x then inl base else inr (base + if (y <? x)%Z then 1 else 0)%nat
  end.

(** ** The line table *)

Record LineIndex : Type := mkLineIndex { starts : list Z }.

Definition new (text : list Z) : LineIndex :=
  mkLineIndex (0 :: ((λ at_ : Z * Z, at_.1 + 1) <$>
                       filter (λ at_ : Z * Z, at_.2 = 10) (char_indices 0 text))).

Definition line_at (self : LineIndex) (offset : Z) : option (Z * Z) :=
  line ← match binary_search (starts self) offset with
         | inl exact => Some exact
         | inr (S next) => Some next
         | inr O => None
         end;
  line_start ← starts self !! line;
  Some (Z.of_nat line + 1, line_start).

(** ** Locations *)

Record SourceFile : Type := mkSourceFile {
  file_path : string;
  text : list Z;
  lines : LineIndex;
}.

Record Location : Type := mkLocation {
  path : string;
  line : Z;
  column : Z;
  excerpt : option (list Z);
  width : Z;
}.

Definition unknown : Location := mkLocation "" 1 1 None 1.

Fixpoint floor_loop (fuel : nat) (source : list Z) (index : Z) : Z :=
  match fuel with
  | O => index
  | S fuel' =>
      if (0 <? index) && negb (is_char_boundary source index)
      then floor_loop fuel' source (index - 1) else index
  end.
(** The loop moves back at most [index] times. *)
Definition floor_char_boundary (source : list Z) (index : Z) : Z :=
  let index := Z.min index (str_len source) in
  floor_loop (Z.to_nat index) source index.

Definition char_len (source : list Z) (range : Z * Z) : option Z :=
  let start := floor_char_boundary source range.1 in
  let end_ := Z.max (floor_char_boundary source range.2) start in
  chars ← slice source start end_;
  Some (Z.of_nat (length chars)).

(** [usize::saturating_sub] and [Ord::clamp], which panics on an empty range. *)
Definition saturating_sub (a b : Z) : Z := Z.max 0 (a - b).
Definition clamp (n lo hi : Z) : option Z :=
  if hi <? lo then None else Some (Z.min hi (Z.max lo n)).

Definition locate_with (lines : LineIndex) (path : string) (source : list Z) (span : Span)
    : option Location :=
  let start := Z.min (Token.start span) (str_len source) in
  '(line, line_start) ← line_at lines start;
  excerpt ← (if str_len source <=? line_start then Some None
             else rest ← slice_from source line_start;
                  Some (Some (default [] (first_line rest))));
  rest ← slice_from source line_start;
  let column :=
    Z.of_nat (length (take_while (λ at_ : Z * Z, line_start + at_.1 <? start)
                        (char_indices 0 rest))) + 1 in
  span_chars ← char_len source (range span);
  let remaining :=
    saturating_sub (match excerpt with Some line => Z.of_nat (length line) | None => 0 end)
      (column - 1) in
  width ← clamp span_chars 1 (Z.max remaining 1);
  Some (mkLocation path line column excerpt width).

Definition locate_in (path : string) (source : list Z) (span : Span) : option Location :=
  locate_with (new source) path source span.

(** ** The map of a compilation *)

Definition SourceMap : Type := gmap FileId SourceFile.

Definition insert (self : SourceMap) (file : FileId) (path : string) (text : list Z) : SourceMap :=
  <[file := mkSourceFile path text (new text)]> self.

Definition set_root (self : SourceMap) (path : string) (text : list Z) : SourceMap :=
  insert self ROOT_FILE path text.

Definition get (self : SourceMap) (file : FileId) : option SourceFile := self !! file.

Definition get_text (self : SourceMap) (file : FileId) : option (list Z) := text <$> get self file.

Definition root_text (self : SourceMap) : list Z :=
  match get self ROOT_FILE with Some f => text f | None => [] end.

Definition root_path (self : SourceMap) : string :=
  match get self ROOT_FILE with Some f => file_path f | None => ""%string end.

(** The outer option is the code's, the inner one a panic. *)
Definition locate (self : SourceMap) (span : Span) : option (option Location) :=
  file ← get self (Token.file span);
  Some (locate_with (lines file) (file_path file) (text file) span).

Definition locate_or_root (self : SourceMap) (span : Span) : option (option Location) :=
  match locate self span with
  | Some found => Some found
  | None =>
      root ← get self ROOT_FILE;
      Some (locate_with (lines root) (file_path root) (text root) span)
  end.

(** ** Protocol positions *)

Definition position_utf16 (text : list Z) (byte_offset : Z) : option (Z * Z) :=
  let offset := floor_char_boundary text byte_offset in
  '(line_one_based, line_start) ← line_at (new text) offset;
  chars ← slice text line_start offset;
  let column := foldr Z.add 0 (len_utf16 <$> chars) in
  Some (u32 (line_one_based - 1), u32 column).

Fixpoint column_offset (line_start : Z) (chars : list (Z * Z)) (remaining : Z) : option Z :=
  match chars with
  | [] => None
  | (index, ch) :: rest =>
      if (ch =? 10) || (remaining =? 0) then Some (line_start + index)
      else column_offset line_start rest (saturating_sub remaining (len_utf16 ch))
  end.

Definition byte_offset (text : list Z) (line character : Z) : option Z :=
  match starts (new text) !! Z.to_nat line with
  | None => Some (str_len text)
  | Some line_start =>
      rest ← slice_from text line_start;
      Some (default (str_len text) (column_offset line_start (char_indices 0 rest) character))
  end.

Example locate_sample :
  locate_in "f.qn" (bs "line one" ++ [10] ++ bs "x = oops" ++ [10] ++ bs "line three") (in_root 13 17)
  = Some (mkLocation "f.qn" 2 5 (Some (bs "x = oops")) 4).
Proof. vm_compute. reflexivity. Qed.

Example locate_inside_character :
  locate_in "f.qn" [97; 0xE9; 32; 98] (in_root 2 3)
  = Some (mkLocation "f.qn" 1 3 (Some [97; 0xE9; 32; 98]) 1).
Proof. vm_compute. reflexivity. Qed.

Example utf16_sample : position_utf16 [0xE9; 0x1F600; 120] 6 = Some (0, 3).
Proof. vm_compute. reflexivity. Qed.

(** ** What the positions mean *)

(** The characters that begin before byte [i]. *)
Fixpoint before (s : list Z) (i : Z) : list Z :=
  match s with
  | [] => []
  | ch :: rest => if 0 <? i then ch :: before rest (i - Z.of_nat (len_utf8 ch)) else []
  end.

Definition newlines (s : list Z) : Z := Z.of_nat (length (filter (λ ch, ch = 10) s)).

(** What precedes a span on its line. *)
Definition lead (source : list Z) (span : Span) : list Z :=
  before source (Z.min (Token.start span) (str_len source)).

(** Where lines start in a text that begins at [at_], but for the first line. *)
Definition line_starts (at_ : Z) (s : list Z) : list Z :=
  (λ at_ : Z * Z, at_.1 + 1) <$> filter (λ at_ : Z * Z, at_.2 = 10) (char_indices at_ s).

Definition utf16_len (s : list Z) : Z := foldr Z.add 0 (len_utf16 <$> s).

(** ** Offsets and slices *)

Lemma len_utf8_range ch : 1 <= Z.of_nat (len_utf8 ch).
Proof. pose proof (len_utf8_pos ch). lia. Qed.

Lemma str_len_app p q : str_len (p ++ q) = str_len p + str_len q.
Proof. induction p as [|ch p IH]; simpl; [done|]. rewrite IH. lia. Qed.

Lemma str_len_nonneg s : 0 <= str_len s.
Proof. induction s as [|ch s IH]; simpl; [done|]. lia. Qed.

Lemma str_len_zero s : str_len s <= 0 → s = [].
Proof.
  destruct s as [|ch s]; [done|]. simpl. pose proof (len_utf8_range ch).
  pose proof (str_len_nonneg s). lia.
Qed.

Lemma length_str_len s : Z.of_nat (length s) <= str_len s.
Proof. induction s as [|ch s IH]; simpl; [done|]. pose proof (len_utf8_range ch). lia. Qed.

(** Bring the bounds of the lengths in sight into the context. *)
Ltac note_once p :=
  let T := type of p in
  match goal with H : T |- _ => fail 1 | _ => pose proof p end.
Ltac offsets :=
  repeat match goal with
  | |- context [str_len ?s] => note_once (str_len_nonneg s)
  | H : context [str_len ?s] |- _ => note_once (str_len_nonneg s)
  | |- context [len_utf8 ?c] => note_once (len_utf8_range c)
  end.

Lemma slice_from_app p q : slice_from (p ++ q) (str_len p) = Some q.
Proof.
  induction p as [|ch p IH]; [by destruct q|]. simpl. offsets. zbool.
  by replace (_ + _ - _) with (str_len p) by lia.
Qed.

Lemma slice_to_app p q : slice_to (p ++ q) (str_len p) = Some p.
Proof.
  induction p as [|ch p IH]; [by destruct q|]. simpl. offsets. zbool.
  replace (_ + _ - _) with (str_len p) by lia. by rewrite IH.
Qed.

Lemma slice_app p m q : slice (p ++ m ++ q) (str_len p) (str_len (p ++ m)) = Some m.
Proof.
  unfold slice. rewrite str_len_app. offsets. zbool. rewrite slice_from_app. simpl.
  replace (_ + _ - _) with (str_len m) by lia. apply slice_to_app.
Qed.

Lemma is_char_boundary_app p q : is_char_boundary (p ++ q) (str_len p) = true.
Proof.
  induction p as [|ch p IH]; [by destruct q|]. simpl. offsets. zbool.
  by replace (_ + _ - _) with (str_len p) by lia.
Qed.

Lemma is_char_boundary_inv s i :
  is_char_boundary s i = true → ∃ p q, s = p ++ q ∧ i = str_len p.
Proof.
  revert i. induction s as [|ch s IH]; intros i; simpl; case_match; unbool; intros Hb.
  - by exists [], [].
  - done.
  - by exists [], (ch :: s).
  - case_match; [done|]. apply IH in Hb as (p&q&->&Hi). exists (ch :: p), q. simpl.
    split; [done|]. lia.
Qed.

Lemma floor_loop_spec fuel s i :
  0 <= i → fuel = Z.to_nat i →
  ∃ p q, s = p ++ q ∧ floor_loop fuel s i = str_len p ∧ str_len p <= i.
Proof.
  revert i. induction fuel as [|fuel IH]; intros i Hi Hf; simpl.
  - exists [], s. simpl. split_and!; [done|lia|lia].
  - destruct (is_char_boundary s i) eqn:E.
    + rewrite andb_false_r. apply is_char_boundary_inv in E as (p&q&->&->). exists p, q. done.
    + zbool. simpl. destruct (IH (i - 1)) as (p&q&->&->&?); [lia..|]. exists p, q. split_and!; [done..|lia].
Qed.

Lemma floor_char_boundary_spec s i :
  0 <= i → ∃ p q, s = p ++ q ∧ floor_char_boundary s i = str_len p ∧ str_len p <= i.
Proof.
  intros Hi. unfold floor_char_boundary. offsets.
  destruct (floor_loop_spec _ s (Z.min i (str_len s)) ltac:(lia) eq_refl) as (p&q&?&?&?).
  exists p, q. split_and!; [done..|lia].
Qed.

Lemma floor_char_boundary_app p q : floor_char_boundary (p ++ q) (str_len p) = str_len p.
Proof.
  unfold floor_char_boundary. rewrite str_len_app. offsets. rewrite Z.min_l by lia.
  destruct (Z.to_nat (str_len p)); simpl; [done|].
  by rewrite is_char_boundary_app, andb_false_r.
Qed.

Lemma char_len_app p m q : char_len (p ++ m ++ q) (str_len p, str_len (p ++ m)) = Some (Z.of_nat (length m)).
Proof.
  unfold char_len. simpl. rewrite floor_char_boundary_app.
  rewrite (app_assoc p m q), floor_char_boundary_app, <-app_assoc.
  rewrite Z.max_l by (rewrite str_len_app; offsets; lia). by rewrite slice_app.
Qed.

(** Two prefixes of a text, the shorter first. *)
Lemma prefixes_ordered (p q p' q' : list Z) :
  p ++ q = p' ++ q' → str_len p <= str_len p' → ∃ m, p' = p ++ m ∧ q = m ++ q'.
Proof.
  intros H Hl. destruct (app_eq_app _ _ _ _ H) as (m&[[-> ->]|[-> ->]]).
  - rewrite str_len_app in Hl. pose proof (str_len_zero m ltac:(lia)) as ->.
    exists []. split; [by rewrite !app_nil_r|done].
  - by exists m.
Qed.

Lemma char_len_total s i j : 0 <= i → 0 <= j → ∃ n, char_len s (i, j) = Some (Z.of_nat n).
Proof.
  intros Hi Hj. unfold char_len. simpl.
  destruct (floor_char_boundary_spec s i Hi) as (p&q&->&Hp&_).
  destruct (floor_char_boundary_spec (p ++ q) j Hj) as (p'&q'&E&Hq&_). rewrite Hp, Hq.
  destruct (Z.le_gt_cases (str_len p) (str_len p')) as [Hl|Hl].
  - rewrite Z.max_l by lia. apply prefixes_ordered in E as (m&->&->); [|done].
    exists (length m). by rewrite slice_app.
  - rewrite Z.max_r by lia. exists 0%nat. pose proof (slice_app p [] q) as Hs.
    rewrite app_nil_r in Hs. simpl in Hs. by rewrite Hs.
Qed.

(** ** The characters before an offset *)

Lemma before_prefix s i : s = before s i ++ drop (length (before s i)) s.
Proof.
  revert i. induction s as [|ch s IH]; intros i; [done|]. simpl. case_match; [|done].
  simpl. by rewrite <-IH.
Qed.

Lemma before_reaches s i : i <= str_len s → i <= str_len (before s i).
Proof.
  revert i. induction s as [|ch s IH]; intros i Hi; simpl in *; [lia|].
  case_match; unbool; simpl; [|lia]. specialize (IH (i - Z.of_nat (len_utf8 ch)) ltac:(lia)). lia.
Qed.

Lemma before_app p q : before (p ++ q) (str_len p) = p.
Proof.
  induction p as [|ch p IH]; [by destruct q|]. simpl. offsets. zbool.
  replace (_ + _ - _) with (str_len p) by lia. by rewrite IH.
Qed.

Lemma before_rest f t r i : before (f ++ r) i = f ++ t → before r (i - str_len f) = t.
Proof.
  revert i. induction f as [|ch f IH]; intros i; simpl.
  - by rewrite Z.sub_0_r.
  - case_match; [|done]. intros [= Hr%IH]. by rewrite Z.sub_add_distr.
Qed.

Lemma take_while_before k i j s :
  length (take_while (λ at_ : Z * Z, k + at_.1 <? i) (char_indices j s)) = length (before s (i - k - j)).
Proof.
  revert j. induction s as [|ch s IH]; intros j; [done|]. simpl.
  destruct (k + j <? i) eqn:E; unbool; zbool; [|done].
  simpl. rewrite IH. do 3 f_equal. lia.
Qed.

(** ** The line table *)

Lemma rsplit_next_snoc sep s c :
  rsplit_next sep (s ++ [c]) = if c =? sep then [] else rsplit_next sep s ++ [c].
Proof. unfold rsplit_next. by rewrite fold_left_app. Qed.

(** What follows the last separator is a suffix without one. *)
Lemma rsplit_next_suffix sep s : ∃ f, s = f ++ rsplit_next sep s ∧ sep ∉ rsplit_next sep s.
Proof.
  induction s as [|c s (f&E&Hn)] using rev_ind; [exists []; set_solver|].
  rewrite rsplit_next_snoc. case_match; unbool.
  - exists (s ++ [c]). rewrite app_nil_r. set_solver.
  - exists f. rewrite app_assoc, <-E. split; [done|].
    rewrite not_elem_of_app, list_elem_of_singleton. naive_solver.
Qed.

Lemma char_indices_app i p q : char_indices i (p ++ q) = char_indices i p ++ char_indices (i + str_len p) q.
Proof.
  revert i. induction p as [|ch p IH]; intros i; simpl; [by rewrite Z.add_0_r|].
  by rewrite IH, Z.add_assoc.
Qed.

Lemma line_starts_app i p q : line_starts i (p ++ q) = line_starts i p ++ line_starts (i + str_len p) q.
Proof. unfold line_starts. by rewrite char_indices_app, filter_app, fmap_app. Qed.

Lemma line_starts_cons i ch s :
  line_starts i (ch :: s) = (if decide (ch = 10) then [i + 1] else []) ++ line_starts (i + Z.of_nat (len_utf8 ch)) s.
Proof. unfold line_starts. simpl. rewrite filter_cons. simpl. by case_decide. Qed.

Lemma length_line_starts i s : Z.of_nat (length (line_starts i s)) = newlines s.
Proof.
  revert i. induction s as [|ch s IH]; intros i; [done|].
  rewrite line_starts_cons. unfold newlines. rewrite filter_cons.
  case_decide; simpl; rewrite ?Nat2Z.inj_succ, IH; done.
Qed.

Lemma line_starts_bound i s x : x ∈ line_starts i s → i < x <= i + str_len s.
Proof.
  revert i. induction s as [|ch s IH]; intros i; [by intros ?%elem_of_nil|].
  rewrite line_starts_cons, elem_of_app. simpl. offsets. intros [Hx|Hx%IH]; [|lia].
  case_decide; [|by apply elem_of_nil in Hx]. subst.
  apply list_elem_of_singleton in Hx as ->. lia.
Qed.

(** The newlines before an offset end before it. *)
Lemma line_starts_before i s o x : x ∈ line_starts i (before s o) → x <= i + o.
Proof.
  revert i o. induction s as [|ch s IH]; intros i o; [by intros ?%elem_of_nil|].
  simpl. case_match; [|by intros ?%elem_of_nil]. unbool.
  rewrite line_starts_cons, elem_of_app. intros [Hx|Hx%IH]; [|lia].
  case_decide; [|by apply elem_of_nil in Hx].
  apply list_elem_of_singleton in Hx. lia.
Qed.

Lemma last_line_start s :
  last (0 :: line_starts 0 s) = Some (str_len s - str_len (rsplit_next 10 s)).
Proof.
  induction s as [|c s IH] using rev_ind; [done|].
  rewrite line_starts_app, line_starts_cons, rsplit_next_snoc, str_len_app.
  change (line_starts _ []) with (@nil Z). rewrite app_nil_r, app_comm_cons, last_app.
  destruct (decide (c = 10)) as [->|Hc]; simpl.
  - f_equal. change (Z.of_nat (len_utf8 10)) with 1. lia.
  - rewrite (proj2 (Z.eqb_neq c 10)) by done. rewrite IH, str_len_app. simpl. f_equal. lia.
Qed.

(** ** The binary search *)

(** The elements not greater than [x] are the first [n]; the base ends on the last
    of them. *)
Lemma search_base_spec fuel l x n base size :
  (∀ i, (i < length l)%nat → nth i l 0 <= x ↔ (i < n)%nat) →
  (1 ≤ size ≤ fuel)%nat → (base + size ≤ length l)%nat → (base < n ≤ base + size)%nat →
  search_base fuel l x base size = (n - 1)%nat.
Proof.
  intros Hn. revert base size. induction fuel as [|fuel IH]; intros base size Hs Hl Hb; simpl; [lia|].
  destruct (1 <? size)%nat eqn:E; unbool; [|lia].
  pose proof (Nat.div2_odd size) as Ho. destruct (Nat.odd size); simpl in Ho.
  all: specialize (Hn (base + Nat.div2 size)%nat ltac:(lia)).
  all: destruct (x <? nth (base + Nat.div2 size) l 0) eqn:Ex; unbool; apply IH; lia.
Qed.

Lemma line_at_partition l x n :
  (∀ i, (i < length l)%nat → nth i l 0 <= x ↔ (i < n)%nat) → (1 ≤ n ≤ length l)%nat →
  line_at (mkLineIndex l) x = y ← l !! (n - 1)%nat; Some (Z.of_nat n, y).
Proof.
  intros Hn Hl. unfold line_at, binary_search. cbn [starts].
  destruct (length l) as [|len] eqn:E; [lia|]. rewrite <-E in *.
  rewrite (search_base_spec _ _ _ n) by (done || lia).
  pose proof (proj2 (Hn (n - 1)%nat ltac:(lia)) ltac:(lia)) as Hle.
  destruct (nth (n - 1) l 0 =? x) eqn:Ex; simpl.
  - destruct (l !! (n - 1)%nat); simpl; [|done]. do 2 f_equal. lia.
  - unbool. zbool. replace (n - 1 + 1)%nat with (S (n - 1)) by lia. simpl.
    destruct (l !! (n - 1)%nat); simpl; [|done]. do 2 f_equal. lia.
Qed.

(** A list whose first part is not greater than [x] and whose second part is. *)
Lemma line_at_split l1 l2 x y :
  last l1 = Some y → (∀ z, z ∈ l1 → z <= x) → (∀ z, z ∈ l2 → x < z) →
  line_at (mkLineIndex (l1 ++ l2)) x = Some (Z.of_nat (length l1), y).
Proof.
  intros Hy H1 H2. assert (1 ≤ length l1)%nat by (destruct l1; simpl in *; [done|lia]).
  rewrite (line_at_partition _ _ (length l1)).
  - rewrite lookup_app_l by lia. rewrite last_lookup in Hy.
    replace (length l1 - 1)%nat with (Nat.pred (length l1)) by lia. by rewrite Hy.
  - intros i Hi. rewrite length_app in Hi. destruct (decide (i < length l1)%nat).
    + rewrite app_nth1 by lia. split; [done|]. intros _. apply H1, list_elem_of_In, nth_In. lia.
    + rewrite app_nth2 by lia. split; [|lia]. intros Hle. exfalso.
      assert (nth (i - length l1) l2 0 ∈ l2) as Hz%H2
        by (apply list_elem_of_In, nth_In; lia). lia.
  - rewrite length_app. lia.
Qed.

(** The line of an offset: one more than the newlines before it, and the start
    of what precedes it on its line. *)
Lemma line_at_spec s o :
  0 <= o <= str_len s →
  line_at (new s) o = Some (newlines (before s o) + 1,
                            str_len (before s o) - str_len (rsplit_next 10 (before s o))).
Proof.
  intros Ho. pose proof (before_reaches s o ltac:(lia)) as Hr. unfold new.
  change (_ <$> _) with (line_starts 0 s). rewrite (before_prefix s o) at 1.
  rewrite line_starts_app, app_comm_cons, (line_at_split _ _ _ _ (last_line_start _)).
  - do 2 f_equal. simpl. rewrite <-length_line_starts with (i := 0). lia.
  - intros z [->|Hz%line_starts_before]%elem_of_cons; lia.
  - intros z Hz%line_starts_bound. lia.
Qed.

(** ** Locating a span *)

Lemma take_while_prefix {A} (p : A → bool) l : take_while p l `prefix_of` l.
Proof.
  induction l as [|x l IH]; simpl; [done|]. case_match; [by apply prefix_cons|apply prefix_nil].
Qed.

(** A line is a prefix of the text it heads. *)
Lemma first_line_prefix s : default [] (first_line s) `prefix_of` s.
Proof.
  destruct s as [|ch s]; [done|]. unfold first_line. cbn [default from_option].
  pose proof (take_while_prefix (λ ch, negb (ch =? 10)) (ch :: s)) as Hp.
  case_bool_decide; [done|]. destruct (last _) as [c|] eqn:E; [|done].
  assert (removelast (take_while (λ ch, negb (ch =? 10)) (ch :: s)) `prefix_of` ch :: s).
  { etrans; [|done]. apply last_Some in E as (l&->). rewrite removelast_last. by exists [c]. }
  by repeat case_match.
Qed.

Lemma clamp_some n hi : 1 <= hi → clamp n 1 hi = Some (Z.min hi (Z.max 1 n)).
Proof. intros. unfold clamp. by zbool. Qed.

(** What [locate_with] answers, in terms of what precedes the span. *)
Lemma locate_in_eq name source span n :
  0 <= Token.start span → char_len source (range span) = Some (Z.of_nat n) →
  let pre := lead source span in
  let head := rsplit_next 10 pre in
  let line := first_line (head ++ drop (length pre) source) in
  locate_in name source span =
    Some (mkLocation name (1 + newlines pre) (1 + Z.of_nat (length head)) line
            (Z.min (Z.max 1 (Z.of_nat (length (default [] line)) - Z.of_nat (length head)))
                   (Z.max 1 (Z.of_nat n)))).
Proof.
  intros Hs Hn pre head line. unfold locate_in, locate_with.
  rewrite line_at_spec by (offsets; lia). cbn [mbind option_bind].
  fold (lead source span). fold pre. fold head.
  destruct (rsplit_next_suffix 10 pre) as (front&Hf&_). fold head in Hf.
  assert (source = front ++ head ++ drop (length pre) source) as Hsrc.
  { rewrite app_assoc, <-Hf. apply before_prefix. }
  set (post := drop (length pre) source) in *. clearbody post.
  assert (str_len pre - str_len head = str_len front) as -> by (rewrite Hf, str_len_app; lia).
  assert (slice_from source (str_len front) = Some (head ++ post)) as Hrest
    by (rewrite Hsrc; apply slice_from_app).
  rewrite Hrest. cbn [mbind option_bind]. rewrite Hn. cbn [mbind option_bind].
  rewrite take_while_before, Z.sub_0_r, (before_rest front head)
    by (rewrite <-Hsrc, <-Hf; done).
  assert ((if str_len source <=? str_len front then Some None
           else Some (Some (default [] (first_line (head ++ post))))) = Some line) as Hex.
  { rewrite Hsrc, str_len_app. unfold line. destruct (head ++ post) as [|c r]; [simpl; by zbool|].
    simpl. offsets. by zbool. }
  cbn [mbind option_bind] in Hex |- *. rewrite Hex. cbn [mbind option_bind].
  unfold saturating_sub. rewrite clamp_some by lia. cbn [mbind option_bind].
  do 2 f_equal; [lia..|].
  destruct line; simpl; lia.
Qed.

(** ** UTF-16 positions *)

Lemma newlines_app p q : newlines (p ++ q) = newlines p + newlines q.
Proof. unfold newlines. rewrite filter_app, length_app. lia. Qed.

Lemma newlines_none s : 10 ∉ s → newlines s = 0.
Proof.
  unfold newlines. induction s as [|ch s IH]; [done|]. rewrite not_elem_of_cons. intros [Hc Hs].
  rewrite filter_cons_False by congruence. by apply IH.
Qed.

Lemma newlines_le s : 0 <= newlines s <= str_len s.
Proof.
  unfold newlines. pose proof (length_filter (λ ch, ch = 10) s). pose proof (length_str_len s). lia.
Qed.

Lemma len_utf16_bound ch : 1 <= len_utf16 ch <= Z.of_nat (len_utf8 ch).
Proof. unfold len_utf16, len_utf8. repeat case_match; unbool; lia. Qed.

Lemma utf16_len_cons ch s : utf16_len (ch :: s) = len_utf16 ch + utf16_len s.
Proof. done. Qed.

Lemma utf16_len_bound s : 0 <= utf16_len s <= str_len s.
Proof.
  induction s as [|ch s IH]; [done|]. rewrite utf16_len_cons. simpl.
  pose proof (len_utf16_bound ch). lia.
Qed.

(** The start of a line splits the text after its newlines. *)
Lemma line_starts_lookup i s k y :
  line_starts i s !! k = Some y →
  ∃ a b, s = a ++ b ∧ y = i + str_len a ∧ newlines a = Z.of_nat (S k).
Proof.
  revert i k. induction s as [|ch s IH]; intros i k; [done|].
  rewrite line_starts_cons. case_decide as Hc; [destruct k as [|k]; simpl|simpl].
  - intros [= <-]. exists [ch], s. by subst.
  - intros (a&b&->&->&Ha)%IH. exists (ch :: a), b. split_and!; [done|simpl; lia|].
    change (ch :: a) with ([ch] ++ a). rewrite newlines_app, Ha. subst. unfold newlines. simpl. lia.
  - intros (a&b&->&->&Ha)%IH. exists (ch :: a), b. split_and!; [done|simpl; lia|].
    change (ch :: a) with ([ch] ++ a). rewrite newlines_app, Ha.
    rewrite newlines_none by set_solver. lia.
Qed.

(** The walk along a line stops on a character boundary of it. *)
Lemma column_offset_spec ls i r c :
  ∃ h t, r = h ++ t ∧ 10 ∉ h ∧
    default (ls + i + str_len r) (column_offset ls (char_indices i r) c) = ls + i + str_len h.
Proof.
  revert i c. induction r as [|ch r IH]; intros i c; simpl.
  - exists [], []. split_and!; [done|set_solver|done].
  - destruct ((ch =? 10) || (c =? 0)) eqn:E; unbool; simpl.
    + exists [], (ch :: r). simpl. split_and!; [done|set_solver|lia].
    + destruct (IH (i + Z.of_nat (len_utf8 ch)) (saturating_sub c (len_utf16 ch))) as (h&t&->&Hh&Hd).
      exists (ch :: h), t. simpl. split_and!; [done|set_solver|].
      transitivity (ls + (i + Z.of_nat (len_utf8 ch)) + str_len h); [|lia].
      rewrite <-Hd. f_equal. lia.
Qed.

(** On the column a line's beginning [h] spans, the walk stops after [h]. *)
Lemma column_offset_exact ls i h t :
  10 ∉ h →
  default (ls + i + str_len (h ++ t)) (column_offset ls (char_indices i (h ++ t)) (utf16_len h))
  = ls + i + str_len h.
Proof.
  revert i. induction h as [|ch h IH]; intros i Hh; simpl.
  - destruct t as [|ch t]; simpl; [lia|]. rewrite orb_true_r. simpl. lia.
  - apply not_elem_of_cons in Hh as [Hc Hh].
    pose proof (utf16_len_bound h). pose proof (len_utf16_bound ch). rewrite utf16_len_cons.
    zbool. simpl. unfold saturating_sub. rewrite Z.max_r by lia.
    replace (len_utf16 ch + _ - _) with (utf16_len h) by lia.
    specialize (IH (i + Z.of_nat (len_utf8 ch)) Hh).
    transitivity (ls + (i + Z.of_nat (len_utf8 ch)) + str_len h); [|lia].
    rewrite <-IH. f_equal. lia.
Qed.

(** What a protocol position names: a character boundary of its line, the end of
    the text when there is no such line. *)
Lemma byte_offset_spec s l c :
  0 <= l → ∃ p q, s = p ++ q ∧ byte_offset s l c = Some (str_len p) ∧
    (l <= newlines s → newlines p = l) ∧ (newlines s < l → q = []).
Proof.
  intros Hl. unfold byte_offset. change (starts (new s)) with (0 :: line_starts 0 s).
  destruct ((0 :: line_starts 0 s) !! Z.to_nat l) as [y|] eqn:E.
  - assert (∃ a b, s = a ++ b ∧ y = str_len a ∧ newlines a = l) as (a&b&->&->&Ha).
    { destruct (Z.to_nat l) as [|k] eqn:El; simpl in E.
      - exists [], s. simplify_eq. split_and!; [done..|]. unfold newlines. simpl. lia.
      - apply line_starts_lookup in E as (a&b&->&->&Ha). exists a, b. split_and!; [done..|lia]. }
    rewrite slice_from_app. cbn [mbind option_bind].
    destruct (column_offset_spec (str_len a) 0 b c) as (h&t&->&Hh&Hd).
    exists (a ++ h), t. rewrite (newlines_app a h), (newlines_none h) by done.
    split_and!; [by rewrite app_assoc| |lia|].
    + rewrite str_len_app at 1. rewrite Z.add_0_r in Hd. rewrite Hd. by rewrite str_len_app.
    + rewrite newlines_app. pose proof (newlines_le (h ++ t)). lia.
  - exists s, []. rewrite app_nil_r. split_and!; [done..| |done].
    apply lookup_ge_None in E. simpl in E. pose proof (length_line_starts 0 s). lia.
Qed.

Lemma position_utf16_eq p q :
  str_len (p ++ q) < 2 ^ 32 →
  position_utf16 (p ++ q) (str_len p) = Some (newlines p, utf16_len (rsplit_next 10 p)).
Proof.
  intros Hu. unfold position_utf16. rewrite floor_char_boundary_app.
  rewrite line_at_spec by (rewrite str_len_app; offsets; lia). rewrite before_app.
  cbn [mbind option_bind].
  destruct (rsplit_next_suffix 10 p) as (f&Hf&_). set (h := rsplit_next 10 p) in *. clearbody h.
  subst p. rewrite (str_len_app f h). replace (str_len f + str_len h - str_len h) with (str_len f) by lia.
  rewrite <-str_len_app, <-app_assoc, slice_app. cbn [mbind option_bind]. fold (utf16_len h).
  pose proof (newlines_le (f ++ h)). pose proof (utf16_len_bound h).
  rewrite !str_len_app in *. offsets. rewrite !u32_id by lia. do 2 f_equal. lia.
Qed.

(** * Theorems *)

(** C35: Every span resolves, in any text and wherever its offsets fall, without a
    slice off a character boundary, an index out of range or an underflow.  The
    line is one more than the newlines before the span's start, the column one
    more than the characters between them, the excerpt the line the start is on;
    the caret run has at least one caret and stays on the line, and for a span of
    whole characters of the line it is as long as the span. *)
Theorem locate_correct (name : string) (source : list Z) (span : Span)
    (Hs : 0 <= Token.start span) (He : 0 <= end_ span) :
  ∃ loc, locate_in name source span = Some loc ∧
    let pre := lead source span in
    let head := rsplit_next 10 pre in
    path loc = name ∧
    line loc = 1 + newlines pre ∧
    column loc = 1 + Z.of_nat (length head) ∧
    excerpt loc = first_line (head ++ drop (length pre) source) ∧
    1 <= width loc ∧
    column loc + width loc
      <= 1 + Z.max (column loc) (Z.of_nat (length (default [] (excerpt loc)))) ∧
    ∀ mid, mid ≠ [] → Token.start span = str_len pre → end_ span = str_len (pre ++ mid) →
      pre ++ mid `prefix_of` source → head ++ mid `prefix_of` default [] (excerpt loc) →
      width loc = Z.of_nat (length mid).
Proof.
  destruct (char_len_total source (Token.start span) (end_ span) Hs He) as (n&Hn).
  eexists. split; [by apply locate_in_eq|]. simpl.
  split_and!; [done..|lia| |].
  - destruct (first_line _); simpl; lia.
  - intros mid Hm Hst Hen (post&Hp) Hpre%prefix_length. rewrite <-app_assoc in Hp.
    rewrite Hst, Hen in Hn. rewrite Hp, char_len_app in Hn at 1. simplify_eq.
    rewrite length_app in Hpre. destruct mid; [done|]. simpl in *. lia.
Qed.

(** C34: In a text below 4 GiB the protocol position of a character boundary counts
    the newlines before it and the UTF-16 units since the last of them, and names
    that boundary back; and any position of the protocol names a character
    boundary, of the line it gives when there is one, the end of the text
    otherwise. *)
Theorem utf16_round_trip (text : list Z) (H : str_len text < 2 ^ 32) :
  (∀ p q, text = p ++ q →
     position_utf16 text (str_len p) = Some (newlines p, utf16_len (rsplit_next 10 p)) ∧
     byte_offset text (newlines p) (utf16_len (rsplit_next 10 p)) = Some (str_len p)) ∧
  (∀ l c, 0 <= l → ∃ p q, text = p ++ q ∧ byte_offset text l c = Some (str_len p) ∧
     (l <= newlines text → newlines p = l) ∧ (newlines text < l → q = [])).
Proof.
  split; [intros p q ->; split; [by apply position_utf16_eq|]|intros; by apply byte_offset_spec].
  unfold byte_offset. change (starts (new (p ++ q))) with (0 :: line_starts 0 (p ++ q)).
  assert ((0 :: line_starts 0 (p ++ q)) !! Z.to_nat (newlines p)
          = Some (str_len p - str_len (rsplit_next 10 p))) as ->.
  { rewrite <-last_line_start, last_lookup, line_starts_app, app_comm_cons.
    rewrite <-length_line_starts with (i := 0), Nat2Z.id, lookup_app_l by (simpl; lia). done. }
  destruct (rsplit_next_suffix 10 p) as (f&Hf&Hh). set (h := rsplit_next 10 p) in *. clearbody h.
  subst p. rewrite (str_len_app f h). replace (str_len f + str_len h - str_len h) with (str_len f) by lia.
  rewrite <-app_assoc, slice_from_app. cbn [mbind option_bind].
  rewrite (str_len_app f (h ++ q)). pose proof (column_offset_exact (str_len f) 0 h q Hh) as Hc.
  rewrite Z.add_0_r in Hc. by rewrite Hc.
Qed.

Definition sample_text : list Z := bs "a" ++ [0xE9; 10; 0x1F600] ++ bs "x" ++ [13; 10].

Example locate_correct_witness :
  0 <= Token.start (in_root 4 8) ∧ 0 <= end_ (in_root 4 8) ∧
  ∃ loc, locate_in "f.qn" sample_text (in_root 4 8) = Some loc ∧ line loc = 2 ∧ width loc = 1.
Proof.
  assert (0 <= Token.start (in_root 4 8)) as Hs by (simpl; lia).
  assert (0 <= end_ (in_root 4 8)) as He by (simpl; lia).
  split; [exact Hs|]. split; [exact He|].
  destruct (locate_correct "f.qn" sample_text (in_root 4 8) Hs He) as (loc&Hl&_&Hline&_&_&_&_&Hw).
  exists loc. split; [exact Hl|]. split; [rewrite Hline; vm_compute; reflexivity|].
  refine (Hw [0x1F600] _ _ _ _ _); [discriminate|reflexivity|reflexivity|..].
  - exists (bs "x" ++ [13; 10]). reflexivity.
  - vm_compute in Hl. injection Hl as <-. exists (bs "x"). reflexivity.
Defined.

Example utf16_round_trip_witness :
  str_len sample_text < 2 ^ 32 ∧ position_utf16 sample_text 9 = Some (1, 3)
  ∧ byte_offset sample_text 1 3 = Some 9.
Proof.
  assert (str_len sample_text < 2 ^ 32) as H by (vm_compute; reflexivity).
  split; [exact H|].
  exact (proj1 (utf16_round_trip sample_text H)
           (bs "a" ++ [0xE9; 10; 0x1F600] ++ bs "x") [13; 10] eq_refl).
Defined.
