(* ===== verification/Collections.v ===== *)
(** * The built-in [Map] and [Set] (quilon-rt/src/collections/)

    Keys of the compiler's ABI with their equality and their hash, and the two
    headers with every intrinsic on them.  Headers are shared and mutated in
    place, so the operations work on a store of headers.  The table is the
    entries of a [std::collections::HashMap]: a lookup finds the entry with the
    key's hash that is equal to it, an insertion of an equal key keeps the old
    key.  What lies outside is a parameter: the bytes a [Text] points at, the
    compiled hooks of a user's key type, and the order in which the standard
    library iterates over a table.  [None] is a panic, or a pointer that points
    at no header. *)

From S2P Require Import Prelude Num.
From Stdlib Require Import SpecFloat.
Open Scope Z_scope.

(** ** Doubles by their bits *)

Definition u64 (n : Z) : Z := n mod 2 ^ 64.
Definition u8 (n : Z) : Z := n mod 256.

(** [f64::from_bits]. *)
Definition f64_from_bits (bits : Z) : f64 :=
  let s := 2 ^ 63 <=? bits in
  let e := bits / 2 ^ 52 mod 2 ^ 11 in
  let m := bits mod 2 ^ 52 in
  if e =? 0 then match m with Zpos p => S754_finite s p (-1074) | _ => S754_zero s end
  else if e =? 2047 then (if m =? 0 then S754_infinity s else S754_nan)
  else match m + 2 ^ 52 with Zpos p => S754_finite s p (e - 1075) | _ => S754_nan end.

Definition is_nan (f : f64) : bool := match f with S754_nan => true | _ => false end.

(** [f64::NAN.to_bits()]. *)
Definition nan_bits : Z := 0x7ff8000000000000.

Definition canonical_num_bits (bits : Z) : Z :=
  let f := f64_from_bits bits in
  if SFeqb f (S754_zero false) then 0
  else if is_nan f then nan_bits
  else bits.

(** ** Keys *)

Definition TAG_NUM : Z := 0.
Definition TAG_TEXT : Z := 1.
Definition TAG_USER : Z := 3.

Record QnKey : Type := mkQnKey {
  tag : Z;
  a : Z;
  b : Z;
  hash_fn : option Z;
  eq_fn : option Z;
}.

(** A nullable function pointer of the ABI. *)
Definition hook (p : Z) : option Z := if p =? 0 then None else Some p.

Definition new (tag a b hash_fn eq_fn : Z) : QnKey :=
  let tag := u8 tag in
  let a := if tag =? TAG_NUM then canonical_num_bits (u64 a) else u64 a in
  mkQnKey tag a (u64 b) (hook hash_fn) (hook eq_fn).

(** ** Headers *)

(** A slot of a snapshot: the key's identity pair and the value box (none in a set). *)
Record Entry (V : Type) : Type := mkEntry { key_a : Z; key_b : Z; value : V }.
Arguments mkEntry {V}.
Arguments key_a {V}.
Arguments key_b {V}.
Arguments value {V}.

(** [QnMap] and [QnSet], with the [HashSet] a [HashMap] to unit as in the standard
    library. *)
Record Header (V : Type) : Type := mkHeader {
  table : list (QnKey * V);
  snapshot : list (Entry V);
  len : Z;
}.
Arguments mkHeader {V}.
Arguments table {V}.
Arguments snapshot {V}.
Arguments len {V}.

(** The headers by their addresses. *)
Notation MapStore := (gmap Z (Header Z)).
Notation SetStore := (gmap Z (Header unit)).

Section collections.
Context (debug_assertions : bool).
(** The content bytes of the [Text] of a length at an address. *)
Context (byte_slice : Z → Z → list Z).
(** The compiled [%] (the bits of its [Num]) and [==] of a user's key type. *)
Context (hash_hook : Z → Z → Z) (eq_hook : Z → Z → Z → Z).
(** The standard library's iteration order. *)
Context (order : ∀ V, list (QnKey * V) → list (QnKey * V)).

Definition text_bytes (self : QnKey) : list Z := byte_slice (a self) (b self).

Definition user_hash_bits (self : QnKey) : option Z :=
  hash_fn ← hash_fn self;
  Some (canonical_num_bits (hash_hook hash_fn (a self))).

Definition key_eq (self other : QnKey) : option bool :=
  if negb (tag self =? tag other) then Some false
  else if tag self =? TAG_TEXT then Some (bool_decide (text_bytes self = text_bytes other))
  else if tag self =? TAG_USER then
    eq_fn ← eq_fn self;
    Some (negb (eq_hook eq_fn (a self) (a other) =? 0))
  else Some (a self =? a other).

(** What [Hash::hash] feeds the hasher: the tag, then bytes or a word. *)
Definition key_hash (self : QnKey) : option (Z * (list Z + Z)) :=
  if tag self =? TAG_TEXT then Some (tag self, inl (text_bytes self))
  else if tag self =? TAG_USER then bits ← user_hash_bits self; Some (tag self, inr bits)
  else Some (tag self, inr (a self)).

(** One turn of the debug build's consistency scan: [Some tt] goes on. *)
Definition debug_check_key (eq_fn new_hash : Z) (new_key present : QnKey) : option unit :=
  if negb (tag present =? TAG_USER) then Some tt
  else
    let equal := negb (eq_hook eq_fn (a new_key) (a present) =? 0) in
    if equal then
      present_hash ← user_hash_bits present;
      if new_hash =? present_hash then Some tt else None
    else Some tt.

Definition debug_check_user_key (existing : list QnKey) (new_key : QnKey) : option unit :=
  if negb debug_assertions then Some tt
  else if negb (tag new_key =? TAG_USER) then Some tt
  else
    eq_fn ← eq_fn new_key;
    new_hash ← user_hash_bits new_key;
    foldr (λ present rest, _ ← debug_check_key eq_fn new_hash new_key present; rest)
      (Some tt) existing.

(** ** The standard library's table *)

(** Whether a probe for [k] stops at [present]: the hashes agree and so does [==]. *)
Definition probe (k present : QnKey) : option bool :=
  h ← key_hash k;
  h' ← key_hash present;
  if bool_decide (h = h') then key_eq k present else Some false.

Section table.
Context {V : Type}.

Fixpoint find_index (k : QnKey) (entries : list (QnKey * V)) : option (option nat) :=
  match entries with
  | [] => _ ← key_hash k; Some None
  | (present, _) :: rest =>
      hit ← probe k present;
      if hit : bool then Some (Some 0%nat)
      else found ← find_index k rest; Some (option_map S found)
  end.

Definition table_get (entries : list (QnKey * V)) (k : QnKey) : option (option V) :=
  found ← find_index k entries;
  Some (i ← found; snd <$> entries !! i).

Definition table_contains (entries : list (QnKey * V)) (k : QnKey) : option bool :=
  found ← find_index k entries;
  Some (bool_decide (is_Some found)).

Definition table_insert (entries : list (QnKey * V)) (k : QnKey) (v : V)
    : option (list (QnKey * V)) :=
  found ← find_index k entries;
  Some (match found with
        | Some i => alter (λ e : QnKey * V, (e.1, v)) i entries
        | None => entries ++ [(k, v)]
        end).

Definition table_remove (entries : list (QnKey * V)) (k : QnKey) : option (list (QnKey * V)) :=
  found ← find_index k entries;
  Some (match found with Some i => delete i entries | None => entries end).

Definition iter (entries : list (QnKey * V)) : list (QnKey * V) := order V entries.

(** ** Headers in the store *)

Definition refresh_snapshot (header : Header V) : Header V :=
  let entries := iter (table header) in
  mkHeader (table header) ((λ e : QnKey * V, mkEntry (a e.1) (b e.1) e.2) <$> entries)
    (Z.of_nat (length (table header))).

Definition build (entries : list (QnKey * V)) : Header V :=
  refresh_snapshot (mkHeader entries [] 0).



(** [alloc_slots] hands out an address no live header has, never the null one. *)
Definition fresh_address (store : gmap Z (Header V)) : Z :=
  1 + foldr Z.max 0 (fst <$> map_to_list store).

Definition alloc (store : gmap Z (Header V)) (header : Header V) : gmap Z (Header V) * Z :=
  let address := fresh_address store in
  (<[address := header]> store, address).

Definition store_new (store : gmap Z (Header V)) : gmap Z (Header V) * Z := alloc store (build []).

(** The mutators: the table changes, the snapshot is rebuilt, the pointer stays. *)
Definition store_insert (store : gmap Z (Header V)) (p : Z) (k : QnKey) (v : V) : option (gmap Z (Header V) * Z) :=
  header ← store !! p;
  _ ← debug_check_user_key (fst <$> iter (table header)) k;
  entries ← table_insert (table header) k v;
  Some (<[p := refresh_snapshot (mkHeader entries (snapshot header) (len header))]> store, p).

Definition store_remove (store : gmap Z (Header V)) (p : Z) (k : QnKey) : option (gmap Z (Header V) * Z) :=
  header ← store !! p;
  entries ← table_remove (table header) k;
  Some (<[p := refresh_snapshot (mkHeader entries (snapshot header) (len header))]> store, p).

Definition store_has (store : gmap Z (Header V)) (p : Z) (k : QnKey) : option Z :=
  header ← store !! p;
  found ← table_contains (table header) k;
  Some (if found : bool then 1 else 0).

Definition store_len (store : gmap Z (Header V)) (p : Z) : option Z := len <$> store !! p.

Definition store_slot (store : gmap Z (Header V)) (p i : Z) : option (Entry V) :=
  header ← store !! p;
  snapshot header !! Z.to_nat i.

End table.

(** ** The map's intrinsics *)

Definition map_new (store : MapStore) : MapStore * Z := store_new store.

Definition map_set (store : MapStore) (map tag a b hash_fn eq_fn value : Z) : option (MapStore * Z) :=
  store_insert store map (new tag a b hash_fn eq_fn) value.

Definition map_remove (store : MapStore) (map tag a b hash_fn eq_fn : Z)
    : option (MapStore * Z) :=
  store_remove store map (new tag a b hash_fn eq_fn).

(** The value (null when absent) and what is written to [found_out]. *)
Definition map_get (store : MapStore) (map tag a b hash_fn eq_fn : Z) : option (Z * Z) :=
  header ← store !! map;
  found ← table_get (table header) (new tag a b hash_fn eq_fn);
  Some (match found with Some value => (value, 1) | None => (0, 0) end).

Definition map_has (store : MapStore) (map tag a b hash_fn eq_fn : Z) : option Z :=
  store_has store map (new tag a b hash_fn eq_fn).

Definition map_len (store : MapStore) (map : Z) : option Z := store_len store map.
Definition map_key_a (store : MapStore) (map i : Z) : option Z :=
  key_a <$> store_slot store map i.
Definition map_key_b (store : MapStore) (map i : Z) : option Z :=
  key_b <$> store_slot store map i.
Definition map_val (store : MapStore) (map i : Z) : option Z :=
  value <$> store_slot store map i.

(** ** The set's intrinsics *)

Definition set_new (store : SetStore) : SetStore * Z := store_new store.

Definition set_add (store : SetStore) (set tag a b hash_fn eq_fn : Z) : option (SetStore * Z) :=
  store_insert store set (new tag a b hash_fn eq_fn) tt.

Definition set_remove (store : SetStore) (set tag a b hash_fn eq_fn : Z)
    : option (SetStore * Z) :=
  store_remove store set (new tag a b hash_fn eq_fn).

Definition set_has (store : SetStore) (set tag a b hash_fn eq_fn : Z) : option Z :=
  store_has store set (new tag a b hash_fn eq_fn).

Definition set_len (store : SetStore) (set : Z) : option Z := store_len store set.
Definition set_item_a (store : SetStore) (set i : Z) : option Z :=
  key_a <$> store_slot store set i.
Definition set_item_b (store : SetStore) (set i : Z) : option Z :=
  key_b <$> store_slot store set i.

Definition set_union (store : SetStore) (left right : Z) : option (SetStore * Z) :=
  l ← store !! left;
  r ← store !! right;
  entries ← foldl (λ entries k, entries ← entries; table_insert entries k tt)
              (Some (table l)) (fst <$> iter (table r));
  Some (alloc store (build entries)).

(** One turn of [set_filter]'s loop. *)
Definition keep_key (r : list (QnKey * unit)) (keep_present : bool)
    (entries : list (QnKey * unit)) (k : QnKey) : option (list (QnKey * unit)) :=
  found ← table_contains r k;
  if eqb found keep_present then table_insert entries k tt else Some entries.

Definition set_filter (store : SetStore) (left right : Z) (keep_present : bool)
    : option (SetStore * Z) :=
  l ← store !! left;
  r ← store !! right;
  entries ← foldl (λ entries k, entries ← entries; keep_key (table r) keep_present entries k)
              (Some []) (fst <$> iter (table l));
  Some (alloc store (build entries)).

Definition set_diff (store : SetStore) (left right : Z) : option (SetStore * Z) :=
  set_filter store left right false.
Definition set_intersect (store : SetStore) (left right : Z) : option (SetStore * Z) :=
  set_filter store left right true.

(** ** What the theorems say: one kind of keys, and the map it indexes *)

Inductive key_kind : Type := KNum | KText | KBool | KUser (hash_fn eq_fn : Z).

Definition kind_tag (kd : key_kind) : Z :=
  match kd with KNum => 0 | KText => 1 | KBool => 2 | KUser _ _ => 3 end.
Definition kind_hash (kd : key_kind) : Z := match kd with KUser hash_fn _ => hash_fn | _ => 0 end.
Definition kind_eq (kd : key_kind) : Z := match kd with KUser _ eq_fn => eq_fn | _ => 0 end.

(** The key of a kind with two words of content. *)
Definition key (kd : key_kind) (x y : Z) : QnKey :=
  new (kind_tag kd) x y (kind_hash kd) (kind_eq kd).

Definition of_kind (kd : key_kind) (k : QnKey) : Prop := key kd (a k) (b k) = k.

(** The sign, exponent and mantissa of a double's bits, and the double they make. *)
Definition of_fields (s : bool) (e m : Z) : f64 :=
  if e =? 0 then match m with Zpos p => S754_finite s p (-1074) | _ => S754_zero s end
  else if e =? 2047 then (if m =? 0 then S754_infinity s else S754_nan)
  else match m + 2 ^ 52 with Zpos p => S754_finite s p (e - 1075) | _ => S754_nan end.

(** What a user's key type owes: hooks, an [==] that is an equivalence and a [%]
    that agrees with it. *)
Definition lawful (kd : key_kind) : Prop :=
  match kd with
  | KUser hash_fn eq_fn =>
      hash_fn ≠ 0 ∧ eq_fn ≠ 0 ∧
      (∀ x, eq_hook eq_fn x x ≠ 0) ∧
      (∀ x y, eq_hook eq_fn x y ≠ 0 → eq_hook eq_fn y x ≠ 0) ∧
      (∀ x y z, eq_hook eq_fn x y ≠ 0 → eq_hook eq_fn y z ≠ 0 → eq_hook eq_fn x z ≠ 0) ∧
      (∀ x y, eq_hook eq_fn x y ≠ 0 →
         canonical_num_bits (hash_hook hash_fn x) = canonical_num_bits (hash_hook hash_fn y))
  | _ => True
  end.

(** The language's [==] on keys. *)
Definition same (k k' : QnKey) : bool := default false (key_eq k k').

(** The map a table stands for. *)
Fixpoint get {V} (entries : list (QnKey * V)) (k : QnKey) : option V :=
  match entries with
  | [] => None
  | (k', v) :: rest => if same k k' then Some v else get rest k
  end.

Fixpoint put {V} (entries : list (QnKey * V)) (k : QnKey) (v : V) : list (QnKey * V) :=
  match entries with
  | [] => [(k, v)]
  | (k', v') :: rest => if same k k' then (k', v) :: rest else (k', v') :: put rest k v
  end.

Fixpoint cut {V} (entries : list (QnKey * V)) (k : QnKey) : list (QnKey * V) :=
  match entries with
  | [] => []
  | (k', v') :: rest => if same k k' then rest else (k', v') :: cut rest k
  end.

(** A table of one kind of keys, no two of them equal. *)
Fixpoint table_ok {V} (kd : key_kind) (entries : list (QnKey * V)) : Prop :=
  match entries with
  | [] => True
  | (k, _) :: rest => of_kind kd k ∧ get rest k = None ∧ table_ok kd rest
  end.

Definition header_ok {V} (kd : key_kind) (header : Header V) : Prop :=
  table_ok kd (table header) ∧ header = refresh_snapshot header.

Definition store_ok {V} (kd : key_kind) (store : gmap Z (Header V)) : Prop :=
  ∀ p header, store !! p = Some header → header_ok kd header.

(** Membership in the set at [p], as the program tests it. *)
Definition holds (kd : key_kind) (store : SetStore) (p x y : Z) : Prop :=
  set_has store p (kind_tag kd) x y (kind_hash kd) (kind_eq kd) = Some 1.

Definition mem {V} (entries : list (QnKey * V)) (k : QnKey) : bool :=
  bool_decide (is_Some (get entries k)).

(** A new set [s] whose elements are those [P] says; the old headers stay. *)
Definition builds (kd : key_kind) (store : SetStore) (answer : option (SetStore * Z))
    (P : Z → Z → Prop) : Prop :=
  ∃ store' s, answer = Some (store', s) ∧ store !! s = None ∧ store ⊆ store' ∧
    store_ok kd store' ∧ ∀ x y, holds kd store' s x y ↔ P x y.

(** The set at [p] changes in place, its elements are then those [P] says; no other
    header changes. *)
Definition updates (kd : key_kind) (store : SetStore) (p : Z) (answer : option (SetStore * Z))
    (P : Z → Z → Prop) : Prop :=
  ∃ store', answer = Some (store', p) ∧ (∀ q, q ≠ p → store' !! q = store !! q) ∧
    store_ok kd store' ∧ ∀ x y, holds kd store' p x y ↔ P x y.

(** A history of a map, oldest operation first, and what it leaves: the value of
    the last operation on an equal key. *)
Inductive map_op : Type := Put (x y value : Z) | Cut (x y : Z).

Definition run_op (kd : key_kind) (p : Z) (store : MapStore) (op : map_op) : option MapStore :=
  fst <$> match op with
          | Put x y v => map_set store p (kind_tag kd) x y (kind_hash kd) (kind_eq kd) v
          | Cut x y => map_remove store p (kind_tag kd) x y (kind_hash kd) (kind_eq kd)
          end.

Definition run_ops (kd : key_kind) (p : Z) (store : MapStore) (ops : list map_op) : option MapStore :=
  foldl (λ store op, store ← store; run_op kd p store op) (Some store) ops.

Definition step_op (kd : key_kind) (op : map_op) (f : QnKey → option Z) (k : QnKey) : option Z :=
  match op with
  | Put x y v => if same k (key kd x y) then Some v else f k
  | Cut x y => if same k (key kd x y) then None else f k
  end.

Definition history (kd : key_kind) (ops : list map_op) : QnKey → option Z :=
  foldl (λ f op, step_op kd op f) (λ _, None) ops.

Lemma bits_fields bits :
  0 <= bits < 2 ^ 64 →
  ∃ s e m, 0 <= e < 2048 ∧ 0 <= m < 2 ^ 52 ∧ f64_from_bits bits = of_fields s e m ∧
    bits = (if s : bool then 2 ^ 63 else 0) + e * 2 ^ 52 + m.
Proof.
  intros Hb. exists (2 ^ 63 <=? bits), (bits / 2 ^ 52 mod 2 ^ 11), (bits mod 2 ^ 52).
  split_and!; [by apply Z.mod_pos_bound..|by apply Z.mod_pos_bound|by apply Z.mod_pos_bound|done|].
  pose proof (Z.div_mod bits (2 ^ 52) ltac:(lia)) as Hd.
  pose proof (Z.mod_pos_bound bits (2 ^ 52) ltac:(lia)) as Hm.
  pose proof (Z.div_mod (bits / 2 ^ 52) (2 ^ 11) ltac:(lia)) as Hd'.
  pose proof (Z.mod_pos_bound (bits / 2 ^ 52) (2 ^ 11) ltac:(lia)) as Hm'.
  destruct (2 ^ 63 <=? bits) eqn:E; unbool; lia.
Qed.

Lemma of_fields_inj s e m s' e' m' :
  0 <= e < 2048 → 0 <= m < 2 ^ 52 → 0 <= e' < 2048 → 0 <= m' < 2 ^ 52 →
  of_fields s e m = of_fields s' e' m' → is_nan (of_fields s e m) = false →
  s = s' ∧ e = e' ∧ m = m'.
Proof.
  intros He Hm He' Hm'. unfold of_fields. intros H Hn.
  repeat (case_match; unbool; simplify_eq/=; try lia); split_and!; done || lia.
Qed.

(** [f64::from_bits] is injective but for the NaNs. *)
Lemma f64_from_bits_inj x y :
  0 <= x < 2 ^ 64 → 0 <= y < 2 ^ 64 → f64_from_bits x = f64_from_bits y →
  is_nan (f64_from_bits x) = false → x = y.
Proof.
  intros Hx Hy. destruct (bits_fields x Hx) as (s&e&m&He&Hm&->&->).
  destruct (bits_fields y Hy) as (s'&e'&m'&He'&Hm'&->&->). intros H Hn.
  by destruct (of_fields_inj _ _ _ _ _ _ He Hm He' Hm' H Hn) as (->&->&->).
Qed.

(** The language's [==] on doubles: the same double, or two zeros. *)
Lemma SFeqb_iff f g :
  SFeqb f g = true ↔
  (f = g ∧ is_nan f = false) ∨ ∃ s s', f = S754_zero s ∧ g = S754_zero s'.
Proof.
  unfold SFeqb. destruct f as [s|s| |s m e], g as [s'|s'| |s' m' e']; simpl; try destruct s; try destruct s';
    try (split; [done|naive_solver]); try (split; [eauto|done]).
  all: try (split; [intros _; right; by do 2 eexists|done]).
  all: change (PosDef.Pos.compare_cont Eq m m') with (Pos.compare m m').
  all: destruct (Z.compare_spec e e') as [->|?|?]; [destruct (Pos.compare_spec m m') as [->|?|?]|..];
    simpl; (split; [by auto|]); intros [[? _]|(?&?&?&?)]; simplify_eq; done || lia.
Qed.

Lemma SFeqb_zero f : SFeqb f (S754_zero false) = true ↔ ∃ s, f = S754_zero s.
Proof.
  rewrite SFeqb_iff. split; [intros [[-> _]|(s&?&->&_)]; eauto|].
  intros [s ->]. right. eauto.
Qed.

(** Canonical bits are zero for a zero, those of the NaN for a NaN, and otherwise
    the bits themselves, which are neither. *)
Lemma canonical_num_bits_cases z :
  let f := f64_from_bits z in
  (∃ s, f = S754_zero s) ∧ canonical_num_bits z = 0 ∨
  f = S754_nan ∧ canonical_num_bits z = nan_bits ∨
  (f ≠ S754_nan ∧ ∀ s, f ≠ S754_zero s) ∧ canonical_num_bits z = z ∧ z ≠ 0 ∧ z ≠ nan_bits.
Proof.
  intros f. unfold canonical_num_bits. fold f.
  destruct (SFeqb f (S754_zero false)) eqn:E; [left; by apply SFeqb_zero in E|right].
  assert (∀ s, f ≠ S754_zero s) as Hs by (intros s Hf; rewrite Hf in E; by destruct s).
  destruct (is_nan f) eqn:En; [left|right].
  - split; [|done]. by destruct f.
  - split_and!; [by intros Hf; rewrite Hf in En|done|done|..]; intros ->.
    + by apply (Hs false).
    + done.
Qed.

(** Two doubles have the same canonical bits when they are [==], or both NaN. *)
Lemma canonical_num_bits_eq x y :
  0 <= x < 2 ^ 64 → 0 <= y < 2 ^ 64 →
  canonical_num_bits x = canonical_num_bits y ↔
  SFeqb (f64_from_bits x) (f64_from_bits y) = true ∨
  f64_from_bits x = S754_nan ∧ f64_from_bits y = S754_nan.
Proof.
  intros Hx Hy. rewrite SFeqb_iff. split.
  - intros H.
    destruct (canonical_num_bits_cases x) as [[[s Es] Ex]|[[Es Ex]|([Hn Hz]&Ex&?&?)]],
      (canonical_num_bits_cases y) as [[[s' Es'] Ey]|[[Es' Ey]|([Hn' Hz']&Ey&?&?)]];
      rewrite Ex, Ey in H; try done.
    + left. right. by exists s, s'.
    + by right.
    + left. left. subst y. split; [done|]. by destruct (f64_from_bits x).
  - intros [[[E E']|(s&s'&E&E')]|[E E']].
    + f_equal. by apply f64_from_bits_inj.
    + unfold canonical_num_bits. rewrite E, E'. by destruct s, s'.
    + unfold canonical_num_bits. by rewrite E, E'.
Qed.

Lemma canonical_num_bits_idem bits : canonical_num_bits (canonical_num_bits bits) = canonical_num_bits bits.
Proof.
  unfold canonical_num_bits at 2 3. case_match eqn:E1; [done|]. case_match eqn:E2; [done|].
  unfold canonical_num_bits. by rewrite E1, E2.
Qed.

Lemma canonical_num_bits_range bits : 0 <= bits < 2 ^ 64 → 0 <= canonical_num_bits bits < 2 ^ 64.
Proof. unfold canonical_num_bits, nan_bits. repeat case_match; lia. Qed.

Lemma u64_range n : 0 <= u64 n < 2 ^ 64.
Proof. by apply Z.mod_pos_bound. Qed.

Lemma u64_id n : 0 <= n < 2 ^ 64 → u64 n = n.
Proof. apply Z.mod_small. Qed.

Lemma key_of_kind kd x y : of_kind kd (key kd x y).
Proof.
  unfold of_kind, key, new. cbn [a b].
  destruct kd; simpl; rewrite !(u64_id (u64 _)) by apply u64_range; try done.
  by rewrite (u64_id (canonical_num_bits _)), canonical_num_bits_idem
    by apply canonical_num_bits_range, u64_range.
Qed.

(** ** Key equality *)

Section laws.
Context (kd : key_kind) (Hkd : lawful kd).

Lemma kind_parts k :
  of_kind kd k → tag k = kind_tag kd ∧ hash_fn k = hook (kind_hash kd) ∧ eq_fn k = hook (kind_eq kd).
Proof. intros <-. by destruct kd. Qed.

Lemma key_eq_same k k' : of_kind kd k → of_kind kd k' → key_eq k k' = Some (same k k').
Proof.
  intros (Ht&_&He)%kind_parts (Ht'&_&_)%kind_parts. unfold same, key_eq. rewrite Ht, Ht', Z.eqb_refl. simpl.
  destruct kd; simpl in *; try done. rewrite He. unfold hook. destruct Hkd as (_&Hn&_).
  by rewrite (proj2 (Z.eqb_neq _ _) Hn).
Qed.

Lemma same_iff k k' :
  of_kind kd k → of_kind kd k' →
  same k k' = true ↔
  match kd with
  | KText => text_bytes k = text_bytes k'
  | KUser _ eq_fn => eq_hook eq_fn (a k) (a k') ≠ 0
  | _ => a k = a k'
  end.
Proof.
  intros (Ht&_&He)%kind_parts (Ht'&_&_)%kind_parts. unfold same, key_eq. rewrite Ht, Ht', Z.eqb_refl. simpl.
  destruct kd; simpl in *; rewrite ?bool_decide_eq_true, ?Z.eqb_eq; try done.
  rewrite He. unfold hook. destruct Hkd as (_&Hn&_). rewrite (proj2 (Z.eqb_neq _ _) Hn).
  simpl. by rewrite negb_true_iff, Z.eqb_neq.
Qed.

Lemma same_refl k : of_kind kd k → same k k = true.
Proof.
  intros Hk. apply same_iff; [done..|]. destruct kd; [done..|]. by destruct Hkd as (_&_&Hr&_).
Qed.

Lemma same_sym k k' : of_kind kd k → of_kind kd k' → same k k' = same k' k.
Proof.
  intros Hk Hk'. apply eq_bool_prop_intro.
  rewrite !Is_true_true, !same_iff by done.
  destruct kd; [done..|]. destruct Hkd as (_&_&_&Hs&_). split; apply Hs.
Qed.

Lemma same_trans k1 k2 k3 :
  of_kind kd k1 → of_kind kd k2 → of_kind kd k3 →
  same k1 k2 = true → same k2 k3 = true → same k1 k3 = true.
Proof.
  intros H1 H2 H3. rewrite !same_iff by done.
  destruct kd; [congruence..|]. destruct Hkd as (_&_&_&_&Ht&_). apply Ht.
Qed.

(** Equal keys are interchangeable on either side of [==]. *)
Lemma same_cong k k' k'' :
  of_kind kd k → of_kind kd k' → of_kind kd k'' → same k k' = true → same k k'' = same k' k''.
Proof.
  intros H1 H2 H3 H. apply eq_bool_prop_intro. rewrite !Is_true_true.
  split; apply same_trans; try done. by rewrite same_sym.
Qed.

(** Equal keys hash alike, and hashing a key of the kind does not panic. *)
Lemma key_hash_some k : of_kind kd k → is_Some (key_hash k).
Proof.
  intros (Ht&Hh&_)%kind_parts. unfold key_hash. rewrite Ht. destruct kd; simpl in *; [eauto..|].
  unfold user_hash_bits. rewrite Hh. unfold hook. destruct Hkd as (Hn&_).
  rewrite (proj2 (Z.eqb_neq _ _) Hn). eauto.
Qed.

Lemma same_hash k k' :
  of_kind kd k → of_kind kd k' → same k k' = true → key_hash k = key_hash k'.
Proof.
  intros Hk Hk'. rewrite same_iff by done. apply kind_parts in Hk as (Ht&Hh&_), Hk' as (Ht'&Hh'&_).
  unfold key_hash. rewrite Ht, Ht'. destruct kd; simpl in *; intros E; [by rewrite E..|].
  unfold user_hash_bits. rewrite Hh, Hh'. unfold hook. destruct Hkd as (Hn&_&_&_&_&Hl).
  rewrite (proj2 (Z.eqb_neq _ _) Hn). simpl. by rewrite (Hl _ _ E).
Qed.

Lemma probe_same k k' : of_kind kd k → of_kind kd k' → probe k k' = Some (same k k').
Proof.
  intros Hk Hk'. unfold probe. destruct (key_hash_some k Hk) as [h Hh].
  destruct (key_hash_some k' Hk') as [h' Hh']. rewrite Hh, Hh'. simpl.
  case_bool_decide as E; [by apply key_eq_same|].
  destruct (same k k') eqn:Es; [|done]. apply same_hash in Es; congruence.
Qed.

(** The debug build's scan finds nothing to object to. *)
Lemma debug_check_ok ks k :
  of_kind kd k → Forall (of_kind kd) ks → debug_check_user_key ks k = Some tt.
Proof.
  intros Hk Hks. unfold debug_check_user_key. destruct debug_assertions; [|done]. simpl.
  destruct (tag k =? TAG_USER) eqn:E; [|done]. unbool. simpl.
  destruct (kind_parts k Hk) as (Ht&Hh&He).
  assert (∃ h e, kd = KUser h e) as (h&e&Ekd) by (destruct kd; simpl in *; by (eauto || rewrite Ht in E)).
  assert (Hlaw := Hkd). rewrite Ekd in Hlaw, Ht, Hh, He. destruct Hlaw as (Hn&Hn'&_&_&_&Hl). simpl in *.
  assert (∀ k', of_kind kd k' →
    user_hash_bits k' = Some (canonical_num_bits (hash_hook h (a k')))) as Hu.
  { intros k' (_&Hh'&_)%kind_parts. rewrite Ekd in Hh'. unfold user_hash_bits. rewrite Hh'. simpl. unfold hook.
    by rewrite (proj2 (Z.eqb_neq _ _) Hn). }
  rewrite Hu by done. rewrite He. unfold hook. rewrite (proj2 (Z.eqb_neq _ _) Hn'). simpl.
  induction Hks as [|k' ks Hk' _ IH]; [done|]. simpl. rewrite IH.
  unfold debug_check_key. rewrite (proj1 (kind_parts k' Hk')), Ekd, Hu by done. simpl.
  destruct (eq_hook e (a k) (a k') =? 0) eqn:E'; simpl; [done|]. unbool.
  by rewrite (Hl _ _ E'), Z.eqb_refl.
Qed.

(** ** Tables *)

Section tables.
Context {V : Type}.
Implicit Types es : list (QnKey * V).

Lemma table_ok_kinds es : table_ok kd es → Forall (of_kind kd) (fst <$> es).
Proof. induction es as [|[k v] es IH]; simpl; [done|]. intros (?&_&?). constructor; auto. Qed.

Lemma find_index_spec es k :
  of_kind kd k → table_ok kd es →
  ∃ found, find_index k es = Some found ∧
    get es k = (i ← found; snd <$> es !! i) ∧
    (∀ v, put es k v = match found with
                       | Some i => alter (λ e : QnKey * V, (e.1, v)) i es
                       | None => es ++ [(k, v)]
                       end) ∧
    cut es k = match found with Some i => delete i es | None => es end ∧
    (is_Some found ↔ is_Some (get es k)).
Proof.
  intros Hk. induction es as [|[k' v'] es IH]; simpl.
  - intros _. destruct (key_hash_some k Hk) as [h ->]. simpl. exists None. simpl.
    split_and!; done || by split; intros [? ?].
  - intros (Hk'&_&Hes). destruct (IH Hes) as (found&Hf&Hg&Hp&Hc&Hi).
    rewrite probe_same by done. simpl. destruct (same k k') eqn:E.
    + exists (Some 0%nat). simpl. split_and!; [done..|]. by split; eauto.
    + rewrite Hf. simpl. exists (option_map S found). rewrite Hg, Hc. rewrite Hg in Hi.
      destruct found as [i|]; simpl in *; split_and!; try done; try (intros v; by rewrite Hp).
      split; [intros _; by apply Hi|by eauto].
Qed.

Lemma table_get_eq es k : of_kind kd k → table_ok kd es → table_get es k = Some (get es k).
Proof.
  intros Hk Hes. destruct (find_index_spec es k Hk Hes) as (found&Hf&Hg&_).
  unfold table_get. by rewrite Hf, Hg.
Qed.

Lemma table_contains_eq es k :
  of_kind kd k → table_ok kd es → table_contains es k = Some (bool_decide (is_Some (get es k))).
Proof.
  intros Hk Hes. destruct (find_index_spec es k Hk Hes) as (found&Hf&_&_&_&Hi).
  unfold table_contains. rewrite Hf. simpl. f_equal. by apply bool_decide_ext.
Qed.

Lemma table_insert_eq es k v : of_kind kd k → table_ok kd es → table_insert es k v = Some (put es k v).
Proof.
  intros Hk Hes. destruct (find_index_spec es k Hk Hes) as (found&Hf&_&Hp&_).
  unfold table_insert. by rewrite Hf, Hp.
Qed.

Lemma table_remove_eq es k : of_kind kd k → table_ok kd es → table_remove es k = Some (cut es k).
Proof.
  intros Hk Hes. destruct (find_index_spec es k Hk Hes) as (found&Hf&_&_&Hc&_).
  unfold table_remove. by rewrite Hf, Hc.
Qed.

(** The map reads equal keys alike. *)
Lemma get_same es k k' :
  of_kind kd k → of_kind kd k' → table_ok kd es → same k k' = true → get es k = get es k'.
Proof.
  intros Hk Hk' Hes Hs. induction es as [|[k1 v1] es IH]; [done|]. simpl in *.
  destruct Hes as (?&_&?). rewrite (same_cong k k') by done. by rewrite IH.
Qed.

Lemma get_put es k v k' :
  of_kind kd k → of_kind kd k' → table_ok kd es →
  get (put es k v) k' = if same k' k then Some v else get es k'.
Proof.
  intros Hk Hk' Hes. induction es as [|[k1 v1] es IH]; simpl in *; [done|].
  destruct Hes as (Hk1&_&Hes). specialize (IH Hes). destruct (same k k1) eqn:E; simpl.
  - rewrite (same_sym k' k1), (same_sym k' k), (same_cong k k1) by done. by destruct (same k1 k').
  - rewrite IH. destruct (same k' k) eqn:E'; [|done].
    by rewrite (same_cong k' k), E by done.
Qed.

Lemma table_ok_put es k v : of_kind kd k → table_ok kd es → table_ok kd (put es k v).
Proof.
  intros Hk. induction es as [|[k1 v1] es IH]; simpl; [done|]. intros (Hk1&Hn&Hes).
  destruct (same k k1) eqn:E; simpl; split_and!; try done; [|by apply IH].
  rewrite get_put by done. by rewrite same_sym, E.
Qed.

Lemma get_cut es k k' :
  of_kind kd k → of_kind kd k' → table_ok kd es →
  get (cut es k) k' = if same k' k then None else get es k'.
Proof.
  intros Hk Hk' Hes. induction es as [|[k1 v1] es IH]; simpl in *; [by case_match|].
  destruct Hes as (Hk1&Hn&Hes). specialize (IH Hes). destruct (same k k1) eqn:E; simpl.
  - rewrite (same_sym k' k1), (same_sym k' k), (same_cong k k1) by done.
    destruct (same k1 k') eqn:E'; [|done]. by rewrite <-(get_same es k1 k').
  - rewrite IH. destruct (same k' k) eqn:E'; [|done].
    by rewrite (same_cong k' k), E by done.
Qed.

Lemma table_ok_cut es k : of_kind kd k → table_ok kd es → table_ok kd (cut es k).
Proof.
  intros Hk. induction es as [|[k1 v1] es IH]; simpl; [done|]. intros (Hk1&Hn&Hes).
  destruct (same k k1) eqn:E; [done|]. simpl. split_and!; [done| |by apply IH].
  rewrite get_cut by done. by case_match.
Qed.

(** An entry is what the map holds for its key, and every key the map holds has one. *)
Lemma get_entry es k v : table_ok kd es → (k, v) ∈ es → get es k = Some v.
Proof.
  intros Hes Hin. induction es as [|[k1 v1] es IH]; [by apply elem_of_nil in Hin|].
  destruct Hes as (Hk1&Hn&Hes). simpl. apply elem_of_cons in Hin as [[= -> ->]|Hin].
  - by rewrite same_refl.
  - assert (of_kind kd k) as Hk.
    { pose proof (table_ok_kinds es Hes) as Hf. rewrite Forall_fmap, Forall_forall in Hf.
      by apply Hf in Hin. }
    destruct (same k k1) eqn:E; [|by apply IH].
    rewrite (get_same es k1 k) in Hn by (done || by rewrite same_sym).
    by rewrite (IH Hes Hin) in Hn.
Qed.

Lemma get_Some_entry es k v : get es k = Some v → ∃ k', (k', v) ∈ es ∧ same k k' = true.
Proof.
  induction es as [|[k1 v1] es IH]; simpl; [done|]. case_match eqn:E.
  - intros [= ->]. exists k1. split; [by left|done].
  - intros (k'&?&?)%IH. exists k'. split; [by right|done].
Qed.

Lemma get_None es k : get es k = None ↔ ∀ k' v, (k', v) ∈ es → same k k' = false.
Proof.
  induction es as [|[k1 v1] es IH]; simpl.
  - split; [by intros _ k' v ?%elem_of_nil|done].
  - destruct (same k k1) eqn:E.
    + split; [done|]. intros H. specialize (H k1 v1 ltac:(by left)). congruence.
    + rewrite IH. split.
      * intros H k' v [[= -> ->]|?]%elem_of_cons; [done|eauto].
      * intros H k' v ?. apply (H k' v). by right.
Qed.

(** A table is one however its entries are listed. *)
Lemma table_ok_perm es es' : es ≡ₚ es' → table_ok kd es → table_ok kd es'.
Proof.
  induction 1 as [|[k v] es es' Hp IH|[k1 v1] [k2 v2] es|es1 es2 es3 _ IH1 _ IH2]; simpl.
  - done.
  - intros (?&Hn&?). split_and!; [done| |auto]. apply get_None. intros k' v' Hin.
    rewrite get_None in Hn. apply (Hn k' v'). by rewrite Hp.
  - intros (H2&Hn2&H1&Hn1&?). destruct (same k2 k1) eqn:E; [done|].
    by rewrite (same_sym k1 k2), E by done.
  - auto.
Qed.

(** No two entries are equal. *)
Lemma table_ok_distinct es i j k1 v1 k2 v2 k :
  of_kind kd k → table_ok kd es → es !! i = Some (k1, v1) → es !! j = Some (k2, v2) →
  same k k1 = true → same k k2 = true → i = j.
Proof.
  intros Hk. revert i j. induction es as [|[k' v'] es IH]; [done|].
  intros i j (Hk'&Hn&Hes) Hi Hj H1 H2. pose proof (table_ok_kinds es Hes) as Hf.
  rewrite Forall_fmap, Forall_forall in Hf. rewrite get_None in Hn.
  assert (∀ k2 v2, (k2, v2) ∈ es → same k k' = true → same k k2 = true → False) as Hx.
  { intros k3 v3 Hin Hs1 Hs2. specialize (Hn _ _ Hin). apply Hf in Hin as Hk3. simpl in Hk3.
    rewrite <-(same_cong k k') in Hn by done. congruence. }
  destruct i as [|i], j as [|j]; simpl in *; simplify_eq; [done|..].
  - exfalso. by eapply Hx; [by eapply list_elem_of_lookup_2|..].
  - exfalso. by eapply Hx; [by eapply list_elem_of_lookup_2|..].
  - f_equal. by eapply IH.
Qed.

End tables.

(** ** Headers and the store *)

Context (order_perm : ∀ V l, order V l ≡ₚ l).

Section headers.
Context {V : Type}.
Implicit Types (store : gmap Z (Header V)) (h : Header V).

Lemma header_ok_build (es : list (QnKey * V)) : table_ok kd es → header_ok kd (build es).
Proof. done. Qed.

Lemma iter_kinds h : header_ok kd h → Forall (of_kind kd) (fst <$> iter (table h)).
Proof.
  intros [Hok _]. apply table_ok_kinds. eapply table_ok_perm; [|done]. by rewrite order_perm.
Qed.

Lemma store_insert_eq store p h k v :
  of_kind kd k → store !! p = Some h → header_ok kd h →
  store_insert store p k v = Some (<[p := build (put (table h) k v)]> store, p).
Proof.
  intros Hk Hp Hh. unfold store_insert. rewrite Hp. simpl.
  rewrite debug_check_ok by (done || by apply iter_kinds). simpl.
  by rewrite table_insert_eq by (done || apply Hh).
Qed.

Lemma store_remove_eq store p h k :
  of_kind kd k → store !! p = Some h → header_ok kd h →
  store_remove store p k = Some (<[p := build (cut (table h) k)]> store, p).
Proof.
  intros Hk Hp Hh. unfold store_remove. rewrite Hp. simpl.
  by rewrite table_remove_eq by (done || apply Hh).
Qed.

Lemma store_has_eq store p h k :
  of_kind kd k → store !! p = Some h → header_ok kd h →
  store_has store p k = Some (if bool_decide (is_Some (get (table h) k)) then 1 else 0).
Proof.
  intros Hk Hp Hh. unfold store_has. rewrite Hp. simpl.
  by rewrite table_contains_eq by (done || apply Hh).
Qed.

Lemma fresh_address_None (store : gmap Z (Header V)) : store !! fresh_address store = None.
Proof.
  destruct (store !! fresh_address store) as [h|] eqn:E; [|done]. exfalso.
  pose proof (proj2 (elem_of_map_to_list store _ _) E) as Hin. unfold fresh_address in Hin.
  assert (∀ l z, z ∈ l → z <= foldr Z.max 0 l) as Hmax.
  { intros l z. induction l as [|y l IH]; [by intros ?%elem_of_nil|].
    simpl. intros [->|?%IH]%elem_of_cons; lia. }
  apply (list_elem_of_fmap_2 fst), Hmax in Hin. cbn [fst] in Hin. lia.
Qed.

(** A slot of the snapshot is an entry, read back as the key it was made of. *)
Lemma snapshot_lookup h i :
  header_ok kd h → snapshot h !! i = (λ e : QnKey * V, mkEntry (a e.1) (b e.1) e.2) <$> iter (table h) !! i.
Proof. intros [_ ->]. simpl. by rewrite list_lookup_fmap. Qed.

End headers.

(** ** Histories of a map *)

Lemma run_ops_snoc p store ops op :
  run_ops kd p store (ops ++ [op]) = store' ← run_ops kd p store ops; run_op kd p store' op.
Proof. unfold run_ops. by rewrite foldl_snoc. Qed.

Lemma history_snoc ops op : history kd (ops ++ [op]) = step_op kd op (history kd ops).
Proof. unfold history. by rewrite foldl_snoc. Qed.

(** The table an operation leaves. *)
Definition op_table (op : map_op) (es : list (QnKey * Z)) : list (QnKey * Z) :=
  match op with Put x y v => put es (key kd x y) v | Cut x y => cut es (key kd x y) end.

Lemma run_op_eq (store : MapStore) p h op :
  store !! p = Some h → header_ok kd h →
  run_op kd p store op = Some (<[p := build (op_table op (table h))]> store).
Proof.
  intros Hp Hh. destruct op as [x y v|x y]; unfold run_op.
  - unfold map_set. fold (key kd x y). by rewrite (store_insert_eq _ _ h) by (done || apply key_of_kind).
  - unfold map_remove. fold (key kd x y). by rewrite (store_remove_eq _ _ h) by (done || apply key_of_kind).
Qed.

Lemma op_table_ok op es : table_ok kd es → table_ok kd (op_table op es).
Proof.
  pose proof key_of_kind. destruct op; simpl; [by apply table_ok_put|by apply table_ok_cut].
Qed.

Lemma get_op_table op es k f :
  of_kind kd k → table_ok kd es → get es k = f k → get (op_table op es) k = step_op kd op f k.
Proof.
  pose proof key_of_kind. intros Hk Hes E. destruct op; simpl; rewrite <-E;
    [by apply get_put|by apply get_cut].
Qed.

(** Any history runs, and leaves the header of the map it stands for. *)
Lemma run_ops_spec (store : MapStore) p ops :
  ∃ h, run_ops kd p (<[p := build []]> store) ops = Some (<[p := h]> store) ∧ header_ok kd h ∧
    ∀ k, of_kind kd k → get (table h) k = history kd ops k.
Proof.
  induction ops as [|op ops (h&Hr&Hh&Hg)] using rev_ind; [by exists (build [])|].
  rewrite run_ops_snoc, Hr, history_snoc. cbn [mbind option_bind].
  rewrite (run_op_eq _ _ h) by (done || apply (lookup_insert_eq (M:=gmap Z))).
  rewrite (insert_insert_eq (M:=gmap Z)).
  exists (build (op_table op (table h))). split_and!; [done| |].
  - apply header_ok_build, op_table_ok, Hh.
  - intros k Hk. apply get_op_table; [done|apply Hh|by apply Hg].
Qed.

(** The slots of a header: each holds an entry of its map, and every key of the map
    has exactly one. *)
Lemma slots_spec (store : MapStore) p h :
  store !! p = Some h → header_ok kd h →
  (∀ i, 0 <= i < len h → ∃ x y v, map_key_a store p i = Some x ∧ map_key_b store p i = Some y ∧
     map_val store p i = Some v ∧ get (table h) (key kd x y) = Some v) ∧
  (∀ k, of_kind kd k → is_Some (get (table h) k) →
     exists! i, 0 <= i < len h ∧ ∃ x y, map_key_a store p i = Some x ∧
       map_key_b store p i = Some y ∧ same k (key kd x y) = true).
Proof.
  intros Hp Hh. pose proof (table_ok_perm _ _ (symmetry (order_perm _ (table h))) (proj1 Hh)) as Hok.
  fold (iter (table h)) in Hok. pose proof (iter_kinds h Hh) as Hf.
  rewrite Forall_fmap, Forall_forall in Hf.
  assert (Z.to_nat (len h) = length (iter (table h))) as Hlen.
  { rewrite (proj2 Hh). simpl. rewrite Nat2Z.id. unfold iter. by rewrite order_perm. }
  assert (∀ i, store_slot store p i
               = (λ e : QnKey * Z, mkEntry (a e.1) (b e.1) e.2) <$> iter (table h) !! Z.to_nat i) as Hs.
  { intros i. unfold store_slot. rewrite Hp. simpl. by apply snapshot_lookup. }
  unfold map_key_a, map_key_b, map_val. split.
  - intros i Hi. rewrite Hs. destruct (lookup_lt_is_Some_2 (iter (table h)) (Z.to_nat i)) as [[k v] E]; [lia|].
    rewrite E. simpl. exists (a k), (b k), v. split_and!; [done..|].
    apply list_elem_of_lookup_2 in E. rewrite (Hf _ E : key kd (a k) (b k) = k).
    apply get_entry; [apply Hh|]. unfold iter in E. by rewrite order_perm in E.
  - intros k Hk [v Hv]. apply get_Some_entry in Hv as (k'&Hin&Hsame).
    rewrite <-(order_perm _ (table h)) in Hin. fold (iter (table h)) in Hin.
    apply list_elem_of_lookup_1 in Hin as [i Hi]. exists (Z.of_nat i).
    pose proof (lookup_lt_Some _ _ _ Hi).
    assert (∀ i k v, iter (table h) !! i = Some (k, v) → key kd (a k) (b k) = k) as Hkey
      by (intros ? k0 v0 ?; by eapply (Hf (k0, v0)), list_elem_of_lookup_2).
    split.
    + split; [lia|]. rewrite Hs, Nat2Z.id, Hi. exists (a k'), (b k'). split_and!; [done..|].
      by rewrite (Hkey _ _ _ Hi).
    + intros j (Hj&x&y&Hx&Hy&Hsame'). rewrite Hs in Hx, Hy.
      destruct (iter (table h) !! Z.to_nat j) as [[k2 v2]|] eqn:Ej; [|done]. simplify_eq/=.
      rewrite (Hkey _ _ _ Ej) in Hsame'.
      pose proof (table_ok_distinct _ _ _ _ _ _ _ k Hk Hok Hi Ej Hsame Hsame'). lia.
Qed.

(** ** Set algebra *)

Section sets.
Implicit Types (store : SetStore) (es : list (QnKey * unit)).

Lemma mem_put es k k' :
  of_kind kd k → of_kind kd k' → table_ok kd es → mem (put es k tt) k' = same k' k || mem es k'.
Proof. intros. unfold mem. rewrite get_put by done. by case_match. Qed.

Lemma mem_same es k k' :
  of_kind kd k → of_kind kd k' → table_ok kd es → same k k' = true → mem es k = mem es k'.
Proof. intros. unfold mem. by rewrite (get_same es k k'). Qed.

(** What a table holds, whatever the order of its iteration. *)
Lemma mem_iter es k : of_kind kd k → table_ok kd es → mem es k = existsb (same k) (fst <$> iter es).
Proof.
  intros Hk Hes. apply eq_bool_prop_intro. unfold mem.
  rewrite !Is_true_true, bool_decide_eq_true, existsb_exists. split.
  - intros [v (k'&Hin&Hs)%get_Some_entry]. exists k'. split; [|done].
    apply list_elem_of_In, list_elem_of_fmap. exists (k', v). split; [done|].
    unfold iter. by rewrite order_perm.
  - intros (k'&([k2 v]&->&Hin)%list_elem_of_In%list_elem_of_fmap&Hs). simpl in Hs.
    unfold iter in Hin. rewrite order_perm in Hin.
    pose proof (table_ok_kinds es Hes) as Hf. rewrite Forall_fmap, Forall_forall in Hf.
    specialize (Hf _ Hin). simpl in Hf. rewrite (get_same es k k2) by done.
    rewrite (get_entry es k2 v) by done. eauto.
Qed.

(** A loop that inserts the keys [p] selects. *)
Lemma fold_select (step : list (QnKey * unit) → QnKey → option (list (QnKey * unit))) p ks es :
  (∀ es k, of_kind kd k → table_ok kd es →
     step es k = Some (if p k : bool then put es k tt else es)) →
  Forall (of_kind kd) ks → table_ok kd es →
  ∃ es', foldl (λ acc k, es ← acc; step es k) (Some es) ks = Some es' ∧ table_ok kd es' ∧
    ∀ k, of_kind kd k → mem es' k = mem es k || existsb (λ k', same k k' && p k') ks.
Proof.
  intros Hstep Hks. revert es. induction Hks as [|k1 ks Hk1 _ IH]; intros es Hes; simpl.
  - exists es. split_and!; [done..|]. intros k _. by rewrite orb_false_r.
  - rewrite Hstep by done. destruct (IH (if p k1 then put es k1 tt else es)) as (es'&Hf&Hok&Hm).
    { destruct (p k1); [by apply table_ok_put|done]. }
    exists es'. split_and!; [done..|]. intros k Hk. rewrite (Hm k Hk). destruct (p k1).
    + rewrite mem_put by done. rewrite andb_true_r. by destruct (same k k1), (mem es k).
    + by rewrite andb_false_r.
Qed.

Lemma holds_mem store p h x y :
  store !! p = Some h → header_ok kd h → holds kd store p x y ↔ mem (table h) (key kd x y) = true.
Proof.
  intros Hp Hh. unfold holds, set_has. fold (key kd x y).
  rewrite (store_has_eq _ _ h) by (done || apply key_of_kind). fold (mem (table h) (key kd x y)).
  by destruct (mem (table h) (key kd x y)).
Qed.

Lemma store_ok_insert store p h : store_ok kd store → header_ok kd h → store_ok kd (<[p := h]> store).
Proof. intros Hs Hh q h' [[-> <-]|[_ Hq]]%lookup_insert_Some; [done|by eapply Hs]. Qed.

(** A freshly allocated table. *)
Lemma builds_alloc store es P :
  store_ok kd store → table_ok kd es →
  (∀ x y, mem es (key kd x y) = true ↔ P x y) →
  builds kd store (Some (alloc store (build es))) P.
Proof.
  intros Hs Hes HP. unfold alloc.
  exists (<[fresh_address store := build es]> store), (fresh_address store).
  pose proof (header_ok_build es Hes) as Hh. split_and!; [done|apply fresh_address_None| | |].
  - apply insert_subseteq, fresh_address_None.
  - by apply store_ok_insert.
  - intros x y. rewrite (holds_mem _ _ (build es)); [apply HP|apply (lookup_insert_eq (M:=gmap Z))|done].
Qed.

(** A table put back where it was read. *)
Lemma updates_insert store p es P :
  store_ok kd store → table_ok kd es →
  (∀ x y, mem es (key kd x y) = true ↔ P x y) →
  updates kd store p (Some (<[p := build es]> store, p)) P.
Proof.
  intros Hs Hes HP. pose proof (header_ok_build es Hes) as Hh.
  exists (<[p := build es]> store). split_and!; [done| |by apply store_ok_insert|].
  - intros q Hq. by apply (lookup_insert_ne (M:=gmap Z)).
  - intros x y. rewrite (holds_mem _ _ (build es)); [apply HP|apply (lookup_insert_eq (M:=gmap Z))|done].
Qed.

Lemma set_filter_builds store left right l r keep :
  store_ok kd store → store !! left = Some l → store !! right = Some r →
  builds kd store (set_filter store left right keep)
    (λ x y, holds kd store left x y ∧ mem (table r) (key kd x y) = keep).
Proof.
  intros Hs Hl Hr. pose proof (Hs _ _ Hl) as Hokl. pose proof (Hs _ _ Hr) as Hokr.
  unfold set_filter. rewrite Hl, Hr. cbn [mbind option_bind].
  destruct (fold_select (keep_key (table r) keep) (λ k, eqb (mem (table r) k) keep)
              (fst <$> iter (table l)) []) as (es&Hf&Hes&Hm);
    [|by apply iter_kinds|done|].
  { intros es k Hk Hes. unfold keep_key. rewrite table_contains_eq by (done || apply Hokr).
    fold (mem (table r) k). simpl. case_match; [|done]. by rewrite table_insert_eq. }
  rewrite Hf. cbn [mbind option_bind]. apply builds_alloc; [done..|].
  intros x y. pose proof (key_of_kind kd x y) as Hk. rewrite (Hm _ Hk), (holds_mem _ _ l) by done.
  rewrite (mem_iter (table l)) by (done || apply Hokl).
  change (mem [] _) with false. rewrite orb_false_l, !existsb_exists.
  pose proof (iter_kinds l Hokl) as Hkinds. rewrite Forall_forall in Hkinds.
  split.
  - intros (k'&Hin&[Hs1 Hs2]%andb_true_iff). split; [by exists k'|].
    apply eqb_prop in Hs2. rewrite <-Hs2.
    apply mem_same; try done; [|apply Hokr]. apply Hkinds. by apply list_elem_of_In.
  - intros ((k'&Hin&Hs1)&Hs2). exists k'. split; [done|]. rewrite Hs1. simpl.
    rewrite <-(mem_same _ (key kd x y)), Hs2; try done; [by destruct keep| |apply Hokr].
    apply Hkinds. by apply list_elem_of_In.
Qed.

End sets.

(** * Theorems *)

(** C36: A [Map] is the finite map its history says.  Whatever sets and removals
    are made through a fresh map's pointer none of them panics (the debug build's
    consistency scan included), [get] and [has] answer for every key the value of
    the last operation on an equal key, the snapshot behind [keys], [values] and
    [each] lists each key that is present exactly once, with its value, in as many
    slots as [len] says, and no other header changes. *)
Theorem map_refines (store : MapStore) (ops : list map_op) :
  let (store0, p) := map_new store in
  let hash := kind_hash kd in
  let eq := kind_eq kd in
  ∃ store', run_ops kd p store0 ops = Some store' ∧
    (∀ x y, map_get store' p (kind_tag kd) x y hash eq
       = Some (match history kd ops (key kd x y) with Some v => (v, 1) | None => (0, 0) end)) ∧
    (∀ x y, map_has store' p (kind_tag kd) x y hash eq
       = Some (if bool_decide (is_Some (history kd ops (key kd x y))) then 1 else 0)) ∧
    (∃ n, map_len store' p = Some n ∧
       (∀ i, 0 <= i < n → ∃ x y v, map_key_a store' p i = Some x ∧ map_key_b store' p i = Some y ∧
          map_val store' p i = Some v ∧ history kd ops (key kd x y) = Some v) ∧
       (∀ x y, is_Some (history kd ops (key kd x y)) →
          exists! i, 0 <= i < n ∧ ∃ x' y', map_key_a store' p i = Some x' ∧
            map_key_b store' p i = Some y' ∧ same (key kd x y) (key kd x' y') = true)) ∧
    ∀ q, q ≠ p → store' !! q = store !! q.
Proof.
  unfold map_new, store_new, alloc. set (p := fresh_address store).
  destruct (run_ops_spec store p ops) as (h&Hr&Hh&Hg).
  exists (<[p := h]> store). split; [done|].
  assert (<[p := h]> store !! p = Some h) as Hp by apply (lookup_insert_eq (M:=gmap Z)).
  split_and!.
  - intros x y. unfold map_get. rewrite Hp. simpl. fold (key kd x y).
    rewrite table_get_eq by (apply key_of_kind || apply Hh). simpl.
    by rewrite Hg by apply key_of_kind.
  - intros x y. unfold map_has. fold (key kd x y).
    rewrite (store_has_eq _ _ h) by (done || apply key_of_kind).
    by rewrite Hg by apply key_of_kind.
  - destruct (slots_spec _ _ _ Hp Hh) as [Hslot Hex]. exists (len h).
    split; [unfold map_len, store_len; by rewrite Hp|]. split.
    + intros i Hi. destruct (Hslot i Hi) as (x&y&v&?&?&?&Hv). exists x, y, v.
      by rewrite <-Hg by apply key_of_kind.
    + intros x y Hsome. apply Hex; [apply key_of_kind|]. by rewrite Hg by apply key_of_kind.
  - intros q Hq. by apply (lookup_insert_ne (M:=gmap Z)).
Qed.

(** [Set] is a set.  On a store of sets of one kind of keys: [add] and [remove]
    change the set they are given, in place, by exactly the elements equal to
    theirs; [+], [-] and [+-] build a new set of exactly the union, the difference
    and the intersection; nothing panics, no other set changes, and every header
    stays well formed. *)
Theorem set_algebra (store : SetStore) (left right : Z)
    (Hok : store_ok kd store) (Hl : is_Some (store !! left)) (Hr : is_Some (store !! right)) :
  let hash := kind_hash kd in
  let eq := kind_eq kd in
  let L := holds kd store left in
  let R := holds kd store right in
  (∀ x y, updates kd store left (set_add store left (kind_tag kd) x y hash eq)
     (λ x' y', same (key kd x' y') (key kd x y) = true ∨ L x' y')) ∧
  (∀ x y, updates kd store left (set_remove store left (kind_tag kd) x y hash eq)
     (λ x' y', same (key kd x' y') (key kd x y) = false ∧ L x' y')) ∧
  builds kd store (set_union store left right) (λ x y, L x y ∨ R x y) ∧
  builds kd store (set_diff store left right) (λ x y, L x y ∧ ¬ R x y) ∧
  builds kd store (set_intersect store left right) (λ x y, L x y ∧ R x y).
Proof.
  destruct Hl as [l Hl], Hr as [r Hr]. pose proof (Hok _ _ Hl) as Hokl. pose proof (Hok _ _ Hr) as Hokr.
  pose proof (key_of_kind kd) as Hk. intros hash eq L R. subst hash eq. split_and!.
  - intros x y. unfold set_add. fold (key kd x y). rewrite (store_insert_eq _ _ l) by done.
    apply updates_insert; [done|by apply table_ok_put, Hokl|]. intros x' y'. unfold L.
    by rewrite mem_put, orb_true_iff, (holds_mem _ _ l) by (done || apply Hokl).
  - intros x y. unfold set_remove. fold (key kd x y). rewrite (store_remove_eq _ _ l) by done.
    apply updates_insert; [done|by apply table_ok_cut, Hokl|]. intros x' y'. unfold L.
    rewrite (holds_mem _ _ l) by done. unfold mem. rewrite get_cut by (done || apply Hokl).
    by destruct (same _ _); naive_solver.
  - unfold set_union. rewrite Hl, Hr. cbn [mbind option_bind].
    destruct (fold_select (λ es k, table_insert es k tt) (λ _, true) (fst <$> iter (table r)) (table l))
      as (es&Hf&Hes&Hm); [by intros; rewrite table_insert_eq|by apply iter_kinds|apply Hokl|].
    rewrite Hf. cbn [mbind option_bind]. apply builds_alloc; [done..|]. intros x y. unfold L, R.
    rewrite (Hm _ (Hk x y)), (holds_mem store left l), (holds_mem store right r) by done.
    rewrite (mem_iter (table r)) by (done || apply Hokr). rewrite orb_true_iff, !existsb_exists.
    by setoid_rewrite andb_true_r.
  - destruct (set_filter_builds store left right l r false) as (store'&s&?&?&?&?&HP); [done..|].
    exists store', s. split_and!; [done..|]. intros x y. rewrite HP. unfold L, R.
    by rewrite (holds_mem store right r), not_true_iff_false by done.
  - destruct (set_filter_builds store left right l r true) as (store'&s&?&?&?&?&HP); [done..|].
    exists store', s. split_and!; [done..|]. intros x y. rewrite HP. unfold L, R.
    by rewrite (holds_mem store right r) by done.
Qed.

End laws.

(** A [Num] key is equal to another exactly when the language's [==] holds of
    the two doubles, or both are NaN; and the keys hash alike exactly when they
    are equal, so a lookup finds [-0.0] under [0.0] and a NaN under any other. *)
Theorem num_key_eq (x y : Z) :
  (key_eq (key KNum x 0) (key KNum y 0) = Some true ↔
     SFeqb (f64_from_bits (u64 x)) (f64_from_bits (u64 y)) = true ∨
     f64_from_bits (u64 x) = S754_nan ∧ f64_from_bits (u64 y) = S754_nan) ∧
  (key_hash (key KNum x 0) = key_hash (key KNum y 0) ↔
     key_eq (key KNum x 0) (key KNum y 0) = Some true).
Proof.
  rewrite <-canonical_num_bits_eq by apply u64_range.
  assert (key_eq (key KNum x 0) (key KNum y 0) = Some true
          ↔ canonical_num_bits (u64 x) = canonical_num_bits (u64 y)) as Hk.
  { unfold key_eq, key, new. simpl. split; [intros [= H]; by apply Z.eqb_eq|intros H; by rewrite H, Z.eqb_refl]. }
  split; [done|]. rewrite Hk. unfold key_hash, key, new. simpl.
  split; [intros H; by injection H|by intros ->].
Qed.

End collections.

(** ** Witnesses: a key type whose [==] and [%] look at the last digit *)

Definition digit_bytes (p n : Z) : list Z := [].
Definition digit_hash (hash_fn x : Z) : Z := x mod 10.
Definition digit_eq (eq_fn x y : Z) : Z := if x mod 10 =? y mod 10 then 1 else 0.
Definition backwards (V : Type) (entries : list (QnKey * V)) : list (QnKey * V) := reverse entries.

Definition sample_ops : list map_op := [Put 13 0 100; Put 7 0 200; Put 23 0 300; Cut 17 0].

Lemma digit_lawful : lawful digit_hash digit_eq (KUser 8 16).
Proof.
  unfold lawful, digit_eq, digit_hash. split_and!; [done..| | | |].
  - intros x. by rewrite Z.eqb_refl.
  - intros x y. by rewrite Z.eqb_sym.
  - intros x y z. repeat case_match; unbool; congruence.
  - intros x y. case_match; unbool; congruence.
Qed.

Lemma backwards_perm V l : backwards V l ≡ₚ l.
Proof. apply reverse_Permutation. Qed.

Example map_refines_witness :
  lawful digit_hash digit_eq (KUser 8 16) ∧ (∀ V l, backwards V l ≡ₚ l) ∧
  ∃ store', run_ops true digit_bytes digit_hash digit_eq backwards (KUser 8 16) 1
      (map_new backwards ∅).1 sample_ops = Some store' ∧
    map_get digit_bytes digit_hash digit_eq store' 1 3 43 0 8 16 = Some (300, 1) ∧
    map_get digit_bytes digit_hash digit_eq store' 1 3 7 0 8 16 = Some (0, 0).
Proof.
  split; [exact digit_lawful|]. split; [exact backwards_perm|].
  destruct (map_refines true digit_bytes digit_hash digit_eq backwards (KUser 8 16) digit_lawful
              backwards_perm ∅ sample_ops) as (store'&Hr&Hg&_).
  exists store'. split; [exact Hr|].
  split; [refine (eq_trans (Hg 43 0) _)|refine (eq_trans (Hg 7 0) _)]; vm_compute; reflexivity.
Defined.

(** Two sets of digits. *)
Definition digit_set (xs : list Z) : Header unit :=
  build backwards ((λ x, (key (KUser 8 16) x 0, tt)) <$> xs).
Definition sample_sets : SetStore := <[1 := digit_set [1; 2; 3]]> (<[2 := digit_set [2; 13]]> ∅).

Lemma sample_sets_ok : store_ok digit_bytes digit_eq backwards (KUser 8 16) sample_sets.
Proof.
  apply store_ok_insert; [apply store_ok_insert|].
  - intros p header Hp. by rewrite lookup_empty in Hp.
  - split; [vm_compute; repeat split|done].
  - split; [vm_compute; repeat split|done].
Qed.

Example set_algebra_witness :
  store_ok digit_bytes digit_eq backwards (KUser 8 16) sample_sets ∧
  is_Some (sample_sets !! 1) ∧ is_Some (sample_sets !! 2) ∧
  ∃ store' s, set_intersect digit_bytes digit_hash digit_eq backwards sample_sets 1 2
                = Some (store', s) ∧
    holds digit_bytes digit_hash digit_eq (KUser 8 16) store' s 33 0 ∧
    ¬ holds digit_bytes digit_hash digit_eq (KUser 8 16) store' s 1 0.
Proof.
  assert (is_Some (sample_sets !! 1)) as H1 by (vm_compute; eexists; reflexivity).
  assert (is_Some (sample_sets !! 2)) as H2 by (vm_compute; eexists; reflexivity).
  split; [exact sample_sets_ok|]. split; [exact H1|]. split; [exact H2|].
  destruct (set_algebra true digit_bytes digit_hash digit_eq backwards (KUser 8 16) digit_lawful
              backwards_perm sample_sets 1 2 sample_sets_ok H1 H2)
    as (_&_&_&_&(store'&s&He&_&_&_&Hh)).
  exists store', s. split; [exact He|]. split.
  - apply Hh. vm_compute. split; reflexivity.
  - rewrite Hh. intros [_ Hr]. vm_compute in Hr. discriminate Hr.
Defined.
