(* ===== verification/Aliasing.v ===== *)
(** * Deep immutability: [typechecker/checker/aliasing.rs]

    Which bindings an expression's value may alias, the classification of a
    declaration's result and its substitution at a call, and the gates that keep
    a value from being reached through both an [=] and a [:=] binding.  Proved:
    classifying a body and substituting a call's arguments gives exactly what the
    body's value aliases beyond the declaration, its parameters replaced by what
    the arguments alias; a store gate passes exactly when nothing frozen is
    stored. *)

From S2P Require Import Prelude Bytes Token Ast TypeMatch TypeErrors Env Checker.
Open Scope Z_scope.

(** A type whose values are shared by reference. *)
Fixpoint is_reference_type (ty : Ty) : bool :=
  match ty with
  | Ty.Named _ _ _ | Ty.Record _ | Ty.Array _ | Ty.Set_ _ | Ty.Map _ _ => true
  | Ty.Sum _ variants =>
      existsb (λ variant,
        existsb (λ field, match field with
                          | Ty.Sum _ [] => true
                          | _ => is_reference_type field
                          end) (variant_fields variant)) variants
  | _ => false
  end.

Definition merge_all (l : list ValueAliasing) : ValueAliasing := foldl merge no_aliasing l.

(** What [f] gives for the expression a block ends in. *)
Definition block_value {A} (f : Expression → A) (otherwise : A) : list (Statement Expression) → A :=
  fix go statements :=
    match statements with
    | [] => otherwise
    | [StatementExpression last] => f last
    | [_] => otherwise
    | _ :: statements => go statements
    end.

(** The first name that owns a variant; the registry is a [HashMap], so "first"
    is any order unless at most one sum has it. *)
Definition owns_variant (variant : string) (sum : string * Ty) : bool :=
  match sum.2 with
  | Ty.Sum _ variants => existsb (λ v, bool_decide (variant_name v = variant)) variants
  | _ => false
  end.
Definition variant_owner (c : TypeChecker) (variant : string) : option (string * Ty) :=
  snd <$> list_find (λ sum, owns_variant variant sum = true) (map_to_list (sum_types c)).
Definition sum_variant_owner (c : TypeChecker) (variant : string) : option string :=
  fst <$> variant_owner c variant.

(** The member of an overload set a call's types pick: the first that accepts. *)
Definition first_accepting (set : list Overload) (arg_types : list Ty) : option Overload :=
  snd <$> list_find (λ o, parameters_accept (overload_parameters o) arg_types types_match = true) set.

Definition callback_argument_slot (name : string) : option nat :=
  if bool_decide (name = "map") then Some 1%nat
  else if bool_decide (name = "reduce") then Some 2%nat else None.

(** Every argument's aliasing, for a callee that says nothing. *)
Definition every_argument_aliasing (values : list ValueAliasing) : ValueAliasing := merge_all values.

(** The arguments are what the code computes from each: [values], what it aliases,
    and [callables], what calling it does. *)
Definition apply_result_aliasing (r : ResultAliasing) (values : list ValueAliasing)
    (callables : list ResultAliasing) : ValueAliasing :=
  let out := foldl (λ out slot, match values !! slot with Some v => merge out v | None => out end)
               (fixed r) (argument_slots r) in
  foldl (λ out slot, match callables !! slot with Some v => merge out (fixed v) | None => out end)
    out (called_argument_slots r).

Section of_checker.
Variable c : TypeChecker.

Definition type_at (span : Span) : option Ty := type_table c !! span.

Definition spread_shares_fields (source : Expression) : bool :=
  match type_at (expression_span source) with
  | Some (Ty.Named _ fields _) | Some (Ty.Record fields) => existsb (λ f, is_reference_type f.2) fields
  | _ => false
  end.

Definition identifier_aliasing (name : string) : ValueAliasing :=
  match lookup (env c) name with
  | None => no_aliasing
  | Some symbol =>
      if constant symbol then no_aliasing
      else if setter_receiver symbol then mkValueAliasing [(owner symbol, name)] [] [] [] true
      else
        let out := value_aliasing symbol in
        if symbol_mutable symbol
        then merge out (mkValueAliasing [(owner symbol, name)] [] [] [] false)
        else merge out (mkValueAliasing [] [(owner symbol, name)] [] [] false)
  end.

(** What calling the value a name is bound to may alias. *)
Definition callable_identifier_aliasing (name : string) : ResultAliasing :=
  match lookup (env c) name with
  | None => fresh_result
  | Some symbol =>
      match symbol_result_aliasing symbol with
      | Some result => result
      | None =>
          mkResultAliasing
            (mkValueAliasing [] [] [] (aliased_parameters (value_aliasing symbol)) false) [] []
      end
  end.

Definition operator_member_aliasing (operator_name : string) (left_ right_ : Expression)
    : option ResultAliasing :=
  left_type ← type_at (expression_span left_);
  right_type ← type_at (expression_span right_);
  set ← overloads c !! operator_name;
  member ← first_accepting set [left_type; right_type];
  overload_aliasing member.

Definition builtin_collection_method_slots (name : string) (receiver_type : Ty)
    (arguments : list Expression) : list nat :=
  if bool_decide (name ∈ ["each"; "set"; "add"; "remove"]) then [0%nat]
  else
    let shared_type :=
      match receiver_type with
      | Ty.Array elem => if bool_decide (name ∈ ["filter"; "at"; "find"]) then Some elem else None
      | Ty.Map key value =>
          if bool_decide (name = "keys") then Some key
          else if bool_decide (name ∈ ["values"; "get"]) then Some value else None
      | Ty.Set_ elem => if bool_decide (name = "items") then Some elem else None
      | _ => None
      end in
    let shared_type :=
      match shared_type with
      | Some ty => Some ty
      | None =>
          if bool_decide (name = "map") then
            match arguments !! 1%nat with
            | Some (Expression.Lambda _ _ body _) => type_at (expression_span body)
            | _ => None
            end
          else if bool_decide (name = "reduce") then
            init ← arguments !! 1%nat; type_at (expression_span init)
          else None
      end in
    let slot := if bool_decide (name = "reduce") then 1%nat else 0%nat in
    match shared_type with
    | Some ty => if is_reference_type ty then [slot] else []
    | None => []
    end.

(** [None] when an argument has no type yet. *)
Definition argument_types (arguments : list Expression) : option (list Ty) :=
  mapM (λ argument, type_at (expression_span argument)) arguments.

(** [callable] is what calling the callee aliases. *)
Definition call_result_aliasing (function : Expression) (arguments : list Expression)
    (member_call : bool) (callable : ResultAliasing) (values : list ValueAliasing)
    (callables : list ResultAliasing) : ValueAliasing :=
  let every := every_argument_aliasing values in
  match function with
  | Expression.Identifier name _ =>
      if member_call then
        match receiver ← head arguments; type_at (expression_span receiver) with
        | Some (Ty.Named type_name _ _) | Some (Ty.Sum type_name _) =>
            apply_result_aliasing
              (default fresh_result (method_result_aliasing c !! (type_name, name))) values callables
        | Some ((Ty.Array _ | Ty.Map _ _ | Ty.Set_ _) as receiver_type) =>
            let out := apply_result_aliasing
              (mkResultAliasing no_aliasing
                 (builtin_collection_method_slots name receiver_type arguments) []) values callables in
            match slot ← callback_argument_slot name; callables !! slot with
            | Some callback => merge out (fixed callback)
            | None => out
            end
        | Some Ty.Text => no_aliasing
        | _ => every
        end
      else if bool_decide (is_Some (sum_variant_owner c name)) then every
      else
        match overloads c !! name with
        | Some set =>
            match arg_types ← argument_types arguments; first_accepting set arg_types with
            | Some member =>
                match overload_aliasing member with
                | Some result => apply_result_aliasing result values callables
                | None => every
                end
            | None => every
            end
        | None =>
            match symbol ← lookup (env c) name; symbol_result_aliasing symbol with
            | Some result => apply_result_aliasing result values callables
            | None => merge (fixed callable) every
            end
        end
  | _ => merge (fixed callable) every
  end.

Definition is_reference_at (span : Span) : bool :=
  match type_at span with Some ty => is_reference_type ty | None => false end.

(** [value_aliasing] and [callable_result_aliasing]. *)
Fixpoint expression_aliasing (expression : Expression) : ValueAliasing :=
  if negb (is_reference_at (expression_span expression)) then no_aliasing
  else
    match expression with
    | Expression.Identifier name _ => identifier_aliasing name
    | Expression.FieldAccess e _ _ | Expression.Index e _ _ | Expression.Spread e _ =>
        expression_aliasing e
    | Expression.Array elements _ | Expression.SetLiteral elements _ =>
        merge_all (map expression_aliasing elements)
    | Expression.MapLiteral entries _ =>
        merge_all (map (λ entry, merge (expression_aliasing entry.1) (expression_aliasing entry.2)) entries)
    | Expression.Record fields _ | Expression.Constructor _ fields _ =>
        merge_all (map (λ field,
          match field.2 with
          | Expression.Spread source _ =>
              if spread_shares_fields source then expression_aliasing source else no_aliasing
          | _ => expression_aliasing field.2
          end) fields)
    | Expression.Call function arguments member_call _ =>
        call_result_aliasing function arguments member_call (callable_result_aliasing function)
          (map expression_aliasing arguments) (map callable_result_aliasing arguments)
    | Expression.BinaryOperator left_ operator right_ _ =>
        match operator_member_aliasing (symbol operator) left_ right_ with
        | Some result =>
            apply_result_aliasing result [expression_aliasing left_; expression_aliasing right_]
              [callable_result_aliasing left_; callable_result_aliasing right_]
        | None => merge (expression_aliasing left_) (expression_aliasing right_)
        end
    | Expression.If _ then_ else_ _ => merge (expression_aliasing then_) (expression_aliasing else_)
    | Expression.Match _ _ span => default no_aliasing (match_aliasing c !! span)
    | Expression.Block statements _ => block_value expression_aliasing no_aliasing statements
    | _ => no_aliasing
    end
with callable_result_aliasing (expression : Expression) : ResultAliasing :=
  match expression with
  | Expression.Lambda _ _ body _ =>
      default fresh_result (lambda_result_aliasing c !! expression_span body)
  | Expression.Identifier name _ => callable_identifier_aliasing name
  | Expression.Block statements _ => block_value callable_result_aliasing fresh_result statements
  | Expression.If _ then_ else_ _ =>
      let result := callable_result_aliasing then_ in
      let other := callable_result_aliasing else_ in
      mkResultAliasing (merge (fixed result) (fixed other))
        (argument_slots result ++ argument_slots other)
        (called_argument_slots result ++ called_argument_slots other)
  | Expression.Call function arguments _ _ =>
      mkResultAliasing
        (apply_result_aliasing (callable_result_aliasing function)
           (map expression_aliasing arguments) (map callable_result_aliasing arguments)) [] []
  | _ => fresh_result
  end.
End of_checker.

(** ** Classifying a declaration's result *)

(** The entries of parameters: this declaration's slots, and an outer one's kept. *)
Definition own_slots (current : Z) (parameters : list (Z * nat * string)) : list nat :=
  omap (λ p, if p.1.1 =? current then Some p.1.2 else None) parameters.
Definition outer_parameters (current : Z) (parameters : list (Z * nat * string))
    : list (Z * nat * string) :=
  filter (λ p, (p.1.1 <? current) = true) parameters.

Definition reclassify_returned_closure (c : TypeChecker) (inner : ResultAliasing) : ResultAliasing :=
  let current := current_declaration c in
  let parameters := aliased_parameters (fixed inner) in
  let resolved := omap (λ p, if p.1.1 =? current then Some (p.1.1, p.2) else None) parameters in
  mkResultAliasing
    (mkValueAliasing
       (filter (λ entry, entry ∉ resolved) (aliased_mutable (fixed inner)))
       (filter (λ entry, entry ∉ resolved) (aliased_immutable (fixed inner)))
       (outer_parameters current parameters)
       (outer_parameters current (called_parameters (fixed inner))) false)
    (own_slots current parameters)
    (own_slots current (called_parameters (fixed inner))).

Definition classify (current : Z) (aliasing : ValueAliasing) : ResultAliasing :=
  mkResultAliasing
    (mkValueAliasing
       (filter (λ entry, (entry.1 <? current) = true) (aliased_mutable aliasing))
       (filter (λ entry, (entry.1 <? current) = true) (aliased_immutable aliasing))
       (outer_parameters current (aliased_parameters aliasing))
       (outer_parameters current (called_parameters aliasing)) false)
    (own_slots current (aliased_parameters aliasing))
    (own_slots current (called_parameters aliasing)).

Definition declaration_result_aliasing (c : TypeChecker) (body : Expression) (return_type : Ty)
    : ResultAliasing :=
  if negb (is_reference_type return_type) then fresh_result
  else classify (current_declaration c) (expression_aliasing c body).

(** A body that is itself a closure is classified by what calling it aliases. *)
Definition body_result_aliasing (c : TypeChecker) (body : Expression) (body_type : Ty)
    : ResultAliasing :=
  match body_type with
  | Ty.Function _ _ => reclassify_returned_closure c (callable_result_aliasing c body)
  | _ => declaration_result_aliasing c body body_type
  end.

#[export] Instance ValueAliasing_eq_dec : EqDecision ValueAliasing.
Proof. solve_decision. Defined.
#[export] Instance ResultAliasing_eq_dec : EqDecision ResultAliasing.
Proof. solve_decision. Defined.

Definition record_lambda_result_aliasing (c : TypeChecker) (body : Expression) (body_type : Ty)
    : TypeChecker :=
  let captured := body_result_aliasing c body body_type in
  if decide (captured = fresh_result) then c
  else with_lambda_result_aliasing c
         (<[expression_span body := captured]> (lambda_result_aliasing c)).

(** ** The gates *)

Definition immutable_write_witness (c : TypeChecker) (receiver : Expression) : option string :=
  fst <$> immutable_witness (expression_aliasing c receiver).

Definition check_store_not_crossing (c : TypeChecker) (value : Expression) (span : Span)
    : result TypeError unit :=
  match immutable_witness (expression_aliasing c value) with
  | Some (witness, parameter) => Err (Te.MutableStoreOfImmutable witness parameter span)
  | None => Ok tt
  end.

(** ** Facts of merging *)

(** What a value may alias, as one predicate over the entries. *)
Inductive Entry : Type :=
| MutableEntry (owner : Z) (name : string)
| ImmutableEntry (owner : Z) (name : string)
| ParameterEntry (declaration : Z) (slot : nat) (name : string)
| CalledEntry (declaration : Z) (slot : nat) (name : string).

Definition aliases (a : ValueAliasing) (e : Entry) : Prop :=
  match e with
  | MutableEntry o n => (o, n) ∈ aliased_mutable a
  | ImmutableEntry o n => (o, n) ∈ aliased_immutable a
  | ParameterEntry d s n => (d, s, n) ∈ aliased_parameters a
  | CalledEntry d s n => (d, s, n) ∈ called_parameters a
  end.

Lemma aliases_merge a b e : aliases (merge a b) e ↔ aliases a e ∨ aliases b e.
Proof. destruct e; simpl; by rewrite elem_of_app. Qed.

Lemma aliases_none e : ¬ aliases no_aliasing e.
Proof. destruct e; simpl; apply not_elem_of_nil. Qed.

Lemma aliases_slots {A} (f : A → ValueAliasing) (xs : list A) slots out e :
  aliases (foldl (λ out slot, match xs !! slot with Some x => merge out (f x) | None => out end) out slots) e
  ↔ aliases out e ∨ ∃ slot x, slot ∈ slots ∧ xs !! slot = Some x ∧ aliases (f x) e.
Proof.
  revert out. induction slots as [|slot slots IH]; intros out; simpl.
  - split; [by left|]. intros [?|(slot&x&Hs&_)]; [done|]. by apply elem_of_nil in Hs.
  - rewrite IH. split.
    + intros [H|(s&x&?&?&?)]; [|right; exists s, x; by split_and!; [right|..]].
      destruct (xs !! slot) as [x|] eqn:E; [|by left].
      apply aliases_merge in H as [H|H]; [by left|right; exists slot, x; by split_and!; [left|..]].
    + intros [H|(s&x&[->|Hs]%elem_of_cons&Hx&He)].
      * left. destruct (xs !! slot); [apply aliases_merge; by left|done].
      * left. rewrite Hx. apply aliases_merge. by right.
      * right. by exists s, x.
Qed.

Lemma aliases_apply r values callables e :
  aliases (apply_result_aliasing r values callables) e ↔
  aliases (fixed r) e
  ∨ (∃ slot v, slot ∈ argument_slots r ∧ values !! slot = Some v ∧ aliases v e)
  ∨ (∃ slot v, slot ∈ called_argument_slots r ∧ callables !! slot = Some v ∧ aliases (fixed v) e).
Proof.
  unfold apply_result_aliasing.
  rewrite (aliases_slots fixed), (aliases_slots (λ v, v)). tauto.
Qed.

Lemma elem_own_slots current ps slot : slot ∈ own_slots current ps ↔ ∃ name, (current, slot, name) ∈ ps.
Proof.
  unfold own_slots. rewrite list_elem_of_omap. split.
  - intros ([[d s] n]&Hin&E). simpl in E. case_match eqn:Ed; [|done]. unbool. injection E as ->.
    subst. by exists n.
  - intros [n Hin]. exists (current, slot, n). simpl. by rewrite Z.eqb_refl.
Qed.

(** What an entry of a body says about the caller: its declaration's own bindings
    are gone, an outer declaration's stay. *)
Definition outlives (current : Z) (e : Entry) : Prop :=
  match e with
  | MutableEntry o _ | ImmutableEntry o _ => o < current
  | ParameterEntry d _ _ | CalledEntry d _ _ => d < current
  end.

Lemma aliases_classify current a e :
  aliases (fixed (classify current a)) e ↔ aliases a e ∧ outlives current e.
Proof.
  destruct e; simpl; unfold outer_parameters; rewrite list_elem_of_filter, Z.ltb_lt; tauto.
Qed.

(** C99: the result of a call to a classified declaration may alias exactly what
    its body's value aliases beyond the declaration, each of its own parameters
    replaced by what the argument passed for it aliases, and each parameter it
    calls by what calling that argument aliases; its locals are gone. *)
Theorem classified_call (current : Z) (body : ValueAliasing) (values : list ValueAliasing)
    (callables : list ResultAliasing) (e : Entry) :
  aliases (apply_result_aliasing (classify current body) values callables) e ↔
  (aliases body e ∧ outlives current e)
  ∨ (∃ slot name v, aliases body (ParameterEntry current slot name) ∧ values !! slot = Some v ∧ aliases v e)
  ∨ (∃ slot name v, aliases body (CalledEntry current slot name) ∧ callables !! slot = Some v ∧
       aliases (fixed v) e).
Proof.
  rewrite aliases_apply, aliases_classify. unfold classify. simpl.
  setoid_rewrite elem_own_slots. naive_solver.
Qed.

(** The gates by entry. *)
Lemma immutable_witness_None a :
  immutable_witness a = None ↔ aliased_parameters a = [] ∧ aliased_immutable a = [].
Proof.
  unfold immutable_witness. destruct (aliased_parameters a) as [|[[??]?] ?]; simpl; [|naive_solver].
  destruct (aliased_immutable a) as [|[??] ?]; simpl; naive_solver.
Qed.
Lemma mutable_witness_None a : mutable_witness a = None ↔ aliased_mutable a = [].
Proof. unfold mutable_witness. destruct (aliased_mutable a); simpl; naive_solver. Qed.
