(* ===== verification/Declarations.v ===== *)
(** * Declarations: [typechecker/checker/declarations.rs]

    Checking bindings, functions, lambdas and types with their methods, given how
    expressions are inferred: [infer_expression] and [infer_argument] are the rest
    of the checker, one level down, and their errors include running out of the
    fuel that bounds the recursion. *)

From S2P Require Import Prelude Bytes Num Token Ast TypeMatch TypeErrors Env Checker Overloads Walk Aliasing.

(** Where a declaration sits. *)
Inductive Nesting : Type := TopLevel | Nested.

(** ** Receiver analyses *)

Fixpoint field_path_root_name (target : Expression) : option string :=
  match target with
  | Expression.FieldAccess expression _ _ | Expression.Index expression _ _ =>
      field_path_root_name expression
  | Expression.Identifier name _ => Some name
  | _ => None
  end.

Definition is_receiver (e : Expression) : bool :=
  match e with Expression.Identifier name _ => bool_decide (name = RECEIVER) | _ => false end.

Definition node_mutates_receiver (c : TypeChecker) (type_name : string) (expression : Expression) : bool :=
  match expression with
  | Expression.FieldAssign target _ _ | Expression.IndexAssign target _ _ =>
      bool_decide (field_path_root_name target = Some RECEIVER)
  | Expression.Call (Expression.Identifier name _) (receiver :: _) _ _ =>
      is_receiver receiver && bool_decide ((type_name, name) ∈ setter_methods c)
  | _ => false
  end.

(** [find_in expression found]: the first node in pre-order [found] answers for. *)
Definition find_in {B} (found : Expression → option B) (expression : Expression) : option B :=
  match try_for_each_subexpression
          (λ e (_ : unit), match found e with Some b => Break b tt | None => Continue tt end)
          expression tt with
  | Break b _ => Some b
  | Continue _ => None
  end.

Definition body_mutates_receiver (c : TypeChecker) (type_name : string) (body : Expression) : option Span :=
  find_in (λ e, if node_mutates_receiver c type_name e then Some (expression_span e) else None) body.

Definition body_references_receiver (body : Expression) : bool :=
  bool_decide (is_Some (find_in (λ e, if is_receiver e then Some tt else None) body)).

Definition body_has_lambda_parameter_named_receiver (body : Expression) : bool :=
  bool_decide (is_Some (find_in (λ e,
    match e with
    | Expression.Lambda parameters _ _ _ =>
        if existsb (λ p, bool_decide (parameter_name p = RECEIVER)) parameters then Some tt else None
    | _ => None
    end) body)).

(** [record_stored_slot]. *)
Definition record_stored_slot (c : TypeChecker) (value : Expression) (slots : gset nat) : gset nat :=
  list_to_set (own_slots (current_declaration c) (aliased_parameters (expression_aliasing c value))) ∪ slots.

Fixpoint record_nested_slots (c : TypeChecker) (stored : gset nat) (slot : nat) (arguments : list Expression)
    (slots : gset nat) : gset nat :=
  match arguments with
  | [] => slots
  | argument :: rest =>
      record_nested_slots c stored (S slot) rest
        (if bool_decide (slot ∈ stored) then record_stored_slot c argument slots else slots)
  end.

Definition stored_slots_at (c : TypeChecker) (expression : Expression) (slots : gset nat) : gset nat :=
  match expression with
  | Expression.FieldAssign (Expression.FieldAccess base _ _) value _ =>
      if reaches_setter_receiver (expression_aliasing c base)
      then record_stored_slot c value slots else slots
  | Expression.Call (Expression.Identifier method _) (receiver :: rest) true _ =>
      if reaches_setter_receiver (expression_aliasing c receiver) then
        match type_at c (expression_span receiver) with
        | Some (Ty.Named type_name _ _) =>
            match setter_stored_parameters c !! (type_name, method) with
            | Some stored => record_nested_slots c stored 1 rest slots
            | None => slots
            end
        | _ => slots
        end
      else slots
  | _ => slots
  end.

Definition setter_stored_parameter_slots (c : TypeChecker) (body : Expression) : gset nat :=
  match try_for_each_subexpression (B := Empty_set)
          (λ e slots, Continue (stored_slots_at c e slots)) body ∅ with
  | Continue slots | Break _ slots => slots
  end.

(** ** Signatures *)

Definition reject_unfillable_site_parameters (subject : string) (parameters : list Param)
    (parameter_types : list Ty) (trailing_is_fillable : bool) : result TypeError unit :=
  let unfillable := if trailing_is_fillable then (length parameter_types - 1)%nat
                    else length parameter_types in
  match list_find (λ p, is_site_type p.2 = true) (take unfillable (combine parameters parameter_types)) with
  | Some (_, (parameter, _)) => Err (Te.MisplacedSiteParameter subject (parameter_span parameter))
  | None => Ok tt
  end.

Definition record_parameter_types (c : TypeChecker) (parameters : list Param) (types : list Ty)
    : TypeChecker :=
  with_type_table c
    (foldl (λ table '(p, ty), <[parameter_span p := ty]> table) (type_table c) (combine parameters types)).

(** The type of each parameter from the [i]th on; a slot per parameter when
    [declared] is there at all, the code panics without. *)
Fixpoint parameter_types_from (c : TypeChecker) (declared : option (list Ty)) (missing : Param → TypeError)
    (i : nat) (parameters : list Param) : result TypeError (list Ty) :=
  match parameters with
  | [] => Ok []
  | p :: rest =>
      let slot := slots ← declared; slots !! i in
      ty ← match type_annotation p, slot with
           | Some annotation, Some slot =>
               let annotated := resolve c annotation in
               _ ← check_type_compatibility (resolve c slot) annotated (parameter_span p);
               Ok annotated
           | Some annotation, None => Ok (resolve c annotation)
           | None, Some slot => Ok (resolve c slot)
           | None, None => Err (missing p)
           end;
      types ← parameter_types_from c declared missing (S i) rest;
      Ok (ty :: types)
  end.

Definition resolve_parameter_types (c : TypeChecker) (parameters : list Param)
    (declared : option (list Ty)) (missing : Param → TypeError)
    : result TypeError (list Ty * TypeChecker) :=
  types ← parameter_types_from c declared missing 0 parameters;
  Ok (types, record_parameter_types c parameters types).

Definition check_binding_signature (c : TypeChecker) (d : FunctionDeclaration Expression)
    : result TypeError unit :=
  match binding_type d with
  | Some (Ty.Function slots result) =>
      if negb (length slots =? length (parameters d))%nat
      then Err (Te.SignatureArity ("'" +:+ function_name d +:+ "'") (Z.of_nat (length slots))
                  (Z.of_nat (length (parameters d))) (function_span d))
      else
        match return_type d with
        | Some arrow => check_type_compatibility (resolve c result) (resolve c arrow) (function_span d)
        | None => Ok tt
        end
  | _ => Ok tt
  end.

(** Binding each parameter as its own argument slot, from [slot + offset] on;
    [type_of] is what the kind of definition makes of the parameter's type. *)
Fixpoint define_parameters (type_of : TypeChecker → Param → Ty → result TypeError Ty) (body : Span)
    (offset slot : nat) (c : TypeChecker) (parameters : list (Param * Ty))
    : result TypeError (list Ty * TypeChecker) :=
  match parameters with
  | [] => Ok ([], c)
  | (p, ty) :: rest =>
      ty ← type_of c p ty;
      e ← define_parameter (env c) (parameter_name p) ty (current_declaration c) (slot + offset)
            (parameter_span p);
      let c := with_env c (set_result_parameter e (parameter_name p) (Some (body, slot))) in
      '(types, c) ← define_parameters type_of body offset (S slot) c rest;
      Ok (ty :: types, c)
  end.

Definition as_given (_ : TypeChecker) (_ : Param) (ty : Ty) : result TypeError Ty := Ok ty.

(** Leaving a body: its scope, its narrowing and its declaration. *)
Definition leave_body (c : TypeChecker) (narrowing_before : Snapshot) (enclosing_declaration : Z)
    : TypeChecker :=
  leave_declaration (map_env (λ e, restore_narrowing (pop_scope e) narrowing_before) c)
    enclosing_declaration.

Definition is_function (ty : Ty) : bool := match ty with Ty.Function _ _ => true | _ => false end.

(** ** Bindings, functions, lambdas and types *)

Section declarations.
Variable infer_expression : TypeChecker → Expression → fueled TypeError (Ty * TypeChecker).
Variable infer_argument : TypeChecker → Expression → LambdaTarget → fueled TypeError (Ty * TypeChecker).

Definition expected_collection (expression : Expression) (expected : option Ty) : option Ty :=
  match expression, expected with
  | Expression.Array [] _, Some (Ty.Array _ as ty)
  | Expression.MapLiteral [] _, Some (Ty.Map _ _ as ty)
  | Expression.SetLiteral [] _, Some (Ty.Set_ _ as ty) => Some ty
  | _, _ => None
  end.

(** [exprs.rs]: an empty collection literal takes its type from the position. *)
Definition infer_expression_expecting (c : TypeChecker) (expression : Expression) (expected : option Ty)
    : fueled TypeError (Ty * TypeChecker) :=
  match expected_collection expression expected with
  | Some ty => Ok (ty, with_type_table c (<[expression_span expression := ty]> (type_table c)))
  | None => infer_expression c expression
  end.

(** *** Bindings *)

Definition check_atomic_declaration (c : TypeChecker) (d : VariableDeclaration Expression)
    : result TypeError unit :=
  if atomic d then
    if negb (mutable d) then Err (Te.AtomicBindingNotMutable (variable_name d) (variable_span d))
    else if bool_decide (is_Some (get_type (env c) (variable_name d)))
    then Err (Te.AtomicBindingUsedBare (variable_name d) (variable_span d))
    else Ok tt
  else Ok tt.

(** A sum annotation gives way to a more specialised value of the same sum. *)
Definition binding_type_of (annotated_type value_type : Ty) : Ty :=
  match annotated_type, value_type with
  | Ty.Sum a _, Ty.Sum b _ => if bool_decide (a = b) then value_type else annotated_type
  | _, _ => annotated_type
  end.

(** The deep-immutability gate of a binding. *)
Definition check_binding_aliasing (d : VariableDeclaration Expression) (aliasing : ValueAliasing)
    : result TypeError unit :=
  if mutable d then
    match immutable_witness aliasing with
    | Some (witness, parameter) =>
        Err (Te.MutableAliasOfImmutable (variable_name d) witness parameter (variable_span d))
    | None => Ok tt
    end
  else
    match mutable_witness aliasing with
    | Some witness => Err (Te.ImmutableAliasOfMutable (variable_name d) witness (variable_span d))
    | None => Ok tt
    end.

(** Binding the name, or reassigning the one it already names. *)
Definition bind_variable (c : TypeChecker) (d : VariableDeclaration Expression) (final_type : Ty)
    (aliasing : ValueAliasing) : result TypeError TypeChecker :=
  let name := variable_name d in
  if mutable d then
    match get_type (env c) name with
    | Some existing_type =>
        _ ← check_type_compatibility existing_type final_type (variable_span d);
        let c := if is_atomic (env c) name
                 then with_atomic_reassignments c ({[variable_span d]} ∪ atomic_reassignments c) else c in
        Ok (if is_top_level (env c) name
            then with_top_level_reassignments c ({[variable_span d]} ∪ top_level_reassignments c) else c)
    | None =>
        e ← define_binding (env c) name final_type true (current_declaration c) aliasing (variable_span d);
        Ok (with_env c (if atomic d then mark_atomic e name else e))
    end
  else
    e ← define_binding (env c) name final_type false (current_declaration c) aliasing (variable_span d);
    Ok (with_env c match constructed_variant (variable_value d) final_type with
                   | Some variant => narrow e name {[variant]}
                   | None => e
                   end).

Definition check_variable_declaration (c : TypeChecker) (d : VariableDeclaration Expression)
    : fueled TypeError TypeChecker :=
  _ ← lift (check_atomic_declaration c d);
  let annotated_type := resolve c <$> variable_annotation d in
  '(value_type, c) ← infer_expression_expecting c (variable_value d) annotated_type;
  final_type ← match annotated_type with
               | Some annotated_type =>
                   _ ← lift (check_type_compatibility annotated_type value_type (variable_span d));
                   Ok (binding_type_of annotated_type value_type)
               | None => Ok value_type
               end;
  _ ← (if mutable d && bool_decide (is_Some (get_type (env c) (variable_name d)))
          && negb (is_mutable (env c) (variable_name d))
       then throw (Te.ImmutableAssignment (variable_name d) (variable_span d)) else Ok tt);
  let aliasing := expression_aliasing c (variable_value d) in
  _ ← lift (check_binding_aliasing d aliasing);
  let result_parameter_alias :=
    match variable_value d with
    | Expression.Identifier name _ => symbol ← lookup (env c) name; result_parameter symbol
    | _ => None
    end in
  c ← lift (bind_variable c d final_type aliasing);
  let c := map_env (λ e, set_result_parameter e (variable_name d) result_parameter_alias) c in
  Ok (if is_function final_type
      then map_env (λ e, set_result_aliasing e (variable_name d)
                           (callable_result_aliasing c (variable_value d))) c
      else c).

(** *** Functions *)

(** Before the body: an annotated function may call itself, an unannotated one
    is pending. *)
Definition open_function (c : TypeChecker) (d : FunctionDeclaration Expression) (is_overloaded : bool)
    (parameter_types : list Ty) (annotated_return : option Ty) : result TypeError TypeChecker :=
  let c := with_pending c None in
  if is_overloaded then Ok c
  else
    match annotated_return with
    | Some ret =>
        e ← define (env c) (function_name d) (Ty.Function parameter_types ret) false (function_span d);
        Ok (with_env c e)
    | None => Ok (with_pending c (Some (function_name d, function_span d)))
    end.

(** After the body: the annotation checked and refined, or the inferred type bound. *)
Definition close_function (c : TypeChecker) (d : FunctionDeclaration Expression) (is_overloaded : bool)
    (parameter_types : list Ty) (annotated_return : option Ty) (body_type : Ty)
    : result TypeError TypeChecker :=
  match annotated_return with
  | Some annotated_type =>
      _ ← check_type_compatibility annotated_type body_type (function_span d);
      Ok (if contains_generic annotated_type then
            if is_overloaded
            then refine_overload_return_type c (function_name d) parameter_types body_type
            else map_env (λ e, (update_type e (function_name d) (Ty.Function parameter_types body_type)).1) c
          else c)
  | None =>
      if is_overloaded then Ok c
      else
        e ← define (env c) (function_name d) (Ty.Function parameter_types body_type) false (function_span d);
        Ok (with_env c e)
  end.

Definition check_function_declaration (c : TypeChecker) (d : FunctionDeclaration Expression)
    (nesting : Nesting) : fueled TypeError TypeChecker :=
  if is_inert_corelib_placeholder d then Ok c
  else
    _ ← lift (check_binding_signature c d);
    '(parameter_types, c) ← lift (resolve_parameter_types c (parameters d) (declared_parameters d)
       (λ p, Te.UnannotatedParameter (function_name d) (parameter_name p) (parameter_span p)));
    _ ← lift (reject_unfillable_site_parameters ("function `" +:+ function_name d +:+ "`") (parameters d)
         parameter_types match nesting with TopLevel => true | Nested => false end);
    let annotated_return := resolve c <$> declared_return_type d in
    let is_overloaded := bool_decide (function_name d ∈ overloaded_names c) in
    let previous_pending := pending_return_type c in
    c ← lift (open_function c d is_overloaded parameter_types annotated_return);
    let narrowing_before := snapshot_narrowing (env c) in
    let '(enclosing_declaration, c) := enter_declaration (map_env push_scope c) in
    '(_, c) ← lift (define_parameters as_given (expression_span (function_body d)) 0 0 c
                      (combine (parameters d) parameter_types));
    let target := match annotated_return with Some ret => Declared ret | None => NoTarget end in
    '(body_type, c) ← infer_argument c (function_body d) target;
    let c := with_pending c previous_pending in
    let result_aliasing := body_result_aliasing c (function_body d) body_type in
    let c := leave_body c narrowing_before enclosing_declaration in
    c ← lift (close_function c d is_overloaded parameter_types annotated_return body_type);
    Ok (if is_overloaded
        then set_overload_result_aliasing c (function_name d) parameter_types result_aliasing
        else map_env (λ e, set_result_aliasing e (function_name d) result_aliasing) c).

(** *** Lambdas *)

Definition lambda_slots (parameters : list Param) (body : Expression) (target : LambdaTarget)
    : result TypeError (option (list Ty)) :=
  match stated target with
  | Some (Ty.Function slots _) =>
      if negb (length slots =? length parameters)%nat
      then Err (Te.SignatureArity "this lambda" (Z.of_nat (length slots)) (Z.of_nat (length parameters))
                  (expression_span body))
      else Ok (Some slots)
  | _ => Ok None
  end.

Definition check_lambda_against (c : TypeChecker) (parameters : list Param) (return_type : option Ty)
    (body : Expression) (target : LambdaTarget) : fueled TypeError (Ty * TypeChecker) :=
  slots ← lift (lambda_slots parameters body target);
  '(parameter_types, c) ← lift (resolve_parameter_types c parameters slots (uninferable target));
  _ ← lift (reject_unfillable_site_parameters "a lambda" parameters parameter_types false);
  let narrowing_before := snapshot_narrowing (env c) in
  let '(enclosing_declaration, c) := enter_declaration (map_env push_scope c) in
  '(_, c) ← lift (define_parameters as_given (expression_span body) 0 0 c (combine parameters parameter_types));
  let annotated_return := resolve c <$> return_type in
  '(body_type, c) ← match annotated_return with
                    | Some (Ty.Function _ _ as ret) => infer_argument c body (Declared ret)
                    | _ => infer_expression c body
                    end;
  let c := leave_body (record_lambda_result_aliasing c body body_type) narrowing_before
             enclosing_declaration in
  ret ← match annotated_return with
        | Some annotated =>
            _ ← lift (check_type_compatibility annotated body_type (expression_span body));
            Ok annotated
        | None => Ok body_type
        end;
  Ok (Ty.Function parameter_types ret, c).

Definition check_lambda (c : TypeChecker) (parameters : list Param) (return_type : option Ty)
    (body : Expression) : fueled TypeError (Ty * TypeChecker) :=
  check_lambda_against c parameters return_type body NoTarget.

(** *** Methods *)

Definition check_method_mutation_contracts (c : TypeChecker) (type_name : string)
    (methods : list (MethodDeclaration Expression)) : result TypeError TypeChecker :=
  let c := with_setter_methods c
             (foldl (λ setters m, if mutating m then {[(type_name, method_name m)]} ∪ setters else setters)
                (setter_methods c) methods) in
  (fix verify ms :=
     match ms with
     | [] => Ok c
     | m :: ms =>
         if mutating m then verify ms
         else
           match body_mutates_receiver c type_name (method_body m) with
           | Some span =>
               Err (Te.MutatingMethodDeclaredImmutable type_name (method_name m)
                      (body_has_lambda_parameter_named_receiver (method_body m)) span)
           | None => verify ms
           end
     end) methods.

(** Two or more methods of a name, operators apart, are an overload set. *)
Definition is_overloaded_method (methods : list (MethodDeclaration Expression)) (name : string) : bool :=
  negb (is_operator_symbol name)
  && (1 <? length (filter (λ m, method_name m = name) methods))%nat.

Fixpoint annotated_parameter_types (subject : string) (parameters : list Param)
    : result TypeError (list Ty) :=
  match parameters with
  | [] => Ok []
  | p :: rest =>
      match type_annotation p with
      | Some ty => types ← annotated_parameter_types subject rest; Ok (ty :: types)
      | None => Err (Te.UnannotatedParameter subject (parameter_name p) (parameter_span p))
      end
  end.

Definition qualified (type_name name : string) : string := type_name +:+ "." +:+ name.

Definition RENDER : string := "`".

Definition check_render_operator (method : MethodDeclaration Expression) (return_type : Ty)
    : result TypeError unit :=
  if bool_decide (method_name method = RENDER) then
    match method_parameters method with
    | [] =>
        if Ty_eq return_type Ty.Text then Ok tt
        else Err (Te.InvalidBuiltinArgument
                    ("the `` ` `` render operator must return Text, but returns " +:+ type_label return_type)
                    (method_span method))
    | _ => Err (Te.InvalidBuiltinArgument
                  "the `` ` `` render operator takes no parameters (only its implicit `it` receiver)"
                  (method_span method))
    end
  else Ok tt.

(** The receiver: a setter's is mutable wherever it is called and owned by the
    enclosing declaration, any other's is argument slot 0. *)
Definition bind_receiver (c : TypeChecker) (is_setter : bool) (self_type : Ty)
    (enclosing_declaration : Z) (span : Span) : result TypeError TypeChecker :=
  with_env c <$> (if is_setter
                  then define_setter_receiver (env c) RECEIVER self_type enclosing_declaration span
                  else define_receiver (env c) self_type (current_declaration c) span).

(** The receiver and the parameters bound: their resolved types, the annotated
    result resolved, and the method registered as far as its body needs it. *)
Definition open_method (c : TypeChecker) (type_name : string) (self_type : Ty)
    (methods : list (MethodDeclaration Expression)) (method : MethodDeclaration Expression)
    (is_setter : bool) (enclosing_declaration : Z)
    : result TypeError (list Ty * option Ty * TypeChecker) :=
  let name := method_name method in
  c ← bind_receiver c is_setter self_type enclosing_declaration (method_span method);
  raw_types ← annotated_parameter_types (qualified type_name name) (method_parameters method);
  _ ← reject_unfillable_site_parameters ("method `" +:+ qualified type_name name +:+ "`")
        (method_parameters method) raw_types false;
  '(parameter_types, c) ←
    define_parameters (λ c _ raw, Ok (resolve c raw)) (expression_span (method_body method)) 1 0 c
      (combine (method_parameters method) raw_types);
  let annotated := resolve c <$> method_return_type method in
  let c := match annotated with
           | Some ret =>
               with_methods c (<[(type_name, name) := (method_parameters method, ret, method_body method)]>
                                 (checker_methods c))
           | None => c
           end in
  c ← (if is_overloaded_method methods name
       then finish_overload_registration c (qualified type_name name) (method_span method)
              parameter_types annotated (negb (body_references_receiver (method_body method)))
       else Ok c);
  Ok (parameter_types, annotated, c).

Definition record_stored_parameters (c : TypeChecker) (type_name name : string) (body : Expression)
    : TypeChecker :=
  let slots := setter_stored_parameter_slots c body in
  if decide (slots = ∅) then c
  else with_setter_stored_parameters c (<[(type_name, name) := slots]> (setter_stored_parameters c)).

(** Out of the body: where calls find the method and its classification. *)
Definition register_method (c : TypeChecker) (type_name : string) (self_type : Ty)
    (is_overloaded : bool) (method : MethodDeclaration Expression) (parameter_types : list Ty)
    (resolved_return_type : Ty) (result_aliasing : ResultAliasing) : TypeChecker :=
  let name := method_name method in
  let c :=
    if is_operator_symbol name
    then set_overload_result_aliasing c name (self_type :: parameter_types) result_aliasing
    else
      let c := if decide (result_aliasing = fresh_result) then c
               else with_method_result_aliasing c
                      (<[(type_name, name) := result_aliasing]> (method_result_aliasing c)) in
      if negb is_overloaded && negb (body_references_receiver (method_body method))
      then with_static_methods c ({[(type_name, name)]} ∪ static_methods c) else c in
  with_methods c
    (<[(type_name, name) := (method_parameters method, resolved_return_type, method_body method)]>
       (checker_methods c)).

Definition check_method (c : TypeChecker) (type_name : string) (self_type : Ty)
    (methods : list (MethodDeclaration Expression)) (method : MethodDeclaration Expression)
    : fueled TypeError TypeChecker :=
  let narrowing_before := snapshot_narrowing (env c) in
  let '(enclosing_declaration, c) := enter_declaration (map_env push_scope c) in
  let is_setter := bool_decide ((type_name, method_name method) ∈ setter_methods c) in
  '(parameter_types, annotated, c) ←
    lift (open_method c type_name self_type methods method is_setter enclosing_declaration);
  '(body_type, c) ← infer_expression_expecting c (method_body method) annotated;
  resolved_return_type ←
    match annotated with
    | Some resolved =>
        _ ← lift (check_type_compatibility resolved body_type (method_span method));
        Ok (if contains_generic resolved then body_type else resolved)
    | None => Ok body_type
    end;
  _ ← lift (check_render_operator method resolved_return_type);
  let result_aliasing := declaration_result_aliasing c (method_body method) resolved_return_type in
  let c := if is_setter then record_stored_parameters c type_name (method_name method) (method_body method)
           else c in
  let c := leave_body c narrowing_before enclosing_declaration in
  Ok (register_method c type_name self_type (is_overloaded_method methods (method_name method)) method
        parameter_types resolved_return_type result_aliasing).

Fixpoint register_operators (c : TypeChecker) (self_type : Ty) (methods : list (MethodDeclaration Expression))
    : result TypeError TypeChecker :=
  match methods with
  | [] => Ok c
  | m :: rest =>
      c ← (if is_operator_symbol (method_name m) then register_operator_member c self_type m else Ok c);
      register_operators c self_type rest
  end.

Fixpoint check_methods (c : TypeChecker) (type_name : string) (self_type : Ty)
    (methods remaining : list (MethodDeclaration Expression)) : fueled TypeError TypeChecker :=
  match remaining with
  | [] => Ok c
  | m :: rest =>
      c ← check_method c type_name self_type methods m;
      check_methods c type_name self_type methods rest
  end.

Definition check_type_methods (c : TypeChecker) (type_name : string) (self_type : Ty)
    (methods : list (MethodDeclaration Expression)) : fueled TypeError TypeChecker :=
  c ← lift (register_operators c self_type methods);
  check_methods c type_name self_type methods methods.

(** *** Types *)

Fixpoint acceptable_payload_type (c : TypeChecker) (resolved : Ty) : bool :=
  match resolved with
  | Ty.Num | Ty.Text | Ty.Bool | Ty.Unit | Ty.Sum _ _ => true
  | Ty.Named name _ _ => match get_type (env c) name with Some (Ty.Named _ _ _) => true | _ => false end
  | Ty.Array elem => acceptable_payload_type c elem
  | Ty.Map key value => acceptable_payload_type c key && acceptable_payload_type c value
  | Ty.Record fields => forallb (λ f, acceptable_payload_type c f.2) fields
  | _ => false
  end.

(** A variant has at most one payload type, its span beside it. *)
Fixpoint resolve_variants (c : TypeChecker) (declaration_span : Span)
    (variants : list (SumVariant * list Span)) : result TypeError (list SumVariant) :=
  match variants with
  | [] => Ok []
  | (variant, spans) :: rest =>
      fields ← match variant_fields variant with
               | field :: _ =>
                   let resolved := resolve c field in
                   if acceptable_payload_type c resolved then Ok [resolved]
                   else Err (Te.InvalidPayloadType (variant_name variant) resolved
                               (default declaration_span (head spans)))
               | [] => Ok []
               end;
      variants ← resolve_variants c declaration_span rest;
      Ok (mkSumVariant (variant_name variant) fields :: variants)
  end.

Fixpoint check_variant_names (c : TypeChecker) (span : Span) (seen : gset string)
    (variants : list SumVariant) : result TypeError unit :=
  match variants with
  | [] => Ok tt
  | variant :: rest =>
      let name := variant_name variant in
      if bool_decide (name ∈ seen) || bool_decide (is_Some (sum_variant_owner c name))
      then Err (Te.DuplicateDefinition name span)
      else check_variant_names c span ({[name]} ∪ seen) rest
  end.

(** Each payload-less variant becomes a constant of the sum. *)
Fixpoint define_variants (c : TypeChecker) (sum_type : Ty) (span : Span) (variants : list SumVariant)
    : result TypeError TypeChecker :=
  match variants with
  | [] => Ok c
  | variant :: rest =>
      c ← match variant_fields variant with
          | [] => with_env c <$> define_constant (env c) (variant_name variant) sum_type span
          | _ => Ok c
          end;
      define_variants c sum_type span rest
  end.

Fixpoint check_fields (span : Span) (seen : gset string) (fields : list (string * Ty))
    : result TypeError unit :=
  match fields with
  | [] => Ok tt
  | (name, ty) :: rest =>
      if bool_decide (name ∈ seen) then Err (Te.DuplicateDefinition name span)
      else if is_function ty then Err (Te.FunctionTypedField name span)
      else check_fields span ({[name]} ∪ seen) rest
  end.

(** The type a declaration stands for, its sum registered and its constants bound. *)
Definition declare_type (c : TypeChecker) (name : string) (definition : TypeDefinition Expression)
    (span : Span) : result TypeError (Ty * TypeChecker) :=
  match definition with
  | DefSum variants field_spans _ =>
      resolved ← resolve_variants c span (combine variants field_spans);
      _ ← check_variant_names c span ∅ resolved;
      let sum_type := Ty.Sum name resolved in
      let c := with_sum_types c (<[name := sum_type]> (sum_types c)) in
      c ← define_variants c sum_type span variants;
      Ok (sum_type, c)
  | DefRecord fields methods =>
      _ ← check_fields span ∅ fields;
      Ok (Ty.Named name ((λ f, (f.1, resolve c f.2)) <$> fields) (method_name <$> methods), c)
  end.

Definition is_sum_definition (definition : TypeDefinition Expression) : bool :=
  match definition with DefSum _ _ _ => true | DefRecord _ _ => false end.

(** The contracts of a record's methods and the placeholder of the type itself. *)
Definition open_type (c : TypeChecker) (d : TypeDeclaration Expression) : result TypeError TypeChecker :=
  let name := type_name d in
  c ← match type_definition d with
      | DefRecord _ methods => check_method_mutation_contracts c name methods
      | DefSum _ _ _ => Ok c
      end;
  e ← define (env c) name (named_ref name) false (type_span d);
  let c := with_env c e in
  Ok (if is_sum_definition (type_definition d)
      then with_sum_types c (<[name := Ty.Sum name []]> (sum_types c)) else c).

Definition check_type_declaration (c : TypeChecker) (d : TypeDeclaration Expression)
    : fueled TypeError TypeChecker :=
  let name := type_name d in
  c ← lift (open_type c d);
  '(type_value, c) ← lift (declare_type c name (type_definition d) (type_span d));
  let c := map_env (λ e, (update_type e name type_value).1) c in
  check_type_methods c name type_value (methods (type_definition d)).

Definition check_item (c : TypeChecker) (item : Item Expression) (nesting : Nesting)
    : fueled TypeError TypeChecker :=
  match item with
  | ItemVariable d => check_variable_declaration c d
  | ItemFunction d => check_function_declaration c d nesting
  | ItemType d => check_type_declaration c d
  | ItemTrap _ => Ok c
  end.
End declarations.
