(* ===== verification/Calls.v ===== *)
(** * Calls: [checker/calls.rs] and [checker/assertions.rs]

    How a call is dispatched - constructors, built-in collection and [Text]
    methods, declared methods, overload sets, function values - and the provided
    assertions with their matchers.  An error [None] stands for no answer at all:
    the recursion ran out of fuel, or the code would panic. *)

From S2P Require Import Prelude Bytes Num Token Ast TypeMatch TypeErrors Env Checker Overloads Patterns Aliasing Declarations.

(** An [unreachable!], an [expect] or an index that fails. *)
Notation panic := out_of_fuel.

(** ** Signatures of the built-in methods *)

Definition result_of (elem : Ty) : Ty :=
  Ty.Sum RESULT_TYPE_NAME [mkSumVariant OK [elem]; mkSumVariant NOT_OK [Ty.Unit]].

Abbreviation MethodTable := (list (string * list Ty * Ty)).

Definition text_method_table : MethodTable :=
  [("trim", [], Ty.Text); ("trimStart", [], Ty.Text); ("trimEnd", [], Ty.Text);
   ("toUpper", [], Ty.Text); ("toLower", [], Ty.Text);
   ("split", [Ty.Text], Ty.Array Ty.Text); ("graphemes", [], Ty.Array Ty.Text);
   ("contains", [Ty.Text], Ty.Bool); ("indexOf", [Ty.Text], result_of Ty.Num);
   ("at", [Ty.Num], result_of Ty.Text); ("slice", [Ty.Num; Ty.Num], Ty.Text);
   ("repeat", [Ty.Num], Ty.Text); ("replaceAll", [Ty.Text; Ty.Text], Ty.Text);
   ("replace", [Ty.Text; Ty.Text; Ty.Num], Ty.Text)].

Definition array_method_table (elem : Ty) : MethodTable :=
  let r := named_ref "R" in
  let a := named_ref "A" in
  [("map", [Ty.Function [elem] r], Ty.Array r);
   ("filter", [Ty.Function [elem] Ty.Bool], Ty.Array elem);
   ("reduce", [a; Ty.Function [a; elem] a], a);
   ("each", [Ty.Function [elem] Ty.Unit], Ty.Array elem);
   ("find", [Ty.Function [elem] Ty.Bool], result_of elem);
   ("at", [Ty.Num], result_of elem)]
  ++ match elem with Ty.Text => [("join", [Ty.Text], Ty.Text)] | _ => [] end.

Definition map_method_table (key value : Ty) : MethodTable :=
  let map_type := Ty.Map key value in
  [("get", [key], result_of value); ("has", [key], Ty.Bool); ("set", [key; value], map_type);
   ("remove", [key], map_type); ("keys", [], Ty.Array key); ("values", [], Ty.Array value);
   ("each", [Ty.Function [key; value] Ty.Unit], map_type)].

Definition set_method_table (elem : Ty) : MethodTable :=
  let set_type := Ty.Set_ elem in
  [("has", [elem], Ty.Bool); ("add", [elem], set_type); ("remove", [elem], set_type);
   ("items", [], Ty.Array elem); ("each", [Ty.Function [elem] Ty.Unit], set_type)].

Definition method_signature (table : MethodTable) (method : string) (argument_count : nat) (span : Span)
    : fueled TypeError (list Ty * Ty) :=
  match list_find (λ m, m.1.1 = method) table with
  | None => panic
  | Some (_, (_, parameters, result)) =>
      if negb (argument_count =? length parameters)%nat
      then throw (Te.WrongNumberOfArguments (Z.of_nat (length parameters)) (Z.of_nat argument_count) span)
      else Ok (parameters, result)
  end.

(** [hay.matches(from).count()]: occurrences that do not overlap. *)
Fixpoint count_matches (from : list Z) (skip : nat) (hay : list Z) : Z :=
  match hay with
  | [] => 0
  | _ :: rest =>
      match skip with
      | S skip => count_matches from skip rest
      | O => if bool_decide (from `prefix_of` hay)
             then 1 + count_matches from (length from - 1) rest
             else count_matches from 0 rest
      end
  end.

Definition is_empty_collection_literal (expression : Expression) : bool :=
  match expression with
  | Expression.Array [] _ | Expression.MapLiteral [] _ | Expression.SetLiteral [] _ => true
  | _ => false
  end.

(** ** Questions a call asks *)

Section questions.
Variable c : TypeChecker.

Definition names_a_callable (name : string) : bool :=
  bool_decide (is_Some (lookup (env c) name)) || bool_decide (is_Some (overloads c !! name))
  || is_compiler_provided_name name || is_assertion name || is_run_test_case name.

Definition overloaded_static_member (qualified_name : string) (arg_types : list Ty) : bool :=
  existsb (λ o, is_static o && accepts arg_types o) (members c qualified_name).

Definition type_has_member (ty : Ty) (name : string) : bool :=
  match ty with
  | Ty.Named type_name _ _ | Ty.Sum type_name _ =>
      bool_decide (is_Some (checker_methods c !! (type_name, name)))
  | Ty.Array _ => is_array_method name
  | Ty.Text => is_text_method name
  | Ty.Map _ _ => is_map_method name
  | Ty.Set_ _ => is_set_method name
  | _ => false
  end.

Definition require_mutable_receiver (receiver : Expression) (method : string) (span : Span)
    : result TypeError unit :=
  match immutable_write_witness c receiver with
  | Some name => Err (Te.MutatingMethodOnImmutable method name span)
  | None => Ok tt
  end.

Definition check_replace_literals (method : string) (arguments : list Expression) (span : Span)
    : fueled TypeError unit :=
  let err message := throw (Te.InvalidBuiltinArgument message span) in
  match arguments with
  | hay :: from :: rest =>
      if match from with Expression.String value _ => bool_decide (value = "") | _ => false end
      then err "replace: `from` must not be empty"
      else if negb (bool_decide (method = "replace")) then Ok tt
      else
        match rest !! 1%nat with
        | None => panic
        | Some count =>
            match literal_number count with
            | None => Ok tt
            | Some count =>
                let count := f64_trunc count in
                let shown := string_of_bytes (f64_display count) in
                if f64_le count (f64_of_Z 0) then
                  err ("replace count must be a positive integer (got " +:+ shown
                       +:+ "); use replaceAll to replace all occurrences")
                else
                  match hay, from with
                  | Expression.String hay _, Expression.String from _ =>
                      let occurrences := count_matches (bs from) 0 (bs hay) in
                      if f64_lt (f64_of_Z occurrences) count then
                        err ("replace: count " +:+ shown +:+ " exceeds "
                             +:+ string_of_bytes (render 10 occurrences)
                             +:+ " occurrences of `" +:+ from +:+ "`")
                      else Ok tt
                  | _, _ => Ok tt
                  end
            end
        end
  | _ => panic
  end.

(** [assertions.rs] *)

(** [None]: a matcher that compares values narrows nothing. *)
Fixpoint matcher_narrowing (matcher : Expression) (variants : list SumVariant) : option (gset string) :=
  match matcher with
  | Expression.Call (Expression.Identifier name _) arguments _ _ =>
      if bool_decide (name = "isOk" ∨ name = "isNotOk") then
        variant ← matcher_variant name; Some {[variant]}
      else
        match arguments with
        | argument :: _ =>
            if bool_decide (name = "is") then
              match argument with Expression.Identifier variant _ => Some {[variant]} | _ => None end
            else if bool_decide (name = "not") then
              inner ← matcher_narrowing argument variants;
              Some (list_to_set (filter (λ name, name ∉ inner) (variant_name <$> variants)))
            else None
        | [] => None
        end
  | _ => None
  end.

Definition narrow_from_assertion (actual : Expression) (actual_type : Ty) (matcher : Expression) (span : Span)
    : result TypeError TypeChecker :=
  match actual, actual_type with
  | Expression.Identifier binding _, Ty.Sum _ variants =>
      if negb (is_narrowable (env c) binding) then Ok c
      else
        match matcher_narrowing matcher variants with
        | None => Ok c
        | Some allowed =>
            let known := default (list_to_set (variant_name <$> variants)) (narrowed_variants (env c) binding) in
            let narrowed : gset string := known ∩ allowed in
            if decide (narrowed = ∅) then Err (Te.AssertionNeverHolds binding (in_order known) span)
            else Ok (map_env (λ e, narrow e binding narrowed) c)
        end
  | _, _ => Ok c
  end.

Definition require_one_representation (actual expected : Ty) (span : Span) : result TypeError unit :=
  let mismatched one other := is_generic one && negb (is_num_or_generic other) in
  if mismatched actual expected || mismatched expected actual
  then Err (Te.TypeMismatch actual expected span) else Ok tt.

Definition require_equality (matcher : string) (ty : Ty) (span : Span) : result TypeError unit :=
  if has_exact_overload c "==" [ty; ty] then Ok tt
  else Err (Te.MatcherTypeUnsupported matcher ty span).
End questions.

Section calls.
Variable infer_expression : TypeChecker → Expression → fueled TypeError (Ty * TypeChecker).
Variable infer_argument : TypeChecker → Expression → LambdaTarget → fueled TypeError (Ty * TypeChecker).

(** ** Assertions *)

(** The argument's type of [equals] and [contains]. *)
Definition check_contains (c : TypeChecker) (name : string) (actual_type part_type : Ty) (span : Span)
    : result TypeError unit :=
  match actual_type with
  | Ty.Text =>
      _ ← check_type_compatibility Ty.Text part_type span;
      require_one_representation Ty.Text part_type span
  | Ty.Array element =>
      _ ← check_type_compatibility element part_type span;
      _ ← require_one_representation element part_type span;
      require_equality c name element span
  | other => Err (Te.MatcherTypeUnsupported name other span)
  end.

(** [is(Variant)]. *)
Definition check_is (assertion name : string) (actual_type : Ty) (argument : Expression) (span : Span)
    : result TypeError string :=
  match argument with
  | Expression.Identifier variant_name argument_span =>
      match actual_type with
      | Ty.Sum sum_name variants =>
          if existsb (λ v, bool_decide (Ty.variant_name v = variant_name)) variants
          then Ok ("is(" +:+ variant_name +:+ ")")
          else Err (Te.UnknownConstructor variant_name sum_name (Ty.variant_name <$> variants) argument_span)
      | other => Err (Te.MatcherTypeUnsupported name other span)
      end
  | _ => Err (Te.AssertionNeedsMatcher assertion (expression_span argument))
  end.

(** [aborts], and a matcher that asks about a variant. *)
Definition check_shape_matcher (assertion name : string) (actual_type : Ty) (span : Span)
    : result TypeError string :=
  if bool_decide (name = "aborts") then
    match actual_type with
    | Ty.Function [] _ => Ok "aborts()"
    | other => Err (Te.MatcherTypeUnsupported name other span)
    end
  else
    match matcher_variant name with
    | None => Err (Te.AssertionNeedsMatcher assertion span)
    | Some asked_about =>
        match actual_type with
        | Ty.Sum _ variants =>
            if existsb (λ v, bool_decide (variant_name v = asked_about)) variants
            then Ok (name +:+ "()") else Err (Te.MatcherTypeUnsupported name actual_type span)
        | other => Err (Te.MatcherTypeUnsupported name other span)
        end
    end.

Definition takes_no_argument (matcher : string) : bool :=
  bool_decide (matcher ∈ ["isOk"; "isNotOk"; "aborts"]).

Fixpoint check_matcher (c : TypeChecker) (assertion : string) (actual_type : Ty) (matcher : Expression)
    : fueled TypeError (string * TypeChecker) :=
  match matcher with
  | Expression.Call (Expression.Identifier name _) arguments _ span =>
      if negb (is_matcher name) then throw (Te.AssertionNeedsMatcher assertion span)
      else
        let arity_error wanted :=
          throw (Te.MatcherArity name wanted (Z.of_nat (length arguments)) span) in
        '(signature, c) ←
          match takes_no_argument name, arguments with
          | true, [] =>
              signature ← lift (check_shape_matcher assertion name actual_type span);
              Ok (signature, c)
          | true, _ => arity_error 0
          | false, [argument] =>
              if bool_decide (name = "equals") then
                '(expected_type, c) ← infer_expression c argument;
                _ ← lift (check_type_compatibility actual_type expected_type span);
                _ ← lift (require_one_representation actual_type expected_type span);
                _ ← lift (require_equality c name actual_type span);
                Ok ("equals(" +:+ type_label expected_type +:+ ")", c)
              else if bool_decide (name = "contains") then
                '(part_type, c) ← infer_expression c argument;
                _ ← lift (check_contains c name actual_type part_type span);
                Ok ("contains(" +:+ type_label part_type +:+ ")", c)
              else if bool_decide (name = "not") then
                '(inner, c) ← check_matcher c assertion actual_type argument;
                Ok ("not(" +:+ inner +:+ ")", c)
              else
                signature ← lift (check_is assertion name actual_type argument span);
                Ok (signature, c)
          | false, _ => arity_error 1
          end;
        Ok (signature, with_matcher_hovers c
              (<[span := signature +:+ "  matcher over " +:+ type_label actual_type]> (matcher_hovers c)))
  | _ => throw (Te.AssertionNeedsMatcher assertion (expression_span matcher))
  end.

Definition check_assertion (c : TypeChecker) (name : string) (arguments : list Expression) (span : Span)
    : fueled TypeError (Ty * TypeChecker) :=
  if bool_decide (name = EXPECT) && (bool_decide (test_depth c = 0%Z) || bool_decide (case_depth c = 0%Z))
  then throw (Te.ExpectOutsideTest span)
  else
    match arguments with
    | [actual; matcher] =>
        '(actual_type, c) ← infer_expression c actual;
        '(_, c) ← check_matcher c name actual_type matcher;
        c ← lift (narrow_from_assertion c actual actual_type matcher span);
        Ok (Ty.Unit, c)
    | _ => throw (Te.AssertionNeedsMatcher name span)
    end.

Definition check_run_test_case (c : TypeChecker) (arguments : list Expression) (span : Span)
    : fueled TypeError (Ty * TypeChecker) :=
  match arguments with
  | [body] =>
      '(body_type, c) ← infer_expression c body;
      _ ← lift (check_type_compatibility (Ty.Function [] Ty.Unit) body_type span);
      Ok (Ty.Unit, c)
  | _ => throw (Te.WrongNumberOfArguments 1 (Z.of_nat (length arguments)) span)
  end.

(** ** Arguments and callbacks *)

Fixpoint check_statements (c : TypeChecker) (statements : list (Statement Expression))
    : fueled TypeError TypeChecker :=
  match statements with
  | [] => Ok c
  | StatementItem item :: rest =>
      c ← check_item infer_expression infer_argument c item Nested; check_statements c rest
  | StatementExpression e :: rest =>
      '(_, c) ← infer_expression c e; check_statements c rest
  end.

(** [infer_argument], its recursion through [infer_argument]. *)
Definition infer_argument_inner (c : TypeChecker) (argument : Expression) (target : LambdaTarget)
    : fueled TypeError (Ty * TypeChecker) :=
  match argument with
  | Expression.Block statements span =>
      match last statements with
      | Some (StatementExpression tail) =>
          c ← check_statements c (take (length statements - 1) statements);
          '(ty, c) ← infer_argument c tail target;
          Ok (ty, with_type_table c (<[span := ty]> (type_table c)))
      | _ => infer_expression_expecting infer_expression c argument (stated target)
      end
  | Expression.Lambda parameters return_type body span =>
      '(ty, c) ← check_lambda_against infer_expression infer_argument c parameters return_type body target;
      Ok (ty, with_type_table c (<[span := ty]> (type_table c)))
  | _ => infer_expression_expecting infer_expression c argument (stated target)
  end.

Definition check_callback_value (c : TypeChecker) (callback : Expression) (parameter_types : list Ty)
    : fueled TypeError (Ty * TypeChecker) :=
  '(callback_type, c) ← infer_expression c callback;
  match callback_type with
  | Ty.Function parameters return_type =>
      if negb (length parameters =? length parameter_types)%nat
      then throw (Te.WrongNumberOfArguments (Z.of_nat (length parameter_types))
                    (Z.of_nat (length parameters)) (expression_span callback))
      else
        _ ← lift ((fix check ps := match ps with
                   | [] => Ok tt
                   | (expected, declared) :: ps =>
                       _ ← check_type_compatibility expected declared (expression_span callback); check ps
                   end) (combine parameter_types parameters));
        Ok (return_type, c)
  | _ => throw (Te.NotAFunction callback_type (expression_span callback))
  end.

(** A callback's parameter has the type its position gives; an annotation must agree. *)
Definition agreeing (_ : TypeChecker) (p : Param) (ty : Ty) : result TypeError Ty :=
  match type_annotation p with
  | Some annotation => _ ← check_type_compatibility annotation ty (parameter_span p); Ok ty
  | None => Ok ty
  end.

(** [check_lambda_arg_classifying_captures]. *)
Definition check_lambda_arg (c : TypeChecker) (arg : Expression) (parameter_types : list Ty) (span : Span)
    (classify_captures : bool) : fueled TypeError (Ty * TypeChecker) :=
  match arg with
  | Expression.Lambda parameters _ body arg_span =>
      if negb (length parameters =? length parameter_types)%nat
      then throw (Te.WrongNumberOfArguments (Z.of_nat (length parameter_types))
                    (Z.of_nat (length parameters)) span)
      else
        let c := record_parameter_types c parameters parameter_types in
        let narrowing_before := snapshot_narrowing (env c) in
        let '(enclosing_declaration, c) := enter_declaration (map_env push_scope c) in
        '(_, c) ← lift (define_parameters agreeing (expression_span body) 0 0 c
                          (combine parameters parameter_types));
        '(body_type, c) ← infer_expression c body;
        let c := if classify_captures then record_lambda_result_aliasing c body body_type else c in
        let c := leave_body c narrowing_before enclosing_declaration in
        Ok (body_type, with_type_table c (<[arg_span := body_type]> (type_table c)))
  | _ => check_callback_value c arg parameter_types
  end.

(** ** Built-in methods: the receiver and the method's own arguments *)

Definition infer_against (c : TypeChecker) (argument : Expression) (expected : Ty) (span : Span)
    : fueled TypeError TypeChecker :=
  '(ty, c) ← infer_expression c argument;
  _ ← lift (check_type_compatibility expected ty span);
  Ok c.

Definition check_array_method (c : TypeChecker) (method : string) (elem_type : Ty)
    (method_args : list Expression) (span : Span) : fueled TypeError (Ty * TypeChecker) :=
  if bool_decide (method = "join") && negb (Ty_eq elem_type Ty.Text) then
    throw (Te.InvalidBuiltinArgument
             ("join is a method of []Text; an array of " +:+ type_label elem_type
              +:+ " has no text to join — map it to Text first (`xs.map(x => "
              +:+ string_of_bytes [34] +:+ "`x`" +:+ string_of_bytes [34] +:+ ").join(sep)`)") span)
  else
    '(parameters, result) ←
      method_signature (array_method_table elem_type) method (length method_args) span;
    if bool_decide (method = "map") then
      match method_args with
      | callback :: _ =>
          '(ret, c) ← check_lambda_arg c callback [elem_type] span true; Ok (Ty.Array ret, c)
      | _ => panic
      end
    else if bool_decide (method = "filter") then
      match method_args with
      | callback :: _ =>
          '(ret, c) ← check_lambda_arg c callback [elem_type] span false;
          _ ← lift (check_type_compatibility Ty.Bool ret span);
          Ok (Ty.Array elem_type, c)
      | _ => panic
      end
    else if bool_decide (method = "reduce") then
      match method_args with
      | init :: callback :: _ =>
          '(init_type, c) ← infer_expression c init;
          '(ret, c) ← check_lambda_arg c callback [init_type; elem_type] span true;
          _ ← lift (check_type_compatibility init_type ret span);
          Ok (init_type, c)
      | _ => panic
      end
    else if bool_decide (method = "each") then
      match method_args with
      | callback :: _ =>
          '(_, c) ← check_lambda_arg c callback [elem_type] span false; Ok (Ty.Array elem_type, c)
      | _ => panic
      end
    else if bool_decide (method = "find") then
      match method_args with
      | callback :: _ =>
          '(ret, c) ← check_lambda_arg c callback [elem_type] span false;
          _ ← lift (check_type_compatibility Ty.Bool ret span);
          Ok (result_of elem_type, c)
      | _ => panic
      end
    else if bool_decide (method ∈ ["at"; "join"]) then
      match method_args, parameters with
      | argument :: _, parameter :: _ => c ← infer_against c argument parameter span; Ok (result, c)
      | _, _ => panic
      end
    else panic.

Definition check_map_method (c : TypeChecker) (method : string) (key_type value_type : Ty)
    (receiver : Expression) (method_args : list Expression) (span : Span)
    : fueled TypeError (Ty * TypeChecker) :=
  _ ← (if bool_decide (method ∈ ["set"; "remove"])
       then lift (require_mutable_receiver c receiver method span) else Ok tt);
  '(parameters, result) ←
    method_signature (map_method_table key_type value_type) method (length method_args) span;
  if bool_decide (method ∈ ["get"; "has"; "set"; "remove"]) then
    match method_args, parameters with
    | key :: rest, key_parameter :: value_parameters =>
        c ← infer_against c key key_parameter span;
        if bool_decide (method = "set") then
          match rest, value_parameters with
          | value :: _, value_parameter :: _ =>
              c ← infer_against c value value_parameter span;
              _ ← lift (check_store_not_crossing c key span);
              _ ← lift (check_store_not_crossing c value span);
              Ok (result, c)
          | _, _ => panic
          end
        else Ok (result, c)
    | _, _ => panic
    end
  else if bool_decide (method ∈ ["keys"; "values"]) then Ok (result, c)
  else if bool_decide (method = "each") then
    match method_args with
    | callback :: _ =>
        '(_, c) ← check_lambda_arg c callback [key_type; value_type] span false; Ok (result, c)
    | _ => panic
    end
  else panic.

Definition check_set_method (c : TypeChecker) (method : string) (elem_type : Ty)
    (receiver : Expression) (method_args : list Expression) (span : Span)
    : fueled TypeError (Ty * TypeChecker) :=
  _ ← (if bool_decide (method ∈ ["add"; "remove"])
       then lift (require_mutable_receiver c receiver method span) else Ok tt);
  '(parameters, result) ← method_signature (set_method_table elem_type) method (length method_args) span;
  if bool_decide (method ∈ ["has"; "add"; "remove"]) then
    match method_args, parameters with
    | element :: _, parameter :: _ =>
        c ← infer_against c element parameter span;
        _ ← (if bool_decide (method = "add") then lift (check_store_not_crossing c element span) else Ok tt);
        Ok (result, c)
    | _, _ => panic
    end
  else if bool_decide (method = "items") then Ok (result, c)
  else if bool_decide (method = "each") then
    match method_args with
    | callback :: _ => '(_, c) ← check_lambda_arg c callback [elem_type] span false; Ok (result, c)
    | _ => panic
    end
  else panic.

Definition check_index_of (c : TypeChecker) (method_args : list Expression) (span : Span)
    : fueled TypeError (Ty * TypeChecker) :=
  match method_args with
  | [] => throw (Te.WrongNumberOfArguments 1 0 span)
  | sub :: rest =>
      c ← infer_against c sub Ty.Text span;
      c ← match rest with
          | [] => Ok c
          | [from] => infer_against c from Ty.Num span
          | _ => throw (Te.WrongNumberOfArguments 2 (Z.of_nat (length method_args)) span)
          end;
      Ok (result_of Ty.Num, c)
  end.

(** Each argument against its parameter, from left to right, as far as both go. *)
Fixpoint infer_all_against (c : TypeChecker) (arguments : list (Ty * Expression)) (span : Span)
    : fueled TypeError TypeChecker :=
  match arguments with
  | [] => Ok c
  | (parameter, argument) :: rest =>
      c ← infer_against c argument parameter span;
      infer_all_against c rest span
  end.

(** [repeat]'s count, where it is written down. *)
Definition check_repeat_count (method_args : list Expression) (span : Span) : fueled TypeError unit :=
  match method_args with
  | [] => panic
  | count :: _ =>
      match literal_number count with
      | Some count =>
          if f64_lt count (f64_of_Z 0) || negb (is_whole count)
          then throw (Te.InvalidBuiltinArgument
                        ("repeat: `count` must be a whole number of 0 or more (got "
                         +:+ string_of_bytes (f64_display count) +:+ ")") span)
          else Ok tt
      | None => Ok tt
      end
  end.

Definition check_text_method (c : TypeChecker) (method : string) (receiver : Expression)
    (method_args : list Expression) (span : Span) : fueled TypeError (Ty * TypeChecker) :=
  if bool_decide (method = "indexOf") then check_index_of c method_args span
  else
    '(parameters, result) ← method_signature text_method_table method (length method_args) span;
    c ← infer_all_against c (combine parameters method_args) span;
    _ ← (if bool_decide (method ∈ ["replace"; "replaceAll"])
         then check_replace_literals method (receiver :: method_args) span else Ok tt);
    _ ← (if bool_decide (method = "repeat") then check_repeat_count method_args span else Ok tt);
    Ok (result, c).

(** ** Constructors, output built-ins and declared methods *)

(** [sums.rs]: [None] when no sum has the variant. *)
Definition check_constructor_call (c : TypeChecker) (variant : string) (args : list Expression) (span : Span)
    : fueled TypeError (option (Ty * TypeChecker)) :=
  match variant_owner c variant with
  | Some (_, Ty.Sum _ variants as sum) =>
      match list_find (λ v, variant_name v = variant) variants with
      | Some (_, v) =>
          if negb (length (variant_fields v) =? length args)%nat
          then throw (Te.WrongNumberOfArguments (Z.of_nat (length (variant_fields v)))
                        (Z.of_nat (length args)) span)
          else
            '(arg_types, c) ←
              (fix check c fields :=
                 match fields with
                 | [] => Ok ([], c)
                 | (field_type, arg) :: fields =>
                     let field_type := resolve_payload c field_type in
                     '(arg_type, c) ← infer_expression c arg;
                     _ ← lift (check_type_compatibility field_type arg_type span);
                     '(arg_types, c) ← check c fields;
                     Ok (arg_type :: arg_types, c)
                 end) c (combine (variant_fields v) args);
            Ok (Some (specialize_variant sum variant arg_types, c))
      | None => Ok None
      end
  | _ => Ok None
  end.

Definition check_renderable_builtin_call (c : TypeChecker) (name : string) (builtin : RenderableBuiltin)
    (arguments : list Expression) (first_ty : option Ty) (span : Span)
    : fueled TypeError (Ty * TypeChecker) :=
  if negb (length arguments =? arity builtin)%nat
  then throw (Te.WrongNumberOfArguments (Z.of_nat (arity builtin)) (Z.of_nat (length arguments)) span)
  else
    match arguments with
    | [] => panic
    | first :: others =>
        '(rendered, c) ← match first_ty with
                         | Some ty => Ok (ty, c)
                         | None => infer_argument c first NoTarget
                         end;
        if negb (is_renderable rendered) then throw (Te.NotRenderable name rendered span)
        else
          c ← infer_all_against c (combine (rest builtin) others) span;
          Ok (renderable_ret builtin, c)
    end.

(** The loop of [check_method_call_arguments], from explicit parameter [slot]. *)
Fixpoint check_method_arguments (c : TypeChecker) (stored : option (gset nat)) (slot : nat)
    (arguments : list (Param * Expression)) (span : Span) : fueled TypeError TypeChecker :=
  match arguments with
  | [] => Ok c
  | (parameter, arg) :: rest =>
      match type_annotation parameter with
      | None => panic
      | Some raw_type =>
          let parameter_type := resolve c raw_type in
          '(arg_type, c) ← infer_argument c arg (Declared parameter_type);
          _ ← lift (check_type_compatibility parameter_type arg_type span);
          _ ← match stored with
              | Some slots => if decide (S slot ∈ slots) then lift (check_store_not_crossing c arg span)
                              else Ok tt
              | None => Ok tt
              end;
          check_method_arguments c stored (S slot) rest span
      end
  end.

Definition check_method_call_arguments (c : TypeChecker) (type_name method_name : string)
    (method_parameters : list Param) (call_args : list Expression) (receiver : Expression) (span : Span)
    : fueled TypeError TypeChecker :=
  let stored := if reaches_setter_receiver (expression_aliasing c receiver) then None
                else setter_stored_parameters c !! (type_name, method_name) in
  check_method_arguments c stored 0 (combine method_parameters call_args) span.

(** A receiver that is the type's own name rather than a value. *)
Definition is_type_name_receiver (receiver : Expression) (type_name : string) : bool :=
  match receiver with Expression.Identifier name _ => bool_decide (name = type_name) | _ => false end.

Definition static_call_error (name type_name : string) (span : Span) : TypeError :=
  Te.StaticCallNeedsReceiverValue name type_name span.

(** A method two or more members share. *)
Definition check_overloaded_method (c : TypeChecker) (type_name name : string) (receiver : Expression)
    (call_args : list Expression) (span : Span) : fueled TypeError (Ty * TypeChecker) :=
  let qualified_name := qualified type_name name in
  '(call_arg_types, c) ←
    (fix infer c args := match args with
     | [] => Ok ([], c)
     | arg :: args =>
         '(ty, c) ← infer_expression c arg;
         '(tys, c) ← infer c args;
         Ok (ty :: tys, c)
     end) c call_args;
  if is_type_name_receiver receiver type_name
     && negb (overloaded_static_member c qualified_name call_arg_types)
  then throw (static_call_error name type_name span)
  else
    _ ← (if decide ((type_name, name) ∈ setter_methods c)
         then lift (require_mutable_receiver c receiver name span) else Ok tt);
    lift (resolve_overload c qualified_name call_arg_types (expression_span <$> call_args) span).

(** A method of its own; [None] when the type declares no such method. *)
Definition check_declared_method (c : TypeChecker) (type_name name : string) (receiver : Expression)
    (call_args : list Expression) (span : Span) : fueled TypeError (option (Ty * TypeChecker)) :=
  if bool_decide (is_Some (overloads c !! qualified type_name name)) then
    Some <$> check_overloaded_method c type_name name receiver call_args span
  else
    match checker_methods c !! (type_name, name) with
    | None => Ok None
    | Some (method_parameters, method_return_type, _) =>
        let type_name_receiver := is_type_name_receiver receiver type_name in
        if type_name_receiver && negb (bool_decide ((type_name, name) ∈ static_methods c))
        then throw (static_call_error name type_name span)
        else
          _ ← (if negb type_name_receiver && bool_decide ((type_name, name) ∈ setter_methods c)
               then lift (require_mutable_receiver c receiver name span) else Ok tt);
          if negb (length method_parameters =? length call_args)%nat
          then throw (Te.WrongNumberOfArguments (Z.of_nat (length method_parameters))
                        (Z.of_nat (length call_args)) span)
          else
            c ← check_method_call_arguments c type_name name method_parameters call_args receiver span;
            let recorded := default [] (method_call_args c !! (type_name, name)) in
            Ok (Some (method_return_type,
                      with_method_call_args c
                        (<[(type_name, name) := recorded ++ [expression_span <$> call_args]]>
                           (method_call_args c))))
    end.

(** ** The call *)

Definition plain_name (e : Expression) : option string :=
  match e with Expression.Identifier name _ => Some name | _ => None end.

(** A member call the receiver's type answers, built-in methods first; [None]
    when it does not. *)
Definition check_member (c : TypeChecker) (name : string) (receiver : Expression)
    (method_args : list Expression) (receiver_type : Ty) (span : Span)
    : fueled TypeError (option (Ty * TypeChecker)) :=
  match receiver_type with
  | Ty.Array elem =>
      if is_array_method name then Some <$> check_array_method c name elem method_args span else Ok None
  | Ty.Text =>
      if is_text_method name then Some <$> check_text_method c name receiver method_args span else Ok None
  | Ty.Map key value =>
      if is_map_method name
      then Some <$> check_map_method c name key value receiver method_args span else Ok None
  | Ty.Set_ elem =>
      if is_set_method name
      then Some <$> check_set_method c name elem receiver method_args span else Ok None
  | Ty.Named type_name _ _ | Ty.Sum type_name _ =>
      check_declared_method c type_name name receiver method_args span
  | _ => Ok None
  end.

Definition check_member_call (c : TypeChecker) (name : string) (receiver : Expression)
    (method_args : list Expression) (first_ty : option Ty) (span : Span)
    : fueled TypeError (Ty * TypeChecker) :=
  answered ← match first_ty with
             | Some receiver_type => check_member c name receiver method_args receiver_type span
             | None => Ok None
             end;
  match answered with
  | Some result => Ok result
  | None =>
      '(receiver_type, c) ← match first_ty with
                            | Some ty => Ok (ty, c)
                            | None => infer_argument c receiver NoTarget
                            end;
      throw (Te.UnknownMember (type_label receiver_type) name (names_a_callable c name)
               (plain_name receiver) (negb (bool_decide (method_args = []))) span)
  end.

(** A call of a function value. *)
Fixpoint check_value_arguments (c : TypeChecker) (first_ty : option Ty)
    (arguments : list (Ty * Expression)) (span : Span) : fueled TypeError TypeChecker :=
  match arguments with
  | [] => Ok c
  | (parameter_type, arg) :: rest =>
      '(arg_type, c) ← match first_ty with
                       | Some ty => Ok (ty, c)
                       | None => infer_argument c arg (Declared parameter_type)
                       end;
      _ ← lift (check_type_compatibility parameter_type arg_type span);
      check_value_arguments c None rest span
  end.

Definition check_value_call (c : TypeChecker) (function : Expression) (arguments : list Expression)
    (first_ty : option Ty) (span : Span) : fueled TypeError (Ty * TypeChecker) :=
  '(func_type, c) ← infer_expression c function;
  match func_type with
  | Ty.Function parameters return_type =>
      if negb (length parameters =? length arguments)%nat
         && negb (fills_call_site parameters (length arguments))
      then throw (Te.WrongNumberOfArguments (Z.of_nat (length (visible_parameters parameters)))
                    (Z.of_nat (length arguments)) span)
      else
        c ← check_value_arguments c first_ty (combine parameters arguments) span;
        Ok (return_type, c)
  | _ => throw (Te.NotAFunction func_type span)
  end.

(** A call of an overload set; a [__] name hides its built-in members from the
    user's files. *)
Definition check_set_call (c : TypeChecker) (name : string) (arguments : list Expression)
    (first_ty : option Ty) (span : Span) : fueled TypeError (Ty * TypeChecker) :=
  if String.prefix "__" name && negb (checking_corelib_declaration c)
     && bool_decide (is_Some (builtin_parameters name))
  then
    let saved := members c name in
    let c := with_overloads c (<[name := filter (λ o, is_builtin o = false) saved]> (overloads c)) in
    match check_overloaded_call infer_expression infer_argument c name arguments first_ty span with
    | Ok (ty, c) => Ok (ty, with_overloads c (<[name := saved]> (overloads c)))
    | throw (Te.NoMatchingOverload _ _ _ _ _) => throw (Te.UndefinedVariable name span)
    | Err e => Err e
    end
  else check_overloaded_call infer_expression infer_argument c name arguments first_ty span.

(** The plain form, in the top-level namespace. *)
Definition check_plain_call (c : TypeChecker) (function : Expression) (name : string)
    (arguments : list Expression) (first_ty : option Ty) (span : Span) : fueled TypeError (Ty * TypeChecker) :=
  let overloaded := bool_decide (name ∈ overloaded_names c) in
  let registered := bool_decide (is_Some (overloads c !! name)) in
  match first_ty with
  | Some receiver_type =>
      if negb (names_a_callable c name) && negb overloaded && type_has_member c receiver_type name
      then throw (Te.MethodCalledAsFunction (type_label receiver_type) name
                    (argument ← head arguments; plain_name argument)
                    (1 <? length arguments)%nat span)
      else Ok tt
  | None => Ok tt
  end ≫= λ _ : unit,
  match renderable_builtin name with
  | Some builtin =>
      if (length arguments =? arity builtin)%nat || negb overloaded
      then Some <$> check_renderable_builtin_call c name builtin arguments first_ty span
      else Ok None
  | None => Ok None
  end ≫= λ rendered,
  match rendered with
  | Some result => Ok result
  | None =>
      if overloaded && negb registered then throw (Te.OverloadCallBeforeDefinition name span)
      else if registered then check_set_call c name arguments first_ty span
      else check_value_call c function arguments first_ty span
  end.

(** The forms resolved ahead of every dispatch, of the plain form only. *)
Definition check_provided_call (c : TypeChecker) (name : string) (arguments : list Expression) (span : Span)
    : fueled TypeError (option (Ty * TypeChecker)) :=
  if is_assertion name then Some <$> check_assertion c name arguments span
  else if is_run_test_case name then
    if negb (checking_corelib_declaration c) then throw (Te.UndefinedVariable name span)
    else Some <$> check_run_test_case c arguments span
  else check_constructor_call c name arguments span.

(** The first argument's type, where it does not depend on what the call resolves to. *)
Definition infer_first (c : TypeChecker) (arguments : list Expression)
    : fueled TypeError (option Ty * TypeChecker) :=
  match arguments with
  | first :: _ =>
      if is_lambda first || is_empty_collection_literal first then Ok (None, c)
      else '(ty, c) ← infer_expression c first; Ok (Some ty, c)
  | [] => Ok (None, c)
  end.

Definition check_call (c : TypeChecker) (function : Expression) (arguments : list Expression)
    (member_call : bool) (span : Span) : fueled TypeError (Ty * TypeChecker) :=
  match function with
  | Expression.Identifier name _ =>
      _ ← match pending_return_type c with
          | Some (pending, def_span) =>
              if bool_decide (name = pending) then throw (Te.RecursiveFunctionNeedsReturnType name def_span)
              else Ok tt
          | None => Ok tt
          end;
      provided ← (if member_call then Ok None else check_provided_call c name arguments span);
      match provided with
      | Some result => Ok result
      | None =>
          '(first_ty, c) ← infer_first c arguments;
          if member_call then
            match arguments with
            | receiver :: method_args => check_member_call c name receiver method_args first_ty span
            | [] => '(got, _) ← infer_expression c function; throw (Te.NotAFunction got span)
            end
          else check_plain_call c function name arguments first_ty span
      end
  | _ =>
      if member_call then '(got, _) ← infer_expression c function; throw (Te.NotAFunction got span)
      else check_value_call c function arguments None span
  end.
End calls.
