(* ===== verification/Inference.v ===== *)
(** * Inference: [typechecker/checker/exprs.rs]

    The type of every form of expression, recorded under its span, and the knot
    that ties the checker's recursion.  The recursion is bounded by fuel: one unit
    per call of [infer_expression] or [infer_argument], and an error [None] is
    running out of it or a panic of the code. *)

From Stdlib Require Import Ascii.
From S2P Require Import Prelude Bytes Num Token Ast TypeMatch TypeErrors Env Checker Overloads Patterns Aliasing Declarations Calls.

(** ** Helpers of literals *)

Definition same_literal_key (a b : Expression) : bool :=
  match a, b with
  | Expression.Number a _, Expression.Number b _ => SpecFloat.SFeqb a b
  | Expression.String a _, Expression.String b _ => bool_decide (a = b)
  | Expression.Bool a _, Expression.Bool b _ => Bool.eqb a b
  | _, _ => false
  end.

Definition literal_key_label (key : Expression) : string :=
  match key with
  | Expression.Number value _ => string_of_bytes (f64_display value)
  | Expression.String value _ => value
  | Expression.Bool value _ => if value then "true" else "false"
  | _ => ""
  end.

Definition field_value (name : string) (fields : list (string * Expression)) : option Expression :=
  snd ∘ snd <$> list_find (λ f, f.1 = name) fields.

Definition listener_identity_mismatch (fields : list (string * Expression)) : option bool :=
  transport ← field_value "transport" fields;
  identity ← field_value "identity" fields;
  is_tls ← match transport with
           | Expression.Identifier name _ =>
               if bool_decide (name = "core.net.Plain") then Some false
               else if bool_decide (name = "core.net.TLS") then Some true else None
           | _ => None
           end;
  has_identity ← match identity with
                 | Expression.Identifier name _ =>
                     if bool_decide (name = "core.net.None") then Some false else None
                 | Expression.Call (Expression.Identifier name _) _ _ _ =>
                     if bool_decide (name ∈ ["core.net.Files"; "core.net.Base64"]) then Some true else None
                 | _ => None
                 end;
  if negb (Bool.eqb is_tls has_identity) then Some has_identity else None.

Definition checked_range_type (start end_ : Expression) (span : Span) : result TypeError Ty :=
  (fix check values :=
     match values with
     | [] => Ok (Ty.Array Ty.Num)
     | value :: values =>
         match check_range_endpoint value with
         | Ok _ => check values
         | Err message => Err (Te.InvalidBuiltinArgument message span)
         end
     end) (omap literal_number [start; end_]).

(** [name.strip_prefix('@')]. *)
Definition strip_at (name : string) : option string :=
  match name with
  | String.String a bare => if bool_decide (a = "@"%char) then Some bare else None
  | EmptyString => None
  end.

(** A later field of a name overrides an earlier one. *)
Fixpoint set_field (name : string) (ty : Ty) (fields : list (string * Ty)) : list (string * Ty) :=
  match fields with
  | [] => [(name, ty)]
  | f :: rest => if bool_decide (f.1 = name) then (f.1, ty) :: rest else f :: set_field name ty rest
  end.

(** What the loop of [infer_record] carries. *)
Record RecordMerge : Type := mkRecordMerge {
  merged : list (string * Ty);
  named_identity : option Ty;
  literal_field_names : gset string;
  spread_positions : gset string;
  spread_is_named : bool;
  spread_count : nat;
  any_positional_spread : bool;
  numbered_overrides : list (string * Span)
}.

(** One spread: the fields of its source, of type [src_type], over those so far. *)
Definition merge_spread (m : RecordMerge) (src_type : Ty) (src_span value_span : Span)
    : result TypeError RecordMerge :=
  m' ← match src_type with
       | Ty.Record fs =>
           if record_fields_are_positional fs
           then Ok (fs, mkRecordMerge (merged m) (named_identity m) (literal_field_names m)
                          (list_to_set fs.*1 ∪ spread_positions m) (spread_is_named m)
                          (S (spread_count m)) true (numbered_overrides m))
           else Ok (fs, mkRecordMerge (merged m) (named_identity m) (literal_field_names m)
                          (spread_positions m) true (S (spread_count m)) (any_positional_spread m)
                          (numbered_overrides m))
       | Ty.Named _ fs _ =>
           Ok (fs, mkRecordMerge (merged m)
                     (match named_identity m with None => Some src_type | identity => identity end)
                     (literal_field_names m) (spread_positions m) true (S (spread_count m))
                     (any_positional_spread m) (numbered_overrides m))
       | other => Err (Te.TypeMismatch (Ty.Record []) other src_span)
       end;
  let '(fs, m) := m' in
  if (1 <? spread_count m)%nat && any_positional_spread m
  then Err (Te.MultiplePositionalSpreads value_span)
  else Ok (mkRecordMerge (foldl (λ acc f, set_field f.1 f.2 acc) (merged m) fs) (named_identity m)
             (literal_field_names m) (spread_positions m) (spread_is_named m) (spread_count m)
             (any_positional_spread m) (numbered_overrides m)).

(** A [name = value] entry before its value is inferred. *)
Definition note_literal (m : RecordMerge) (has_spread : bool) (name : string) (span : Span)
    : result TypeError RecordMerge :=
  if bool_decide (name ∈ literal_field_names m) then Err (Te.DuplicateDefinition name span)
  else Ok (mkRecordMerge (merged m) (named_identity m) ({[name]} ∪ literal_field_names m)
             (spread_positions m) (spread_is_named m) (spread_count m) (any_positional_spread m)
             (numbered_overrides m
              ++ (if has_spread && is_positional_field name then [(name, span)] else []))).

Definition merge_literal (m : RecordMerge) (name : string) (ty : Ty) : RecordMerge :=
  mkRecordMerge (set_field name ty (merged m)) (named_identity m) (literal_field_names m)
    (spread_positions m) (spread_is_named m) (spread_count m) (any_positional_spread m)
    (numbered_overrides m).

Fixpoint check_numbered_overrides (m : RecordMerge) (overrides : list (string * Span))
    : result TypeError unit :=
  match overrides with
  | [] => Ok tt
  | (position, span) :: rest =>
      if spread_is_named m then Err (Te.PositionalAccessOnNamedRecord position span)
      else if negb (bool_decide (position ∈ spread_positions m))
      then Err (Te.RecordUpdatePositionOutOfRange position (Z.of_nat (size (spread_positions m))) span)
      else check_numbered_overrides m rest
  end.

(** The merged record's type: the first named source's when it is reproduced. *)
Definition record_type (m : RecordMerge) : Ty :=
  let anonymous := Ty.Record (canonical_record_field_order (merged m)) in
  match named_identity m with
  | Some (Ty.Named _ declared _ as named) =>
      if (length (merged m) =? length declared)%nat
         && forallb (λ d, match list_find (λ f, f.1 = d.1) (merged m) with
                          | Some (_, f) => types_compatible d.2 f.2
                          | None => false
                          end) declared
      then named else anonymous
  | _ => anonymous
  end.

Definition check_key_type (c : TypeChecker) (ty : Ty) (span : Span) : result TypeError unit :=
  let err message := Err (Te.InvalidBuiltinArgument message span) in
  let other := err ("a Map/Set key must be Num, Text, Bool, or a type defining both a `%` hash hook and an `==` member, got "
                      +:+ type_label ty) in
  match ty with
  | Ty.Num | Ty.Text | Ty.Bool => Ok tt
  | Ty.Named _ _ _ | Ty.Sum _ _ =>
      match has_exact_overload c "%" [ty], has_exact_overload c "==" [ty; ty] with
      | true, true => Ok tt
      | true, false =>
          err ("type " +:+ type_label ty
               +:+ " is used as a Map/Set key and defines a `%` hash hook but no matching `==` member (`== = (other :: "
               +:+ type_label ty +:+ ") -> Bool`); a key type needs both")
      | false, true =>
          err ("type " +:+ type_label ty
               +:+ " is used as a Map/Set key and defines an `==` member but no `%` hash hook (`% = () -> Num`); a key type needs both")
      | false, false => other
      end
  | _ => other
  end.

(** What the types of an operator's operands decide before overload dispatch:
    arrays under [+], sets under [+], [-] and [+-]. *)
Definition merge_array_element (elem other : Ty) (span : Span) : result TypeError Ty :=
  if Ty_eq elem other then Ok (Ty.Array elem)
  else _ ← check_type_compatibility elem other span; Ok (Ty.Array (merge_types elem other)).

Definition is_array (ty : Ty) : bool := match ty with Ty.Array _ => true | _ => false end.
Definition is_set (ty : Ty) : bool := match ty with Ty.Set_ _ => true | _ => false end.

(** Concat, append, prepend, in this order. *)
Definition array_sum_type (left_type right_type : Ty) (span : Span) : result TypeError Ty :=
  let concat := match left_type, right_type with
                | Ty.Array l, Ty.Array r => if types_match l r then Some (l, r) else None
                | _, _ => None
                end in
  let append := match left_type with
                | Ty.Array l => if types_match l right_type then Some (l, right_type) else None
                | _ => None
                end in
  let prepend := match right_type with
                 | Ty.Array r => if types_match r left_type then Some (left_type, r) else None
                 | _ => None
                 end in
  match concat, append, prepend with
  | Some (elem, other), _, _ | None, Some (elem, other), _ | None, None, Some (elem, other) =>
      merge_array_element elem other span
  | None, None, None => Err (Te.TypeMismatch left_type right_type span)
  end.

Definition is_set_operator (operator : BinaryOperator) : bool :=
  match operator with Binary.Add | Binary.Sub | Binary.SetIntersect => true | _ => false end.

Definition set_algebra_type (left_type right_type : Ty) (span : Span) : result TypeError Ty :=
  match left_type, right_type with
  | Ty.Set_ l_elem, Ty.Set_ r_elem =>
      if types_match l_elem r_elem then Ok left_type else Err (Te.TypeMismatch left_type right_type span)
  | _, _ => Err (Te.TypeMismatch left_type right_type span)
  end.

Definition binary_operator_type (c : TypeChecker) (operator : BinaryOperator) (left_type right_type : Ty)
    (left_span right_span span : Span) : result TypeError (Ty * TypeChecker) :=
  if bool_decide (operator = Binary.Add) && (is_array left_type || is_array right_type)
  then ty ← array_sum_type left_type right_type span; Ok (ty, c)
  else if is_set_operator operator && (is_set left_type || is_set right_type)
  then ty ← set_algebra_type left_type right_type span; Ok (ty, c)
  else if bool_decide (operator = Binary.SetIntersect)
  then Err (Te.TypeMismatch (Ty.Set_ Ty.Num) left_type span)
  else resolve_overload c (symbol operator) [left_type; right_type] [left_span; right_span] span.

(** ** Fields *)

(** The type of a field read on a value whose type is not a sum read for its payload. *)
Definition field_type (c : TypeChecker) (expression_type : Ty) (field : string) (span : Span)
    : fueled TypeError Ty :=
  let undefined := throw (Te.UndefinedVariable field span) in
  let lookup_field fields := snd ∘ snd <$> list_find (λ f, f.1 = field) fields in
  match expression_type with
  | Ty.Record fields =>
      if is_positional_field field then
        if negb (record_fields_are_positional fields)
        then throw (Te.PositionalAccessOnNamedRecord field span)
        else
          let position := default usize_max (from_str_radix 10 (bs field)) in
          match (if (position <? Z.of_nat (length fields))%Z then fields !! Z.to_nat position else None) with
          | Some (_, ty) => Ok ty
          | None => throw (Te.RecordPositionOutOfRange field (Z.of_nat (length fields)) span)
          end
      else match lookup_field fields with Some ty => Ok ty | None => undefined end
  | Ty.Named _ _ _ =>
      if is_positional_field field then throw (Te.PositionalAccessOnNamedRecord field span)
      else
        match resolve_payload c expression_type with
        | Ty.Named _ fields _ =>
            match lookup_field fields with Some ty => Ok (resolve_payload c ty) | None => undefined end
        | _ => panic
        end
  | Ty.Array _ | Ty.Map _ _ | Ty.Set_ _ => if bool_decide (field = "size") then Ok Ty.Num else undefined
  | Ty.Text => if bool_decide (field ∈ ["size"; "length"]) then Ok Ty.Num else undefined
  | _ => throw (Te.TypeMismatch (Ty.Record []) expression_type span)
  end.

(** [sums.rs]: [.payload] of a sum whose variant is known. *)
Definition known_variant (c : TypeChecker) (receiver : Expression) (receiver_type : Ty) : option string :=
  match (match receiver with
         | Expression.Identifier binding _ =>
             match elements <$> narrowed_variants (env c) binding with Some [variant] => Some variant | _ => None end
         | _ => None
         end) with
  | Some variant => Some variant
  | None => constructed_variant receiver receiver_type
  end.

Definition payload_access (c : TypeChecker) (receiver : Expression) (name : string)
    (variants : list SumVariant) (span : Span) : result TypeError (Ty * TypeChecker) :=
  match known ← known_variant c receiver (Ty.Sum name variants);
        snd <$> list_find (λ variant, variant_name variant = known) variants with
  | None => Err (Te.PayloadOfUnknownVariant name span)
  | Some variant =>
      match variant_fields variant with
      | [] => Err (Te.PayloadOfPayloadlessVariant (variant_name variant) span)
      | payload :: _ =>
          Ok (resolve_payload c payload,
              with_type_table c (<[expression_span receiver := Ty.Sum name [variant]]> (type_table c)))
      end
  end.

(** ** The write gates *)

Definition check_write_target_mutable (c : TypeChecker) (base : Expression) (span : Span)
    : result TypeError unit :=
  match immutable_write_witness c base with
  | Some name => Err (Te.ImmutableFieldWrite name span)
  | None => Ok tt
  end.

Definition check_write_value_not_crossing (c : TypeChecker) (base value : Expression) (span : Span)
    : result TypeError unit :=
  let base_aliasing := expression_aliasing c base in
  if bool_decide (is_Some (mutable_witness base_aliasing)) && negb (reaches_setter_receiver base_aliasing)
  then check_store_not_crossing c value span else Ok tt.

Section inference.
Variable infer_expression : TypeChecker → Expression → fueled TypeError (Ty * TypeChecker).
Variable infer_argument : TypeChecker → Expression → LambdaTarget → fueled TypeError (Ty * TypeChecker).

Fixpoint check_interpolation (c : TypeChecker) (parts : list (InterpolationPart Expression))
    : fueled TypeError (Ty * TypeChecker) :=
  match parts with
  | [] => Ok (Ty.Text, c)
  | PartHole e :: rest => '(_, c) ← infer_expression c e; check_interpolation c rest
  | PartLiteral _ :: rest => check_interpolation c rest
  end.

Definition check_binary_operator (c : TypeChecker) (left_ : Expression) (operator : BinaryOperator)
    (right_ : Expression) (span : Span) : fueled TypeError (Ty * TypeChecker) :=
  '(left_type, c) ← infer_expression c left_;
  '(right_type, c) ←
    (if is_set_operator operator && (is_array left_type || is_set left_type)
     then infer_expression_expecting infer_expression c right_ (Some left_type)
     else infer_expression c right_);
  lift (binary_operator_type c operator left_type right_type (expression_span left_)
          (expression_span right_) span).

Definition check_unary_operator (c : TypeChecker) (operator : UnaryOperator) (expression : Expression)
    (span : Span) : fueled TypeError (Ty * TypeChecker) :=
  let ty := match operator with Neg => Ty.Num | Not => Ty.Bool end in
  c ← infer_against infer_expression c expression ty span;
  Ok (ty, c).

(** *** Literals *)

(** One element's contribution: a spread's is the element type of its source. *)
Definition infer_element (c : TypeChecker) (elem : Expression) : fueled TypeError (Ty * TypeChecker) :=
  '(ty, c) ← infer_expression c elem;
  match elem with
  | Expression.Spread src _ =>
      match ty with
      | Ty.Array inner => Ok (inner, c)
      | other => throw (Te.TypeMismatch (Ty.Array Ty.Num) other (expression_span src))
      end
  | _ => Ok (ty, c)
  end.

Fixpoint infer_elements (c : TypeChecker) (running : Ty) (elements : list Expression) (span : Span)
    : fueled TypeError (Ty * TypeChecker) :=
  match elements with
  | [] => Ok (running, c)
  | elem :: rest =>
      '(contributed, c) ← infer_element c elem;
      if Ty_eq running contributed then infer_elements c running rest span
      else
        _ ← lift (check_type_compatibility running contributed span);
        infer_elements c (merge_types running contributed) rest span
  end.

Definition infer_array_literal (c : TypeChecker) (elements : list Expression) (span : Span)
    : fueled TypeError (Ty * TypeChecker) :=
  match elements with
  | [] => throw (Te.InvalidBuiltinArgument "empty array literal `[]` has no element type: annotate the binding (`:: []T`), or use it where an expected array type is already known — a call argument's parameter type, or a function's declared return type" span)
  | elem :: rest =>
      '(first, c) ← infer_element c elem;
      '(elem_type, c) ← infer_elements c first rest span;
      Ok (Ty.Array elem_type, c)
  end.

(** The entries after those in [seen]; [types] is the first entry's. *)
Fixpoint infer_entries (c : TypeChecker) (seen : list Expression) (types : option (Ty * Ty))
    (entries : list (Expression * Expression)) (span : Span)
    : fueled TypeError (option (Ty * Ty) * TypeChecker) :=
  match entries with
  | [] => Ok (types, c)
  | (key, value) :: rest =>
      if existsb (λ previous, same_literal_key previous key) seen
      then throw (Te.DuplicateDefinition (literal_key_label key) (expression_span key))
      else
        '(k, c) ← infer_expression c key;
        _ ← lift (check_key_type c k (expression_span key));
        '(v, c) ← infer_expression c value;
        types ← match types with
                | None => Ok (k, v)
                | Some (key_type, value_type) =>
                    _ ← lift (check_type_compatibility key_type k span);
                    _ ← lift (check_type_compatibility value_type v span);
                    Ok (key_type, value_type)
                end;
        infer_entries c (seen ++ [key]) (Some types) rest span
  end.

Definition infer_map_literal (c : TypeChecker) (entries : list (Expression * Expression)) (span : Span)
    : fueled TypeError (Ty * TypeChecker) :=
  '(types, c) ← infer_entries c [] None entries span;
  match types with
  | None => throw (Te.InvalidBuiltinArgument "empty map literal `[|=>|]` has no key/value type: annotate the binding (`:: [|K => V|]`), or use it where an expected map type is already known — a call argument's parameter type, or a function's declared return type" span)
  | Some (key_type, value_type) => Ok (Ty.Map key_type value_type, c)
  end.

Fixpoint infer_members (c : TypeChecker) (elem_type : option Ty) (elements : list Expression) (span : Span)
    : fueled TypeError (option Ty * TypeChecker) :=
  match elements with
  | [] => Ok (elem_type, c)
  | elem :: rest =>
      '(t, c) ← infer_expression c elem;
      _ ← lift (check_key_type c t (expression_span elem));
      elem_type ← match elem_type with
                  | None => Ok t
                  | Some first => _ ← lift (check_type_compatibility first t span); Ok first
                  end;
      infer_members c (Some elem_type) rest span
  end.

Definition infer_set_literal (c : TypeChecker) (elements : list Expression) (span : Span)
    : fueled TypeError (Ty * TypeChecker) :=
  '(elem_type, c) ← infer_members c None elements span;
  match elem_type with
  | None => throw (Te.InvalidBuiltinArgument "empty set literal `[||]` has no element type: annotate the binding (`:: [|T|]`), or use it where an expected set type is already known — a call argument's parameter type, or a function's declared return type" span)
  | Some ty => Ok (Ty.Set_ ty, c)
  end.

Definition is_spread (e : Expression) : bool :=
  match e with Expression.Spread _ _ => true | _ => false end.

Fixpoint infer_fields (c : TypeChecker) (m : RecordMerge) (has_spread : bool)
    (fields : list (string * Expression)) : fueled TypeError (RecordMerge * TypeChecker) :=
  match fields with
  | [] => Ok (m, c)
  | (name, value) :: rest =>
      '(m, c) ← match value with
                | Expression.Spread src _ =>
                    '(src_type, c) ← infer_expression c value;
                    m ← lift (merge_spread m src_type (expression_span src) (expression_span value));
                    Ok (m, c)
                | _ =>
                    m ← lift (note_literal m has_spread name (expression_span value));
                    '(value_type, c) ← infer_expression c value;
                    Ok (merge_literal m name value_type, c)
                end;
      infer_fields c m has_spread rest
  end.

Definition infer_record (c : TypeChecker) (fields : list (string * Expression))
    : fueled TypeError (Ty * TypeChecker) :=
  '(m, c) ← infer_fields c (mkRecordMerge [] None ∅ ∅ false 0 false [])
              (existsb (λ f, is_spread f.2) fields) fields;
  _ ← lift (check_numbered_overrides m (numbered_overrides m));
  Ok (record_type m, c).

(** *** Constructors of records *)

Definition fills (name : string) (type_fields : list (string * Ty)) (methods : list string) (src_type : Ty)
    : bool :=
  match src_type with
  | Ty.Named src_name _ _ => bool_decide (src_name = name)
  | Ty.Record src_fields =>
      bool_decide (methods = []) && (length src_fields =? length type_fields)%nat
      && forallb (λ f, existsb (λ s, bool_decide (s.1 = f.1) && types_match f.2 s.2) src_fields) type_fields
  | _ => false
  end.

(** The fields, with those provided and those written so far. *)
Fixpoint check_constructor_fields (c : TypeChecker) (type_name name : string)
    (type_fields : list (string * Ty)) (methods : list string) (provided literal : gset string)
    (fields : list (string * Expression)) (span : Span) : fueled TypeError (gset string * TypeChecker) :=
  match fields with
  | [] => Ok (provided, c)
  | (field_name, field_expression) :: rest =>
      match field_expression with
      | Expression.Spread src _ =>
          '(src_type, c) ← infer_expression c src;
          if negb (fills name type_fields methods src_type)
          then throw (Te.TypeMismatch (Ty.Named name type_fields methods) src_type span)
          else check_constructor_fields c type_name name type_fields methods
                 (list_to_set type_fields.*1 ∪ provided) literal rest span
      | _ =>
          if bool_decide (field_name ∈ literal) then throw (Te.DuplicateDefinition field_name span)
          else
            match list_find (λ f, f.1 = field_name) type_fields with
            | None => throw (Te.UnknownConstructorField type_name field_name span)
            | Some (_, (_, declared)) =>
                let expected_type := resolve_payload c declared in
                '(actual_type, c) ←
                  infer_expression_expecting infer_expression c field_expression (Some expected_type);
                _ ← lift (check_type_compatibility expected_type actual_type span);
                check_constructor_fields c type_name name type_fields methods
                  ({[field_name]} ∪ provided) ({[field_name]} ∪ literal) rest span
            end
      end
  end.

Definition check_constructor (c : TypeChecker) (type_name : string) (fields : list (string * Expression))
    (span : Span) : fueled TypeError (Ty * TypeChecker) :=
  match type_ <$> lookup (env c) type_name with
  | None => throw (Te.UndefinedVariable type_name span)
  | Some (Ty.Named name type_fields methods as ty) =>
      '(provided, c) ← check_constructor_fields c type_name name type_fields methods ∅ ∅ fields span;
      match list_find (λ f, f.1 ∉ provided) type_fields with
      | Some (_, (field_name, _)) => throw (Te.MissingConstructorField type_name field_name span)
      | None =>
          match (if bool_decide (name = "core.net.Listener") then listener_identity_mismatch fields else None) with
          | Some has_identity => throw (Te.ListenerIdentityMismatch has_identity span)
          | None => Ok (ty, c)
          end
      end
  | Some ty => throw (Te.TypeMismatch (named_ref type_name) ty span)
  end.

(** *** Blocks, choices and writes *)

Fixpoint check_block (c : TypeChecker) (statements : list (Statement Expression)) (span : Span)
    : fueled TypeError (Ty * TypeChecker) :=
  match statements with
  | [] => throw (Te.InvalidBuiltinArgument "a `< >` block has no value: it has no statements — a block needs at least one, and its last one is what the block evaluates to" span)
  | [StatementItem item] =>
      c ← check_item infer_expression infer_argument c item Nested; Ok (Ty.Unit, c)
  | [StatementExpression e] => infer_expression c e
  | StatementItem item :: rest =>
      c ← check_item infer_expression infer_argument c item Nested; check_block c rest span
  | StatementExpression e :: rest => '(_, c) ← infer_expression c e; check_block c rest span
  end.

Definition check_if (c : TypeChecker) (condition then_ else_ : Expression) (span : Span)
    : fueled TypeError (Ty * TypeChecker) :=
  c ← infer_against infer_expression c condition Ty.Bool span;
  let narrowing_before := snapshot_narrowing (env c) in
  let restore := map_env (λ e, restore_narrowing e narrowing_before) in
  '(then_type, c) ← infer_expression c then_;
  '(else_type, c) ← infer_expression (restore c) else_;
  _ ← lift (check_type_compatibility then_type else_type span);
  Ok (merge_types then_type else_type, restore c).

Definition check_field_access (c : TypeChecker) (expression : Expression) (field : string) (span : Span)
    : fueled TypeError (Ty * TypeChecker) :=
  '(expression_type, c) ← infer_expression c expression;
  match expression_type with
  | Ty.Sum name variants =>
      if bool_decide (field = "payload") then lift (payload_access c expression name variants span)
      else ty ← field_type c expression_type field span; Ok (ty, c)
  | _ => ty ← field_type c expression_type field span; Ok (ty, c)
  end.

(** What a field write and an element write share, once the target is inferred. *)
Definition check_write (c : TypeChecker) (base value : Expression) (target_type : Ty) (span : Span)
    : fueled TypeError (Ty * TypeChecker) :=
  _ ← lift (check_write_target_mutable c base span);
  c ← infer_against infer_expression c value target_type span;
  _ ← lift (check_write_value_not_crossing c base value span);
  Ok (Ty.Unit, c).

Definition check_field_assign (c : TypeChecker) (target value : Expression) (span : Span)
    : fueled TypeError (Ty * TypeChecker) :=
  '(target_type, c) ← infer_expression c target;
  match target with
  | Expression.FieldAccess base field _ =>
      if match type_at c (expression_span base) with Some ty => is_site_type ty | None => false end
      then throw (Te.SiteIsImmutable field span)
      else check_write c base value target_type span
  | _ => panic
  end.

Definition check_index_assign (c : TypeChecker) (target value : Expression) (span : Span)
    : fueled TypeError (Ty * TypeChecker) :=
  '(elem_type, c) ← infer_expression c target;
  match target with
  | Expression.Index base _ _ => check_write c base value elem_type span
  | _ => panic
  end.

Definition check_index (c : TypeChecker) (expression index : Expression) (span : Span)
    : fueled TypeError (Ty * TypeChecker) :=
  '(expression_type, c) ← infer_expression c expression;
  '(index_type, c) ← infer_expression c index;
  match expression_type with
  | Ty.Array elem_type => _ ← lift (check_type_compatibility Ty.Num index_type span); Ok (elem_type, c)
  | Ty.Map _ _ => throw (Te.InvalidBuiltinArgument "Map has no index access — use `.get(k)`, which returns `Ok(value)` when the key is present and `NotOk` when it is absent" span)
  | _ => throw (Te.TypeMismatch (Ty.Array Ty.Num) expression_type span)
  end.

Definition check_range (c : TypeChecker) (start end_ : Expression) (span : Span)
    : fueled TypeError (Ty * TypeChecker) :=
  c ← infer_against infer_expression c start Ty.Num span;
  c ← infer_against infer_expression c end_ Ty.Num span;
  ty ← lift (checked_range_type start end_ span);
  Ok (ty, c).

Definition infer_identifier (c : TypeChecker) (name : string) (span : Span) : result TypeError Ty :=
  match get_type (env c) name with
  | Some ty => Ok ty
  | None =>
      match bare ← strip_at name; _ ← get_type (env c) bare; Some bare with
      | Some bare => Err (Te.AtomicBindingUsedBare bare span)
      | None => Err (Te.UndefinedVariable name span)
      end
  end.

(** A test block's and a case's arguments are checked one level deeper. *)
Definition check_marked_call (c : TypeChecker) (function : Expression) (arguments : list Expression)
    (member_call : bool) (span : Span) : fueled TypeError (Ty * TypeChecker) :=
  let opens marker : Z := if bool_decide (plain_name function = Some marker) then 1%Z else 0%Z in
  let opens_block := opens TEST_BLOCK_MARKER in
  let opens_case := opens TEST_CASE_MARKER in
  '(ty, c) ← check_call infer_expression infer_argument
               (with_depths c (test_depth c + opens_block) (case_depth c + opens_case))
               function arguments member_call span;
  Ok (ty, with_depths c (test_depth c - opens_block) (case_depth c - opens_case)).

(** ** Every form *)

Definition infer_expression_inner (c : TypeChecker) (expression : Expression)
    : fueled TypeError (Ty * TypeChecker) :=
  match expression with
  | Expression.Number _ _ => Ok (Ty.Num, c)
  | Expression.String _ _ => Ok (Ty.Text, c)
  | Expression.Interpolation parts _ => check_interpolation c parts
  | Expression.Bool _ _ => Ok (Ty.Bool, c)
  | Expression.Unit _ => Ok (Ty.Unit, c)
  | Expression.Identifier name span => ty ← lift (infer_identifier c name span); Ok (ty, c)
  | Expression.BinaryOperator left_ operator right_ span =>
      check_binary_operator c left_ operator right_ span
  | Expression.UnaryOperator operator expression span => check_unary_operator c operator expression span
  | Expression.Call function arguments member_call span =>
      check_marked_call c function arguments member_call span
  | Expression.Lambda parameters return_type body _ =>
      check_lambda infer_expression infer_argument c parameters return_type body
  | Expression.Block statements span => check_block c statements span
  | Expression.If condition then_ else_ span => check_if c condition then_ else_ span
  | Expression.Match expression arms span =>
      check_match infer_expression expression_aliasing c expression arms span
  | Expression.FieldAccess expression field span => check_field_access c expression field span
  | Expression.FieldAssign target value span => check_field_assign c target value span
  | Expression.Index expression index span => check_index c expression index span
  | Expression.IndexAssign target value span => check_index_assign c target value span
  | Expression.Array elements span => infer_array_literal c elements span
  | Expression.MapLiteral entries span => infer_map_literal c entries span
  | Expression.SetLiteral elements span => infer_set_literal c elements span
  | Expression.Record fields _ => infer_record c fields
  | Expression.Constructor type_name fields span => check_constructor c type_name fields span
  | Expression.Range start end_ span => check_range c start end_ span
  | Expression.Spread expression _ => infer_expression c expression
  end.
End inference.

(** ** The knot *)

Fixpoint infer_expression (fuel : nat) (c : TypeChecker) (expression : Expression)
    : fueled TypeError (Ty * TypeChecker) :=
  match fuel with
  | O => out_of_fuel
  | S fuel =>
      '(ty, c) ← infer_expression_inner (infer_expression fuel) (infer_argument fuel) c expression;
      Ok (ty, with_type_table c (<[expression_span expression := ty]> (type_table c)))
  end
with infer_argument (fuel : nat) (c : TypeChecker) (argument : Expression) (target : LambdaTarget)
    : fueled TypeError (Ty * TypeChecker) :=
  match fuel with
  | O => out_of_fuel
  | S fuel => infer_argument_inner (infer_expression fuel) (infer_argument fuel) c argument target
  end.
