(* ===== verification/ResultPins.v ===== *)
(** * Pinning bare [Result] parameters: [typechecker/checker/sums.rs]

    Once a program's calls are known, a parameter annotated [:: Result] and matched
    directly takes its payload types from what its callers pass.  A panic of the
    code is an error [None]. *)

From S2P Require Import Prelude Bytes Token Ast TypeMatch TypeErrors Env Checker Overloads Patterns Walk Reachability Declarations Calls.

(** ** Reads of a bound payload *)

Fixpoint pattern_binds (pattern : Pattern) (name : string) : bool :=
  match pattern with
  | Pattern.Identifier n _ => bool_decide (n = name)
  | Pattern.Constructor _ arguments _ => existsb (λ argument, pattern_binds argument name) arguments
  | Pattern.Wildcard _ | Pattern.Number _ _ | Pattern.Text _ _ => false
  end.

Definition binds_parameter (name : string) (parameters : list Param) : bool :=
  existsb (λ p, bool_decide (parameter_name p = name)) parameters.

(** The spans in which one statement of a block rebinds the name. *)
Definition statement_shadows (name : string) (block : Span) (statement : Statement Expression) : list Span :=
  match statement with
  | StatementItem (ItemFunction nested) =>
      (if binds_parameter name (parameters nested) then [function_span nested] else [])
      ++ (if bool_decide (function_name nested = name)
          then [mkSpan (start (function_span nested)) (end_ block) (file block)] else [])
  | StatementItem (ItemType d) =>
      omap (λ m, if binds_parameter name (method_parameters m) then Some (method_span m) else None)
        (methods (type_definition d))
  | StatementItem (ItemVariable local) =>
      if bool_decide (variable_name local = name)
      then [mkSpan (end_ (expression_span (variable_value local))) (end_ block) (file block)] else []
  | _ => []
  end.

(** What one node adds to the occurrences and the shadows. *)
Definition note_reads (name : string) (expression : Expression) (found : list Span * list Span)
    : list Span * list Span :=
  let '(occurrences, shadows) := found in
  match expression with
  | Expression.Identifier n span =>
      if bool_decide (n = name) then (occurrences ++ [span], shadows) else found
  | Expression.Lambda parameters _ _ span =>
      if binds_parameter name parameters then (occurrences, shadows ++ [span]) else found
  | Expression.Match _ arms _ =>
      (occurrences, shadows ++ omap (λ arm, if pattern_binds (arm_pattern arm) name
                                            then Some (expression_span (arm_body arm)) else None) arms)
  | Expression.Block statements span =>
      (occurrences, shadows ++ (statements ≫= statement_shadows name span))
  | _ => found
  end.

Definition covers (occurrence shadow : Span) : bool :=
  (file shadow =? file occurrence)%Z && (start shadow <=? start occurrence)%Z
  && (end_ occurrence <=? end_ shadow)%Z.

Definition is_payload_read (arm_body : Expression) (name : string) : bool :=
  let '(occurrences, shadows) :=
    match try_for_each_subexpression (B := Empty_set) (λ e found, Continue (note_reads name e found))
            arm_body ([], []) with
    | Continue found | Break _ found => found
    end in
  existsb (λ occurrence, negb (existsb (covers occurrence) shadows)) occurrences.

(** ** What calls a declaration *)

Inductive CallOrigin : Type :=
| CalledNamed (name : string)
| CalledMethod (type_name method_name : string)
| CalledOverload (name : string) (parameter_types : list Ty).

Record NestedDeclaration : Type := mkNestedDeclaration {
  nested_name : string;
  nested_parameters : list Param;
  declared : option (list Ty);
  nested_body : Expression;
  owning_type : option string;
  top_level_function : bool
}.

Definition function_candidate (d : FunctionDeclaration Expression) (top_level : bool) : NestedDeclaration :=
  mkNestedDeclaration (function_name d) (parameters d) (declared_parameters d) (function_body d) None top_level.
Definition method_candidate (type_name : string) (m : MethodDeclaration Expression) : NestedDeclaration :=
  mkNestedDeclaration (method_name m) (method_parameters m) None (method_body m) (Some type_name) false.

Definition candidates_at (expression : Expression) : list NestedDeclaration :=
  match expression with
  | Expression.Lambda parameters _ body _ =>
      [mkNestedDeclaration "a lambda" parameters None body None false]
  | Expression.Block statements _ =>
      statements ≫= λ statement,
        match statement with
        | StatementItem (ItemFunction nested) => [function_candidate nested false]
        | StatementItem (ItemVariable local) =>
            match variable_value local with
            | Expression.Lambda parameters _ body _ =>
                [mkNestedDeclaration (variable_name local) parameters None body None false]
            | _ => []
            end
        | StatementItem (ItemType d) => method_candidate (type_name d) <$> methods (type_definition d)
        | _ => []
        end
  | _ => []
  end.

Definition nested_declaration_candidates (body : Expression) : list NestedDeclaration :=
  match try_for_each_subexpression (B := Empty_set) (λ e out, Continue (out ++ candidates_at e)) body [] with
  | Continue out | Break _ out => out
  end.

Definition item_candidates (item : Item Expression) : list NestedDeclaration :=
  match item with
  | ItemFunction d =>
      if is_inert_corelib_placeholder d then []
      else function_candidate d true :: nested_declaration_candidates (function_body d)
  | ItemType d =>
      methods (type_definition d) ≫= λ m,
        method_candidate (type_name d) m :: nested_declaration_candidates (method_body m)
  | ItemVariable d =>
      match variable_value d with
      | Expression.Lambda parameters _ body _ =>
          mkNestedDeclaration (variable_name d) parameters None body None false
          :: nested_declaration_candidates body
      | other => nested_declaration_candidates other
      end
  | ItemTrap trap => arms trap ≫= λ arm, nested_declaration_candidates (arm_body arm)
  end.

Definition declaration_candidates (program : Program) : list NestedDeclaration :=
  items program ≫= item_candidates.

(** The plain calls of a program by callee, each as the spans of its arguments. *)
Definition CallIndex : Type := gmap string (list (list Span)).

Definition index_call (expression : Expression) (index : CallIndex) : CallIndex :=
  match expression with
  | Expression.Call (Expression.Identifier name _) arguments false _ =>
      <[name := default [] (index !! name) ++ [expression_span <$> arguments]]> index
  | _ => index
  end.

Definition index_expression (index : CallIndex) (expression : Expression) : CallIndex :=
  match try_for_each_subexpression (B := Empty_set) (λ e index, Continue (index_call e index)) expression index with
  | Continue index | Break _ index => index
  end.

Definition item_expressions (item : Item Expression) : list Expression :=
  match item with
  | ItemFunction d => [function_body d]
  | ItemVariable d => [variable_value d]
  | ItemType d => method_body <$> methods (type_definition d)
  | ItemTrap trap => arm_body <$> arms trap
  end.

Definition index_program_calls (program : Program) : CallIndex :=
  foldl index_expression ∅ (items program ≫= item_expressions).

(** ** Unifying what the callers pass *)

Definition unify_result_pin (pinned : option Ty) (field : Ty) (span : Span) : result TypeError (option Ty) :=
  if is_generic field then Ok pinned
  else
    match pinned with
    | Some existing => if Ty_eq existing field then Ok pinned else Err (Te.TypeMismatch existing field span)
    | None => Ok (Some field)
    end.

(** The payload of a variant, where some site needs it; a variant of a [Result]
    always has one. *)
Definition unify_variant (needed : bool) (variant : string) (variants : list SumVariant) (pinned : option Ty)
    (span : Span) : fueled TypeError (option Ty) :=
  if needed then
    match snd <$> list_find (λ v, variant_name v = variant) variants with
    | None => Ok pinned
    | Some v => match variant_fields v with
                | field :: _ => lift (unify_result_pin pinned field span)
                | [] => panic
                end
    end
  else Ok pinned.

Section pins.
Variable c : TypeChecker.
Variable calls_by_name : CallIndex.

(** [expect] fails on a parameter with no annotation and no slot. *)
Fixpoint resolved_parameter_types (parameters : list Param) (declared : option (list Ty)) (index : nat)
    : fueled TypeError (list Ty) :=
  match parameters with
  | [] => Ok []
  | p :: rest =>
      match (match type_annotation p with
             | Some annotation => Some annotation
             | None => slots ← declared; slots !! index
             end) with
      | None => panic
      | Some annotation =>
          types ← resolved_parameter_types rest declared (S index);
          Ok (resolve c annotation :: types)
      end
  end.

Definition method_call_origin (owning_type method_name : string) (parameters : list Param)
    : fueled TypeError CallOrigin :=
  let qualified_name := qualified owning_type method_name in
  if bool_decide (is_Some (overloads c !! qualified_name))
  then types ← resolved_parameter_types parameters None 0; Ok (CalledOverload qualified_name types)
  else Ok (CalledMethod owning_type method_name).

Definition call_argument_spans (origin : CallOrigin) : list (list Span) :=
  match origin with
  | CalledNamed name => default [] (calls_by_name !! name)
  | CalledMethod type_name method_name => default [] (method_call_args c !! (type_name, method_name))
  | CalledOverload name parameter_types =>
      omap (λ call, if vec_eq Ty_eq call.1 parameter_types then Some call.2 else None)
        (default [] (overload_call_args c !! name))
  end.

(** The callers' [Ok] and [NotOk] payloads. *)
Fixpoint fold_pins (needs_ok needs_not_ok : bool) (index : nat) (ok_pin not_ok_pin : option Ty)
    (calls : list (list Span)) : fueled TypeError (option Ty * option Ty) :=
  match calls with
  | [] => Ok (ok_pin, not_ok_pin)
  | call_args :: rest =>
      '(ok_pin, not_ok_pin) ←
        match argument_span ← call_args !! index; ty ← type_table c !! argument_span; Some (argument_span, ty) with
        | Some (argument_span, Ty.Sum sum_name variants) =>
            if bool_decide (sum_name = RESULT_TYPE_NAME) then
              ok_pin ← unify_variant needs_ok OK variants ok_pin argument_span;
              not_ok_pin ← unify_variant needs_not_ok NOT_OK variants not_ok_pin argument_span;
              Ok (ok_pin, not_ok_pin)
            else Ok (ok_pin, not_ok_pin)
        | _ => Ok (ok_pin, not_ok_pin)
        end;
      fold_pins needs_ok needs_not_ok index ok_pin not_ok_pin rest
  end.

(** The first site that reads a payload nothing pinned. *)
Definition check_unpinned (name parameter_name variant : string) (pin : option Ty)
    (bindings : list (string * Span * Expression)) : result TypeError unit :=
  match pin with
  | Some _ => Ok tt
  | None =>
      match list_find (λ b, is_payload_read b.2 b.1.1 = true) bindings with
      | Some (_, (_, span, _)) => Err (Te.UnresolvedResultPayload name parameter_name variant span)
      | None => Ok tt
      end
  end.

Definition pinned_type (ok_pin not_ok_pin : option Ty) : Ty :=
  Ty.Sum RESULT_TYPE_NAME [mkSumVariant OK [default (Ty.Generic "T") ok_pin];
                           mkSumVariant NOT_OK [default (Ty.Generic "E") not_ok_pin]].

Definition pin_one_result_parameter (name : string) (index : nat) (parameter_name : string)
    (sites : list ResultScrutinee) (origin : CallOrigin) : fueled TypeError TypeChecker :=
  let ok_bindings := omap ok_binding sites in
  let not_ok_bindings := omap not_ok_binding sites in
  let needs (bindings : list (string * Span * Expression)) := negb (bool_decide (length bindings = 0%nat)) in
  '(ok_pin, not_ok_pin) ←
    fold_pins (needs ok_bindings) (needs not_ok_bindings) index None None (call_argument_spans origin);
  _ ← lift (check_unpinned name parameter_name OK ok_pin ok_bindings);
  _ ← lift (check_unpinned name parameter_name NOT_OK not_ok_pin not_ok_bindings);
  match ok_pin, not_ok_pin with
  | None, None => Ok c
  | _, _ =>
      let pinned := pinned_type ok_pin not_ok_pin in
      Ok (with_type_table c
            (foldl (λ table site, <[scrutinee_span site := pinned]> table) (type_table c) sites))
  end.
End pins.

Fixpoint pin_parameters (c : TypeChecker) (calls_by_name : CallIndex) (name : string)
    (declared : option (list Ty)) (body : Expression) (origin : CallOrigin) (index : nat)
    (parameters : list Param) : fueled TypeError TypeChecker :=
  match parameters with
  | [] => Ok c
  | parameter :: rest =>
      let annotation := match type_annotation parameter with
                        | Some annotation => Some annotation
                        | None => slots ← declared; slots !! index
                        end in
      let sites :=
        match annotation with
        | Some annotation =>
            if is_unspecialized_result (resolve c annotation)
            then filter (λ site, parameter_index site = index)
                   (default [] (result_scrutinees c !! expression_span body))
            else []
        | None => []
        end in
      c ← match sites with
          | [] => Ok c
          | _ => pin_one_result_parameter c calls_by_name name index (parameter_name parameter) sites origin
          end;
      pin_parameters c calls_by_name name declared body origin (S index) rest
  end.

Definition candidate_origin (c : TypeChecker) (candidate : NestedDeclaration) : fueled TypeError CallOrigin :=
  match owning_type candidate with
  | Some owner => method_call_origin c owner (nested_name candidate) (nested_parameters candidate)
  | None =>
      if top_level_function candidate && bool_decide (nested_name candidate ∈ overloaded_names c)
      then types ← resolved_parameter_types c (nested_parameters candidate) (declared candidate) 0;
           Ok (CalledOverload (nested_name candidate) types)
      else Ok (CalledNamed (nested_name candidate))
  end.

Fixpoint pin_candidates (c : TypeChecker) (calls_by_name : CallIndex) (reachable : option (gset string))
    (candidates : list NestedDeclaration) : fueled TypeError TypeChecker :=
  match candidates with
  | [] => Ok c
  | candidate :: rest =>
      let skipped := top_level_function candidate
                     && match reachable with
                        | Some reachable => negb (bool_decide (nested_name candidate ∈ reachable))
                        | None => false
                        end in
      c ← (if skipped then Ok c
           else
             origin ← candidate_origin c candidate;
             pin_parameters c calls_by_name (nested_name candidate) (declared candidate)
               (nested_body candidate) origin 0 (nested_parameters candidate));
      pin_candidates c calls_by_name reachable rest
  end.

Definition pin_result_parameters (c : TypeChecker) (program : Program) : fueled TypeError TypeChecker :=
  pin_candidates c (index_program_calls program) (reachable_functions program)
    (declaration_candidates program).
