(* ===== verification/Program.v ===== *)
(** * The whole-program check: [TypeChecker::new] and [check_program]

    The passes of [typechecker/checker/declarations.rs] in their order: every item
    from top to bottom, what only the whole program can decide, the trap, sharing
    across fibers and dead functions.  The fuel of inference is an argument. *)

From S2P Require Import Prelude Bytes Token Ast TypeMatch TypeErrors Env Checker Overloads Patterns Walk Reachability Aliasing Declarations Calls Inference FiberSharing ResultPins.

(** ** A new checker *)

Definition result_type_declared : Ty :=
  Ty.Sum RESULT_TYPE_NAME [mkSumVariant OK [Ty.Generic "T"]; mkSumVariant NOT_OK [Ty.Generic "E"]].

Definition add_builtins (c : TypeChecker) : TypeChecker :=
  let c := with_sum_types c (<[RESULT_TYPE_NAME := result_type_declared]> (sum_types c)) in
  map_env (λ e, define_builtin (define_builtin e RESULT_TYPE_NAME result_type_declared)
                  SITE_TYPE_NAME site_type) c.

Definition new_checker : TypeChecker := add_builtin_overloads (add_builtins (empty_checker new)).

(** ** The passes *)

Definition top_level_functions (program : Program) : list (FunctionDeclaration Expression) :=
  omap (λ item, match item with
                | ItemFunction d => if is_inert_corelib_placeholder d then None else Some d
                | _ => None
                end) (items program).

(** The names that form an overload set: 2 or more definitions, or one beside the
    compiler's. *)
Definition forms_overload_set (names : list string) (name : string) : bool :=
  (is_operator_symbol name || (1 <? length (filter (λ n, n = name) names))%nat
   || is_compiler_provided_name name)
  && negb (bool_decide (name = "^")).

Definition overload_set_names (program : Program) : gset string :=
  let names := function_name <$> top_level_functions program in
  list_to_set (filter (λ name, forms_overload_set names name = true) names).

(** A top-level item: an overload member joins its set just before its body is
    checked. *)
Definition open_item (c : TypeChecker) (item : Item Expression) : result TypeError TypeChecker :=
  let corelib := match item with ItemFunction d => from_corelib d | _ => false end in
  let c := with_checking_corelib
             (map_env (λ e, mkEnvironment (current e) (enclosing e) (negb corelib)) c) corelib in
  match item with
  | ItemFunction d =>
      if bool_decide (function_name d ∈ overloaded_names c) && negb (is_inert_corelib_placeholder d) then
        if is_operator_symbol (function_name d)
        then Err (Te.OperatorMustBeMember (function_name d) (function_span d))
        else register_overload_declaration c d
      else Ok c
  | _ => Ok c
  end.

Fixpoint check_items (fuel : nat) (c : TypeChecker) (items : list (Item Expression))
    : fueled TypeError TypeChecker :=
  match items with
  | [] => Ok c
  | item :: rest =>
      c ← lift (open_item c item);
      c ← check_item (infer_expression fuel) (infer_argument fuel) c item TopLevel;
      check_items fuel c rest
  end.

(** Every parameter is annotated by now; the code panics on one that is not. *)
Fixpoint entry_parameters (d : FunctionDeclaration Expression) (indices : list nat)
    : fueled TypeError (list Ty) :=
  match indices with
  | [] => Ok []
  | i :: rest =>
      match parameter_type d i with
      | Some ty => types ← entry_parameters d rest; Ok (ty :: types)
      | None => panic
      end
  end.

Definition check_entry_point_signature (d : FunctionDeclaration Expression) : fueled TypeError unit :=
  parameters ← entry_parameters d (seq 0 (length (parameters d)));
  let text_array := Ty.Array Ty.Text in
  let text_map := Ty.Map Ty.Text Ty.Text in
  if match parameters with
     | [] => true
     | [a] => Ty_eq a text_array
     | [a; b] => Ty_eq a text_array && Ty_eq b text_map
     | _ => false
     end
  then Ok tt else throw (Te.InvalidEntryPointSignature parameters (function_span d)).

Fixpoint check_exports (items : list (Item Expression)) : fueled TypeError unit :=
  match items with
  | [] => Ok tt
  | item :: rest =>
      _ ← match item with
          | ItemFunction d =>
              if bool_decide (function_name d = "^") then check_entry_point_signature d else Ok tt
          | ItemVariable d =>
              if mutable d && variable_exported d
              then throw (Te.ExportedMutableGlobal (variable_name d) (variable_span d)) else Ok tt
          | _ => Ok tt
          end;
      check_exports rest
  end.

(** The checker at the end; its type table is what the program's check returns. *)
Definition check_program (fuel : nat) (c : TypeChecker) (program : Program) : fueled TypeError TypeChecker :=
  let c := with_overloaded_names c (overload_set_names program) in
  c ← check_items fuel c (items program);
  _ ← lift (report_unannotated_overload_member c);
  c ← pin_result_parameters c program;
  _ ← check_exports (items program);
  c ← check_traps (infer_expression fuel) c program;
  _ ← check_fiber_sharing c program;
  _ ← lift (check_dead_functions program);
  Ok c.
