(* ===== verification/CheckLogic.v ===== *)
(** * A program logic for the checker

    What the checker's state keeps to while it checks ([Good]), what checking one
    thing may change of it ([Step]), and weakest preconditions over its results: an
    answer or a diagnostic, never a panic and never out of fuel.  Then each
    operation on the state, as a lemma the rules' proofs chain. *)

From S2P Require Import Prelude Bytes Token Ast TypeMatch TypeErrors Env Checker Overloads Patterns Walk Aliasing Declarations.

Create HintDb runs.

(** ** Weakest preconditions *)

Definition wp {A} (m : fueled TypeError A) (Q : A → Prop) : Prop :=
  match m with Ok a => Q a | throw _ => True | out_of_fuel => False end.

Lemma checks_mono {A} (m : fueled TypeError A) (Q Q' : A → Prop) :
  wp m Q → (∀ a, Q a → Q' a) → wp m Q'.
Proof. destruct m as [a|[e|]]; simpl; auto. Qed.

Lemma checks_bind {A B} (m : fueled TypeError A) (f : A → fueled TypeError B) Q :
  wp m (λ a, wp (f a) Q) → wp (m ≫= f) Q.
Proof. by destruct m as [a|[e|]]. Qed.

Lemma wp_fmap {A B} (f : A → B) (m : fueled TypeError A) Q :
  wp m (λ a, Q (f a)) → wp (f <$> m) Q.
Proof. by destruct m as [a|[e|]]. Qed.

Lemma wp_lift {A} (m : result TypeError A) (Q : A → Prop) : (∀ a, m = Ok a → Q a) → wp (lift m) Q.
Proof. destruct m; simpl; auto. Qed.

Lemma wp_Ok {A} (m : fueled TypeError A) (Q : A → Prop) a : wp m Q → m = Ok a → Q a.
Proof. by intros H ->. Qed.

Lemma wp_fuelled {A} (m : fueled TypeError A) (Q : A → Prop) : wp m Q → m ≠ out_of_fuel.
Proof. by intros H ->. Qed.

(** The checker a result carries, if it carries one. *)
Class Ends (A : Type) : Type := in_state : (TypeChecker → Prop) → A → Prop.
#[export] Instance checker_ends : Ends TypeChecker := λ P c, P c.
#[export] Instance pair_ends {A B} `{Ends B} : Ends (A * B) := λ P r, in_state P r.2.
#[export] Instance option_ends `{Ends A} : Ends (option A) :=
  λ P o, match o with Some a => in_state P a | None => True end.

(** ** What a binding keeps *)

(** A binding's type, its narrowing and what calling it aliases may be refined; how
    it was bound and what its value may alias may not. *)
Definition Settled : Type := bool * Z * ValueAliasing * bool * bool * bool.
Definition settled (s : Symbol) : Settled :=
  (symbol_mutable s, owner s, value_aliasing s, setter_receiver s, constant s, narrowable s).

Definition scope_shape (scope : Scope) : gmap string Settled := settled <$> scope.
Definition shape (e : Environment) : list (gmap string Settled) := scope_shape <$> scopes_in e.

Record env_step (e e' : Environment) : Prop := {
  step_current : scope_shape (current e) ⊆ scope_shape (current e');
  step_enclosing : scope_shape <$> enclosing e' = scope_shape <$> enclosing e;
  step_enforce : enforce_reserved_names e' = enforce_reserved_names e
}.

(** A [:=] binding's value aliases nothing immutable. *)
Definition sound (s : Settled) : Prop :=
  let '(mutable, _, aliasing, _, _, _) := s in mutable = true → immutable_witness aliasing = None.
Definition sound_env (e : Environment) : Prop := Forall (map_Forall (λ _, sound)) (shape e).

(** ** What the checker keeps *)

(** Every registered sum is under its own name, and no two have a variant of one name. *)
Record registry (sums : gmap string Ty) : Prop := {
  registry_named : ∀ name ty, sums !! name = Some ty → ∃ variants, ty = Ty.Sum name variants;
  registry_owners : ∀ variant a b, sums !! a.1 = Some a.2 → sums !! b.1 = Some b.2 →
    owns_variant variant a = true → owns_variant variant b = true → a = b
}.

Definition annotated (parameters : list Param) : Prop :=
  Forall (λ p, is_Some (type_annotation p)) parameters.

Record Good (c : TypeChecker) : Prop := {
  good_env : sound_env (env c);
  good_overloads : well_registered c;
  good_sums : registry (sum_types c);
  good_methods : map_Forall (λ _ m, annotated m.1.1) (checker_methods c)
}.

(** Checking one thing binds names in the scope it is in and records types; it
    leaves the scopes, the declaration and every mode of the checker as they were. *)
Record Step (c c' : TypeChecker) : Prop := {
  step_env : env_step (env c) (env c');
  step_declaration : current_declaration c' = current_declaration c;
  step_counter : (declaration_counter c ≤ declaration_counter c')%Z;
  step_depths : (test_depth c', case_depth c') = (test_depth c, case_depth c);
  step_pending : pending_return_type c' = pending_return_type c;
  step_corelib : checking_corelib_declaration c' = checking_corelib_declaration c;
  step_overloaded : overloaded_names c' = overloaded_names c;
  step_typed : dom (type_table c) ⊆ dom (type_table c')
}.

Record Runs (c0 c : TypeChecker) : Prop := { runs_good : Good c; runs_step : Step c0 c }.

Definition answers {A} `{Ends A} (c0 : TypeChecker) (m : fueled TypeError A) : Prop :=
  wp m (in_state (Runs c0)).

Lemma env_step_refl e : env_step e e.
Proof. by split. Qed.

Lemma env_step_trans e e' e'' : env_step e e' → env_step e' e'' → env_step e e''.
Proof. intros [] []. split; [by etrans|congruence..]. Qed.

Lemma Step_refl c : Step c c.
Proof. split; auto using env_step_refl. lia. Qed.

Lemma Step_trans c c' c'' : Step c c' → Step c' c'' → Step c c''.
Proof. intros [] []. split; eauto using env_step_trans; try congruence; [lia|set_solver]. Qed.

Lemma Runs_refl c : Good c → Runs c c.
Proof. intros. split; auto using Step_refl. Qed.

Lemma Runs_trans c c' c'' : Runs c c' → Runs c' c'' → Runs c c''.
Proof. intros [] []. split; eauto using Step_trans. Qed.

Lemma Runs_rebase c0 c : Runs c0 c → Runs c c.
Proof. intros []. by apply Runs_refl. Qed.

(** ** The environment's operations *)

Lemma shape_cons e : shape e = scope_shape (current e) :: (scope_shape <$> enclosing e).
Proof. done. Qed.

Lemma scope_shape_update (scope : Scope) name s f :
  scope !! name = Some s → settled (f s) = settled s →
  scope_shape (<[name := f s]> scope) = scope_shape scope.
Proof.
  intros Hs Hf. unfold scope_shape. rewrite fmap_insert, Hf. apply insert_id. by rewrite lookup_fmap, Hs.
Qed.

Lemma shape_lookup_mut e name f :
  (∀ s, settled (f s) = settled s) → shape (lookup_mut e name f).1 = shape e.
Proof.
  intros Hf. unfold shape. rewrite scopes_in_lookup_mut.
  destruct (update_in _ _ _) as [scopes|] eqn:E; [|done].
  apply update_in_Some in E as (pre&scope&s&post&->&Hs&->). cbv [default from_option id].
  rewrite !fmap_app, !fmap_cons. by rewrite scope_shape_update.
Qed.

Lemma scope_shape_restore scope entries : scope_shape (restore_scope scope entries) = scope_shape scope.
Proof.
  unfold restore_scope. revert scope. induction entries as [|[name narrowed] entries IH]; intros scope; [done|].
  simpl. rewrite IH. apply map_eq. intros i. unfold scope_shape. rewrite !lookup_fmap.
  destruct (decide (name = i)) as [->|]; [|by rewrite lookup_alter_ne].
  rewrite lookup_alter_eq. by destruct (scope !! i).
Qed.

Lemma shape_restore e snapshot : shape (restore_narrowing e snapshot) = shape e.
Proof.
  assert (∀ scopes snapshot, scope_shape <$> restore_zip scopes snapshot = scope_shape <$> scopes) as Hzip.
  { induction scopes as [|scope scopes IH]; intros [|entries snap]; try done. simpl.
    by rewrite IH, scope_shape_restore. }
  unfold shape, restore_narrowing. rewrite scopes_in_with.
  - by rewrite fmap_reverse, Hzip, <-fmap_reverse, reverse_involutive.
  - intros E%(f_equal length). rewrite length_reverse in E. simpl in E.
    assert (length (restore_zip (reverse (scopes_in e)) snapshot) = length (scopes_in e)) as El; [|rewrite El in E; done].
    rewrite <-(length_fmap scope_shape), Hzip. by rewrite length_fmap, length_reverse.
Qed.

(** An update that keeps the shape keeps the invariant. *)
Lemma env_step_shape e e' :
  shape e' = shape e → enforce_reserved_names e' = enforce_reserved_names e → env_step e e'.
Proof. rewrite !shape_cons. intros [= Ec Er] ?. split; [by rewrite Ec|done..]. Qed.

Lemma enforce_lookup_mut e name f :
  enforce_reserved_names (lookup_mut e name f).1 = enforce_reserved_names e.
Proof. unfold lookup_mut. destruct (update_in _ _ _) as [[|]|]; done. Qed.

Lemma enforce_restore e snapshot :
  enforce_reserved_names (restore_narrowing e snapshot) = enforce_reserved_names e.
Proof. unfold restore_narrowing, with_scopes. by destruct (reverse _). Qed.

(** A new binding, sound by itself. *)
Lemma insert_symbol_step e name s span e' :
  insert_symbol e name s span = Ok e' → env_step e e' ∧ (sound (settled s) → sound_env e → sound_env e').
Proof.
  unfold insert_symbol. destruct (current e !! name) eqn:En; [done|]. intros [= <-]. split.
  - split; [|done..]. simpl. unfold scope_shape. rewrite fmap_insert. apply insert_subseteq.
    by rewrite lookup_fmap, En.
  - unfold sound_env. rewrite !shape_cons. intros Hs [Hc Hr]%Forall_cons. constructor; [|done].
    simpl. unfold scope_shape. rewrite fmap_insert. by apply map_Forall_insert_2.
Qed.

Lemma define_symbol_insert e name s span e' :
  define_symbol e name s span = Ok e' → insert_symbol e name s span = Ok e'.
Proof. unfold define_symbol. by case_match. Qed.

Lemma sound_push e : sound_env e → sound_env (push_scope e).
Proof.
  unfold sound_env. rewrite (shape_cons (push_scope e)). constructor; [|done].
  simpl. unfold scope_shape. rewrite fmap_empty. apply map_Forall_empty.
Qed.

(** ** The state's operations *)

(** The part of the state [Good] and [Step] read. *)
Definition core (c : TypeChecker) :=
  (env c, checker_methods c, sum_types c, overloads c, overloaded_names c, test_depth c, case_depth c,
   declaration_counter c, current_declaration c, pending_return_type c, checking_corelib_declaration c,
   type_table c).

Lemma Runs_core c0 c c' : core c' = core c → Runs c0 c → Runs c0 c'.
Proof.
  destruct c, c'. unfold core. simpl. intros [= -> -> -> -> -> -> -> -> -> -> -> ->] [[] []].
  split; by split.
Qed.

Lemma Runs_env c0 c e :
  env_step (env c) e → (sound_env (env c) → sound_env e) → Runs c0 c → Runs c0 (with_env c e).
Proof.
  intros He Hs [[] []]. split; split; simpl; try done; [by apply Hs|by eapply env_step_trans].
Qed.

Lemma Runs_shape c0 c e :
  shape e = shape (env c) → enforce_reserved_names e = enforce_reserved_names (env c) →
  Runs c0 c → Runs c0 (with_env c e).
Proof. intros E ?. apply Runs_env; [by apply env_step_shape|]. unfold sound_env. by rewrite E. Qed.

Lemma Runs_update c0 c name f :
  (∀ s, settled (f s) = settled s) → Runs c0 c → Runs c0 (with_env c (lookup_mut (env c) name f).1).
Proof. intros. apply Runs_shape; auto using shape_lookup_mut, enforce_lookup_mut. Qed.

Lemma Runs_insert c0 c name s span e :
  insert_symbol (env c) name s span = Ok e → sound (settled s) → Runs c0 c → Runs c0 (with_env c e).
Proof. intros [He Hs]%insert_symbol_step ?. apply Runs_env; auto. Qed.

Lemma Runs_define c0 c name s span e :
  define_symbol (env c) name s span = Ok e → sound (settled s) → Runs c0 c → Runs c0 (with_env c e).
Proof. intros ?%define_symbol_insert. by eapply Runs_insert. Qed.

Lemma Runs_typed c0 c table :
  dom (type_table c) ⊆ dom table → Runs c0 c → Runs c0 (with_type_table c table).
Proof. intros ? [[] []]. split; split; simpl; try done. set_solver. Qed.

Lemma Runs_record c0 c span ty :
  Runs c0 c → Runs c0 (with_type_table c (<[span := ty]> (type_table c))).
Proof. apply Runs_typed. set_solver. Qed.

Lemma Runs_record_parameters c0 c ps types : Runs c0 c → Runs c0 (record_parameter_types c ps types).
Proof.
  unfold record_parameter_types. apply Runs_typed. generalize (type_table c). induction (combine ps types) as [|[p ty] l IH];
    intros table; simpl; [done|]. etrans; [|apply IH]. set_solver.
Qed.

Lemma Runs_overloads c0 c o :
  (∀ name, distinct (default [] (o !! name)) = true) → Runs c0 c → Runs c0 (with_overloads c o).
Proof. intros ? [[] []]. split; by split. Qed.

Lemma Runs_methods c0 c key ps ret body :
  annotated ps → Runs c0 c →
  Runs c0 (with_methods c (<[key := (ps, ret, body)]> (checker_methods c))).
Proof. intros ? [[] []]. split; split; simpl; try done. by apply map_Forall_insert_2. Qed.

Lemma Runs_sums c0 c sums : registry sums → Runs c0 c → Runs c0 (with_sum_types c sums).
Proof. intros ? [[] []]. split; by split. Qed.

(** *** Defining names *)

Lemma sound_immutable s : symbol_mutable s = false → sound (settled s).
Proof. unfold sound, settled. congruence. Qed.

Section defines.
Context (c0 c : TypeChecker) (Hc : Runs c0 c) (e : Environment).

Lemma Runs_define_name name ty span :
  define (env c) name ty false span = Ok e → Runs c0 (with_env c e).
Proof. intros H. by eapply Runs_define; [exact H|apply sound_immutable|]. Qed.
Lemma Runs_define_constant name ty span :
  define_constant (env c) name ty span = Ok e → Runs c0 (with_env c e).
Proof. intros H. by eapply Runs_define; [exact H|apply sound_immutable|]. Qed.
Lemma Runs_define_parameter name ty declaration slot span :
  define_parameter (env c) name ty declaration slot span = Ok e → Runs c0 (with_env c e).
Proof. intros H. by eapply Runs_define; [exact H|apply sound_immutable|]. Qed.
Lemma Runs_define_receiver ty declaration span :
  define_receiver (env c) ty declaration span = Ok e → Runs c0 (with_env c e).
Proof. intros H. by eapply Runs_insert; [exact H|apply sound_immutable|]. Qed.
Lemma Runs_define_setter_receiver name ty owner span :
  define_setter_receiver (env c) name ty owner span = Ok e → Runs c0 (with_env c e).
Proof. intros H. by eapply Runs_insert; [exact H|apply sound_immutable|]. Qed.
Lemma Runs_define_immutable name ty owner aliasing span :
  define_binding (env c) name ty false owner aliasing span = Ok e → Runs c0 (with_env c e).
Proof. intros H. by eapply Runs_define; [exact H|apply sound_immutable|]. Qed.

(** A [:=] binding of a value that aliases nothing immutable. *)
Lemma Runs_define_mutable name ty owner aliasing span :
  immutable_witness aliasing = None →
  define_binding (env c) name ty true owner aliasing span = Ok e → Runs c0 (with_env c e).
Proof. intros ? H. by eapply Runs_define; [exact H|intros _|]. Qed.
End defines.

#[export] Hint Resolve Runs_define_name Runs_define_constant Runs_define_parameter Runs_define_receiver
  Runs_define_setter_receiver Runs_define_immutable Runs_define_mutable Runs_record Runs_record_parameters
  Runs_methods : runs.

(** *** Refining bindings *)

Definition refines (f : Environment → Environment) : Prop :=
  ∀ e, shape (f e) = shape e ∧ enforce_reserved_names (f e) = enforce_reserved_names e.

Lemma refines_lookup_mut name f : (∀ s, settled (f s) = settled s) → refines (λ e, (lookup_mut e name f).1).
Proof. split; auto using shape_lookup_mut, enforce_lookup_mut. Qed.
Lemma refines_update_type name ty : refines (λ e, (update_type e name ty).1).
Proof. by apply refines_lookup_mut. Qed.
Lemma refines_result_aliasing name r : refines (λ e, set_result_aliasing e name r).
Proof. by apply refines_lookup_mut. Qed.
Lemma refines_result_parameter name p : refines (λ e, set_result_parameter e name p).
Proof. by apply refines_lookup_mut. Qed.
Lemma refines_mark_atomic name : refines (λ e, mark_atomic e name).
Proof. by apply refines_lookup_mut. Qed.
Lemma refines_narrow name variants : refines (λ e, narrow e name variants).
Proof. apply refines_lookup_mut. intros s. unfold settled. destruct (narrowable s) eqn:E; simpl; by rewrite ?E. Qed.
Lemma refines_restore snapshot : refines (λ e, restore_narrowing e snapshot).
Proof. split; [apply shape_restore|apply enforce_restore]. Qed.

Lemma Runs_refines f c0 c e :
  refines f → Runs c0 (with_env c e) → Runs c0 (with_env c (f e)).
Proof. intros Hf Hc. destruct (Hf e). by apply (Runs_shape _ (with_env c e)). Qed.

Lemma Runs_map_env f c0 c : refines f → Runs c0 c → Runs c0 (map_env f c).
Proof. intros Hf Hc. destruct (Hf (env c)). by apply Runs_shape. Qed.

#[export] Hint Resolve refines_update_type refines_result_aliasing refines_result_parameter refines_mark_atomic
  refines_narrow refines_restore Runs_map_env : runs.

Lemma Runs_if (b : bool) c0 c c' : Runs c0 c → Runs c0 c' → Runs c0 (if b then c else c').
Proof. by destruct b. Qed.
Lemma Runs_decide `{Decision P} c0 c c' : Runs c0 c → Runs c0 c' → Runs c0 (if decide P then c else c').
Proof. by case_decide. Qed.
#[export] Hint Resolve Runs_if Runs_decide : runs.

(** The fields nothing here reads. *)
Ltac runs_core c := apply (Runs_core _ c); [reflexivity|].
#[export] Hint Extern 1 (Runs _ (with_setter_methods ?c _)) => runs_core c : runs.
#[export] Hint Extern 1 (Runs _ (with_static_methods ?c _)) => runs_core c : runs.
#[export] Hint Extern 1 (Runs _ (with_matcher_hovers ?c _)) => runs_core c : runs.
#[export] Hint Extern 1 (Runs _ (with_atomic_reassignments ?c _)) => runs_core c : runs.
#[export] Hint Extern 1 (Runs _ (with_top_level_reassignments ?c _)) => runs_core c : runs.
#[export] Hint Extern 1 (Runs _ (with_unannotated ?c _)) => runs_core c : runs.
#[export] Hint Extern 1 (Runs _ (with_method_result_aliasing ?c _)) => runs_core c : runs.
#[export] Hint Extern 1 (Runs _ (with_match_aliasing ?c _)) => runs_core c : runs.
#[export] Hint Extern 1 (Runs _ (with_lambda_result_aliasing ?c _)) => runs_core c : runs.
#[export] Hint Extern 1 (Runs _ (with_setter_stored_parameters ?c _)) => runs_core c : runs.
#[export] Hint Extern 1 (Runs _ (with_method_call_args ?c _)) => runs_core c : runs.
#[export] Hint Extern 1 (Runs _ (with_call_args ?c _)) => runs_core c : runs.
#[export] Hint Extern 1 (Runs _ (with_result_scrutinees ?c _)) => runs_core c : runs.

(** *** Scopes and declarations *)

Lemma env_step_pop e e' snapshot :
  env_step (push_scope e) e' → env_step e (restore_narrowing (pop_scope e') snapshot).
Proof.
  intros [_ Hr He]. assert (shape (pop_scope e') = shape e) as E.
  { unfold pop_scope. simpl in Hr. destruct (enclosing e') as [|scope rest]; [done|].
    exact Hr. }
  apply env_step_shape; [by rewrite shape_restore|]. rewrite enforce_restore.
  unfold pop_scope. destruct (enclosing e'); exact He.
Qed.

Lemma sound_pop e snapshot : sound_env e → sound_env (restore_narrowing (pop_scope e) snapshot).
Proof.
  unfold sound_env. rewrite shape_restore. unfold pop_scope. destruct (enclosing e) eqn:E; [done|].
  rewrite !shape_cons, E. by intros [_ ?]%Forall_cons.
Qed.

Lemma Good_push c : Good c → Good (map_env push_scope c).
Proof. intros []. split; try done. by apply sound_push. Qed.

(** Leaving the scope a body was checked in. *)
Lemma Runs_pop c0 c c' snapshot :
  Runs c0 c → Runs (map_env push_scope c) c' →
  Runs c0 (map_env (λ e, restore_narrowing (pop_scope e) snapshot) c').
Proof.
  intros Hc [[] []]. apply (Runs_trans _ c); [done|]. split; split; simpl in *; try done.
  - by apply sound_pop.
  - by apply env_step_pop.
Qed.

Lemma Good_enter c encl c1 :
  enter_declaration (map_env push_scope c) = (encl, c1) → Good c → Good c1.
Proof. intros [= <- <-] []. split; try done. by apply sound_push. Qed.

(** Leaving a body, its declaration too. *)
Lemma Runs_leave c0 c c1 encl c' snapshot :
  enter_declaration (map_env push_scope c) = (encl, c1) → Runs c0 c → Runs c1 c' →
  Runs c0 (leave_body c' snapshot encl).
Proof.
  intros [= <- <-] Hc [[] []]. apply (Runs_trans _ c); [done|]. split; split; simpl in *; try done.
  - by apply sound_pop.
  - by apply env_step_pop.
  - lia.
Qed.

Lemma Runs_declared_body c0 c c1 encl c' :
  enter_declaration c = (encl, c1) → Runs c0 c → Runs c1 c' → Runs c0 (leave_declaration c' encl).
Proof.
  intros [= <- <-] Hc [[] []]. apply (Runs_trans _ c); [done|]. split; split; simpl in *; try done. lia.
Qed.

Lemma Good_declared_body c encl c1 : enter_declaration c = (encl, c1) → Good c → Good c1.
Proof. intros [= <- <-] []. by split. Qed.

(** *** Modes set for one body *)

Lemma Good_pending c p : Good (with_pending c p) ↔ Good c.
Proof. split; intros []; by split. Qed.

(** Leaving a body checked with another pending name than [p]. *)
Lemma Runs_leave_pending c0 c p c1 encl c' snapshot :
  enter_declaration (map_env push_scope c) = (encl, c1) → Runs c0 (with_pending c p) → Runs c1 c' →
  Runs c0 (leave_body (with_pending c' p) snapshot encl).
Proof.
  intros En Hc [Hg Hs]. apply (Runs_leave c0 (with_pending c p) (with_pending c1 p)); [|done|].
  - by injection En as <- <-.
  - split; [by apply Good_pending|]. destruct Hs. by split.
Qed.

Lemma Good_unpending c0 c p : Runs c0 (with_pending c p) → Good c.
Proof. intros [? _]. by apply (Good_pending c p). Qed.

Lemma Good_depths c t k : Good c → Good (with_depths c t k).
Proof. intros []. by split. Qed.
Lemma Runs_depths c0 c c' t k :
  Runs c0 c → Runs (with_depths c (test_depth c + t) (case_depth c + k)) c' →
  Runs c0 (with_depths c' (test_depth c' - t) (case_depth c' - k)).
Proof.
  intros Hc [[] []]. apply (Runs_trans _ c); [done|]. split; split; simpl in *; try done.
  injection step_depths0 as -> ->. f_equal; lia.
Qed.

(** *** Overload sets *)

Lemma members_replaced c name set n :
  members (with_overloads c (<[name := set]> (overloads c))) n = if decide (n = name) then set else members c n.
Proof.
  unfold members. simpl. case_decide; [subst; by rewrite lookup_insert_eq|by rewrite lookup_insert_ne].
Qed.

Lemma Runs_well_registered c0 c o :
  well_registered (with_overloads c o) → Runs c0 c → Runs c0 (with_overloads c o).
Proof. intros Hw. by apply Runs_overloads. Qed.

Lemma Runs_update_member c0 c name ps f :
  (∀ o, overload_parameters (f o) = overload_parameters o) →
  Runs c0 c → Runs c0 (overload_member_mut c name ps f).
Proof.
  intros Hf Hc. apply Runs_well_registered; [|done].
  by apply (well_registered_update c), good_overloads; [|destruct Hc].
Qed.

Lemma Runs_refine c0 c name ps ty : Runs c0 c → Runs c0 (refine_overload_return_type c name ps ty).
Proof. by apply Runs_update_member. Qed.
Lemma Runs_set_aliasing c0 c name ps r : Runs c0 c → Runs c0 (set_overload_result_aliasing c name ps r).
Proof. by apply Runs_update_member. Qed.

Lemma Runs_finish c0 c name span ps ret is_static c' :
  finish_overload_registration c name span ps ret is_static = Ok c' → Runs c0 c → Runs c0 c'.
Proof.
  intros H Hc. pose proof H as Hw%well_registered_finish; [|by destruct Hc as [[] _]].
  unfold finish_overload_registration in H. apply result_bind_Ok in H as ([]&_&H).
  destruct (existsb _ _); [done|]. injection H as <-. apply Runs_well_registered; [done|].
  repeat case_match; auto with runs.
Qed.

Lemma Runs_register_function c0 c d c' :
  register_overload_declaration c d = Ok c' → Runs c0 c → Runs c0 c'.
Proof. unfold register_overload_declaration. intros H ?. break; inv_bind; by eapply Runs_finish. Qed.

Lemma Runs_register_operator c0 c ty m c' :
  register_operator_member c ty m = Ok c' → Runs c0 c → Runs c0 c'.
Proof. unfold register_operator_member. intros H ?. break; by eapply Runs_finish. Qed.

Lemma Runs_resolve c0 c name tys spans span ty c' :
  resolve_overload c name tys spans span = Ok (ty, c') → Runs c0 c → Runs c0 c'.
Proof. unfold resolve_overload. intros H ?. break. unfold record_call. auto with runs. Qed.

(** Members hidden for one call. *)
Section hidden.
Context (keep : Overload → Prop) `{∀ o, Decision (keep o)}.

Lemma distinct_filter set : distinct set = true → distinct (filter keep set) = true.
Proof.
  induction set as [|o set IH]; [done|]. simpl. intros [Ho Hd]%andb_true_iff.
  rewrite filter_cons. case_decide; [|auto]. simpl. rewrite IH, andb_true_r by done.
  rewrite forallb_forall in *. intros p Hp%list_elem_of_In. apply list_elem_of_filter in Hp as [_ Hp].
  by apply Ho, list_elem_of_In.
Qed.

Lemma Good_hidden c name :
  Good c → Good (with_overloads c (<[name := filter keep (members c name)]> (overloads c))).
Proof.
  intros []. split; try done. intros n. rewrite members_replaced.
  case_decide; [by apply distinct_filter|done].
Qed.

Lemma Runs_hidden c0 c c' name :
  Runs c0 c → Runs (with_overloads c (<[name := filter keep (members c name)]> (overloads c))) c' →
  Runs c0 (with_overloads c' (<[name := members c name]> (overloads c'))).
Proof.
  intros Hc Hin. apply (Runs_trans _ c); [done|]. apply runs_good in Hc as Hg. destruct Hin as [[] []].
  split; split; simpl in *; try done. intros n. rewrite members_replaced.
  case_decide; [by apply good_overloads|done].
Qed.
End hidden.

#[export] Hint Resolve Runs_refine Runs_set_aliasing Runs_finish Runs_register_operator Runs_resolve : runs.

(** ** Running the rules *)

Create HintDb good.
#[export] Hint Resolve runs_good Good_unpending Good_push : good.
#[export] Hint Resolve Runs_leave Runs_leave_pending : runs.

Lemma answers_bind {A B} `{Ends A} c0 (m : fueled TypeError A) (f : A → fueled TypeError B) Q :
  answers c0 m → (∀ a, in_state (Runs c0) a → wp (f a) Q) → wp (m ≫= f) Q.
Proof. intros Hm Hf. apply checks_bind. eapply checks_mono; [exact Hm|exact Hf]. Qed.

Lemma answers_then {A} `{Ends A} c0 (m : fueled TypeError A) (Q : A → Prop) :
  answers c0 m → (∀ a, in_state (Runs c0) a → Q a) → wp m Q.
Proof. apply checks_mono. Qed.

Lemma wp_unit_bind {A} (m : fueled TypeError A) {B} (f : A → fueled TypeError B) Q :
  wp m (λ _, True) → (∀ a, wp (f a) Q) → wp (m ≫= f) Q.
Proof. intros Hm Hf. apply checks_bind. eapply checks_mono; [exact Hm|auto]. Qed.

(** What inference promises the rules it recurses through: on every expression of
    [R], which holds of the parts of one, it answers and runs from its state on. *)
Class Inference (infer_expression : TypeChecker → Expression → fueled TypeError (Ty * TypeChecker))
    (infer_argument : TypeChecker → Expression → LambdaTarget → fueled TypeError (Ty * TypeChecker))
    (R : Expression → Prop) : Prop := {
  infers : ∀ c0 c e, R e → Runs c0 c → answers c0 (infer_expression c e);
  infers_argument : ∀ c0 c e target, R e → Runs c0 c → answers c0 (infer_argument c e target);
  infers_parts : ∀ e x, R e → x ∈ parts_of e → R x
}.

Create HintDb spec.

(** One step of a rule: a bind, a branch, a diagnostic or an answer; a call of a
    rule by its lemma, its state among the hypotheses. *)
Ltac ends_simpl := unfold in_state, pair_ends, checker_ends, option_ends in *; cbn [fst snd] in *.
Ltac wp_call :=
  match goal with
  | |- wp (_ ≫= _) _ =>
      first [eapply answers_bind; [solve [eauto 9 with spec runs]|]
            | eapply wp_unit_bind; [solve [eauto with spec]|]]
  | |- wp _ _ => eapply answers_then; [solve [eauto 9 with spec runs]|]
  end;
  let a := fresh "a" in intros a; try (let H := fresh "H" in intros H);
  repeat match goal with a : (_ * _)%type |- _ => destruct a end; ends_simpl.
Ltac wp_enter :=
  let encl := fresh "encl" in let c1 := fresh "c1" in let En := fresh "En" in
  destruct (enter_declaration _) as [encl c1] eqn:En;
  assert (Runs c1 c1) by (apply Runs_refl; eapply Good_enter; [exact En|]; eauto 6 with good runs).
Ltac wp_step :=
  match goal with
  | |- answers _ _ => unfold answers
  | |- True => exact I
  | |- wp (throw _) _ => exact I
  | |- wp (Ok _) _ => cbn [wp]
  | |- wp (lift _) _ =>
      let a := fresh "a" in apply wp_lift; intros a ?;
      repeat match goal with a : (_ * _)%type |- _ => destruct a end
  | |- wp (match enter_declaration _ with _ => _ end) _ => wp_enter
  | |- wp ((if _ then throw _ else Ok _) ≫= _) _ => apply checks_bind
  | |- wp (lift _ ≫= _) _ => apply checks_bind
  | |- wp (mbind _ (match ?x with _ => _ end)) _ => apply checks_bind
  | |- wp (match ?x with _ => _ end) _ => destruct x eqn:?
  | |- wp _ _ => wp_call
  | |- wp (_ ≫= _) _ => apply checks_bind
  | |- wp (_ <$> _) _ => apply wp_fmap
  end.
Ltac wp_go := repeat (wp_step; cbn beta iota zeta; ends_simpl); eauto 12 with runs.
