(* ===== verification/DeclarationProps.v ===== *)
(** * What checking a declaration keeps to

    Every rule of [checker/declarations.rs] and of [checker/patterns.rs] under the
    program logic: it answers and leaves the checker sound. *)

From S2P Require Import Prelude Bytes Num Token Ast TypeMatch TypeErrors Env Checker Overloads Patterns Walk Aliasing Declarations CheckLogic.

(** ** Parameters *)

Lemma Runs_parameters c0 type_of body offset slot c ps types c' :
  define_parameters type_of body offset slot c ps = Ok (types, c') → Runs c0 c → Runs c0 c'.
Proof.
  revert slot c types. induction ps as [|[p ty] ps IH]; intros slot c types H Hc; simpl in H; inv_bind; [done|].
  destruct x1. inv_bind.
  eapply IH; [eassumption|]. apply (Runs_refines (λ e, set_result_parameter e _ _)); eauto with runs.
Qed.
#[export] Hint Resolve Runs_parameters : runs.

Lemma Runs_resolve_parameters c0 c ps declared missing types c' :
  resolve_parameter_types c ps declared missing = Ok (types, c') → Runs c0 c → Runs c0 c'.
Proof. unfold resolve_parameter_types. intros. inv_bind. auto with runs. Qed.
#[export] Hint Resolve Runs_resolve_parameters : runs.

(** ** Patterns *)

Lemma Runs_bind_pattern : ∀ pattern c0 c ty aliasing c',
  bind_pattern_vars c pattern ty aliasing = Ok c' → Runs c0 c → Runs c0 c'.
Proof.
  fix IH 1. intros pattern c0 c ty aliasing c' H Hc. destruct pattern as [name span| | |name arguments span|]; simpl in H; simplify_eq; try done.
  - inv_bind. eauto with runs.
  - break; try done. clear - IH H Hc. revert c H Hc. generalize (variant_fields s) as fields.
    induction arguments as [|argument arguments IHa]; intros [|field fields] c H Hc; simplify_eq/=; try done.
    inv_bind. eapply IHa; [eassumption|]. by eapply IH.
Qed.
#[export] Hint Resolve Runs_bind_pattern : runs.

Lemma Runs_record_scrutinee c0 c e ty arms : Runs c0 c → Runs c0 (record_result_scrutinee c e ty arms).
Proof. unfold record_result_scrutinee. intros. repeat case_match; auto with runs. Qed.
#[export] Hint Resolve Runs_record_scrutinee : runs.

Lemma Runs_open_arm c binding pattern ty aliasing c' :
  open_arm c binding pattern ty aliasing = Ok c' → Good c → Runs (map_env push_scope c) c'.
Proof.
  unfold open_arm. intros H Hc. inv_bind.
  assert (Runs (map_env push_scope c) x) by eauto using Good_push, Runs_refl with runs.
  repeat case_match; simplify_eq; auto with runs.
Qed.

Lemma Runs_trap_payload c0 c pattern variant : Runs c0 c → Runs c0 (record_trap_payload c pattern variant).
Proof. unfold record_trap_payload. intros. repeat case_match; auto with runs. Qed.
#[export] Hint Resolve Runs_trap_payload : runs.

Section rules.
Context {infer_expression infer_argument R} `{!Inference infer_expression infer_argument R}.
Context (value_aliasing : TypeChecker → Expression → ValueAliasing).
Hint Resolve infers infers_argument : spec.

(** ** Matching *)

Lemma check_arm_answers c0 c binding ty aliasing arm :
  R (arm_body arm) → Runs c0 c → answers c0 (check_arm infer_expression value_aliasing c binding ty aliasing arm).
Proof.
  intros Hb Hc. unfold check_arm. wp_step. wp_step. wp_step. apply Runs_open_arm in H; [|by destruct Hc].
  wp_go. by eapply Runs_pop.
Qed.
Hint Resolve check_arm_answers : spec.

Lemma check_arms_answers c0 binding ty aliasing arms : ∀ c result_type arms_aliasing,
  Forall (λ arm, R (arm_body arm)) arms → Runs c0 c →
  answers c0 (check_arms infer_expression value_aliasing c binding ty aliasing result_type arms_aliasing arms).
Proof.
  induction arms as [|arm arms IH]; intros c result_type arms_aliasing Ha Hc; [by wp_go|].
  apply Forall_cons in Ha as [? ?]. simpl. wp_go.
Qed.
Hint Resolve check_arms_answers : spec.

Lemma check_match_answers c0 c e arms span :
  R e → Forall (λ arm, R (arm_body arm)) arms → Runs c0 c →
  answers c0 (check_match infer_expression value_aliasing c e arms span).
Proof. intros He Ha Hc. unfold check_match. destruct Ha; wp_go. Qed.

Lemma infer_expecting_answers c0 c e expected :
  R e → Runs c0 c → answers c0 (infer_expression_expecting infer_expression c e expected).
Proof. intros. unfold infer_expression_expecting. wp_go. Qed.
Hint Resolve infer_expecting_answers : spec.

(** ** Bindings *)

Lemma Runs_bind_variable c0 c d ty aliasing u c' :
  check_binding_aliasing d aliasing = Ok u → bind_variable c d ty aliasing = Ok c' →
  Runs c0 c → Runs c0 c'.
Proof.
  unfold check_binding_aliasing, bind_variable. intros Ha H Hc.
  destruct (mutable d).
  - destruct (immutable_witness aliasing) as [[? ?]|] eqn:Ew; [done|].
    break; inv_bind; repeat case_match; simplify_eq; eauto 6 with runs;
      apply (Runs_refines (λ e, mark_atomic e _)); eauto with runs.
  - inv_bind. destruct (constructed_variant _ _); [|by eauto with runs].
    apply (Runs_refines (λ e, narrow e _ _)); eauto with runs.
Qed.

Hint Resolve Runs_bind_variable : runs.

Lemma check_variable_answers c0 c d :
  R (variable_value d) → Runs c0 c → answers c0 (check_variable_declaration infer_expression c d).
Proof.
  intros Hv Hc. unfold check_variable_declaration. wp_go.
Qed.

(** ** Functions and lambdas *)

Lemma Runs_open_function c0 c d overloaded types ret c' :
  open_function c d overloaded types ret = Ok c' → Runs c0 c →
  Runs c0 (with_pending c' (pending_return_type c)).
Proof.
  unfold open_function. intros H Hc. repeat case_match; inv_bind.
  - by apply (Runs_core _ c).
  - eapply (Runs_core _ (with_env c _)); [reflexivity|]. eauto with runs.
  - by apply (Runs_core _ c).
Qed.

Hint Resolve Runs_open_function : runs.

Lemma Runs_close_function c0 c d overloaded types ret body_type c' :
  close_function c d overloaded types ret body_type = Ok c' → Runs c0 c → Runs c0 c'.
Proof. unfold close_function. intros H Hc. destruct ret, overloaded; inv_bind; eauto 6 with runs. Qed.
Hint Resolve Runs_close_function : runs.

Lemma check_function_answers c0 c d nesting :
  R (function_body d) → Runs c0 c →
  answers c0 (check_function_declaration infer_argument c d nesting).
Proof.
  intros Hb Hc. unfold check_function_declaration. wp_go.
Qed.

Lemma Runs_lambda_aliasing c0 c body ty : Runs c0 c → Runs c0 (record_lambda_result_aliasing c body ty).
Proof. unfold record_lambda_result_aliasing. intros. case_decide; auto with runs. Qed.
Hint Resolve Runs_lambda_aliasing : runs.

Lemma check_lambda_against_answers c0 c ps ret body target :
  R body → Runs c0 c →
  answers c0 (check_lambda_against infer_expression infer_argument c ps ret body target).
Proof. intros Hb Hc. unfold check_lambda_against. wp_go. Qed.

(** ** Methods and types *)

Lemma Runs_mutation_contracts c0 c name ms c' :
  check_method_mutation_contracts c name ms = Ok c' → Runs c0 c → Runs c0 c'.
Proof.
  unfold check_method_mutation_contracts. generalize (foldl (λ setters m, if mutating m then {[(name, method_name m)]} ∪ setters else setters) (setter_methods c) ms).
  intros setters H Hc. assert (c' = with_setter_methods c setters) as ->; [|auto with runs].
  induction ms as [|m ms IH]; simpl in H; [congruence|]. repeat case_match; auto; done.
Qed.

Lemma annotated_parameter_types_annotated subject ps types :
  annotated_parameter_types subject ps = Ok types → annotated ps.
Proof.
  revert types. induction ps as [|p ps IH]; intros types H; [constructor|]. simpl in H.
  destruct (type_annotation p) eqn:E; [|done]. inv_bind. constructor; [by rewrite E|by eapply IH].
Qed.

Lemma Runs_bind_receiver c0 c setter ty encl span c' :
  bind_receiver c setter ty encl span = Ok c' → Runs c0 c → Runs c0 c'.
Proof.
  unfold bind_receiver. intros H Hc. destruct setter; [destruct (define_setter_receiver _ _ _ _ _) eqn:E|destruct (define_receiver _ _ _ _) eqn:E];
    simplify_eq/=; eauto with runs.
Qed.
Hint Resolve Runs_mutation_contracts Runs_bind_receiver : runs.

Lemma Runs_open_method c0 c name ty ms m setter encl types ret c' :
  open_method c name ty ms m setter encl = Ok (types, ret, c') → Runs c0 c →
  Runs c0 c' ∧ annotated (method_parameters m).
Proof.
  unfold open_method. intros H Hc. inv_bind. destruct x2 as [types' c1]. inv_bind.
  match goal with H : annotated_parameter_types _ _ = Ok _ |- _ => apply annotated_parameter_types_annotated in H as Ha end.
  split; [|done].
  set (registered := match resolve c1 <$> method_return_type m with Some _ => _ | None => _ end) in *.
  assert (Runs c0 registered) by (subst registered; destruct (resolve c1 <$> _); eauto 6 with runs).
  destruct (is_overloaded_method _ _); simplify_eq; eauto with runs.
Qed.

Lemma Runs_stored_parameters c0 c type name body :
  Runs c0 c → Runs c0 (record_stored_parameters c type name body).
Proof. unfold record_stored_parameters. intros. case_decide; auto with runs. Qed.

Lemma Runs_register_method c0 c type ty overloaded m types ret r :
  annotated (method_parameters m) → Runs c0 c →
  Runs c0 (register_method c type ty overloaded m types ret r).
Proof.
  unfold register_method. intros Ha Hc. destruct (is_operator_symbol _); [by eauto with runs|].
  match goal with |- Runs _ (with_methods ?registered _) => assert (Runs c0 registered) end; [|by eauto with runs].
  repeat case_match; auto with runs.
Qed.
Hint Resolve Runs_stored_parameters Runs_register_method : runs.

Lemma check_method_answers c0 c type ty ms m :
  R (method_body m) → Runs c0 c → answers c0 (check_method infer_expression c type ty ms m).
Proof.
  intros Hb Hc. unfold check_method. wp_go.
  match goal with H : open_method _ _ _ _ _ _ _ = Ok _ |- _ => eapply Runs_open_method in H as [??]; [|eassumption] end.
  wp_go.
Qed.
Hint Resolve check_method_answers : spec.

Lemma check_methods_answers c0 type ty ms remaining : ∀ c,
  Forall (λ m, R (method_body m)) remaining → Runs c0 c →
  answers c0 (check_methods infer_expression c type ty ms remaining).
Proof.
  induction remaining as [|m remaining IH]; intros c Hm Hc; [by wp_go|].
  apply Forall_cons in Hm as [? ?]. simpl. wp_go.
Qed.
Hint Resolve check_methods_answers : spec.

Lemma Runs_register_operators c0 ty ms : ∀ c c',
  register_operators c ty ms = Ok c' → Runs c0 c → Runs c0 c'.
Proof.
  induction ms as [|m ms IH]; intros c c' H Hc; simpl in H; inv_bind; [done|].
  eapply IH; [eassumption|]. destruct (is_operator_symbol _); simplify_eq; eauto with runs.
Qed.
Hint Resolve Runs_register_operators : runs.

Lemma owned_nowhere c variant : sum_variant_owner c variant = None →
  ∀ sum, sum_types c !! sum.1 = Some sum.2 → owns_variant variant sum = false.
Proof.
  unfold sum_variant_owner, variant_owner. intros H [name ty] Hs.
  destruct (list_find _ _) eqn:E; [done|]. apply list_find_None in E. rewrite Forall_forall in E.
  apply not_true_iff_false, E. by apply elem_of_map_to_list.
Qed.

Lemma check_variant_names_fresh c span seen variants u :
  check_variant_names c span seen variants = Ok u →
  ∀ v, v ∈ variants → sum_variant_owner c (variant_name v) = None.
Proof.
  revert seen. induction variants as [|v variants IH]; intros seen H w Hw; [by apply elem_of_nil in Hw|].
  simpl in H. destruct (_ || _) eqn:E; [done|]. unbool. apply elem_of_cons in Hw as [->|Hw]; [|by eapply IH].
  repeat match goal with H : bool_decide _ = false |- _ => apply bool_decide_eq_false in H end.
  by apply eq_None_not_Some.
Qed.

(** A sum whose variants no registered sum has. *)
Lemma registry_insert c name variants :
  (∀ v, v ∈ variants → sum_variant_owner c (variant_name v) = None) → registry (sum_types c) →
  registry (<[name := Ty.Sum name variants]> (sum_types c)).
Proof.
  intros Hfresh [Hnamed Ho].
  assert (∀ v sum, owns_variant v (name, Ty.Sum name variants) = true → sum_types c !! sum.1 = Some sum.2 →
            owns_variant v sum = false) as Hnew.
  { intros v sum Hv Hs. apply existsb_exists in Hv as (w&Hw&[= <-]%bool_decide_eq_true).
    eapply owned_nowhere; [apply Hfresh; by apply list_elem_of_In|done]. }
  split.
  - intros n ty. rewrite lookup_insert_Some. intros [[<- <-]|[_ ?]]; eauto.
  - intros v [n ty] [n' ty']. simpl. rewrite !lookup_insert_Some.
    intros [[<- <-]|[_ Ha]] [[<- <-]|[_ Hb]] Oa Ob; [done|..|by eapply Ho].
    + by rewrite (Hnew v (n', ty')) in Ob.
    + by rewrite (Hnew v (n, ty)) in Oa.
Qed.

Lemma Runs_define_variants c0 ty span variants : ∀ c c',
  define_variants c ty span variants = Ok c' → Runs c0 c → Runs c0 c'.
Proof.
  induction variants as [|v variants IH]; intros c c' H Hc; simpl in H; inv_bind; [done|].
  eapply IH; [eassumption|]. destruct (variant_fields v); simplify_eq; [|done].
  destruct (define_constant _ _ _ _) eqn:E; simplify_eq/=. eauto with runs.
Qed.
Hint Resolve Runs_define_variants : runs.

Lemma Runs_declare_type c0 c name definition span ty c' :
  declare_type c name definition span = Ok (ty, c') → Runs c0 c → Runs c0 c'.
Proof.
  unfold declare_type. intros H Hc. destruct definition as [variants spans ms|fields ms]; inv_bind; [|done].
  eapply Runs_define_variants; [eassumption|]. apply Runs_sums; [|done].
  apply registry_insert; [|by destruct Hc as [[] _]]. by eapply check_variant_names_fresh.
Qed.

Lemma Runs_open_type c0 c d c' : open_type c d = Ok c' → Runs c0 c → Runs c0 c'.
Proof.
  unfold open_type. intros H Hc. inv_bind.
  assert (Runs c0 (with_env x x0)) as Hx by (destruct (type_definition d); simplify_eq; eauto with runs).
  destruct (is_sum_definition _); [|done]. apply Runs_sums; [|done].
  apply (registry_insert x); [intros v Hv; by apply elem_of_nil in Hv|]. by destruct Hx as [[] _].
Qed.
Hint Resolve Runs_declare_type Runs_open_type : runs.

Lemma check_type_answers c0 c d :
  Forall (λ m, R (method_body m)) (methods (type_definition d)) → Runs c0 c →
  answers c0 (check_type_declaration infer_expression c d).
Proof. intros Hm Hc. unfold check_type_declaration, check_type_methods. wp_go. Qed.

Lemma check_item_answers c0 c item nesting :
  Forall R (statement_parts (StatementItem item)) → Runs c0 c →
  answers c0 (check_item infer_expression infer_argument c item nesting).
Proof.
  intros Hp Hc. destruct item as [d|d|d|trap]; cbn [statement_parts check_item] in *.
  - apply Forall_cons in Hp as [? _]. by apply check_variable_answers.
  - apply Forall_cons in Hp as [? _]. by apply check_function_answers.
  - apply check_type_answers; [|done]. by rewrite Forall_fmap in Hp.
  - by wp_go.
Qed.
End rules.
