(* ===== verification/CallProps.v ===== *)
(** * What checking a call keeps to

    Every rule of [checker/calls.rs] and [checker/assertions.rs] under the program
    logic: a call answers or is refused with a diagnostic, no method of the built-in
    tables is unhandled, and the checker stays sound. *)

From S2P Require Import Prelude Bytes Num Token Ast TypeMatch TypeErrors Env Checker Overloads Patterns Walk Aliasing Declarations Calls CheckLogic DeclarationProps.

Lemma Forall_combine_snd {A B} (P : B → Prop) (xs : list A) (ys : list B) :
  Forall P ys → Forall (λ p, P p.2) (combine xs ys).
Proof. intros H. revert xs. induction H; intros [|? ?]; simpl; constructor; auto. Qed.

Lemma Forall_combine_fst {A B} (P : A → Prop) (xs : list A) (ys : list B) :
  Forall P xs → Forall (λ p, P p.1) (combine xs ys).
Proof. intros H. revert ys. induction H; intros [|? ?]; simpl; constructor; auto. Qed.

(** ** The tables of built-in methods *)

Definition table_names (table : MethodTable) : list string := (λ m, m.1.1) <$> table.

Lemma method_signature_finds table method n span :
  method ∈ table_names table →
  wp (method_signature table method n span) (λ s, length s.1 = n ∧ (method, s.1, s.2) ∈ table).
Proof.
  intros Hm. unfold method_signature. destruct (list_find _ table) as [[i [[name ps] ret]]|] eqn:E.
  - apply list_find_Some in E as (Hi&Hn&_). simpl in Hn. subst. destruct (negb _) eqn:El; [done|]. unbool.
    split; [done|]. by eapply list_elem_of_lookup_2.
  - apply list_find_None in E. apply list_elem_of_fmap in Hm as (m&->&Hm).
    rewrite Forall_forall in E. by destruct (E m Hm).
Qed.

Lemma array_names elem method :
  is_array_method method = true → (method = "join" → elem = Ty.Text) → method ∈ table_names (array_method_table elem).
Proof.
  intros Hm%bool_decide_eq_true Hj. unfold table_names, array_method_table. rewrite fmap_app. simpl.
  destruct (decide (method = "join")) as [->|]; [rewrite Hj by done; compute_done|]. set_solver.
Qed.
Lemma text_names method :
  is_text_method method = true → method ∈ table_names text_method_table.
Proof.
  unfold is_text_method, qn_text_impl. intros H. apply orb_true_iff in H as [H|H].
  - apply bool_decide_eq_true in H as [? H]. repeat case_bool_decide; simplify_eq; compute_done.
  - apply bool_decide_eq_true in H. unfold table_names. simpl. set_solver.
Qed.
Lemma map_names key value method :
  is_map_method method = true → method ∈ table_names (map_method_table key value).
Proof. intros H%bool_decide_eq_true. unfold table_names. simpl. set_solver. Qed.
Lemma set_names elem method :
  is_set_method method = true → method ∈ table_names (set_method_table elem).
Proof. intros H%bool_decide_eq_true. unfold table_names. simpl. set_solver. Qed.

(** A case per entry of a table, the call's arguments as many as the entry says. *)
Ltac decide_names :=
  repeat match goal with
  | |- context [bool_decide ?P] =>
      let b := eval vm_compute in (bool_decide P) in
      match b with true => change (bool_decide P) with true | false => change (bool_decide P) with false end
  end; cbn [andb orb negb].
Ltac table_cases Hin :=
  repeat (apply elem_of_cons in Hin as [Hin|Hin]; [|]); try (by apply elem_of_nil in Hin); simplify_eq.
Ltac arguments_of Hl :=
  cbn [length] in Hl;
  repeat match type of Hl with
  | S _ = length ?args => destruct args; cbn [length] in Hl; [discriminate Hl|apply Nat.succ_inj in Hl]
  | O = length ?args => destruct args; cbn [length] in Hl; [clear Hl|discriminate Hl]
  end.
Ltac split_Forall := repeat match goal with H : Forall _ (_ :: _) |- _ => apply Forall_cons in H as [? ?] end.

Section rules.
Context {infer_expression infer_argument R} `{!Inference infer_expression infer_argument R}.
Hint Resolve infers infers_argument infer_expecting_answers check_lambda_against_answers check_item_answers
  check_match_answers : spec.
Hint Resolve Runs_lambda_aliasing : runs.

(** ** Arguments and callbacks *)

Lemma infer_against_answers c0 c e expected span :
  R e → Runs c0 c → answers c0 (infer_against infer_expression c e expected span).
Proof. intros. unfold infer_against. wp_go. Qed.
Hint Resolve infer_against_answers : spec.

Lemma infer_all_answers c0 arguments span : ∀ c,
  Forall (λ p, R p.2) arguments → Runs c0 c →
  answers c0 (infer_all_against infer_expression c arguments span).
Proof.
  induction arguments as [|[ty e] arguments IH]; intros c Ha Hc; [by wp_go|].
  apply Forall_cons in Ha as [? ?]. simpl. wp_go.
Qed.
Hint Resolve infer_all_answers Forall_combine_snd : spec.

Lemma check_callback_value_answers c0 c e types :
  R e → Runs c0 c → answers c0 (check_callback_value infer_expression c e types).
Proof. intros. unfold check_callback_value. wp_go. Qed.
Hint Resolve check_callback_value_answers : spec.

Lemma check_lambda_arg_answers c0 c e types span classify :
  R e → Runs c0 c → answers c0 (check_lambda_arg infer_expression c e types span classify).
Proof.
  intros He Hc. unfold check_lambda_arg.
  destruct e as [| | | | | | | | |parameters ret body arg_span| | | | | | | | | | | | | | ]; eauto with spec.
  assert (R body) by (eapply infers_parts; [exact He|by left]). wp_go.
Qed.
Hint Resolve check_lambda_arg_answers : spec.

(** ** Built-in methods *)

Lemma check_array_method_answers c0 c method elem args span :
  is_array_method method = true → Forall R args → Runs c0 c →
  answers c0 (check_array_method infer_expression c method elem args span).
Proof.
  intros Hm Ha Hc. unfold check_array_method. wp_step. wp_step; [exact I|]. wp_step.
  eapply checks_mono; [apply method_signature_finds, array_names; [done|]|].
  - intros ->. rewrite bool_decide_true in Heqb by done. by destruct elem.
  - intros [ps ret] [Hl Hin]. cbn [fst snd] in *. unfold array_method_table in Hin.
    apply elem_of_app in Hin as [Hin|Hin]; [|destruct elem; try (by apply elem_of_nil in Hin)];
    table_cases Hin; decide_names; arguments_of Hl; split_Forall; wp_go.
Qed.
Hint Resolve check_array_method_answers : spec.

Lemma check_map_method_answers c0 c method key value receiver args span :
  is_map_method method = true → Forall R args → Runs c0 c →
  answers c0 (check_map_method infer_expression c method key value receiver args span).
Proof.
  intros Hm Ha Hc. unfold check_map_method. wp_step. apply wp_unit_bind; [by wp_go|intros _]. wp_step.
  eapply checks_mono; [by apply method_signature_finds, map_names|]. intros [ps ret] [Hl Hin]. cbn [fst snd] in *.
  table_cases Hin; decide_names; arguments_of Hl; split_Forall; wp_go.
Qed.

Lemma check_set_method_answers c0 c method elem receiver args span :
  is_set_method method = true → Forall R args → Runs c0 c →
  answers c0 (check_set_method infer_expression c method elem receiver args span).
Proof.
  intros Hm Ha Hc. unfold check_set_method. wp_step. apply wp_unit_bind; [by wp_go|intros _]. wp_step.
  eapply checks_mono; [by apply method_signature_finds, set_names|]. intros [ps ret] [Hl Hin]. cbn [fst snd] in *.
  table_cases Hin; decide_names; arguments_of Hl; split_Forall; wp_go.
Qed.

Lemma check_index_of_answers c0 c args span :
  Forall R args → Runs c0 c → answers c0 (check_index_of infer_expression c args span).
Proof. intros Ha Hc. unfold check_index_of. destruct args as [|? [|? [|]]]; split_Forall; wp_go. Qed.
Hint Resolve check_map_method_answers check_set_method_answers check_index_of_answers : spec.

(** The literal arguments of [replace], [replaceAll] and [repeat] are there to read. *)
Lemma check_replace_literals_total method hay from rest span :
  (method = "replace" → (1 < length rest)%nat) →
  wp (check_replace_literals method (hay :: from :: rest) span) (λ _, True).
Proof.
  intros Hr. unfold check_replace_literals. wp_step; [done|]. wp_step; [done|].
  destruct (rest !! 1%nat) eqn:E.
  - wp_go.
  - apply lookup_ge_None in E. unbool. apply bool_decide_eq_true in Heqb0. specialize (Hr Heqb0). lia.
Qed.

Lemma check_repeat_count_total count rest span : wp (check_repeat_count (count :: rest) span) (λ _, True).
Proof. unfold check_repeat_count. wp_go. Qed.

Lemma check_text_method_answers c0 c method receiver args span :
  is_text_method method = true → Forall R args → Runs c0 c →
  answers c0 (check_text_method infer_expression c method receiver args span).
Proof.
  intros Hm Ha Hc. unfold check_text_method. wp_step. wp_step; [by apply check_index_of_answers|]. wp_step.
  eapply checks_mono; [by apply method_signature_finds, text_names|]. intros [ps ret] [Hl Hin]. cbn [fst snd] in *.
  wp_step. apply wp_unit_bind; [|intros _; apply wp_unit_bind; [|intros _; by wp_go]].
  - table_cases Hin; decide_names; try done; arguments_of Hl; apply check_replace_literals_total; simpl; first [discriminate|lia].
  - table_cases Hin; decide_names; try done; arguments_of Hl; by apply check_repeat_count_total.
Qed.
Hint Resolve check_text_method_answers : spec.

(** ** Constructors, output built-ins, declared methods *)

Lemma check_constructor_call_answers c0 c variant args span :
  Forall R args → Runs c0 c →
  answers c0 (check_constructor_call infer_expression c variant args span).
Proof.
  intros Ha Hc. unfold check_constructor_call. wp_step. wp_step; [|done]. destruct p as [name ty].
  wp_step; try done. wp_step; [|done]. destruct p as [i v]. wp_step; [done|].
  apply (answers_bind c0); [|intros [tys c'] H; wp_go].
  apply (Forall_combine_snd _ (variant_fields v)) in Ha. clear Heqo Heqo0. revert c Hc.
  induction (combine (variant_fields v) args) as [|[field arg] fields IH]; intros c Hc; [by wp_go|].
  apply Forall_cons in Ha as [? ?]. wp_go.
Qed.

Lemma check_renderable_answers c0 c name builtin args first_ty span :
  Forall R args → Runs c0 c →
  answers c0 (check_renderable_builtin_call infer_expression infer_argument c name builtin args first_ty span).
Proof.
  intros Ha Hc. unfold check_renderable_builtin_call. wp_step. wp_step; [done|]. unbool.
  destruct args as [|first others]; [done|]. split_Forall. wp_go.
Qed.

Lemma check_method_arguments_answers c0 stored args span : ∀ c slot,
  Forall (λ a, is_Some (type_annotation a.1)) args → Forall (λ a, R a.2) args → Runs c0 c →
  answers c0 (check_method_arguments infer_argument c stored slot args span).
Proof.
  induction args as [|[p e] args IH]; intros c slot Hp Ha Hc; [by wp_go|].
  apply Forall_cons in Hp as [[ty Ety] ?]. apply Forall_cons in Ha as [? ?]. simpl in *. rewrite Ety. wp_go.
Qed.
Hint Resolve check_constructor_call_answers check_renderable_answers check_method_arguments_answers
  Forall_combine_fst : spec.

Lemma check_method_call_arguments_answers c0 c type name ps args receiver span :
  annotated ps → Forall R args → Runs c0 c →
  answers c0 (check_method_call_arguments infer_argument c type name ps args receiver span).
Proof.
  intros Hp Ha Hc. unfold check_method_call_arguments. apply check_method_arguments_answers; [| |done].
  - by apply (Forall_combine_fst (λ p, is_Some (type_annotation p))).
  - by apply Forall_combine_snd.
Qed.
Hint Resolve check_method_call_arguments_answers : spec.

Lemma check_overloaded_method_answers c0 c type name receiver args span :
  Forall R args → Runs c0 c →
  answers c0 (check_overloaded_method infer_expression c type name receiver args span).
Proof.
  intros Ha Hc. unfold check_overloaded_method. wp_step.
  apply (answers_bind c0); [|intros [tys c'] H; wp_go].
  revert c Hc. induction args as [|arg args IH]; intros c Hc; [by wp_go|]. split_Forall. wp_go.
Qed.
Hint Resolve check_overloaded_method_answers : spec.

Lemma check_declared_method_answers c0 c type name receiver args span :
  Forall R args → Runs c0 c →
  answers c0 (check_declared_method infer_expression infer_argument c type name receiver args span).
Proof.
  intros Ha Hc. unfold check_declared_method. wp_step. wp_step; [by wp_go|].
  destruct (checker_methods c !! _) as [[[ps ret] body]|] eqn:Em; [|done].
  pose proof (good_methods _ (runs_good _ _ Hc) _ _ Em) as Hp. simpl in Hp. wp_go.
Qed.
Hint Resolve check_declared_method_answers : spec.

(** ** The call *)

Lemma check_member_answers c0 c name receiver args ty span :
  Forall R args → Runs c0 c →
  answers c0 (check_member infer_expression infer_argument c name receiver args ty span).
Proof. intros Ha Hc. unfold check_member. wp_go. Qed.
Hint Resolve check_member_answers : spec.

Lemma check_member_call_answers c0 c name receiver args first_ty span :
  R receiver → Forall R args → Runs c0 c →
  answers c0 (check_member_call infer_expression infer_argument c name receiver args first_ty span).
Proof. intros Hr Ha Hc. unfold check_member_call. wp_go. Qed.

Lemma check_value_arguments_answers c0 args span : ∀ c first_ty,
  Forall (λ a, R a.2) args → Runs c0 c →
  answers c0 (check_value_arguments infer_argument c first_ty args span).
Proof.
  induction args as [|[ty e] args IH]; intros c first_ty Ha Hc; [by wp_go|].
  apply Forall_cons in Ha as [? ?]. simpl in *. wp_go.
Qed.
Hint Resolve check_member_call_answers check_value_arguments_answers : spec.

Lemma check_value_call_answers c0 c function args first_ty span :
  R function → Forall R args → Runs c0 c →
  answers c0 (check_value_call infer_expression infer_argument c function args first_ty span).
Proof. intros Hf Ha Hc. unfold check_value_call. wp_go. Qed.

Lemma infer_plain_answers c0 args : ∀ c first_ty,
  Forall R args → Runs c0 c → answers c0 (infer_plain infer_expression c first_ty args).
Proof. induction args as [|arg args IH]; intros c first_ty Ha Hc; [by wp_go|]. split_Forall. simpl. wp_go. Qed.

Lemma infer_lambdas_answers c0 name args : ∀ c i types,
  Forall R args → Runs c0 c → answers c0 (infer_lambdas infer_argument c name i args types).
Proof. induction args as [|arg args IH]; intros c i types Ha Hc; [by wp_go|]. split_Forall. simpl. wp_go. Qed.
Hint Resolve check_value_call_answers infer_plain_answers infer_lambdas_answers : spec.

Lemma check_overloaded_call_answers c0 c name args first_ty span :
  Forall R args → Runs c0 c →
  answers c0 (check_overloaded_call infer_expression infer_argument c name args first_ty span).
Proof. intros Ha Hc. unfold check_overloaded_call. wp_go. Qed.
Hint Resolve check_overloaded_call_answers : spec.

Lemma check_set_call_answers c0 c name args first_ty span :
  Forall R args → Runs c0 c →
  answers c0 (check_set_call infer_expression infer_argument c name args first_ty span).
Proof.
  intros Ha Hc. unfold check_set_call. wp_step. wp_step; [|by apply check_overloaded_call_answers].
  set (hidden := with_overloads _ _).
  assert (Runs hidden hidden) as Hh by (apply Runs_refl, Good_hidden; by destruct Hc).
  pose proof (check_overloaded_call_answers hidden hidden name args first_ty span Ha Hh) as Hw.
  destruct (check_overloaded_call _ _ _ _ _ _ _) as [[ty c']|[e|]]; [|by destruct e|done].
  by eapply Runs_hidden.
Qed.
Hint Resolve check_set_call_answers : spec.

Lemma check_plain_call_answers c0 c function name args first_ty span :
  R function → Forall R args → Runs c0 c →
  answers c0 (check_plain_call infer_expression infer_argument c function name args first_ty span).
Proof. intros Hf Ha Hc. unfold check_plain_call. wp_go. Qed.
Hint Resolve check_plain_call_answers : spec.

(** ** Assertions *)

Lemma infers_arguments function args member span x : R (Expression.Call function args member span) →
  x ∈ args → R x.
Proof. intros HR Hx. eapply infers_parts; [exact HR|by right]. Qed.

Lemma check_matcher_answers assertion actual matcher : ∀ c0 c, R matcher → Runs c0 c →
  answers c0 (check_matcher infer_expression c assertion actual matcher).
Proof.
  induction matcher as [matcher IH] using Expression_parts_ind. intros c0 c HR Hc.
  destruct matcher as [| | | | | | | |function args member span| | | | | | | | | | | | | | |]; try done.
  destruct function; try done.
  assert (Forall (λ x, R x ∧ ∀ c0 c, Runs c0 c → answers c0 (check_matcher infer_expression c assertion actual x)) args) as Ha.
  { apply Forall_forall. intros x Hx. pose proof (infers_arguments _ _ _ _ _ HR Hx). split; [done|].
    intros ???. rewrite Forall_forall in IH. apply IH; [by right|done|done]. }
  clear IH. simpl. wp_go. all: apply Forall_cons in Ha as [[? ?] _]; wp_go.
Qed.
Hint Resolve check_matcher_answers : spec.

Lemma Runs_narrowed c0 c actual ty matcher span c' :
  narrow_from_assertion c actual ty matcher span = Ok c' → Runs c0 c → Runs c0 c'.
Proof. unfold narrow_from_assertion. intros H Hc. repeat case_match; simplify_eq; auto with runs. Qed.
Hint Resolve Runs_narrowed : runs.

Lemma check_assertion_answers c0 c name args span :
  Forall R args → Runs c0 c → answers c0 (check_assertion infer_expression c name args span).
Proof.
  intros Ha Hc. unfold check_assertion. wp_step. wp_step; [done|].
  destruct args as [|? [|? [|]]]; try done. split_Forall. wp_go.
Qed.

Lemma check_run_test_case_answers c0 c args span :
  Forall R args → Runs c0 c → answers c0 (check_run_test_case infer_expression c args span).
Proof.
  intros Ha Hc. unfold check_run_test_case. destruct args as [|? [|]]; try done. split_Forall. wp_go.
Qed.
Hint Resolve check_assertion_answers check_run_test_case_answers : spec.

(** ** Every call and argument *)

Lemma check_provided_call_answers c0 c name args span :
  Forall R args → Runs c0 c → answers c0 (check_provided_call infer_expression c name args span).
Proof. intros Ha Hc. unfold check_provided_call. wp_go. Qed.

Lemma infer_first_answers c0 c args :
  Forall R args → Runs c0 c → answers c0 (infer_first infer_expression c args).
Proof. intros Ha Hc. unfold infer_first. destruct Ha; wp_go. Qed.
Hint Resolve check_provided_call_answers infer_first_answers : spec.

Lemma check_call_answers c0 c function args member span :
  R function → Forall R args → Runs c0 c →
  answers c0 (check_call infer_expression infer_argument c function args member span).
Proof.
  intros Hf Ha Hc. unfold check_call. destruct args; [|pose proof Ha as [? ?]%Forall_cons]; wp_go.
Qed.

Lemma check_statements_answers c0 statements : ∀ c,
  Forall (λ s, Forall R (statement_parts s)) statements → Runs c0 c →
  answers c0 (check_statements infer_expression infer_argument c statements).
Proof.
  induction statements as [|s statements IH]; intros c Hs Hc; [by wp_go|].
  apply Forall_cons in Hs as [Hs ?]. destruct s as [item|e]; cbn [check_statements].
  - wp_go.
  - apply Forall_cons in Hs as [? _]. wp_go.
Qed.
Hint Resolve check_statements_answers : spec.
End rules.
