(* ===== verification/InferenceProps.v ===== *)
(** * What inference keeps to

    Every rule of [checker/exprs.rs] under the program logic, and the knot: on a
    well-formed expression, fuel of twice its size is enough, and inference answers
    or gives a diagnostic, the checker sound and its scopes and modes as they were. *)

From S2P Require Import Prelude Bytes Num Token Ast TypeMatch TypeErrors Env Checker Overloads Patterns Walk Aliasing Declarations Calls Inference CheckLogic DeclarationProps CallProps.

Section rules.
Context {infer_expression infer_argument R} `{!Inference infer_expression infer_argument R}.
Hint Resolve infers infers_argument infer_expecting_answers check_lambda_against_answers check_item_answers
  check_match_answers check_call_answers check_statements_answers infer_against_answers : spec.

Lemma block_parts statements span :
  (∀ x, x ∈ parts_of (Expression.Block statements span) → R x) →
  Forall (λ s, Forall R (statement_parts s)) statements.
Proof.
  intros H. apply Forall_forall. intros s Hs. apply Forall_forall. intros x Hx. apply H.
  cbn [parts_of]. apply list_elem_of_bind. eauto.
Qed.

(** An argument is inferred as itself, or through its parts. *)
Lemma infer_argument_inner_answers c0 c e target :
  (∀ c0 c, Runs c0 c → answers c0 (infer_expression c e)) → (∀ x, x ∈ parts_of e → R x) →
  Runs c0 c → answers c0 (infer_argument_inner infer_expression infer_argument c e target).
Proof.
  intros Hself HR Hc. unfold infer_argument_inner.
  assert (answers c0 (infer_expression_expecting infer_expression c e (stated target))) as Hexp.
  { unfold infer_expression_expecting. wp_go. }
  destruct e as [| | | | | | | | |ps ret body span|statements span| | | | | | | | | | | | |]; try done.
  - assert (R body) by (apply HR; by left). wp_go.
  - pose proof (block_parts statements span HR) as Hs.
    destruct (last statements) as [[item|tail]|] eqn:El; try done.
    assert (R tail).
    { apply HR. cbn [parts_of]. apply list_elem_of_bind. exists (StatementExpression tail).
      split; [by left|]. rewrite last_lookup in El. by eapply list_elem_of_lookup_2. }
    assert (Forall (λ s, Forall R (statement_parts s)) (take (length statements - 1) statements)) by by apply Forall_take.
    wp_go.
Qed.

(** ** Literals *)

Lemma check_interpolation_answers c0 parts : ∀ c,
  (∀ e, PartHole e ∈ parts → R e) → Runs c0 c → answers c0 (check_interpolation infer_expression c parts).
Proof.
  induction parts as [|[t|e] parts IH]; intros c Hp Hc; simpl; [by wp_go|..].
  - apply IH; [|done]. intros e He. apply Hp. by right.
  - assert (R e) by (apply Hp; by left). assert (∀ e, PartHole e ∈ parts → R e) by (intros e' ?; apply Hp; by right).
    wp_go.
Qed.

Lemma infer_element_answers c0 c e : R e → Runs c0 c → answers c0 (infer_element infer_expression c e).
Proof. intros He Hc. unfold infer_element. wp_go. Qed.
Hint Resolve infer_element_answers : spec.

Lemma infer_elements_answers c0 elements span : ∀ c running,
  Forall R elements → Runs c0 c → answers c0 (infer_elements infer_expression c running elements span).
Proof. induction elements as [|e elements IH]; intros c running Ha Hc; [by wp_go|]. split_Forall. simpl. wp_go. Qed.
Hint Resolve infer_elements_answers : spec.

Lemma infer_array_literal_answers c0 c elements span :
  Forall R elements → Runs c0 c → answers c0 (infer_array_literal infer_expression c elements span).
Proof. intros Ha Hc. unfold infer_array_literal. destruct Ha; wp_go. Qed.

Lemma infer_entries_answers c0 entries span : ∀ c seen types,
  Forall (λ e, R e.1 ∧ R e.2) entries → Runs c0 c →
  answers c0 (infer_entries infer_expression c seen types entries span).
Proof.
  induction entries as [|[k v] entries IH]; intros c seen types Ha Hc; [by wp_go|].
  apply Forall_cons in Ha as [[? ?] ?]. simpl in *. wp_go.
Qed.

Lemma infer_members_answers c0 elements span : ∀ c ty,
  Forall R elements → Runs c0 c → answers c0 (infer_members infer_expression c ty elements span).
Proof. induction elements as [|e elements IH]; intros c ty Ha Hc; [by wp_go|]. split_Forall. simpl. wp_go. Qed.

Lemma infer_fields_answers c0 spread fields : ∀ c m,
  Forall (λ f, R f.2) fields → Runs c0 c → answers c0 (infer_fields infer_expression c m spread fields).
Proof.
  induction fields as [|[name e] fields IH]; intros c m Ha Hc; [by wp_go|].
  apply Forall_cons in Ha as [? ?]. simpl in *. destruct e; wp_go.
Qed.
Hint Resolve check_interpolation_answers infer_array_literal_answers infer_entries_answers infer_members_answers
  infer_fields_answers : spec.

Lemma check_constructor_fields_answers c0 type name type_fields ms fields span : ∀ c provided literal,
  Forall (λ f, R f.2) fields → Runs c0 c →
  answers c0 (check_constructor_fields infer_expression c type name type_fields ms provided literal fields span).
Proof.
  induction fields as [|[field e] fields IH]; intros c provided literal Ha Hc; [by wp_go|].
  apply Forall_cons in Ha as [He ?]. simpl in *.
  assert (∀ src s, e = Expression.Spread src s → R src) by (intros src s ->; eapply infers_parts; [exact He|by left]).
  destruct e; wp_go.
Qed.
Hint Resolve check_constructor_fields_answers : spec.

(** ** Blocks, fields and writes *)

Lemma check_block_answers c0 statements span : ∀ c,
  Forall (λ s, Forall R (statement_parts s)) statements → Runs c0 c →
  answers c0 (check_block infer_expression infer_argument c statements span).
Proof.
  induction statements as [|s statements IH]; intros c Hs Hc; [by wp_go|].
  apply Forall_cons in Hs as [Hs ?].
  destruct s as [item|e]; [|apply Forall_cons in Hs as [? _]]; destruct statements; cbn [check_block]; wp_go.
Qed.

Lemma resolve_payload_named c name fields ms :
  ∃ n f m, resolve_payload c (Ty.Named name fields ms) = Ty.Named n f m.
Proof. unfold resolve_payload. simpl. repeat case_match; eauto. Qed.

Lemma field_type_total c ty field span : wp (field_type c ty field span) (λ _, True).
Proof.
  unfold field_type. destruct ty; try (by wp_go).
  destruct (resolve_payload_named c name fields methods) as (n&f&m&->). wp_go.
Qed.
Hint Resolve field_type_total : spec.

Lemma Runs_payload_access c0 c e name variants span ty c' :
  payload_access c e name variants span = Ok (ty, c') → Runs c0 c → Runs c0 c'.
Proof. unfold payload_access. intros H Hc. repeat case_match; simplify_eq; auto with runs. Qed.
Hint Resolve Runs_payload_access : runs.

Lemma check_field_access_answers c0 c e field span :
  R e → Runs c0 c → answers c0 (check_field_access infer_expression c e field span).
Proof. intros He Hc. unfold check_field_access. wp_go. Qed.

Lemma check_write_answers c0 c base value ty span :
  R value → Runs c0 c → answers c0 (check_write infer_expression c base value ty span).
Proof. intros Hv Hc. unfold check_write. wp_go. Qed.
Hint Resolve check_block_answers check_field_access_answers check_write_answers : spec.

Lemma check_marked_call_answers c0 c function args member span :
  R function → Forall R args → Runs c0 c →
  answers c0 (check_marked_call infer_expression infer_argument c function args member span).
Proof.
  intros Hf Ha Hc. unfold check_marked_call. cbn zeta.
  match goal with |- context [check_call _ _ ?opened] => assert (Runs opened opened) by (apply Runs_refl, Good_depths; by destruct Hc) end.
  wp_go. by eapply Runs_depths.
Qed.
Hint Resolve check_marked_call_answers : spec.

Lemma Runs_binary_operator c0 c operator l r ls rs span ty c' :
  binary_operator_type c operator l r ls rs span = Ok (ty, c') → Runs c0 c → Runs c0 c'.
Proof.
  unfold binary_operator_type. intros H Hc.
  repeat match type of H with (if ?b then _ else _) = _ => destruct b end; inv_bind; eauto with runs.
Qed.
Hint Resolve Runs_binary_operator : runs.

(** ** Every form *)

(** What the parser guarantees of the target of a write. *)
Definition writable (e : Expression) : Prop :=
  match e with
  | Expression.FieldAssign target _ _ => ∃ base field s, target = Expression.FieldAccess base field s
  | Expression.IndexAssign target _ _ => ∃ base index s, target = Expression.Index base index s
  | _ => True
  end.

Lemma infer_expression_inner_answers c0 c e :
  (∀ x, x ∈ parts_of e → R x) → writable e → Runs c0 c →
  answers c0 (infer_expression_inner infer_expression infer_argument c e).
Proof.
  intros HR Hw Hc. destruct e; cbn [infer_expression_inner parts_of writable] in *; try by wp_go.
  all: repeat match goal with
       | e : Expression |- _ => lazymatch goal with H : R e |- _ => fail | _ => assert (R e) by (apply HR; set_solver) end
       end.
  - apply check_interpolation_answers; [|done]. intros e He. apply HR, list_elem_of_omap. by exists (PartHole e).
  - unfold check_binary_operator. wp_go.
  - unfold check_unary_operator. wp_go.
  - assert (Forall R arguments) by (apply Forall_forall; intros x Hx; apply HR; by right). wp_go.
  - unfold check_lambda. wp_go.
  - apply check_block_answers; [by apply (block_parts statements span)|done].
  - unfold check_if. wp_go.
  - assert (Forall (λ arm, R (arm_body arm)) arms).
    { apply Forall_forall. intros arm Ha. apply HR. right. apply list_elem_of_fmap. eauto. }
    wp_go.
  - wp_go.
  - unfold check_field_assign. destruct Hw as (base&field&s&->). wp_go.
  - unfold check_index. wp_go.
  - unfold check_index_assign. destruct Hw as (base&index&s&->). wp_go.
  - assert (Forall R elements) by (by apply Forall_forall). wp_go.
  - assert (Forall (λ e, R e.1 ∧ R e.2) entries).
    { apply Forall_forall. intros [k v] He. split; apply HR, list_elem_of_bind; exists (k, v); split; set_solver. }
    unfold infer_map_literal. wp_go.
  - assert (Forall R elements) by (by apply Forall_forall). unfold infer_set_literal. wp_go.
  - assert (Forall (λ f, R f.2) fields) by (apply Forall_fmap; by apply Forall_forall).
    unfold infer_record. wp_go.
  - assert (Forall (λ f, R f.2) fields) by (apply Forall_fmap; by apply Forall_forall).
    unfold check_constructor. wp_go.
  - unfold check_range. wp_go.
  - wp_go.
Qed.
End rules.
