(* ===== verification/CheckerProps.v ===== *)
(** * The checker on parsed programs

    The knot of inference tied: on every expression the parser can build, fuel of
    twice the number of its nodes is enough, and the checker of a whole program's
    items answers or refuses it, from a new checker to a sound one. *)

From S2P Require Import Prelude Bytes Num Token Ast Lexer ParserState Lookahead Grammar ParserLogic ItemProps.
From S2P Require Import TypeMatch TypeErrors Env Checker Overloads Patterns Walk Reachability Aliasing Declarations Calls Inference FiberSharing ResultPins Program CheckLogic DeclarationProps CallProps InferenceProps.

(** ** The size of an expression *)

(** The nodes the shared traversal visits. *)
Definition nodes (e : Expression) : nat :=
  match try_for_each_subexpression (B := Empty_set) (λ _ n, Continue (S n)) e 0%nat with
  | Continue n | Break _ n => n
  end.

Lemma nodes_preorder e order : preorder e order → nodes e = length order.
Proof.
  intros Ho. unfold nodes. rewrite (walk_preorder _ _ _ _ Ho). change (length order) with (0 + length order)%nat.
  generalize 0%nat. clear Ho. induction order as [|x order IH]; intros n; simpl; [lia|].
  specialize (IH (S n)). destruct (for_each _ _ _); lia.
Qed.

Lemma nodes_pos e : (0 < nodes e)%nat.
Proof.
  destruct (preorder_exists e) as [order Ho]. rewrite (nodes_preorder _ _ Ho). destruct Ho. simpl. lia.
Qed.

Lemma nodes_part e x : x ∈ parts_of e → (nodes x < nodes e)%nat.
Proof.
  intros Hx. destruct (preorder_exists e) as [order Ho]. rewrite (nodes_preorder _ _ Ho).
  destruct Ho as [e orders Hos]. apply list_elem_of_lookup in Hx as [i Hi].
  destruct (Forall2_lookup_l _ _ _ _ _ Hos Hi) as (order&Ho&Hx). rewrite (nodes_preorder _ _ Hx).
  simpl. apply list_elem_of_split_length in Ho as (pre&post&->&_).
  rewrite concat_app, length_app. simpl. rewrite length_app. lia.
Qed.

(** ** What the parser guarantees of the parts *)

Lemma forallb_elem {A} (p : A → bool) xs x : forallb p xs = true → x ∈ xs → p x = true.
Proof. rewrite forallb_forall. intros H Hx%list_elem_of_In. auto. Qed.

Lemma ok_methods f ms x :
  forallb (method_ok (ok f) f) ms = true → x ∈ method_body <$> ms → ok f x = true.
Proof.
  intros Hm Hx. apply list_elem_of_fmap in Hx as (m&->&Hx). apply (forallb_elem _ _ _ Hm) in Hx.
  unfold method_ok in Hx. by unbool.
Qed.

Lemma ok_statement f s x : statement_ok (ok f) f s = true → x ∈ statement_parts s → ok f x = true.
Proof.
  destruct s as [[d|d|d|t]|e]; simpl; intros Hs Hx; unbool.
  - apply list_elem_of_singleton in Hx as ->. unfold variable_ok in *. by unbool.
  - apply list_elem_of_singleton in Hx as ->. unfold function_ok in *. by unbool.
  - unfold definition_ok in *. destruct (type_definition d); unbool; by eapply ok_methods.
  - by apply elem_of_nil in Hx.
  - by apply list_elem_of_singleton in Hx as ->.
Qed.

Lemma ok_parts f e x : ok f e = true → x ∈ parts_of e → ok f x = true.
Proof.
  intros He Hx. destruct e; cbn [parts_of] in Hx; unfold ok, expression_checked in He; simpl in He; fold (expression_checked f) in He; unbool;
    repeat match goal with
    | H : _ ∈ [] |- _ => by apply elem_of_nil in H
    | H : _ ∈ _ :: _ |- _ => apply elem_of_cons in H as [->|H]; [assumption|]
    end; try (eapply forallb_elem; eassumption).
  - apply list_elem_of_omap in Hx as ([t|h]&Hp&Hx); simplify_eq. by eapply (forallb_elem (part_ok (ok f))) in Hp.
  - apply list_elem_of_bind in Hx as (s&Hx&Hs). eapply ok_statement; [|exact Hx].
    by eapply (forallb_elem (statement_ok (ok f) f)).
  - apply list_elem_of_fmap in Hx as (arm&->&Hx).
    match goal with H : forallb _ arms = true |- _ => apply (forallb_elem (arm_ok (ok f) f) _ _ H) in Hx end.
    unfold arm_ok in Hx. by unbool.
  - apply list_elem_of_bind in Hx as ([k v]&Hx&Hs).
    match goal with H : forallb _ entries = true |- _ => apply (forallb_elem _ _ _ H) in Hs end. simpl in *. unbool.
    by repeat apply elem_of_cons in Hx as [->|Hx]; [..|apply elem_of_nil in Hx].
  - apply list_elem_of_fmap in Hx as ([name v]&->&Hx).
    match goal with H : forallb _ fields = true |- _ => by apply (forallb_elem _ _ _ H) in Hx end.
  - apply list_elem_of_fmap in Hx as ([name v]&->&Hx).
    match goal with H : forallb _ fields = true |- _ => by apply (forallb_elem _ _ _ H) in Hx end.
Qed.

Lemma ok_writable f e : ok f e = true → writable e.
Proof.
  intros He. destruct e as [| | | | | | | | | | | | | |target value span| |target value span| | | | | | |]; try done;
    unfold ok, expression_checked in He; simpl in He; unbool; destruct target; try done; simpl; eauto.
Qed.

(** ** The knot *)

(** Fuel for inferring [e], and one more for an argument. *)
Definition within_fuel (f : FileId) (n : nat) (e : Expression) : Prop :=
  ok f e = true ∧ (2 * nodes e < n)%nat.

Lemma fuelled_inference f n :
  (∀ c0 c e, ok f e = true → (2 * nodes e ≤ n)%nat → Runs c0 c → answers c0 (infer_expression n c e)) →
  (∀ c0 c e target, within_fuel f n e → Runs c0 c → answers c0 (infer_argument n c e target)) →
  Inference (infer_expression n) (infer_argument n) (within_fuel f n).
Proof.
  intros IHe IHa. split; [|done|].
  - intros c0 c e [? ?]. apply IHe; [done|lia].
  - intros e x [He Hn] Hx. split; [by eapply ok_parts|]. apply nodes_part in Hx. lia.
Qed.

Lemma knot f n :
  (∀ c0 c e, ok f e = true → (2 * nodes e ≤ n)%nat → Runs c0 c → answers c0 (infer_expression n c e)) ∧
  (∀ c0 c e target, within_fuel f n e → Runs c0 c → answers c0 (infer_argument n c e target)).
Proof.
  induction n as [|n [IHe IHa]].
  { split; [intros c0 c e _ Hn|intros c0 c e target [_ Hn]]; pose proof (nodes_pos e); lia. }
  pose proof (fuelled_inference f n IHe IHa) as HI.
  assert (∀ e x, ok f e = true → (2 * nodes e ≤ S n)%nat → x ∈ parts_of e → within_fuel f n x) as Hpart.
  { intros e x He Hn Hx. split; [by eapply ok_parts|]. apply nodes_part in Hx. lia. }
  split.
  - intros c0 c e He Hn Hc. cbn [infer_expression].
    eapply answers_bind; [eapply infer_expression_inner_answers; [|by eapply ok_writable|exact Hc]; eauto|].
    intros [ty c'] Hc'. simpl. by apply Runs_record.
  - intros c0 c e target [He Hn] Hc. cbn [infer_argument]. apply infer_argument_inner_answers; [| |done].
    + intros. apply IHe; [done|lia|done].
    + intros x Hx. apply (Hpart e); [done|lia|done].
Qed.

#[export] Instance parsed_inference f n :
  Inference (infer_expression n) (infer_argument n) (within_fuel f n).
Proof. destruct (knot f n). by apply fuelled_inference. Qed.

(** ** A new checker is sound *)

#[local] Instance sound_dec s : Decision (sound s).
Proof. destruct s as [[[[[? ?] ?] ?] ?] ?]. apply _. Defined.

Lemma well_registered_all c : map_Forall (λ _ set, distinct set = true) (overloads c) → well_registered c.
Proof. intros H name. unfold members. destruct (overloads c !! name) eqn:E; [by eapply H|done]. Qed.

Lemma new_checker_sums : sum_types new_checker = {[RESULT_TYPE_NAME := result_type_declared]}.
Proof. by vm_compute. Qed.

Lemma new_checker_good : Good new_checker.
Proof.
  split.
  - compute_done.
  - apply well_registered_all. compute_done.
  - rewrite new_checker_sums. split.
    + intros name ty [<- <-]%lookup_singleton_Some. by eexists.
    + intros v [n ty] [n' ty'] Ha Hb _ _. cbn [fst snd] in *.
      apply lookup_singleton_Some in Ha as [<- <-]. by apply lookup_singleton_Some in Hb as [<- <-].
  - apply map_Forall_empty.
Qed.


(** [[1, 2].map((x :: Num) => < x + 1 >)]. *)
Definition sample_call : Expression :=
  let at_ n := mkSpan n (n + 1) 0 in
  Expression.Call (Expression.Identifier "map" (at_ 1))
    [Expression.Array [Expression.Number (f64_of_Z 1) (at_ 2); Expression.Number (f64_of_Z 2) (at_ 3)] (at_ 4);
     Expression.Lambda [mkParam "x" (Some Ty.Num) (at_ 5)] None
       (Expression.Block [StatementExpression
          (Expression.BinaryOperator (Expression.Identifier "x" (at_ 6)) Binary.Add
             (Expression.Number (f64_of_Z 1) (at_ 7)) (at_ 8))] (at_ 9)) (at_ 10)]
    true (at_ 11).


(** ** The items of a program *)

(** Every expression of an item fits the fuel. *)
Definition fits (fuel : nat) (item : Item Expression) : Prop :=
  Forall (λ e, (2 * nodes e < fuel)%nat) (statement_parts (StatementItem item)).

#[export] Instance fits_dec fuel item : Decision (fits fuel item).
Proof. unfold fits. apply _. Defined.

Lemma ok_item_parts f item x :
  ok f item = true → x ∈ statement_parts (StatementItem item) → ok f x = true.
Proof.
  intros Hi Hx. destruct item as [d|d|d|d]; [..|by apply elem_of_nil in Hx];
    (eapply ok_statement; [|exact Hx]; exact Hi).
Qed.

Lemma item_bodies_ok f item body : ok f item = true → body ∈ item_expressions item → ok f body = true.
Proof.
  intros Hi Hb. destruct item as [d|d|d|d]; [..|].
  1-3: eapply ok_item_parts; [exact Hi|exact Hb].
  apply list_elem_of_fmap in Hb as (arm&->&Ha). unfold ok, item_checked in Hi. simpl in Hi.
  unfold trap_ok in Hi. unbool.
  apply (forallb_elem (arm_ok (ok f) f) _ _ H1) in Ha. unfold arm_ok in Ha. by unbool.
Qed.

(** At the top level: the checker is sound, in the one scope and outside every body. *)
Record AtTop (c : TypeChecker) : Prop := {
  top_good : Good c;
  top_scope : enclosing (env c) = [];
  top_pending : pending_return_type c = None;
  top_depths : (test_depth c, case_depth c) = (0, 0)%Z;
  top_declaration : current_declaration c = 0%Z
}.

Lemma AtTop_Runs c c' : AtTop c → Runs c c' → AtTop c'.
Proof.
  intros [] [? [[? He _]]]. split; try congruence. rewrite top_scope0 in He. by destruct (enclosing (env c')).
Qed.

Lemma AtTop_overloaded c names : AtTop c → AtTop (with_overloaded_names c names).
Proof. intros [[] ????]. split; [by split|done..]. Qed.

Lemma AtTop_new : AtTop new_checker.
Proof. split; [exact new_checker_good|vm_compute; reflexivity..]. Qed.

Lemma open_item_top c item c' : open_item c item = Ok c' → AtTop c → AtTop c'.
Proof.
  unfold open_item. intros H [[] ????].
  set (c1 := with_checking_corelib _ _) in H.
  assert (AtTop c1) as Hc1 by (split; [by split|done..]).
  destruct item as [d|d|d|d]; simplify_eq; try done.
  destruct (_ && _); [|by simplify_eq]. destruct (is_operator_symbol _); [done|].
  eapply AtTop_Runs; [done|]. eapply Runs_register_function; [done|]. by apply Runs_refl, top_good.
Qed.

Lemma check_items_top f fuel items : ∀ c,
  ok f items = true → Forall (fits fuel) items → AtTop c → wp (check_items fuel c items) AtTop.
Proof.
  induction items as [|item items IH]; intros c Hok Hf Hc; [done|].
  apply Forall_cons in Hf as [Hi Hf]. apply andb_true_iff in Hok as [Hitem Hok]. simpl.
  wp_step. wp_step. apply open_item_top in H as Ha; [|done].
  eapply answers_bind; [|intros c' Hc'; apply IH; [done..|by eapply AtTop_Runs]].
  apply (check_item_answers (R := within_fuel f fuel)); [|by apply Runs_refl, top_good].
  apply Forall_forall. intros x Hx. unfold fits in Hi. rewrite Forall_forall in Hi.
  split; [by eapply ok_item_parts|auto].
Qed.

(** A program of three declarations: a record, a function that reads it, and its call. *)
Definition sample_source : list Z := bs
"Point = { x :: Num, y :: Num }
norm = (p :: Point) -> Num => < q = p q.x + p.y >
main = () -> Num => < norm(Point { x = 1, y = 2 }) >".

(** The source through the lexer and the parser. *)
Definition parsed (source : list Z) : Program :=
  match tokenize_in_file source 3 with
  | Ok tokens =>
      match parse (R := ascii_recogniser) (U := ascii_case) tokens with
      | Ok p => p
      | Err _ => mkProgram [] [] [] [] []
      end
  | Err _ => mkProgram [] [] [] [] []
  end.

(** The checker [fuel] leaves of the items of a source, or its first diagnostic. *)
Definition checked (fuel : nat) (source : list Z) : fueled TypeError TypeChecker :=
  let p := parsed source in
  check_items fuel (with_overloaded_names new_checker (overload_set_names p)) (items p).

(** C3: checking every item of a parsed program, from a new checker, answers: the
    checker it ends with is sound, back in its one scope, outside every declaration,
    with no pending result and in no test - or the first diagnostic is returned. *)
Theorem items_total (f : FileId) (fuel : nat) (p : Program)
    (Hparsed : ok f (items p) = true) (Hfuel : Forall (fits fuel) (items p)) :
  match check_items fuel (with_overloaded_names new_checker (overload_set_names p)) (items p) with
  | Ok c => AtTop c
  | throw _ => True
  | out_of_fuel => False
  end.
Proof.
  apply (check_items_top f); [done..|]. apply AtTop_overloaded, AtTop_new.
Qed.

Example items_total_witness :
  ok 3 (items (parsed sample_source)) = true ∧ length (items (parsed sample_source)) = 3%nat ∧
  ∃ c, checked 60 sample_source = Ok c ∧ AtTop c.
Proof.
  split; [by vm_compute|]. split; [by vm_compute|].
  pose proof (items_total 3 60 (parsed sample_source) ltac:(by vm_compute)
    ltac:(apply (bool_decide_unpack _); by vm_compute)) as H.
  assert (match checked 60 sample_source with Ok _ => true | Err _ => false end = true) as Hok
    by by vm_compute.
  unfold checked in *. cbv zeta in *. destruct (check_items 60 _ _) as [c|]; [by exists c|done].
Defined.

(** ** What the check lets through *)

(** [main] binds an immutable point; the handler it passes hands the point out, and
    [freeze] writes through what the handler returned. *)
Definition frozen_source : list Z := bs
"Point = { x :: Num, y :: Num }
freeze = (f :: () -> Point) -> $ => < q := f() q.x := 9 >
main = () -> Num => < p = Point { x = 1, y = 2 } freeze(() => < p >) p.x >".

(** The same write without the function-typed parameter. *)
Definition thawed_source : list Z := bs
"Point = { x :: Num, y :: Num }
freeze = (f :: Point) -> $ => < q := f q.x := 9 >
main = () -> Num => < p = Point { x = 1, y = 2 } freeze(p) p.x >".

(** A field of an immutable binding is written through the result of a function-typed
    parameter, and no rule of the check refuses the program. *)
Example frozen_accepted :
  match checked 60 frozen_source with Ok _ => True | Err _ => False end.
Proof. by vm_compute. Qed.

(** A sum declared in one body, its variants used in another. *)
Definition local_sum_source : list Z := bs
"first = () -> Num => < Shape = Circle(Num) / Dot s = Circle(1) s ? | Circle(r) => r >
main = () -> Num => < s = Circle(4) s ? | Circle(r) => r >".

(** The variants of a sum declared inside [first] construct and match in [main], after
    the body that declares them ended. *)
Example local_variants_escape :
  match checked 80 local_sum_source with
  | Ok c => fst <$> variant_owner c "Circle" = Some "Shape" ∧ enclosing (env c) = []
  | Err _ => False
  end.
Proof. by vm_compute. Qed.

(** Two bodies that each declare a sum with a variant of one name. *)
Definition twin_sums_source : list Z := bs
"first = () -> Num => < Shape = Circle(Num) / Dot s = Circle(1) s ? | Circle(r) => r >
main = () -> Num => < Ring = Circle(Num) / Hole s = Circle(4) s ? | Circle(r) => r >".

(** The second declaration is refused: variant names are unique in the program. *)
Example twin_variants_refused :
  match checked 80 twin_sums_source with
  | throw (Te.DuplicateDefinition name _) => name = "Circle"
  | _ => False
  end.
Proof. by vm_compute. Qed.
