(* ===== verification/SharingProps.v ===== *)
(** * What the sharing check decides

    The search of [FiberSharing] finds a shared binding exactly when a body that
    runs on the fiber reaches one, and the check refuses a program exactly when some
    launch of it is unsafe. *)

From S2P Require Import Prelude Bytes Token Ast ParserLogic TypeMatch TypeErrors Env Checker Walk Reachability FiberSharing ResultPins Program CheckerProps.

(** ** Checks as decisions *)

(** [m] answers exactly when nothing in [U] is wrong, and gives one of [U] otherwise. *)
Definition decides (m : fueled TypeError unit) (U : TypeError → Prop) : Prop :=
  match m with
  | Ok _ => ∀ e, ¬ U e
  | throw e => U e
  | out_of_fuel => False
  end.

(** ** What a body reaches *)

Section reach.
Context (c : TypeChecker) (index : gmap string (list Expression)).

Definition bodies_of (name : string) : list Expression := default [] (index !! name).

(** A body leads to every body of the index a name it touches has. *)
Definition calls_into (b b' : Expression) : Prop :=
  ∃ name, name ∈ (touches b).*1 ∧ b' ∈ bodies_of name.

Definition reaches (roots : list Expression) (b : Expression) : Prop :=
  ∃ r, r ∈ roots ∧ rtc calls_into r b.

(** Something the bodies run touches a shared binding. *)
Definition shares (roots : list Expression) (touch : Touch) : Prop :=
  ∃ b, reaches roots b ∧ touch ∈ touches b ∧ is_shared c touch.1 = true.

(** The loop keeps, of the bodies searched: they touch nothing shared, and what they
    and the roots lead to is searched or waiting. *)
Record searching (roots : list Expression) (searched : Expression → Prop) (visited : gset string)
    (pending : list Expression) : Prop := {
  searching_reached b : b ∈ pending → reaches roots b;
  searching_roots b : b ∈ roots → searched b ∨ b ∈ pending;
  searching_clean b touch : searched b → touch ∈ touches b → is_shared c touch.1 = false;
  searching_names b name : searched b → name ∈ (touches b).*1 → name ∈ visited;
  searching_bodies b name : name ∈ visited → b ∈ bodies_of name → searched b ∨ b ∈ pending
}.
End reach.

(** ** The launches of a program *)

(** The parts of an expression, each with the body it lies in. *)
Definition statement_scoped (scope : Expression) (statement : Statement Expression)
    : list (Expression * Expression) :=
  match statement with
  | StatementItem (ItemVariable d) => [(variable_value d, scope)]
  | StatementExpression e => [(e, scope)]
  | _ => (λ b, (b, b)) <$> statement_parts statement
  end.
Definition scoped_parts (e scope : Expression) : list (Expression * Expression) :=
  match e with
  | Expression.Lambda _ _ body _ => [(body, body)]
  | Expression.Block statements _ => statements ≫= statement_scoped scope
  | _ => (λ part, (part, scope)) <$> parts_of e
  end.

(** [x] lies in [body], and [scope] is the innermost body around it. *)
Definition within (body x scope : Expression) : Prop :=
  rtc (λ p q : Expression * Expression, q ∈ scoped_parts p.1 p.2) (body, body) (x, scope).

(** The bodies a handler runs, and the body of its own it has where it is not top level. *)
Definition own_body (index : gmap string (list Expression)) (scope handler : Expression) : option Expression :=
  match handler with
  | Expression.Lambda _ _ body _ => Some body
  | Expression.Identifier name _ =>
      match index !! name with None => find_local_handler_body scope name | Some _ => None end
  | _ => None
  end.
Definition handler_bodies (index : gmap string (list Expression)) (scope handler : Expression) : list Expression :=
  match own_body index scope handler, handler with
  | Some body, _ => [body]
  | None, Expression.Identifier name _ => bodies_of index name
  | None, _ => []
  end.

(** A mutable local of the body that launches, no atomic one, which the handler's own body touches. *)
Definition captures_local (c : TypeChecker) (scope body : Expression) (touch : Touch) : Prop :=
  touch ∈ touches body ∧ touch.1 ∈ (direct_mutable_locals scope).*1
  ∧ (touch.1, true) ∉ direct_mutable_locals scope ∧ is_top_level (env c) touch.1 = false.

(** What is wrong with the call [e] in [scope]. *)
Inductive unsafe_call (c : TypeChecker) (index : gmap string (list Expression))
    : Expression → Expression → TypeError → Prop :=
| unsafe_shares name name_span arguments member span scope primitive handler touch :
    fiber_handler_primitive name = Some primitive → last arguments = Some handler →
    shares c index (handler_bodies index scope handler) touch →
    unsafe_call c index (Expression.Call (Expression.Identifier name name_span) arguments member span) scope
      (Te.SharedAcrossFibers touch.1 primitive touch.2 span)
| unsafe_captures name name_span arguments member span scope primitive handler body touch :
    fiber_handler_primitive name = Some primitive → last arguments = Some handler →
    own_body index scope handler = Some body → captures_local c scope body touch →
    unsafe_call c index (Expression.Call (Expression.Identifier name name_span) arguments member span) scope
      (Te.SharedAcrossFibers touch.1 primitive touch.2 span).

(** What is wrong in an item: an unsafe launch in one of its bodies, or a trap arm,
    which the signal fiber runs, that reaches a shared binding. *)
Inductive unsafe_item (c : TypeChecker) (index : gmap string (list Expression))
    : Item Expression → TypeError → Prop :=
| unsafe_launch item body x scope e :
    body ∈ item_expressions item → within body x scope → unsafe_call c index x scope e →
    unsafe_item c index item e
| unsafe_arm trap arm touch :
    arm ∈ arms trap → shares c index [arm_body arm] touch →
    unsafe_item c index (ItemTrap trap)
      (Te.SharedAcrossFibers touch.1 TRAP_NAME touch.2 (expression_span (arm_body arm))).

(** The check of the node itself. *)
Definition own_launch (c : TypeChecker) (index : gmap string (list Expression)) (e scope : Expression)
    : fueled TypeError unit :=
  match e with
  | Expression.Call (Expression.Identifier name _) arguments _ span =>
      match fiber_handler_primitive name with
      | Some primitive => check_fiber_launch c index primitive arguments span scope
      | None => Ok tt
      end
  | _ => Ok tt
  end.

(** ** Deciding *)

Lemma decides_iff m U V : (∀ e, U e ↔ V e) → decides m U → decides m V.
Proof. destruct m as [[]|[e|]]; simpl; naive_solver. Qed.

Lemma decides_Ok (U : TypeError → Prop) : (∀ e, ¬ U e) → decides (Ok tt) U.
Proof. done. Qed.

Lemma decides_bind m n U V : decides m U → decides n V → decides (m ≫= λ _, n) (λ e, U e ∨ V e).
Proof. destruct m as [[]|[]]; simpl; [|by auto|done]. destruct n as [[]|[]]; simpl; naive_solver. Qed.

Lemma decides_each {A} (f : A → fueled TypeError unit) (U : A → TypeError → Prop) xs :
  (∀ x, x ∈ xs → decides (f x) (U x)) → decides (check_each f xs) (λ e, ∃ x, x ∈ xs ∧ U x e).
Proof.
  induction xs as [|x xs IH]; intros Hxs; simpl.
  - intros e (x&Hx&_). by apply elem_of_nil in Hx.
  - eapply decides_iff; [|eapply decides_bind; [apply Hxs; left|apply IH; intros; apply Hxs; by right]].
    intros e. simpl. setoid_rewrite elem_of_cons. naive_solver.
Qed.

(** ** The search *)

Section search.
Context (c : TypeChecker) (index : gmap string (list Expression)).
Abbreviation width := (λ name, length (bodies_of index name)).

Lemma width_none name : index !! name = None → width name = 0%nat.
Proof. unfold bodies_of. by intros ->. Qed.

Lemma follow_spec names visited pending visited' pending' :
  follow index names visited pending = (visited', pending') →
  (∀ n, n ∈ visited' ↔ n ∈ visited ∨ n ∈ names) ∧
  (∀ b, b ∈ pending' ↔ b ∈ pending ∨ ∃ n, n ∈ names ∧ n ∉ visited ∧ b ∈ bodies_of index n) ∧
  (length pending' + left_to_push index width visited' = length pending + left_to_push index width visited)%nat.
Proof.
  revert visited pending. induction names as [|n names IH]; simpl; intros visited pending Hf.
  - simplify_eq. setoid_rewrite elem_of_nil. naive_solver.
  - case_bool_decide as Hn.
    + destruct (IH _ _ Hf) as (Hv&Hp&Hl). split_and!; [| |done]; setoid_rewrite elem_of_cons; naive_solver.
    + destruct (IH _ _ Hf) as (Hv&Hp&Hl). fold (bodies_of index n) in *. split_and!.
      * intros m. rewrite Hv, elem_of_union, elem_of_singleton, elem_of_cons. naive_solver.
      * intros b. rewrite Hp, elem_of_app, elem_of_reverse. setoid_rewrite elem_of_cons.
        setoid_rewrite elem_of_union. setoid_rewrite elem_of_singleton. split; [naive_solver|].
        intros [?|(m&Hm&Hmv&Hb)]; [auto|]. destruct (decide (m = n)) as [->|]; [auto|].
        right. exists m. naive_solver.
      * rewrite length_app, length_reverse in Hl.
        rewrite (left_to_push_done _ _ width_none visited n Hn). lia.
Qed.

Lemma searching_start roots : searching c index roots (λ _, False) ∅ (reverse roots).
Proof.
  split; try done.
  - intros b Hb. rewrite elem_of_reverse in Hb. exists b. split; [done|apply rtc_refl].
  - intros b Hb. right. by rewrite elem_of_reverse.
Qed.

Lemma searching_step roots searched visited body pending visited' pending' :
  searching c index roots searched visited (body :: pending) →
  (∀ touch, touch ∈ touches body → is_shared c touch.1 = false) →
  follow index (touches body).*1 visited pending = (visited', pending') →
  searching c index roots (λ b, searched b ∨ b = body) visited' pending'.
Proof.
  intros [Hre Hro Hcl Hna Hbo] Hclean Hf. destruct (follow_spec _ _ _ _ _ Hf) as (Hv&Hp&_). split.
  - intros b [Hb|(n&Hn&_&Hb)]%Hp; [apply Hre; by right|].
    destruct (Hre body ltac:(left)) as (r&Hr&Hrb). exists r. split; [done|].
    eapply rtc_r; [exact Hrb|]. by exists n.
  - intros b Hb. rewrite Hp. destruct (Hro b Hb) as [?|[->|?]%elem_of_cons]; auto.
  - intros b touch [Hb| ->] Ht; eauto.
  - intros b name [Hb| ->] Hn; rewrite Hv; eauto.
  - intros b name Hn Hb. rewrite Hp. apply Hv in Hn.
    destruct (decide (name ∈ visited)) as [Hin|Hnot].
    + destruct (Hbo b name Hin Hb) as [?|[->|?]%elem_of_cons]; auto.
    + right. right. exists name. naive_solver.
Qed.

Lemma search_shared_exact roots fuel searched visited pending :
  searching c index roots searched visited pending →
  (length pending + left_to_push index width visited < fuel)%nat →
  match search_shared c index fuel visited pending with
  | Ok (Some touch) => shares c index roots touch
  | Ok None => ∀ touch, ¬ shares c index roots touch
  | Err _ => False
  end.
Proof.
  revert searched visited pending. induction fuel as [|fuel IH]; intros searched visited pending Hs Hf; [lia|].
  simpl. destruct pending as [|body pending].
  - intros touch (b&(r&Hr&Hrb)&Ht&Hsh). destruct Hs as [_ Hro Hcl Hna Hbo].
    assert (searched r) as Hsr by (by destruct (Hro r Hr) as [?|?%elem_of_nil]).
    assert (searched b) as Hb.
    { clear Hr Ht Hsh. induction Hrb as [r|r b' b (n&Hn&Hb') _ IHb]; [done|]. apply IHb.
      by destruct (Hbo b' n (Hna r n Hsr Hn) Hb') as [?|?%elem_of_nil]. }
    by rewrite (Hcl b touch Hb Ht) in Hsh.
  - destruct (list_find _ (touches body)) as [[i touch]|] eqn:Hfind.
    + apply list_find_Some in Hfind as (Hi&Ht&_). exists body.
      split; [apply (searching_reached _ _ _ _ _ _ Hs); left|]. split; [by eapply list_elem_of_lookup_2|done].
    + destruct (follow index (touches body).*1 visited pending) as [visited' pending'] eqn:Ef.
      apply list_find_None in Hfind. rewrite Forall_forall in Hfind.
      destruct (follow_spec _ _ _ _ _ Ef) as (_&_&Hl). simpl in Hf.
      eapply IH; [|lia]. eapply searching_step; [exact Hs| |exact Ef].
      intros t Ht. apply Hfind in Ht. by destruct (is_shared c t.1).
Qed.

Lemma first_shared_spec roots :
  match first_shared_global c index roots with
  | Ok (Some touch) => shares c index roots touch
  | Ok None => ∀ touch, ¬ shares c index roots touch
  | Err _ => False
  end.
Proof.
  eapply search_shared_exact; [apply searching_start|]. unfold search_fuel.
  rewrite length_reverse, (left_to_push_start _ _ length); [lia|].
  intros n bodies Hn. unfold bodies_of. by rewrite Hn.
Qed.
End search.

(** ** One launch *)

Lemma check_each_app {A} (f : A → fueled TypeError unit) xs ys :
  check_each f (xs ++ ys) = check_each f xs ≫= λ _, check_each f ys.
Proof. induction xs as [|x xs IH]; simpl; [done|]. rewrite IH. by destruct (f x). Qed.

Lemma check_each_fmap {A B} (h : A → B) f xs : check_each f (h <$> xs) = check_each (λ x, f (h x)) xs.
Proof. induction xs as [|x xs IH]; simpl; [done|]. destruct (f (h x)); [apply IH|done]. Qed.

Lemma check_each_bind {A B} (h : A → list B) f xs :
  check_each f (xs ≫= h) = check_each (λ x, check_each f (h x)) xs.
Proof. induction xs as [|x xs IH]; simpl; [done|]. rewrite check_each_app. destruct (check_each f (h x)); [apply IH|done]. Qed.

Lemma check_each_omap {A B} (h : A → option B) f xs :
  check_each f (omap h xs) = check_each (λ x, match h x with Some y => f y | None => Ok tt end) xs.
Proof. induction xs as [|x xs IH]; simpl; [done|]. destruct (h x) as [y|]; simpl; [destruct (f y); [apply IH|done]|apply IH]. Qed.

Lemma check_each_ext {A} (f g : A → fueled TypeError unit) xs :
  (∀ x, x ∈ xs → f x = g x) → check_each f xs = check_each g xs.
Proof.
  induction xs as [|x xs IH]; intros H; simpl; [done|].
  rewrite (H x) by left. rewrite IH by (intros; apply H; by right). done.
Qed.

Lemma bind_unit (m : fueled TypeError unit) : (m ≫= λ _, Ok tt) = m.
Proof. by destruct m as [[]|]. Qed.

Lemma bind_assoc_unit (m n k : fueled TypeError unit) :
  ((m ≫= λ _, n) ≫= λ _, k) = (m ≫= λ _, n ≫= λ _, k).
Proof. by destruct m. Qed.

Section launches.
Context (c : TypeChecker) (index : gmap string (list Expression)).

Lemma captured_iff scope body touch :
  touch ∈ touches body ∧
  (bool_decide (touch.1 ∈ (direct_mutable_locals scope).*1) && negb (is_top_level (env c) touch.1)
   && negb (bool_decide ((touch.1, true) ∈ direct_mutable_locals scope)) = true)
  ↔ captures_local c scope body touch.
Proof.
  unfold captures_local. rewrite !andb_true_iff, !negb_true_iff, bool_decide_eq_true, bool_decide_eq_false.
  naive_solver.
Qed.

Lemma check_fiber_launch_decides name name_span arguments member span scope primitive :
  fiber_handler_primitive name = Some primitive →
  decides (check_fiber_launch c index primitive arguments span scope)
    (unsafe_call c index (Expression.Call (Expression.Identifier name name_span) arguments member span) scope).
Proof.
  intros Hp. unfold check_fiber_launch. destruct (last arguments) as [handler|] eqn:Hlast.
  2: { intros e He. inversion He; simplify_eq/=. }
  fold (own_body index scope handler).
  replace (match own_body index scope handler with Some body => [body] | None => _ end)
    with (handler_bodies index scope handler) by (unfold handler_bodies; by destruct (own_body _ _ _), handler).
  pose proof (first_shared_spec c index (handler_bodies index scope handler)) as Hs.
  destruct (first_shared_global c index _) as [[[n touch]|]|[]]; [|idtac|done..]; simpl.
  - by eapply (unsafe_shares _ _ _ _ _ _ _ _ _ _ (n, touch)).
  - destruct (own_body index scope handler) as [body|] eqn:Hb.
    + destruct (list_find _ (touches body)) as [[i [n touch]]|] eqn:Hf.
      * apply list_find_Some in Hf as (Hi&Ht&_). simpl.
        eapply (unsafe_captures _ _ _ _ _ _ _ _ _ _ body (n, touch)); [done..|].
        apply captured_iff. split; [by eapply list_elem_of_lookup_2|exact Ht].
      * apply list_find_None in Hf. rewrite Forall_forall in Hf.
        intros e He. inversion He as [|???????? body' touch ??? Hcap]; simplify_eq/=; [naive_solver|].
        apply captured_iff in Hcap as [Ht Hcap]. by apply (Hf touch).
    + intros e He. inversion He; simplify_eq/=. naive_solver.
Qed.

Lemma own_launch_decides e scope : decides (own_launch c index e scope) (unsafe_call c index e scope).
Proof.
  destruct e as [| | | | | | | |[| | | | |name name_span| | | | | | | | | | | | | | | | | |] arguments member span| | | | | | | | | | | | | | |];
    try (intros err He; by inversion He).
  simpl. destruct (fiber_handler_primitive name) as [primitive|] eqn:Hp; [by apply check_fiber_launch_decides|].
  intros e He. inversion He; congruence.
Qed.

Lemma launches_unfold f e scope :
  ok f e = true →
  check_fiber_launches_in c index e scope
  = own_launch c index e scope ≫= λ _,
    check_each (λ p, check_fiber_launches_in c index p.1 p.2) (scoped_parts e scope).
Proof.
  intros Hok. destruct e as [| |parts| | | | | |function arguments| |statements| |expression arms| | | | |
    |entries| |fields|type_name fields| |]; cbn [scoped_parts parts_of]; try reflexivity;
    rewrite ?check_each_fmap, ?check_each_omap, ?check_each_bind; simpl;
    try (destruct (check_fiber_launches_in c index _ scope) as [[]|]; [|done]; simpl;
         by rewrite ?bind_unit, ?check_each_fmap); try reflexivity.
  - apply check_each_ext. by intros [] _.
  - by rewrite bind_unit.
  - apply check_each_ext. intros statement Hs.
    assert (statement_ok (ok f) f statement = true) as Hst.
    { unfold ok, expression_checked in Hok. simpl in Hok. apply andb_true_iff in Hok as [Hok _].
      by eapply forallb_elem. }
    destruct statement as [[d|d|d|t]|x]; simpl; rewrite ?bind_unit; try done.
    rewrite !check_each_fmap. by destruct (type_definition d).
  - apply check_each_ext. intros [k v] _. simpl.
    destruct (check_fiber_launches_in c index k scope); simpl; [by rewrite bind_unit|done].
Qed.

Lemma scoped_parts_of e scope q : q ∈ scoped_parts e scope → q.1 ∈ parts_of e.
Proof.
  assert (∀ (g : Expression → Expression * Expression) (xs : list Expression), (∀ x, (g x).1 = x) → q ∈ g <$> xs → q.1 ∈ xs) as Hmap.
  { intros g xs Hg (x&->&Hx)%list_elem_of_fmap. by rewrite Hg. }
  destruct e as [| | | | | | | | |parameters result body span|statements span| | | | | | | | | | | | |];
    cbn [scoped_parts]; try (by apply Hmap).
  - intros ->%list_elem_of_singleton. by left.
  - intros (s&Hq&Hs)%list_elem_of_bind. apply list_elem_of_bind. exists s. split; [|done].
    destruct s as [[]|]; cbn [statement_scoped] in Hq; try (by apply (Hmap (λ b, (b, b)))).
    + apply list_elem_of_singleton in Hq as ->. by left.
    + apply list_elem_of_singleton in Hq as ->. by left.
Qed.

Lemma launches_decided f e scope :
  ok f e = true →
  decides (check_fiber_launches_in c index e scope)
    (λ err, ∃ x s, rtc (λ p q, q ∈ scoped_parts p.1 p.2) (e, scope) (x, s) ∧ unsafe_call c index x s err).
Proof.
  revert scope. induction e as [e IH] using Expression_parts_ind; intros scope Hok.
  rewrite (launches_unfold f) by done. rewrite Forall_forall in IH.
  eapply decides_iff; [|eapply decides_bind; [apply own_launch_decides|apply decides_each]].
  2: { intros q Hq. apply scoped_parts_of in Hq. apply IH; [done|by eapply ok_parts]. }
  intros err. simpl. split.
  - intros [Hu|([y s']&Hq&x&s&Hr&Hu)]; [exists e, scope; by split; [apply rtc_refl|]|].
    exists x, s. split; [|done]. by eapply rtc_l.
  - intros (x&s&Hr&Hu). inversion Hr as [|? [y s'] ? Hq Hr']; simplify_eq; [by left|].
    right. exists (y, s'). eauto.
Qed.
End launches.

(** ** The whole check *)

Section program.
Context (c : TypeChecker) (index : gmap string (list Expression)) (f : FileId).

Lemma body_decided item body :
  ok f item = true → body ∈ item_expressions item →
  decides (check_fiber_launches_in c index body body)
    (λ e, ∃ x scope, within body x scope ∧ unsafe_call c index x scope e).
Proof. intros Hi Hb. by eapply launches_decided, item_bodies_ok. Qed.

Lemma arm_decided arm :
  decides (check_fiber_launches_in c index (arm_body arm) (arm_body arm))
    (λ e, ∃ x scope, within (arm_body arm) x scope ∧ unsafe_call c index x scope e) →
  decides
    (check_fiber_launches_in c index (arm_body arm) (arm_body arm) ≫= λ _,
     shared ← first_shared_global c index [arm_body arm];
     match shared with
     | Some (name, touch) => throw (Te.SharedAcrossFibers name TRAP_NAME touch (expression_span (arm_body arm)))
     | None => Ok tt
     end)
    (λ e, (∃ x scope, within (arm_body arm) x scope ∧ unsafe_call c index x scope e)
          ∨ ∃ touch, shares c index [arm_body arm] touch ∧
              e = Te.SharedAcrossFibers touch.1 TRAP_NAME touch.2 (expression_span (arm_body arm))).
Proof.
  intros Hd. apply decides_bind; [done|].
  pose proof (first_shared_spec c index [arm_body arm]) as Hs.
  destruct (first_shared_global c index _) as [[[n touch]|]|[]]; [| |done..]; simpl.
  - by exists (n, touch).
  - naive_solver.
Qed.

Lemma item_decided item : ok f item = true → decides (check_item_launches c index item) (unsafe_item c index item).
Proof.
  intros Hi. destruct item as [d|d|d|d]; cbn [check_item_launches].
  - eapply decides_iff; [|eapply (body_decided (ItemVariable d)); [done|left]].
    intros e. split; [intros (x&s&?&?); eapply unsafe_launch; [left|done..]|].
    intros Hu. inversion Hu as [???? e' Hb|]; simplify_eq/=. apply list_elem_of_singleton in Hb as ->. eauto.
  - eapply decides_iff; [|eapply (body_decided (ItemFunction d)); [done|left]].
    intros e. split; [intros (x&s&?&?); eapply unsafe_launch; [left|done..]|].
    intros Hu. inversion Hu as [???? e' Hb|]; simplify_eq/=. apply list_elem_of_singleton in Hb as ->. eauto.
  - eapply decides_iff; [|eapply decides_each; intros m Hm; eapply (body_decided (ItemType d)); [done|]].
    2: { apply list_elem_of_fmap. eauto. }
    intros e. split.
    + intros (m&Hm&x&s&?&?). eapply unsafe_launch; [|done..]. apply list_elem_of_fmap. eauto.
    + intros Hu. inversion Hu as [???? e' Hb|]; simplify_eq/=. apply list_elem_of_fmap in Hb as (m&->&Hm). eauto 6.
  - eapply decides_iff; [|eapply decides_each; intros arm Harm; apply arm_decided, (body_decided (ItemTrap d)); [done|]].
    2: { apply list_elem_of_fmap. eauto. }
    intros e. split.
    + intros (arm&Ha&[(x&s&?&?)|(touch&?&->)]); [|by apply unsafe_arm].
      eapply unsafe_launch; [|done..]. apply list_elem_of_fmap. eauto.
    + intros Hu. inversion Hu as [???? e' Hb|]; simplify_eq/=; [|by eauto 6].
      apply list_elem_of_fmap in Hb as (arm&->&Ha). eauto 8.
Qed.
End program.


(** A server whose handler calls a function that counts in a global. *)
Definition shared_source : list Z := bs
"hits := 0
count = () -> $ => < hits := hits + 1 >
launch = () -> $ => < net.@tcpServe(80, (s :: Num) => < count() >) >".

(** The checker that knows the global. *)
Definition knows_hits : TypeChecker :=
  match check_items 60 new_checker (take 1 (items (parsed shared_source))) with
  | Ok c => c
  | Err _ => new_checker
  end.

