(* ===== verification/PinProps.v ===== *)
(** * What the callers of a declaration pin

    The fold of [ResultPins] over a declaration's calls is exact: each variant some
    site reads gets the first concrete payload a call gives it, every later one is
    equal to it, and otherwise the mismatch of one that is not is reported. *)

From S2P Require Import Prelude Bytes Token Ast TypeMatch TypeErrors Env Checker Overloads Patterns Walk Reachability Declarations Calls ResultPins.

(** ** What the callers teach *)

Section taught.
Context (c : TypeChecker).

(** The argument a call passes at [index], where it is a [Result]. *)
Definition result_argument (index : nat) (call : list Span) : option (Span * list SumVariant) :=
  span ← call !! index;
  match type_table c !! span with
  | Some (Ty.Sum sum_name variants) => if bool_decide (sum_name = RESULT_TYPE_NAME) then Some (span, variants) else None
  | _ => None
  end.

(** The concrete payload the argument gives a variant. *)
Definition teaches (variant : string) (argument : Span * list SumVariant) : option (Ty * Span) :=
  '(_, v) ← list_find (λ v, variant_name v = variant) argument.2;
  field ← head (variant_fields v);
  if is_generic field then None else Some (field, argument.1).

(** Everything the calls teach of a variant some site reads, in order. *)
Definition lesson (needed : bool) (variant : string) (index : nat) (call : list Span) : option (Ty * Span) :=
  if needed then result_argument index call ≫= teaches variant else None.
Definition taught (needed : bool) (variant : string) (index : nat) (calls : list (list Span)) : list (Ty * Span) :=
  omap (lesson needed variant index) calls.

(** The first payload pins the variant; the next ones are to equal it. *)
Definition pinned_by (pin : option Ty) (payloads : list (Ty * Span)) : option Ty :=
  match pin with Some t => Some t | None => fst <$> head payloads end.
Definition disagree (pin : option Ty) (payloads : list (Ty * Span)) (e : TypeError) : Prop :=
  ∃ t p, pinned_by pin payloads = Some t ∧ p ∈ payloads ∧ p.1 ≠ t ∧ e = Te.TypeMismatch t p.1 p.2.
Definition agreed (pin : option Ty) (payloads : list (Ty * Span)) (pin' : option Ty) : Prop :=
  pin' = pinned_by pin payloads ∧ ∀ p, p ∈ payloads → pin' = Some p.1.

(** Both variants of a [Result] carry a payload. *)
Definition results_carry : Prop :=
  ∀ span variants v, type_table c !! span = Some (Ty.Sum RESULT_TYPE_NAME variants) →
    v ∈ variants → variant_fields v ≠ [].

Lemma pinned_cons pin payload payloads :
  match pin with Some t => t = payload.1 | None => True end →
  pinned_by (Some payload.1) payloads = pinned_by pin (payload :: payloads).
Proof. by destruct pin as [t|]; simpl; [intros ->|]. Qed.

(** What a lesson does to a pin. *)
Definition learns (pin : option Ty) (payload : option (Ty * Span)) (pin' : option Ty) : Prop :=
  match payload with
  | Some p => pin' = Some p.1 ∧ match pin with Some t => t = p.1 | None => True end
  | None => pin' = pin
  end.

(** One variant of one call. *)
Lemma unify_variant_spec (needed : bool) variant variants pin span :
  (∀ v, v ∈ variants → variant_fields v ≠ []) →
  let payload := if needed then teaches variant (span, variants) else None in
  match unify_variant needed variant variants pin span with
  | Ok pin' => learns pin payload pin'
  | throw e =>
      ∃ t p, payload = Some p ∧ pin = Some t ∧ p.1 ≠ t ∧ e = Te.TypeMismatch t p.1 p.2
  | out_of_fuel => False
  end.
Proof.
  intros Hv. unfold unify_variant, teaches. destruct needed; [|done]. cbn [snd fst].
  destruct (list_find _ variants) as [[i v]|] eqn:Hf; simpl; [|done].
  apply list_find_Some in Hf as (Hi&_&_). apply list_elem_of_lookup_2, Hv in Hi.
  destruct (variant_fields v) as [|field fields]; [done|]. simpl. unfold unify_result_pin.
  destruct (is_generic field); [done|]. destruct pin as [t|]; simpl; [|done].
  destruct (Ty_eq t field) eqn:E; [apply Ty_eq_iff in E; by subst|]. exists t, (field, span).
  split_and!; try done. simpl. intros ->. by rewrite (proj2 (Ty_eq_iff t t)) in E.
Qed.

(** The rest of the calls, with what this one taught. *)
Lemma agreed_step payload payloads pin pin' pin'' :
  learns pin payload pin' → agreed pin' payloads pin'' →
  agreed pin (match payload with Some p => p :: payloads | None => payloads end) pin''.
Proof.
  destruct payload as [p|]; simpl; [|by intros ->]. intros [-> Hp] [-> H].
  split; [by apply pinned_cons|]. intros q [->|Hq]%elem_of_cons; auto.
Qed.

Lemma disagree_step payload payloads pin pin' e :
  learns pin payload pin' → disagree pin' payloads e →
  disagree pin (match payload with Some p => p :: payloads | None => payloads end) e.
Proof.
  destruct payload as [p|]; simpl; [|by intros ->]. intros [-> Hp] (t&q&Ht&Hq&Hne&->).
  exists t, q. split_and!; [|by right|done..]. by rewrite <- pinned_cons.
Qed.

Lemma disagree_here p payloads t :
  p.1 ≠ t → disagree (Some t) (p :: payloads) (Te.TypeMismatch t p.1 p.2).
Proof. intros Hp. exists t, p. split_and!; [done|by left|done..]. Qed.

Lemma fold_pins_cons needs_ok needs_not_ok index ok_pin not_ok_pin call calls :
  fold_pins c needs_ok needs_not_ok index ok_pin not_ok_pin (call :: calls)
  = ('(ok_pin, not_ok_pin) ←
       match result_argument index call with
       | Some (span, variants) =>
           ok_pin ← unify_variant needs_ok OK variants ok_pin span;
           not_ok_pin ← unify_variant needs_not_ok NOT_OK variants not_ok_pin span;
           Ok (ok_pin, not_ok_pin)
       | None => Ok (ok_pin, not_ok_pin)
       end;
     fold_pins c needs_ok needs_not_ok index ok_pin not_ok_pin calls).
Proof.
  simpl. f_equal. unfold result_argument. destruct (call !! index) as [span|]; simpl; [|done].
  destruct (type_table c !! span) as [[]|]; simpl; try done. by case_bool_decide.
Qed.

Lemma fold_pins_spec needs_ok needs_not_ok index calls ok_pin not_ok_pin :
  results_carry →
  match fold_pins c needs_ok needs_not_ok index ok_pin not_ok_pin calls with
  | Ok (ok', not_ok') =>
      agreed ok_pin (taught needs_ok OK index calls) ok' ∧
      agreed not_ok_pin (taught needs_not_ok NOT_OK index calls) not_ok'
  | throw e =>
      disagree ok_pin (taught needs_ok OK index calls) e ∨
      disagree not_ok_pin (taught needs_not_ok NOT_OK index calls) e
  | out_of_fuel => False
  end.
Proof.
  intros Hc. revert ok_pin not_ok_pin. induction calls as [|call calls IH]; intros ok_pin not_ok_pin.
  { simpl. split; (split; [by destruct ok_pin, not_ok_pin|intros p Hp; by apply elem_of_nil in Hp]). }
  rewrite fold_pins_cons. unfold taught. cbn [omap list_omap]. unfold lesson.
  destruct (result_argument index call) as [[span variants]|] eqn:Ha; simpl; [|by destruct needs_ok, needs_not_ok; apply IH].
  assert (∀ v, v ∈ variants → variant_fields v ≠ []) as Hv.
  { intros v. unfold result_argument in Ha. destruct (call !! index) as [s|]; [|done]. simpl in Ha.
    destruct (type_table c !! s) as [[]|] eqn:Et; try done. case_bool_decide; simplify_eq. eapply Hc, Et. }
  pose proof (unify_variant_spec needs_ok OK variants ok_pin span Hv) as Ho.
  pose proof (unify_variant_spec needs_not_ok NOT_OK variants not_ok_pin span Hv) as Hn. cbv zeta in *.
  destruct (unify_variant needs_ok _ _ _ _) as [ok'|[e|]]; simpl; [|destruct Ho as (t&p&->&->&?&->); left; by apply disagree_here|done].
  destruct (unify_variant needs_not_ok _ _ _ _) as [not_ok'|[e|]]; simpl;
    [|destruct Hn as (t&p&->&->&?&->); right; by apply disagree_here|done].
  specialize (IH ok' not_ok'). destruct (fold_pins _ _ _ _ _ _ calls) as [[]|[]]; [|destruct IH as [H|H]; [left|right]|done].
  - destruct IH. split; by eapply agreed_step.
  - by eapply disagree_step.
  - by eapply disagree_step.
Qed.
End taught.
