(* ===== verification/Deferral.v ===== *)
(** * Deferred values: [deferral.rs]

    Which expressions may hold a value still being read (a [@readStdin], a
    [@tcpRequest], a connection's [@read]), and where the code generator forces one.
    The walk threads the accumulator as the code does; [None] is the panic of a trap
    among a block's statements.  The rounds of [analyze] take fuel, one round for
    each name the program declares and one more (see [DeferralProps]). *)

From S2P Require Import Prelude Bytes Num Token Ast Lexer ParserState TypeMatch TypeErrors Env Checker Walk ResultPins.

(** ** Primitives *)

Definition SLEEP_PRIMITIVE : string := "sleep".
Definition STREAM_FILE_PRIMITIVE : string := "streamFile".
Definition READ_PRIMITIVE : string := "readStdin".
Definition TCP_REQUEST_PRIMITIVE : string := "tcpRequest".
Definition CONNECTION_READ_PRIMITIVE : string := "read".
Definition TCP_SERVE_PRIMITIVE : string := "tcpServe".
Definition HTTP_SERVE_PRIMITIVE : string := "serve".
Definition SERVE_ARITY : nat := 2.

(** The callee is a name of the [@] primitive. *)
Definition calls_primitive (function : Expression) (primitive : string) : bool :=
  match function with
  | Expression.Identifier name _ => bool_decide (at_primitive_name name = Some primitive)
  | _ => false
  end.

Definition is_read_call (function : Expression) (arguments : list Expression) : bool :=
  calls_primitive function READ_PRIMITIVE && (length arguments =? 0)%nat.

Definition is_tcp_request_call (function : Expression) (arguments : list Expression) : bool :=
  calls_primitive function TCP_REQUEST_PRIMITIVE
  && ((length arguments =? 2)%nat || (length arguments =? 3)%nat).

Definition is_connection_read_call (function : Expression) (arguments : list Expression)
    (member_call : bool) : bool :=
  member_call && ((length arguments =? 1)%nat || (length arguments =? 2)%nat)
  && calls_primitive function CONNECTION_READ_PRIMITIVE.

Definition produces_deferred (function : Expression) (arguments : list Expression) (member_call : bool) : bool :=
  is_read_call function arguments || is_tcp_request_call function arguments
  || is_connection_read_call function arguments member_call.

Definition is_serve_call (function : Expression) (arguments : list Expression) (primitive_name : string) : bool :=
  calls_primitive function primitive_name && (length arguments =? SERVE_ARITY)%nat.

Definition launches_in_background (function : Expression) (arguments : list Expression)
    (member_call : bool) : bool :=
  produces_deferred function arguments member_call
  || is_serve_call function arguments TCP_SERVE_PRIMITIVE
  || is_serve_call function arguments HTTP_SERVE_PRIMITIVE.

(** ** What the analysis answers *)

Record DeferInfo : Type := mkDeferInfo {
  info_force_sites : gset Span;
  info_launch_scopes : gset Span
}.

Definition is_force_site (info : DeferInfo) (span : Span) : bool := bool_decide (span ∈ info_force_sites info).
Definition is_launch_scope (info : DeferInfo) (span : Span) : bool := bool_decide (span ∈ info_launch_scopes info).

Record AtomicReassignmentForced : Type := mkAtomicReassignmentForced {
  forced_name : string;
  forced_span : Span;
  transitive : option (string * string)
}.

(** [known_function_names]. *)
Definition known_names (item : Item Expression) : list string :=
  match item with
  | ItemFunction f => [function_name f]
  | ItemVariable v => match variable_value v with Expression.Lambda _ _ _ _ => [variable_name v] | _ => [] end
  | ItemType t => method_name <$> methods (type_definition t)
  | ItemTrap _ => []
  end.
Definition known_function_names (program : Program) : gset string :=
  list_to_set (items program ≫= known_names).

(** ** The accumulator of a round *)

Record Taint : Type := mkTaint {
  force_sites : gset Span;
  launch_scopes : gset Span;
  block_stack : list Span;
  newly_deferred_globals : gset string;
  violation : option AtomicReassignmentForced;
  waiting_functions : gmap string (string * string);
  current_function : option string;
  transitive_waits : list (string * string);
  producers_seen : gset string;
  track_unresolved_callees : bool
}.

Definition new_taint : Taint := mkTaint ∅ ∅ [] ∅ None ∅ None [] ∅ true.

Section setters.
Variable t : Taint.
Definition insert_force_site (span : Span) : Taint :=
  mkTaint ({[span]} ∪ force_sites t) (launch_scopes t) (block_stack t) (newly_deferred_globals t) (violation t)
    (waiting_functions t) (current_function t) (transitive_waits t) (producers_seen t) (track_unresolved_callees t).
Definition insert_launch_scope (span : Span) : Taint :=
  mkTaint (force_sites t) ({[span]} ∪ launch_scopes t) (block_stack t) (newly_deferred_globals t) (violation t)
    (waiting_functions t) (current_function t) (transitive_waits t) (producers_seen t) (track_unresolved_callees t).
Definition with_block_stack (stack : list Span) : Taint :=
  mkTaint (force_sites t) (launch_scopes t) stack (newly_deferred_globals t) (violation t)
    (waiting_functions t) (current_function t) (transitive_waits t) (producers_seen t) (track_unresolved_callees t).
Definition with_newly (names : gset string) : Taint :=
  mkTaint (force_sites t) (launch_scopes t) (block_stack t) names (violation t)
    (waiting_functions t) (current_function t) (transitive_waits t) (producers_seen t) (track_unresolved_callees t).
Definition with_violation (v : AtomicReassignmentForced) : Taint :=
  mkTaint (force_sites t) (launch_scopes t) (block_stack t) (newly_deferred_globals t) (Some v)
    (waiting_functions t) (current_function t) (transitive_waits t) (producers_seen t) (track_unresolved_callees t).
Definition insert_waiting (name : string) (found : string * string) : Taint :=
  mkTaint (force_sites t) (launch_scopes t) (block_stack t) (newly_deferred_globals t) (violation t)
    (<[name := found]> (waiting_functions t)) (current_function t) (transitive_waits t) (producers_seen t)
    (track_unresolved_callees t).
Definition with_waits (waits : list (string * string)) : Taint :=
  mkTaint (force_sites t) (launch_scopes t) (block_stack t) (newly_deferred_globals t) (violation t)
    (waiting_functions t) (current_function t) waits (producers_seen t) (track_unresolved_callees t).
Definition with_producers (producers : gset string) : Taint :=
  mkTaint (force_sites t) (launch_scopes t) (block_stack t) (newly_deferred_globals t) (violation t)
    (waiting_functions t) (current_function t) (transitive_waits t) producers (track_unresolved_callees t).
Definition in_function (name : option string) (producers : gset string) (track : bool) : Taint :=
  mkTaint (force_sites t) (launch_scopes t) (block_stack t) (newly_deferred_globals t) (violation t)
    (waiting_functions t) name (transitive_waits t) producers track.
End setters.

Definition push_wait (t : Taint) (wait : string * string) : Taint :=
  with_waits t (transitive_waits t ++ [wait]).

(** The names in scope that hold a deferred value, or a ready one. *)
Abbreviation Scope := (gmap string bool).

(** ** The walk *)

Definition each {A} (f : A → Taint → option Taint) : list A → Taint → option Taint :=
  fix go xs t := match xs with [] => Some t | x :: xs => f x t ≫= go xs end.

Section round.
Context `{U : UnicodeCase}.
Variables atomic_reassignments top_level_reassignments : gset Span.
Variables deferred_globals known_functions : gset string.

Definition is_deferred (scope : Scope) (name : string) : bool :=
  match scope !! name with
  | Some deferred => deferred
  | None => bool_decide (name ∈ deferred_globals)
  end.

Definition mark_global_deferred (t : Taint) (name : string) : Taint :=
  if bool_decide (name ∈ deferred_globals) then t
  else with_newly t ({[name]} ∪ newly_deferred_globals t).

Definition record_waiting_function (name : string) (force_sites_before transitive_waits_before : nat)
    (producers : gset string) (t : Taint) : Taint :=
  if bool_decide (is_Some (waiting_functions t !! name)) then t
  else
    match transitive_waits t !! transitive_waits_before with
    | Some found => insert_waiting t name found
    | None =>
        if (force_sites_before <? size (force_sites t))%nat then
          let what := match elements producers with [producer] => producer | _ => "a deferred value" end in
          insert_waiting t name (name, what)
        else t
    end.

Definition is_server_launch (function : Expression) : bool :=
  calls_primitive function TCP_SERVE_PRIMITIVE || calls_primitive function HTTP_SERVE_PRIMITIVE.

Definition record_transitive_wait (function : Expression) (member_call : bool) (t : Taint) : Taint :=
  match function with
  | Expression.Identifier name _ =>
      if is_server_launch function then t
      else if calls_primitive function SLEEP_PRIMITIVE || calls_primitive function STREAM_FILE_PRIMITIVE
      then push_wait t (default name (current_function t), name)
      else
        match waiting_functions t !! name with
        | Some found => push_wait t found
        | None =>
            let is_constructor_shaped := is_capitalized (display_name name) in
            if track_unresolved_callees t && negb member_call && negb is_constructor_shaped
               && bool_decide (at_primitive_name name = None)
               && negb (bool_decide (name ∈ known_functions))
            then push_wait t (name, "the callee is a value, not a function the checker can follow")
            else t
        end
  | _ => t
  end.

Definition check_atomic_reassignment (v : VariableDeclaration Expression)
    (force_sites_before transitive_waits_before : nat) (t : Taint) : Taint :=
  if bool_decide (is_Some (violation t)) || negb (bool_decide (variable_span v ∈ atomic_reassignments)) then t
  else if (force_sites_before <? size (force_sites t))%nat
  then with_violation t (mkAtomicReassignmentForced (variable_name v) (variable_span v) None)
  else
    match transitive_waits t !! transitive_waits_before with
    | Some found =>
        with_violation t (mkAtomicReassignmentForced (variable_name v) (variable_span v) (Some found))
    | None => t
    end.

(** A body under its own name, as a strict slot that [walk] analyses. *)
Definition analyze_function_body (walk : Taint → option Taint) (name : string) (track : bool) (t : Taint)
    : option Taint :=
  let force_sites_before := size (force_sites t) in
  let transitive_waits_before := length (transitive_waits t) in
  t' ← walk (in_function t (Some name) ∅ track);
  let producers_during := producers_seen t' in
  let t' := in_function t' (current_function t) (producers_seen t) (track_unresolved_callees t) in
  Some (record_waiting_function name force_sites_before transitive_waits_before producers_during t').

(** The end of a call, its callee and arguments visited: [waits] is the number of waits
    before the arguments. *)
Definition finish_call (function : Expression) (arguments : list Expression) (member_call : bool)
    (waits : nat) (t : Taint) : bool * Taint :=
  let t := if is_server_launch function then with_waits t (take waits (transitive_waits t)) else t in
  let t := record_transitive_wait function member_call t in
  let deferred := produces_deferred function arguments member_call in
  let t := match function with
           | Expression.Identifier name _ =>
               if deferred then with_producers t ({[name]} ∪ producers_seen t) else t
           | _ => t
           end in
  let t := match block_stack t with
           | scope :: _ =>
               if launches_in_background function arguments member_call then insert_launch_scope t scope else t
           | [] => t
           end in
  (deferred, t).

(** A declared or reassigned value, visited by [walk]. *)
Definition analyze_declaration_value (walk : Taint → option (bool * Taint))
    (v : VariableDeclaration Expression) (t : Taint) : option (bool * Taint) :=
  let force_sites_before := size (force_sites t) in
  let transitive_waits_before := length (transitive_waits t) in
  '(deferred, t) ← walk t;
  Some (deferred, check_atomic_reassignment v force_sites_before transitive_waits_before t).

(** What a strict slot does with the value delivered to it. *)
Definition force (expression : Expression) (visited : bool * Taint) : option Taint :=
  Some (if visited.1 then insert_force_site visited.2 (expression_span expression) else visited.2).

(** [visit] and [visit_block]; the head of the block stack is its innermost block. *)
Fixpoint visit (expression : Expression) (env : Scope) (t : Taint) : option (bool * Taint) :=
  let strict e t := visit e env t ≫= force e in
  let two a b t := t ← strict a t; strict b t in
  let ready t := Some (false, t) in
  let body name b track t := analyze_function_body (λ t, visit b ∅ t ≫= force b) name track t in
  match expression with
  | Expression.Number _ _ | Expression.String _ _ | Expression.Bool _ _ | Expression.Unit _ => ready t
  | Expression.Identifier name _ => Some (is_deferred env name, t)
  | Expression.Call function arguments member_call _ =>
      t ← strict function t;
      let waits := length (transitive_waits t) in
      t ← each strict arguments t;
      Some (finish_call function arguments member_call waits t)
  | Expression.BinaryOperator a _ b _ | Expression.FieldAssign a b _ | Expression.IndexAssign a b _
  | Expression.Index a b _ | Expression.Range a b _ => two a b t ≫= ready
  | Expression.UnaryOperator _ e _ | Expression.Spread e _ | Expression.FieldAccess e _ _
  | Expression.Lambda _ _ e _ => strict e t ≫= ready
  | Expression.Array elements _ | Expression.SetLiteral elements _ => each strict elements t ≫= ready
  | Expression.MapLiteral entries _ => each (λ entry, two entry.1 entry.2) entries t ≫= ready
  | Expression.Record fields _ | Expression.Constructor _ fields _ =>
      each (λ field, strict field.2) fields t ≫= ready
  | Expression.Interpolation parts _ =>
      each (λ part, match part with PartHole hole => strict hole | PartLiteral _ => Some end) parts t ≫= ready
  | Expression.If condition then_ else_ _ =>
      t ← strict condition t;
      '(then_deferred, t) ← visit then_ env t;
      '(else_deferred, t) ← visit else_ env t;
      Some (then_deferred || else_deferred, t)
  | Expression.Match e arms _ =>
      t ← strict e t;
      (fix go arms any t :=
         match arms with
         | [] => Some (any, t)
         | arm :: arms => '(deferred, t) ← visit (arm_body arm) env t; go arms (any || deferred) t
         end) arms false t
  | Expression.Block statements span =>
      '(deferred, t') ←
        (fix go statements local t :=
           match statements with
           | [] => ready t
           | StatementItem (ItemVariable v) :: rest =>
               '(deferred, t) ← analyze_declaration_value (visit (variable_value v) local) v t;
               let t := if deferred && bool_decide (variable_span v ∈ top_level_reassignments)
                        then mark_global_deferred t (variable_name v) else t in
               go rest (<[variable_name v := deferred]> local) t
           | StatementItem (ItemFunction f) :: rest =>
               t ← body (function_name f) (function_body f) true t; go rest local t
           | StatementItem (ItemType d) :: rest =>
               t ← each (λ m, body (method_name m) (method_body m) true)
                     match type_definition d with DefSum _ _ methods | DefRecord _ methods => methods end t;
               go rest local t
           | StatementItem (ItemTrap _) :: _ => None
           | [StatementExpression e] => visit e local t
           | StatementExpression e :: rest => '(_, t) ← visit e local t; go rest local t
           end) statements env (with_block_stack t (span :: block_stack t));
      Some (deferred, with_block_stack t' (tail (block_stack t')))
  end.

Definition strict (expression : Expression) (env : Scope) (t : Taint) : option Taint :=
  visit expression env t ≫= force expression.

Definition analyze_method (method : MethodDeclaration Expression) (t : Taint) : option Taint :=
  analyze_function_body (strict (method_body method) ∅) (method_name method) true t.

Definition analyze_item (item : Item Expression) (t : Taint) : option Taint :=
  match item with
  | ItemFunction f =>
      analyze_function_body (strict (function_body f) ∅) (function_name f)
        (negb (is_inert_corelib_placeholder f)) t
  | ItemVariable v =>
      '(deferred, t) ← analyze_declaration_value (visit (variable_value v) ∅) v t;
      Some (if (deferred : bool) then
              if mutable v then mark_global_deferred t (variable_name v)
              else insert_force_site t (expression_span (variable_value v))
            else t)
  | ItemType d => each analyze_method (methods (type_definition d)) t
  | ItemTrap trap => each (λ arm, strict (arm_body arm) ∅) (arms trap) t
  end.

(** One round: every item, from a fresh accumulator. *)
Definition analyze_round (program : Program) : option Taint := each analyze_item (items program) new_taint.
End round.

(** ** Rounds *)

Section analyze.
Context `{U : UnicodeCase}.
Variables atomic_reassignments top_level_reassignments : gset Span.

Fixpoint analyze_rounds (fuel : nat) (program : Program) (deferred_globals : gset string)
    : fueled AtomicReassignmentForced DeferInfo :=
  match fuel with
  | O => out_of_fuel
  | S fuel =>
      match analyze_round atomic_reassignments top_level_reassignments deferred_globals
              (known_function_names program) program with
      | None => Err None
      | Some taint =>
          if bool_decide (newly_deferred_globals taint = ∅) then
            match violation taint with
            | Some violation => throw violation
            | None => Ok (mkDeferInfo (force_sites taint) (launch_scopes taint))
            end
          else analyze_rounds fuel program (deferred_globals ∪ newly_deferred_globals taint)
      end
  end.

(** The names the program declares: at the top level, and in its blocks. *)
Definition declared_at (expression : Expression) : list string :=
  match expression with
  | Expression.Block statements _ =>
      omap (λ statement, match statement with
                         | StatementItem (ItemVariable v) => Some (variable_name v)
                         | _ => None
                         end) statements
  | _ => []
  end.
Definition declared_in (expression : Expression) : list string :=
  match try_for_each_subexpression (B := Empty_set) (λ e out, Continue (out ++ declared_at e)) expression ([] : list string) with
  | Continue out | Break _ out => out
  end.
Definition item_declares (item : Item Expression) : list string :=
  match item with ItemVariable v => [variable_name v] | _ => [] end
  ++ (item_expressions item ≫= declared_in).

Definition analyze (program : Program) : fueled AtomicReassignmentForced DeferInfo :=
  analyze_rounds (S (length (items program ≫= item_declares))) program ∅.
End analyze.
