(* ===== verification/DeferralProps.v ===== *)
(** * What the deferral analysis answers

    A specification that walks nothing - what an expression delivers, which slots force
    it, which globals it stores a deferred value into - and the theorem that the rounds
    of [Deferral] end in the least set of deferred globals and force exactly the strict
    slots a deferred value reaches. *)

From S2P Require Import Prelude Bytes Num Token Ast AstProps Lexer ParserState Grammar ParserLogic TypeMatch TypeErrors Env Checker Walk ResultPins CheckerProps SharingProps Deferral.

(** ** Slots *)

Section spec.
Variable G : gset string.

(** Whether the value of an expression reaches its slot still deferred. *)
Fixpoint delivers (expression : Expression) (env : Scope) : bool :=
  match expression with
  | Expression.Identifier name _ => is_deferred G env name
  | Expression.Call function arguments member_call _ => produces_deferred function arguments member_call
  | Expression.If _ then_ else_ _ => delivers then_ env || delivers else_ env
  | Expression.Match _ arms _ => existsb (λ arm, delivers (arm_body arm) env) arms
  | Expression.Block statements _ =>
      (fix go statements local :=
         match statements with
         | [] => false
         | [StatementExpression e] => delivers e local
         | StatementItem (ItemVariable v) :: rest =>
             go rest (<[variable_name v := delivers (variable_value v) local]> local)
         | _ :: rest => go rest local
         end) statements env
  | _ => false
  end.

(** Where a part of an expression goes: a strict slot, which forces it, or a lazy one,
    which a declaration may bind; and what is in scope there. *)
Record Slot : Type := mkSlot {
  slot_strict : bool;
  slot_binds : option (VariableDeclaration Expression);
  slot_scope : Scope;
  slot_value : Expression
}.

Definition strict_slot (env : Scope) (e : Expression) : Slot := mkSlot true None env e.
Definition lazy_slot (env : Scope) (e : Expression) : Slot := mkSlot false None env e.

(** The slots of a block's statements, each name bound from its declaration on. *)
Fixpoint statement_slots (statements : list (Statement Expression)) (local : Scope) : list Slot :=
  match statements with
  | [] => []
  | StatementItem (ItemVariable v) :: rest =>
      mkSlot false (Some v) local (variable_value v)
      :: statement_slots rest (<[variable_name v := delivers (variable_value v) local]> local)
  | StatementItem item :: rest =>
      (strict_slot ∅ <$> statement_parts (StatementItem item)) ++ statement_slots rest local
  | StatementExpression e :: rest => lazy_slot local e :: statement_slots rest local
  end.

Definition slots (e : Expression) (env : Scope) : list Slot :=
  match e with
  | Expression.If condition then_ else_ _ =>
      [strict_slot env condition; lazy_slot env then_; lazy_slot env else_]
  | Expression.Match scrutinee arms _ => strict_slot env scrutinee :: (lazy_slot env ∘ arm_body <$> arms)
  | Expression.Block statements _ => statement_slots statements env
  | _ => strict_slot env <$> parts_of e
  end.

(** A strict slot of the expression, however deep, that a deferred value reaches. *)
Inductive forced : Expression → Scope → Span → Prop :=
| forced_here e env slot :
    slot ∈ slots e env → slot_strict slot = true → delivers (slot_value slot) (slot_scope slot) = true →
    forced e env (expression_span (slot_value slot))
| forced_inside e env slot span :
    slot ∈ slots e env → forced (slot_value slot) (slot_scope slot) span → forced e env span.

(** A reassignment of a global, however deep, that stores a deferred value. *)
Inductive stores (top_level : gset Span) : Expression → Scope → string → Prop :=
| stores_here e env slot v :
    slot ∈ slots e env → slot_binds slot = Some v → variable_span v ∈ top_level →
    delivers (slot_value slot) (slot_scope slot) = true → stores top_level e env (variable_name v)
| stores_inside e env slot name :
    slot ∈ slots e env → stores top_level (slot_value slot) (slot_scope slot) name → stores top_level e env name.

(** A call that launches in the background, with the innermost block around it. *)
Inductive launches : Expression → option Span → Span → Prop :=
| launches_here function arguments member_call span block :
    launches_in_background function arguments member_call = true →
    launches (Expression.Call function arguments member_call span) (Some block) block
| launches_inside e block part span :
    part ∈ parts_of e →
    launches part match e with Expression.Block _ s => Some s | _ => block end span →
    launches e block span.

(** The slots of an item; a [=] binding at the top level is forced at once. *)
Definition item_slots (item : Item Expression) : list Slot :=
  match item with
  | ItemVariable v => [mkSlot (negb (mutable v)) None ∅ (variable_value v)]
  | _ => strict_slot ∅ <$> item_expressions item
  end.

Definition slot_forces (slot : Slot) (span : Span) : Prop :=
  forced (slot_value slot) (slot_scope slot) span
  ∨ slot_strict slot = true ∧ delivers (slot_value slot) (slot_scope slot) = true
    ∧ span = expression_span (slot_value slot).
Definition slot_stores (top_level : gset Span) (slot : Slot) (name : string) : Prop :=
  stores top_level (slot_value slot) (slot_scope slot) name
  ∨ ∃ v, slot_binds slot = Some v ∧ variable_span v ∈ top_level
    ∧ delivers (slot_value slot) (slot_scope slot) = true ∧ name = variable_name v.

Definition item_forces (item : Item Expression) (span : Span) : Prop :=
  ∃ slot, slot ∈ item_slots item ∧ slot_forces slot span.
(** A global declared with [:=] holds its first value. *)
Definition item_stores (top_level : gset Span) (item : Item Expression) (name : string) : Prop :=
  (∃ slot, slot ∈ item_slots item ∧ slot_stores top_level slot name)
  ∨ ∃ v, item = ItemVariable v ∧ mutable v = true ∧ delivers (variable_value v) ∅ = true ∧ name = variable_name v.
End spec.

Definition item_launches (item : Item Expression) (span : Span) : Prop :=
  ∃ body, body ∈ item_expressions item ∧ launches body None span.

(** The globals that may hold a deferred value: the least set closed under what the
    program stores, the globals of the set read as deferred. *)
Inductive deferred_global (top_level : gset Span) (p : Program) : string → Prop :=
| deferred_stored G item name :
    (∀ m, m ∈ G → deferred_global top_level p m) → item ∈ items p → item_stores G top_level item name →
    deferred_global top_level p name.

(** ** What a step of the walk adds *)

Record adds (G : gset string) (F : Span → Prop) (N : string → Prop) (L : Span → Prop) (t t' : Taint) : Prop := {
  adds_forced span : span ∈ force_sites t' ↔ span ∈ force_sites t ∨ F span;
  adds_stored name : name ∈ newly_deferred_globals t' ↔ name ∈ newly_deferred_globals t ∨ (name ∉ G ∧ N name);
  adds_launched span : span ∈ launch_scopes t' ↔ span ∈ launch_scopes t ∨ L span;
  adds_stack : block_stack t' = block_stack t
}.

Definition none {A} (a : A) : Prop := False.

(** The step answers, and adds this much. *)
Definition goes G F N L (t : Taint) (r : option Taint) : Prop := ∃ t', r = Some t' ∧ adds G F N L t t'.
Definition does G F N L (d : bool) (t : Taint) (r : option (bool * Taint)) : Prop :=
  ∃ t', r = Some (d, t') ∧ adds G F N L t t'.

(** ** Composing steps *)

Lemma exists_nil {A} (P : A → Prop) : (∃ x, x ∈ [] ∧ P x) ↔ False.
Proof. setoid_rewrite elem_of_nil. naive_solver. Qed.
Lemma exists_cons {A} (P : A → Prop) x xs : (∃ y, y ∈ x :: xs ∧ P y) ↔ P x ∨ ∃ y, y ∈ xs ∧ P y.
Proof. setoid_rewrite elem_of_cons. naive_solver. Qed.
Lemma exists_app {A} (P : A → Prop) xs ys :
  (∃ y, y ∈ xs ++ ys ∧ P y) ↔ (∃ y, y ∈ xs ∧ P y) ∨ ∃ y, y ∈ ys ∧ P y.
Proof. setoid_rewrite elem_of_app. naive_solver. Qed.

Section compose.
Context (G : gset string).
Implicit Types (F : Span → Prop) (N : string → Prop) (L : Span → Prop) (t : Taint).

(** What the analysis reads of two accumulators is the same. *)
Definition same t t' : Prop :=
  force_sites t' = force_sites t ∧ newly_deferred_globals t' = newly_deferred_globals t
  ∧ launch_scopes t' = launch_scopes t ∧ block_stack t' = block_stack t.

Lemma adds_same t t' : same t t' → adds G none none none t t'.
Proof. intros (E1&E2&E3&E4). split; rewrite ?E1, ?E2, ?E3; unfold none; naive_solver. Qed.

Lemma taint_seq F N L F' N' L' t t' t'' :
  adds G F N L t t' → adds G F' N' L' t' t'' →
  adds G (λ s, F s ∨ F' s) (λ n, N n ∨ N' n) (λ s, L s ∨ L' s) t t''.
Proof.
  intros [Hf Hn Hl Hs] [Hf' Hn' Hl' Hs']. split; [..|by rewrite Hs'];
    intros; rewrite ?Hf', ?Hf, ?Hn', ?Hn, ?Hl', ?Hl; tauto.
Qed.

Lemma taint_iff F N L F' N' L' t t' :
  (∀ s, F s ↔ F' s) → (∀ n, N n ↔ N' n) → (∀ s, L s ↔ L' s) → adds G F N L t t' → adds G F' N' L' t t'.
Proof. intros EF EN EL [Hf Hn Hl Hs]. split; intros; rewrite <- ?EF, <- ?EN, <- ?EL; auto. Qed.

Lemma adds_then_same F N L t t' t'' : adds G F N L t t' → same t' t'' → adds G F N L t t''.
Proof.
  intros H Hs%adds_same. eapply taint_iff; [..|eapply taint_seq; [exact H|exact Hs]]; unfold none; tauto.
Qed.

Lemma adds_from_same F N L t0 t t' : same t0 t → adds G F N L t t' → adds G F N L t0 t'.
Proof.
  intros Hs%adds_same H. eapply taint_iff; [..|eapply taint_seq; [exact Hs|exact H]]; unfold none; tauto.
Qed.

Lemma goes_iff F N L F' N' L' t r :
  (∀ s, F s ↔ F' s) → (∀ n, N n ↔ N' n) → (∀ s, L s ↔ L' s) → goes G F N L t r → goes G F' N' L' t r.
Proof. intros ??? (t'&?&?). exists t'. split; [done|]. by eapply taint_iff. Qed.

Lemma does_iff F N L F' N' L' d d' t r :
  (∀ s, F s ↔ F' s) → (∀ n, N n ↔ N' n) → (∀ s, L s ↔ L' s) → d = d' →
  does G F N L d t r → does G F' N' L' d' t r.
Proof. intros ??? -> (t'&?&?). exists t'. split; [done|]. by eapply taint_iff. Qed.

Lemma goes_Some t : goes G none none none t (Some t).
Proof. exists t. split; [done|]. by apply adds_same. Qed.

Lemma goes_bind F N L F' N' L' t r k :
  goes G F N L t r →
  (∀ t', block_stack t' = block_stack t → goes G F' N' L' t' (k t')) →
  goes G (λ s, F s ∨ F' s) (λ n, N n ∨ N' n) (λ s, L s ∨ L' s) t (r ≫= k).
Proof.
  intros (t'&->&Ha) Hk. destruct (Hk t' (adds_stack _ _ _ _ _ _ Ha)) as (t''&E&Ha').
  exists t''. split; [done|]. by eapply taint_seq.
Qed.

Lemma goes_does F N L F' N' L' d t r k :
  goes G F N L t r →
  (∀ t', block_stack t' = block_stack t → does G F' N' L' d t' (k t')) →
  does G (λ s, F s ∨ F' s) (λ n, N n ∨ N' n) (λ s, L s ∨ L' s) d t (r ≫= k).
Proof.
  intros (t'&->&Ha) Hk. destruct (Hk t' (adds_stack _ _ _ _ _ _ Ha)) as (t''&E&Ha').
  exists t''. split; [done|]. by eapply taint_seq.
Qed.

Lemma does_bind F N L F' N' L' d d' t r k :
  does G F N L d t r →
  (∀ t', block_stack t' = block_stack t → does G F' N' L' d' t' (k (d, t'))) →
  does G (λ s, F s ∨ F' s) (λ n, N n ∨ N' n) (λ s, L s ∨ L' s) d' t (r ≫= k).
Proof.
  intros (t'&->&Ha) Hk. destruct (Hk t' (adds_stack _ _ _ _ _ _ Ha)) as (t''&E&Ha').
  exists t''. split; [done|]. by eapply taint_seq.
Qed.

Lemma does_goes F N L F' N' L' d t r k :
  does G F N L d t r →
  (∀ t', block_stack t' = block_stack t → goes G F' N' L' t' (k (d, t'))) →
  goes G (λ s, F s ∨ F' s) (λ n, N n ∨ N' n) (λ s, L s ∨ L' s) t (r ≫= k).
Proof.
  intros (t'&->&Ha) Hk. destruct (Hk t' (adds_stack _ _ _ _ _ _ Ha)) as (t''&E&Ha').
  exists t''. split; [done|]. by eapply taint_seq.
Qed.

Lemma does_Some d t t' : same t t' → does G none none none d t (Some (d, t')).
Proof. intros Hs. exists t'. split; [done|]. by apply adds_same. Qed.

Lemma goes_each {A} (f : A → Taint → option Taint) (F : A → Span → Prop) (N : A → string → Prop)
    (L : A → Span → Prop) xs stack t :
  (∀ x t, x ∈ xs → block_stack t = stack → goes G (F x) (N x) (L x) t (f x t)) →
  block_stack t = stack →
  goes G (λ s, ∃ x, x ∈ xs ∧ F x s) (λ n, ∃ x, x ∈ xs ∧ N x n) (λ s, ∃ x, x ∈ xs ∧ L x s) t (each f xs t).
Proof.
  revert t. induction xs as [|x xs IH]; intros t Hf Ht; simpl.
  - eapply goes_iff; [..|apply goes_Some]; setoid_rewrite elem_of_nil; unfold none; naive_solver.
  - eapply goes_iff; [..|eapply goes_bind; [apply Hf; [left|done]|]].
    4: { intros t' Ht'. apply IH; [intros; apply Hf; [by right|done]|by rewrite Ht']. }
    all: simpl; setoid_rewrite elem_of_cons; naive_solver.
Qed.

(** A strict slot forces what is delivered to it. *)
Lemma does_force F N L d t r e :
  does G F N L d t r →
  goes G (λ s, F s ∨ d = true ∧ s = expression_span e) N L t (r ≫= force e).
Proof.
  intros (t'&->&[Hf Hn Hl Hs]). simpl. unfold force. simpl. eexists. split; [done|].
  destruct d; (split; [| | |done]); intros; simpl; rewrite ?elem_of_union, ?elem_of_singleton, ?Hf, ?Hn, ?Hl;
    naive_solver.
Qed.
End compose.

(** ** The walk *)

Section walk.
Context `{U : UnicodeCase} (atomic_reassignments top_level : gset Span) (G known : gset string).
Abbreviation visit := (visit atomic_reassignments top_level G known).
Abbreviation strict := (strict atomic_reassignments top_level G known).

Lemma forced_iff e env span :
  forced G e env span ↔ ∃ slot, slot ∈ slots G e env ∧ slot_forces G slot span.
Proof.
  split.
  - destruct 1; eexists; (split; [done|]); [right|left]; auto.
  - intros (slot&Hs&[?|(?&?&->)]); [by eapply forced_inside|by eapply forced_here].
Qed.

Lemma stores_iff e env name :
  stores G top_level e env name ↔ ∃ slot, slot ∈ slots G e env ∧ slot_stores G top_level slot name.
Proof.
  split.
  - destruct 1; eexists; (split; [done|]); [right|left]; eauto.
  - intros (slot&Hs&[?|(v&?&?&?&->)]); [by eapply stores_inside|by eapply stores_here].
Qed.

Lemma launches_iff e block span :
  match e with Expression.Call _ _ _ _ => False | _ => True end →
  launches e block span ↔
  ∃ part, part ∈ parts_of e ∧ launches part match e with Expression.Block _ s => Some s | _ => block end span.
Proof.
  intros He. split.
  - destruct 1; [done|eauto].
  - intros (part&?&?). by eapply launches_inside.
Qed.

Lemma record_waiting_same name forces waits producers t :
  same t (record_waiting_function name forces waits producers t).
Proof. unfold record_waiting_function. repeat case_match; done. Qed.

Lemma record_transitive_same function member_call t : same t (record_transitive_wait known function member_call t).
Proof. unfold record_transitive_wait, push_wait. repeat case_match; done. Qed.

Lemma check_atomic_same v forces waits t : same t (check_atomic_reassignment atomic_reassignments v forces waits t).
Proof. unfold check_atomic_reassignment. repeat case_match; done. Qed.

Lemma taint_same_trans t t' t'' : same t t' → same t' t'' → same t t''.
Proof. unfold same. intros (?&?&?&?) (?&?&?&?). split_and!; congruence. Qed.

Lemma goes_function F N L walk name track t block :
  (∀ t, head (block_stack t) = block → goes G F N L t (walk t)) → head (block_stack t) = block →
  goes G F N L t (analyze_function_body walk name track t).
Proof.
  intros Hw Ht. unfold analyze_function_body.
  destruct (Hw (in_function t (Some name) ∅ track) Ht) as (t'&->&Ha).
  simpl. eexists. split; [done|]. eapply adds_then_same; [|apply record_waiting_same].
  eapply (adds_then_same _ _ _ _ _ t'); [|done]. by eapply (adds_from_same _ _ _ _ _ (in_function t (Some name) ∅ track)).
Qed.

Lemma does_declaration F N L d walk v t :
  does G F N L d t (walk t) → does G F N L d t (analyze_declaration_value atomic_reassignments walk v t).
Proof.
  intros (t'&E&Ha). unfold analyze_declaration_value. rewrite E. simpl. eexists. split; [done|].
  eapply adds_then_same; [exact Ha|apply check_atomic_same].
Qed.

Lemma does_finish_call function arguments member_call waits t block :
  head (block_stack t) = block →
  does G none none
    (λ s, launches_in_background function arguments member_call = true ∧ block = Some s)
    (produces_deferred function arguments member_call) t
    (Some (finish_call known function arguments member_call waits t)).
Proof.
  intros <-. unfold finish_call. eexists. split; [done|].
  set (t1 := if is_server_launch function then _ else t).
  set (t2 := record_transitive_wait known function member_call t1).
  set (t3 := match function with Expression.Identifier name _ => _ | _ => t2 end).
  assert (same t t3) as Hs.
  { eapply (taint_same_trans _ t1); [subst t1; by destruct (is_server_launch function)|].
    eapply (taint_same_trans _ t2); [apply record_transitive_same|].
    subst t3. destruct function; try done. by destruct (produces_deferred _ _ _). }
  eapply adds_from_same; [exact Hs|]. destruct Hs as (_&_&_&<-).
  destruct (block_stack t3) as [|block stack] eqn:Ht; [by split; unfold none; naive_solver|].
  destruct (launches_in_background function arguments member_call); [|by split; unfold none; naive_solver].
  split; simpl; unfold none; intros; rewrite ?elem_of_union, ?elem_of_singleton; naive_solver.
Qed.

(** The walk of an expression answers, and adds what the specification says. *)
Definition visits (e : Expression) : Prop := ∀ env t block, head (block_stack t) = block →
  does G (forced G e env) (stores G top_level e env) (launches e block)
    (delivers G e env) t (visit e env t).

Lemma goes_strict e env t block :
  visits e → head (block_stack t) = block →
  goes G (slot_forces G (strict_slot env e)) (slot_stores G top_level (strict_slot env e))
    (launches e block) t (strict e env t).
Proof.
  intros He Ht. eapply goes_iff; [..|by apply does_force, He]; unfold slot_forces, slot_stores; simpl; naive_solver.
Qed.

Lemma goes_all_strict es env t block :
  (∀ e, e ∈ es → visits e) → head (block_stack t) = block →
  goes G (λ s, ∃ slot, slot ∈ strict_slot env <$> es ∧ slot_forces G slot s)
    (λ n, ∃ slot, slot ∈ strict_slot env <$> es ∧ slot_stores G top_level slot n)
    (λ s, ∃ e, e ∈ es ∧ launches e block s) t (each (λ e, strict e env) es t).
Proof.
  intros Hes Hb. eapply goes_iff; [..|apply (goes_each _ _ (λ e, slot_forces G (strict_slot env e))
    (λ e, slot_stores G top_level (strict_slot env e)) (λ e, launches e block) es (block_stack t))].
  5: done.
  4: { intros e t' He Ht. apply goes_strict; [by apply Hes|by rewrite Ht]. }
  all: simpl; intros; try setoid_rewrite list_elem_of_fmap; naive_solver.
Qed.

Lemma each_app {A} (f : A → Taint → option Taint) xs ys t : each f (xs ++ ys) t = each f xs t ≫= each f ys.
Proof. revert t. induction xs as [|x xs IH]; intros t; simpl; [done|]. destruct (f x t); simpl; auto. Qed.
Lemma each_fmap {A B} (h : A → B) f xs t : each f (h <$> xs) t = each (λ x, f (h x)) xs t.
Proof. revert t. induction xs as [|x xs IH]; intros t; simpl; [done|]. destruct (f (h x) t); [apply IH|done]. Qed.
Lemma each_bind {A B} (h : A → list B) f xs t : each f (xs ≫= h) t = each (λ x, each f (h x)) xs t.
Proof.
  revert t. induction xs as [|x xs IH]; intros t; simpl; [done|]. rewrite each_app.
  destruct (each f (h x) t); [apply IH|done].
Qed.
Lemma each_omap {A B} (h : A → option B) f xs t :
  each f (omap h xs) t = each (λ x t, match h x with Some y => f y t | None => Some t end) xs t.
Proof.
  revert t. induction xs as [|x xs IH]; intros t; simpl; [done|].
  destruct (h x) as [y|]; simpl; [destruct (f y t); [apply IH|done]|apply IH].
Qed.
Lemma each_ext {A} (f g : A → Taint → option Taint) xs t : (∀ x t, f x t = g x t) → each f xs t = each g xs t.
Proof. intros H. revert t. induction xs as [|x xs IH]; intros t; simpl; [done|]. rewrite H. destruct (g x t); [apply IH|done]. Qed.

(** The forms whose parts are all strict and whose value is ready. *)
Definition ready_form (e : Expression) : bool :=
  match e with
  | Expression.Identifier _ _ | Expression.Call _ _ _ _ | Expression.If _ _ _ _ | Expression.Match _ _ _
  | Expression.Block _ _ => false
  | _ => true
  end.

Lemma each_one {A} (f : A → Taint → option Taint) x t : each f [x] t = f x t.
Proof. simpl. by destruct (f x t). Qed.
Lemma each_two {A} (f : A → Taint → option Taint) x y t : each f [x; y] t = f x t ≫= f y.
Proof. simpl. destruct (f x t) as [t'|]; simpl; [by destruct (f y t')|done]. Qed.

Lemma visit_ready_form e env t :
  ready_form e = true →
  visit e env t = each (λ e, strict e env) (parts_of e) t ≫= λ t, Some (false, t).
Proof.
  intros He. destruct e; try done; cbn [parts_of];
    rewrite ?each_fmap, ?each_omap, ?each_bind, ?each_one, ?each_two; try reflexivity.
  - erewrite each_ext; [reflexivity|]. by intros [].
  - transitivity (each (λ entry t, strict entry.1 env t ≫= λ t, strict entry.2 env t) entries t
                  ≫= λ t, Some (false, t)); [reflexivity|].
    f_equal. apply each_ext. intros entry t'. by rewrite each_two.
Qed.

Lemma ready_form_visits e : ready_form e = true → (∀ x, x ∈ parts_of e → visits x) → visits e.
Proof.
  intros He Hparts env t block Hb. rewrite visit_ready_form by done.
  eapply does_iff; [..|eapply goes_does; [by apply goes_all_strict|intros; by apply does_Some]];
    unfold none; simpl; intros.
  - rewrite forced_iff. assert (slots G e env = strict_slot env <$> parts_of e) as -> by (by destruct e). tauto.
  - rewrite stores_iff. assert (slots G e env = strict_slot env <$> parts_of e) as -> by (by destruct e). tauto.
  - rewrite launches_iff by (by destruct e). destruct e; try done; naive_solver.
  - by destruct e.
Qed.

Lemma call_visits function arguments member_call span :
  (∀ x, x ∈ function :: arguments → visits x) → visits (Expression.Call function arguments member_call span).
Proof.
  intros Hparts env t block Hb. cbn [Deferral.visit]. fold (strict function env).
  eapply does_iff; [..|eapply goes_does; [apply goes_strict; [apply Hparts; left|exact Hb]|]].
  5: { intros t' Ht'. eapply goes_does; [apply goes_all_strict; [intros; apply Hparts; by right|by rewrite Ht']|].
       intros t'' Ht''. apply does_finish_call. by rewrite Ht'', Ht'. }
  all: unfold none; intros.
  - rewrite forced_iff. cbn [slots parts_of]. rewrite fmap_cons, exists_cons. tauto.
  - rewrite stores_iff. cbn [slots parts_of]. rewrite fmap_cons, exists_cons. tauto.
  - split.
    + intros [H|[(x&Hx&H)|[H ->]]]; [..|by apply launches_here];
        (eapply launches_inside; [|exact H]); [by left|by right].
    + inversion 1 as [|? ? part ? Hp]; simplify_eq; [auto|]. apply elem_of_cons in Hp as [->|]; eauto.
  - done.
Qed.

Lemma does_lazy e env t block :
  visits e → head (block_stack t) = block →
  does G (slot_forces G (lazy_slot env e)) (slot_stores G top_level (lazy_slot env e))
    (launches e block) (delivers G e env) t (visit e env t).
Proof.
  intros He Ht. eapply does_iff; [..|by apply He]; unfold slot_forces, slot_stores; simpl; naive_solver.
Qed.

Lemma if_visits condition then_ else_ span :
  (∀ x, x ∈ [condition; then_; else_] → visits x) → visits (Expression.If condition then_ else_ span).
Proof.
  intros Hparts env t block Hb. cbn [Deferral.visit]. fold (strict condition env).
  eapply does_iff; [..|eapply goes_does; [apply goes_strict; [apply Hparts; left|exact Hb]|]].
  5: { intros t1 Ht1. eapply does_bind; [apply does_lazy; [apply Hparts; right; left|by rewrite Ht1]|].
       intros t2 Ht2. eapply does_bind; [apply does_lazy; [apply Hparts; right; right; left|by rewrite Ht2, Ht1]|].
       intros t3 _. by apply does_Some. }
  all: unfold none; intros.
  - rewrite forced_iff. cbn [slots]. rewrite !exists_cons, exists_nil. tauto.
  - rewrite stores_iff. cbn [slots]. rewrite !exists_cons, exists_nil. tauto.
  - rewrite (launches_iff (Expression.If _ _ _ _)) by exact I. cbn [parts_of]. rewrite !exists_cons, exists_nil. tauto.
  - done.
Qed.

Definition visit_arms (env : Scope) : list (MatchArm Expression) → bool → Taint → option (bool * Taint) :=
  fix go arms any t :=
    match arms with
    | [] => Some (any, t)
    | arm :: arms => '(deferred, t) ← visit (arm_body arm) env t; go arms (any || deferred) t
    end.

Lemma does_arms arms env any t block :
  (∀ arm, arm ∈ arms → visits (arm_body arm)) → head (block_stack t) = block →
  does G (λ s, ∃ slot, slot ∈ lazy_slot env ∘ arm_body <$> arms ∧ slot_forces G slot s)
    (λ n, ∃ slot, slot ∈ lazy_slot env ∘ arm_body <$> arms ∧ slot_stores G top_level slot n)
    (λ s, ∃ part, part ∈ arm_body <$> arms ∧ launches part block s)
    (any || existsb (λ arm, delivers G (arm_body arm) env) arms) t (visit_arms env arms any t).
Proof.
  revert any t. induction arms as [|arm arms IH]; intros any t Harms Hb; cbn [visit_arms].
  - eapply does_iff; [..|by apply does_Some]; unfold none; simpl; intros; rewrite ?exists_nil; [done..|].
    by destruct any.
  - eapply does_iff; [..|eapply does_bind; [apply does_lazy; [apply Harms; left|exact Hb]|]].
    5: { intros t1 Ht1. apply IH; [intros; apply Harms; by right|by rewrite Ht1]. }
    all: intros; rewrite ?fmap_cons, ?exists_cons; try done. simpl. by rewrite orb_assoc.
Qed.

Lemma match_visits e arms span :
  (∀ x, x ∈ e :: (arm_body <$> arms) → visits x) → visits (Expression.Match e arms span).
Proof.
  intros Hparts env t block Hb.
  change (visit (Expression.Match e arms span) env t) with (strict e env t ≫= visit_arms env arms false).
  eapply does_iff; [..|eapply goes_does; [apply goes_strict; [apply Hparts; left|exact Hb]|]].
  5: { intros t1 Ht1. apply does_arms; [|by rewrite Ht1].
       intros arm Harm. apply Hparts. right. apply list_elem_of_fmap. eauto. }
  all: intros.
  - rewrite forced_iff. cbn [slots]. by rewrite exists_cons.
  - rewrite stores_iff. cbn [slots]. by rewrite exists_cons.
  - rewrite (launches_iff (Expression.Match _ _ _)) by exact I. cbn [parts_of]. by rewrite exists_cons.
  - done.
Qed.
(** ** Blocks *)

Definition body_walk (name : string) (b : Expression) (track : bool) (t : Taint) : option Taint :=
  analyze_function_body (strict b ∅) name track t.

(** A declared value, with the store into a global it may be. *)
Definition bind_value (v : VariableDeclaration Expression) (local : Scope) (t : Taint) : option (bool * Taint) :=
  '(deferred, t) ← analyze_declaration_value atomic_reassignments (visit (variable_value v) local) v t;
  Some (deferred, if deferred && bool_decide (variable_span v ∈ top_level)
                  then mark_global_deferred G t (variable_name v) else t).

Definition visit_statements : list (Statement Expression) → Scope → Taint → option (bool * Taint) :=
  fix go statements local t :=
    match statements with
    | [] => Some (false, t)
    | StatementItem (ItemVariable v) :: rest =>
        '(deferred, t) ← analyze_declaration_value atomic_reassignments (visit (variable_value v) local) v t;
        let t := if deferred && bool_decide (variable_span v ∈ top_level)
                 then mark_global_deferred G t (variable_name v) else t in
        go rest (<[variable_name v := deferred]> local) t
    | StatementItem (ItemFunction f) :: rest =>
        t ← body_walk (function_name f) (function_body f) true t; go rest local t
    | StatementItem (ItemType d) :: rest =>
        t ← each (λ m, body_walk (method_name m) (method_body m) true)
              match type_definition d with DefSum _ _ methods | DefRecord _ methods => methods end t;
        go rest local t
    | StatementItem (ItemTrap _) :: _ => None
    | [StatementExpression e] => visit e local t
    | StatementExpression e :: rest => '(_, t) ← visit e local t; go rest local t
    end.

Definition delivers_statements : list (Statement Expression) → Scope → bool :=
  fix go statements local :=
    match statements with
    | [] => false
    | [StatementExpression e] => delivers G e local
    | StatementItem (ItemVariable v) :: rest =>
        go rest (<[variable_name v := delivers G (variable_value v) local]> local)
    | _ :: rest => go rest local
    end.

Lemma visit_block statements span env t :
  visit (Expression.Block statements span) env t
  = '(deferred, t') ← visit_statements statements env (with_block_stack t (span :: block_stack t));
    Some (deferred, with_block_stack t' (tail (block_stack t'))).
Proof. reflexivity. Qed.

Lemma does_bind_value v local t block :
  visits (variable_value v) → head (block_stack t) = block →
  let slot := mkSlot false (Some v) local (variable_value v) in
  does G (slot_forces G slot) (slot_stores G top_level slot) (launches (variable_value v) block)
    (delivers G (variable_value v) local) t (bind_value v local t).
Proof.
  intros Hv Hb slot. unfold bind_value.
  destruct (does_declaration _ _ _ _ _ v t (Hv local t block Hb)) as (t'&->&[Hf Hn Hl Hs]). simpl.
  eexists. split; [done|]. unfold mark_global_deferred, slot_forces, slot_stores. simpl.
  destruct (delivers G (variable_value v) local); simpl; [|by split; intros; rewrite ?Hf, ?Hn; naive_solver].
  case_bool_decide as Htop; simpl; [|by split; intros; rewrite ?Hf, ?Hn; naive_solver].
  case_bool_decide as HG; (split; [| | |done]); intros; simpl; rewrite ?elem_of_union, ?elem_of_singleton, ?Hf, ?Hn, ?Hl;
    naive_solver.
Qed.

Lemma goes_bodies {A} (name : A → string) (body : A → Expression) (track : A → bool) xs t block :
  (∀ x, x ∈ body <$> xs → visits x) → head (block_stack t) = block →
  goes G (λ s, ∃ slot, slot ∈ strict_slot ∅ <$> (body <$> xs) ∧ slot_forces G slot s)
    (λ n, ∃ slot, slot ∈ strict_slot ∅ <$> (body <$> xs) ∧ slot_stores G top_level slot n)
    (λ s, ∃ e, e ∈ body <$> xs ∧ launches e block s) t (each (λ x, body_walk (name x) (body x) (track x)) xs t).
Proof.
  intros Hxs Hb. eapply goes_iff; [..|apply (goes_each _ _ (λ x, slot_forces G (strict_slot ∅ (body x)))
    (λ x, slot_stores G top_level (strict_slot ∅ (body x))) (λ x, launches (body x) block) xs (block_stack t))].
  5: done.
  4: { intros x t' Hx Ht. apply (goes_function _ _ _ _ _ _ _ block); [|by rewrite Ht].
       intros t'' Ht''. apply goes_strict; [|done]. apply Hxs, list_elem_of_fmap. eauto. }
  all: simpl; intros; repeat setoid_rewrite list_elem_of_fmap; naive_solver.
Qed.
(** The slots of a part of the statements, then of the rest. *)
Abbreviation does_slots ss L := (does G (λ s, ∃ slot, slot ∈ ss ∧ slot_forces G slot s)
  (λ n, ∃ slot, slot ∈ ss ∧ slot_stores G top_level slot n) L).

Lemma does_statements statements local t block :
  (∀ x, x ∈ statements ≫= statement_parts → visits x) →
  (∀ trap, StatementItem (ItemTrap trap) ∉ statements) → head (block_stack t) = block →
  does_slots (statement_slots G statements local)
    (λ s, ∃ part, part ∈ statements ≫= statement_parts ∧ launches part block s)
    (delivers_statements statements local) t (visit_statements statements local t).
Proof.
  revert local t. induction statements as [|statement rest IH]; intros local t Hparts Htrap Hb.
  { eapply does_iff; [..|by apply does_Some]; unfold none; simpl; intros; by rewrite ?exists_nil. }
  assert (∀ x, x ∈ statement_parts statement → visits x) as Hhere
    by (intros; apply Hparts; rewrite bind_cons, elem_of_app; by left).
  specialize (λ local t H, IH local t (λ x Hx, Hparts x (proj2 (elem_of_app _ _ _) (or_intror Hx)))
    (λ trap Hin, Htrap trap (list_elem_of_further _ _ _ Hin)) H).
  destruct statement as [[v|f|d|trap]|e]; cbn [statement_slots].
  - replace (visit_statements _ _ _) with ('(d, t) ← bind_value v local t;
      visit_statements rest (<[variable_name v := d]> local) t)
      by (unfold bind_value; simpl; by destruct (analyze_declaration_value _ _ _ _) as [[]|]).
    eapply does_iff; [..|eapply does_bind; [apply does_bind_value; [apply Hhere; left|exact Hb]|]].
    5: { intros t1 Ht1. apply IH. by rewrite Ht1. }
    all: intros; rewrite ?bind_cons, ?exists_app, ?exists_cons; try done. cbn [statement_parts].
    by rewrite exists_cons, exists_nil, (right_id False or).
  - change (visit_statements _ _ _) with (body_walk (function_name f) (function_body f) true t ≫= visit_statements rest local).
    rewrite <- (each_one (λ f, body_walk (function_name f) (function_body f) true)).
    eapply does_iff; [..|eapply goes_does; [apply (goes_bodies _ _ (λ _, true)); [by apply Hhere|exact Hb]|]].
    5: { intros t1 Ht1. apply IH. by rewrite Ht1. }
    all: intros; rewrite ?bind_cons, ?exists_app; try done.
  - change (visit_statements _ _ _) with
      (each (λ m, body_walk (method_name m) (method_body m) true) (methods (type_definition d)) t
       ≫= visit_statements rest local).
    eapply does_iff; [..|eapply goes_does; [apply (goes_bodies _ _ (λ _, true)); [by apply Hhere|exact Hb]|]].
    5: { intros t1 Ht1. apply IH. by rewrite Ht1. }
    all: intros; rewrite ?bind_cons, ?exists_app; try done.
  - destruct (Htrap trap). left.
  - destruct rest as [|next rest].
    + eapply does_iff; [..|apply does_lazy; [apply Hhere; left|exact Hb]]; intros; cbn [statement_slots];
        rewrite ?exists_cons, ?exists_nil, ?(right_id False or); try done.
      cbn [mbind list_bind statement_parts app]. by rewrite exists_cons, exists_nil, (right_id False or).
    + change (visit_statements _ _ _) with ('(_, t) ← visit e local t; visit_statements (next :: rest) local t).
      eapply does_iff; [..|eapply does_bind; [apply does_lazy; [apply Hhere; left|exact Hb]|]].
      5: { intros t1 Ht1. apply IH. by rewrite Ht1. }
      all: intros; rewrite ?(bind_cons _ (StatementExpression e)), ?exists_app, ?exists_cons; try done. cbn [statement_parts].
      by rewrite exists_cons, exists_nil, (right_id False or).
Qed.
Lemma block_visits statements span :
  (∀ x, x ∈ statements ≫= statement_parts → visits x) →
  (∀ trap, StatementItem (ItemTrap trap) ∉ statements) → visits (Expression.Block statements span).
Proof.
  intros Hparts Htrap env t block Hb. rewrite visit_block.
  destruct (does_statements statements env (with_block_stack t (span :: block_stack t)) (Some span)
    Hparts Htrap eq_refl) as (t'&->&Ha). simpl.
  eexists. split; [done|]. destruct Ha as [Hf Hn Hl Hs]. split; simpl in *; [..|by rewrite Hs];
    intros; rewrite ?Hf, ?Hn, ?Hl, ?forced_iff, ?stores_iff; [done..|].
  by rewrite (launches_iff (Expression.Block _ _)) by exact I.
Qed.

Lemma visits_ok f e : ok f e = true → visits e.
Proof.
  induction e as [e IH] using Expression_parts_ind. intros Hok. rewrite Forall_forall in IH.
  assert (∀ x, x ∈ parts_of e → visits x) as Hparts by (intros x Hx; apply IH; [done|by eapply ok_parts]).
  destruct e as [| | | | |name span| | |function arguments member_call span| |statements span
    |condition then_ else_ span|scrutinee arms span| | | | | | | | | | |];
    try (by apply ready_form_visits).
  - intros env t block _. eapply does_iff; [..|by apply does_Some]; unfold none; intros; [..|done].
    + rewrite forced_iff. cbn [slots parts_of]. by rewrite exists_nil.
    + rewrite stores_iff. cbn [slots parts_of]. by rewrite exists_nil.
    + rewrite (launches_iff (Expression.Identifier _ _)) by exact I. cbn [parts_of]. by rewrite exists_nil.
  - by apply call_visits.
  - apply block_visits; [done|]. intros trap Hin. unfold ok, expression_checked in Hok. simpl in Hok.
    apply andb_true_iff in Hok as [Hok _].
    by apply (forallb_elem (statement_ok (ok f) f) _ _ Hok) in Hin.
  - by apply if_visits.
  - by apply match_visits.
Qed.

(** ** A round *)

Lemma item_body_ok f item body : ok f item = true → body ∈ item_expressions item → visits body.
Proof. intros. by eapply visits_ok, item_bodies_ok. Qed.

Lemma goes_item f item t :
  ok f item = true → block_stack t = [] →
  goes G (item_forces G item) (item_stores G top_level item) (item_launches item) t
    (analyze_item atomic_reassignments top_level G known item t).
Proof.
  intros Hok Hb. pose proof (λ body, item_body_ok f item body Hok) as Hv.
  assert (head (block_stack t) = None) as Hh by (by rewrite Hb).
  assert (∀ G', item_stores G' top_level item = λ name, (∃ slot, slot ∈ item_slots item ∧ slot_stores G' top_level slot name)
    ∨ ∃ v, item = ItemVariable v ∧ mutable v = true ∧ delivers G' (variable_value v) ∅ = true ∧ name = variable_name v)
    as -> by done.
  destruct item as [v|d|d|trap]; cbn [analyze_item item_slots item_expressions] in *.
  - destruct (does_declaration _ _ _ _ _ v t (Hv (variable_value v) ltac:(left) ∅ t None Hh))
      as (t'&->&[Hf Hn Hl Hs]). simpl.
    eexists. split; [done|]. unfold item_forces, item_launches, mark_global_deferred. cbn [item_slots item_expressions].
    set (slot := mkSlot (negb (mutable v)) None ∅ (variable_value v)).
    eapply (taint_iff _ (slot_forces G slot)
      (λ n, slot_stores G top_level slot n ∨ mutable v = true ∧ delivers G (variable_value v) ∅ = true ∧ n = variable_name v)
      (launches (variable_value v) None)); intros; rewrite ?exists_cons, ?exists_nil; [naive_solver..|].
    unfold slot_forces, slot_stores. simpl.
    destruct (delivers G (variable_value v) ∅) eqn:Hd; [|by split; intros; rewrite ?Hf, ?Hn, ?Hl; naive_solver].
    destruct (mutable v) eqn:Hm; simpl; [case_bool_decide as HG|]; (split; [| | |done]); intros; simpl;
      rewrite ?elem_of_union, ?elem_of_singleton, ?Hf, ?Hn, ?Hl; naive_solver.
  - change (analyze_function_body _ _ _ t)
      with ((λ d, body_walk (function_name d) (function_body d) (negb (is_inert_corelib_placeholder d))) d t).
    rewrite <- each_one.
    eapply goes_iff; [..|apply goes_bodies; [exact Hv|exact Hh]]; [done| |done]. naive_solver.
  - eapply goes_iff; [..|apply (goes_bodies method_name method_body (λ _, true)); [exact Hv|exact Hh]];
      [done| |done]. naive_solver.
  - rewrite <- (each_fmap arm_body (λ e, strict e ∅)).
    eapply goes_iff; [..|apply goes_all_strict; [exact Hv|exact Hh]]; [done| |done]. naive_solver.
Qed.

Lemma round_adds f p :
  ok f (items p) = true →
  ∃ t, analyze_round atomic_reassignments top_level G known p = Some t ∧
    (∀ s, s ∈ force_sites t ↔ ∃ item, item ∈ items p ∧ item_forces G item s) ∧
    (∀ n, n ∈ newly_deferred_globals t ↔ n ∉ G ∧ ∃ item, item ∈ items p ∧ item_stores G top_level item n) ∧
    (∀ s, s ∈ launch_scopes t ↔ ∃ item, item ∈ items p ∧ item_launches item s).
Proof.
  intros Hok.
  destruct (goes_each G (analyze_item atomic_reassignments top_level G known) (item_forces G)
    (item_stores G top_level) item_launches (items p) [] new_taint) as (t&Et&[Hf Hn Hl _]); [|done|].
  - intros item t Hitem Hb. apply (goes_item f); [|done]. unfold ok, list_checked in Hok. by eapply forallb_elem.
  - exists t. split; [exact Et|]. split_and!; intros; rewrite ?Hf, ?Hn, ?Hl; simpl; set_solver.
Qed.
End walk.

(** ** More globals, more deferred values *)

Section monotone.
Context (G G' : gset string) (HG : G ⊆ G').

(** What is deferred in one scope is in the other. *)
Definition below (env env' : Scope) : Prop := ∀ n, is_deferred G env n = true → is_deferred G' env' n = true.

Lemma below_empty : below ∅ ∅.
Proof. intros n. unfold is_deferred. rewrite !lookup_empty, !bool_decide_eq_true. set_solver. Qed.

Lemma below_insert env env' name (d d' : bool) :
  below env env' → (d = true → d' = true) → below (<[name := d]> env) (<[name := d']> env').
Proof.
  intros He Hd n. specialize (He n). unfold is_deferred in *. destruct (decide (name = n)) as [->|Hn].
  - by rewrite !lookup_insert_eq.
  - by rewrite !lookup_insert_ne.
Qed.

Lemma delivers_mono e env env' : below env env' → delivers G e env = true → delivers G' e env' = true.
Proof.
  revert env env'. induction e as [e IH] using Expression_parts_ind; intros env env' He. rewrite Forall_forall in IH.
  destruct e as [| | | | |name span| | | | |statements span|condition then_ else_ span|scrutinee arms span
    | | | | | | | | | | |]; try done.
  - apply He.
  - change (delivers_statements G statements env = true → delivers_statements G' statements env' = true).
    cbn [parts_of] in IH. revert env env' He. induction statements as [|s rest IHs]; intros env env' He; [done|].
    assert (∀ x, x ∈ statement_parts s → ∀ env env', below env env' → delivers G x env = true → delivers G' x env' = true)
      as Hhere by (intros; eapply IH; [rewrite bind_cons, elem_of_app; left|..]; done).
    specialize (IHs (λ x Hx, IH x (proj2 (elem_of_app _ _ _) (or_intror Hx)))).
    destruct s as [[v|f|d|trap]|e]; cbn [delivers_statements]; try (by apply IHs).
    + apply IHs. apply below_insert; [done|]. apply Hhere; [left|done].
    + destruct rest; [apply Hhere; [left|done]|by apply IHs].
  - cbn [delivers]. rewrite !orb_true_iff. intros [H|H]; [left|right]; (eapply IH; [|exact He|exact H]);
      cbn [parts_of]; set_solver.
  - cbn [delivers]. rewrite !existsb_exists. intros (arm&Ha&H). exists arm. split; [done|].
    eapply IH; [|exact He|exact H]. cbn [parts_of]. right. apply list_elem_of_fmap. exists arm.
    split; [done|]. by apply list_elem_of_In.
Qed.

(** The same slot, with more deferred in scope. *)
Definition slot_below (slot slot' : Slot) : Prop :=
  slot_strict slot = slot_strict slot' ∧ slot_binds slot = slot_binds slot' ∧ slot_value slot = slot_value slot'
  ∧ below (slot_scope slot) (slot_scope slot').

Lemma slots_below_map (k : Scope → Expression → Slot) env env' es :
  (∀ e, slot_below (k env e) (k env' e)) → Forall2 slot_below (k env <$> es) (k env' <$> es).
Proof. intros H. apply Forall2_fmap, Forall_Forall2_diag, Forall_forall. intros; apply H. Qed.

Lemma statement_slots_below statements env env' :
  below env env' → Forall2 slot_below (statement_slots G statements env) (statement_slots G' statements env').
Proof.
  revert env env'. induction statements as [|s rest IH]; intros env env' He; cbn [statement_slots]; [constructor|].
  destruct s as [[v|f|d|trap]|e].
  - constructor; [done|]. apply IH, below_insert; [done|]. by apply delivers_mono.
  - apply Forall2_app; [|by apply IH]. apply slots_below_map. intros. split_and!; [done..|apply below_empty].
  - apply Forall2_app; [|by apply IH]. apply slots_below_map. intros. split_and!; [done..|apply below_empty].
  - by apply IH.
  - constructor; [done|by apply IH].
Qed.

Lemma slots_below e env env' : below env env' → Forall2 slot_below (slots G e env) (slots G' e env').
Proof.
  intros He. destruct e; cbn [slots]; try (by apply slots_below_map); [by apply statement_slots_below|..].
  - by repeat constructor.
  - constructor; [done|]. rewrite !list_fmap_compose. by apply slots_below_map.
Qed.

Lemma stores_mono top_level e env env' name :
  below env env' → stores G top_level e env name → stores G' top_level e env' name.
Proof.
  intros He H. revert env' He. induction H as [e env slot v Hs Hb Ht Hd|e env slot name Hs _ IH]; intros env' He;
    apply list_elem_of_lookup in Hs as (i&Hi);
    destruct (Forall2_lookup_l _ _ _ _ _ (slots_below e env env' He) Hi) as (slot'&Hi'&(E1&E2&E3&Hbelow));
    apply list_elem_of_lookup_2 in Hi'.
  - eapply stores_here; [exact Hi'|congruence|done|]. rewrite <- E3. by eapply delivers_mono.
  - eapply stores_inside; [exact Hi'|]. rewrite <- E3. by apply IH.
Qed.

Lemma item_slots_scope item slot : slot ∈ item_slots item → slot_scope slot = ∅.
Proof.
  destruct item; cbn [item_slots]; [intros ->%list_elem_of_singleton; done|..];
    intros (b&->&_)%list_elem_of_fmap; done.
Qed.

Lemma item_stores_mono top_level item name : item_stores G top_level item name → item_stores G' top_level item name.
Proof.
  intros [(slot&Hs&H)|(v&->&Hm&Hd&->)].
  - left. exists slot. split; [done|]. apply item_slots_scope in Hs. unfold slot_stores in *. rewrite Hs in *.
    destruct H as [H|(v&Hb&Ht&Hd&->)]; [left|right; exists v; split_and!; try done].
    + eapply stores_mono; [apply below_empty|done].
    + eapply delivers_mono; [apply below_empty|done].
  - right. exists v. split_and!; try done. eapply delivers_mono; [apply below_empty|done].
Qed.
End monotone.

(** ** The rounds end *)

Lemma slot_value_part G e env slot : slot ∈ slots G e env → slot_value slot ∈ parts_of e.
Proof.
  assert (∀ (k : Expression → Slot) (es : list Expression), (∀ x, slot_value (k x) = x) → slot ∈ k <$> es → slot_value slot ∈ es) as Hmap.
  { intros k es Hk (x&->&Hx)%list_elem_of_fmap. by rewrite Hk. }
  destruct e as [| | | | | | | | | |statements span| | | | | | | | | | | | |]; cbn [slots]; try (by apply Hmap).
  - cbn [parts_of]. revert env. induction statements as [|s rest IH]; intros env; cbn [statement_slots];
      [intros Hs; by apply elem_of_nil in Hs|]. rewrite bind_cons, (elem_of_app (statement_parts s)).
    intros Hin. destruct s as [[v|f|d|t]|e]; cbn [statement_parts];
      rewrite ?elem_of_cons, ?elem_of_app in Hin; revert Hin.
    + intros [->|Hs]; [left; by left|right; by eapply IH].
    + intros [Hs|Hs]; [left; apply Hmap in Hs; done|right; by eapply IH].
    + intros [Hs|Hs]; [left; apply Hmap in Hs; done|right; by eapply IH].
    + intros [Hs|Hs]; [by apply elem_of_nil in Hs|right; by eapply IH].
    + intros [->|Hs]; [left; by left|right; by eapply IH].
  - cbn [parts_of]. rewrite !elem_of_cons. intros [->|[->|[->|Hs]]]; [tauto..|by apply elem_of_nil in Hs].
  - cbn [parts_of]. rewrite !elem_of_cons, list_fmap_compose. intros [->|Hs]; [by left|].
    right. apply Hmap in Hs; done.
Qed.

Lemma slot_binds_declared G e env slot v :
  slot ∈ slots G e env → slot_binds slot = Some v → variable_name v ∈ declared_at e.
Proof.
  assert (∀ (k : Expression → Slot) (es : list Expression), (∀ x, slot_binds (k x) = None) → slot ∈ k <$> es → slot_binds slot = None) as Hmap.
  { intros k es Hk (x&->&Hx)%list_elem_of_fmap. by rewrite Hk. }
  intros Hs Hv. destruct e as [| | | | | | | | | |statements span| | | | | | | | | | | | |]; cbn [slots] in Hs;
    try (apply Hmap in Hs; [by rewrite Hs in Hv|done]).
  - cbn [declared_at]. revert env Hs. induction statements as [|s rest IH]; intros env; cbn [statement_slots];
      [intros Hs; by apply elem_of_nil in Hs|]. simpl.
    destruct s as [[w|f|d|t]|e]; rewrite ?elem_of_cons, ?elem_of_app.
    + intros [->|Hs]; [simplify_eq/=; by left|right; by eapply IH].
    + intros [Hs|Hs]; [apply Hmap in Hs; [by rewrite Hs in Hv|done]|by eapply IH].
    + intros [Hs|Hs]; [apply Hmap in Hs; [by rewrite Hs in Hv|done]|by eapply IH].
    + intros [Hs|Hs]; [by apply elem_of_nil in Hs|by eapply IH].
    + intros [->|Hs]; [done|by eapply IH].
  - rewrite !elem_of_cons in Hs. destruct Hs as [->|[->|[->|Hs]]]; [done..|by apply elem_of_nil in Hs].
  - rewrite !elem_of_cons, list_fmap_compose in Hs. destruct Hs as [->|Hs]; [done|].
    apply Hmap in Hs; [by rewrite Hs in Hv|done].
Qed.

Lemma stores_declared G top_level e env name : stores G top_level e env name → name ∈ declared_in e.
Proof.
  intros H. unfold declared_in. apply (gather_inside declared_at).
  induction H as [e env slot v Hs Hb _ _|e env slot name Hs _ (x&Hx&Hn)].
  - exists e. split; [apply rtc_refl|]. by eapply slot_binds_declared.
  - exists x. split; [|done]. eapply rtc_l; [by eapply slot_value_part|done].
Qed.

Lemma item_slots_expressions item slot : slot ∈ item_slots item → slot_value slot ∈ item_expressions item.
Proof.
  destruct item; cbn [item_slots]; [intros ->%list_elem_of_singleton; by left|..];
    intros (b&->&?)%list_elem_of_fmap; done.
Qed.

Lemma item_stores_declared G top_level item name : item_stores G top_level item name → name ∈ item_declares item.
Proof.
  unfold item_declares. rewrite elem_of_app. intros [(slot&Hs&[H|(v&Hb&_)])|(v&->&_&_&->)].
  - right. apply list_elem_of_bind. exists (slot_value slot). split; [by eapply stores_declared|by apply item_slots_expressions].
  - destruct item; cbn [item_slots] in Hs; [apply list_elem_of_singleton in Hs as ->; done|..];
      by apply list_elem_of_fmap in Hs as (?&->&?).
  - left. by left.
Qed.

(** The size of the program's set of declared names bounds the rounds. *)
Definition declared_set (p : Program) : gset string := list_to_set (items p ≫= item_declares).

Section rounds.
Context `{U : UnicodeCase} (atomic_reassignments top_level : gset Span) (f : FileId) (p : Program).
Context (Hok : ok f (items p) = true).

(** The last round: nothing is added, and its accumulator is the answer. *)
Definition settled (G : gset string) (r : fueled AtomicReassignmentForced DeferInfo) : Prop :=
  match r with
  | Ok info =>
      (∀ s, s ∈ info_force_sites info ↔ ∃ item, item ∈ items p ∧ item_forces G item s) ∧
      (∀ s, s ∈ info_launch_scopes info ↔ ∃ item, item ∈ items p ∧ item_launches item s)
  | throw _ => True
  | out_of_fuel => False
  end.

Lemma rounds_settle fuel G :
  (size (declared_set p) < fuel + size G)%nat → G ⊆ declared_set p →
  (∀ n, n ∈ G → deferred_global top_level p n) →
  ∃ G', (∀ n, n ∈ G' ↔ deferred_global top_level p n) ∧
    settled G' (analyze_rounds atomic_reassignments top_level fuel p G).
Proof.
  revert G. induction fuel as [|fuel IH]; intros G Hfuel Hsub HG.
  { apply subseteq_size in Hsub. lia. }
  cbn [analyze_rounds].
  destruct (round_adds atomic_reassignments top_level G (known_function_names p) f p Hok) as (t&->&Hf&Hn&Hl).
  case_bool_decide as Hnew.
  - exists G. split.
    + intros n. split; [apply HG|]. induction 1 as [G0 item n HG0 IH0 Hitem Hs].
      destruct (decide (n ∈ G)) as [|Hnot]; [done|]. assert (n ∈ (∅ : gset string)) as []%elem_of_empty.
      rewrite <- Hnew. apply Hn. split; [done|]. exists item. split; [done|].
      eapply item_stores_mono; [|exact Hs]. intros m Hm. by apply IH0.
    + destruct (violation t); simpl; auto.
  - apply IH.
    + assert (size G < size (G ∪ newly_deferred_globals t))%nat; [|lia].
      apply subset_size. apply set_choose_L in Hnew as (n&Hin). apply Hn in Hin as Hin'. set_solver.
    + intros n [?|Hin]%elem_of_union; [auto|]. apply Hn in Hin as (_&item&Hitem&Hs).
      apply elem_of_list_to_set, list_elem_of_bind. exists item. split; [by eapply item_stores_declared|done].
    + intros n [?|Hin]%elem_of_union; [auto|]. apply Hn in Hin as (_&item&Hitem&Hs). by eapply deferred_stored.
Qed.
End rounds.


(** A global stored a deferred value in one function and compared in another. *)
Definition relay_source : list Z := bs
"note := 0
copy := 0
read = () -> $ => < note := @readStdin() >
relay = () -> $ => < copy := note >
main = () -> Num => < copy == 1 ? 0 : 1 >".

Definition block_variables (item : Item Expression) : list (VariableDeclaration Expression) :=
  match item with
  | ItemFunction d =>
      match function_body d with
      | Expression.Block statements _ =>
          omap (λ s, match s with StatementItem (ItemVariable v) => Some v | _ => None end) statements
      | _ => []
      end
  | _ => []
  end.

(** Every [:=] of a function's block, all of them reassignments of globals here. *)
Definition relay_reassignments : gset Span :=
  list_to_set (variable_span <$> (items (parsed relay_source) ≫= block_variables)).

(** The spans an analysis that succeeds forces. *)
Definition forced_spans (r : fueled AtomicReassignmentForced DeferInfo) : option (list Span) :=
  match r with Ok info => Some (elements (info_force_sites info)) | Err _ => None end.


(** ** Deferred values a nested function reaches

    A nested function is analysed in a scope of its own, so what it captures from the
    enclosing body is taken to be ready, and what it stores there is not seen. *)

(** A [Text] literal. *)
Definition quoted (text : string) : string := string_of_bytes [34] +:+ text +:+ string_of_bytes [34].
Definition compared : string := "x == " +:+ quoted "a" +:+ " ? 0 : 1".

Definition nested_source (bound inner outer : string) : Program :=
  parsed (bs ("main = () -> Num => <
 x " +:+ bound +:+ "
 f = () -> Num => < " +:+ inner +:+ " >
 " +:+ outer +:+ " >")).

Definition forces_of (p : Program) : option (list Span) := forced_spans (analyze (U := ascii_case) ∅ ∅ p).

(** The comparison is forced in the body that binds [x]. *)
Example forced_in_its_body :
  let p := nested_source "= @readStdin()" "0" compared in
  length (items p) = 1%nat ∧ length <$> forces_of p = Some 1%nat.
Proof. by vm_compute. Qed.

(** In a nested function that captures [x] the same comparison is not. *)
Example captured_unforced :
  let p := nested_source "= @readStdin()" compared "f()" in
  length (items p) = 1%nat ∧ forces_of p = Some [].
Proof. by vm_compute. Qed.

(** Neither is the comparison of an [x] the nested function has stored a deferred value into. *)
Example stored_unforced :
  let p := nested_source (":= " +:+ quoted "b") "x := @readStdin()
 0" ("f()
 " +:+ compared) in
  length (items p) = 1%nat ∧ forces_of p = Some [].
Proof. by vm_compute. Qed.
