(* ===== verification/Qualify.v ===== *)
(** * Qualified names: [ast/qualify.rs]

    The link-time renaming behind [<<] imports.  Every walk returns the tree it was
    given with its references rewritten, or the first error; [None] is a panic of the
    code.  A frame of locals a walk pushes is popped before it returns, so only the
    walks that declare into the current frame return the locals. *)

From S2P Require Import Prelude Bytes Num Codes Token Ast Lexer.

Record QualifyError : Type := mkQualifyError {
  qualify_code : Code;
  qualify_span : Span;
  qualify_message : string
}.

Definition err {T} (span : Span) (code : Code) (message : string) : fueled QualifyError T :=
  throw (mkQualifyError code span message).

(** A name in backquotes. *)
Definition quote (name : string) : string := "`" +:+ name +:+ "`".

(** [str::rsplit_once] on a dot. *)
Definition rsplit_once_dot (name : string) : option (string * string) :=
  match list_find (λ b, b = 46%Z) (reverse (bs name)) with
  | Some (i, _) =>
      let n := (length (bs name) - S i)%nat in
      Some (string_of_bytes (take n (bs name)), string_of_bytes (drop (S n) (bs name)))
  | None => None
  end.

Definition is_dotted (name : string) : bool := bool_decide (46%Z ∈ bs name).

(** The first segment of a dotted name. *)
Definition first_segment (name : string) : string :=
  string_of_bytes (take (default (length (bs name)) (fst <$> list_find (λ b, b = 46%Z) (bs name))) (bs name)).

(** ** What a file imports *)

Record ModuleScope : Type := mkModuleScope {
  aliases : gmap string (list string);
  exports : gmap string (gset string);
  claimed : gmap string string
}.

Definition empty_scope : ModuleScope := mkModuleScope ∅ ∅ ∅.

Definition insert_absent {A} (key : string) (a : A) (m : gmap string A) : gmap string A :=
  match m !! key with Some _ => m | None => <[key := a]> m end.

Definition add_import (scope : ModuleScope) (alias canonical : string) (exported : gset string) (span : Span)
    : fueled QualifyError ModuleScope :=
  aliases' ←
    match aliases scope !! alias with
    | Some existing =>
        if bool_decide (canonical ∈ existing) then Ok (aliases scope)
        else if bool_decide (canonical = alias) || bool_decide (alias ∈ existing) then
          err span ModuleNameCollision
            ("two imported modules are both named " +:+ quote alias
             +:+ ", and a module imported by file path has no longer name to fall back on; "
             +:+ "rename the file or drop one of the imports")
        else Ok (<[alias := existing ++ [canonical]]> (aliases scope))
    | None => Ok (<[alias := [canonical]]> (aliases scope))
    end;
  let claims := insert_absent alias canonical (claimed scope) in
  let first := first_segment canonical in
  Ok (mkModuleScope aliases' (insert_absent canonical exported (exports scope))
        (if bool_decide (first ≠ canonical) then insert_absent first canonical claims else claims)).

(** [expect] fails on a name with no dot. *)
Definition resolve_dotted (scope : ModuleScope) (name : string) (span : Span) : fueled QualifyError string :=
  match rsplit_once_dot name with
  | None => out_of_fuel
  | Some (prefix, member) =>
      canonical ←
        match aliases scope !! prefix with
        | Some [only] => Ok only
        | Some many =>
            err span AmbiguousModulePrefix
              (quote prefix +:+ " is ambiguous — more than one imported module binds it; write the full path: "
               +:+ String.concat " or " ((λ c, quote (c +:+ "." +:+ member)) <$> many))
        | None =>
            if bool_decide (is_Some (exports scope !! prefix)) then Ok prefix
            else err span NotAnImportedModule (quote prefix +:+ " is not an imported module")
        end;
      if match exports scope !! canonical with Some names => bool_decide (member ∈ names) | None => false end
      then Ok (canonical +:+ "." +:+ member)
      else err span NotExported (quote member +:+ " is not exported by " +:+ quote canonical)
  end.

Definition claimed_by (scope : ModuleScope) (name : string) : option string := claimed scope !! name.

Definition claim_message (name spelling : string) : string :=
  quote name +:+ " is claimed by the import of " +:+ quote spelling
  +:+ " — a binding may not reuse an imported module's name".

Definition check_claim (scope : ModuleScope) (item : Item Expression) : fueled QualifyError unit :=
  match claimed_by scope (item_name item) with
  | Some spelling => err (item_span item) NameClaimedByImport (claim_message (item_name item) spelling)
  | None => Ok tt
  end.

(** ** The rewrite *)

(** The frames of bound names, innermost first. *)
Abbreviation Locals := (list (gset string)).

Definition try_map {A B} (f : A → fueled QualifyError B) : list A → fueled QualifyError (list B) :=
  fix go xs := match xs with [] => Ok [] | x :: xs => y ← f x; ys ← go xs; Ok (y :: ys) end.

Definition try_option {A B} (f : A → fueled QualifyError B) (o : option A) : fueled QualifyError (option B) :=
  match o with Some a => b ← f a; Ok (Some b) | None => Ok None end.

(** A walk over a list that declares as it goes. *)
Definition try_scan {A B} (f : A → Locals → fueled QualifyError (B * Locals))
    : list A → Locals → fueled QualifyError (list B * Locals) :=
  fix go xs locals :=
    match xs with
    | [] => Ok ([], locals)
    | x :: xs => '(y, locals) ← f x locals; '(ys, locals) ← go xs locals; Ok (y :: ys, locals)
    end.

Section walker.
Variable renames : gmap string string.
Variable scope : ModuleScope.

Definition bound_locally (locals : Locals) (name : string) : bool :=
  existsb (λ frame, bool_decide (name ∈ frame)) locals.

Definition declare (name : string) (span : Span) (locals : Locals) : fueled QualifyError Locals :=
  match claimed_by scope name with
  | Some spelling => err span NameClaimedByImport (claim_message name spelling)
  | None => Ok match locals with frame :: rest => ({[name]} ∪ frame) :: rest | [] => [] end
  end.

Definition reference (locals : Locals) (name : string) (span : Span) : fueled QualifyError string :=
  if is_dotted name then resolve_dotted scope name span
  else if bound_locally locals name then Ok name
  else
    match renames !! name with
    | Some renamed => Ok renamed
    | None =>
        match claimed_by scope name with
        | Some spelling =>
            err span ModuleIsNotAValue
              (quote name +:+ " names the imported module " +:+ quote spelling
               +:+ ", not a value — reach its exports as " +:+ quote (name +:+ ".<name>"))
        | None => Ok name
        end
    end.

Definition type_reference (name : string) (span : Span) : fueled QualifyError string :=
  if is_dotted name then resolve_dotted scope name span else Ok (default name (renames !! name)).

Fixpoint type_ (ty : Ty) (span : Span) : fueled QualifyError Ty :=
  match ty with
  | Ty.Num | Ty.Text | Ty.Bool | Ty.Unit | Ty.Generic _ => Ok ty
  | Ty.Array element => element ← type_ element span; Ok (Ty.Array element)
  | Ty.Set_ element => element ← type_ element span; Ok (Ty.Set_ element)
  | Ty.Map key value => key ← type_ key span; value ← type_ value span; Ok (Ty.Map key value)
  | Ty.Record fields =>
      fields ← try_map (λ field, ty ← type_ field.2 span; Ok (field.1, ty)) fields; Ok (Ty.Record fields)
  | Ty.Named name fields methods => name ← type_reference name span; Ok (Ty.Named name fields methods)
  | Ty.Function parameters return_type =>
      parameters ← try_map (λ p, type_ p span) parameters;
      return_type ← type_ return_type span;
      Ok (Ty.Function parameters return_type)
  | Ty.Sum name variants =>
      variants ← try_map (λ v, fields ← try_map (λ field, type_ field span) (variant_fields v);
                               Ok (mkSumVariant (variant_name v) fields)) variants;
      Ok (Ty.Sum name variants)
  end.

Definition annotation (span : Span) : option Ty → fueled QualifyError (option Ty) := try_option (λ ty, type_ ty span).

Definition parameter (p : Param) (locals : Locals) : fueled QualifyError (Param * Locals) :=
  ty ← annotation (parameter_span p) (type_annotation p);
  locals ← declare (parameter_name p) (parameter_span p) locals;
  Ok (mkParam (parameter_name p) ty (parameter_span p), locals).

Fixpoint pattern (p : Pattern) (locals : Locals) : fueled QualifyError (Pattern * Locals) :=
  match p with
  | Pattern.Identifier name span => locals ← declare name span locals; Ok (p, locals)
  | Pattern.Number _ _ | Pattern.Text _ _ | Pattern.Wildcard _ => Ok (p, locals)
  | Pattern.Constructor name arguments span =>
      name ← type_reference name span;
      '(arguments, locals) ← try_scan pattern arguments locals;
      Ok (Pattern.Constructor name arguments span, locals)
  end.

Section declarations.
Variable expression : Expression → Locals → fueled QualifyError Expression.

Definition match_arm (arm : MatchArm Expression) (locals : Locals) : fueled QualifyError (MatchArm Expression) :=
  '(p, inner) ← pattern (arm_pattern arm) (∅ :: locals);
  body ← expression (arm_body arm) inner;
  Ok (mkMatchArm p body (arm_span arm)).

Definition function_declaration_body (d : FunctionDeclaration Expression) (locals : Locals)
    : fueled QualifyError (FunctionDeclaration Expression) :=
  '(params, inner) ← try_scan parameter (parameters d) (∅ :: locals);
  ret ← annotation (function_span d) (return_type d);
  binding ← annotation (function_span d) (binding_type d);
  body ← expression (function_body d) inner;
  Ok (mkFunctionDeclaration (function_name d) params ret binding body (function_exported d) (from_corelib d)
        (function_span d)).

Definition method (m : MethodDeclaration Expression) (locals : Locals)
    : fueled QualifyError (MethodDeclaration Expression) :=
  '(params, inner) ← try_scan parameter (method_parameters m) ({[RECEIVER]} :: locals);
  ret ← annotation (method_span m) (method_return_type m);
  body ← expression (method_body m) inner;
  Ok (mkMethodDeclaration (method_name m) params ret body (mutating m) (method_span m)).

Definition variable_value_of (d : VariableDeclaration Expression) (locals : Locals)
    : fueled QualifyError (VariableDeclaration Expression) :=
  ty ← annotation (variable_span d) (variable_annotation d);
  value ← expression (variable_value d) locals;
  Ok (mkVariableDeclaration (mutable d) (variable_name d) ty value (variable_exported d) (atomic d) (variable_span d)).

Definition type_declaration (d : TypeDeclaration Expression) (locals : Locals)
    : fueled QualifyError (TypeDeclaration Expression) :=
  let span := type_span d in
  definition ←
    match type_definition d with
    | DefSum variants field_spans methods =>
        variants ← try_map (λ v, fields ← try_map (λ field, type_ field span) (variant_fields v);
                                 Ok (mkSumVariant (variant_name v) fields)) variants;
        methods ← try_map (λ m, method m locals) methods;
        Ok (DefSum variants field_spans methods)
    | DefRecord fields methods =>
        fields ← try_map (λ field, ty ← type_ field.2 span; Ok (field.1, ty)) fields;
        methods ← try_map (λ m, method m locals) methods;
        Ok (DefRecord fields methods)
    end;
  Ok (mkTypeDeclaration (type_name d) definition (type_exported d) span).

(** A statement may declare into the block's frame. *)
Definition statement (s : Statement Expression) (locals : Locals)
    : fueled QualifyError (Statement Expression * Locals) :=
  match s with
  | StatementExpression e => e ← expression e locals; Ok (StatementExpression e, locals)
  | StatementItem (ItemVariable d) =>
      d ← variable_value_of d locals;
      match (if mutable d && negb (bound_locally locals (variable_name d))
             then renames !! variable_name d else None) with
      | Some renamed =>
          Ok (StatementItem (ItemVariable (mkVariableDeclaration (mutable d) renamed (variable_annotation d)
                (variable_value d) (variable_exported d) (atomic d) (variable_span d))), locals)
      | None =>
          locals ← declare (variable_name d) (variable_span d) locals;
          Ok (StatementItem (ItemVariable d), locals)
      end
  | StatementItem (ItemFunction d) =>
      locals ← declare (function_name d) (function_span d) locals;
      d ← function_declaration_body d locals;
      Ok (StatementItem (ItemFunction d), locals)
  | StatementItem (ItemType d) => d ← type_declaration d locals; Ok (StatementItem (ItemType d), locals)
  | StatementItem (ItemTrap _) => out_of_fuel
  end.
End declarations.

Fixpoint expression (e : Expression) (locals : Locals) : fueled QualifyError Expression :=
  let walk e := expression e locals in
  match e with
  | Expression.Number _ _ | Expression.String _ _ | Expression.Bool _ _ | Expression.Unit _ => Ok e
  | Expression.Identifier name span => name ← reference locals name span; Ok (Expression.Identifier name span)
  | Expression.Interpolation parts span =>
      parts ← try_map (λ part, match part with
                               | PartLiteral text => Ok (PartLiteral text)
                               | PartHole hole => hole ← walk hole; Ok (PartHole hole)
                               end) parts;
      Ok (Expression.Interpolation parts span)
  | Expression.Call function arguments member_call span =>
      function ← (if member_call then Ok function else walk function);
      arguments ← try_map walk arguments;
      Ok (Expression.Call function arguments member_call span)
  | Expression.BinaryOperator l operator r span =>
      l ← walk l; r ← walk r; Ok (Expression.BinaryOperator l operator r span)
  | Expression.UnaryOperator operator e span => e ← walk e; Ok (Expression.UnaryOperator operator e span)
  | Expression.Lambda parameters return_type body span =>
      '(parameters, inner) ← try_scan parameter parameters (∅ :: locals);
      return_type ← annotation span return_type;
      body ← expression body inner;
      Ok (Expression.Lambda parameters return_type body span)
  | Expression.Block statements span =>
      '(statements, _) ← try_scan (statement expression) statements (∅ :: locals);
      Ok (Expression.Block statements span)
  | Expression.If condition then_ else_ span =>
      condition ← walk condition; then_ ← walk then_; else_ ← walk else_;
      Ok (Expression.If condition then_ else_ span)
  | Expression.Match scrutinee arms span =>
      scrutinee ← walk scrutinee;
      arms ← try_map (λ arm, match_arm expression arm locals) arms;
      Ok (Expression.Match scrutinee arms span)
  | Expression.FieldAccess e field span => e ← walk e; Ok (Expression.FieldAccess e field span)
  | Expression.FieldAssign target value span =>
      target ← walk target; value ← walk value; Ok (Expression.FieldAssign target value span)
  | Expression.IndexAssign target value span =>
      target ← walk target; value ← walk value; Ok (Expression.IndexAssign target value span)
  | Expression.Index e index span => e ← walk e; index ← walk index; Ok (Expression.Index e index span)
  | Expression.Array elements span => elements ← try_map walk elements; Ok (Expression.Array elements span)
  | Expression.SetLiteral elements span => elements ← try_map walk elements; Ok (Expression.SetLiteral elements span)
  | Expression.MapLiteral entries span =>
      entries ← try_map (λ entry, key ← walk entry.1; value ← walk entry.2; Ok (key, value)) entries;
      Ok (Expression.MapLiteral entries span)
  | Expression.Record fields span =>
      fields ← try_map (λ field, value ← walk field.2; Ok (field.1, value)) fields;
      Ok (Expression.Record fields span)
  | Expression.Constructor type_name fields span =>
      type_name ← type_reference type_name span;
      fields ← try_map (λ field, value ← walk field.2; Ok (field.1, value)) fields;
      Ok (Expression.Constructor type_name fields span)
  | Expression.Range start end_ span =>
      start ← walk start; end_ ← walk end_; Ok (Expression.Range start end_ span)
  | Expression.Spread e span => e ← walk e; Ok (Expression.Spread e span)
  end.

(** [Walker::item], at the top level. *)
Definition item (i : Item Expression) (locals : Locals) : fueled QualifyError (Item Expression) :=
  match i with
  | ItemVariable d => d ← variable_value_of expression d locals; Ok (ItemVariable d)
  | ItemFunction d => d ← function_declaration_body expression d locals; Ok (ItemFunction d)
  | ItemType d => d ← type_declaration expression d locals; Ok (ItemType d)
  | ItemTrap trap =>
      arms ← try_map (λ arm, match_arm expression arm locals) (arms trap);
      Ok (ItemTrap (mkTrapDeclaration arms (trap_span trap)))
  end.
End walker.

(** ** Modules and programs *)

Definition sum_variants (i : Item Expression) : list SumVariant :=
  match i with
  | ItemType d => match type_definition d with DefSum variants _ _ => variants | DefRecord _ _ => [] end
  | _ => []
  end.

(** The names an item brings to its module's top level. *)
Definition top_names (i : Item Expression) : list string := item_name i :: (variant_name <$> sum_variants i).

Definition module_renames (fqdn : string) (items : list (Item Expression)) : gmap string string :=
  foldl (λ renames name, <[name := fqdn +:+ "." +:+ name]> renames) ∅ (items ≫= top_names).

Definition rename_variant (renames : gmap string string) (v : SumVariant) : SumVariant :=
  mkSumVariant (default (variant_name v) (renames !! variant_name v)) (variant_fields v).

(** The item under its qualified name, and its variants under theirs. *)
Definition rename_item (renames : gmap string string) (i : Item Expression) : Item Expression :=
  let renamed name := default name (renames !! name) in
  match i with
  | ItemVariable d =>
      ItemVariable (mkVariableDeclaration (mutable d) (renamed (variable_name d)) (variable_annotation d)
        (variable_value d) (variable_exported d) (atomic d) (variable_span d))
  | ItemFunction d =>
      ItemFunction (mkFunctionDeclaration (renamed (function_name d)) (parameters d) (return_type d)
        (binding_type d) (function_body d) (function_exported d) (from_corelib d) (function_span d))
  | ItemType d =>
      ItemType (mkTypeDeclaration (renamed (type_name d))
        match type_definition d with
        | DefSum variants field_spans methods => DefSum (rename_variant renames <$> variants) field_spans methods
        | definition => definition
        end (type_exported d) (type_span d))
  | ItemTrap _ => i
  end.

Definition with_items (p : Program) (items : list (Item Expression)) : Program :=
  mkProgram (imports p) items (test_blocks p) (type_name_uses p) (variant_declarations p).

Definition qualify_module (program : Program) (fqdn : string) (scope : ModuleScope)
    : fueled QualifyError Program :=
  let renames := module_renames fqdn (items program) in
  renamed ← try_map (λ i, _ ← check_claim scope i; Ok (rename_item renames i)) (items program);
  walked ← try_map (λ i, item renames scope i []) renamed;
  Ok (with_items program walked).

Definition resolve_program (program : Program) (scope : ModuleScope) : fueled QualifyError Program :=
  walked ← try_map (λ i, _ ← check_claim scope i; item ∅ scope i []) (items program);
  blocks ← try_map (λ block, expression ∅ scope block []) (test_blocks program);
  Ok (mkProgram (imports program) walked blocks (type_name_uses program) (variant_declarations program)).
