(* ===== verification/QualifyProps.v ===== *)
(** * What qualification does to a program's references

    The value references of an expression that no binder of it or around it binds, in
    order; qualification resolves each of them and touches nothing else, so no binder
    captures a renamed name and no bound name is renamed. *)

From S2P Require Import Prelude Bytes Num Codes Token Ast Lexer ParserState Grammar ParserLogic ItemProps TypeMatch TypeErrors Env Checker Walk ResultPins Program CheckerProps Qualify.

(** ** Free references *)

Section references.
(** The top-level names a [:=] in a body may reassign. *)
Variable top : gset string.

Fixpoint free_refs (e : Expression) (L : gset string) : list string :=
  match e with
  | Expression.Identifier name _ => if bool_decide (name ∈ L) then [] else [name]
  | Expression.Number _ _ | Expression.String _ _ | Expression.Bool _ _ | Expression.Unit _ => []
  | Expression.Interpolation parts _ =>
      parts ≫= λ part, match part with PartHole hole => free_refs hole L | PartLiteral _ => [] end
  | Expression.Call function arguments member_call _ =>
      (if member_call then [] else free_refs function L) ++ (arguments ≫= λ a, free_refs a L)
  | Expression.BinaryOperator a _ b _ | Expression.Range a b _ | Expression.FieldAssign a b _
  | Expression.IndexAssign a b _ | Expression.Index a b _ => free_refs a L ++ free_refs b L
  | Expression.UnaryOperator _ e _ | Expression.FieldAccess e _ _ | Expression.Spread e _ => free_refs e L
  | Expression.Lambda parameters _ body _ => free_refs body (bind_parameters parameters L)
  | Expression.If condition then_ else_ _ => free_refs condition L ++ free_refs then_ L ++ free_refs else_ L
  | Expression.Match scrutinee arms _ =>
      free_refs scrutinee L ++ (arms ≫= λ arm, free_refs (arm_body arm) (bind_pattern (arm_pattern arm) L))
  | Expression.Array elements _ | Expression.SetLiteral elements _ => elements ≫= λ e, free_refs e L
  | Expression.MapLiteral entries _ => entries ≫= λ entry, free_refs entry.1 L ++ free_refs entry.2 L
  | Expression.Record fields _ | Expression.Constructor _ fields _ => fields ≫= λ field, free_refs field.2 L
  | Expression.Block statements _ =>
      (fix go statements L :=
         match statements with
         | [] => []
         | StatementExpression e :: rest => free_refs e L ++ go rest L
         | StatementItem (ItemVariable d) :: rest =>
             free_refs (variable_value d) L ++
             if mutable d && bool_decide (variable_name d ∉ L) && bool_decide (variable_name d ∈ top)
             then variable_name d :: go rest L
             else go rest ({[variable_name d]} ∪ L)
         | StatementItem (ItemFunction d) :: rest =>
             let L := {[function_name d]} ∪ L in
             free_refs (function_body d) (bind_parameters (parameters d) L) ++ go rest L
         | StatementItem (ItemType d) :: rest =>
             (match type_definition d with DefSum _ _ methods | DefRecord _ methods => methods end
              ≫= λ m, free_refs (method_body m) (bind_parameters (method_parameters m) ({[RECEIVER]} ∪ L)))
             ++ go rest L
         | StatementItem (ItemTrap _) :: rest => go rest L
         end) statements L
  end.

Definition free_refs_in : list (Statement Expression) → gset string → list string :=
  fix go statements L :=
    match statements with
    | [] => []
    | StatementExpression e :: rest => free_refs e L ++ go rest L
    | StatementItem (ItemVariable d) :: rest =>
        free_refs (variable_value d) L ++
        if mutable d && bool_decide (variable_name d ∉ L) && bool_decide (variable_name d ∈ top)
        then variable_name d :: go rest L
        else go rest ({[variable_name d]} ∪ L)
    | StatementItem (ItemFunction d) :: rest =>
        let L := {[function_name d]} ∪ L in
        free_refs (function_body d) (bind_parameters (parameters d) L) ++ go rest L
    | StatementItem (ItemType d) :: rest =>
        (match type_definition d with DefSum _ _ methods | DefRecord _ methods => methods end
         ≫= λ m, free_refs (method_body m) (bind_parameters (method_parameters m) ({[RECEIVER]} ∪ L)))
        ++ go rest L
    | StatementItem (ItemTrap _) :: rest => go rest L
    end.

Definition method_refs (L : gset string) (m : MethodDeclaration Expression) : list string :=
  free_refs (method_body m) (bind_parameters (method_parameters m) ({[RECEIVER]} ∪ L)).

Definition item_refs (i : Item Expression) : list string :=
  match i with
  | ItemVariable d => free_refs (variable_value d) ∅
  | ItemFunction d => free_refs (function_body d) (bind_parameters (parameters d) ∅)
  | ItemType d => methods (type_definition d) ≫= method_refs ∅
  | ItemTrap trap => arms trap ≫= λ arm, free_refs (arm_body arm) (bind_pattern (arm_pattern arm) ∅)
  end.
End references.

(** ** Binders are plain names *)

Definition plain_name (name : string) : bool := negb (is_dotted name).

Fixpoint plain_pattern (p : Pattern) : bool :=
  match p with
  | Pattern.Identifier name _ => plain_name name
  | Pattern.Constructor _ arguments _ => forallb plain_pattern arguments
  | _ => true
  end.
Definition plain_parameters (ps : list Param) : bool := forallb (λ p, plain_name (parameter_name p)) ps.

(** A written identifier holds no dot: what a node binds is plain. *)
Definition plain_statement (s : Statement Expression) : bool :=
  match s with
  | StatementItem (ItemVariable d) => plain_name (variable_name d)
  | StatementItem (ItemFunction d) => plain_name (function_name d) && plain_parameters (parameters d)
  | StatementItem (ItemType d) => forallb (λ m, plain_parameters (method_parameters m)) (methods (type_definition d))
  | _ => true
  end.
Definition plain_at (e : Expression) : bool :=
  match e with
  | Expression.Lambda parameters _ _ _ => plain_parameters parameters
  | Expression.Match _ arms _ => forallb (λ arm, plain_pattern (arm_pattern arm)) arms
  | Expression.Block statements _ => forallb plain_statement statements
  | _ => true
  end.
Definition plain (e : Expression) : Prop := ∀ x, inside x e → plain_at x = true.

(** What an item binds at its own level, and in its bodies. *)
Definition plain_item (i : Item Expression) : Prop :=
  match i with
  | ItemVariable _ => true
  | ItemFunction d => plain_parameters (parameters d)
  | ItemType d => forallb (λ m, plain_parameters (method_parameters m)) (methods (type_definition d))
  | ItemTrap trap => forallb (λ arm, plain_pattern (arm_pattern arm)) (arms trap)
  end = true ∧ Forall plain (item_expressions i).

(** ** What a reference becomes *)

(** The name a free reference resolves to: a dotted one through the imports, a bare one
    by the module's renaming. *)
Definition resolved (renames : gmap string string) (scope : ModuleScope) (name : string) : string :=
  if is_dotted name then
    match resolve_dotted scope name (in_root 0 0) with Ok qualified => qualified | Err _ => name end
  else default name (renames !! name).

(** ** Dots *)

Lemma bs_append a b : bs (a +:+ b) = bs a ++ bs b.
Proof. unfold bs. induction a as [|c a IH]; simpl; [done|]. f_equal. apply IH. Qed.

Lemma dotted_append a b : is_dotted (a +:+ "." +:+ b) = true.
Proof. unfold is_dotted. rewrite bool_decide_eq_true, !bs_append. set_solver. Qed.

Lemma resolve_dotted_dotted scope name span qualified :
  resolve_dotted scope name span = Ok qualified → is_dotted qualified = true.
Proof.
  unfold resolve_dotted. destruct (rsplit_once_dot name) as [[prefix member]|]; [|done].
  intros H. inv_bind. destruct (match exports scope !! x with Some _ => _ | None => _ end); simplify_eq.
  apply dotted_append.
Qed.

(** The span of a reference is in its errors only. *)
Lemma resolve_dotted_span scope name span span' qualified :
  resolve_dotted scope name span = Ok qualified → resolve_dotted scope name span' = Ok qualified.
Proof.
  unfold resolve_dotted. destruct (rsplit_once_dot name) as [[prefix member]|]; [|done].
  intros H. inv_bind. destruct (aliases scope !! prefix) as [[|only [|]]|]; try done.
  - simplify_eq/=. by destruct (match exports scope !! x with Some _ => _ | None => _ end).
  - case_bool_decide; [|done]. simplify_eq/=. by destruct (match exports scope !! x with Some _ => _ | None => _ end).
Qed.

(** ** Lists of walks *)

Lemma try_map_Forall2 {A B} (f : A → fueled QualifyError B) xs ys :
  try_map f xs = Ok ys → Forall2 (λ x y, f x = Ok y) xs ys.
Proof.
  revert ys. induction xs as [|x xs IH]; intros ys H; simpl in H; [simplify_eq; constructor|].
  inv_bind. constructor; auto.
Qed.

Lemma refs_bind {A B} (s : string → string) (g : B → list string) (h : A → list string) xs ys :
  Forall2 (λ x y, g y = s <$> h x) xs ys → ys ≫= g = s <$> (xs ≫= h).
Proof. induction 1 as [|x y xs ys Hxy _ IH]; [done|]. by rewrite !bind_cons, fmap_app, Hxy, IH. Qed.

Lemma try_map_refs {A B} (f : A → fueled QualifyError B) (s : string → string) g h xs ys :
  try_map f xs = Ok ys → (∀ x y, x ∈ xs → f x = Ok y → g y = s <$> h x) → ys ≫= g = s <$> (xs ≫= h).
Proof.
  intros H%try_map_Forall2 Hf. apply refs_bind. induction H as [|x y xs ys Hxy _ IH]; constructor.
  - apply Hf; [left|done].
  - apply IH. intros; apply Hf; [by right|done].
Qed.

(** ** Binders *)

Section walk.
Context (renames : gmap string string) (scope : ModuleScope).
(** Every renaming is to a qualified name. *)
Context (Hrenames : ∀ n n', renames !! n = Some n' → is_dotted n' = true).

(** The names bound in the frames. *)
Definition bound (locals : Locals) : gset string := ⋃ locals.
(** There is a frame to bind in, and what is bound is plain. *)
Definition frames_ok (locals : Locals) : Prop := ∀ n, n ∈ bound locals → plain_name n = true.

Lemma bound_locally_iff locals name : bound_locally locals name = true ↔ name ∈ bound locals.
Proof.
  unfold bound_locally, bound. rewrite existsb_exists, elem_of_union_list.
  setoid_rewrite bool_decide_eq_true. setoid_rewrite list_elem_of_In. naive_solver.
Qed.

Lemma declare_Ok name span frame rest locals' :
  declare scope name span (frame :: rest) = Ok locals' →
  ∃ frame', locals' = frame' :: rest ∧ bound locals' = {[name]} ∪ bound (frame :: rest).
Proof.
  unfold declare. destruct (claimed_by scope name); [done|]. intros [= <-]. eexists. split; [done|].
  unfold bound. simpl. set_solver.
Qed.

Lemma frames_ok_declare name locals locals' :
  plain_name name = true → bound locals' = {[name]} ∪ bound locals → frames_ok locals → frames_ok locals'.
Proof. intros Hn E H n. rewrite E, elem_of_union, elem_of_singleton. intros [->|?]; auto. Qed.

Lemma frames_ok_push frame locals :
  (∀ n, n ∈ frame → plain_name n = true) → frames_ok locals → frames_ok (frame :: locals).
Proof. intros Hf H n. unfold bound. simpl. rewrite elem_of_union. intros [?|?]; auto. Qed.

(** What a walk that binds does: the frames below stay, [bind] says what is bound. *)
Definition binds (locals locals' : Locals) (bind : gset string → gset string) : Prop :=
  bound locals' = bind (bound locals) ∧ locals' ≠ [] ∧ frames_ok locals'.

Lemma parameters_Ok ps ps' locals locals' :
  plain_parameters ps = true → locals ≠ [] → frames_ok locals →
  try_scan (parameter renames scope) ps locals = Ok (ps', locals') →
  binds locals locals' (bind_parameters ps) ∧ ∀ L, bind_parameters ps' L = bind_parameters ps L.
Proof.
  revert ps' locals. induction ps as [|p ps IH]; intros ps' locals Hp Hne Hok H; simpl in H.
  { simplify_eq. done. }
  simpl in Hp. apply andb_true_iff in Hp as [Hn Hp].
  apply result_bind_Ok in H as ([p' l1]&Hp1&H). apply result_bind_Ok in H as ([ps'' l2]&Hs&[= <- <-]).
  apply result_bind_Ok in Hp1 as (ty&_&Hd). apply result_bind_Ok in Hd as (l&Hd&[= <- <-]).
  destruct locals as [|frame rest]; [done|]. apply declare_Ok in Hd as (frame'&->&Hb).
  assert (frames_ok (frame' :: rest)) as Hok' by (eapply frames_ok_declare; [exact Hn|exact Hb|done]).
  destruct (IH ps'' (frame' :: rest) Hp ltac:(done) Hok' Hs) as [(E&?&?) Hps].
  split; [|intros L; cbn [bind_parameters foldl]; apply Hps].
  split; [|done]. rewrite E, Hb. done.
Qed.

Lemma pattern_Ok p p' locals locals' :
  plain_pattern p = true → locals ≠ [] → frames_ok locals → pattern renames scope p locals = Ok (p', locals') →
  binds locals locals' (bind_pattern p) ∧ ∀ L, bind_pattern p' L = bind_pattern p L.
Proof.
  revert p p' locals locals'. fix IH 1. intros p p' locals locals' Hp Hne Hok H.
  destruct p as [name span| | |name arguments span|]; simpl in H; try (by simplify_eq).
  - apply result_bind_Ok in H as (l&Hd&[= <- <-]). destruct locals as [|frame rest]; [done|].
    apply declare_Ok in Hd as (frame'&->&Hb). split; [|done]. split; [exact Hb|]. split; [done|].
    eapply frames_ok_declare; [exact Hp|exact Hb|done].
  - apply result_bind_Ok in H as (name'&_&H). apply result_bind_Ok in H as ([args l]&H&[= <- <-]).
    simpl in Hp. revert args locals Hp Hne Hok H.
    induction arguments as [|a arguments IHa]; intros args locals Hp Hne Hok H; simpl in H; [by simplify_eq|].
    simpl in Hp. apply andb_true_iff in Hp as [Ha Hp].
    apply result_bind_Ok in H as ([a' l1]&H1&H). apply result_bind_Ok in H as ([as' l2]&H2&[= <- <-]).
    destruct (IH _ _ _ _ Ha Hne Hok H1) as [(E1&Hne1&Hok1) Hb1].
    destruct (IHa _ _ Hp Hne1 Hok1 H2) as [(E2&Hne2&Hok2) Hb2].
    split; [|intros L; simpl; rewrite Hb1; apply Hb2].
    split; [|done]. rewrite E2, E1. done.
Qed.

(** ** References *)

(** The top level before and after. *)
Definition before : gset string := dom renames.
Definition after : gset string := list_to_set (map_to_list renames).*2.

Lemma elem_of_after n : n ∈ after ↔ ∃ m, renames !! m = Some n.
Proof.
  unfold after. rewrite elem_of_list_to_set, list_elem_of_fmap. split.
  - intros ([m k]&->&Hm). exists m. by apply elem_of_map_to_list.
  - intros (m&Hm). exists (m, n). split; [done|]. by apply elem_of_map_to_list.
Qed.

Lemma dotted_unbound locals name : frames_ok locals → is_dotted name = true → name ∉ bound locals.
Proof. intros H Hd Hn%H. unfold plain_name in Hn. by rewrite Hd in Hn. Qed.

Lemma reference_refs locals name span name' :
  frames_ok locals → reference renames scope locals name span = Ok name' →
  (if bool_decide (name' ∈ bound locals) then [] else [name'])
  = resolved renames scope <$> (if bool_decide (name ∈ bound locals) then [] else [name]).
Proof.
  intros Hok H. unfold reference, resolved in *. destruct (is_dotted name) eqn:Hd.
  - rewrite (bool_decide_eq_false_2 (name' ∈ _)) by (apply dotted_unbound; [done|by eapply resolve_dotted_dotted]).
    rewrite (bool_decide_eq_false_2 (name ∈ _)) by by apply dotted_unbound.
    simpl. by rewrite Hd, (resolve_dotted_span _ _ _ (in_root 0 0) _ H).
  - destruct (bound_locally locals name) eqn:Hb.
    + simplify_eq. apply bound_locally_iff in Hb. by rewrite bool_decide_eq_true_2.
    + assert (name ∉ bound locals) as Hn by (rewrite <- bound_locally_iff; by rewrite Hb).
      rewrite (bool_decide_eq_false_2 (name ∈ bound locals)) by done. simpl. rewrite Hd.
      destruct (renames !! name) as [renamed|] eqn:Hr; simplify_eq/=.
      * rewrite bool_decide_eq_false_2; [done|]. by eapply dotted_unbound, Hrenames.
      * destruct (claimed_by scope name); simplify_eq. by rewrite bool_decide_eq_false_2.
Qed.

(** An expression's free references are resolved one by one. *)
Definition follows (e : Expression) : Prop := ∀ locals e',
  plain e → frames_ok locals → expression renames scope e locals = Ok e' →
  free_refs after e' (bound locals) = resolved renames scope <$> free_refs before e (bound locals).

Lemma plain_part e x : plain e → x ∈ parts_of e → plain x.
Proof. intros He Hx y Hy. apply He. by eapply rtc_l. Qed.

Lemma bound_push locals : bound (∅ :: locals) = bound locals.
Proof. unfold bound. simpl. set_solver. Qed.

Lemma frames_ok_open locals : frames_ok locals → frames_ok (∅ :: locals).
Proof. intros H. apply frames_ok_push; [set_solver|done]. Qed.

Lemma arm_follows arm arm' locals :
  follows (arm_body arm) → plain (arm_body arm) → plain_pattern (arm_pattern arm) = true → frames_ok locals →
  match_arm renames scope (expression renames scope) arm locals = Ok arm' →
  free_refs after (arm_body arm') (bind_pattern (arm_pattern arm') (bound locals))
  = resolved renames scope <$> free_refs before (arm_body arm) (bind_pattern (arm_pattern arm) (bound locals)).
Proof.
  intros Hb Hpl Hp Hok H. apply result_bind_Ok in H as ([p inner]&H1&H).
  apply result_bind_Ok in H as (body&H2&[= <-]). simpl.
  destruct (pattern_Ok _ _ (∅ :: locals) _ Hp ltac:(done) (frames_ok_open _ Hok) H1) as [(E&_&Hok') Hpat].
  rewrite Hpat. rewrite bound_push in E. rewrite <- E. by apply Hb.
Qed.

Lemma function_follows d d' locals :
  follows (function_body d) → plain (function_body d) → plain_parameters (parameters d) = true → frames_ok locals →
  function_declaration_body renames scope (expression renames scope) d locals = Ok d' →
  function_name d' = function_name d ∧
  free_refs after (function_body d') (bind_parameters (parameters d') (bound locals))
  = resolved renames scope <$> free_refs before (function_body d) (bind_parameters (parameters d) (bound locals)).
Proof.
  intros Hb Hpl Hp Hok H. apply result_bind_Ok in H as ([ps inner]&H1&H). inv_bind. split; [done|].
  destruct (parameters_Ok _ _ (∅ :: locals) _ Hp ltac:(done) (frames_ok_open _ Hok) H1) as [(E&_&Hok') Hps].
  rewrite Hps. rewrite bound_push in E. rewrite <- E. by apply Hb.
Qed.

Lemma method_follows m m' locals :
  follows (method_body m) → plain (method_body m) → plain_parameters (method_parameters m) = true → frames_ok locals →
  method renames scope (expression renames scope) m locals = Ok m' →
  method_refs after (bound locals) m' = resolved renames scope <$> method_refs before (bound locals) m.
Proof.
  intros Hb Hpl Hp Hok H. apply result_bind_Ok in H as ([ps inner]&H1&H). inv_bind. unfold method_refs. simpl.
  assert (frames_ok ({[RECEIVER]} :: locals)) as Hr.
  { apply frames_ok_push; [|done]. intros n ->%elem_of_singleton. by vm_compute. }
  destruct (parameters_Ok _ _ ({[RECEIVER]} :: locals) _ Hp ltac:(done) Hr H1) as [(E&_&Hok') Hps].
  rewrite Hps. unfold bound in E at 2. simpl in E. fold (bound locals) in E. rewrite <- E. by apply Hb.
Qed.
Lemma not_reassigned (d : VariableDeclaration Expression) locals :
  frames_ok locals → plain_name (variable_name d) = true →
  (if mutable d && negb (bound_locally locals (variable_name d)) then renames !! variable_name d else None) = None →
  mutable d && bool_decide (variable_name d ∉ bound locals) && bool_decide (variable_name d ∈ after) = false ∧
  mutable d && bool_decide (variable_name d ∉ bound locals) && bool_decide (variable_name d ∈ before) = false.
Proof.
  intros Hok Hp H. rewrite (bool_decide_eq_false_2 (_ ∈ after)), andb_false_r.
  2: { intros (m&Hm)%elem_of_after. apply Hrenames in Hm. unfold plain_name in Hp. by rewrite Hm in Hp. }
  split; [done|]. destruct (mutable d); simpl in *; [|done].
  destruct (bound_locally locals (variable_name d)) eqn:Hb; simpl in H.
  - apply bound_locally_iff in Hb. by rewrite bool_decide_eq_false_2 by tauto.
  - rewrite (bool_decide_eq_false_2 (_ ∈ before)), andb_false_r; [done|].
    unfold before. rewrite elem_of_dom, H. by intros [].
Qed.

Lemma type_follows d d' locals :
  (∀ x, x ∈ method_body <$> methods (type_definition d) → follows x ∧ plain x) →
  forallb (λ m, plain_parameters (method_parameters m)) (methods (type_definition d)) = true → frames_ok locals →
  type_declaration renames scope (expression renames scope) d locals = Ok d' →
  methods (type_definition d') ≫= method_refs after (bound locals)
  = resolved renames scope <$> (methods (type_definition d) ≫= method_refs before (bound locals)).
Proof.
  intros Hx Hp Hok H. apply result_bind_Ok in H as (definition&H&[= <-]). cbn [type_definition].
  assert (∀ ms ms', methods (type_definition d) = ms →
    try_map (λ m, method renames scope (expression renames scope) m locals) ms = Ok ms' →
    ms' ≫= method_refs after (bound locals) = resolved renames scope <$> (ms ≫= method_refs before (bound locals))) as Hms.
  { intros ms ms' <- Hms. eapply try_map_refs; [exact Hms|]. intros m m' Hm Hmm'. simpl in Hmm'.
    destruct (Hx (method_body m)) as [Hf Hpl]; [apply list_elem_of_fmap; eauto|].
    eapply method_follows; [done..| |done|exact Hmm']. by eapply (forallb_elem _ _ _ Hp). }
  destruct (type_definition d) as [variants spans ms|fields ms]; apply result_bind_Ok in H as (y&_&H);
    apply result_bind_Ok in H as (ms'&H&[= <-]); by apply Hms.
Qed.

Lemma statements_follow statements statements' locals locals' :
  (∀ x, x ∈ statements ≫= statement_parts → follows x ∧ plain x) → forallb plain_statement statements = true →
  locals ≠ [] → frames_ok locals →
  try_scan (statement renames scope (expression renames scope)) statements locals = Ok (statements', locals') →
  free_refs_in after statements' (bound locals) = resolved renames scope <$> free_refs_in before statements (bound locals).
Proof.
  revert statements' locals. induction statements as [|s rest IH]; intros statements' locals Hx Hp Hne Hok H.
  { simpl in H. by simplify_eq. }
  simpl in Hp. apply andb_true_iff in Hp as [Hs Hp].
  apply result_bind_Ok in H as ([s' l1]&Hs'&H). apply result_bind_Ok in H as ([rest' l2]&Hrest&[= <- <-]).
  assert (∀ x, x ∈ statement_parts s → follows x ∧ plain x) as Hhere
    by (intros; apply Hx; rewrite bind_cons, elem_of_app; by left).
  specialize (λ l r, IH r l (λ x H, Hx x (proj2 (elem_of_app _ _ _) (or_intror H))) Hp).
  destruct s as [[d|d|d|trap]|e]; cbn [statement] in Hs'; [..|done|].
  - apply result_bind_Ok in Hs' as (d1&Hd1&Hs'). apply result_bind_Ok in Hd1 as (ty&_&Hd1).
    apply result_bind_Ok in Hd1 as (value&Hv&[= <-]). cbn [mutable variable_name] in Hs'.
    destruct (Hhere (variable_value d) ltac:(left)) as [Hf Hpl]. specialize (Hf _ _ Hpl Hok Hv).
    cbn [plain_statement] in Hs.
    destruct (if mutable d && _ then renames !! variable_name d else None) as [renamed|] eqn:Hr.
    + simplify_eq. destruct (mutable d) eqn:Hm; [|done]. destruct (bound_locally l1 (variable_name d)) eqn:Hb; [done|].
      simpl in Hr. assert (variable_name d ∉ bound l1) as Hn by (rewrite <- bound_locally_iff; by rewrite Hb).
      cbn [free_refs_in variable_value variable_name mutable]. rewrite Hf, Hm, fmap_app.
      rewrite (bool_decide_eq_true_2 (variable_name d ∉ _)) by done.
      rewrite (bool_decide_eq_true_2 (variable_name d ∈ before)) by (apply elem_of_dom; eauto).
      rewrite (bool_decide_eq_true_2 (renamed ∉ _)) by (eapply dotted_unbound; [done|by eapply Hrenames]).
      rewrite (bool_decide_eq_true_2 (renamed ∈ after)) by (apply elem_of_after; eauto).
      f_equal. cbn [andb fmap list_fmap]. f_equal; [|by apply IH].
      unfold resolved. unfold plain_name in Hs. apply negb_true_iff in Hs. by rewrite Hs, Hr.
    + apply result_bind_Ok in Hs' as (l&Hd&[= <- <-]). destruct locals as [|frame below]; [done|].
      apply declare_Ok in Hd as (frame'&->&Hb).
      assert (frames_ok (frame' :: below)) as Hok' by (eapply frames_ok_declare; [exact Hs|exact Hb|done]).
      specialize (IH (frame' :: below) rest' ltac:(done) Hok' Hrest). rewrite Hb in IH.
      cbn [free_refs_in variable_value variable_name mutable]. rewrite Hf, fmap_app. f_equal.
      destruct (not_reassigned d (frame :: below) Hok Hs Hr) as [-> ->]. exact IH.
  - apply andb_true_iff in Hs as [Hname Hps]. apply result_bind_Ok in Hs' as (l&Hd&Hs').
    apply result_bind_Ok in Hs' as (d'&Hd'&[= <- <-]). destruct locals as [|frame below]; [done|].
    apply declare_Ok in Hd as (frame'&->&Hb).
    assert (frames_ok (frame' :: below)) as Hok' by (eapply frames_ok_declare; [exact Hname|exact Hb|done]).
    destruct (Hhere (function_body d) ltac:(left)) as [Hf Hpl].
    destruct (function_follows _ _ _ Hf Hpl Hps Hok' Hd') as [Hn Hbody].
    specialize (IH (frame' :: below) rest' ltac:(done) Hok' Hrest). rewrite Hb in IH, Hbody.
    cbn [free_refs_in]. rewrite Hn, Hbody, fmap_app. f_equal. exact IH.
  - apply result_bind_Ok in Hs' as (d'&Hd'&[= <- <-]). cbn [free_refs_in]. rewrite fmap_app.
    f_equal; [|by apply IH]. apply (type_follows d d'); [exact Hhere|exact Hs|done|exact Hd'].
  - apply result_bind_Ok in Hs' as (e'&He&[= <- <-]). destruct (Hhere e ltac:(left)) as [Hf Hpl].
    cbn [free_refs_in]. rewrite fmap_app, (Hf _ _ Hpl Hok He). f_equal. by apply IH.
Qed.

Lemma fields_follow (fields : list (string * Expression)) locals :
  (∀ x x', x ∈ fields.*2 → expression renames scope x locals = Ok x' →
    free_refs after x' (bound locals) = resolved renames scope <$> free_refs before x (bound locals)) →
  ∀ field y, field ∈ fields →
    (value ← expression renames scope field.2 locals; Ok (field.1, value)) = Ok y →
    free_refs after y.2 (bound locals) = resolved renames scope <$> free_refs before field.2 (bound locals).
Proof.
  intros H field y Hf Hy. apply result_bind_Ok in Hy as (v&Hv&[= <-]). apply H; [|exact Hv].
  apply list_elem_of_fmap. eauto.
Qed.

Lemma expression_follows e : follows e.
Proof.
  induction e as [e IH] using Expression_parts_ind. rewrite Forall_forall in IH. intros locals e' Hpl Hok H.
  assert (∀ x x', x ∈ parts_of e → expression renames scope x locals = Ok x' →
    free_refs after x' (bound locals) = resolved renames scope <$> free_refs before x (bound locals)) as Hpart.
  { intros x x' Hx Hxx'. apply IH; [done|by eapply plain_part|done|done]. }
  assert (plain_at e = true) as Hat by apply Hpl, rtc_refl.
  destruct e as [| |parts span| | |name span| | |function arguments member_call span|parameters ret body span
    |statements span| |scrutinee arms span| | | | |elements span|entries span|elements span|fields span
    |type_name fields span| |]; cbn [expression] in H; cbn [parts_of] in Hpart, IH;
    try (inv_bind; cbn [free_refs]; rewrite ?fmap_app;
         repeat match goal with H : expression _ _ _ _ = Ok _ |- _ =>
           apply Hpart in H; [rewrite H|rewrite !elem_of_cons; tauto] end; reflexivity).
  - apply result_bind_Ok in H as (parts'&H&[= <-]). cbn [free_refs]. eapply try_map_refs; [exact H|].
    intros [text|hole] y Hp Hy; cbn in Hy; [by simplify_eq|]. apply result_bind_Ok in Hy as (hole'&Hh&[= <-]).
    apply Hpart; [|exact Hh]. apply list_elem_of_omap. by exists (PartHole hole).
  - apply result_bind_Ok in H as (name'&H&[= <-]). cbn [free_refs]. by eapply reference_refs.
  - apply result_bind_Ok in H as (function'&Hf&H). apply result_bind_Ok in H as (arguments'&Ha&[= <-]).
    cbn [free_refs]. rewrite fmap_app. f_equal.
    + destruct member_call; [done|]. apply Hpart; [left|exact Hf].
    + eapply try_map_refs; [exact Ha|]. intros x y Hx Hy. apply Hpart; [by right|exact Hy].
  - apply result_bind_Ok in H as ([ps inner]&Hps&H). apply result_bind_Ok in H as (ret'&_&H).
    apply result_bind_Ok in H as (body'&Hb&[= <-]). cbn [free_refs plain_at] in *.
    destruct (parameters_Ok _ _ (∅ :: locals) _ Hat ltac:(done) (frames_ok_open _ Hok) Hps) as [(E&_&Hok') Hbind].
    rewrite Hbind. rewrite bound_push in E. rewrite <- E. apply IH; [left| |done|exact Hb].
    eapply plain_part; [exact Hpl|left].
  - apply result_bind_Ok in H as ([statements' inner]&H&[= <-]).
    change (free_refs_in after statements' (bound locals)
            = resolved renames scope <$> free_refs_in before statements (bound locals)).
    rewrite <- bound_push. eapply statements_follow; [|exact Hat|done|by apply frames_ok_open|exact H].
    intros x Hx. split; [by apply IH|]. by eapply plain_part.
  - apply result_bind_Ok in H as (scrutinee'&Hs&H). apply result_bind_Ok in H as (arms'&Ha&[= <-]).
    cbn [free_refs plain_at] in *. rewrite fmap_app. f_equal; [apply Hpart; [left|exact Hs]|].
    eapply try_map_refs; [exact Ha|]. intros arm arm' Harm Hy.
    assert (arm_body arm ∈ scrutinee :: (arm_body <$> arms)) as Hin by (right; apply list_elem_of_fmap; eauto).
    eapply arm_follows; [by apply IH|by eapply plain_part| |done|exact Hy]. by eapply (forallb_elem _ _ _ Hat).
  - apply result_bind_Ok in H as (ys&H&[= <-]). cbn [free_refs]. eapply try_map_refs; [exact H|]. intros; by apply Hpart.
  - apply result_bind_Ok in H as (ys&H&[= <-]). cbn [free_refs]. eapply try_map_refs; [exact H|].
    intros [k v] y Hx Hy. apply result_bind_Ok in Hy as (k'&Hk&Hy). apply result_bind_Ok in Hy as (v'&Hv&[= <-]).
    cbn [fst snd] in *. rewrite fmap_app. f_equal; (apply Hpart; [|done]);
      apply list_elem_of_bind; exists (k, v); (split; [|done]); [left|right; left].
  - apply result_bind_Ok in H as (ys&H&[= <-]). cbn [free_refs]. eapply try_map_refs; [exact H|]. intros; by apply Hpart.
  - apply result_bind_Ok in H as (ys&H&[= <-]). cbn [free_refs]. eapply try_map_refs; [exact H|]. apply fields_follow, Hpart.
  - apply result_bind_Ok in H as (n&_&H). apply result_bind_Ok in H as (ys&H&[= <-]). cbn [free_refs].
    eapply try_map_refs; [exact H|]. apply fields_follow, Hpart.
Qed.

(** ** Items *)

Lemma item_follows i i' :
  plain_item i → item renames scope i [] = Ok i' →
  item_name i' = item_name i ∧ item_refs after i' = resolved renames scope <$> item_refs before i.
Proof.
  intros [Hat Hpl] H. rewrite Forall_forall in Hpl. assert (frames_ok []) as Hok by (intros n Hn; unfold bound in Hn; simpl in Hn; set_solver).
  destruct i as [d|d|d|trap]; cbn [item item_expressions] in *.
  - apply result_bind_Ok in H as (d'&H&[= <-]). apply result_bind_Ok in H as (ty&_&H).
    apply result_bind_Ok in H as (value&Hv&[= <-]). split; [done|]. cbn [item_refs variable_value].
    apply (expression_follows _ [] _ (Hpl _ ltac:(left)) Hok Hv).
  - apply result_bind_Ok in H as (d'&H&[= <-]).
    apply (function_follows _ _ [] (expression_follows _) (Hpl _ ltac:(left)) Hat Hok H).
  - apply result_bind_Ok in H as (d'&H&[= <-]). split; [by apply result_bind_Ok in H as (?&_&[= <-])|].
    apply (type_follows d d' []); [|done..]. intros x Hx. split; [apply expression_follows|by apply Hpl].
  - apply result_bind_Ok in H as (arms'&H&[= <-]). split; [done|]. cbn [item_refs arms].
    eapply try_map_refs; [exact H|]. intros arm arm' Harm Hy.
    eapply (arm_follows _ _ []); [apply expression_follows| | |done|exact Hy].
    + apply Hpl, list_elem_of_fmap. eauto.
    + by eapply (forallb_elem _ _ _ Hat).
Qed.
End walk.

(** ** Modules *)

Lemma lookup_module_renames fqdn its n :
  module_renames fqdn its !! n = if bool_decide (n ∈ its ≫= top_names) then Some (fqdn +:+ "." +:+ n) else None.
Proof.
  unfold module_renames. assert (∀ names (m : gmap string string),
    foldl (λ renames name, <[name := fqdn +:+ "." +:+ name]> renames) m names !! n
    = if bool_decide (n ∈ names) then Some (fqdn +:+ "." +:+ n) else m !! n) as ->; [|by rewrite lookup_empty].
  induction names as [|x names IH]; intros m; simpl; [done|]. rewrite IH.
  destruct (decide (n ∈ names)) as [Hn|Hn].
  - by rewrite !bool_decide_eq_true_2 by (try apply elem_of_cons; auto).
  - rewrite (bool_decide_eq_false_2 (n ∈ names)) by done. destruct (decide (n = x)) as [->|Hx].
    + by rewrite lookup_insert_eq, bool_decide_eq_true_2 by (left).
    + rewrite lookup_insert_ne by done. by rewrite bool_decide_eq_false_2 by (rewrite elem_of_cons; tauto).
Qed.

Lemma module_renames_dotted fqdn its n n' : module_renames fqdn its !! n = Some n' → is_dotted n' = true.
Proof. rewrite lookup_module_renames. case_bool_decide; [|done]. intros [= <-]. apply dotted_append. Qed.

Lemma rename_item_plain renames i : plain_item i → plain_item (rename_item renames i).
Proof.
  unfold plain_item. destruct i as [d|d|d|d]; try done. cbn [rename_item item_expressions type_definition].
  by destruct (type_definition d).
Qed.

Lemma rename_item_refs top renames i : item_refs top (rename_item renames i) = item_refs top i.
Proof. destruct i as [d|d|d|d]; try done. cbn [rename_item item_refs type_definition]. by destruct (type_definition d). Qed.

(** The name an item of the module is reached by. *)
Definition qualified_name (fqdn : string) (i : Item Expression) : string :=
  match i with ItemTrap _ => item_name i | _ => fqdn +:+ "." +:+ item_name i end.

Lemma rename_item_name fqdn its i :
  i ∈ its → item_name (rename_item (module_renames fqdn its) i) = qualified_name fqdn i.
Proof.
  intros Hi. assert (module_renames fqdn its !! item_name i = Some (fqdn +:+ "." +:+ item_name i)) as E.
  { rewrite lookup_module_renames, bool_decide_eq_true_2; [done|]. apply list_elem_of_bind. exists i.
    split; [left|done]. }
  destruct i as [d|d|d|d]; simpl in *; by rewrite ?E.
Qed.


(** The root program keeps its names; its references resolve through the imports. *)
Lemma resolution_hygienic (p p' : Program) (scope : ModuleScope) :
  Forall plain_item (items p) → resolve_program p scope = Ok p' →
  Forall2 (λ i i', item_name i' = item_name i ∧ item_refs ∅ i' = resolved ∅ scope <$> item_refs ∅ i)
    (items p) (items p').
Proof.
  intros Hplain Hok. apply result_bind_Ok in Hok as (walked&Hw%try_map_Forall2&Hok).
  apply result_bind_Ok in Hok as (blocks&_&[= <-]). cbn [items].
  assert (after ∅ = ∅) as Ha by done. assert (before ∅ = ∅) as Hb by (unfold before; set_solver).
  induction Hw as [|i j its mid Hij _ IH]; constructor.
  - apply Forall_cons in Hplain as [Hi _]. apply result_bind_Ok in Hij as (_&_&Hij).
    pose proof (item_follows ∅ scope ltac:(intros ??; by rewrite lookup_empty) _ _ Hi Hij) as H.
    by rewrite Ha, Hb in H.
  - apply Forall_cons in Hplain as [_ Hrest]. auto.
Qed.

(** ** A module *)

(** Every expression of an expression. *)
Definition all_of (e : Expression) : list Expression :=
  match try_for_each_subexpression (B := Empty_set) (λ e out, Continue (out ++ [e])) e [] with
  | Continue out | Break _ out => out
  end.

Lemma plain_check e : forallb plain_at (all_of e) = true → plain e.
Proof.
  intros H x Hx. apply (forallb_elem _ _ _ H), (gather_inside (λ e, [e])). exists x. split; [done|left].
Qed.

(** A module whose parameter shadows a helper of its own, with a helper's name as a
    method name, a reassigned global and an import. *)
Definition module_source : list Z := bs
"<< core.io
count := 0
helper = (x :: Num) -> Num => < x >
>> use = (n :: Num) -> Num => <
 inner = (helper :: Num) => < helper + n >
 count := count + helper(n.helper(inner(n)))
 io.print(count)
 helper(count) >".

Definition io_scope : ModuleScope :=
  match add_import empty_scope "io" "core.io" {["print"]} (in_root 0 0) with Ok scope => scope | Err _ => empty_scope end.


(** The references of [use] are renamed by scope: its parameter [helper] stays. *)
Example module_references :
  match qualify_module (parsed module_source) "m" io_scope with
  | Ok p' => (λ i, item_refs (after (module_renames "m" (items (parsed module_source)))) i) <$> items p'
  | Err _ => []
  end = [[]; []; ["m.count"; "m.helper"; "m.count"; "core.io.print"; "m.count"; "m.helper"; "m.count"]].
Proof. by vm_compute. Qed.

(** A body's own type of the name of a top-level type: references to it are taken for the
    module's, so a program the checker accepts is refused once it is imported. *)
Definition local_type_source : list Z := bs
"Point = { x :: Num }
use = () -> Num => < Point = { y :: Num } p = Point { y = 1 } p.y >".

Example local_type_lost :
  (match checked 100 local_type_source with Ok _ => true | Err _ => false end) = true ∧
  match qualify_module (parsed local_type_source) "m" empty_scope with
  | Ok p =>
      match check_items 100 (with_overloaded_names new_checker (overload_set_names p)) (items p) with
      | throw _ => True
      | _ => False
      end
  | Err _ => False
  end.
Proof. split; [by vm_compute|]. vm_compute. exact I. Qed.
