(* ===== verification/Modules.v ===== *)
(** * Module loading: [modules.rs] and [source_extension.rs]

    The depth-first load behind [<<] imports: every imported module is lexed, parsed,
    has its own imports loaded, is qualified under its name and appended to the items
    of the program.  The file system, the Unicode classes of [char] and the texts of
    the bundled modules are an interface; paths are the UTF-8 text [std::path] splits
    on [/].  A failing load keeps the sources it read, so the loader is threaded through
    errors too.  [resolve_one] recurses on fuel, a unit per module being loaded. *)

From S2P Require Import Prelude Bytes Num Codes Token Ast Lexer ParserState Grammar SourceMap Walk Qualify.

Class Files : Type := {
  (** [fs::read_to_string], with the text of its error, and [fs::canonicalize]. *)
  read_to_string : string → result string (list Z);
  canonicalize : string → option string;
  (** [char::is_alphanumeric]. *)
  is_alphanumeric : Z → bool;
  (** The bundled texts of [corelib/]. *)
  CORE_IO : list Z; CORE_TEXT : list Z; CORE_TEST : list Z; CORE_CLI : list Z; CORE_TIME : list Z;
  CORE_NET : list Z; CORE_HTTP : list Z; CORE_INFO : list Z; CORE_PROCESS : list Z
}.

(** ** The operations of [std::path] the loader calls *)

Definition SLASH : Z := 47.

Definition is_absolute (path : list Z) : bool :=
  match path with b :: _ => b =? SLASH | [] => false end.

(** [Path::join]. *)
Definition join_path (base path : list Z) : list Z :=
  if is_absolute path then path
  else
    match last base with
    | Some b => if b =? SLASH then base ++ path else base ++ SLASH :: path
    | None => path
    end.

Definition ignored_component (c : list Z) : bool := bool_decide (c = []) || bool_decide (c = [46]).

(** The length of what comes before the components: the root, or a leading [.]. *)
Definition before_body (path : list Z) : nat :=
  match path with
  | b :: rest =>
      if b =? SLASH then 1%nat
      else if (b =? 46) && match rest with [] => true | c :: _ => c =? SLASH end then 1%nat else 0%nat
  | [] => 0%nat
  end.

Fixpoint drop_ignored (components : list (list Z)) : list (list Z) :=
  match components with
  | c :: rest => if ignored_component c then drop_ignored rest else components
  | [] => []
  end.

Fixpoint join_components (components : list (list Z)) : list Z :=
  match components with
  | [] => []
  | [c] => c
  | c :: rest => c ++ SLASH :: join_components rest
  end.

(** [Path::parent]: what is left of the path without its last component. *)
Definition parent (path : list Z) : option (list Z) :=
  let body := before_body path in
  match drop_ignored (reverse (split_on SLASH (drop body path))) with
  | _ :: rest => Some (take body path ++ join_components (reverse (drop_ignored rest)))
  | [] => if is_absolute path then None else if (body =? 1)%nat then Some [] else None
  end.

(** ** Source names *)

Definition EXTENSION : string := ".qn".

Definition require_source (path : string) : result string unit :=
  if bool_decide (bs EXTENSION `suffix_of` bs path) then Ok tt
  else Err (quote path +:+ " is not a Quilon source: sources are named " +:+ quote EXTENSION).

Definition starts_with_digit (s : list Z) : bool := match s with c :: _ => in_range 48 57 c | [] => false end.

(** ** Exports, and the composable Text methods *)

Definition item_is_exported (i : Item Expression) : bool :=
  match i with
  | ItemVariable d => variable_exported d
  | ItemFunction d => function_exported d
  | ItemType d => type_exported d
  | ItemTrap _ => false
  end.

Definition exported_names (items : list (Item Expression)) : gset string :=
  list_to_set (filter (λ i, item_is_exported i = true) items ≫= top_names).

Definition mentions_text_composable (e : Expression) : bool :=
  match try_for_each_subexpression (λ e s,
          match e with
          | Expression.Call (Expression.Identifier name _) _ true _ =>
              if bool_decide (is_Some (qn_text_impl name)) then Break tt s else Continue s
          | _ => Continue s
          end) e tt with
  | Break _ _ => true
  | Continue _ => false
  end.

Definition uses_text_composable_items (items : list (Item Expression)) : bool :=
  existsb (λ i,
    match i with
    | ItemFunction d => mentions_text_composable (function_body d)
    | ItemVariable d => mentions_text_composable (variable_value d)
    | ItemType d => existsb (λ m, mentions_text_composable (method_body m)) (methods (type_definition d))
    | ItemTrap trap => existsb (λ arm, mentions_text_composable (arm_body arm)) (arms trap)
    end) items.

(** A bundled module's functions carry their origin. *)
Definition set_origin (from_corelib : bool) (i : Item Expression) : Item Expression :=
  match i with
  | ItemFunction d =>
      ItemFunction (mkFunctionDeclaration (function_name d) (parameters d) (return_type d) (binding_type d)
        (function_body d) (function_exported d) from_corelib (function_span d))
  | _ => i
  end.

Definition fail {T} (span : Span) (code : Code) (message : string) : fueled QualifyError T :=
  throw (mkQualifyError code span message).

Section files.
Context `{F : Files}.

Definition CORELIB_MODULES : list (string * list Z) :=
  [("core.io", CORE_IO); ("core.text", CORE_TEXT); ("core.test", CORE_TEST); ("core.cli", CORE_CLI);
   ("core.time", CORE_TIME); ("core.net", CORE_NET); ("core.http", CORE_HTTP); ("core.info", CORE_INFO);
   ("core.process", CORE_PROCESS)].

Definition builtin_source (name : string) : option (list Z) :=
  snd <$> find (λ m, bool_decide (m.1 = name)) CORELIB_MODULES.

Definition is_corelib_source (source : list Z) : bool :=
  existsb (λ m, bool_decide (m.2 = source)) CORELIB_MODULES.

Definition canonical_key (path : string) : string := default path (canonicalize path).

Definition module_binding_name (path : ModulePath) (span : Span) : fueled QualifyError string :=
  let stem := default "" (binding_name path) in
  let chars := default [] (from_utf8 (bs stem)) in
  if negb (bool_decide (stem = "")) && negb (starts_with_digit (bs stem))
     && forallb (λ c, is_alphanumeric c || (c =? 95)) chars
  then Ok stem
  else
    fail span ModuleNameCollision
      ("the module file name " +:+ quote stem +:+ " is not usable as a binding — call sites reach the module as "
       +:+ quote (stem +:+ ".<name>") +:+ ", so the stem must be a valid identifier; rename the file").

(** ** Where an import leads *)

(** What the import of a module is resolved to, before the module is loaded. *)
Record Located : Type := mkLocated {
  key : string;
  canonical : string;
  display : string;
  source : list Z;
  next_base : string
}.

Definition locate (injecting_core_text : bool) (import : Import_) (base_dir : string)
    : fueled QualifyError Located :=
  let span := import_span import in
  match Ast.path import with
  | BuiltinDotted parts =>
      let name := String.concat "." parts in
      if bool_decide (name = "core.text") && negb injecting_core_text then
        fail span UnknownModule
          ("`core.text` is the compiler's own and cannot be imported — the Text methods it implements "
           +:+ "need no import at all")
      else
        match builtin_source name with
        | Some src => Ok (mkLocated ("builtin:" +:+ name) name name src base_dir)
        | None => fail span UnknownModule ("unknown built-in module " +:+ quote name)
        end
  | FilePath raw =>
      let p := (λ b, if b =? 92 then SLASH else b) <$> bs raw in
      let full := string_of_bytes (join_path (bs base_dir) p) in
      _ ← match require_source full with Ok _ => Ok tt | Err message => fail span NotAQuilonSource message end;
      stem ← module_binding_name (Ast.path import) span;
      source ←
        match read_to_string full with
        | Ok source => Ok source
        | Err e => fail span UnknownModule ("cannot read module " +:+ quote full +:+ ": " +:+ e)
        end;
      let canonical_full := canonical_key full in
      Ok (mkLocated ("file:" +:+ canonical_full) stem full source
            match parent (bs canonical_full) with Some p => string_of_bytes p | None => base_dir end)
  end.

(** ** The loader *)

Record Loader : Type := mkLoader {
  loaded : gmap string string;
  in_progress : gset string;
  stack : list string;
  module_exports : gmap string (gset string);
  out : list (Item Expression);
  sources : SourceMap;
  next_file : FileId;
  injecting_core_text : bool
}.

Definition new_loader : Loader := mkLoader ∅ ∅ [] ∅ [] ∅ (ROOT_FILE + 1) false.

(** A computation on the loader, which errors leave as it is. *)
Definition Linking (T : Type) : Type := Loader → fueled QualifyError T * Loader.

#[export] Instance linking_ret : MRet Linking := λ T t l, (Ok t, l).
#[export] Instance linking_bind : MBind Linking :=
  λ T U f m l, match m l with (Ok t, l) => f t l | (Err e, l) => (Err e, l) end.

Definition pure_link {T} (m : fueled QualifyError T) : Linking T := λ l, (m, l).
Definition get : Linking Loader := λ l, (Ok l, l).
Definition modify (f : Loader → Loader) : Linking unit := λ l, (Ok tt, f l).

(** A module enters the depth-first stack under the file id its spans carry. *)
Definition enter (m : Located) (l : Loader) : Loader :=
  mkLoader (<[canonical m := key m]> (loaded l)) ({[key m]} ∪ in_progress l) (stack l ++ [canonical m])
    (module_exports l) (out l) (SourceMap.insert (sources l) (next_file l) (display m) (source m))
    (u32 (next_file l + 1)) (injecting_core_text l).

Definition record_exports (name : string) (names : gset string) (l : Loader) : Loader :=
  mkLoader (loaded l) (in_progress l) (stack l) (<[name := names]> (module_exports l)) (out l) (sources l)
    (next_file l) (injecting_core_text l).

(** A finished module's items are appended, and it leaves the stack. *)
Definition leave (m : Located) (from_corelib : bool) (items : list (Item Expression)) (l : Loader) : Loader :=
  mkLoader (loaded l) (in_progress l ∖ {[key m]}) (take (length (stack l) - 1) (stack l)) (module_exports l)
    (out l ++ (set_origin from_corelib <$> items)) (sources l) (next_file l) (injecting_core_text l).

Definition set_injecting (injecting : bool) (l : Loader) : Loader :=
  mkLoader (loaded l) (in_progress l) (stack l) (module_exports l) (out l) (sources l) (next_file l) injecting.

(** The root program's own file, on the stack from the start. *)
Definition seed (root : string) (l : Loader) : Loader :=
  mkLoader (loaded l) ({["file:" +:+ canonical_key root]} ∪ in_progress l)
    (stack l ++ [default "the program" (string_of_bytes <$> file_stem (bs root))])
    (module_exports l) (out l) (sources l) (next_file l) (injecting_core_text l).

Definition bind (scope : ModuleScope) (canonical : string) (import : Import_) : Linking ModuleScope :=
  l ← get;
  pure_link (add_import scope (display_name canonical) canonical
               (default ∅ (module_exports l !! canonical)) (import_span import)).

(** The imports of a file in order, each resolved and bound. *)
Definition resolve_imports (resolve : Import_ → string → Linking string) (base_dir : string)
    : list Import_ → ModuleScope → Linking ModuleScope :=
  fix go imports scope :=
    match imports with
    | [] => mret scope
    | import :: imports =>
        canonical ← resolve import base_dir;
        scope ← bind scope canonical import;
        go imports scope
    end.

Definition cycle_message (chain : list string) : string :=
  "import cycle: " +:+ String.concat " -> " chain
  +:+ " — a module cannot import itself, directly or through others".

Definition in_module (name message : string) : string := "in module " +:+ quote name +:+ ": " +:+ message.

Definition is_builtin (path : ModulePath) : bool :=
  match path with BuiltinDotted _ => true | FilePath _ => false end.

Context `{R : Recogniser} `{U : UnicodeCase}.

(** The module's text through the lexer and the parser; a panic of the parser is one here. *)
Definition read_module (m : Located) (file : FileId) : fueled QualifyError Program :=
  tokens ←
    match tokenize_in_file (source m) file with
    | Ok tokens => Ok tokens
    | Err e => fail (error_span e) (Lexer.code e) (in_module (canonical m) (Lexer.message e))
    end;
  match parse tokens with
  | Ok sub => Ok sub
  | Err (Error e) => fail (parse_error_span e) (error_code e) (in_module (canonical m) (error_message e))
  | Err _ => out_of_fuel
  end.

(** The load of a module that is neither on the stack nor loaded. *)
Definition load (resolve : Import_ → string → Linking string) (from_corelib : bool) (m : Located) : Linking string :=
  l ← get;
  _ ← modify (enter m);
  sub ← pure_link (read_module m (next_file l));
  scope ← resolve_imports resolve (next_base m) (imports sub) empty_scope;
  _ ← modify (record_exports (canonical m) (exported_names (items sub)));
  sub ← pure_link (qualify_module sub (canonical m) scope);
  _ ← modify (leave m from_corelib (items sub));
  mret (canonical m).

Fixpoint resolve_one (fuel : nat) (import : Import_) (base_dir : string) : Linking string :=
  match fuel with
  | O => λ l, (out_of_fuel, l)
  | S fuel =>
      l ← get;
      m ← pure_link (locate (injecting_core_text l) import base_dir);
      if bool_decide (key m ∈ in_progress l) then
        pure_link (fail (import_span import) ImportCycle (cycle_message (stack l ++ [canonical m])))
      else
        match loaded l !! canonical m with
        | Some existing_key =>
            if bool_decide (existing_key = key m) then mret (canonical m)
            else
              pure_link (fail (import_span import) ModuleNameCollision
                ("two different modules are both named " +:+ quote (canonical m)
                 +:+ " — every imported module needs a distinct name; rename one of the files"))
        | None => load (resolve_one fuel) (is_builtin (Ast.path import)) m
        end
  end.

Definition root_scope (fuel : nat) (imports : list Import_) (base_dir : string) : Linking ModuleScope :=
  resolve_imports (resolve_one fuel) base_dir imports empty_scope.

Definition core_text_import : Import_ := mkImport (BuiltinDotted ["core"; "text"]) (in_root 0 0).

(** The flag is cleared whatever the load answers. *)
Definition inject_core_text (fuel : nat) (program : Program) (base_dir : string) : Linking unit := λ l,
  if uses_text_composable_items (items program) || existsb mentions_text_composable (test_blocks program)
     || uses_text_composable_items (out l)
  then
    let '(resolved, l) := resolve_one fuel core_text_import base_dir (set_injecting true l) in
    (_ ← resolved; Ok tt, set_injecting false l)
  else (Ok tt, l).

(** ** Linking *)

Record LinkError : Type := mkLinkError {
  link_code : Code;
  link_span : Span;
  link_message : string;
  link_sources : SourceMap
}.

(** The imports, then the program's own references, then [core.text]. *)
Definition link_steps (fuel : nat) (program : Program) (base_dir : string) : Linking Program :=
  scope ← root_scope fuel (imports program) base_dir;
  program ← pure_link (resolve_program program scope);
  _ ← inject_core_text fuel program base_dir;
  mret program.

Definition link (fuel : nat) (program : Program) (base_dir : string) (root_path : option string)
    : fueled LinkError (Program * SourceMap) :=
  let loader := match root_path with Some root => seed root new_loader | None => new_loader end in
  match link_steps fuel program base_dir loader with
  | (Ok program, l) =>
      Ok (mkProgram [] (out l ++ items program) (test_blocks program) (Ast.type_name_uses program)
            (Ast.variant_declarations program), sources l)
  | (throw e, l) => throw (mkLinkError (qualify_code e) (qualify_span e) (qualify_message e) (sources l))
  | (out_of_fuel, _) => out_of_fuel
  end.
End files.
