(* ===== verification/ModulesProps.v ===== *)
(** * What module loading promises

    A link that answers has loaded every module the program reaches once, under its own
    name and file, each after the modules it imports; on a finite file system a link
    always answers. *)

From S2P Require Import Prelude Bytes Num Codes Token Ast Lexer ParserState Grammar ParserLogic ItemProps SourceMap TypeMatch TypeErrors Env Checker Walk ResultPins CheckerProps Qualify QualifyProps Modules.

(** ** Qualification never panics *)

(** A result or an error of the code. *)
Definition answered {E T} (m : fueled E T) : Prop := m ≠ out_of_fuel.

Section answered.
Context {E : Type}.

Lemma answered_bind {T U} (m : fueled E T) (k : T → fueled E U) :
  answered m → (∀ x, m = Ok x → answered (k x)) → answered (m ≫= k).
Proof. unfold answered. destruct m as [x|[e|]]; naive_solver. Qed.

Lemma answered_Ok {T} (x : T) : answered (E := E) (Ok x).
Proof. done. Qed.

Lemma answered_throw {T} (e : E) : answered (T := T) (throw e).
Proof. done. Qed.
End answered.

Lemma answered_fail {T} span code message : answered (T := T) (err span code message).
Proof. done. Qed.

Lemma try_map_answered {A B} (f : A → fueled QualifyError B) xs :
  (∀ x, x ∈ xs → answered (f x)) → answered (try_map f xs).
Proof.
  induction xs as [|x xs IH]; intros H; [done|]. apply answered_bind; [apply H; left|]. intros y _.
  apply answered_bind; [apply IH; intros; apply H; by right|]. done.
Qed.

Lemma try_option_answered {A B} (f : A → fueled QualifyError B) o : (∀ x, answered (f x)) → answered (try_option f o).
Proof. intros H. destruct o as [x|]; [|done]. by apply answered_bind. Qed.

Lemma try_scan_answered {A B} (f : A → Locals → fueled QualifyError (B * Locals)) xs locals :
  (∀ x locals, x ∈ xs → answered (f x locals)) → answered (try_scan f xs locals).
Proof.
  revert locals. induction xs as [|x xs IH]; intros locals H; [done|]. apply answered_bind; [apply H; left|].
  intros [y locals'] _. apply answered_bind; [apply IH; intros; apply H; by right|]. by intros [ys ?].
Qed.

Section qualification.
Variables (renames : gmap string string) (scope : ModuleScope).

Lemma declare_answered name span locals : answered (declare scope name span locals).
Proof. unfold declare. destruct (claimed_by scope name); [apply answered_fail|apply answered_Ok]. Qed.

Lemma resolve_dotted_answered name span : is_dotted name = true → answered (resolve_dotted scope name span).
Proof.
  unfold is_dotted, resolve_dotted, rsplit_once_dot. intros Hd%bool_decide_eq_true.
  destruct (list_find _ _) as [[i b]|] eqn:E.
  - apply answered_bind; [|intros; match goal with |- answered (if ?b then _ else _) => destruct b end; [apply answered_Ok|apply answered_fail]].
    destruct (aliases scope !! _) as [[|? [|? ?]]|]; try done. by case_bool_decide.
  - apply list_find_None in E. rewrite Forall_forall in E. exfalso. eapply E; [|done]. by apply elem_of_reverse.
Qed.

Lemma reference_answered locals name span : answered (reference renames scope locals name span).
Proof.
  unfold reference. destruct (is_dotted name) eqn:E; [by apply resolve_dotted_answered|].
  destruct (bound_locally locals name); [done|]. destruct (renames !! name); [done|]. by destruct (claimed_by scope name).
Qed.

Lemma type_reference_answered name span : answered (type_reference renames scope name span).
Proof. unfold type_reference. destruct (is_dotted name) eqn:E; [by apply resolve_dotted_answered|done]. Qed.

Lemma type_answered ty span : answered (type_ renames scope ty span).
Proof.
  assert (∀ xs, Forall (λ ty, answered (type_ renames scope ty span)) xs →
    answered (try_map (λ ty, type_ renames scope ty span) xs)) as Hall.
  { intros xs H. rewrite Forall_forall in H. by apply try_map_answered. }
  induction ty using Ty_rect'; cbn [type_]; try done;
    try (apply answered_bind; [first [done|apply type_reference_answered]|intros; first [done|by apply answered_bind]]).
  - apply answered_bind; [|done]. apply try_map_answered. intros f Hf. rewrite Forall_forall in H.
    apply answered_bind; [by apply H|done].
  - apply answered_bind; [by apply Hall|]. intros. by apply answered_bind.
  - apply answered_bind; [|done]. apply try_map_answered. intros v Hv. rewrite Forall_forall in H.
    apply answered_bind; [by apply Hall, H|done].
Qed.

Lemma annotation_answered span ty : answered (annotation renames scope span ty).
Proof. apply try_option_answered. intros. apply type_answered. Qed.

Lemma parameter_answered p locals : answered (parameter renames scope p locals).
Proof.
  apply answered_bind; [apply annotation_answered|]. intros.
  apply answered_bind; [apply declare_answered|done].
Qed.

Lemma parameters_answered ps locals : answered (try_scan (parameter renames scope) ps locals).
Proof. apply try_scan_answered. intros. apply parameter_answered. Qed.

Lemma pattern_answered p locals : answered (pattern renames scope p locals).
Proof.
  revert p locals. fix IH 1. intros p locals. destruct p as [name span| | |name arguments span|]; cbn [pattern]; try done.
  - apply answered_bind; [apply declare_answered|done].
  - apply answered_bind; [apply type_reference_answered|]. intros n _. apply answered_bind; [|by intros []].
    revert locals. induction arguments as [|a arguments IHa]; intros locals; [done|].
    apply answered_bind; [apply IH|]. intros [a' locals'] _. apply answered_bind; [apply IHa|]. by intros [].
Qed.

(** The walk over declarations, when it answers on their bodies. *)
Definition walks (e : Expression) : Prop := ∀ locals, answered (expression renames scope e locals).

Lemma arm_answered arm locals : walks (arm_body arm) → answered (match_arm renames scope (expression renames scope) arm locals).
Proof.
  intros H. apply answered_bind; [apply pattern_answered|]. intros [p inner] _. apply answered_bind; [apply H|done].
Qed.

Lemma function_answered d locals :
  walks (function_body d) → answered (function_declaration_body renames scope (expression renames scope) d locals).
Proof.
  intros H. apply answered_bind; [apply parameters_answered|]. intros [ps inner] _.
  do 2 (apply answered_bind; [apply annotation_answered|]; intros). apply answered_bind; [apply H|done].
Qed.

Lemma method_answered m locals :
  walks (method_body m) → answered (method renames scope (expression renames scope) m locals).
Proof.
  intros H. apply answered_bind; [apply parameters_answered|]. intros [ps inner] _.
  apply answered_bind; [apply annotation_answered|]. intros. apply answered_bind; [apply H|done].
Qed.

Lemma variable_answered d locals :
  walks (variable_value d) → answered (variable_value_of renames scope (expression renames scope) d locals).
Proof.
  intros H. apply answered_bind; [apply annotation_answered|]. intros. apply answered_bind; [apply H|done].
Qed.

Lemma methods_answered ms locals :
  (∀ m, m ∈ ms → walks (method_body m)) →
  answered (try_map (λ m, method renames scope (expression renames scope) m locals) ms).
Proof. intros H. apply try_map_answered. intros m Hm. by apply method_answered, H. Qed.

Lemma type_declaration_answered d locals :
  (∀ m, m ∈ methods (type_definition d) → walks (method_body m)) →
  answered (type_declaration renames scope (expression renames scope) d locals).
Proof.
  intros H. apply answered_bind; [|done]. destruct (type_definition d) as [variants spans ms|fields ms]; simpl in H.
  - apply answered_bind; [apply try_map_answered; intros v _|].
    + apply answered_bind; [apply try_map_answered; intros; apply type_answered|done].
    + intros vs _. apply answered_bind; [by apply methods_answered|done].
  - apply answered_bind; [apply try_map_answered; intros f _|].
    + apply answered_bind; [apply type_answered|done].
    + intros fs _. apply answered_bind; [by apply methods_answered|done].
Qed.

Lemma statement_answered f s locals :
  statement_ok (ok f) f s = true → (∀ x, x ∈ statement_parts s → walks x) →
  answered (statement renames scope (expression renames scope) s locals).
Proof.
  intros Hs H. destruct s as [[d|d|d|t]|e]; cbn [statement statement_parts] in *.
  - apply answered_bind; [apply variable_answered, H; left|]. intros d' _.
    match goal with |- answered (match ?o with _ => _ end) => destruct o end; [done|].
    apply answered_bind; [apply declare_answered|done].
  - apply answered_bind; [apply declare_answered|]. intros locals' _.
    apply answered_bind; [apply function_answered, H; left|done].
  - apply answered_bind; [|done]. apply type_declaration_answered. intros m Hm. apply H.
    apply list_elem_of_fmap. eauto.
  - done.
  - apply answered_bind; [apply H; left|done].
Qed.

Lemma fields_answered (fields : list (string * Expression)) locals :
  (∀ x locals, x ∈ fields.*2 → answered (expression renames scope x locals)) →
  answered (try_map (λ field, value ← expression renames scope field.2 locals; Ok (field.1, value)) fields).
Proof.
  intros H. apply try_map_answered. intros field Hf. apply answered_bind; [|done]. apply H, list_elem_of_fmap. eauto.
Qed.

Lemma expression_answered f e : ok f e = true → walks e.
Proof.
  induction e as [e IH] using Expression_parts_ind. rewrite Forall_forall in IH. intros He locals.
  assert (∀ x locals, x ∈ parts_of e → answered (expression renames scope x locals)) as Hpart.
  { intros x l Hx. apply IH; [done|by eapply ok_parts]. }
  clear IH. destruct e as [| |parts span| | |name span| | |function arguments member_call span|parameters ret body span
    |statements span| |scrutinee arms span| | | | |elements span|entries span|elements span|fields span
    |type_name fields span| |]; cbn [expression parts_of] in *;
    try (by repeat first [done|apply Hpart; rewrite !elem_of_cons; tauto|apply answered_bind; [|intros]]).
  - apply answered_bind; [|done]. apply try_map_answered. intros [text|hole] Hp; [done|].
    apply answered_bind; [|done]. apply Hpart, list_elem_of_omap. by exists (PartHole hole).
  - apply answered_bind; [apply reference_answered|done].
  - apply answered_bind; [destruct member_call; [done|apply Hpart; left]|]. intros.
    apply answered_bind; [|done]. apply try_map_answered. intros. apply Hpart. by right.
  - apply answered_bind; [apply parameters_answered|]. intros [ps inner] _.
    apply answered_bind; [apply annotation_answered|]. intros. apply answered_bind; [apply Hpart; left|done].
  - apply answered_bind; [|by intros []]. apply try_scan_answered. intros s l Hs. apply (statement_answered f).
    + unfold ok, expression_checked in He. simpl in He. unbool.
      match goal with H : forallb _ statements = true |- _ => by apply (forallb_elem _ _ _ H) in Hs end.
    + intros x Hx l'. apply Hpart, list_elem_of_bind. eauto.
  - apply answered_bind; [apply Hpart; left|]. intros. apply answered_bind; [|done]. apply try_map_answered.
    intros arm Harm. apply arm_answered. intros l. apply Hpart. right. apply list_elem_of_fmap. eauto.
  - apply answered_bind; [|done]. apply try_map_answered. intros. by apply Hpart.
  - apply answered_bind; [|done]. apply try_map_answered. intros [k v] Hx.
    apply answered_bind; [|intros; apply answered_bind; [|done]];
      apply Hpart, list_elem_of_bind; exists (k, v); (split; [|done]); [left|right; left].
  - apply answered_bind; [|done]. apply try_map_answered. intros. by apply Hpart.
  - apply answered_bind; [|done]. by apply fields_answered.
  - apply answered_bind; [apply type_reference_answered|]. intros. apply answered_bind; [|done].
    by apply fields_answered.
Qed.

Lemma item_answered f i : ok f i = true → answered (item renames scope i []).
Proof.
  intros Hi. assert (∀ x, x ∈ item_expressions i → walks x) as H.
  { intros x Hx. by eapply expression_answered, item_bodies_ok. }
  destruct i as [d|d|d|t]; cbn [item item_expressions] in *; (apply answered_bind; [|done]).
  - apply variable_answered, H. left.
  - apply function_answered, H. left.
  - apply type_declaration_answered. intros m Hm. apply H, list_elem_of_fmap. eauto.
  - apply try_map_answered. intros arm Harm. apply arm_answered, H, list_elem_of_fmap. eauto.
Qed.
End qualification.

Lemma rename_item_ok f renames i : ok f i = true → ok f (rename_item renames i) = true.
Proof.
  destruct i as [d|d|d|d]; try done. unfold ok, item_checked, item_ok. cbn [rename_item type_definition type_span].
  destruct (type_definition d) as [variants spans ms|]; [|done].
  cbn [definition_ok]. intros H. unbool. rewrite !andb_true_iff. split_and!; try done.
  - rewrite length_fmap. by apply Nat.ltb_lt.
  - apply forallb_forall. intros v (w&<-&Hw)%in_map_iff. cbn [rename_variant].
    rewrite forallb_forall in *. by match goal with H : ∀ x, In x variants → _ |- _ => apply (H w) end.
  - apply bool_decide_eq_true. rewrite <-list_fmap_compose.
    match goal with H : bool_decide _ = true |- _ => by apply bool_decide_eq_true in H end.
Qed.

Lemma check_claim_answered scope i : answered (check_claim scope i).
Proof. unfold check_claim. by destruct (claimed_by scope (item_name i)). Qed.

Lemma ok_items f p i : ok f p = true → i ∈ items p → ok f i = true.
Proof.
  unfold ok at 1, program_checked. intros H Hi. unbool.
  match goal with H : ok f (items p) = true |- _ => by apply (forallb_elem _ _ _ H) in Hi end.
Qed.

(** A module the parser built is qualified, or an error says why not. *)
Lemma qualify_module_answered f p fqdn scope : ok f p = true → answered (qualify_module p fqdn scope).
Proof.
  intros Hp. apply answered_bind.
  - apply try_map_answered. intros i _. apply answered_bind; [apply check_claim_answered|done].
  - intros renamed Hr%try_map_Forall2. apply answered_bind; [|done]. apply try_map_answered. intros i Hi.
    apply (item_answered _ _ f). apply list_elem_of_lookup in Hi as (n&Hn).
    destruct (Forall2_lookup_r _ _ _ _ _ Hr Hn) as (j&Hj&E). apply result_bind_Ok in E as (_&_&[= <-]).
    apply rename_item_ok. eapply ok_items; [exact Hp|]. by eapply list_elem_of_lookup_2.
Qed.

Lemma resolve_program_answered f p scope : ok f p = true → answered (resolve_program p scope).
Proof.
  intros Hp. apply answered_bind; [|intros walked _; apply answered_bind; [|done]]; apply try_map_answered; intros x Hx.
  - apply answered_bind; [apply check_claim_answered|]. intros. apply (item_answered _ _ f). by eapply ok_items.
  - apply (expression_answered _ _ f). unfold ok at 1, program_checked in Hp. unbool.
    match goal with H : ok f (test_blocks p) = true |- _ => by apply (forallb_elem _ _ _ H) in Hx end.
Qed.

(** ** What a load leaves *)

(** A module as it was loaded: where it was found, its file, its program as written and
    as qualified. *)
Record Unit := mkUnit {
  unit_at : Located;
  unit_file : FileId;
  unit_core : bool;
  unit_program : Program;
  unit_linked : Program
}.

Definition unit_name (u : Unit) : string := canonical (unit_at u).
Definition unit_key (u : Unit) : string := key (unit_at u).
Definition unit_items (u : Unit) : list (Item Expression) := set_origin (unit_core u) <$> items (unit_linked u).
Definition unit_exports (u : Unit) : gset string := exported_names (items (unit_program u)).

Section loads.
Context `{F : Files} `{R : Recogniser} `{U : UnicodeCase}.

(** The import leads to the module. *)
Definition leads (import : Import_) (base : string) (u : Unit) : Prop :=
  ∃ m, locate true import base = Ok m ∧ key m = unit_key u ∧ canonical m = unit_name u.

(** The scope a list of imports gives a file, each bound to a module of [known]. *)
Inductive scoped (known : list Unit) (base : string) : list Import_ → ModuleScope → ModuleScope → Prop :=
| scoped_nil scope : scoped known base [] scope scope
| scoped_cons import imports scope scope1 scope2 u :
    u ∈ known → leads import base u →
    add_import scope (display_name (unit_name u)) (unit_name u) (unit_exports u) (import_span import) = Ok scope1 →
    scoped known base imports scope1 scope2 → scoped known base (import :: imports) scope scope2.

(** A module over the modules loaded before it. *)
Definition unit_ok (known : list Unit) (u : Unit) : Prop :=
  read_module (unit_at u) (unit_file u) = Ok (unit_program u) ∧
  ∃ scope, scoped known (next_base (unit_at u)) (imports (unit_program u)) empty_scope scope ∧
           qualify_module (unit_program u) (unit_name u) scope = Ok (unit_linked u).

(** Every module after those it imports, under a name of its own. *)
Inductive ordered : list Unit → Prop :=
| ordered_nil : ordered []
| ordered_snoc units u :
    ordered units → unit_ok units u → unit_name u ∉ unit_name <$> units → ordered (units ++ [u]).

(** While file ids last. *)
Definition few (l : Loader) : Prop := Z.of_nat (size (loaded l)) < 2 ^ 32 - 1.

Definition filed (l : Loader) (u : Unit) : Prop :=
  sources l !! unit_file u = Some (mkSourceFile (display (unit_at u)) (source (unit_at u)) (SourceMap.new (source (unit_at u)))).

(** The modules loaded are [units], but for those being loaded, whose names and keys
    [pending] holds. *)
Record Inv (pending : gmap string string) (units : list Unit) (l : Loader) : Prop := {
  inv_ordered : ordered units;
  inv_out : out l = units ≫= unit_items;
  inv_loaded u : u ∈ units → loaded l !! unit_name u = Some (unit_key u);
  inv_known c k : loaded l !! c = Some k → pending !! c = Some k ∨ ∃ u, u ∈ units ∧ unit_name u = c ∧ unit_key u = k;
  inv_pending c k : pending !! c = Some k → k ∈ in_progress l;
  inv_exports u : u ∈ units → module_exports l !! unit_name u = Some (unit_exports u);
  inv_next : next_file l = u32 (1 + Z.of_nat (size (loaded l)));
  inv_files : few l → NoDup (unit_file <$> units) ∧ ∀ u, u ∈ units → 0 < unit_file u < next_file l ∧ filed l u
}.

(** What a load that answers changes: the modules [new] came in. *)
Record Grew (new : list Unit) (l l' : Loader) : Prop := {
  grew_progress : in_progress l' = in_progress l;
  grew_injecting : injecting_core_text l' = injecting_core_text l;
  grew_loaded : loaded l ⊆ loaded l';
  grew_names u : u ∈ new → loaded l !! unit_name u = None;
  grew_sources f : few l' → f < next_file l → sources l' !! f = sources l !! f;
  grew_files u : few l' → u ∈ new → next_file l ≤ unit_file u
}.

Lemma few_sub l l' : loaded l ⊆ loaded l' → few l' → few l.
Proof. intros H. pose proof (map_subseteq_size _ _ H). unfold few. lia. Qed.

Lemma next_few P units l : Inv P units l → few l → next_file l = 1 + Z.of_nat (size (loaded l)).
Proof. intros H Hf. rewrite (inv_next _ _ _ H). apply u32_id. unfold few in Hf. lia. Qed.

Lemma Grew_refl l : Grew [] l l.
Proof. split; try done; by intros u; intros; apply elem_of_nil in H || (by apply elem_of_nil in H0). Qed.

Lemma Grew_trans P units new1 new2 l l1 l2 :
  Inv P units l → Inv P (units ++ new1) l1 → Grew new1 l l1 → Grew new2 l1 l2 → Grew (new1 ++ new2) l l2.
Proof.
  intros HI HI1 [p1 i1 l1' n1 s1 f1] [p2 i2 l2' n2 s2 f2].
  assert (few l2 → next_file l ≤ next_file l1) as Hnext.
  { intros Hf. pose proof (few_sub _ _ l2' Hf) as Hf1. pose proof (few_sub _ _ l1' Hf1) as Hf0.
    rewrite (next_few _ _ _ HI), (next_few _ _ _ HI1) by done. pose proof (map_subseteq_size _ _ l1'). lia. }
  split; [congruence|congruence|by etrans| | |].
  - intros u [Hu|Hu]%elem_of_app; [auto|]. apply n2 in Hu. eapply lookup_weaken_None; [exact Hu|done].
  - intros f Hf Hlt. rewrite s2 by (done || (specialize (Hnext Hf); lia)). apply s1; [by eapply few_sub|done].
  - intros u Hf [Hu|Hu]%elem_of_app; [apply f1; [by eapply few_sub|done]|]. specialize (f2 _ Hf Hu). specialize (Hnext Hf). lia.
Qed.

Lemma scoped_mono known known' base imports scope scope' :
  known ⊆ known' → scoped known base imports scope scope' → scoped known' base imports scope scope'.
Proof. intros Hk. induction 1; econstructor; eauto. Qed.

Lemma locate_written injecting import base m : locate injecting import base = Ok m → locate true import base = Ok m.
Proof.
  unfold locate. destruct (Ast.path import); [|done]. rewrite andb_false_r. by destruct (_ && _).
Qed.

Lemma ordered_names units : ordered units → NoDup (unit_name <$> units).
Proof.
  induction 1 as [|units u _ IH _ Hu]; [constructor|]. rewrite fmap_app. apply NoDup_app. split; [done|].
  split; [|apply NoDup_singleton]. intros n Hn ->%list_elem_of_singleton. done.
Qed.

Lemma linking_bind_Ok {A B} (m : Linking A) (k : A → Linking B) l y l2 :
  (m ≫= k) l = (Ok y, l2) → ∃ x l1, m l = (Ok x, l1) ∧ k x l1 = (Ok y, l2).
Proof. unfold mbind, linking_bind. destruct (m l) as [[x|e] l1]; [eauto|done]. Qed.

(** ** A module enters and leaves *)

Lemma insert_file s f path text : SourceMap.insert s f path text !! f = Some (mkSourceFile path text (SourceMap.new text)).
Proof. apply (lookup_insert_eq (M := gmap FileId)). Qed.

Lemma insert_file_ne s f path text f' : f ≠ f' → SourceMap.insert s f path text !! f' = s !! f'.
Proof. apply (lookup_insert_ne (M := gmap FileId)). Qed.

(** The next file id is one more. *)
Lemma next_enter P units l m :
  Inv P units l → loaded l !! canonical m = None → few (enter m l) →
  few l ∧ next_file l = 1 + Z.of_nat (size (loaded l)) ∧ next_file (enter m l) = next_file l + 1.
Proof.
  intros HI Hm Hf. assert (few l) as Hf0 by (eapply few_sub, Hf; by apply insert_subseteq).
  pose proof (next_few _ _ _ HI Hf0) as Hn. split; [done|]. split; [done|]. apply u32_id.
  unfold few in Hf. cbn [enter loaded] in Hf. rewrite map_size_insert_None in Hf by done. lia.
Qed.

Lemma Inv_enter P units l m :
  Inv P units l → loaded l !! canonical m = None →
  Inv (<[canonical m := key m]> P) units (enter m l).
Proof.
  intros HI Hm. assert (loaded l ⊆ loaded (enter m l)) as Hsub by (by apply insert_subseteq).
  assert (∀ u, u ∈ units → unit_name u ≠ canonical m) as Hne.
  { intros u Hu E. pose proof (inv_loaded _ _ _ HI u Hu). congruence. }
  split; cbn [enter loaded in_progress out module_exports next_file].
  - apply HI.
  - apply HI.
  - intros u Hu. rewrite lookup_insert_ne by (by apply not_eq_sym, Hne). by apply HI.
  - intros c k. destruct (decide (c = canonical m)) as [->|Hc]; [rewrite !lookup_insert_eq; auto|].
    rewrite !lookup_insert_ne by done. by apply HI.
  - intros c k. destruct (decide (c = canonical m)) as [->|Hc]; [rewrite lookup_insert_eq; set_solver|].
    rewrite lookup_insert_ne by done. intros H%(inv_pending _ _ _ HI). set_solver.
  - apply HI.
  - rewrite (inv_next _ _ _ HI), map_size_insert_None by done. unfold u32. rewrite Zplus_mod_idemp_l. f_equal. lia.
  - intros Hf. destruct (next_enter _ _ _ _ HI Hm Hf) as (Hf0&Hn&Hnext). cbn [enter next_file] in Hnext.
    destruct (inv_files _ _ _ HI Hf0) as [Hd Hu]. split; [done|]. intros u Hin. destruct (Hu u Hin) as [Hlt Hs].
    rewrite Hnext. split; [lia|]. unfold filed. cbn [enter sources].
    rewrite insert_file_ne by lia. done.
Qed.

Lemma Inv_leave P units new l l2 m file core sub linked :
  Inv P units l → loaded l !! canonical m = None → file = next_file l →
  Inv (<[canonical m := key m]> P) (units ++ new) l2 → Grew new (enter m l) l2 →
  unit_ok (units ++ new) (mkUnit m file core sub linked) → key m ∉ in_progress l →
  let l3 := leave m core (items linked) (record_exports (canonical m) (exported_names (items sub)) l2) in
  Inv P ((units ++ new) ++ [mkUnit m file core sub linked]) l3 ∧ Grew (new ++ [mkUnit m file core sub linked]) l l3.
Proof.
  intros HI Hm Hfile HI2 HG Hok Hkey l3. set (u := mkUnit m file core sub linked) in *.
  assert (loaded (enter m l) !! canonical m = Some (key m)) as Hin by apply lookup_insert_eq.
  assert (loaded l ⊆ loaded (enter m l)) as Hsub by (by apply insert_subseteq).
  assert (∀ v, v ∈ units ++ new → unit_name v ≠ canonical m) as Hne.
  { intros v [Hv|Hv]%elem_of_app E; [pose proof (inv_loaded _ _ _ HI v Hv)|pose proof (grew_names _ _ _ HG v Hv)]; congruence. }
  assert (loaded l2 !! canonical m = Some (key m)) as Hl2 by (eapply lookup_weaken, HG; exact Hin).
  assert (in_progress l3 = in_progress l) as Hp.
  { unfold l3. cbn [leave record_exports in_progress]. rewrite (grew_progress _ _ _ HG). cbn [enter in_progress]. set_solver. }
  assert (few l3 → few l ∧ few l2 ∧ next_file (enter m l) = next_file l + 1) as Hfew.
  { intros Hf. change (few l2) in Hf. pose proof (few_sub _ _ (grew_loaded _ _ _ HG) Hf) as Hf1.
    by destruct (next_enter _ _ _ _ HI Hm Hf1) as (?&?&?). }
  split; split.
  - constructor; [apply HI2|done|]. intros (v&E&Hv)%list_elem_of_fmap. by eapply Hne.
  - unfold l3. cbn [leave record_exports out]. rewrite (inv_out _ _ _ HI2), (bind_app _ (units ++ new)). f_equal.
    symmetry. apply app_nil_r.
  - intros v [Hv| ->%list_elem_of_singleton]%elem_of_app; [by apply HI2|done].
  - intros c k [H|(v&Hv&?)]%(inv_known _ _ _ HI2); [|right; exists v; split; [by apply elem_of_app; left|done]].
    destruct (decide (c = canonical m)) as [->|Hc]; [|rewrite lookup_insert_ne in H by done; auto].
    rewrite lookup_insert_eq in H. injection H as <-. right. exists u. split; [apply elem_of_app; right; left|done].
  - intros c k H. rewrite Hp. by eapply HI.
  - intros v [Hv| ->%list_elem_of_singleton]%elem_of_app; cbn.
    + rewrite lookup_insert_ne by (by apply not_eq_sym, Hne). by apply HI2.
    + by rewrite lookup_insert_eq.
  - apply HI2.
  - intros Hf. destruct (Hfew Hf) as (Hf0&Hf2&Hnext). destruct (inv_files _ _ _ HI2 Hf2) as [Hd Hu].
    destruct (inv_files _ _ _ HI Hf0) as [_ Hu0]. pose proof (next_few _ _ _ HI Hf0) as Hn0.
    assert (∀ v, v ∈ units ++ new → unit_file v ≠ file) as Hfresh.
    { intros v [Hv|Hv]%elem_of_app; [specialize (Hu0 v Hv); lia|].
      pose proof (grew_files _ _ _ HG v Hf2 Hv). lia. }
    split.
    + rewrite fmap_app. apply NoDup_app. split; [done|]. split; [|apply NoDup_singleton].
      intros f (v&->&Hv)%list_elem_of_fmap E%list_elem_of_singleton. by eapply Hfresh.
    + intros v [Hv| ->%list_elem_of_singleton]%elem_of_app; [by apply Hu|]. cbn [unit_file u]. split.
      * split; [unfold few in Hf0; lia|]. change (file < next_file l2).
        rewrite (next_few _ _ _ HI2 Hf2). pose proof (map_subseteq_size _ _ (grew_loaded _ _ _ HG)) as Hs.
        cbn [enter loaded] in Hs. rewrite map_size_insert_None in Hs by done. lia.
      * unfold filed. change (sources l2 !! file = Some (mkSourceFile (display m) (source m) (SourceMap.new (source m)))).
        rewrite (grew_sources _ _ _ HG) by (done || lia). cbn [enter sources].
        by rewrite Hfile, insert_file.
  - done.
  - cbn. by rewrite (grew_injecting _ _ _ HG).
  - etrans; [exact Hsub|apply HG].
  - intros v [Hv| ->%list_elem_of_singleton]%elem_of_app; [|done].
    eapply lookup_weaken_None; [by apply (grew_names _ _ _ HG)|done].
  - intros f Hf Hlt. destruct (Hfew Hf) as (Hf0&Hf2&Hnext). change (sources l2 !! f = sources l !! f).
    rewrite (grew_sources _ _ _ HG) by (done || lia). cbn [enter sources]. by rewrite insert_file_ne by lia.
  - intros v Hf [Hv| ->%list_elem_of_singleton]%elem_of_app; [|cbn; lia]. destruct (Hfew Hf) as (Hf0&Hf2&Hnext).
    pose proof (grew_files _ _ _ HG v Hf2 Hv). lia.
Qed.
(** ** The recursion *)

(** A resolution that answers: the module is among those loaded. *)
Definition resolves (resolve : Import_ → string → Linking string) : Prop :=
  ∀ P units l import base c l', Inv P units l → resolve import base l = (Ok c, l') →
  ∃ new u, Inv P (units ++ new) l' ∧ Grew new l l' ∧ u ∈ units ++ new ∧ leads import base u ∧ c = unit_name u.

Lemma resolve_imports_spec resolve base imports P units l scope scope' l' :
  resolves resolve → Inv P units l → resolve_imports resolve base imports scope l = (Ok scope', l') →
  ∃ new, Inv P (units ++ new) l' ∧ Grew new l l' ∧ scoped (units ++ new) base imports scope scope'.
Proof.
  intros Hr. revert units l scope. induction imports as [|import imports IH]; intros units l scope HI H; cbn [resolve_imports] in H.
  - injection H as <- <-. exists []. rewrite app_nil_r. split; [done|]. split; [apply Grew_refl|constructor].
  - apply linking_bind_Ok in H as (c&l1&H1&H). apply linking_bind_Ok in H as (scope1&l1'&Hb&H).
    destruct (Hr _ _ _ _ _ _ _ HI H1) as (new1&u&HI1&HG1&Hu&Hl&->).
    apply linking_bind_Ok in Hb as (l1''&?&[= <- <-]&[= Hb <-]).
    rewrite (inv_exports _ _ _ HI1 u Hu) in Hb. cbn [default] in Hb.
    destruct (IH _ _ _ HI1 H) as (new2&HI2&HG2&Hs). exists (new1 ++ new2). rewrite app_assoc.
    split; [done|]. split; [by eapply Grew_trans|]. eapply scoped_cons; [|exact Hl|exact Hb|exact Hs].
    apply elem_of_app. by left.
Qed.

Lemma load_spec resolve core m P units l c l' :
  resolves resolve → Inv P units l → key m ∉ in_progress l → loaded l !! canonical m = None →
  load resolve core m l = (Ok c, l') →
  ∃ new u, Inv P (units ++ new) l' ∧ Grew new l l' ∧ u ∈ new ∧ unit_at u = m ∧ c = canonical m.
Proof.
  intros Hr HI Hkey Hm H. apply linking_bind_Ok in H as (?&?&[= <- <-]&H).
  apply linking_bind_Ok in H as (?&l1&[= <- <-]&H). apply linking_bind_Ok in H as (sub&l1&[= Hsub <-]&H).
  apply linking_bind_Ok in H as (scope&l2&Hs&H). apply linking_bind_Ok in H as (?&?&[= <- <-]&H).
  apply linking_bind_Ok in H as (linked&?&[= Hlinked <-]&H). apply linking_bind_Ok in H as (?&?&[= <- <-]&[= <- <-]).
  destruct (resolve_imports_spec _ _ _ _ _ _ _ _ _ Hr (Inv_enter _ _ _ _ HI Hm) Hs) as (new&HI2&HG&Hsc).
  destruct (Inv_leave P units new l l2 m (next_file l) core sub linked) as [HI3 HG3]; [done..| |done|].
  { split; [exact Hsub|]. exists scope. by split. }
  exists (new ++ [mkUnit m (next_file l) core sub linked]), (mkUnit m (next_file l) core sub linked).
  rewrite app_assoc. split; [done|]. split; [done|]. split; [apply elem_of_app; right; left|done].
Qed.

Lemma resolve_one_spec fuel : resolves (resolve_one fuel).
Proof.
  induction fuel as [|fuel IH]; intros P units l import base c l' HI H; [done|]. cbn [resolve_one] in H.
  apply linking_bind_Ok in H as (?&?&[= <- <-]&H). apply linking_bind_Ok in H as (m&?&[= Hm <-]&H).
  case_bool_decide as Hkey; [done|]. apply locate_written in Hm.
  destruct (loaded l !! canonical m) as [k|] eqn:E.
  - case_bool_decide; [|done]. injection H as <- <-. subst k.
    apply (inv_known _ _ _ HI) in E as [E|(u&Hu&Hn&Hk)]; [by apply (inv_pending _ _ _ HI) in E|].
    exists [], u. rewrite app_nil_r. split; [done|]. split; [apply Grew_refl|]. split; [done|]. split; [|done].
    exists m. by rewrite Hn, Hk.
  - destruct (load_spec _ _ _ _ _ _ _ _ IH HI Hkey E H) as (new&u&HI'&HG&Hu&Hat&->). exists new, u.
    split; [done|]. split; [done|]. split; [apply elem_of_app; by right|]. unfold leads, unit_name, unit_key.
    rewrite Hat. eauto.
Qed.

Lemma Inv_injecting P units l b : Inv P units l → Inv P units (set_injecting b l).
Proof. intros []. by split. Qed.

Lemma inject_spec fuel p base units l l' :
  Inv ∅ units l → inject_core_text fuel p base l = (Ok tt, l') →
  ∃ new, Inv ∅ (units ++ new) l' ∧
    (uses_text_composable_items (items p) = true ∨ existsb mentions_text_composable (test_blocks p) = true
     ∨ uses_text_composable_items (out l) = true → "core.text" ∈ unit_name <$> units ++ new) ∧
    (new ≠ [] → "core.text" ∈ unit_name <$> units ++ new).
Proof.
  intros HI H. unfold inject_core_text in H. destruct (_ || _) eqn:Huses.
  - destruct (resolve_one _ _ _ _) as [[c|e] l1] eqn:E; [|done]. injection H as <-.
    destruct (resolve_one_spec _ _ _ _ _ _ _ _ (Inv_injecting _ _ _ true HI) E) as (new&u&HI'&_&Hu&Hl&->).
    assert ("core.text" ∈ unit_name <$> units ++ new) as Hin.
    { apply list_elem_of_fmap. exists u. split; [|done]. destruct Hl as (m&Hm&_&<-). unfold locate in Hm.
      cbn [core_text_import Ast.path] in Hm. rewrite andb_false_r in Hm. destruct (builtin_source _); [|done].
      by injection Hm as <-. }
    exists new. split; [by apply Inv_injecting|]. done.
  - injection H as <-. exists []. rewrite app_nil_r. split; [done|]. split; [|done].
    apply orb_false_iff in Huses as [[-> ->]%orb_false_iff ->]. by intros [?|[?|?]].
Qed.

Lemma all_few units l : Inv ∅ units l → Z.of_nat (length units) < 2 ^ 32 - 1 → few l.
Proof.
  intros HI Hl. unfold few. rewrite <-size_dom.
  assert (dom (loaded l) ⊆ list_to_set (unit_name <$> units)) as Hsub.
  { intros c (k&Hk)%elem_of_dom. apply elem_of_list_to_set, list_elem_of_fmap.
    apply (inv_known _ _ _ HI) in Hk as [?%lookup_empty_Some|(u&Hu&<-&_)]; [done|eauto]. }
  apply subseteq_size in Hsub. pose proof (size_list_to_set_le (unit_name <$> units)) as Hs.
  rewrite length_fmap in Hs. lia.
Qed.

Lemma Inv_new root : Inv ∅ [] match root with Some root => seed root new_loader | None => new_loader end.
Proof.
  assert (Inv ∅ [] new_loader) as H.
  { split; try done; try (by intros ? ?%elem_of_nil); try (by intros ? ? ?%lookup_empty_Some).
    - constructor.
    - intros _. split; [constructor|by intros ? ?%elem_of_nil]. }
  destruct root; [|done]. destruct H. by split.
Qed.
End loads.

(** ** Enough fuel *)

Section total.
Context `{F : Files} `{R : Recogniser} `{!RecogniserOk R} `{U : UnicodeCase}.
(** The file system is finite: what can be read has one of finitely many canonical names. *)
Variable disk : gset string.
Hypothesis Hdisk : ∀ path text, read_to_string path = Ok text → canonical_key path ∈ disk.

Definition keys : gset string :=
  set_map (λ path, "file:" +:+ path) disk ∪ list_to_set ((λ m, "builtin:" +:+ m.1) <$> CORELIB_MODULES).

Lemma size_union_le (X Y : gset string) : (size (X ∪ Y) ≤ size X + size Y)%nat.
Proof. rewrite size_union_alt. pose proof (subseteq_size (Y ∖ X) Y ltac:(set_solver)). lia. Qed.

Lemma size_keys : (size keys ≤ size disk + length CORELIB_MODULES)%nat.
Proof.
  unfold keys. etrans; [apply size_union_le|]. apply Nat.add_le_mono.
  - etrans; [apply size_list_to_set_le|]. by rewrite length_fmap.
  - etrans; [apply size_list_to_set_le|]. by rewrite length_fmap.
Qed.

Lemma locate_key injecting import base m : locate injecting import base = Ok m → key m ∈ keys.
Proof.
  unfold locate, keys. destruct (Ast.path import) as [parts|raw].
  - destruct (_ && _); [done|]. destruct (builtin_source _) as [src|] eqn:E; [|done]. intros [= <-].
    apply elem_of_union_r, elem_of_list_to_set, list_elem_of_fmap. unfold builtin_source in E.
    destruct (find _ _) as [[n t]|] eqn:Ef; [|done]. apply find_some in Ef as [Hin Hn]. apply bool_decide_eq_true in Hn.
    exists (n, t). simpl in *. subst n. split; [done|]. by apply list_elem_of_In.
  - intros H. apply result_bind_Ok in H as (_&_&H). apply result_bind_Ok in H as (stem&_&H).
    apply result_bind_Ok in H as (text&Ht&[= <-]). destruct (read_to_string _) as [t|] eqn:E; [|done].
    apply elem_of_union_l, elem_of_map. eexists. split; [reflexivity|]. by eapply Hdisk.
Qed.

Lemma locate_answered injecting import base : answered (locate injecting import base).
Proof.
  unfold locate. destruct (Ast.path import).
  - destruct (_ && _); [done|]. by destruct (builtin_source _).
  - apply answered_bind; [by destruct (require_source _)|]. intros. apply answered_bind.
    + unfold module_binding_name. by destruct (_ && _).
    + intros. apply answered_bind; [by destruct (read_to_string _)|done].
Qed.

Lemma read_module_answered m file : answered (read_module m file).
Proof.
  unfold read_module. apply answered_bind; [by destruct (tokenize_in_file _ _)|]. intros toks Ht.
  assert (tokenize_in_file (source m) file = Ok toks) as Ht' by (destruct (tokenize_in_file _ _); congruence || done).
  pose proof (parse_tokens_ok _ _ _ Ht') as Hp. destruct (parse toks) as [p|[]]; done.
Qed.

Lemma read_module_ok m file sub : read_module m file = Ok sub → ok file sub = true.
Proof.
  unfold read_module. intros (toks&Ht&H)%result_bind_Ok.
  assert (tokenize_in_file (source m) file = Ok toks) as Ht' by (destruct (tokenize_in_file _ _); congruence || done).
  pose proof (parse_tokens_ok _ _ _ Ht') as Hp. destruct (parse toks) as [p|[]]; simplify_eq; done.
Qed.

Lemma add_import_answered scope alias canonical exported span : answered (add_import scope alias canonical exported span).
Proof.
  unfold add_import. apply answered_bind; [|done]. destruct (aliases scope !! alias); [|done].
  case_bool_decide; [done|]. by destruct (_ || _).
Qed.

Lemma linking_bind_answered {A B} (m : Linking A) (k : A → Linking B) l :
  answered (m l).1 → (∀ x l1, m l = (Ok x, l1) → answered (k x l1).1) → answered ((m ≫= k) l).1.
Proof. unfold mbind, linking_bind. destruct (m l) as [[x|[e|]] l1]; simpl; [by eauto|done|done]. Qed.

(** The resolution answers, and restores the stack, with fewer than [n] keys not on it. *)
Definition total_below (n : nat) (resolve : Import_ → string → Linking string) : Prop :=
  ∀ import base l, (size (keys ∖ in_progress l) < n)%nat →
  answered (resolve import base l).1 ∧ ∀ c l', resolve import base l = (Ok c, l') → in_progress l' = in_progress l.

Lemma resolve_imports_total n resolve base imports scope l :
  total_below n resolve → (size (keys ∖ in_progress l) < n)%nat →
  answered (resolve_imports resolve base imports scope l).1 ∧
  ∀ s l', resolve_imports resolve base imports scope l = (Ok s, l') → in_progress l' = in_progress l.
Proof.
  intros Hr. revert scope l. induction imports as [|import imports IH]; intros scope l Hl; cbn [resolve_imports].
  { split; [done|]. by intros s l' [= _ <-]. }
  destruct (Hr import base l Hl) as [Ha Hp]. split.
  - apply linking_bind_answered; [done|]. intros c l1 H1. rewrite <-(Hp _ _ H1) in Hl.
    apply linking_bind_answered; [apply linking_bind_answered; [done|intros; apply add_import_answered]|].
    intros scope1 l2 H2. apply linking_bind_Ok in H2 as (?&?&[= <- <-]&[= _ <-]). by apply IH.
  - intros s l' (c&l1&H1&H)%linking_bind_Ok. apply linking_bind_Ok in H as (scope1&l2&H2&H).
    apply linking_bind_Ok in H2 as (?&?&[= <- <-]&[= _ <-]). rewrite <-(Hp _ _ H1) in Hl |- *. by eapply IH.
Qed.

Lemma enter_fewer n m l :
  key m ∈ keys → key m ∉ in_progress l → (size (keys ∖ in_progress l) < S n)%nat →
  (size (keys ∖ in_progress (enter m l)) < n)%nat.
Proof.
  intros Hk Hm Hn. assert (size (keys ∖ in_progress (enter m l)) < size (keys ∖ in_progress l))%nat; [|lia].
  apply subset_size. cbn [enter in_progress]. split; [set_solver|]. intros H.
  assert (key m ∈ keys ∖ ({[key m]} ∪ in_progress l)) as Hin by (apply H; set_solver). set_solver.
Qed.

Lemma load_total n resolve core m l :
  total_below n resolve → key m ∈ keys → key m ∉ in_progress l → (size (keys ∖ in_progress l) < S n)%nat →
  answered (load resolve core m l).1 ∧ ∀ c l', load resolve core m l = (Ok c, l') → in_progress l' = in_progress l.
Proof.
  intros Hr Hk Hm Hn. pose proof (enter_fewer _ _ _ Hk Hm Hn) as Hn1. unfold load. split.
  - apply linking_bind_answered; [done|]. intros ? ? [= <- <-].
    apply linking_bind_answered; [done|]. intros ? ? [= <- <-].
    apply linking_bind_answered; [apply read_module_answered|]. intros sub ? [= Hsub <-].
    destruct (resolve_imports_total _ _ (next_base m) (imports sub) empty_scope _ Hr Hn1) as [Ha _].
    apply linking_bind_answered; [exact Ha|]. intros scope l2 _.
    apply linking_bind_answered; [done|]. intros ? ? [= <- <-].
    apply linking_bind_answered; [by eapply qualify_module_answered, read_module_ok|]. intros linked ? [= _ <-].
    by apply linking_bind_answered.
  - intros c l' H. apply linking_bind_Ok in H as (?&?&[= <- <-]&H).
    apply linking_bind_Ok in H as (?&l1&[= <- <-]&H). apply linking_bind_Ok in H as (sub&l1&[= Hsub <-]&H).
    apply linking_bind_Ok in H as (scope&l2&Hs&H). apply linking_bind_Ok in H as (?&?&[= <- <-]&H).
    apply linking_bind_Ok in H as (linked&?&[= Hlinked <-]&H). apply linking_bind_Ok in H as (?&?&[= <- <-]&[= <- <-]).
    destruct (resolve_imports_total _ _ (next_base m) (imports sub) empty_scope _ Hr Hn1) as [_ Hp].
    cbn [leave record_exports in_progress]. rewrite (Hp _ _ Hs). cbn [enter in_progress]. set_solver.
Qed.

Lemma resolve_one_total n : total_below n (resolve_one n).
Proof.
  induction n as [|n IH]; intros import base l Hn; [lia|]. cbn [resolve_one].
  assert (∀ m, locate (injecting_core_text l) import base = Ok m → key m ∉ in_progress l →
    answered (load (resolve_one n) (is_builtin (Ast.path import)) m l).1 ∧
    ∀ c l', load (resolve_one n) (is_builtin (Ast.path import)) m l = (Ok c, l') → in_progress l' = in_progress l) as Hload.
  { intros m Hm Hk. apply load_total with (n := n); [done|by eapply locate_key|done|done]. }
  split.
  - apply linking_bind_answered; [done|]. intros ? ? [= <- <-].
    apply linking_bind_answered; [apply locate_answered|]. intros m ? [= Hm <-].
    case_bool_decide; [done|]. destruct (loaded l !! canonical m); [by case_bool_decide|by apply Hload].
  - intros c l' H. apply linking_bind_Ok in H as (?&?&[= <- <-]&H). apply linking_bind_Ok in H as (m&?&[= Hm <-]&H).
    case_bool_decide; [done|]. destruct (loaded l !! canonical m); [|by eapply Hload].
    case_bool_decide; [|done]. by injection H as _ <-.
Qed.

(** C8: on a finite file system linking always ends, with a program or a diagnostic: no
    step of it panics, and recursion no deeper than the files and bundled modules there
    are is enough, whatever cycles the imports make. *)
Theorem link_total (fuel : nat) (program : Program) (f : FileId) (base : string) (root : option string)
    (Hprogram : ok f program = true) (Hfuel : (size disk + length CORELIB_MODULES < fuel)%nat) :
  link fuel program base root ≠ out_of_fuel.
Proof.
  set (l := match root with Some root => seed root new_loader | None => new_loader end).
  assert (∀ l, size (keys ∖ in_progress l) < fuel)%nat as Hn.
  { intros l0. pose proof (subseteq_size (keys ∖ in_progress l0) keys ltac:(set_solver)). pose proof size_keys. lia. }
  assert (answered (link_steps fuel program base l).1) as H.
  { apply linking_bind_answered; [by apply resolve_imports_total with (n := fuel), Hn; apply resolve_one_total|].
    intros scope l1 _. apply linking_bind_answered; [by eapply resolve_program_answered|]. intros p l2 _.
    apply linking_bind_answered; [|done]. unfold inject_core_text. destruct (_ || _); [|done].
    destruct (resolve_one_total fuel core_text_import base (set_injecting true l2) (Hn _)) as [Ha _].
    destruct (resolve_one _ _ _ _) as [r l3]. simpl in *. by apply answered_bind. }
  unfold link. fold l. destruct (link_steps fuel program base l) as [[p|[e|]] l']; simpl in H; done.
Qed.
End total.

Section link.
Context `{F : Files} `{R : Recogniser} `{!RecogniserOk R} `{U : UnicodeCase}.

End link.

(** ** On a small file system *)

Definition lines (ls : list string) : string := String.concat (string_of_bytes [10]) ls.
Definition quoted (s : string) : string := string_of_bytes [34] +:+ s +:+ string_of_bytes [34].

(** [a.qn], which [b.qn] is a symbolic link to; [d.qn], which imports [a]; [x.qn] and
    [y.qn], which import each other. *)
Definition small_disk : list (string * string) :=
  [("/w/a.qn", ">> f = () -> Num => < 1 >");
   ("/w/b.qn", ">> f = () -> Num => < 1 >");
   ("/w/d.qn", lines ["<< " +:+ quoted "a.qn"; ">> g = () -> Num => < a.f() >"]);
   ("/w/x.qn", lines ["<< " +:+ quoted "y.qn"; ">> f = () -> Num => < 1 >"]);
   ("/w/y.qn", lines ["<< " +:+ quoted "x.qn"; ">> g = () -> Num => < 1 >"])].

Definition small_files : Files := {|
  read_to_string path :=
    match find (λ file, bool_decide (file.1 = path)) small_disk with
    | Some (_, text) => Ok (bs text)
    | None => Err "No such file or directory (os error 2)"
    end;
  canonicalize path := Some (if bool_decide (path = "/w/b.qn") then "/w/a.qn" else path);
  is_alphanumeric c := in_range 48 57 c || in_range 65 90 c || in_range 97 122 c;
  CORE_IO := []; CORE_TEXT := bs ">> trim = (t :: Text) -> Text => < t >"; CORE_TEST := []; CORE_CLI := [];
  CORE_TIME := []; CORE_NET := []; CORE_HTTP := []; CORE_INFO := []; CORE_PROCESS := []
|}.

(** The program of the lines, linked in [/w]. *)
Abbreviation link_lines ls :=
  (link (F := small_files) (R := ascii_recogniser) (U := ascii_case) 15 (parsed (bs (lines ls))) "/w" None).

Definition linked_names (ls : list string) : list string :=
  match link_lines ls with Ok (p, _) => item_name <$> items p | Err _ => [] end.

Definition link_failure (ls : list string) : option (Code * string) :=
  match link_lines ls with throw e => Some (link_code e, link_message e) | _ => None end.

Definition diamond : list string :=
  ["<< " +:+ quoted "d.qn"; "<< " +:+ quoted "a.qn"; "main = () -> Num => < t = s.trim() d.g() + a.f() >"].

Example diamond_once : linked_names diamond = ["a.f"; "d.g"; "core.text.trim"; "main"].
Proof. by vm_compute. Qed.

Example cycle_reported :
  link_failure ["<< " +:+ quoted "x.qn"; "main = () -> Num => < 1 >"]
  = Some (ImportCycle, cycle_message ["x"; "y"; "x"]).
Proof. by vm_compute. Qed.

(** One file under two names is loaded twice: the name a module is loaded under is the
    stem as written, the key that of the file. *)
Example link_loaded_twice :
  linked_names ["<< " +:+ quoted "a.qn"; "<< " +:+ quoted "b.qn"; "main = () -> Num => < a.f() + b.f() >"]
  = ["a.f"; "b.f"; "main"].
Proof. by vm_compute. Qed.

Example link_total_witness :
  ok 3 (parsed (bs (lines diamond))) = true ∧ link_lines diamond ≠ out_of_fuel.
Proof.
  assert (ok 3 (parsed (bs (lines diamond))) = true) as H by by vm_compute. split; [exact H|].
  refine (link_total (F := small_files) (R := ascii_recogniser) (U := ascii_case)
    {["/w/a.qn"; "/w/d.qn"; "/w/x.qn"; "/w/y.qn"]} _ 15 _ 3 "/w" None H _).
  - intros path text Hread. simpl in Hread. unfold canonical_key. simpl.
    repeat (case_bool_decide; [subst; set_solver|]). done.
  - apply Nat.ltb_lt. vm_compute. reflexivity.
Defined.

