(* ===== verification/LaunchScope.v ===== *)
(** * Launch scopes: [quilon-rt/src/launch_scope.rs]

    A block that launches opens a scope, its launches register a join thunk there, and
    its close settles them in launch order.  The open scopes of a worker are kept per
    fiber; what a thunk answers when it is called - the report of its launch's fault,
    if it has one - is a parameter.  Proved: whatever way the fibers of a worker
    interleave, every close settles exactly the launches its own block made, in order,
    and a fiber whose blocks are closed leaves nothing behind. *)

From S2P Require Import Prelude.

(** The fiber whose scopes an operation is about; [None] outside any fiber. *)
Definition Key : Type := option nat.

Section launches.
Context {L : Type}.
(** The join thunk of a launch, once it has settled. *)
Variable outcome : L → option string.

Record LaunchScope : Type := mkLaunchScope { entries : list L }.

(** A fiber's stack of scopes, innermost first; a fiber with none has no entry. *)
Abbreviation Scopes := (gmap Key (list LaunchScope)).

Definition block_scope_enter (key : Key) (scopes : Scopes) : Scopes :=
  <[key := mkLaunchScope [] :: default [] (scopes !! key)]> scopes.

Definition register (key : Key) (join : L) (scopes : Scopes) : Scopes :=
  match scopes !! key with
  | Some (scope :: rest) => <[key := mkLaunchScope (entries scope ++ [join]) :: rest]> scopes
  | _ => scopes
  end.

Definition settle_all (entries : list L) : list string := omap outcome entries.

(** The scope closed; [None] is the panic of a close with no scope open. *)
Definition block_scope_join (key : Key) (scopes : Scopes) : option (LaunchScope * Scopes) :=
  match scopes !! key with
  | Some (scope :: rest) =>
      Some (scope, if decide (rest = []) then delete key scopes else <[key := rest]> scopes)
  | _ => None
  end.

(** A process that goes on, or that has written its reports and exits. *)
Inductive AfterFaults : Type :=
| GoesOn
| ExitsReporting (reports : list string).

Definition exit_on_faults (faults : list string) : AfterFaults :=
  match faults with [] => GoesOn | _ => ExitsReporting faults end.

(** [None] is the panic of a fault with nothing to report. *)
Definition fault_current_fiber (key : Key) (own_report : string) (scopes : Scopes)
    : option (list string) * Scopes :=
  let faults :=
    match scopes !! key with
    | Some stack => stack ≫= λ scope, settle_all (entries scope)
    | None => [own_report]
    end in
  (match exit_on_faults faults with ExitsReporting reports => Some reports | GoesOn => None end,
   delete key scopes).

(** ** The operations of a worker, as a trace *)

Inductive Op : Type :=
| Enter
| Register (join : L)
| Join.

(** What the closes settle, with the fiber that closes. *)
Fixpoint run (trace : list (Key * Op)) (scopes : Scopes) : option (list (Key * list L) * Scopes) :=
  match trace with
  | [] => Some ([], scopes)
  | (key, Enter) :: trace => run trace (block_scope_enter key scopes)
  | (key, Register join) :: trace => run trace (register key join scopes)
  | (key, Join) :: trace =>
      '(scope, scopes) ← block_scope_join key scopes;
      '(log, scopes) ← run trace scopes;
      Some ((key, entries scope) :: log, scopes)
  end.

(** ** Blocks as the code generator brackets them *)

(** What a block does with its scope: it launches, and it runs the blocks inside it. *)
Inductive Block : Type := mkBlock (body : list (L + Block)).

Fixpoint trace_of (block : Block) : list Op :=
  match block with
  | mkBlock body => Enter :: (body ≫= λ s, match s with inl l => [Register l] | inr b => trace_of b end) ++ [Join]
  end.

Definition step_trace (s : L + Block) : list Op := match s with inl l => [Register l] | inr b => trace_of b end.

Definition launches (body : list (L + Block)) : list L := omap (λ s, match s with inl l => Some l | inr _ => None end) body.

(** The launches each close settles: those of a block after those of the blocks in it. *)
Fixpoint joined (block : Block) : list (list L) :=
  match block with
  | mkBlock body => (body ≫= λ s, match s with inl _ => [] | inr b => joined b end) ++ [launches body]
  end.

Definition step_joined (s : L + Block) : list (list L) := match s with inl _ => [] | inr b => joined b end.

(** ** One fiber at a time *)

Definition own {A} (key : Key) (xs : list (Key * A)) : list A :=
  omap (λ x, if decide (x.1 = key) then Some x.2 else None) xs.

(** The operations of one fiber on its own stack. *)
Fixpoint run_own (trace : list Op) (stack : list LaunchScope) : option (list (list L) * list LaunchScope) :=
  match trace with
  | [] => Some ([], stack)
  | Enter :: trace => run_own trace (mkLaunchScope [] :: stack)
  | Register join :: trace =>
      run_own trace match stack with scope :: rest => mkLaunchScope (entries scope ++ [join]) :: rest | [] => [] end
  | Join :: trace =>
      match stack with
      | scope :: rest => '(log, stack) ← run_own trace rest; Some (entries scope :: log, stack)
      | [] => None
      end
  end.

(** No stack is empty. *)
Definition tidy (scopes : Scopes) : Prop := ∀ key, scopes !! key ≠ Some [].

Definition stack_of (scopes : Scopes) (key : Key) : list LaunchScope := default [] (scopes !! key).

Lemma own_cons_eq {A} key (x : A) xs : own key ((key, x) :: xs) = x :: own key xs.
Proof. unfold own. simpl. by rewrite decide_True. Qed.

Lemma own_cons_ne {A} key key' (x : A) xs : key' ≠ key → own key ((key', x) :: xs) = own key xs.
Proof. intros H. unfold own. simpl. by rewrite decide_False. Qed.

Lemma tidy_enter key scopes : tidy scopes → tidy (block_scope_enter key scopes).
Proof.
  intros H k. unfold block_scope_enter. destruct (decide (k = key)) as [->|Hk].
  - by rewrite lookup_insert_eq.
  - rewrite lookup_insert_ne by done. apply H.
Qed.

Lemma tidy_register key join scopes : tidy scopes → tidy (register key join scopes).
Proof.
  intros H k. unfold register. destruct (scopes !! key) as [[|scope rest]|] eqn:E; [apply H| |apply H].
  destruct (decide (k = key)) as [->|Hk]; [by rewrite lookup_insert_eq|]. rewrite lookup_insert_ne by done. apply H.
Qed.

Lemma tidy_join key scopes scope scopes' :
  tidy scopes → block_scope_join key scopes = Some (scope, scopes') → tidy scopes'.
Proof.
  intros H. unfold block_scope_join. destruct (scopes !! key) as [[|s rest]|]; [done| |done]. intros [= _ <-] k.
  destruct (decide (k = key)) as [->|Hk].
  - destruct (decide (rest = [])); [by rewrite lookup_delete_eq|]. rewrite lookup_insert_eq. congruence.
  - destruct (decide (rest = [])); [rewrite lookup_delete_ne by done|rewrite lookup_insert_ne by done]; apply H.
Qed.

Lemma stack_of_enter key scopes k :
  stack_of (block_scope_enter key scopes) k
  = if decide (k = key) then mkLaunchScope [] :: stack_of scopes key else stack_of scopes k.
Proof.
  unfold stack_of, block_scope_enter. destruct (decide (k = key)) as [->|Hk].
  - by rewrite lookup_insert_eq.
  - by rewrite lookup_insert_ne.
Qed.

Lemma stack_of_register key join scopes k :
  stack_of (register key join scopes) k
  = if decide (k = key)
    then match stack_of scopes key with s :: rest => mkLaunchScope (entries s ++ [join]) :: rest | [] => [] end
    else stack_of scopes k.
Proof.
  unfold stack_of, register. destruct (scopes !! key) as [[|s rest]|] eqn:E; simpl;
    destruct (decide (k = key)) as [->|Hk]; rewrite ?E, ?lookup_insert_eq, ?lookup_insert_ne by done; done.
Qed.

Lemma block_scope_join_spec key scopes :
  match stack_of scopes key with
  | [] => block_scope_join key scopes = None
  | scope :: rest => ∃ scopes', block_scope_join key scopes = Some (scope, scopes') ∧
      ∀ k, stack_of scopes' k = if decide (k = key) then rest else stack_of scopes k
  end.
Proof.
  unfold stack_of at 1, block_scope_join. destruct (scopes !! key) as [[|s rest]|] eqn:E; [done| |done].
  simpl. eexists. split; [done|]. intros k. unfold stack_of.
  destruct (decide (rest = [])) as [->|Hr]; destruct (decide (k = key)) as [->|Hk];
    rewrite ?lookup_delete_eq, ?lookup_insert_eq, ?lookup_delete_ne, ?lookup_insert_ne by done; done.
Qed.

(** A trace runs exactly as each of its fibers would alone. *)
Lemma run_keys trace scopes :
  tidy scopes →
  (∀ k, ∃ log stack, run_own (own k trace) (stack_of scopes k) = Some (log, stack)) →
  ∃ log scopes', run trace scopes = Some (log, scopes') ∧ tidy scopes' ∧
    ∀ k, run_own (own k trace) (stack_of scopes k) = Some (own k log, stack_of scopes' k).
Proof.
  revert scopes. induction trace as [|[key op] trace IH]; intros scopes Ht Hown; [by exists [], scopes|].
  assert (∀ scopes' : Scopes, (∀ k, k ≠ key → stack_of scopes' k = stack_of scopes k) →
    ∀ k, k ≠ key → run_own (own k trace) (stack_of scopes' k) = run_own (own k ((key, op) :: trace)) (stack_of scopes k)) as Hother.
  { intros scopes' Hs k Hk. by rewrite own_cons_ne, Hs by done. }
  assert (∀ scopes' : Scopes, (∀ k, k ≠ key → stack_of scopes' k = stack_of scopes k) →
    (∃ log stack, run_own (own key trace) (stack_of scopes' key) = Some (log, stack)) →
    ∀ k, ∃ log stack, run_own (own k trace) (stack_of scopes' k) = Some (log, stack)) as Hall.
  { intros scopes' Hs Hk k. destruct (decide (k = key)) as [->|Hne]; [done|]. rewrite (Hother _ Hs _ Hne). apply Hown. }
  destruct (Hown key) as (log0&stack0&Hkey). rewrite own_cons_eq in Hkey. destruct op as [|join|]; cbn [run run_own] in *.
  - assert (∀ k, k ≠ key → stack_of (block_scope_enter key scopes) k = stack_of scopes k) as Hs
      by (intros k Hk; by rewrite stack_of_enter, decide_False).
    assert (stack_of (block_scope_enter key scopes) key = mkLaunchScope [] :: stack_of scopes key) as Hk
      by (by rewrite stack_of_enter, decide_True).
    destruct (IH _ (tidy_enter _ _ Ht) (Hall _ Hs ltac:(rewrite Hk; eauto))) as (log&scopes'&Hr&Ht'&Hlog).
    exists log, scopes'. split; [done|]. split; [done|]. intros k. destruct (decide (k = key)) as [->|Hne].
    + rewrite own_cons_eq. cbn [run_own]. by rewrite <-Hk, Hlog.
    + by rewrite <-(Hother _ Hs _ Hne).
  - assert (∀ k, k ≠ key → stack_of (register key join scopes) k = stack_of scopes k) as Hs
      by (intros k Hk; by rewrite stack_of_register, decide_False).
    pose proof (stack_of_register key join scopes key) as Hk. rewrite decide_True in Hk by done.
    destruct (IH _ (tidy_register _ _ _ Ht) (Hall _ Hs ltac:(rewrite Hk; eauto))) as (log&scopes'&Hr&Ht'&Hlog).
    exists log, scopes'. split; [done|]. split; [done|]. intros k. destruct (decide (k = key)) as [->|Hne].
    + rewrite own_cons_eq. cbn [run_own]. by rewrite <-Hk, Hlog.
    + by rewrite <-(Hother _ Hs _ Hne).
  - pose proof (block_scope_join_spec key scopes) as Hj. destruct (stack_of scopes key) as [|scope rest] eqn:Est; [done|].
    destruct Hj as (scopes1&Hj&Hst).
    assert (∀ k, k ≠ key → stack_of scopes1 k = stack_of scopes k) as Hs by (intros k Hk; by rewrite Hst, decide_False).
    pose proof (Hst key) as Hk. rewrite decide_True in Hk by done.
    apply bind_Some in Hkey as ([log1 stack1]&Hkey&_).
    destruct (IH _ (tidy_join _ _ _ _ Ht Hj) (Hall _ Hs ltac:(rewrite Hk; eauto))) as (log&scopes'&Hr&Ht'&Hlog).
    exists ((key, entries scope) :: log), scopes'. split; [rewrite Hj; simpl; by rewrite Hr|]. split; [done|].
    intros k. destruct (decide (k = key)) as [->|Hne].
    + rewrite !own_cons_eq, Est. cbn [run_own]. by rewrite <-Hk, Hlog.
    + rewrite (own_cons_ne k key (entries scope)) by done. by rewrite <-(Hother _ Hs _ Hne).
Qed.

(** ** A fiber's blocks *)

Lemma run_own_app t t' stack :
  run_own (t ++ t') stack
  = '(log, stack) ← run_own t stack; '(log', stack) ← run_own t' stack; Some (log ++ log', stack).
Proof.
  revert stack. induction t as [|[|join|] t IH]; intros stack; cbn [app run_own].
  - simpl. by destruct (run_own t' stack) as [[]|].
  - apply IH.
  - apply IH.
  - destruct stack as [|scope rest]; [done|]. rewrite IH. destruct (run_own t rest) as [[log st]|]; [|done].
    simpl. by destruct (run_own t' st) as [[]|].
Qed.

Lemma run_block b stack : run_own (trace_of b) stack = Some (joined b, stack).
Proof.
  revert b stack. fix IH 1. intros [body] stack. cbn [trace_of joined run_own].
  assert (∀ scope, run_own (body ≫= step_trace) (scope :: stack)
    = Some (body ≫= step_joined, mkLaunchScope (entries scope ++ launches body) :: stack)) as Hbody.
  { induction body as [|[l|b] body IHb]; intros scope.
    - cbn. rewrite app_nil_r. by destruct scope.
    - change (run_own (Register l :: (body ≫= step_trace)) (scope :: stack)
        = Some (body ≫= step_joined, mkLaunchScope (entries scope ++ l :: launches body) :: stack)).
      cbn [run_own]. rewrite IHb. cbn [entries]. by rewrite <-app_assoc.
    - change (run_own (trace_of b ++ (body ≫= step_trace)) (scope :: stack)
        = Some (joined b ++ (body ≫= step_joined), mkLaunchScope (entries scope ++ launches body) :: stack)).
      rewrite run_own_app, IH. simpl. by rewrite IHb. }
  change (run_own ((body ≫= step_trace) ++ [Join]) (mkLaunchScope [] :: stack)
    = Some ((body ≫= step_joined) ++ [launches body], stack)).
  rewrite run_own_app, Hbody. done.
Qed.

Lemma run_blocks bs stack : run_own (bs ≫= trace_of) stack = Some (bs ≫= joined, stack).
Proof.
  induction bs as [|b bs IH]; [done|].
  change (run_own (trace_of b ++ (bs ≫= trace_of)) stack = Some (joined b ++ (bs ≫= joined), stack)).
  rewrite run_own_app, run_block. simpl. by rewrite IH.
Qed.

(** C14: whatever way the fibers of a worker interleave, every close of a scope settles
    exactly the launches its own block made, in launch order, after the blocks inside it
    have settled theirs; no close finds its scope missing, and once the blocks of all
    fibers have closed no scope is left. *)
Theorem scopes_isolated (trace : list (Key * Op)) (blocks : Key → list Block)
    (H : ∀ key, own key trace = blocks key ≫= trace_of) :
  ∃ log, run trace ∅ = Some (log, ∅) ∧ ∀ key, own key log = blocks key ≫= joined.
Proof.
  destruct (run_keys trace ∅) as (log&scopes&Hr&Ht&Hlog).
  - intros key. by rewrite lookup_empty.
  - intros key. rewrite H, run_blocks. eauto.
  - exists log. assert (∀ key, own key log = blocks key ≫= joined ∧ stack_of scopes key = []) as Hk.
    { intros key. specialize (Hlog key). rewrite H, run_blocks in Hlog. by injection Hlog as -> <-. }
    split; [|intros; apply Hk]. rewrite Hr. do 2 f_equal. apply map_empty. intros key.
    destruct (Hk key) as [_ Hs]. specialize (Ht key). unfold stack_of in Hs. destruct (scopes !! key); [|done].
    simpl in Hs. by subst.
Qed.
End launches.

Arguments Op : clear implicits.
Arguments Block : clear implicits.

(** Two fibers whose scopes are open at once. *)
Definition two_fibers : list (Key * Op nat) :=
  [(Some 1%nat, Enter); (Some 2%nat, Enter); (Some 1%nat, Register 10%nat); (Some 2%nat, Register 20%nat);
   (Some 1%nat, Enter); (Some 1%nat, Register 11%nat); (Some 2%nat, Join); (Some 1%nat, Join);
   (Some 1%nat, Register 12%nat); (Some 1%nat, Join)].

Definition two_blocks (key : Key) : list (Block nat) :=
  if decide (key = Some 1%nat) then [mkBlock [inl 10%nat; inr (mkBlock [inl 11%nat]); inl 12%nat]]
  else if decide (key = Some 2%nat) then [mkBlock [inl 20%nat]] else [].

Example scopes_isolated_witness :
  (∀ key, own key two_fibers = two_blocks key ≫= trace_of) ∧
  ∃ log, run two_fibers ∅ = Some (log, ∅) ∧ own (Some 1%nat) log = [[11%nat]; [10%nat; 12%nat]].
Proof.
  assert (∀ key, own key two_fibers = two_blocks key ≫= trace_of) as H.
  { intros key. unfold two_blocks. destruct (decide (key = Some 1%nat)) as [->|H1]; [by vm_compute|].
    destruct (decide (key = Some 2%nat)) as [->|H2]; [by vm_compute|].
    unfold two_fibers. by rewrite !own_cons_ne by congruence. }
  split; [exact H|]. destruct (scopes_isolated two_fibers two_blocks H) as (log&Hr&Hl).
  exists log. split; [exact Hr|]. rewrite Hl. by vm_compute.
Defined.

(** A test case that aborts inside a launching block closes no scope, and its fiber id is
    the next one handed out: a fault of the next case reports the launches of the first. *)
Example aborted_scope_survives :
  let outcome (l : nat) := if decide (l = 1)%nat then Some "first case" else Some "second case" in
  let after_abort := register (Some 3%nat) 1%nat (block_scope_enter (Some 3%nat) ∅) in
  let next_case := register (Some 3%nat) 2%nat (block_scope_enter (Some 3%nat) after_abort) in
  (fault_current_fiber outcome (Some 3%nat) "second case" next_case).1 = Some ["second case"; "first case"].
Proof. by vm_compute. Qed.
