(* ===== verification/Scheduler.v ===== *)
(** * The fiber scheduler of a worker: [quilon-rt/src/scheduler.rs]

    A worker's slab of fibers, its run queue, its timers and its readiness waits, every
    operation on them, and the loop of a worker as a machine whose environment chooses
    what a resumed fiber does and what the reactor reports.  A coroutine is opaque (the
    context switch is a third-party library), instants and durations are integers, a
    reactor token is a natural number.  [None] is a panic of the code.  [free] holds the
    ids to reuse, the last one released first. *)

From S2P Require Import Prelude Machine.
Open Scope Z_scope.

Definition Token : Type := nat.
Definition Instant : Type := Z.

Inductive Park : Type :=
| Sleep (deadline : Instant)
| Readiness (token : Token)
| ReadinessOrDeadline (token : Token) (deadline : Instant)
| CaseAborted
| AbortTrapped (report : string).

Inductive CoroutineResult : Type :=
| Yield (park : Park)
| Return.

Section scheduler.
(** A coroutine with the guard of its stack. *)
Context {Fiber : Type}.

Record Scheduler : Type := mkScheduler {
  fibers : list (option Fiber);
  free : list nat;
  ready : list nat;
  timers : list (Instant * nat);
  readiness_waiters : gmap Token nat;
  readiness_deadlines : list (Instant * Token * nat);
  background_tokens : gset Token
}.

Definition new : Scheduler := mkScheduler [] [] [] [] ∅ [] ∅.

Definition with_fibers (s : Scheduler) (fibers : list (option Fiber)) : Scheduler :=
  mkScheduler fibers (free s) (ready s) (timers s) (readiness_waiters s) (readiness_deadlines s) (background_tokens s).
Definition with_free (s : Scheduler) (free : list nat) : Scheduler :=
  mkScheduler (fibers s) free (ready s) (timers s) (readiness_waiters s) (readiness_deadlines s) (background_tokens s).
Definition with_ready (s : Scheduler) (ready : list nat) : Scheduler :=
  mkScheduler (fibers s) (free s) ready (timers s) (readiness_waiters s) (readiness_deadlines s) (background_tokens s).
Definition with_timers (s : Scheduler) (timers : list (Instant * nat)) : Scheduler :=
  mkScheduler (fibers s) (free s) (ready s) timers (readiness_waiters s) (readiness_deadlines s) (background_tokens s).
Definition with_waiters (s : Scheduler) (waiters : gmap Token nat) : Scheduler :=
  mkScheduler (fibers s) (free s) (ready s) (timers s) waiters (readiness_deadlines s) (background_tokens s).
Definition with_deadlines (s : Scheduler) (deadlines : list (Instant * Token * nat)) : Scheduler :=
  mkScheduler (fibers s) (free s) (ready s) (timers s) (readiness_waiters s) deadlines (background_tokens s).

(** ** The slab *)

Definition reserve_id (s : Scheduler) : nat * Scheduler :=
  match free s with
  | id :: rest => (id, with_free s rest)
  | [] => (length (fibers s), with_fibers s (fibers s ++ [None]))
  end.

(** [fibers[id] = fiber], which panics out of range. *)
Definition set_fiber (id : nat) (fiber : option Fiber) (s : Scheduler) : option Scheduler :=
  if (id <? length (fibers s))%nat then Some (with_fibers s (<[id := fiber]> (fibers s))) else None.

Definition release_id (id : nat) (s : Scheduler) : option Scheduler :=
  s ← set_fiber id None s; Some (with_free s (id :: free s)).

Definition ready_len (s : Scheduler) : nat := length (ready s).

Definition install_fiber (fiber : Fiber) (s : Scheduler) : option Scheduler :=
  let '(id, s) := reserve_id s in
  s ← set_fiber id (Some fiber) s; Some (with_ready s (ready s ++ [id])).

(** ** The run queue *)

(** The next ready fiber, moved out of the slab; [Some None] on an empty queue. *)
Definition pop_ready (s : Scheduler) : option (option (nat * Fiber * Scheduler)) :=
  match ready s with
  | [] => Some None
  | id :: rest =>
      match fibers s !! id with
      | Some (Some fiber) => Some (Some (id, fiber, with_ready (with_fibers s (<[id := None]> (fibers s))) rest))
      | _ => None
      end
  end.

(** Filing a fiber under what its resumption answered. *)
Definition after_resume (id : nat) (fiber : Fiber) (result : CoroutineResult) (s : Scheduler) : option Scheduler :=
  match result with
  | Yield (Sleep deadline) =>
      s ← set_fiber id (Some fiber) s; Some (with_timers s (timers s ++ [(deadline, id)]))
  | Yield (Readiness token) =>
      s ← set_fiber id (Some fiber) s; Some (with_waiters s (<[token := id]> (readiness_waiters s)))
  | Yield (ReadinessOrDeadline token deadline) =>
      s ← set_fiber id (Some fiber) s;
      let s := with_waiters s (<[token := id]> (readiness_waiters s)) in
      Some (with_deadlines s (readiness_deadlines s ++ [(deadline, token, id)]))
  | Yield CaseAborted | Yield (AbortTrapped _) => None
  | Return => release_id id s
  end.

Definition mark_background_readiness (token : Token) (s : Scheduler) : Scheduler :=
  mkScheduler (fibers s) (free s) (ready s) (timers s) (readiness_waiters s) (readiness_deadlines s)
    ({[token]} ∪ background_tokens s).

(** ** Waiting *)

(** [Iterator::min]. *)
Definition min_instant (instants : list Instant) : option Instant :=
  foldr (λ d acc, Some match acc with Some m => Z.min d m | None => d end) None instants.

Definition next_deadline (s : Scheduler) : option Instant :=
  min_instant ((timers s).*1 ++ (readiness_deadlines s).*1.*1).

Definition non_background_waiter (s : Scheduler) : bool :=
  existsb (λ token, negb (bool_decide (token ∈ background_tokens s))) (map_to_list (readiness_waiters s)).*1.

Definition saturating_duration_since (deadline now : Instant) : Z := Z.max 0 (deadline - now).

(** [None]: nothing is parked; [Some None]: block; [Some (Some d)]: wait at most [d]. *)
Definition idle_wait_plan (now : Instant) (s : Scheduler) : option (option Z) :=
  match next_deadline s, non_background_waiter s with
  | None, false => None
  | Some deadline, _ => Some (Some (saturating_duration_since deadline now))
  | None, true => Some None
  end.

(** [Vec::swap_remove]: the last element takes the place of the one removed. *)
Definition swap_remove {A} (i : nat) (l : list A) : list A :=
  match last l with
  | Some x => take (length l - 1) (<[i := x]> l)
  | None => l
  end.

(** [while i < l.len() { if due(l[i]) { l.swap_remove(i) } else { i += 1 } }], with what
    was removed in order. *)
Fixpoint sweep {A} (due : A → bool) (fuel i : nat) (l : list A) : option (list A * list A) :=
  match fuel with
  | O => None
  | S fuel =>
      match l !! i with
      | None => Some (l, [])
      | Some x =>
          if due x then '(rest, removed) ← sweep due fuel i (swap_remove i l); Some (rest, x :: removed)
          else sweep due fuel (S i) l
      end
  end.

(** One turn per entry, and one to see the end. *)
Definition sweep_all {A} (due : A → bool) (l : list A) : option (list A * list A) := sweep due (S (length l)) 0 l.

Definition sweep_due (now : Instant) (s : Scheduler) : option Scheduler :=
  '(rest, due) ← sweep_all (λ t, t.1 <=? now) (timers s);
  let s := with_ready (with_timers s rest) (ready s ++ due.*2) in
  '(rest, due) ← sweep_all (λ t, t.1.1 <=? now) (readiness_deadlines s);
  let s := with_deadlines s rest in
  let s := with_waiters s (foldl (λ waiters t, delete t.1.2 waiters) (readiness_waiters s) due) in
  Some (with_ready s (ready s ++ due.*2)).

(** A token the reactor reports wakes the fiber that waits for it, if one does. *)
Definition wake_token (s : Scheduler) (token : Token) : Scheduler :=
  match readiness_waiters s !! token with
  | Some id =>
      let s := with_waiters s (delete token (readiness_waiters s)) in
      let s := with_deadlines s (filter (λ t, t.2 ≠ id) (readiness_deadlines s)) in
      with_ready s (ready s ++ [id])
  | None => s
  end.

Definition wake_tokens (tokens : list Token) (s : Scheduler) : Scheduler := foldl wake_token s tokens.

(** ** The machine of a worker *)

(** [running] is the fiber the run queue is resuming; [guards] are the ids of the guarded
    coroutines in progress, which a fiber resumes itself. *)
Record WorkerState : Type := mkWorkerState {
  scheduler : Scheduler;
  running : option (nat * Fiber);
  guards : list nat
}.

Inductive event : Type :=
| Spawn (fiber : Fiber)
| Pop
| Resumed (result : CoroutineResult)
| GuardEnters
| GuardLeaves (id : nat)
| MarkBackground (token : Token)
| Wake (tokens : list Token)
| Sweep (now : Instant).

Inductive outcome : Type :=
| Next (s : WorkerState)
| Disabled
| Panics.

Definition next (w : WorkerState) (s : option Scheduler) : outcome :=
  match s with Some s => Next (mkWorkerState s (running w) (guards w)) | None => Panics end.

(** A fiber parks on a token only while no other fiber waits for it: a token belongs to
    one operation of one fiber.  Only a guarded coroutine yields the abort marks, and its
    guard sees them. *)
Definition may_answer (result : CoroutineResult) (s : Scheduler) : bool :=
  match result with
  | Yield (Readiness token) | Yield (ReadinessOrDeadline token _) =>
      bool_decide (readiness_waiters s !! token = None)
  | Yield CaseAborted | Yield (AbortTrapped _) => false
  | Yield (Sleep _) | Return => true
  end.

Definition step (e : event) (w : WorkerState) : outcome :=
  let s := scheduler w in
  match e with
  | Spawn fiber => next w (install_fiber fiber s)
  | Pop =>
      if running w then Disabled
      else
        match pop_ready s with
        | Some (Some (id, fiber, s)) => Next (mkWorkerState s (Some (id, fiber)) (guards w))
        | Some None => Disabled
        | None => Panics
        end
  | Resumed result =>
      match running w with
      | Some (id, fiber) =>
          if may_answer result s then next (mkWorkerState s None (guards w)) (after_resume id fiber result s)
          else Disabled
      | None => Disabled
      end
  | GuardEnters =>
      let '(id, s) := reserve_id s in Next (mkWorkerState s (running w) (id :: guards w))
  | GuardLeaves id =>
      if bool_decide (id ∈ guards w)
      then next (mkWorkerState s (running w) (filter (λ g, g ≠ id) (guards w))) (release_id id s)
      else Disabled
  | MarkBackground token => next w (Some (mark_background_readiness token s))
  | Wake tokens => next w (Some (wake_tokens tokens s))
  | Sweep now => next w (sweep_due now s)
  end.

#[export] Instance worker_machine : Machine event WorkerState :=
  λ e w, match step e w with Next w => Some w | _ => None end.

Definition start : WorkerState := mkWorkerState new None [].
End scheduler.

Arguments Scheduler : clear implicits.
Arguments WorkerState : clear implicits.
Arguments event : clear implicits.
