(* ===== verification/SchedulerProps.v ===== *)
(** * What the scheduler promises

    No fiber is lost and none is queued twice: every slot of the slab is at every moment
    in exactly one place - ready, timed, waiting, running, a guarded coroutine's or free.
    A sweep makes exactly the due fibers ready, and an idle worker waits exactly as long
    as its next fiber needs. *)

From S2P Require Import Prelude Machine Scheduler.
Open Scope Z_scope.

(** ** Sweeps *)

Lemma swap_remove_spec {A} (l : list A) i x :
  l !! i = Some x → x :: swap_remove i l ≡ₚ l ∧ take i (swap_remove i l) = take i l.
Proof.
  intros Hi. destruct l as [|y l _] using rev_ind; [done|]. unfold swap_remove.
  rewrite last_snoc, length_app. simpl. replace (length l + 1 - 1)%nat with (length l) by lia.
  pose proof (lookup_lt_Some _ _ _ Hi) as Hlt. rewrite length_app in Hlt. simpl in Hlt.
  destruct (decide (i = length l)) as [->|Hne].
  - rewrite list_lookup_middle in Hi by done. injection Hi as ->.
    rewrite list_insert_id by (by rewrite list_lookup_middle). rewrite take_app_length. split; [by rewrite Permutation_app_comm|by rewrite firstn_all].
  - rewrite lookup_app_l in Hi by lia. rewrite insert_app_l by lia.
    rewrite take_app_length' by (by rewrite length_insert).
    split; [|by rewrite take_insert_ge, take_app_le by lia].
    destruct (list_elem_of_split_length l i x Hi) as (l1&l2&->&->).
    replace (length l1) with (length l1 + 0)%nat by lia. rewrite insert_app_r. simpl. solve_Permutation.
Qed.

Lemma length_swap_remove {A} (l : list A) i x : l !! i = Some x → S (length (swap_remove i l)) = length l.
Proof. intros H. destruct (swap_remove_spec _ _ _ H) as [Hp _]. apply Permutation_length in Hp. done. Qed.

Lemma sweep_spec {A} (due : A → bool) fuel i l :
  (i ≤ length l < fuel + i)%nat → Forall (λ x, due x = false) (take i l) →
  ∃ rest removed, sweep due fuel i l = Some (rest, removed) ∧ rest ++ removed ≡ₚ l ∧
    Forall (λ x, due x = false) rest ∧ Forall (λ x, due x = true) removed.
Proof.
  revert i l. induction fuel as [|fuel IH]; intros i l Hf Hi; cbn [sweep].
  { lia. }
  destruct (l !! i) as [x|] eqn:E.
  - destruct (due x) eqn:Hx.
    + destruct (swap_remove_spec _ _ _ E) as [Hp Ht]. apply lookup_lt_Some in E as Hlt. pose proof (length_swap_remove _ _ _ E).
      destruct (IH i (swap_remove i l)) as (rest&removed&->&Hr&Hn&Hd); [lia|by rewrite Ht|].
      exists rest, (x :: removed). split; [done|]. split; [|by auto]. rewrite <-Hp, <-Hr. solve_Permutation.
    + apply lookup_lt_Some in E as Hlt. apply IH; [lia|]. rewrite (take_S_r _ _ _ E). apply Forall_app. auto.
  - apply lookup_ge_None in E. rewrite take_ge in Hi by done. exists l, []. rewrite app_nil_r. auto.
Qed.

Lemma sweep_all_spec {A} (due : A → bool) l :
  ∃ rest removed, sweep_all due l = Some (rest, removed) ∧ rest ++ removed ≡ₚ l ∧
    Forall (λ x, due x = false) rest ∧ Forall (λ x, due x = true) removed.
Proof. apply sweep_spec; [lia|constructor]. Qed.

(** A list split by a test, up to order. *)
Lemma split_by {A} (due : A → bool) l rest removed :
  rest ++ removed ≡ₚ l → Forall (λ x, due x = false) rest → Forall (λ x, due x = true) removed →
  rest ≡ₚ filter (λ x, due x = false) l ∧ removed ≡ₚ filter (λ x, due x = true) l.
Proof.
  intros Hp Hr Hd. rewrite <-Hp, !filter_app.
  assert (∀ b b' (xs : list A), b ≠ b' → Forall (λ x, due x = b) xs → filter (λ x, due x = b') xs = []) as Hnone.
  { intros b b' xs Hb H. induction H as [|x xs Hx H IH]; [done|]. rewrite filter_cons_False by congruence. done. }
  assert (∀ b (xs : list A), Forall (λ x, due x = b) xs → filter (λ x, due x = b) xs = xs) as Hall.
  { intros b xs H. induction H as [|x xs Hx H IH]; [done|]. rewrite filter_cons_True by done. by rewrite IH. }
  rewrite (Hall false rest), (Hall true removed), (Hnone true false removed), (Hnone false true rest) by done.
  by rewrite app_nil_r.
Qed.

Section props.
Context {Fiber : Type}.
Implicit Types (s : Scheduler Fiber) (w : WorkerState Fiber).

(** ** Every slot in one place *)

Definition waiting (waiters : gmap Token nat) : list nat := (map_to_list waiters).*2.
Definition queued s : list nat := ready s ++ (timers s).*2 ++ waiting (readiness_waiters s).
Definition resuming (r : option (nat * Fiber)) : list nat := match r with Some (id, _) => [id] | None => [] end.
Definition deadlines_ok (waiters : gmap Token nat) (deadlines : list (Instant * Token * nat)) : Prop :=
  NoDup deadlines.*1.*2 ∧ ∀ t, t ∈ deadlines → waiters !! t.1.2 = Some t.2.

(** The ids that stand in the queues, and those held elsewhere. *)
Record Slab s (elsewhere : list nat) : Prop := {
  slab_ids : queued s ++ elsewhere ++ free s ≡ₚ seq 0 (length (fibers s));
  slab_fibers id : id ∈ queued s ↔ ∃ fiber, fibers s !! id = Some (Some fiber);
  slab_deadlines : deadlines_ok (readiness_waiters s) (readiness_deadlines s)
}.

Definition Placed w : Prop := Slab (scheduler w) (resuming (running w) ++ guards w).

Lemma Slab_perm s elsewhere elsewhere' : elsewhere ≡ₚ elsewhere' → Slab s elsewhere → Slab s elsewhere'.
Proof. intros H []. split; [|done..]. by rewrite <-H. Qed.

Lemma Slab_in s elsewhere id : Slab s elsewhere → id ∈ elsewhere → (id < length (fibers s))%nat.
Proof.
  intros H Hid. assert (id ∈ seq 0 (length (fibers s))) as Hs.
  { rewrite <-(slab_ids _ _ H). apply elem_of_app. right. apply elem_of_app. by left. }
  apply elem_of_seq in Hs. lia.
Qed.

(** Ids put behind the queues keep their fibers; only the queues' contents move. *)
Lemma Slab_requeue s s' elsewhere :
  fibers s' = fibers s → free s' = free s → queued s' ≡ₚ queued s →
  deadlines_ok (readiness_waiters s') (readiness_deadlines s') → Slab s elsewhere → Slab s' elsewhere.
Proof.
  intros Hf Hfree Hq Hd [Hids Hfib _]. split; [by rewrite Hq, Hfree, Hf| |done]. intros id. by rewrite Hq, Hf.
Qed.

Lemma Slab_reserve s elsewhere :
  Slab s elsewhere → Slab (reserve_id s).2 ((reserve_id s).1 :: elsewhere).
Proof.
  intros [Hids Hfib Hd]. unfold reserve_id. destruct (free s) as [|id rest] eqn:E; split; try done.
  - cbn. rewrite E, length_app, seq_app, <-Hids. simpl.
    change (queued (with_fibers s (fibers s ++ [None]))) with (queued s). solve_Permutation.
  - intros id. change (queued (reserve_id s).2) with (queued s). simpl. rewrite Hfib. split; intros [c Hc]; exists c.
    + by apply lookup_app_l_Some.
    + apply lookup_app_Some in Hc as [?|[? Hc]]; [done|]. by destruct (id - length (fibers s))%nat as [|[]].
  - cbn. rewrite <-Hids. change (queued (with_free s rest)) with (queued s). solve_Permutation.
Qed.

Lemma set_fiber_in s id fiber : (id < length (fibers s))%nat →
  set_fiber id fiber s = Some (with_fibers s (<[id := fiber]> (fibers s))).
Proof. intros H. unfold set_fiber. by apply Nat.ltb_lt in H as ->. Qed.

(** An id held elsewhere is not queued. *)
Lemma Slab_disjoint s id elsewhere : Slab s (id :: elsewhere) → id ∉ queued s.
Proof.
  intros H Hq. pose proof (NoDup_seq 0 (length (fibers s))) as Hn. rewrite <-(slab_ids _ _ H) in Hn.
  apply NoDup_app in Hn as (_&Hn&_). apply (Hn id Hq). left.
Qed.

(** A held id is queued with its fiber. *)
Lemma Slab_queue s s' id fiber elsewhere :
  Slab s (id :: elsewhere) → fibers s' = <[id := Some fiber]> (fibers s) → free s' = free s →
  queued s' ≡ₚ id :: queued s → deadlines_ok (readiness_waiters s') (readiness_deadlines s') → Slab s' elsewhere.
Proof.
  intros H Hf Hfree Hq Hd. pose proof (Slab_in _ _ id H ltac:(left)) as Hlt. destruct H as [Hids Hfib _].
  split; [| |done].
  - rewrite Hq, Hfree, Hf, length_insert, <-Hids. solve_Permutation.
  - intros i. rewrite Hq, Hf, elem_of_cons, Hfib. destruct (decide (i = id)) as [->|Hi].
    + rewrite list_lookup_insert_eq by done. split; [eauto|auto].
    + rewrite list_lookup_insert_ne by done. naive_solver.
Qed.

(** A held id is released. *)
Lemma Slab_release s id elsewhere :
  Slab s (id :: elsewhere) → ∃ s', release_id id s = Some s' ∧ Slab s' elsewhere.
Proof.
  intros H. pose proof (Slab_in _ _ id H ltac:(left)) as Hlt. pose proof (Slab_disjoint _ _ _ H) as Hq.
  unfold release_id. rewrite set_fiber_in by done. eexists. split; [done|]. destruct H as [Hids Hfib Hd]. split; [| |done].
  - cbn. rewrite length_insert, <-Hids. change (queued (with_free _ _)) with (queued s). solve_Permutation.
  - intros i. change (queued (with_free _ _)) with (queued s). cbn. destruct (decide (i = id)) as [->|Hi].
    + rewrite list_lookup_insert_eq by done. split; [done|by intros []].
    + rewrite list_lookup_insert_ne by done. apply Hfib.
Qed.

(** A queued id is taken out, with its fiber. *)
Lemma Slab_dequeue s s' id elsewhere :
  Slab s elsewhere → fibers s' = <[id := None]> (fibers s) → free s' = free s →
  queued s ≡ₚ id :: queued s' → deadlines_ok (readiness_waiters s') (readiness_deadlines s') → Slab s' (id :: elsewhere).
Proof.
  intros [Hids Hfib _] Hf Hfree Hq Hd.
  assert (id ∉ queued s') as Hnot.
  { pose proof (NoDup_seq 0 (length (fibers s))) as Hn. rewrite <-Hids, Hq in Hn. apply NoDup_cons in Hn as [Hn _].
    intros Hin. apply Hn, elem_of_app. by left. }
  split; [| |done].
  - rewrite Hfree, Hf, length_insert, <-Hids, Hq. solve_Permutation.
  - intros i. destruct (decide (i = id)) as [->|Hi].
    + split; [done|]. rewrite Hf. intros [c Hc]. apply list_lookup_insert_Some in Hc as [(_&?&_)|[? _]]; done.
    + rewrite Hf, list_lookup_insert_ne, <-Hfib, Hq, elem_of_cons by done. naive_solver.
Qed.

(** ** Waits *)

Lemma waiting_insert waiters t id : waiters !! t = None → waiting (<[t := id]> waiters) ≡ₚ id :: waiting waiters.
Proof. intros H. unfold waiting. by rewrite map_to_list_insert. Qed.

Lemma waiting_delete waiters t id : waiters !! t = Some id → waiting waiters ≡ₚ id :: waiting (delete t waiters).
Proof. intros H. unfold waiting. by rewrite <-(map_to_list_delete waiters t id H). Qed.

Lemma deadlines_insert waiters deadlines t id :
  deadlines_ok waiters deadlines → waiters !! t = None → deadlines_ok (<[t := id]> waiters) deadlines.
Proof.
  intros [Hn Hd] Ht. split; [done|]. intros x Hx. rewrite lookup_insert_ne; [by apply Hd|].
  intros ->. apply Hd in Hx. congruence.
Qed.

Lemma deadlines_snoc waiters deadlines d t id :
  deadlines_ok waiters deadlines → waiters !! t = None →
  deadlines_ok (<[t := id]> waiters) (deadlines ++ [(d, t, id)]).
Proof.
  intros H Ht. pose proof (deadlines_insert _ _ _ id H Ht) as [_ Hd]. destruct H as [Hn Hd0]. split.
  - rewrite !fmap_app. apply NoDup_app. split; [done|]. split; [|apply NoDup_singleton].
    intros t' (p&->&(x&->&Hx)%list_elem_of_fmap)%list_elem_of_fmap E%list_elem_of_singleton. simpl in E.
    apply Hd0 in Hx. congruence.
  - intros x [Hx| ->%list_elem_of_singleton]%elem_of_app; [by apply Hd|]. apply lookup_insert_eq.
Qed.

Lemma deadlines_wake waiters deadlines t id :
  deadlines_ok waiters deadlines → waiters !! t = Some id →
  deadlines_ok (delete t waiters) (filter (λ x, x.2 ≠ id) deadlines).
Proof.
  intros [Hn Hd] Ht. split.
  - eapply (sublist_NoDup _ _ Hn). by do 2 apply fmap_sublist; apply sublist_filter.
  - intros x [Hx Hin]%list_elem_of_filter. apply Hd in Hin. rewrite lookup_delete_ne; [done|]. intros ->. congruence.
Qed.

Lemma deadlines_sweep due : ∀ waiters rest deadlines,
  deadlines_ok waiters deadlines → rest ++ due ≡ₚ deadlines →
  let waiters' := foldl (λ waiters t, delete t.1.2 waiters) waiters due in
  waiting waiters ≡ₚ due.*2 ++ waiting waiters' ∧ deadlines_ok waiters' rest.
Proof.
  induction due as [|[[d t] id] due IH]; intros waiters rest deadlines [Hn Hd] Hp.
  - rewrite app_nil_r in Hp. split; [done|]. split; [by rewrite Hp|]. intros x Hx. apply Hd. by rewrite <-Hp.
  - assert (waiters !! t = Some id) as Ht by (apply (Hd (d, t, id)); rewrite <-Hp; apply elem_of_app; right; left).
    assert (NoDup (rest ++ (d, t, id) :: due).*1.*2) as Hn' by (by rewrite Hp).
    rewrite !fmap_app in Hn'. cbn [fmap list_fmap] in Hn'. rewrite <-Permutation_middle in Hn'.
    apply NoDup_cons in Hn' as [Hnot Hn'].
    destruct (IH (delete t waiters) rest (rest ++ due)) as [Hw Hok]; [|done|].
    + split; [by rewrite !fmap_app|]. intros x Hx. rewrite lookup_delete_ne.
      * apply Hd. rewrite <-Hp. set_solver.
      * intros E. simpl in Hnot, E. apply Hnot. rewrite E, <-!fmap_app.
        apply list_elem_of_fmap. exists x.1. split; [done|]. apply list_elem_of_fmap. by exists x.
    + split; [|done]. rewrite (waiting_delete _ _ _ Ht), Hw. done.
Qed.

(** ** The operations keep the slab *)

Lemma install_slab fiber s elsewhere : Slab s elsewhere → ∃ s', install_fiber fiber s = Some s' ∧ Slab s' elsewhere.
Proof.
  intros H. apply Slab_reserve in H. unfold install_fiber. destruct (reserve_id s) as [id s1]. simpl in H.
  rewrite set_fiber_in by (by eapply Slab_in; [exact H|left]). eexists. split; [done|].
  eapply (Slab_queue s1 _ id); [exact H|done..| |apply H]. unfold queued. simpl. solve_Permutation.
Qed.

Lemma pop_slab s elsewhere :
  Slab s elsewhere →
  match pop_ready s with
  | None => False
  | Some None => ready s = []
  | Some (Some (id, fiber, s')) => Slab s' (id :: elsewhere) ∧ ready s = id :: ready s'
  end.
Proof.
  intros H. unfold pop_ready. destruct (ready s) as [|id rest] eqn:E; [done|].
  assert (id ∈ queued s) as Hid by (unfold queued; rewrite E; left).
  apply (slab_fibers _ _ H) in Hid as [fiber ->]. split; [|done].
  eapply (Slab_dequeue s); [exact H|done..| |apply H]. unfold queued. by rewrite E.
Qed.

Lemma after_resume_slab id fiber result s elsewhere :
  Slab s (id :: elsewhere) → may_answer result s = true →
  ∃ s', after_resume id fiber result s = Some s' ∧ Slab s' elsewhere.
Proof.
  intros H Hm. pose proof (Slab_in _ _ id H ltac:(left)) as Hlt. pose proof (slab_deadlines _ _ H) as Hd.
  destruct result as [[d|t|t d| |r]|]; cbn [after_resume may_answer] in *; try done.
  - rewrite set_fiber_in by done. eexists. split; [done|]. eapply (Slab_queue s _ id); [exact H|done..| |done].
    unfold queued. simpl. rewrite fmap_app. simpl. solve_Permutation.
  - apply bool_decide_eq_true in Hm. rewrite set_fiber_in by done. eexists. split; [done|].
    eapply (Slab_queue s _ id); [exact H|done..| |by apply deadlines_insert].
    unfold queued. simpl. rewrite waiting_insert by done. solve_Permutation.
  - apply bool_decide_eq_true in Hm. rewrite set_fiber_in by done. eexists. split; [done|].
    eapply (Slab_queue s _ id); [exact H|done..| |by apply deadlines_snoc].
    unfold queued. simpl. rewrite waiting_insert by done. solve_Permutation.
  - by apply Slab_release.
Qed.

Lemma wake_slab s tokens elsewhere : Slab s elsewhere → Slab (wake_tokens tokens s) elsewhere.
Proof.
  revert s. induction tokens as [|t tokens IH]; intros s H; [done|]. apply IH. unfold wake_token.
  destruct (readiness_waiters s !! t) as [id|] eqn:E; [|done]. apply (Slab_requeue s); [done..| | |exact H].
  - unfold queued. simpl. rewrite (waiting_delete _ _ _ E). solve_Permutation.
  - apply deadlines_wake; [apply H|done].
Qed.

(** The due timers and deadlines, and what a sweep leaves. *)
Lemma sweep_due_Some now s : ∃ rest_t due_t rest_d due_d,
  rest_t ++ due_t ≡ₚ timers s ∧ Forall (λ t, (t.1 <=? now) = false) rest_t ∧ Forall (λ t, (t.1 <=? now) = true) due_t ∧
  rest_d ++ due_d ≡ₚ readiness_deadlines s ∧ Forall (λ t, (t.1.1 <=? now) = false) rest_d ∧
  Forall (λ t, (t.1.1 <=? now) = true) due_d ∧
  sweep_due now s = Some (mkScheduler (fibers s) (free s) ((ready s ++ due_t.*2) ++ due_d.*2) rest_t
    (foldl (λ waiters t, delete t.1.2 waiters) (readiness_waiters s) due_d) rest_d (background_tokens s)).
Proof.
  unfold sweep_due. destruct (sweep_all_spec (λ t, t.1 <=? now) (timers s)) as (rest_t&due_t&->&Ht&Hrt&Hdt).
  destruct (sweep_all_spec (λ t, t.1.1 <=? now) (readiness_deadlines s)) as (rest_d&due_d&E&Hd&Hrd&Hdd).
  exists rest_t, due_t, rest_d, due_d. split_and!; try done. cbn [mbind option_bind readiness_deadlines with_ready with_timers]. by rewrite E.
Qed.

Lemma sweep_slab now s elsewhere : Slab s elsewhere → ∃ s', sweep_due now s = Some s' ∧ Slab s' elsewhere.
Proof.
  intros H. destruct (sweep_due_Some now s) as (rest_t&due_t&rest_d&due_d&Ht&_&_&Hd&_&_&->). eexists. split; [done|].
  destruct (deadlines_sweep due_d _ rest_d _ (slab_deadlines _ _ H) Hd) as [Hw Hok].
  apply (Slab_requeue s); [done..| |exact Hok|exact H]. unfold queued. cbn. rewrite Hw, <-Ht, fmap_app. solve_Permutation.
Qed.

Lemma Slab_start : Placed (start (Fiber := Fiber)).
Proof.
  split; [done| |].
  - intros id. split; [by intros ?%elem_of_nil|by intros []].
  - split; [constructor|by intros t ?%elem_of_nil].
Qed.

Lemma guards_perm (id : nat) (guards : list nat) : id ∈ guards → NoDup guards → guards ≡ₚ id :: filter (λ g, g ≠ id) guards.
Proof.
  intros Hid Hn. apply list_elem_of_split in Hid as (l1&l2&->). rewrite filter_app, filter_cons_False by auto.
  assert (∀ l : list nat, id ∉ l → filter (λ g, g ≠ id) l = l) as Hkeep.
  { induction l as [|x l IH]; [done|]. intros [Hx Hl]%not_elem_of_cons. rewrite filter_cons_True by auto. by rewrite IH. }
  apply NoDup_app in Hn as (_&Hl1&Hn). apply NoDup_cons in Hn as [Hl2 _].
  rewrite !Hkeep; [solve_Permutation|done|]. intros Hin. by apply (Hl1 id Hin); left.
Qed.

Lemma step_placed e w : Placed w → match step e w with Next w' => Placed w' | Disabled => True | Panics => False end.
Proof.
  unfold Placed. intros H. destruct w as [s r g]. cbn [scheduler running guards] in H. destruct e as [fiber| |result| |id|t|ts|now];
    cbn [step scheduler running guards].
  - by destruct (install_slab fiber _ _ H) as (s'&->&?).
  - destruct r as [[]|]; [done|]. pose proof (pop_slab _ _ H) as Hp. destruct (pop_ready s) as [[[[id fiber] s']|]|]; [|done..].
    apply Hp.
  - destruct r as [[id fiber]|]; [|done]. destruct (may_answer result s) eqn:Hm; [|done].
    by destruct (after_resume_slab id fiber result s g H Hm) as (s'&->&?).
  - apply Slab_reserve in H. destruct (reserve_id s) as [id s']. cbn in *. eapply Slab_perm, H. solve_Permutation.
  - case_bool_decide as Hid; [|done].
    assert (NoDup g) as Hn.
    { pose proof (NoDup_seq 0 (length (fibers s))) as Hn. rewrite <-(slab_ids _ _ H) in Hn.
      apply NoDup_app in Hn as (_&_&Hn). apply NoDup_app in Hn as (Hn&_&_). by apply NoDup_app in Hn as (_&_&Hn). }
    destruct (Slab_release s id (resuming r ++ filter (λ g, g ≠ id) g)) as (s'&->&?); [|done].
    eapply Slab_perm, H. rewrite (guards_perm id g) at 1 by done. solve_Permutation.
  - destruct H. by split.
  - by apply wake_slab.
  - by destruct (sweep_slab now _ _ H) as (s'&->&?).
Qed.

Lemma run_placed events w : Machine.run events start = Some w → Placed w.
Proof.
  intros H. eapply (run_invariant Placed); [|apply Slab_start|exact H]. intros e w1 w2 H1. unfold exec, worker_machine.
  pose proof (step_placed e w1 H1). destruct (step e w1); [|done..]. by intros [= <-].
Qed.

(** ** Waiting *)

Lemma deleted_all {A} (due : list (A * Token * nat)) (waiters : gmap Token nat) t :
  foldl (λ waiters x, delete x.1.2 waiters) waiters due !! t = None ↔
  waiters !! t = None ∨ ∃ x, x ∈ due ∧ x.1.2 = t.
Proof.
  revert waiters. induction due as [|y due IH]; intros waiters; simpl.
  - split; [by left|]. intros [?|(x&Hx%elem_of_nil&_)]; done.
  - rewrite IH, lookup_delete_None. setoid_rewrite elem_of_cons. naive_solver.
Qed.

Lemma eq_reflexivity {A} (xs ys : list A) : xs = ys → xs ≡ₚ ys.
Proof. by intros ->. Qed.

Lemma min_instant_spec ds :
  match min_instant ds with
  | Some m => m ∈ ds ∧ ∀ d, d ∈ ds → m <= d
  | None => ds = []
  end.
Proof.
  induction ds as [|d ds IH]; [done|].
  change (min_instant (d :: ds)) with (Some match min_instant ds with Some m => Z.min d m | None => d end).
  destruct (min_instant ds) as [m|].
  - destruct IH as [Hm Hl]. split.
    + destruct (Z.min_spec d m) as [[_ ->]|[_ ->]]; [left|by right].
    + intros x [->|Hx]%elem_of_cons; [lia|]. specialize (Hl x Hx). lia.
  - subst. split; [left|]. intros x ->%list_elem_of_singleton. lia.
Qed.

Lemma next_deadline_Some s m :
  next_deadline s = Some m →
  (∀ d, (∃ t, t ∈ timers s ∧ t.1 = d) ∨ (∃ t, t ∈ readiness_deadlines s ∧ t.1.1 = d) → m <= d) ∧
  ((∃ t, t ∈ timers s ∧ t.1 = m) ∨ (∃ t, t ∈ readiness_deadlines s ∧ t.1.1 = m)).
Proof.
  unfold next_deadline. intros E. pose proof (min_instant_spec ((timers s).*1 ++ (readiness_deadlines s).*1.*1)) as Hm.
  rewrite E in Hm. assert (∀ d, d ∈ (timers s).*1 ++ (readiness_deadlines s).*1.*1 ↔
    (∃ t, t ∈ timers s ∧ t.1 = d) ∨ (∃ t, t ∈ readiness_deadlines s ∧ t.1.1 = d)) as Hin.
  { intros d. rewrite elem_of_app, !list_elem_of_fmap. setoid_rewrite list_elem_of_fmap. naive_solver. }
  destruct Hm as [Hm Hl]. split; [intros d Hd; by apply Hl, Hin|by apply Hin].
Qed.

Lemma next_deadline_None s : next_deadline s = None → timers s = [] ∧ readiness_deadlines s = [].
Proof.
  unfold next_deadline. intros E. pose proof (min_instant_spec ((timers s).*1 ++ (readiness_deadlines s).*1.*1)) as Hm.
  rewrite E in Hm. apply app_eq_nil in Hm as [H1 H2].
  apply fmap_nil_inv in H1, H2. by apply fmap_nil_inv in H2.
Qed.

(** C9: whatever fibers do and whatever the reactor and the clock report, every slot of
    the slab is in exactly one place - ready, timed, waiting for a token, running, a guarded
    coroutine's or free - so no fiber is lost and none is resumed twice, a deadline's fiber
    still waits for its token, and no operation of the scheduler panics. *)
Theorem fibers_never_lost (events : list (event Fiber)) w (H : Machine.run events start = Some w) :
  (∀ id, (id < length (fibers (scheduler w)))%nat ↔
     id ∈ queued (scheduler w) ++ resuming (running w) ++ guards w ++ free (scheduler w)) ∧
  NoDup (queued (scheduler w) ++ resuming (running w) ++ guards w ++ free (scheduler w)) ∧
  (∀ id, id ∈ queued (scheduler w) ↔ ∃ fiber, fibers (scheduler w) !! id = Some (Some fiber)) ∧
  (∀ d t id, (d, t, id) ∈ readiness_deadlines (scheduler w) → readiness_waiters (scheduler w) !! t = Some id) ∧
  ∀ e, step e w ≠ Panics.
Proof.
  pose proof (run_placed _ _ H) as HP. pose proof (slab_ids _ _ HP) as Hids. rewrite <-app_assoc in Hids.
  split; [|split; [|split; [|split]]].
  - intros id. rewrite Hids, elem_of_seq. lia.
  - rewrite Hids. apply NoDup_seq.
  - apply HP.
  - intros d t id Hd. by apply (slab_deadlines _ _ HP) in Hd.
  - intros e E. pose proof (step_placed e w HP) as Hs. by rewrite E in Hs.
Qed.

(** A sweep wakes exactly what is due.  The fibers whose timer or deadline has passed
    are put behind the ready ones, each once; the timers and deadlines left are those still
    to come; and a woken deadline no longer waits for its token. *)
Theorem sweep_exact (events : list (event Fiber)) w (now : Instant) (H : Machine.run events start = Some w) :
  let s := scheduler w in
  ∃ s' woken, sweep_due now s = Some s' ∧ ready s' = ready s ++ woken ∧
    woken ≡ₚ (filter (λ t, t.1 <= now) (timers s)).*2 ++ (filter (λ t, t.1.1 <= now) (readiness_deadlines s)).*2 ∧
    timers s' ≡ₚ filter (λ t, now < t.1) (timers s) ∧
    readiness_deadlines s' ≡ₚ filter (λ t, now < t.1.1) (readiness_deadlines s) ∧
    (∀ t, readiness_waiters s' !! t = None ↔
       readiness_waiters s !! t = None ∨ ∃ d id, (d, t, id) ∈ readiness_deadlines s ∧ d <= now).
Proof.
  intros s. destruct (sweep_due_Some now s) as (rest_t&due_t&rest_d&due_d&Ht&Hrt&Hdt&Hd&Hrd&Hdd&->).
  destruct (split_by _ _ _ _ Ht Hrt Hdt) as [Et1 Et2]. destruct (split_by _ _ _ _ Hd Hrd Hdd) as [Ed1 Ed2].
  exists (mkScheduler (fibers s) (free s) ((ready s ++ due_t.*2) ++ due_d.*2) rest_t
    (foldl (λ waiters t, delete t.1.2 waiters) (readiness_waiters s) due_d) rest_d (background_tokens s)), (due_t.*2 ++ due_d.*2).
  split; [done|]. split; [by rewrite app_assoc|]. split; [|split; [|split]].
  - rewrite Et2, Ed2. apply Permutation_app; apply fmap_Permutation; apply eq_reflexivity, list_filter_iff; intros x; apply Z.leb_le.
  - cbn [timers]. rewrite Et1. apply eq_reflexivity, list_filter_iff. intros x. apply Z.leb_gt.
  - cbn [readiness_deadlines]. rewrite Ed1. apply eq_reflexivity, list_filter_iff. intros x. apply Z.leb_gt.
  - intros t. cbn [readiness_waiters]. rewrite deleted_all. split; (intros [Hw|Hin]; [by left|right]).
    + destruct Hin as ([[d t'] id]&Hin&<-). exists d, id. rewrite Forall_forall in Hdd. specialize (Hdd _ Hin).
      split; [|by apply Z.leb_le]. rewrite <-Hd. apply elem_of_app. by right.
    + destruct Hin as (d&id&Hin&Hle). exists (d, t, id). split; [|done]. rewrite Ed2. apply list_elem_of_filter.
      split; [by apply Z.leb_le|done].
Qed.

(** C10: an idle worker waits as long as it has to.  With nothing ready and no fiber
    running it is told to stop only when every fiber left waits for a background token; it
    blocks without a limit only when some fiber waits for a token that is not and no timer
    runs; and told to wait at most [d], it finds a fiber due once [d] has passed, and none
    before. *)
Theorem idle_plan_exact (events : list (event Fiber)) w (now : Instant) (H : Machine.run events start = Some w)
    (Hidle : running w = None) (Hready : ready (scheduler w) = []) :
  let s := scheduler w in
  match idle_wait_plan now s with
  | None => ∀ id fiber, fibers s !! id = Some (Some fiber) →
      ∃ t, readiness_waiters s !! t = Some id ∧ t ∈ background_tokens s
  | Some None => timers s = [] ∧ readiness_deadlines s = [] ∧
      ∃ t id, readiness_waiters s !! t = Some id ∧ t ∉ background_tokens s
  | Some (Some d) => 0 <= d ∧
      (∃ s', sweep_due (now + d) s = Some s' ∧ ready s' ≠ []) ∧
      ∀ earlier, now <= earlier < now + d → ∃ s', sweep_due earlier s = Some s' ∧ ready s' = []
  end.
Proof.
  intros s. pose proof (run_placed _ _ H) as HP. fold s in HP, Hready. unfold idle_wait_plan.
  destruct (next_deadline s) as [m|] eqn:Em.
  - destruct (next_deadline_Some _ _ Em) as [Hleast Hsome].
    assert (∀ n, ∃ s', sweep_due n s = Some s' ∧ (ready s' = [] ↔ n < m)) as Hsweep.
    { intros n. destruct (sweep_due_Some n s) as (rest_t&due_t&rest_d&due_d&Ht&Hrt&Hdt&Hd&Hrd&Hdd&->).
      eexists. split; [done|]. cbn [ready]. rewrite Hready. split.
      - intros [[_ E1]%app_eq_nil E2]%app_eq_nil. apply fmap_nil_inv in E1 as ->. apply fmap_nil_inv in E2 as ->.
        rewrite app_nil_r in Ht, Hd. rewrite Forall_forall in Hrt. rewrite Forall_forall in Hrd.
        destruct Hsome as [([d id]&Hin&<-)|([[d t] id]&Hin&<-)].
        + rewrite <-Ht in Hin. apply Hrt, Z.leb_gt in Hin. done.
        + rewrite <-Hd in Hin. apply Hrd, Z.leb_gt in Hin. done.
      - intros Hn. rewrite Forall_forall in Hdt. rewrite Forall_forall in Hdd. destruct due_t as [|x due_t]; [destruct due_d as [|y due_d]; [done|]|].
        + assert (y ∈ readiness_deadlines s) as Hy by (rewrite <-Hd; apply elem_of_app; right; left).
          assert (m <= y.1.1) by (by apply Hleast; right; exists y).
          assert (y.1.1 <= n) by (apply Z.leb_le, Hdd; left). lia.
        + assert (x ∈ timers s) as Hx by (rewrite <-Ht; apply elem_of_app; right; left).
          assert (m <= x.1) by (by apply Hleast; left; exists x).
          assert (x.1 <= n) by (apply Z.leb_le, Hdt; left). lia. }
    unfold saturating_duration_since. split; [lia|]. split.
    + destruct (Hsweep (now + Z.max 0 (m - now))) as (s'&Hs&Hr). exists s'. split; [done|]. rewrite Hr. lia.
    + intros n Hn. destruct (Hsweep n) as (s'&Hs&Hr). exists s'. split; [done|]. apply Hr. lia.
  - apply next_deadline_None in Em as [Et Ed]. destruct (non_background_waiter s) eqn:Eb.
    + split; [done|]. split; [done|]. apply existsb_exists in Eb as (t&Ht&Hb).
      apply list_elem_of_In, list_elem_of_fmap in Ht as ([t' id]&->&Ht). apply elem_of_map_to_list in Ht.
      exists t', id. split; [done|]. by apply negb_true_iff, bool_decide_eq_false in Hb.
    + intros id fiber Hid. assert (id ∈ queued s) as Hq by (apply (slab_fibers _ _ HP); eauto).
      unfold queued in Hq. rewrite Hready, Et in Hq. simpl in Hq.
      apply list_elem_of_fmap in Hq as ([t id']&->&Ht). apply elem_of_map_to_list in Ht as Hw. exists t.
      split; [done|]. destruct (decide (t ∈ background_tokens s)) as [|Hn]; [done|].
      assert (non_background_waiter s = true) as Ht'; [|congruence]. apply existsb_exists. exists t. split.
      * apply list_elem_of_In, list_elem_of_fmap. by exists (t, id').
      * by apply negb_true_iff, bool_decide_eq_false.
Qed.
End props.

(** Two fibers: one sleeps until 5, the other waits for token 7 until 9; a guarded
    coroutine is entered and left meanwhile. *)
Definition two_parked : list (event nat) :=
  [Spawn 10%nat; Spawn 20%nat; Pop; GuardEnters; Resumed (Yield (Sleep 5)); GuardLeaves 2%nat; Pop;
   Resumed (Yield (ReadinessOrDeadline 7%nat 9))].

Definition parked : WorkerState nat :=
  mkWorkerState (mkScheduler [Some 10; Some 20; None]%nat [2%nat] [] [(5, 0%nat)] {[7%nat := 1%nat]}
    [(9, 7%nat, 1%nat)] ∅) None [].

Example fibers_never_lost_witness :
  Machine.run two_parked start = Some parked ∧ ∀ e, step e parked ≠ Panics.
Proof.
  assert (Machine.run two_parked start = Some parked) as H by (vm_compute; reflexivity).
  split; [exact H|]. apply (fibers_never_lost two_parked parked H).
Defined.

Example sweep_exact_witness :
  ∃ s' woken, sweep_due 6 (scheduler parked) = Some s' ∧ ready s' = [] ++ woken ∧ woken ≡ₚ [0%nat].
Proof.
  destruct (sweep_exact two_parked parked 6 ltac:(vm_compute; reflexivity)) as (s'&woken&Hs&Hr&Hw&_).
  exists s', woken. split; [exact Hs|]. split; [exact Hr|]. rewrite Hw. vm_compute. reflexivity.
Defined.

Example idle_plan_exact_witness :
  idle_wait_plan 2 (scheduler parked) = Some (Some 3) ∧
  (∃ s', sweep_due (2 + 3) (scheduler parked) = Some s' ∧ ready s' ≠ []).
Proof.
  assert (idle_wait_plan 2 (scheduler parked) = Some (Some 3)) as E by (vm_compute; reflexivity).
  split; [exact E|].
  pose proof (idle_plan_exact two_parked parked 2 ltac:(vm_compute; reflexivity) eq_refl eq_refl) as H.
  cbv zeta in H. rewrite E in H. apply H.
Defined.
