(* ===== verification/Deferred.v ===== *)
(** * Deferred values and the standard input gate: [quilon-rt/src/deferred.rs]

    A launch of [@readStdin] takes a ticket on the launching fiber, makes a pending
    cell and spawns a reader; the reader waits until the gate serves its ticket, reads
    one line, gives the gate up and resolves the cell; forcing or settling the cell
    parks until then.  Fibers run on several threads, so a step of the machine is one
    critical section of the gate's or a cell's mutex, one answer of [read(2)] or one
    wake-up, of one fiber.  What the operating system answers is a script the reads
    consume; the tickets, [u64] in the code, are unbounded here. *)

From S2P Require Import Prelude Machine.

(** ** Reading a line *)

Definition NEWLINE : Z := 10.
Definition CARRIAGE_RETURN : Z := 13.

(** A message of [io::Error]. *)
Abbreviation io_error := string.

(** What one call of [read(2)] answers; for a descriptor that is not ready, with
    what its registration with the reactor answers. *)
Inductive answer : Type :=
| Bytes (bytes : list Z)                   (* none at the end of input *)
| WouldBlock (registration : option io_error)
| Interrupted
| Failed (error : io_error).

(** [line.pop()], and once more when a carriage return is left at the end. *)
Definition drop_line_end (line : list Z) : list Z :=
  let line := take (pred (length line)) line in
  if decide (last line = Some CARRIAGE_RETURN) then take (pred (length line)) line else line.

Definition take_line (buffer : list Z) : option (list Z * list Z) :=
  '(newline, _) ← list_find (λ byte, byte = NEWLINE) buffer;
  Some (drop_line_end (take (S newline) buffer), drop (S newline) buffer).

Abbreviation line_result := (result io_error (list Z)).

(** What the reader does with an answer: read on (parked on the descriptor first
    or not), or be done with a result and the buffer that stays. *)
Inductive progress : Type :=
| More (buffer : list Z)
| Park (buffer : list Z)
| Done (line : line_result) (buffer : list Z).

Definition read_answer (buffer : list Z) (a : answer) : progress :=
  match a with
  | Bytes [] => Done (Ok buffer) []
  | Bytes bytes =>
      let buffer := buffer ++ bytes in
      match take_line buffer with
      | Some (line, rest) => Done (Ok line) rest
      | None => More buffer
      end
  | WouldBlock None => Park buffer
  | Interrupted => More buffer
  | WouldBlock (Some error) | Failed error => Done (Err error) buffer
  end.

(** The loop of [read_line_from] with [read_once]'s inside: the line, the buffer
    left and the answers left, unless they run out. *)
Fixpoint read_loop (buffer : list Z) (script : list answer) : option (line_result * list Z * list answer) :=
  match script with
  | [] => None
  | a :: script =>
      match read_answer buffer a with
      | More buffer | Park buffer => read_loop buffer script
      | Done line buffer => Some (line, buffer, script)
      end
  end.

Definition read_line_from (buffer : list Z) (script : list answer) :
    option (line_result * list Z * list answer) :=
  match take_line buffer with
  | Some (line, rest) => Some (Ok line, rest, script)
  | None => read_loop buffer script
  end.

(** ** The gate, the cells and the fibers *)

(** A reactor token of [register_helper_waker]. *)
Abbreviation Token := nat.

Record StdinGate : Type := mkGate {
  next_ticket : nat;
  serving : nat;
  leftover : list Z;
  gate_waiters : list Token
}.

Inductive DeferredState : Type :=
| Pending
| Ready (value : list Z)
| Faulted (report : string).

Record Cell : Type := mkCell { state : DeferredState; waiters : list Token }.

(** What a fiber of the program does: launch a read, or wait for the cell of a
    launch, known here by its ticket. *)
Inductive call : Type := ReadStdin | Force (cell : nat) | Settle (cell : nat).

(** Where a fiber is.  A program's fiber is [Idle] between two calls; a reader goes
    from [Acquiring] to [Finished]. *)
Inductive point : Type :=
| Idle
| Launching (ticket : nat)                       (* the ticket taken, the cell to make *)
| Parked (forcing : bool) (cell : nat) (token : Token)  (* in [force] or [settle] *)
| Aborted (report : string)                      (* in [fault_current_fiber] *)
| Acquiring (ticket : nat)                       (* about to look at the gate *)
| Queued (ticket : nat) (token : Token)          (* parked on the gate *)
| Taking (ticket : nat)                          (* the buffer to take out of the gate *)
| Reading (ticket : nat) (buffer : list Z)       (* about to call [read(2)] *)
| FdParked (ticket : nat) (buffer : list Z)      (* parked on the descriptor *)
| Putting (ticket : nat) (buffer : list Z) (line : line_result)
| Releasing (ticket : nat) (line : line_result)
| Resolving (ticket : nat) (line : line_result)
| Finished.

(** A fiber, what it has left to do and the values it has been given. *)
Record Fiber : Type := mkFiber { at_ : point; todo : list call; values : list (nat * list Z) }.

Record State : Type := mkState {
  gate : StdinGate;
  script : list answer;
  cells : gmap nat Cell;
  fibers : list Fiber;
  next_token : Token;
  woken : gset Token
}.

Definition set_gate (g : StdinGate) (s : State) : State :=
  mkState g (script s) (cells s) (fibers s) (next_token s) (woken s).
Definition set_cell (t : nat) (c : Cell) (s : State) : State :=
  mkState (gate s) (script s) (<[t:=c]> (cells s)) (fibers s) (next_token s) (woken s).
Definition set_script (sc : list answer) (s : State) : State :=
  mkState (gate s) sc (cells s) (fibers s) (next_token s) (woken s).
Definition set_fiber (i : nat) (f : Fiber) (s : State) : State :=
  mkState (gate s) (script s) (cells s) (<[i:=f]> (fibers s)) (next_token s) (woken s).

(** [crate::scheduler::spawn] and [spawn_placed]: which worker runs it is placement's affair. *)
Definition spawn (f : Fiber) (s : State) : State :=
  mkState (gate s) (script s) (cells s) (fibers s ++ [f]) (next_token s) (woken s).

(** [register_helper_waker]. *)
Definition register_helper_waker (s : State) : Token * State :=
  (next_token s, mkState (gate s) (script s) (cells s) (fibers s) (S (next_token s)) (woken s)).

(** [Waiters::wake_all]: every token is completed; the caller empties the list. *)
Definition wake_all (waiters : list Token) (s : State) : State :=
  mkState (gate s) (script s) (cells s) (fibers s) (next_token s) (list_to_set waiters ∪ woken s).

(** ** The gate's operations *)

Definition take_stdin_ticket (s : State) : nat * State :=
  let g := gate s in
  (next_ticket g, set_gate (mkGate (S (next_ticket g)) (serving g) (leftover g) (gate_waiters g)) s).

(** One turn of [acquire_stdin]: through, or registered with the token to park on. *)
Definition acquire_stdin (ticket : nat) (s : State) : point * State :=
  let g := gate s in
  if decide (serving g = ticket) then (Taking ticket, s)
  else
    let '(token, s) := register_helper_waker s in
    (Queued ticket token,
     set_gate (mkGate (next_ticket g) (serving g) (leftover g) (gate_waiters g ++ [token])) s).

Definition release_stdin (s : State) : State :=
  let g := gate s in
  wake_all (gate_waiters g) (set_gate (mkGate (next_ticket g) (S (serving g)) (leftover g) []) s).

(** [read_stdin_line]'s two critical sections. *)
Definition take_leftover (s : State) : list Z * State :=
  let g := gate s in
  (leftover g, set_gate (mkGate (next_ticket g) (serving g) [] (gate_waiters g)) s).

Definition put_leftover (buffer : list Z) (s : State) : State :=
  let g := gate s in set_gate (mkGate (next_ticket g) (serving g) buffer (gate_waiters g)) s.

(** ** The cell's operations *)

Definition new_deferred : Cell := mkCell Pending [].

(** [fail_read]'s message; [run_fault_guarded] hands its report to [resolve_body]. *)
Definition fail_read (error : io_error) : string := "core.io.@readStdin failed: " +:+ error.

Definition settled (line : line_result) : DeferredState :=
  match line with Ok bytes => Ready bytes | Err error => Faulted (fail_read error) end.

(** The end of [resolve_body]; [None] is its debug assertion. *)
Definition resolve (t : nat) (line : line_result) (s : State) : option State :=
  c ← cells s !! t;
  match state c with
  | Pending => Some (wake_all (waiters c) (set_cell t (mkCell (settled line) []) s))
  | _ => None
  end.

(** One turn of [force] and [settle]. *)
Definition look (forcing : bool) (t : nat) (f : Fiber) (s : State) : option (Fiber * State) :=
  c ← cells s !! t;
  match state c with
  | Ready v => Some (mkFiber Idle (todo f) (if forcing then values f ++ [(t, v)] else values f), s)
  | Faulted report =>
      Some (mkFiber (if forcing then Aborted report else Idle) (todo f) (values f), s)
  | Pending =>
      let '(token, s) := register_helper_waker s in
      Some (mkFiber (Parked forcing t token) (todo f) (values f),
            set_cell t (mkCell Pending (waiters c ++ [token])) s)
  end.

(** ** Steps *)

Definition at_point (f : Fiber) (p : point) : Fiber := mkFiber p (todo f) (values f).

(** A call of the program: [__read_launch] up to its ticket, or a first look at a cell. *)
Definition start_call (c : call) (f : Fiber) (s : State) : option (Fiber * State) :=
  match c with
  | ReadStdin => let '(ticket, s) := take_stdin_ticket s in Some (at_point f (Launching ticket), s)
  | Force t => look true t f s
  | Settle t => look false t f s
  end.

(** After [take_line] or an answer of [read(2)]. *)
Definition reader_point (t : nat) (p : progress) : point :=
  match p with
  | More buffer => Reading t buffer
  | Park buffer => FdParked t buffer
  | Done line buffer => Putting t buffer line
  end.

Definition fiber_step (f : Fiber) (s : State) : option (Fiber * State) :=
  match at_ f with
  | Idle =>
      match todo f with
      | [] => None
      | c :: rest => start_call c (mkFiber Idle rest (values f)) s
      end
  | Launching t =>
      Some (at_point f Idle, spawn (mkFiber (Acquiring t) [] []) (set_cell t new_deferred s))
  | Parked forcing t token => if decide (token ∈ woken s) then look forcing t f s else None
  | Acquiring t => let '(p, s) := acquire_stdin t s in Some (at_point f p, s)
  | Queued t token => if decide (token ∈ woken s) then Some (at_point f (Acquiring t), s) else None
  | Taking t =>
      let '(buffer, s) := take_leftover s in
      Some (at_point f (match take_line buffer with
                        | Some (line, rest) => Putting t rest (Ok line)
                        | None => Reading t buffer
                        end), s)
  | Reading t buffer =>
      match script s with
      | [] => None
      | a :: rest => Some (at_point f (reader_point t (read_answer buffer a)), set_script rest s)
      end
  | FdParked t buffer => Some (at_point f (Reading t buffer), s)
  | Putting t buffer line => Some (at_point f (Releasing t line), put_leftover buffer s)
  | Releasing t line => Some (at_point f (Resolving t line), release_stdin s)
  | Resolving t line => s ← resolve t line s; Some (at_point f Finished, s)
  | Aborted _ | Finished => None
  end.

(** An event is the fiber that steps. *)
Definition deferred_step (i : nat) (s : State) : option State :=
  f ← fibers s !! i; '(f', s') ← fiber_step f s; Some (set_fiber i f' s').

#[export] Instance deferred_machine : Machine nat State := deferred_step.

Definition start (sc : list answer) (programs : list (list call)) : State :=
  mkState (mkGate 0 0 [] []) sc ∅ ((λ p, mkFiber Idle p []) <$> programs) 0 ∅.

(** ** The sequential reads the gate promises *)

(** The buffer and the answers left after [n] reads, one after the other. *)
Fixpoint stdin_after (sc : list answer) (n : nat) : option (list Z * list answer) :=
  match n with
  | O => Some ([], sc)
  | S n =>
      '(buffer, sc) ← stdin_after sc n;
      '(_, buffer, sc) ← read_line_from buffer sc;
      Some (buffer, sc)
  end.

(** What the [n]th of those reads returns. *)
Definition nth_read (sc : list answer) (n : nat) : option line_result :=
  '(buffer, sc) ← stdin_after sc n;
  '(line, _, _) ← read_line_from buffer sc;
  Some line.
