(* ===== verification/DeferredProps.v ===== *)
(** * Deferred values and the standard input gate: invariant, order, progress *)

From S2P Require Import Prelude Machine Deferred.
Open Scope Z_scope.

(** ** Who owns what *)

(** The ticket a fiber has taken and not given back. *)
Definition ticket_of (p : point) : option nat :=
  match p with
  | Launching t | Acquiring t | Queued t _ | Taking t | Reading t _ | FdParked t _
  | Putting t _ _ | Releasing t _ => Some t
  | _ => None
  end.

(** The cell a fiber is to resolve. *)
Definition resolves (p : point) : option nat :=
  match p with
  | Acquiring t | Queued t _ | Taking t | Reading t _ | FdParked t _
  | Putting t _ _ | Releasing t _ | Resolving t _ => Some t
  | _ => None
  end.

(** The cell a fiber is to make. *)
Definition launches (p : point) : option nat := match p with Launching t => Some t | _ => None end.

(** Past [acquire_stdin] and before [release_stdin]'s lock. *)
Definition holding (p : point) : bool :=
  match p with
  | Taking _ | Reading _ _ | FdParked _ _ | Putting _ _ _ | Releasing _ _ => true
  | _ => false
  end.

Definition indicator (b : bool) : Z := if b then 1 else 0.

(** How many fibers have [t] for their [what]. *)
Definition count (what : point → option nat) (t : nat) (fs : list Fiber) : Z :=
  sum_over (λ f, indicator (bool_decide (what (at_ f) = Some t))) fs.

Definition is_pending (c : option Cell) : bool :=
  match c with Some (mkCell Pending _) => true | _ => false end.
Definition exists_ {A} (c : option A) : bool := match c with Some _ => true | None => false end.

(** The tickets from the one served on are owned once each, every pending cell has
    one fiber to resolve it, every ticket taken one cell made or to make. *)
Record ledger (s : State) : Prop := {
  serving_ok : (serving (gate s) <= next_ticket (gate s))%nat;
  tickets_ok : ∀ t, count ticket_of t (fibers s)
    = indicator (bool_decide (serving (gate s) <= t < next_ticket (gate s))%nat);
  resolvers_ok : ∀ t, count resolves t (fibers s) = indicator (is_pending (cells s !! t));
  launches_ok : ∀ t, count launches t (fibers s) + indicator (exists_ (cells s !! t))
    = indicator (bool_decide (t < next_ticket (gate s))%nat);
  holder_ok : ∀ i f, fibers s !! i = Some f → holding (at_ f) = true →
    ticket_of (at_ f) = Some (serving (gate s))
}.

(** Every case of a step, with the states before and after spelt out. *)
Ltac deferred_cases H :=
  unfold exec, deferred_machine, deferred_step, fiber_step, start_call, look, resolve, acquire_stdin,
    take_stdin_ticket, register_helper_waker, take_leftover, put_leftover, release_stdin in H;
  repeat match goal with
  | H : mbind _ _ = Some _ |- _ => apply bind_Some in H as (?&?&H)
  | H : (match ?x with _ => _ end) = Some _ |- _ => destruct x eqn:?; try done
  | H : (match ?x with _ => _ end) = (_, _) |- _ => destruct x eqn:?; try done
  end; simplify_eq/=;
  unfold set_gate, set_cell, set_script, set_fiber, spawn, wake_all, at_point, reader_point in *; simpl in *;
  repeat match goal with f : Fiber |- _ => destruct f; simpl in * end;
  repeat match goal with c : Cell |- _ => destruct c; simpl in * end;
  repeat match goal with b : bool |- _ => destruct b end;
  simplify_eq/=;
  repeat match goal with
  | |- context [match take_line ?b with _ => _ end] => destruct (take_line b) as [[? ?]|] eqn:?
  | |- context [match read_answer ?b ?a with _ => _ end] => destruct (read_answer b a) eqn:?
  end; simplify_eq/=.

Lemma count_insert what t fs i f f' :
  fs !! i = Some f →
  count what t (<[i:=f']> fs)
  = count what t fs - indicator (bool_decide (what (at_ f) = Some t))
    + indicator (bool_decide (what (at_ f') = Some t)).
Proof. exact (sum_over_insert (λ f, indicator (bool_decide (what (at_ f) = Some t))) fs i f f'). Qed.

Lemma count_app what t fs f : count what t (fs ++ [f]) = count what t fs + indicator (bool_decide (what (at_ f) = Some t)).
Proof. unfold count. rewrite sum_over_app. simpl. lia. Qed.

Lemma indicator_nonneg b : 0 <= indicator b.
Proof. by destruct b. Qed.

(** What a fiber has is counted. *)
Lemma count_pos what t fs i f : fs !! i = Some f → what (at_ f) = Some t → 1 <= count what t fs.
Proof.
  intros Hi Hw.
  pose proof (sum_over_elem (λ f, indicator (bool_decide (what (at_ f) = Some t))) fs i f
    (λ _, indicator_nonneg _) Hi) as H.
  simpl in H. by rewrite bool_decide_true in H.
Qed.

(** Two fibers with the same are counted twice. *)
Lemma count_two what t fs i j f g :
  fs !! i = Some f → fs !! j = Some g → i ≠ j →
  what (at_ f) = Some t → what (at_ g) = Some t → 2 <= count what t fs.
Proof.
  intros Hi Hj Hne Hf Hg. revert i j Hi Hj Hne.
  induction fs as [|h fs IH]; intros [|i] [|j] Hi Hj Hne; simplify_eq/=;
    unfold count; simpl; fold (count what t fs); rewrite ?Hf, ?Hg, ?bool_decide_true by done.
  - pose proof (count_pos what t fs j g Hj Hg). simpl. lia.
  - pose proof (count_pos what t fs i f Hi Hf). simpl. lia.
  - pose proof (indicator_nonneg (bool_decide (what (at_ h) = Some t))).
    specialize (IH i j Hi Hj ltac:(congruence)). lia.
Qed.

Lemma bool_decide_Some (a b : nat) : bool_decide (Some a = Some b) = bool_decide (a = b).
Proof. apply bool_decide_ext. split; congruence. Qed.

Ltac counts :=
  repeat match goal with
  | H : ?l !! ?i = Some _ |- context [count _ _ (<[?i:=_]> ?l)] => rewrite (count_insert _ _ _ _ _ _ H)
  | H : ?l !! ?i = Some _ |- context [<[?i:=_]> (?l ++ _)] =>
      rewrite insert_app_l by (by eapply lookup_lt_Some)
  | |- context [count _ _ (_ ++ [_])] => rewrite count_app
  end; simpl; rewrite ?bool_decide_Some.

(** One ticket or cell singled out. *)
Ltac at_ticket t t' :=
  destruct (decide (t' = t)) as [->|];
  rewrite ?lookup_insert_eq, ?lookup_insert_ne by done; simpl in *;
  repeat match goal with
  | H : ?c !! ?k = _ |- _ => rewrite ?H in *
  end; simpl in *.

(** The holder of the gate is the one being served, and is alone. *)
Lemma one_holder s i j f g :
  ledger s → fibers s !! i = Some f → fibers s !! j = Some g →
  holding (at_ f) = true → holding (at_ g) = true → i = j.
Proof.
  intros [_ Ht _ _ Hh] Hi Hj Hf Hg. destruct (decide (i = j)) as [|Hne]; [done|].
  pose proof (count_two ticket_of (serving (gate s)) _ i j f g Hi Hj Hne (Hh i f Hi Hf) (Hh j g Hj Hg)) as H2.
  rewrite Ht in H2. by destruct (bool_decide _).
Qed.

(** Case on whose fiber is looked up after a step: the one that stepped, an old one,
    or the one spawned. *)
Local Ltac new_or_old H :=
  lookup_insert H;
  try apply lookup_app_Some in H as [H|[_ [_ <-]%list_lookup_singleton_Some]].

Lemma holder_step i s s' :
  ledger s → exec i s = Some s' →
  ∀ j g, fibers s' !! j = Some g → holding (at_ g) = true → ticket_of (at_ g) = Some (serving (gate s')).
Proof.
  intros HL H. pose proof (one_holder s) as H1. pose proof (holder_ok _ HL) as Hh.
  destruct s as [[nt sv lo gw] sc cs fs tk wk]. simpl in *.
  deferred_cases H; intros j g Hj Hg; new_or_old Hj; simpl in *; try done;
    try exact (Hh j g Hj Hg);
    try match goal with H : fs !! i = Some _ |- _ => exact (Hh i _ H eq_refl) end.
  by destruct (H (H1 i j _ g HL H0 Hj eq_refl Hg)).
Qed.

Lemma ledger_step : invariant ledger.
Proof.
  intros i s s' HL H. pose proof (holder_step i s s' HL H) as Hh'. destruct HL as [Hs Ht Hr Hl Hh].
  destruct s as [[nt sv lo gw] sc cs fs tk wk]. simpl in *.
  deferred_cases H; split; try exact Hh'; clear Hh'; simpl; counts.
  all: try lia; try (intros t; specialize (Ht t); specialize (Hr t); specialize (Hl t); counts; simpl in *; try done).
  all: try (rewrite ?bool_decide_false by done; lia).
  all: try (match goal with |- context [<[?c:=_]> _ !! ?t] => at_ticket c t end; repeat case_bool_decide; simplify_eq; simpl in *; try lia; done).
  all: try (repeat case_bool_decide; simplify_eq; simpl in *; lia).
  - at_ticket ticket t; [|rewrite bool_decide_false by congruence; simpl; lia].
    pose proof (count_pos launches ticket fs i _ H0 eq_refl). rewrite bool_decide_true by done.
    destruct (cs !! ticket); simpl in *; [|lia]. by destruct (bool_decide _); simpl in *; lia.
  - at_ticket ticket t; [|rewrite bool_decide_false by congruence; simpl; lia].
    pose proof (count_pos launches ticket fs i _ H0 eq_refl). rewrite bool_decide_true by done.
    destruct (cs !! ticket); simpl in *; [|lia]. by destruct (bool_decide _); simpl in *; lia.
  - pose proof (count_pos ticket_of ticket fs i _ H0 eq_refl) as Hp. rewrite (Ht ticket) in Hp.
    case_bool_decide; simpl in *; lia.
  - pose proof (Hh i _ H0 eq_refl) as [= ->]. pose proof (count_pos ticket_of sv fs i _ H0 eq_refl).
    repeat case_bool_decide; simplify_eq; simpl in *; lia.
  - at_ticket ticket t; [|rewrite bool_decide_false by congruence; simpl; lia].
    rewrite bool_decide_true by done. destruct line; simpl; lia.
Qed.

(** ** What the fibers know *)

Section reads.
Context (sc0 : list answer).

(** A parked fiber's token is completed, or still where the next change completes it. *)
Definition waits (s : State) (p : point) : Prop :=
  match p with
  | Parked _ t token =>
      token ∈ woken s ∨ ∃ ws, cells s !! t = Some (mkCell Pending ws) ∧ token ∈ ws
  | Queued t token => token ∈ woken s ∨ (serving (gate s) < t)%nat ∧ token ∈ gate_waiters (gate s)
  | _ => True
  end.

(** What the holder of the gate still has to read is what the sequential reads do. *)
Definition reads (s : State) (p : point) : Prop :=
  match p with
  | Taking t => stdin_after sc0 t = Some (leftover (gate s), script s)
  | Reading t buffer | FdParked t buffer => ∃ buffer0 sc,
      stdin_after sc0 t = Some (buffer0, sc) ∧ read_line_from buffer0 sc = read_loop buffer (script s)
  | Putting t buffer line => ∃ buffer0 sc,
      stdin_after sc0 t = Some (buffer0, sc) ∧ read_line_from buffer0 sc = Some (line, buffer, script s)
  | Releasing t line =>
      nth_read sc0 t = Some line ∧ stdin_after sc0 (S t) = Some (leftover (gate s), script s)
  | Resolving t line => nth_read sc0 t = Some line
  | _ => True
  end.

(** What a resolved cell holds, and what waiting for it gives. *)
Definition holds_read (t : nat) (st : DeferredState) : Prop :=
  match st with
  | Pending => True
  | _ => ∃ line, nth_read sc0 t = Some line ∧ st = settled line
  end.

Definition given (f : Fiber) : Prop :=
  (∀ t v, (t, v) ∈ values f → holds_read t (Ready v))
  ∧ match at_ f with Aborted report => ∃ t, holds_read t (Faulted report) | _ => True end.

Record in_order (s : State) : Prop := {
  waits_ok : ∀ i f, fibers s !! i = Some f → waits s (at_ f);
  reads_ok : ∀ i f, fibers s !! i = Some f → reads s (at_ f);
  given_ok : ∀ i f, fibers s !! i = Some f → given f;
  free_ok : (∀ i f, fibers s !! i = Some f → holding (at_ f) = false) →
    stdin_after sc0 (serving (gate s)) = Some (leftover (gate s), script s);
  cells_ok : ∀ t c, cells s !! t = Some c → holds_read t (state c);
  parked_ok : ∀ i f forcing t token, fibers s !! i = Some f → at_ f = Parked forcing t token →
    is_Some (cells s !! t)
}.

(** A parked fiber stays where it will be woken when the waiters are kept or woken. *)
Lemma waits_mono s s' p :
  waits s p →
  woken s ⊆ woken s' →
  (∀ t ws, cells s !! t = Some (mkCell Pending ws) → ∀ token, token ∈ ws →
    token ∈ woken s' ∨ ∃ ws', cells s' !! t = Some (mkCell Pending ws') ∧ token ∈ ws') →
  (∀ token, token ∈ gate_waiters (gate s) → token ∈ woken s' ∨
    serving (gate s') = serving (gate s) ∧ token ∈ gate_waiters (gate s')) →
  waits s' p.
Proof.
  intros Hw Hsub Hc Hg. destruct p; simpl in *; try done.
  - destruct Hw as [Hw|(ws&Hcs&Hin)]; [left; by apply Hsub|by eapply Hc].
  - destruct Hw as [Hw|[Hlt Hin]]; [left; by apply Hsub|].
    destruct (Hg token Hin) as [|[-> ?]]; [by left|by right].
Qed.

Lemma reads_keep s s' p :
  leftover (gate s') = leftover (gate s) → script s' = script s → reads s p → reads s' p.
Proof. intros Hl Hs. destruct p; simpl; by rewrite ?Hl, ?Hs. Qed.

(** Outside the gate a fiber knows nothing of the buffer. *)
Lemma reads_outside s s' p : holding p = false → reads s p → reads s' p.
Proof. by destruct p. Qed.

(** *** One step *)

Lemma nth_read_step t buffer sc line buffer' sc' :
  stdin_after sc0 t = Some (buffer, sc) → read_line_from buffer sc = Some (line, buffer', sc') →
  nth_read sc0 t = Some line ∧ stdin_after sc0 (S t) = Some (buffer', sc').
Proof. unfold nth_read. simpl. intros -> Hr. simpl. by rewrite Hr. Qed.

(** Who is served when nobody is inside is where the last reader left the input. *)
Lemma acquire_reads s i f t :
  ledger s → in_order s → fibers s !! i = Some f → at_ f = Acquiring t → serving (gate s) = t →
  reads s (Taking t).
Proof.
  intros [Hs Ht _ _ Hh] HO Hi Hp <-. simpl. apply (free_ok s HO). intros j g Hj.
  destruct (holding (at_ g)) eqn:Hg; [|done]. exfalso.
  assert (i ≠ j) as Hne by (intros ->; simplify_eq; by rewrite Hp in Hg).
  pose proof (count_two ticket_of (serving (gate s)) _ i j f g Hi Hj Hne ltac:(by rewrite Hp)
    (Hh j g Hj Hg)) as H2.
  rewrite Ht in H2. by destruct (bool_decide _).
Qed.

(** Registering on a cell keeps its waiters, and resolving it wakes them. *)
Lemma register_cell (cs : gmap nat Cell) t ws ws' (wk wk' : gset Token) st :
  cs !! t = Some (mkCell Pending ws) → wk ⊆ wk' →
  (∀ token, token ∈ ws → token ∈ wk' ∨ st = Pending ∧ token ∈ ws') →
  ∀ u vs, cs !! u = Some (mkCell Pending vs) → ∀ token, token ∈ vs →
    token ∈ wk' ∨ ∃ vs', <[t:=mkCell st ws']> cs !! u = Some (mkCell Pending vs') ∧ token ∈ vs'.
Proof.
  intros Ht Hwk Hws u vs Hu token Hin. destruct (decide (u = t)) as [->|].
  - simplify_eq. destruct (Hws token Hin) as [|[-> ?]]; [by left|right].
    exists ws'. by rewrite lookup_insert_eq.
  - right. exists vs. by rewrite lookup_insert_ne by done.
Qed.

Lemma registered (cs : gmap nat Cell) t ws token :
  ∃ ws', <[t:=mkCell Pending (ws ++ [token])]> cs !! t = Some (mkCell Pending ws') ∧ token ∈ ws'.
Proof. exists (ws ++ [token]). rewrite lookup_insert_eq. split; [done|set_solver]. Qed.

(** A launch makes its cell once. *)
Lemma launch_fresh s i f t :
  ledger s → fibers s !! i = Some f → at_ f = Launching t → cells s !! t = None.
Proof.
  intros [_ _ _ Hl _] Hi Hp.
  pose proof (count_pos launches t _ i f Hi ltac:(by rewrite Hp)) as Hc. specialize (Hl t).
  destruct (cells s !! t); simpl in Hl; [|done]. destruct (bool_decide _); simpl in Hl; lia.
Qed.

Lemma woken_waiters (token : Token) ws (wk : gset Token) : token ∈ ws → token ∈ list_to_set ws ∪ wk.
Proof. intros H. apply elem_of_union_l. by apply elem_of_list_to_set. Qed.

Lemma kept_waiters (token token' : Token) ws : token ∈ ws → token ∈ ws ++ [token'].
Proof. intros H. apply elem_of_app. by left. Qed.

(** Where a waiter is after a step that registers or wakes. *)
Local Ltac waiting :=
  try (right; apply registered);
  try (intros ?????; right; by eexists);
  try (eapply register_cell; [eassumption|try done; apply union_subseteq_r|]);
  try (let token := fresh "token" in let Htoken := fresh "Htoken" in intros token Htoken;
       first [by left; apply woken_waiters | right; split; [done|]; by apply kept_waiters]).

Lemma waits_step i s s' :
  ledger s → in_order s → exec i s = Some s' → ∀ j g, fibers s' !! j = Some g → waits s' (at_ g).
Proof.
  intros HL HO H. pose proof (waits_ok s HO) as Hw. pose proof (tickets_ok s HL) as Ht.
  pose proof (launch_fresh s i) as Hfresh.
  destruct s as [[nt sv lo gw] sc cs fs tk wk]. simpl in *.
  deferred_cases H; intros j g Hj; new_or_old Hj; simpl in *; try done;
    try (eapply waits_mono; [by eapply Hw|..]; simpl); try done; try (by right);
    try apply union_subseteq_r; waiting.
  - intros u ws Hu token Hin. right. exists ws. rewrite lookup_insert_ne; [done|].
    intros ->. by rewrite (Hfresh _ _ HL H0 eq_refl) in Hu.
  - right. split; [|apply elem_of_app; right; by left].
    pose proof (count_pos ticket_of ticket fs i _ H0 eq_refl) as Hp. rewrite Ht in Hp.
    case_bool_decide; simpl in *; lia.
Qed.

Lemma reads_step i s s' :
  ledger s → in_order s → exec i s = Some s' → ∀ j g, fibers s' !! j = Some g → reads s' (at_ g).
Proof.
  intros HL HO H. pose proof (reads_ok s HO) as Hr. pose proof (one_holder s i) as H1.
  pose proof (acquire_reads s i) as Ha.
  destruct s as [[nt sv lo gw] sc cs fs tk wk]. simpl in *.
  deferred_cases H; intros j g Hj; new_or_old Hj; simpl in *; try done;
    try (by eapply reads_keep; [..|by eapply Hr]);
    try (eapply reads_outside; [|by eapply Hr]; apply not_true_is_false; intros Hg;
         by apply H; eapply H1);
    try match goal with H : fs !! i = Some _ |- _ => specialize (Hr i _ H); simpl in Hr end.
  - exact (Ha _ _ HL HO H0 eq_refl eq_refl).
  - exists lo, sc. split; [done|]. unfold read_line_from. by rewrite Heqo.
  - exists lo, sc. split; [done|]. unfold read_line_from. by rewrite Heqo.
  - destruct Hr as (b&sc&Hb&He). exists b, sc. by rewrite He, Heqp.
  - destruct Hr as (b&sc&Hb&He). exists b, sc. by rewrite He, Heqp.
  - destruct Hr as (b&sc&Hb&He). exists b, sc. by rewrite He, Heqp.
  - exact Hr.
  - destruct Hr as (b&sc1&Hb&He). exact (nth_read_step _ _ _ _ _ _ Hb He).
  - by destruct Hr.
Qed.

Lemma cells_step i s s' :
  in_order s → exec i s = Some s' → ∀ t c, cells s' !! t = Some c → holds_read t (state c).
Proof.
  intros HO H. pose proof (reads_ok s HO i) as Hr. pose proof (cells_ok s HO) as Hc.
  destruct s as [[nt sv lo gw] sc cs fs tk wk]. simpl in *.
  deferred_cases H; intros t c Ht; try (by eapply Hc);
    apply lookup_insert_Some in Ht as [[<- <-]|[_ Ht]]; try (by eapply Hc); try done.
  specialize (Hr _ H0). destruct line; simpl; by eexists; split; [exact Hr|].
Qed.

Lemma given_step i s s' :
  in_order s → exec i s = Some s' → ∀ j g, fibers s' !! j = Some g → given g.
Proof.
  intros HO H. pose proof (given_ok s HO) as Hg. pose proof (cells_ok s HO) as Hc.
  destruct s as [[nt sv lo gw] sc cs fs tk wk]. simpl in *.
  deferred_cases H; intros j g Hj; new_or_old Hj; simpl in *; try (by eapply Hg);
    try match goal with H : fs !! i = Some _ |- _ => specialize (Hg i _ H) as [Hv Ha]; simpl in Hv, Ha end.
  all: split; simpl; try done; try (intros t v Hin; by apply elem_of_nil in Hin);
    try (exists cell; exact (Hc _ _ H2)).
  all: intros t v [Hin|[= -> ->]%list_elem_of_singleton]%elem_of_app; [by apply Hv|exact (Hc _ _ H2)].
Qed.

(** A step moves no other fiber. *)
Lemma others_stay i s s' j g :
  exec i s = Some s' → i ≠ j → fibers s !! j = Some g → fibers s' !! j = Some g.
Proof.
  intros H Hne. revert g. destruct s as [[nt sv lo gw] sc cs fs tk wk]. simpl.
  deferred_cases H; intros g Hj; rewrite list_lookup_insert_ne by done; try done.
  by apply lookup_app_l_Some.
Qed.

(** A gate nobody has entered is where the last reader left it. *)
Lemma free_step i s s' :
  ledger s → in_order s → exec i s = Some s' →
  (∀ j g, fibers s' !! j = Some g → holding (at_ g) = false) →
  stdin_after sc0 (serving (gate s')) = Some (leftover (gate s'), script s').
Proof.
  intros HL HO H Hnone. pose proof (reads_ok s HO i) as Hr. pose proof (holder_ok s HL i) as Hh.
  assert (∀ f, fibers s !! i = Some f → holding (at_ f) = false →
    stdin_after sc0 (serving (gate s)) = Some (leftover (gate s), script s)) as Hfree.
  { intros f Hi Hp. apply (free_ok s HO). intros j g Hj. destruct (decide (i = j)) as [<-|Hne]; [by simplify_eq|].
    eapply Hnone, others_stay; eassumption. }
  specialize (Hnone i). destruct s as [[nt sv lo gw] sc cs fs tk wk]. simpl in *.
  deferred_cases H; try (by eapply Hfree);
    rewrite list_lookup_insert_eq in Hnone by (by eapply lookup_lt_Some);
    specialize (Hnone _ eq_refl); simpl in *; repeat case_match; try done.
  specialize (Hr _ H0) as [_ Hr]. by specialize (Hh _ H0 eq_refl) as [= <-].
Qed.

Lemma parked_step i s s' :
  in_order s → exec i s = Some s' →
  ∀ j g forcing t token, fibers s' !! j = Some g → at_ g = Parked forcing t token → is_Some (cells s' !! t).
Proof.
  intros HO H. pose proof (parked_ok s HO) as Hp.
  destruct s as [[nt sv lo gw] sc cs fs tk wk]. simpl in *.
  deferred_cases H; intros j g forcing t tok Hj Hg; new_or_old Hj; simpl in *; repeat case_match; try done;
    rewrite ?lookup_insert_is_Some'; simplify_eq; eauto.
Qed.

Lemma in_order_step i s s' : ledger s → in_order s → exec i s = Some s' → in_order s'.
Proof.
  intros HL HO H. split.
  - by eapply waits_step.
  - by eapply reads_step.
  - by eapply given_step.
  - by eapply free_step.
  - by eapply cells_step.
  - by eapply parked_step.
Qed.

Definition Inv (s : State) : Prop := ledger s ∧ in_order s.

Lemma Inv_step : invariant Inv.
Proof.
  intros i s s' [HL HO] H. split; [by eapply ledger_step|by eapply in_order_step].
Qed.

Lemma deferred_start programs : Inv (start sc0 programs).
Proof.
  assert (∀ i f, fibers (start sc0 programs) !! i = Some f → ∃ p, f = mkFiber Idle p []) as Hf.
  { intros i f Hi. apply list_lookup_fmap_Some in Hi as (p&->&_). by eexists. }
  assert (∀ what t, what Idle = None → count what t (fibers (start sc0 programs)) = 0) as Hc.
  { intros what t Hw. apply sum_over_zero. intros f Hi.
    apply list_elem_of_lookup in Hi as [i [p ->]%Hf]. simpl. by rewrite Hw. }
  split; split; simpl; try done.
  - intros t. by rewrite Hc.
  - intros t. by rewrite Hc.
  - intros t. by rewrite Hc.
  - intros i f [p ->]%Hf. done.
  - intros i f [p ->]%Hf. done.
  - intros i f [p ->]%Hf. done.
  - intros i f [p ->]%Hf. split; [|done]. intros t v Hin. by apply elem_of_nil in Hin.
  - by intros i f forcing t token [p ->]%Hf.
Qed.
End reads.

(** ** Progress *)

Definition resolved (c : option Cell) : bool :=
  match c with Some (mkCell Pending _) | None => false | Some _ => true end.

(** A fiber with nothing to wait for: done, aborted by a fault it forced, or about to
    wait for a launch never made. *)
Definition at_rest (s : State) (f : Fiber) : bool :=
  match at_ f with
  | Finished | Aborted _ => true
  | Idle =>
      match todo f with
      | [] => true
      | Force t :: _ | Settle t :: _ => negb (exists_ (cells s !! t))
      | ReadStdin :: _ => false
      end
  | _ => false
  end.

(** Every ticket was served, every cell is resolved, every fiber is at rest. *)
Definition finished (s : State) : Prop :=
  serving (gate s) = next_ticket (gate s)
  ∧ (∀ t, (t < next_ticket (gate s))%nat → resolved (cells s !! t) = true)
  ∧ Forall (λ f, at_rest s f = true) (fibers s).

(** A step of [f] that gets on, rather than looks at what has not changed. *)
Definition gets_on (s : State) (f : Fiber) : bool :=
  match at_ f with
  | Idle =>
      match todo f with Force t :: _ | Settle t :: _ => resolved (cells s !! t) | _ => true end
  | Parked _ t _ => resolved (cells s !! t)
  | Acquiring t => bool_decide (serving (gate s) = t)
  | Queued _ token => bool_decide (token ∈ woken s)
  | _ => true
  end.

Definition point_weight (p : point) : Z :=
  match p with
  | Launching _ => 10
  | Queued _ _ => 9
  | Acquiring _ => 8
  | Taking _ => 7
  | FdParked _ _ => 6
  | Reading _ _ => 5
  | Putting _ _ _ => 4
  | Releasing _ _ => 3
  | Resolving _ _ => 2
  | Parked _ _ _ => 1
  | Idle | Aborted _ | Finished => 0
  end.

Definition weight (f : Fiber) : Z := point_weight (at_ f) + 12 * Z.of_nat (length (todo f)).

Definition total_weight (s : State) : Z := 2 * Z.of_nat (length (script s)) + sum_over weight (fibers s).

Lemma reader_weight_nonneg f : 0 <= weight f.
Proof. unfold weight. destruct (at_ f); simpl; lia. Qed.

Lemma total_weight_nonneg s : 0 <= total_weight s.
Proof.
  unfold total_weight. pose proof (sum_over_nonneg weight (fibers s) (λ f _, reader_weight_nonneg f)). lia.
Qed.

Lemma gets_on_decreases i s s' f :
  fibers s !! i = Some f → gets_on s f = true → exec i s = Some s' → total_weight s' < total_weight s.
Proof.
  intros Hi Hg H. destruct s as [[nt sv lo gw] sc cs fs tk wk]. simpl in *.
  unfold total_weight, gets_on in *.
  deferred_cases H; simplify_eq/=;
    rewrite ?insert_app_l by (by eapply lookup_lt_Some);
    rewrite ?sum_over_app; erewrite sum_over_insert by eassumption;
    unfold weight; simpl; try lia.
  all: first [by rewrite H2 in Hg | by rewrite bool_decide_false in Hg].
Qed.

Section progress.
Context (sc0 : list answer).

Lemma gets_on_steps s i f :
  Inv sc0 s → script s ≠ [] → fibers s !! i = Some f → gets_on s f = true → at_rest s f = false →
  is_Some (exec i s).
Proof.
  intros [HL HO] Hsc Hi Hg Hr. pose proof (waits_ok _ s HO i f Hi) as Hw.
  pose proof (resolvers_ok s HL) as Hres. pose proof (count_pos resolves) as Hc.
  unfold exec, deferred_machine, deferred_step. rewrite Hi. simpl.
  unfold fiber_step, gets_on, at_rest in *.
  destruct f as [p td vs]. simpl in *. destruct p; simpl in *; try done; try by eexists.
  - destruct td as [|[|t|t] td]; try done; simpl; unfold look;
      simpl; destruct (cells s !! t) as [[[] ws]|]; try done; by eexists.
  - rewrite decide_True.
    + unfold look. destruct (cells s !! cell) as [[[] ws]|]; try done; by eexists.
    + destruct Hw as [|(ws&Hcs&_)]; [done|]. by rewrite Hcs in Hg.
  - unfold acquire_stdin. rewrite decide_True by by apply bool_decide_eq_true in Hg. by eexists.
  - rewrite decide_True by by apply bool_decide_eq_true in Hg. by eexists.
  - destruct (script s); [done|by eexists].
  - specialize (Hc ticket _ i _ Hi eq_refl). rewrite Hres in Hc. unfold resolve.
    destruct (cells s !! ticket) as [[[] ws]|]; simpl in *; try lia. by eexists.
Qed.

(** What is counted is there. *)
Lemma count_elem what t fs : 0 < count what t fs → ∃ i f, fs !! i = Some f ∧ what (at_ f) = Some t.
Proof.
  intros (f&[i Hi]%list_elem_of_lookup&Hf)%sum_over_pos. exists i, f. split; [done|].
  by case_bool_decide.
Qed.

Lemma served s i f t :
  ledger s → fibers s !! i = Some f → ticket_of (at_ f) = Some t →
  (serving (gate s) <= t < next_ticket (gate s))%nat.
Proof.
  intros HL Hi Ht. pose proof (count_pos ticket_of t _ i f Hi Ht) as Hc. rewrite (tickets_ok s HL) in Hc.
  by case_bool_decide.
Qed.

(** Whoever is served gets on: nobody waits on the gate for a turn that has come. *)
Lemma served_gets_on s i f :
  Inv sc0 s → fibers s !! i = Some f → ticket_of (at_ f) = Some (serving (gate s)) →
  gets_on s f = true ∧ at_rest s f = false.
Proof.
  intros [HL HO] Hi Ht. pose proof (waits_ok _ s HO i f Hi) as Hw. unfold gets_on, at_rest.
  destruct (at_ f); simplify_eq/=; try done; rewrite bool_decide_true; try done.
  destruct Hw as [|[]]; [done|lia].
Qed.

Lemma resolver_gets_on s i f t :
  ledger s → serving (gate s) = next_ticket (gate s) →
  fibers s !! i = Some f → resolves (at_ f) = Some t →
  gets_on s f = true ∧ at_rest s f = false.
Proof.
  intros HL Hs Hi Hr. pose proof (served s i f t HL Hi) as Ht. unfold gets_on, at_rest.
  destruct (at_ f); simplify_eq/=; try done; specialize (Ht eq_refl); lia.
Qed.

(** With every ticket served and every cell resolved, the others get on or rest. *)
Lemma others_get_on s i f :
  Inv sc0 s → serving (gate s) = next_ticket (gate s) →
  (∀ t, (t < next_ticket (gate s))%nat → resolved (cells s !! t) = true) →
  fibers s !! i = Some f → at_rest s f = false → gets_on s f = true.
Proof.
  intros [HL HO] Hs Hres Hi Hr. pose proof (served s i f) as Ht. pose proof (parked_ok _ s HO i f) as Hp.
  assert (∀ t, exists_ (cells s !! t) = true → resolved (cells s !! t) = true) as Hex.
  { intros t He. apply Hres. pose proof (launches_ok s HL t) as Hl. rewrite He in Hl. simpl in Hl.
    pose proof (sum_over_nonneg (λ f, indicator (bool_decide (launches (at_ f) = Some t))) (fibers s)
      (λ _ _, indicator_nonneg _)) as H0.
    unfold count in Hl. case_bool_decide; simpl in *; [done|lia]. }
  unfold gets_on, at_rest in *. destruct f as [p td vs]. destruct p; simplify_eq/=; try done.
  - destruct td as [|[|t|t] td]; try done; apply Hex; by apply negb_false_iff.
  - destruct (Hp _ _ _ Hi eq_refl) as [c Hc]. apply Hex. by rewrite Hc.
  - specialize (Ht ticket HL Hi eq_refl). lia.
  - specialize (Ht ticket HL Hi eq_refl). lia.
Qed.

Lemma can_get_on s :
  Inv sc0 s → script s ≠ [] →
  finished s ∨ ∃ i f, fibers s !! i = Some f ∧ gets_on s f = true ∧ at_rest s f = false.
Proof.
  intros HI Hsc. pose proof HI as [HL HO].
  destruct (decide (serving (gate s) = next_ticket (gate s))) as [Hs|Hs].
  2:{ right. destruct (count_elem ticket_of (serving (gate s)) (fibers s)) as (i&f&Hi&Ht).
      - rewrite (tickets_ok s HL), bool_decide_true; [done|]. pose proof (serving_ok s HL). lia.
      - exists i, f. split; [done|]. by eapply served_gets_on. }
  destruct (decide (Forall (λ t, resolved (cells s !! t) = true) (seq 0 (next_ticket (gate s))))) as [Hr|Hr].
  2:{ right. apply not_Forall_Exists, Exists_exists in Hr as (t&Hin&Hr); [|intros ?; apply _].
      apply elem_of_seq in Hin.
      pose proof (resolvers_ok s HL t) as Hp. pose proof (launches_ok s HL t) as Hl.
      rewrite bool_decide_true in Hl by lia.
      destruct (cells s !! t) as [[[] ws]|] eqn:Hc; simpl in *; try (by rewrite Hc in Hr).
      - destruct (count_elem resolves t (fibers s)) as (i&f&Hi&Ht); [lia|].
        exists i, f. split; [done|]. by eapply resolver_gets_on.
      - destruct (count_elem launches t (fibers s)) as (i&f&Hi&Ht); [lia|].
        exists i, f. split; [done|]. unfold gets_on, at_rest. by destruct (at_ f). }
  assert (∀ t, (t < next_ticket (gate s))%nat → resolved (cells s !! t) = true) as Hres.
  { intros t Ht. apply (proj1 (Forall_forall _ _) Hr), elem_of_seq. lia. }
  destruct (decide (Forall (λ f, at_rest s f = true) (fibers s))) as [Hf|Hf]; [by left|right].
  apply not_Forall_Exists, Exists_exists in Hf as (f&[i Hi]%list_elem_of_lookup&Hf); [|intros ?; apply _].
  apply not_true_is_false in Hf. exists i, f. split; [done|]. split; [|done]. by eapply others_get_on.
Qed.
End progress.

(** ** The lines of the input *)

(** An answer that is neither an error nor the end of the input. *)
Definition calm (a : answer) : bool :=
  match a with
  | Bytes bytes => negb (bool_decide (bytes = []))
  | WouldBlock registration => bool_decide (registration = None)
  | Interrupted => true
  | Failed _ => false
  end.

(** The bytes the answers bring. *)
Definition input (script : list answer) : list Z :=
  concat ((λ a, match a with Bytes bytes => bytes | _ => [] end) <$> script).

Definition terminate (line : list Z) : list Z := line ++ [NEWLINE].

(** A carriage return before the newline is part of the line's end. *)
Definition strip (line : list Z) : list Z := drop_line_end (terminate line).

Lemma take_line_None buffer : take_line buffer = None ↔ NEWLINE ∉ buffer.
Proof.
  unfold take_line. destruct (list_find _ buffer) as [[i x]|] eqn:E; simpl; split; try done.
  - apply list_find_Some in E as (Hi&->&_). intros Hn. by destruct Hn; eapply list_elem_of_lookup_2.
  - intros _ [i Hi]%list_elem_of_lookup. apply list_find_None in E.
    by eapply (Forall_lookup_1 _ _ _ _ E Hi).
Qed.

Lemma take_line_Some line rest : NEWLINE ∉ line → take_line (terminate line ++ rest) = Some (strip line, rest).
Proof.
  intros Hn. unfold take_line, terminate. rewrite <-app_assoc.
  rewrite (proj2 (list_find_Some (λ byte, byte = NEWLINE) (line ++ [NEWLINE] ++ rest) (length line) NEWLINE)).
  - simpl. unfold strip, terminate.
    replace (line ++ NEWLINE :: rest) with ((line ++ [NEWLINE]) ++ rest) by by rewrite <-app_assoc.
    by rewrite take_app_length', drop_app_length' by (rewrite length_app; simpl; lia).
  - split_and!; [by rewrite lookup_app_r, Nat.sub_diag by lia|done|].
    intros j y Hj Hlt. rewrite lookup_app_l in Hj by done. intros ->. by eapply Hn, list_elem_of_lookup_2.
Qed.

Lemma take_line_inv buffer line rest :
  take_line buffer = Some (line, rest) →
  ∃ line0, NEWLINE ∉ line0 ∧ buffer = terminate line0 ++ rest ∧ line = strip line0.
Proof.
  intros Ht. pose proof Ht as Ht'. unfold take_line in Ht. apply bind_Some in Ht as ([i x]&Ei&[= _ <-]).
  apply list_find_Some in Ei as (Hi&->&Hbefore).
  assert (NEWLINE ∉ take i buffer) as Hn.
  { intros (j&Hj)%list_elem_of_lookup. apply lookup_take_Some in Hj as [Hj Hlt]. by eapply Hbefore. }
  assert (buffer = terminate (take i buffer) ++ drop (S i) buffer) as E.
  { unfold terminate. rewrite <-app_assoc. simpl. symmetry. by apply take_drop_middle. }
  exists (take i buffer). split_and!; [done|done|].
  rewrite E, take_line_Some in Ht' by done. by injection Ht'.
Qed.

Lemma terminate_inj line line' rest rest' :
  NEWLINE ∉ line → NEWLINE ∉ line' → terminate line ++ rest = terminate line' ++ rest' →
  line = line' ∧ rest = rest'.
Proof.
  unfold terminate. rewrite <-!app_assoc. simpl. intros Hl Hl' He.
  by apply not_elem_of_app_cons_inv_l in He as (->&_&->).
Qed.

(** Reading on from a buffer without a newline reaches the first one, however the
    input is cut up and whatever delays it. *)
Lemma read_loop_line body : ∀ buffer line rest after,
  Forall (λ a, calm a = true) body → NEWLINE ∉ buffer → NEWLINE ∉ line →
  buffer ++ input body = terminate line ++ rest →
  ∃ buffer' body', read_loop buffer (body ++ after) = Some (Ok (strip line), buffer', body' ++ after)
    ∧ Forall (λ a, calm a = true) body' ∧ buffer' ++ input body' = rest.
Proof.
  induction body as [|a body IH]; intros buffer line rest after Hc Hb Hl He.
  - exfalso. apply Hb. cbn in He. rewrite app_nil_r in He. rewrite He. unfold terminate. set_solver.
  - apply Forall_cons in Hc as [Ha Hc]. destruct a as [[|b bytes]|[e|]| |e]; simpl in *; try done;
      try (by apply IH).
    change (input (Bytes (b :: bytes) :: body)) with ((b :: bytes) ++ input body) in He.
    rewrite app_assoc in He.
    destruct (take_line (buffer ++ b :: bytes)) as [[line' rest']|] eqn:Ht.
    + exists rest', body. apply take_line_inv in Ht as (l0&Hl0&E&->).
      rewrite E, <-app_assoc in He. apply terminate_inj in He as [-> He]; done.
    + apply take_line_None in Ht. by apply IH.
Qed.

(** ... and the end of the input otherwise. *)
Lemma read_loop_end body : ∀ buffer after,
  Forall (λ a, calm a = true) body → NEWLINE ∉ buffer ++ input body →
  read_loop buffer (body ++ Bytes [] :: after) = Some (Ok (buffer ++ input body), [], after).
Proof.
  induction body as [|a body IH]; intros buffer after Hc Hb; simpl; [by rewrite app_nil_r|].
  apply Forall_cons in Hc as [Ha Hc]. destruct a as [[|b bytes]|[e|]| |e]; simpl in *; try done;
    try (by apply IH).
  change (input (Bytes (b :: bytes) :: body)) with ((b :: bytes) ++ input body) in *.
  rewrite app_assoc in Hb |- *.
  rewrite (proj2 (take_line_None (buffer ++ b :: bytes))); [by apply IH|set_solver].
Qed.

Lemma read_line_from_line buffer body line rest after :
  Forall (λ a, calm a = true) body → NEWLINE ∉ line → buffer ++ input body = terminate line ++ rest →
  ∃ buffer' body', read_line_from buffer (body ++ after) = Some (Ok (strip line), buffer', body' ++ after)
    ∧ Forall (λ a, calm a = true) body' ∧ buffer' ++ input body' = rest.
Proof.
  intros Hc Hl He. unfold read_line_from. destruct (take_line buffer) as [[line' rest']|] eqn:Ht.
  - apply take_line_inv in Ht as (l0&Hl0&->&->). rewrite <-app_assoc in He.
    apply terminate_inj in He as [-> He]; [|done..]. by exists rest', body.
  - apply take_line_None in Ht. by apply read_loop_line.
Qed.

(** Where [n] reads leave an input of the given lines. *)
Lemma stdin_after_lines lines tail body ends n :
  Forall (λ a, calm a = true) body → Forall (λ line, NEWLINE ∉ line) lines →
  input body = concat (terminate <$> lines) ++ tail → (n <= length lines)%nat →
  ∃ buffer body', stdin_after (body ++ ends) n = Some (buffer, body' ++ ends)
    ∧ Forall (λ a, calm a = true) body' ∧ buffer ++ input body' = concat (terminate <$> drop n lines) ++ tail.
Proof.
  intros Hc Hl He. induction n as [|n IH]; intros Hn; [by exists [], body|].
  destruct IH as (buffer&body'&Hs&Hc'&He'); [lia|].
  destruct (lookup_lt_is_Some_2 lines n ltac:(lia)) as [line Hline].
  rewrite (drop_S _ _ _ Hline) in He'. simpl in He'. rewrite <-app_assoc in He'.
  destruct (read_line_from_line buffer body' line _ ends Hc' (Forall_lookup_1 _ _ _ _ Hl Hline) He')
    as (buffer2&body2&Hr&Hc2&He2).
  exists buffer2, body2. simpl. rewrite Hs. simpl. by rewrite Hr.
Qed.

(** Past the last newline: what is left, and then nothing, for as long as the end of
    the input is answered. *)
Lemma stdin_after_end script n buffer body k :
  stdin_after script n = Some (buffer, body ++ replicate (S k) (Bytes [])) →
  Forall (λ a, calm a = true) body → NEWLINE ∉ buffer ++ input body →
  nth_read script n = Some (Ok (buffer ++ input body))
  ∧ ∀ j, (j <= k)%nat → stdin_after script (S j + n) = Some ([], replicate (k - j) (Bytes [])).
Proof.
  intros Hs Hc Hn.
  assert (read_line_from buffer (body ++ replicate (S k) (Bytes []))
    = Some (Ok (buffer ++ input body), [], replicate k (Bytes []))) as Hr.
  { unfold read_line_from. rewrite (proj2 (take_line_None buffer)) by set_solver.
    by apply read_loop_end. }
  simpl in Hs, Hr. split; [unfold nth_read; rewrite Hs; simpl; by rewrite Hr|].
  induction j as [|j IH]; intros Hj.
  - simpl. rewrite Hs. simpl. rewrite Hr. simpl. by rewrite Nat.sub_0_r.
  - change (S (S j) + n)%nat with (S (S j + n)). cbn [stdin_after]. rewrite IH by lia.
    replace (k - j)%nat with (S (k - S j)) by lia. done.
Qed.

(** ** Properties *)

Section properties.
Context (sc : list answer) (programs : list (list call)).

(** C11: standard input is read in launch order: however the fibers interleave, the
    cell of the launch with ticket [n] is only ever resolved to what the [n]th of a
    sequence of reads made one after the other returns - its line, or the report of
    its error -, and every value a fiber is given, or fault it aborts with, is that. *)
Theorem stdin_in_launch_order es s :
  run es (start sc programs) = Some s →
  (∀ n c, cells s !! n = Some c → state c ≠ Pending →
     ∃ line, nth_read sc n = Some line ∧ state c = settled line)
  ∧ (∀ i f n v, fibers s !! i = Some f → (n, v) ∈ values f → nth_read sc n = Some (Ok v))
  ∧ (∀ i f report, fibers s !! i = Some f → at_ f = Aborted report →
     ∃ n error, nth_read sc n = Some (Err error) ∧ report = fail_read error).
Proof.
  intros Hr. destruct (run_invariant _ _ _ _ (Inv_step sc) (deferred_start sc programs) Hr) as [_ HO].
  split_and!.
  - intros n c Hc Hp. pose proof (cells_ok _ s HO n c Hc) as H. by destruct (state c).
  - intros i f n v Hi Hv. destruct (given_ok _ s HO i f Hi) as [Hg _].
    destruct (Hg n v Hv) as ([b|e]&Hn&E); [|done]. by injection E as ->.
  - intros i f report Hi Hp. destruct (given_ok _ s HO i f Hi) as [_ Hg]. rewrite Hp in Hg.
    destruct Hg as (n&[b|e]&Hn&E); [done|]. injection E as ->. by exists n, e.
Qed.

(** C12: no wake-up is lost and nothing deadlocks: while the system still has answers
    to [read(2)], an interleaving that cannot go on has served every ticket, resolved
    every cell and left every fiber at rest; and from wherever an interleaving has got
    to, it can go on until then. *)
Theorem stdin_served es s :
  run es (start sc programs) = Some s →
  ((∀ i, exec i s = None) → script s = [] ∨ finished s)
  ∧ ∃ es' s', run es' s = Some s' ∧ (script s' = [] ∨ finished s').
Proof.
  intros Hr. pose proof (run_invariant _ _ _ _ (Inv_step sc) (deferred_start sc programs) Hr) as HI.
  assert (∀ s, Inv sc s → (script s = [] ∨ finished s) ∨
    ∃ e s', exec e s = Some s' ∧ (Z.to_nat (total_weight s') < Z.to_nat (total_weight s))%nat) as Hstep.
  { clear. intros s HI. destruct (decide (script s = [])) as [|Hsc]; [by left; left|].
    destruct (can_get_on sc s HI Hsc) as [|(i&f&Hi&Hg&Hf)]; [by left; right|right].
    destruct (gets_on_steps sc s i f HI Hsc Hi Hg Hf) as [s' He]. exists i, s'. split; [done|].
    pose proof (gets_on_decreases i s s' f Hi Hg He). pose proof (total_weight_nonneg s'). lia. }
  split.
  - intros Hs. destruct (Hstep s HI) as [|(i&s'&He&_)]; [done|]. by rewrite Hs in He.
  - by apply (run_progress (Inv sc) _ (λ s, Z.to_nat (total_weight s))); [apply Inv_step| |].
Qed.
End properties.

(** C13: a read returns a line: for an input made of lines and an unterminated tail, in
    pieces of any size, delayed and interrupted in any way and then at its end, the
    reads return the lines, without the newline and a carriage return before it, then
    the tail, and then the empty text for ever. *)
Theorem reads_are_lines lines tail body ends :
  Forall (λ a, calm a = true) body →
  Forall (λ line, NEWLINE ∉ line) lines → NEWLINE ∉ tail →
  input body = concat (terminate <$> lines) ++ tail →
  (∀ n line, lines !! n = Some line →
     nth_read (body ++ replicate (S ends) (Bytes [])) n = Some (Ok (strip line)))
  ∧ nth_read (body ++ replicate (S ends) (Bytes [])) (length lines) = Some (Ok tail)
  ∧ ∀ n, (length lines < n <= length lines + ends)%nat →
     nth_read (body ++ replicate (S ends) (Bytes [])) n = Some (Ok []).
Proof.
  intros Hc Hl Ht He. split.
  - intros n line Hn. pose proof (lookup_lt_Some _ _ _ Hn) as Hlt.
    destruct (stdin_after_lines lines tail body (replicate (S ends) (Bytes [])) n Hc Hl He ltac:(lia))
      as (buffer&body'&Hs&Hc'&He').
    rewrite (drop_S _ _ _ Hn) in He'. simpl in He'. rewrite <-app_assoc in He'.
    destruct (read_line_from_line buffer body' line _ (replicate (S ends) (Bytes [])) Hc'
      (Forall_lookup_1 _ _ _ _ Hl Hn) He') as (buffer2&body2&Hr&_).
    unfold nth_read. rewrite Hs. simpl in *. by rewrite Hr.
  - destruct (stdin_after_lines lines tail body (replicate (S ends) (Bytes [])) (length lines) Hc Hl He ltac:(lia))
      as (buffer&body'&Hs&Hc'&He').
    rewrite drop_all in He'. simpl in He'. subst tail.
    destruct (stdin_after_end _ _ _ _ _ Hs Hc' Ht) as [Hn Hend]. split; [done|].
    intros n Hlt. specialize (Hend (n - S (length lines))%nat ltac:(lia)).
    replace (S (n - S (length lines)) + length lines)%nat with n in Hend by lia.
    unfold nth_read. rewrite Hend.
    by replace (ends - (n - S (length lines)))%nat with (S (ends - (n - length lines))) by lia.
Qed.

(** ** A concrete execution *)

(** Two fibers read three lines between them and force each other's; the reader of
    the second ticket gets to the gate first, and waits. *)
Definition sample_programs : list (list call) := [[ReadStdin; ReadStdin; Force 0; Settle 1]; [Force 1; ReadStdin]].
Definition sample_script : list answer :=
  [WouldBlock None; Bytes [104; 105; 13]; Bytes [10; 121]; Interrupted; Bytes [111; 10; 33]; Bytes []; Bytes []].
Definition sample_events : list nat :=
  [0; 0; 0; 0; 3; 1; 0; 2; 2; 2; 2; 2; 2; 2; 2; 2; 0; 3; 3; 3; 3; 3; 3; 3; 3; 1; 0; 1; 1; 4; 4; 4;
   4; 4; 4]%nat.

Lemma stdin_in_launch_order_witness :
  ∃ s, run sample_events (start sample_script sample_programs) = Some s
  ∧ values <$> fibers s = [[(0%nat, [104; 105])]; [(1%nat, [121; 111])]; []; []; []]
  ∧ nth_read sample_script 1 = Some (Ok [121; 111]).
Proof.
  eexists. split; [by vm_compute|]. split; [by vm_compute|].
  edestruct (stdin_in_launch_order sample_script sample_programs sample_events) as (_&Hv&_); [by vm_compute|].
  apply (Hv 1%nat (mkFiber Idle [] [(1%nat, [121; 111])])); [by vm_compute|by left].
Defined.

Lemma stdin_served_witness :
  ∃ s, run sample_events (start sample_script sample_programs) = Some s
  ∧ (script s = [] ∨ finished s).
Proof.
  eexists. split; [by vm_compute|].
  edestruct (stdin_served sample_script sample_programs sample_events) as [Hs _]; [by vm_compute|].
  apply Hs. intros i. by do 5 (destruct i as [|i]; [by vm_compute|]).
Defined.

Lemma reads_are_lines_witness :
  nth_read (take 5 sample_script ++ replicate 2 (Bytes [])) 0 = Some (Ok (strip [104; 105; 13]))
  ∧ strip [104; 105; 13] = [104; 105]
  ∧ nth_read (take 5 sample_script ++ replicate 2 (Bytes [])) 2 = Some (Ok [33])
  ∧ nth_read (take 5 sample_script ++ replicate 2 (Bytes [])) 3 = Some (Ok []).
Proof.
  destruct (reads_are_lines [[104; 105; 13]; [121; 111]] [33] (take 5 sample_script) 1) as (Hl&Ht&Hend);
    [by repeat (apply Forall_cons; split; [done|])| |unfold NEWLINE; set_solver|done|].
  - repeat (apply Forall_cons; split; [unfold NEWLINE; set_solver|]). by apply Forall_nil.
  - split; [by apply (Hl 0%nat)|]. split; [done|]. split; [done|]. apply Hend. simpl. lia.
Defined.

(** A failed read is its own launch's fault: the line it left behind is the next one's. *)
Example failed_read_keeps_buffer :
  nth_read [Bytes [97]; Failed "EIO"; Bytes [98; 10]] 0 = Some (Err "EIO")
  ∧ nth_read [Bytes [97]; Failed "EIO"; Bytes [98; 10]] 1 = Some (Ok [97; 98]).
Proof. by vm_compute. Qed.
