(* ===== verification/Dispatch.v ===== *)
(** * What a call is lowered to: [codegen/generator/calls.rs], [oracle.rs]

    The code generator's decisions about a call, without the instructions emitted for
    each: which of the compiler's own forms, intrinsics, built-in methods, constructors,
    methods, closures or functions a call names, by the tables the generator's first
    passes fill and by the types the checker recorded. *)

From S2P Require Import Prelude Bytes Token Ast TypeMatch Overloads.

(** The messages of the generator, by what they are about. *)
Inductive CodegenError : Type :=
| NoTypeRecorded (description : string) (span : Span)
| NoMember (name : string)
| OverloadNotFound (symbol : string)
| FunctionNotFound (name : string)
| NoReceiverType (receiver : Expression).

(** The tables of [CodeGenerator] a call is resolved by.  [variables], [globals] and
    [functions] are names of the frame and of the LLVM module; the oracle is keyed by span. *)
Record CodeGenerator : Type := mkGenerator {
  oracle : Span → option Ty;
  overloads : gmap string (list (list Ty * Ty));
  declared_methods : gmap string (gset string);
  sum_variants : gmap string (Z * string);
  named_type_fields : gset string;
  sum_layouts : gset string;
  fn_call_site_arity : gmap string nat;
  var_named_types : gmap string string;
  variables : gset string;
  globals : gset string;
  functions : gset string;
  frame_body_from_corelib : bool
}.

Section dispatch.
Context `{CharTables} (g : CodeGenerator).

Definition expression_type (e : Expression) : option Ty := oracle g (expression_span e).

Definition oracle_type (e : Expression) (description : string) : result CodegenError Ty :=
  ok_or (expression_type e) (NoTypeRecorded description (expression_span e)).

Fixpoint oracle_argument_types (arguments : list Expression) : result CodegenError (list Ty) :=
  match arguments with
  | [] => Ok []
  | a :: arguments =>
      ty ← oracle_type a "an overloaded call's argument";
      tys ← oracle_argument_types arguments;
      Ok (ty :: tys)
  end.

Definition is_overloaded (name : string) : bool := bool_decide (is_Some (overloads g !! name)).

(** The runtime intrinsics. *)
Inductive InfoMember : Type := Platform | Os | QuilonVersion | PointerBits | IsBigEndian | IsAot.
Inductive IntrinsicLowering : Type :=
| Print | Write | Now | ColorEnabled | Exit | TestRegistry | InfoMember_ (member : InfoMember).

(** The table at the head of [intrinsic_lowering]. *)
Definition intrinsic_named (name : string) : option IntrinsicLowering :=
  if bool_decide (name = "core.io.print" ∨ name = "core.io.eprint") then Some Print
  else if bool_decide (name = "core.io.write") then Some Write
  else if bool_decide (name = "core.time.now") then Some Now
  else if bool_decide (name = "__platform") then Some (InfoMember_ Platform)
  else if bool_decide (name = "__os") then Some (InfoMember_ Os)
  else if bool_decide (name = "__quilon_version") then Some (InfoMember_ QuilonVersion)
  else if bool_decide (name = "__pointer_bits") then Some (InfoMember_ PointerBits)
  else if bool_decide (name = "__is_big_endian") then Some (InfoMember_ IsBigEndian)
  else if bool_decide (name = "__is_aot") then Some (InfoMember_ IsAot)
  else if bool_decide (name = "__exit") then Some Exit
  else if bool_decide (name = "__color_enabled") then Some ColorEnabled
  else if is_test_registry_intrinsic name then Some TestRegistry
  else None.

Definition intrinsic_lowering (name : string) (arguments : list Expression) :
    result CodegenError (option IntrinsicLowering) :=
  match intrinsic_named name with
  | None => Ok None
  | Some lowering =>
      if negb (bool_decide (Some (length arguments) = builtin_arity name)) then Ok None
      else if bool_decide (is_Some (renderable_builtin name)) then Ok (Some lowering)
      else if negb (is_overloaded name) then Ok (Some lowering)
      else
        argument_types ← oracle_argument_types arguments;
        Ok (match matching_overload (overloads g) name argument_types with
            | None => Some lowering
            | Some _ => None
            end)
  end.

(** ** Receivers *)

Definition receiver_type_name (e : Expression) : option string :=
  match expression_type e with
  | Some (Ty.Named name _ _) | Some (Ty.Sum name _) => Some name
  | Some _ => None
  | None =>
      match e with
      | Expression.Identifier name _ => var_named_types g !! name
      | Expression.Constructor type_name _ _ => Some type_name
      | _ => None
      end
  end.

Definition is_static_type_receiver (receiver : Expression) : bool :=
  match receiver with
  | Expression.Identifier name _ =>
      negb (bool_decide (name ∈ variables g) || bool_decide (name ∈ globals g))
      && (bool_decide (name ∈ named_type_fields g) || bool_decide (name ∈ sum_layouts g))
  | _ => false
  end.

Definition method_symbol_for (name : string) (arguments : list Expression) (member_call : bool) :
    result CodegenError (option string) :=
  if negb member_call then Ok None
  else
    match declared_methods g !! name, arguments with
    | Some declaring, receiver :: rest =>
        match receiver_type_name receiver with
        | None => Ok None
        | Some type_name =>
            if negb (bool_decide (type_name ∈ declaring)) then Ok None
            else
              let qualified_name := type_name +:+ "." +:+ name in
              if is_overloaded qualified_name then
                arg_types ← oracle_argument_types rest;
                Ok (resolve_overload_symbol (overloads g) qualified_name arg_types)
              else Ok (Some (method_symbol type_name name))
        end
    | _, _ => Ok None
    end.

Definition fills_call_site (name : string) (arguments : list Expression) (member_call : bool) :
    result CodegenError bool :=
  method ← method_symbol_for name arguments member_call;
  match method with
  | Some _ => Ok false
  | None =>
      if is_overloaded name then
        arg_types ← oracle_argument_types arguments;
        Ok (match matching_overload (overloads g) name arg_types with
            | Some (parameters, _) => Ast.fills_call_site parameters (length arguments)
            | None => false
            end)
      else Ok (bool_decide (fn_call_site_arity g !! name = Some (S (length arguments))))
  end.

(** ** The dispatch of a call *)

(** What [generate_call] emits. *)
Inductive Target : Type :=
| ClosureValue                              (* the callee is an expression or a bound closure *)
| Assertion
| RunCase
| AtPrimitive (primitive : string)
| NetMember (type_name name : string)
| FrameBody
| BodyProgress
| Intrinsic (lowering : IntrinsicLowering)
| ArrayMethod | TextMethod | MapMethod | SetMethod
| SumConstructor (tag : Z) (type_name : string)
| Method (symbol : string) (static_receiver : bool)
| Direct (symbol : string) (fills_call_site : bool).

(** The members of [core.net]'s handles the compiler lowers itself. *)
Definition net_member (type_name name : string) : bool :=
  bool_decide ((type_name, name) ∈
    [("core.net.Connection", "close"); ("core.net.Server", "kill");
     ("core.net.Server", "address"); ("core.net.Server", "addresses")]).

(** The forms lowered by name ahead of the dispatch chain. *)
Definition compiler_form (name : string) (arguments : list Expression) (member_call : bool) : option Target :=
  if negb member_call && is_assertion name then Some Assertion
  else if negb member_call && is_run_test_case name then Some RunCase
  else match at_primitive_name name with
  | Some primitive => Some (AtPrimitive primitive)
  | None =>
      match (if member_call then receiver ← head arguments; receiver_type_name receiver else None) with
      | Some type_name => if net_member type_name name then Some (NetMember type_name name) else None
      | None =>
          if negb member_call
             && (bool_decide (name = "core.http.frameBody")
                 || bool_decide (name = "frameBody") && frame_body_from_corelib g) then Some FrameBody
          else if negb member_call
             && (bool_decide (name = "core.http.bodyProgress")
                 || bool_decide (name = "bodyProgress") && frame_body_from_corelib g) then Some BodyProgress
          else None
      end
  end.

(** The built-in methods, reserved on a receiver of the built-in type. *)
Definition builtin_method (name : string) (arguments : list Expression) : option Target :=
  receiver ← head arguments;
  match expression_type receiver with
  | Some (Ty.Array _) => if is_array_method name then Some ArrayMethod else None
  | Some Ty.Text => if is_text_method name then Some TextMethod else None
  | Some (Ty.Map _ _) => if is_map_method name then Some MapMethod else None
  | Some (Ty.Set_ _) => if is_set_method name then Some SetMethod else None
  | _ => None
  end.

(** A local bound to a closure value. *)
Definition bound_closure (name : string) (span : Span) : bool :=
  bool_decide (name ∈ variables g)
  && match oracle g span with Some (Ty.Function _ _) => true | _ => false end.

(** The end of [generate_call]: a function of the top-level namespace. *)
Definition direct_call (name : string) (arguments : list Expression) (member_call : bool) :
    result CodegenError Target :=
  overload_symbol ← (if is_overloaded name
                     then arg_types ← oracle_argument_types arguments;
                          Ok (resolve_overload_symbol (overloads g) name arg_types)
                     else Ok None);
  fills ← fills_call_site name arguments member_call;
  match overload_symbol with
  | Some sym => if bool_decide (sym ∈ functions g) then Ok (Direct sym fills) else Err (OverloadNotFound sym)
  | None => if bool_decide (name ∈ functions g) then Ok (Direct name fills) else Err (FunctionNotFound name)
  end.

(** The callee and the decision, in the order [generate_call] asks. *)
Definition generate_call (function : Expression) (arguments : list Expression) (member_call : bool) :
    result CodegenError Target :=
  match function with
  | Expression.Identifier name span =>
      match compiler_form name arguments member_call with
      | Some target => Ok target
      | None =>
          method ← method_symbol_for name arguments member_call;
          let method_callee := symbol ← method; if decide (symbol ∈ functions g) then Some symbol else None in
          lowering ← (match method_callee with
                      | None => intrinsic_lowering name arguments
                      | Some _ => Ok None
                      end);
          match lowering, (if member_call then builtin_method name arguments else None),
                (if member_call then None else sum_variants g !! name), method_callee with
          | Some lowering, _, _, _ => Ok (Intrinsic lowering)
          | None, Some target, _, _ => Ok target
          | None, None, Some (tag, type_name), _ => Ok (SumConstructor tag type_name)
          | None, None, None, Some symbol =>
              match arguments with
              | receiver :: _ =>
                  if is_static_type_receiver receiver then
                    match receiver_type_name receiver with
                    | Some _ => Ok (Method symbol true)
                    | None => Err (NoReceiverType receiver)
                    end
                  else Ok (Method symbol false)
              | [] => Ok (Method symbol false)
              end
          | None, None, None, None =>
              if member_call then Err (NoMember name)
              else if bound_closure name span then Ok ClosureValue
              else direct_call name arguments member_call
          end
      end
  | _ => Ok ClosureValue
  end.

(** The symbol of the function a call calls directly, and how many values it passes. *)
Definition callee (target : Target) : option string :=
  match target with Method symbol _ | Direct symbol _ => Some symbol | _ => None end.

Definition passed (arguments : list Expression) (target : Target) : nat :=
  match target with
  | Direct _ true => S (length arguments)
  | _ => length arguments
  end.
End dispatch.
