(* ===== verification/TailCalls.v ===== *)
(** * Self-tail-calls as loops: [codegen/generator/tco.rs]

    The analysis that finds a self-call in tail position, the lowering that turns it
    into a back-edge, and the entry of a function that has one.  What is emitted is a
    tree of the pieces a body's exits are made of: non-tail code is emitted whole.
    Proved: the analysis and the lowering agree on what a tail self-call is, and both
    with the dispatch of an ordinary call except where a local closure takes the
    function's own name; and a body falls through exactly when some exit does not loop. *)

From S2P Require Import Prelude Bytes Token Ast Lexer TypeMatch TypeErrors Checker Overloads Walk CheckerProps Dispatch.

Section tail_calls.
Context `{CharTables} (g : CodeGenerator).

(** ** The analysis *)

Definition is_self_tail_call (e : Expression) (self_symbol : string) (arity : nat) :
    result CodegenError bool :=
  match e with
  | Expression.Call (Expression.Identifier name _) arguments member_call _ =>
      right_arity ← (if (length arguments =? arity)%nat then Ok true
                     else if (length arguments + 1 =? arity)%nat
                          then fills_call_site g name arguments member_call
                          else Ok false);
      if negb right_arity then Ok false
      else if bool_decide (is_Some (sum_variants g !! name)) then Ok false
      else
        lowering ← intrinsic_lowering g name arguments;
        match lowering with
        | Some _ => Ok false
        | None =>
            method ← method_symbol_for g name arguments member_call;
            match method with
            | Some symbol => Ok (bool_decide (symbol = self_symbol))
            | None =>
                if member_call then Ok false
                else if is_overloaded g name then
                  arg_types ← oracle_argument_types g arguments;
                  match resolve_overload_symbol (overloads g) name arg_types with
                  | Some symbol => Ok (bool_decide (symbol = self_symbol))
                  | None => Ok false
                  end
                else Ok (bool_decide (name = self_symbol))
            end
        end
  | _ => Ok false
  end.

Fixpoint expression_has_self_tail_call (e : Expression) (self_symbol : string) (arity : nat) :
    result CodegenError bool :=
  match e with
  | Expression.Call _ _ _ _ => is_self_tail_call e self_symbol arity
  | Expression.Block statements _ =>
      (fix in_last (statements : list (Statement Expression)) : result CodegenError bool :=
         match statements with
         | [] => Ok false
         | [StatementExpression tail] => expression_has_self_tail_call tail self_symbol arity
         | [StatementItem _] => Ok false
         | _ :: statements => in_last statements
         end) statements
  | Expression.If _ then_ else_ _ =>
      in_then ← expression_has_self_tail_call then_ self_symbol arity;
      if (in_then : bool) then Ok true else expression_has_self_tail_call else_ self_symbol arity
  | Expression.Match _ arms _ =>
      (fix in_arms (arms : list (MatchArm Expression)) : result CodegenError bool :=
         match arms with
         | [] => Ok false
         | arm :: arms =>
             found ← expression_has_self_tail_call (arm_body arm) self_symbol arity;
             if (found : bool) then Ok true else in_arms arms
         end) arms
  | _ => Ok false
  end.

Definition body_has_self_tail_call (declaration : FunctionDeclaration Expression) (self_symbol : string) :
    result CodegenError bool :=
  expression_has_self_tail_call (function_body declaration) self_symbol (length (parameters declaration)).

(** ** The lowering *)

(** What is emitted for an expression in tail position. *)
Inductive tail_code : Type :=
| Value (e : Expression)                              (* [generate_expression] *)
| WholeBlock (statements : list (Statement Expression)) (span : Span)  (* [generate_block] *)
| BackEdge (arguments : list Expression) (fill_site : option Span)     (* [emit_tail_self_call] *)
| Sequence (init : list (Statement Expression)) (tail : tail_code)
| Branch (condition : Expression) (then_ else_ : tail_code)
| Arms (scrutinee : Expression) (arms : list (MatchArm Expression * tail_code)).

(** The active [Tco] context. *)
Record Tco : Type := mkTco { self_symbol : string; slots : nat; body_span : Span }.

Fixpoint generate_tail_expression (tco : Tco) (e : Expression) : result CodegenError tail_code :=
  match e with
  | Expression.Call _ arguments _ span =>
      self ← is_self_tail_call e (self_symbol tco) (slots tco);
      Ok (if (self : bool)
          then BackEdge arguments (if (length arguments <? slots tco)%nat then Some span else None)
          else Value e)
  | Expression.Block statements span =>
      (fix split_last (init statements : list (Statement Expression)) : result CodegenError tail_code :=
         match statements with
         | [StatementExpression tail] =>
             code ← generate_tail_expression tco tail; Ok (Sequence (reverse init) code)
         | [] | [StatementItem _] => Ok (WholeBlock (reverse init ++ statements) span)
         | statement :: statements => split_last (statement :: init) statements
         end) [] statements
  | Expression.If condition then_ else_ _ =>
      then_code ← generate_tail_expression tco then_;
      else_code ← generate_tail_expression tco else_;
      Ok (Branch condition then_code else_code)
  | Expression.Match scrutinee arms _ =>
      codes ← (fix each (arms : list (MatchArm Expression)) : result CodegenError (list (MatchArm Expression * tail_code)) :=
                 match arms with
                 | [] => Ok []
                 | arm :: arms =>
                     code ← generate_tail_expression tco (arm_body arm);
                     codes ← each arms;
                     Ok ((arm, code) :: codes)
                 end) arms;
      Ok (Arms scrutinee codes)
  | e => Ok (Value e)
  end.

(** Whether the code leaves a value, as the [Some]s and [None]s are merged. *)
Fixpoint falls_through (code : tail_code) : bool :=
  match code with
  | Value _ | WholeBlock _ _ => true
  | BackEdge _ _ => false
  | Sequence _ tail => falls_through tail
  | Branch _ then_ else_ => falls_through then_ || falls_through else_
  | Arms _ arms => existsb (λ '(_, code), falls_through code) arms
  end.

(** How [emit_module_function] emits a body: in place, or behind a loop header. *)
Inductive body_code : Type := Plain (body : Expression) | Loop (tco : Tco) (code : tail_code).

Definition emit_body (declaration : FunctionDeclaration Expression) (symbol : string) :
    result CodegenError body_code :=
  has ← body_has_self_tail_call declaration symbol;
  if (has : bool) then
    let tco := mkTco symbol (length (parameters declaration)) (expression_span (function_body declaration)) in
    code ← generate_tail_expression tco (function_body declaration);
    Ok (Loop tco code)
  else Ok (Plain (function_body declaration)).

(** ** Tail position

    The leaves whose value is the body's, and the ways out of emitted code. *)

Definition is_leaf (e : Expression) : bool :=
  match e with
  | Expression.Block statements _ =>
      match last statements with Some (StatementExpression _) => false | _ => true end
  | Expression.If _ _ _ _ | Expression.Match _ _ _ => false
  | _ => true
  end.

Inductive tail_position : Expression → Expression → Prop :=
| tail_block statements span tail e :
    last statements = Some (StatementExpression tail) → tail_position tail e →
    tail_position (Expression.Block statements span) e
| tail_then condition then_ else_ span e :
    tail_position then_ e → tail_position (Expression.If condition then_ else_ span) e
| tail_else condition then_ else_ span e :
    tail_position else_ e → tail_position (Expression.If condition then_ else_ span) e
| tail_arm scrutinee arms span arm e :
    arm ∈ arms → tail_position (arm_body arm) e → tail_position (Expression.Match scrutinee arms span) e
| tail_leaf e : is_leaf e = true → tail_position e e.

Inductive exit : Type := Falls (e : Expression) | Loops (arguments : list Expression) (fill_site : option Span).

Fixpoint exits (code : tail_code) : list exit :=
  match code with
  | Value e => [Falls e]
  | WholeBlock statements span => [Falls (Expression.Block statements span)]
  | BackEdge arguments fill_site => [Loops arguments fill_site]
  | Sequence _ tail => exits tail
  | Branch _ then_ else_ => exits then_ ++ exits else_
  | Arms _ arms => arms ≫= λ '(_, code), exits code
  end.

(** The exit a leaf becomes in a function of this symbol and arity. *)
Definition exit_of (tco : Tco) (leaf : Expression) : result CodegenError exit :=
  self ← is_self_tail_call leaf (self_symbol tco) (slots tco);
  Ok (match leaf, (self : bool) with
      | Expression.Call _ arguments _ span, true =>
          Loops arguments (if (length arguments <? slots tco)%nat then Some span else None)
      | _, _ => Falls leaf
      end).

(** ** The shape of the two walks *)

Lemma has_block statements span symbol n :
  expression_has_self_tail_call (Expression.Block statements span) symbol n
  = match last statements with
    | Some (StatementExpression tail) => expression_has_self_tail_call tail symbol n
    | _ => Ok false
    end.
Proof.
  induction statements as [|s statements IH]; [done|].
  destruct statements as [|s' statements]; [by destruct s|]. by destruct s; exact IH.
Qed.

Lemma generate_block_tail tco statements span :
  generate_tail_expression tco (Expression.Block statements span)
  = match last statements with
    | Some (StatementExpression tail) =>
        code ← generate_tail_expression tco tail;
        Ok (Sequence (take (pred (length statements)) statements) code)
    | _ => Ok (WholeBlock statements span)
    end.
Proof.
  cbn [generate_tail_expression].
  match goal with |- ?f [] statements = _ => set (split := f) end.
  assert (∀ statements init, split init statements
    = match last statements with
      | Some (StatementExpression tail) =>
          code ← generate_tail_expression tco tail;
          Ok (Sequence (reverse init ++ take (pred (length statements)) statements) code)
      | _ => Ok (WholeBlock (reverse init ++ statements) span)
      end) as Hsplit; [|by rewrite Hsplit].
  clear statements. induction statements as [|s statements IH]; intros init; [done|].
  destruct statements as [|s' statements].
  - destruct s; simpl; by rewrite ?app_nil_r.
  - assert (split init (s :: s' :: statements) = split (s :: init) (s' :: statements)) as -> by by destruct s.
    rewrite IH. change (last (s :: s' :: statements)) with (last (s' :: statements)).
    rewrite reverse_cons, <-!app_assoc. simpl. by destruct (last (s' :: statements)) as [[]|].
Qed.

Lemma has_match scrutinee arms span symbol n :
  expression_has_self_tail_call (Expression.Match scrutinee arms span) symbol n
  = match arms with
    | [] => Ok false
    | arm :: arms =>
        found ← expression_has_self_tail_call (arm_body arm) symbol n;
        if (found : bool) then Ok true
        else expression_has_self_tail_call (Expression.Match scrutinee arms span) symbol n
    end.
Proof. by destruct arms. Qed.

Lemma last_part statements tail :
  last statements = Some (StatementExpression tail) → tail ∈ statements ≫= statement_parts.
Proof.
  intros Hl. apply list_elem_of_bind. exists (StatementExpression tail). split; [by left|].
  by apply last_Some_elem_of.
Qed.

(** ** The two walks find the same tail calls *)

Ltac own_leaf :=
  match goal with H : tail_position _ _ |- _ => inversion H; clear H; subst; simpl in *; try done end.

(** What the analysis is to answer. *)
Definition answers symbol n e (b : bool) : Prop :=
  if b then ∃ leaf, tail_position e leaf ∧ is_self_tail_call leaf symbol n = Ok true
  else ∀ leaf, tail_position e leaf → is_self_tail_call leaf symbol n = Ok false.

Lemma has_tail_arms symbol n scrutinee span arms :
  (∀ arm, arm ∈ arms → ∀ b,
     expression_has_self_tail_call (arm_body arm) symbol n = Ok b → answers symbol n (arm_body arm) b) →
  ∀ b, expression_has_self_tail_call (Expression.Match scrutinee arms span) symbol n = Ok b →
  answers symbol n (Expression.Match scrutinee arms span) b.
Proof.
  induction arms as [|arm arms IHa]; intros IH b Hb; rewrite has_match in Hb.
  - injection Hb as <-. intros leaf Hl. own_leaf. by apply elem_of_nil in H4.
  - apply result_bind_Ok in Hb as (found&Hf&Hb). apply IH in Hf; [|by left]. destruct found.
    + injection Hb as <-. destruct Hf as (leaf&Hl&Hs). exists leaf. split; [|done].
      eapply tail_arm; [by left|done].
    + apply IHa in Hb; [|intros a Ha; apply IH; by right]. destruct b.
      * destruct Hb as (leaf&Hl&Hs). exists leaf. split; [|done]. own_leaf. eapply tail_arm; [by right|done].
      * intros leaf Hl. own_leaf. apply elem_of_cons in H4 as [->|Hin]; [by apply Hf|].
        apply Hb. by eapply tail_arm.
Qed.

Lemma has_tail symbol n e : ∀ b,
  expression_has_self_tail_call e symbol n = Ok b → answers symbol n e b.
Proof.
  induction e as [e IH] using Expression_parts_ind. rewrite Forall_forall in IH. intros b Hb.
  destruct e; try (simpl in Hb; injection Hb as <-; intros leaf Hl; own_leaf; fail).
  - simpl in Hb. destruct b; [eexists; split; [by apply tail_leaf|done]|]. intros leaf Hl. by own_leaf.
  - rewrite has_block in Hb. destruct (last statements) as [[i|tail]|] eqn:Hlast.
    + injection Hb as <-. intros leaf Hl. own_leaf; congruence.
    + apply IH in Hb; [|by apply last_part]. destruct b.
      * destruct Hb as (leaf&Hl&Hs). exists leaf. split; [by eapply tail_block|done].
      * intros leaf Hl. own_leaf. simplify_eq. by apply Hb.
    + injection Hb as <-. intros leaf Hl. own_leaf; congruence.
  - simpl in Hb. apply result_bind_Ok in Hb as (in_then&Hthen&Hb).
    apply IH in Hthen; [|simpl; set_solver]. destruct in_then.
    + injection Hb as <-. destruct Hthen as (leaf&Hl&Hs). exists leaf. split; [by apply tail_then|done].
    + apply IH in Hb; [|simpl; set_solver]. destruct b.
      * destruct Hb as (leaf&Hl&Hs). exists leaf. split; [by apply tail_else|done].
      * intros leaf Hl. own_leaf; auto.
  - apply has_tail_arms; [|done]. intros arm Ha. apply IH. simpl. right. apply list_elem_of_fmap. by exists arm.
Qed.

(** What the lowering is to emit. *)
Definition lowers tco e (code : tail_code) : Prop :=
  ∀ x, x ∈ exits code ↔ ∃ leaf, tail_position e leaf ∧ exit_of tco leaf = Ok x.

Lemma lowers_leaf tco e : is_leaf e = true → (∀ symbol n, is_self_tail_call e symbol n = Ok false) →
  ∀ code, exits code = [Falls e] → lowers tco e code.
Proof.
  intros Hl Hs code He x. rewrite He, list_elem_of_singleton.
  assert (exit_of tco e = Ok (Falls e)) as Hx.
  { unfold exit_of. rewrite Hs. simpl. by destruct e. }
  split; [intros ->; exists e; split; [by apply tail_leaf|done]|].
  intros (leaf&Ht&Hleaf).
  assert (leaf = e) as -> by (inversion Ht; subst; simpl in Hl; by simplify_option_eq). congruence.
Qed.

Lemma lowers_arms tco scrutinee span arms :
  (∀ arm, arm ∈ arms → ∀ code,
     generate_tail_expression tco (arm_body arm) = Ok code → lowers tco (arm_body arm) code) →
  ∀ code, generate_tail_expression tco (Expression.Match scrutinee arms span) = Ok code →
  ∃ codes, code = Arms scrutinee codes ∧ codes.*1 = arms ∧ lowers tco (Expression.Match scrutinee arms span) code.
Proof.
  intros IH code Hc. cbn [generate_tail_expression] in Hc. apply result_bind_Ok in Hc as (codes&Hc&[= <-]).
  exists codes. split; [done|].
  enough (codes.*1 = arms ∧ ∀ x, x ∈ (codes ≫= λ '(_, code), exits code) ↔
    ∃ arm leaf, arm ∈ arms ∧ tail_position (arm_body arm) leaf ∧ exit_of tco leaf = Ok x) as [Hfst Hx].
  { split; [done|]. intros x. simpl. rewrite Hx. split.
    - intros (arm&leaf&Ha&Ht&He). exists leaf. split; [by eapply tail_arm|done].
    - intros (leaf&Ht&He). own_leaf. eauto. }
  revert codes Hc IH. induction arms as [|arm arms IHa]; intros codes Hc IH.
  - injection Hc as <-. split; [done|]. intros x. split; [intros Hx; by apply elem_of_nil in Hx|].
    intros (arm&_&Ha&_). by apply elem_of_nil in Ha.
  - apply result_bind_Ok in Hc as (code&Hcode&Hc). apply result_bind_Ok in Hc as (rest&Hrest&[= <-]).
    destruct (IHa rest Hrest) as [Hfst Hx]; [intros a Ha; apply IH; by right|].
    split; [by rewrite <-Hfst|]. intros x. simpl. rewrite elem_of_app, Hx.
    rewrite (IH arm ltac:(by left) code Hcode x). split.
    + intros [(leaf&?&?)|(a&leaf&?&?&?)]; [exists arm, leaf|exists a, leaf]; split_and!; try done; [by left|by right].
    + intros (a&leaf&[->|Ha]%elem_of_cons&?&?); eauto 6.
Qed.

Lemma lowering tco e : ∀ code, generate_tail_expression tco e = Ok code → lowers tco e code.
Proof.
  induction e as [e IH] using Expression_parts_ind. rewrite Forall_forall in IH. intros code Hc.
  destruct e; try (simpl in Hc; injection Hc as <-; by apply lowers_leaf).
  - cbn [generate_tail_expression] in Hc. apply result_bind_Ok in Hc as (self&Hs&[= <-]). intros x. split.
    + intros Hx. exists (Expression.Call e arguments member_call span). split; [by apply tail_leaf|].
      unfold exit_of. rewrite Hs. destruct self; simpl in Hx; by apply list_elem_of_singleton in Hx as ->.
    + intros (leaf&Ht&Hx). inversion Ht; subst. unfold exit_of in Hx. rewrite Hs in Hx. injection Hx as <-.
      destruct self; by left.
  - rewrite generate_block_tail in Hc. destruct (last statements) as [[i|tail]|] eqn:Hlast.
    + injection Hc as <-. apply lowers_leaf; try done. simpl. by rewrite Hlast.
    + apply result_bind_Ok in Hc as (c&Hc&[= <-]). apply IH in Hc; [|by apply last_part].
      intros x. simpl. rewrite (Hc x). split; intros (leaf&Ht&Hx); exists leaf; (split; [|done]).
      * by eapply tail_block.
      * inversion Ht; subst; simpl in *; simplify_option_eq; done.
    + injection Hc as <-. apply lowers_leaf; try done. simpl. by rewrite Hlast.
  - cbn [generate_tail_expression] in Hc. apply result_bind_Ok in Hc as (c1&H1&Hc).
    apply result_bind_Ok in Hc as (c2&H2&[= <-]).
    apply IH in H1; [|simpl; set_solver]. apply IH in H2; [|simpl; set_solver].
    intros x. simpl. rewrite elem_of_app, (H1 x), (H2 x). split.
    + intros [(leaf&?&?)|(leaf&?&?)]; exists leaf; (split; [|done]); [by apply tail_then|by apply tail_else].
    + intros (leaf&Ht&Hx). own_leaf; eauto.
  - destruct (lowers_arms tco e span arms) with (code := code) as (?&_&_&Hl); try done.
    intros arm Ha. apply IH. simpl. right. apply list_elem_of_fmap. by exists arm.
Qed.

Lemma falls_through_exits : ∀ code, falls_through code = true ↔ ∃ e, Falls e ∈ exits code.
Proof.
  fix IH 1. intros [e|ss sp|a f|init tail|c t e|scr arms]; simpl.
  - split; [intros _; exists e; by left|done].
  - split; [intros _; eexists; by left|done].
  - split; [done|]. intros (e&He%list_elem_of_singleton). done.
  - apply IH.
  - rewrite orb_true_iff, (IH t), (IH e). clear IH. setoid_rewrite elem_of_app. naive_solver.
  - induction arms as [|[arm code] arms IHa]; simpl.
    + split; [done|]. intros (e&He%elem_of_nil). done.
    + rewrite orb_true_iff, IHa, (IH code). clear IH IHa. setoid_rewrite elem_of_app. naive_solver.
Qed.

(** ** The analysis and the dispatch of a call *)

(** The function being emitted is in the tables the way the first passes leave it. *)
Record declared (symbol : string) (n : nat) : Prop := {
  emitted : symbol ∈ functions g;
  sited : ∀ k, fn_call_site_arity g !! symbol = Some k → k = n;
  listed : ∀ name set m, overloads g !! name = Some set → m ∈ set →
    mangle_overload name m.1 = symbol → length m.1 = n
}.

(** A call the checker accepted of an ordinary name: methods are declared before any
    body, an overloaded call has a member, a member is no variant and no intrinsic. *)
Record ordinary (name : string) (arguments : list Expression) (member_call : bool) : Prop := {
  no_form : compiler_form g name arguments member_call = None;
  declared_method : ∀ symbol, method_symbol_for g name arguments member_call = Ok (Some symbol) →
    symbol ∈ functions g;
  resolved : member_call = false → is_overloaded g name = true →
    ∀ types, oracle_argument_types g arguments = Ok types →
    is_Some (resolve_overload_symbol (overloads g) name types);
  member_name : member_call = true → sum_variants g !! name = None ∧ intrinsic_named name = None
}.

Lemma builtin_no_method name arguments target symbol :
  builtin_method g name arguments = Some target →
  method_symbol_for g name arguments true ≠ Ok (Some symbol).
Proof.
  unfold builtin_method, method_symbol_for. intros (receiver&Hr&Hb)%bind_Some.
  destruct arguments as [|r rest]; [done|]. injection Hr as ->. simpl.
  destruct (declared_methods g !! name); [|done].
  unfold receiver_type_name. by destruct (expression_type g receiver) as [[]|].
Qed.

Lemma matching_listed name types m :
  matching_overload (overloads g) name types = Some m → ∃ set, overloads g !! name = Some set ∧ m ∈ set.
Proof.
  unfold matching_overload. intros (set&Hs&Hm)%bind_Some. exists set. split; [done|].
  apply fmap_Some in Hm as ([i m']&Hf&->). apply list_find_Some in Hf as (Hi&_).
  by eapply list_elem_of_lookup_2.
Qed.

(** A call whose callee this is does not also fill a call site at full arity. *)
Lemma full_arity symbol n name arguments :
  declared symbol n → length arguments = n →
  (if is_overloaded g name
   then ∃ types, oracle_argument_types g arguments = Ok types
        ∧ resolve_overload_symbol (overloads g) name types = Some symbol
   else name = symbol) →
  fills_call_site g name arguments false = Ok false.
Proof.
  intros Hd Hn Hs. unfold fills_call_site. simpl. destruct (is_overloaded g name).
  - destruct Hs as (types&->&Hr). simpl. unfold resolve_overload_symbol in Hr.
    destruct (matching_overload _ name types) as [[ps ret]|] eqn:Hm; [|done]. injection Hr as <-.
    destruct (matching_listed _ _ _ Hm) as (set&Hset&Hin).
    pose proof (listed _ _ Hd _ _ _ Hset Hin eq_refl) as Hlen. simpl in Hlen.
    unfold Ast.fills_call_site. by rewrite Hlen, Hn, (proj2 (Nat.eqb_neq n (n + 1))) by lia.
  - subst name. rewrite bool_decide_false; [done|]. intros Hf. apply (sited _ _ Hd) in Hf. lia.
Qed.

(** A member call is a self-call when the receiver's method is the function. *)
Lemma method_answer symbol n name span call_span arguments :
  ordinary name arguments true →
  is_self_tail_call (Expression.Call (Expression.Identifier name span) arguments true call_span) symbol n = Ok true
  ↔ length arguments = n ∧ method_symbol_for g name arguments true = Ok (Some symbol).
Proof.
  intros [_ _ _ Hmember]. destruct (Hmember eq_refl) as [Hv Hin].
  unfold is_self_tail_call, intrinsic_lowering. rewrite Hv, Hin, bool_decide_false by (by intros []). simpl.
  unfold fills_call_site. destruct (Nat.eqb_spec (length arguments) n) as [Hn|Hn]; simpl.
  - destruct (method_symbol_for g name arguments true) as [[m|]|err]; simpl; try naive_solver.
    split; [intros [= ->%bool_decide_eq_true]; done|intros [_ [= ->]]; by rewrite bool_decide_true by done].
  - split; [|naive_solver]. destruct (length arguments + 1 =? n)%nat; [|done].
    destruct (method_symbol_for g name arguments true) as [[m|]|err]; simpl; [done| |done].
    match goal with |- ?r ≫= _ = _ → _ => by destruct r as [[]|] end.
Qed.

Lemma method_dispatch symbol n name span arguments :
  ordinary name arguments true →
  (∃ target, generate_call g (Expression.Identifier name span) arguments true = Ok target
    ∧ callee target = Some symbol ∧ passed arguments target = n)
  ↔ length arguments = n ∧ method_symbol_for g name arguments true = Ok (Some symbol).
Proof.
  intros [Hform Hmethod _ Hmember]. destruct (Hmember eq_refl) as [_ Hin].
  unfold generate_call. rewrite Hform. unfold intrinsic_lowering. rewrite Hin.
  destruct (method_symbol_for g name arguments true) as [[m|]|err] eqn:Hm; simpl.
  - rewrite decide_True by (by apply Hmethod). simpl.
    destruct (builtin_method g name arguments) as [t|] eqn:Hb; [by destruct (builtin_no_method _ _ _ m Hb)|].
    assert (∃ static, match arguments with
      | [] => Ok (Method m false)
      | receiver :: _ =>
          if is_static_type_receiver g receiver
          then match receiver_type_name g receiver with
               | Some _ => Ok (Method m true)
               | None => Err (NoReceiverType receiver)
               end
          else Ok (Method m false)
      end = Ok (Method m static)) as [static ->].
    { destruct arguments as [|r rest]; [by exists false|].
      unfold method_symbol_for in Hm. simpl in Hm.
      destruct (declared_methods g !! name); [|done]. destruct (receiver_type_name g r); [|done].
      destruct (is_static_type_receiver g r); by eexists. }
    split; [intros (?&[= <-]&?&?)|intros [? ?]; eexists]; naive_solver.
  - destruct (builtin_method g name arguments) as [t|] eqn:Hb; [|naive_solver].
    split; [|naive_solver]. intros (?&[= <-]&Hc&_). exfalso. unfold builtin_method in Hb.
    apply bind_Some in Hb as (r&_&Hb). by repeat case_match; simplify_eq.
  - naive_solver.
Qed.

(** A call by name is a self-call when it lowers to no variant or intrinsic and the
    name, or the member the arguments pick, is the function. *)
Definition names_function (symbol name : string) (arguments : list Expression) : Prop :=
  if is_overloaded g name
  then ∃ types, oracle_argument_types g arguments = Ok types
       ∧ resolve_overload_symbol (overloads g) name types = Some symbol
  else name = symbol.

Definition self_call (symbol : string) (n : nat) (name : string) (arguments : list Expression) : Prop :=
  sum_variants g !! name = None
  ∧ intrinsic_lowering g name arguments = Ok None
  ∧ names_function symbol name arguments
  ∧ (length arguments = n ∨ length arguments + 1 = n ∧ fills_call_site g name arguments false = Ok true)%nat.

Lemma function_answer symbol n name span call_span arguments :
  is_self_tail_call (Expression.Call (Expression.Identifier name span) arguments false call_span) symbol n = Ok true
  ↔ self_call symbol n name arguments.
Proof.
  unfold is_self_tail_call, self_call, names_function.
  transitivity ((length arguments = n ∨ length arguments + 1 = n ∧ fills_call_site g name arguments false = Ok true)%nat ∧
    (if bool_decide (is_Some (sum_variants g !! name)) then Ok false
     else
       lowering ← intrinsic_lowering g name arguments;
       match lowering with
       | Some _ => Ok false
       | None =>
           if is_overloaded g name then
             arg_types ← oracle_argument_types g arguments;
             match resolve_overload_symbol (overloads g) name arg_types with
             | Some symbol' => Ok (bool_decide (symbol' = symbol))
             | None => Ok false
             end
           else Ok (bool_decide (name = symbol))
       end) = Ok true).
  - destruct (Nat.eqb_spec (length arguments) n) as [Hn|Hn]; simpl; [naive_solver|].
    destruct (Nat.eqb_spec (length arguments + 1) n) as [Hn'|Hn']; simpl; [|naive_solver].
    destruct (fills_call_site g name arguments false) as [[]|err]; simpl; naive_solver.
  - destruct (sum_variants g !! name) as [v|]; [rewrite bool_decide_true by (by eexists); naive_solver|].
    rewrite bool_decide_false by (by intros []).
    destruct (intrinsic_lowering g name arguments) as [[l|]|err]; simpl; [naive_solver| |naive_solver].
    destruct (is_overloaded g name); simpl.
    + destruct (oracle_argument_types g arguments) as [types|err]; simpl; [|naive_solver].
      destruct (resolve_overload_symbol (overloads g) name types) as [m|] eqn:Hm.
      * split; [intros (?&[= ->%bool_decide_eq_true]); naive_solver|].
        intros (_&_&(?&[= <-]&Hm')&?). split; [done|]. rewrite bool_decide_true by congruence. done.
      * split; [naive_solver|]. intros (_&_&(?&[= <-]&Hm')&?). congruence.
    + split; [intros (?&[= ->%bool_decide_eq_true]); done|intros (_&_&->&?); split; [done|]; by rewrite bool_decide_true by done].
Qed.

Lemma direct_symbol name arguments target :
  direct_call g name arguments false = Ok target →
  (is_overloaded g name = true → ∀ types, oracle_argument_types g arguments = Ok types →
     is_Some (resolve_overload_symbol (overloads g) name types)) →
  ∃ symbol fills, target = Direct symbol fills ∧ names_function symbol name arguments
    ∧ fills_call_site g name arguments false = Ok fills.
Proof.
  unfold direct_call, names_function. intros Hd Hres. destruct (is_overloaded g name).
  - apply result_bind_Ok in Hd as (sym&Hs&Hd). apply result_bind_Ok in Hs as (types&Ht&[= <-]).
    apply result_bind_Ok in Hd as (fills&Hf&Hd). destruct (Hres eq_refl types Ht) as [m Hm]. rewrite Hm in Hd.
    case_bool_decide; [|done]. injection Hd as <-. eauto 7.
  - apply result_bind_Ok in Hd as (sym&[= <-]&Hd). apply result_bind_Ok in Hd as (fills&Hf&Hd).
    case_bool_decide; [|done]. injection Hd as <-. eauto.
Qed.

Lemma symbol_direct symbol name arguments fills :
  symbol ∈ functions g → names_function symbol name arguments →
  fills_call_site g name arguments false = Ok fills →
  direct_call g name arguments false = Ok (Direct symbol fills).
Proof.
  unfold direct_call, names_function. intros Hf Hn Hs. destruct (is_overloaded g name).
  - destruct Hn as (types&->&Hr). simpl. rewrite Hs. simpl. by rewrite Hr, bool_decide_true.
  - subst. simpl. rewrite Hs. simpl. by rewrite bool_decide_true.
Qed.

Lemma function_dispatch symbol n name span arguments :
  declared symbol n → ordinary name arguments false → bound_closure g name span = false →
  (∃ target, generate_call g (Expression.Identifier name span) arguments false = Ok target
    ∧ callee target = Some symbol ∧ passed arguments target = n)
  ↔ self_call symbol n name arguments.
Proof.
  intros Hd [Hform _ Hres _] Hb. unfold generate_call. rewrite Hform, Hb. simpl. unfold self_call.
  destruct (intrinsic_lowering g name arguments) as [[l|]|err]; simpl; [naive_solver| |naive_solver].
  destruct (sum_variants g !! name) as [[tag type_name]|]; [naive_solver|].
  split.
  - intros (target&Ht&Hc&Hp). destruct (direct_symbol _ _ _ Ht (Hres eq_refl)) as (s'&fills&->&Hn&Hf).
    injection Hc as ->. split_and!; [done|done|done|]. destruct fills; simpl in Hp; [right|by left].
    split; [lia|done].
  - intros (_&_&Hn&Ha). destruct Ha as [Ha|[Ha Hf]].
    + exists (Direct symbol false). split_and!; [|done|done].
      apply symbol_direct; [apply (emitted _ _ Hd)|done|by eapply full_arity].
    + exists (Direct symbol true). split_and!; [|done|simpl; lia].
      by apply symbol_direct; [apply (emitted _ _ Hd)| |].
Qed.

Lemma exit_falls tco leaf e :
  exit_of tco leaf = Ok (Falls e) ↔ e = leaf ∧ is_self_tail_call leaf (self_symbol tco) (slots tco) = Ok false.
Proof.
  unfold exit_of. destruct (is_self_tail_call leaf _ _) as [[]|err] eqn:Hs; simpl.
  - split; [by destruct leaf|]. by intros [_ ?].
  - split; [destruct leaf; by intros [= <-]|]. intros [-> _]. by destruct leaf.
  - by split; [|intros [_ ?]].
Qed.

(** ** Properties *)

(** C27: the tail-call analysis and the lowering of calls agree: a call of an ordinary
    name is taken for a self-call exactly when an ordinary lowering would call the
    function itself, with as many values as it has parameters; only a name a local
    closure is bound to is left out. *)
Theorem tail_call_agrees symbol n name span call_span arguments member_call :
  declared symbol n → ordinary name arguments member_call →
  (member_call = false → bound_closure g name span = false) →
  is_self_tail_call (Expression.Call (Expression.Identifier name span) arguments member_call call_span) symbol n
    = Ok true
  ↔ ∃ target, generate_call g (Expression.Identifier name span) arguments member_call = Ok target
    ∧ callee target = Some symbol ∧ passed arguments target = n.
Proof.
  intros Hd Ho Hb. destruct member_call.
  - by rewrite method_answer, method_dispatch.
  - by rewrite function_answer, function_dispatch by auto.
Qed.

End tail_calls.

(** ** Concrete programs *)

(** The generator of a checked source, with no type or overload of its own. *)
Definition generator_of (source : list Z) (variables functions : gset string) : CodeGenerator :=
  mkGenerator
    (λ span, match checked 60 source with Ok c => type_table c !! span | Err _ => None end)
    ∅ ∅ ∅ ∅ ∅ ∅ ∅ variables ∅ functions false.

Definition accepted (source : list Z) : bool := match checked 60 source with Ok _ => true | Err _ => false end.

(** The function a source begins with. *)
Definition first_function (source : list Z) : option (FunctionDeclaration Expression) :=
  match items (parsed source) with ItemFunction d :: _ => Some d | _ => None end.

(** The tail call of a body of one block. *)
Definition tail_call_of (e : Expression) : option Expression :=
  match e with
  | Expression.Block statements _ =>
      match last statements with Some (StatementExpression e) => Some e | _ => None end
  | _ => None
  end.

Definition count_source : list Z := bs "count = (n :: Num) -> Num => < n == 0 ? 0 : count(n - 1) >".
Definition count_generator : CodeGenerator := generator_of count_source {["n"]} {["count"]}.


Lemma tail_call_agrees_witness :
  let call := Expression.Call (Expression.Identifier "count" (in_root 0 1)) [Expression.Bool true (in_root 1 2)] false in
  is_self_tail_call count_generator (call (in_root 0 2)) "count" 1 = Ok true.
Proof.
  apply (tail_call_agrees count_generator "count" 1 "count").
  - split; [apply (bool_decide_unpack _); by vm_compute|intros k Hk; discriminate Hk|].
    intros name set m Hm. discriminate Hm.
  - split; [by vm_compute|intros symbol Hs; discriminate Hs| |done].
    intros _ Ho. discriminate Ho.
  - by vm_compute.
  - exists (Direct "count" false). by vm_compute.
Defined.

(** A local closure that captures [m] takes the name of the function around it. *)
Definition shadowing_source : list Z := bs
"f = (n :: Num) -> Num => <
 m = n
 f = (k :: Num) -> Num => < k + m >
 f(n) >".

(** A call of it is lowered to a call of the closure, but in tail position it is taken
    for a call of the function: the checker accepts the program and it loops for ever. *)
Example closure_taken_for_function :
  let g := generator_of shadowing_source {["n"; "m"; "f"]} {["f"]} in
  accepted shadowing_source = true
  ∧ match d ← first_function shadowing_source; tail_call_of (function_body d) with
    | Some (Expression.Call function arguments member_call span) =>
        generate_call g function arguments member_call = Ok ClosureValue
        ∧ is_self_tail_call g (Expression.Call function arguments member_call span) "f" 1 = Ok true
    | _ => False
    end.
Proof. by vm_compute. Qed.
