(* ===== verification/Utf8.v ===== *)
(** * UTF-8 there and back

    Decoding undoes encoding and the other way round, for the decoders of
    [Bytes]: what [str::from_utf8] accepts is exactly the encodings of scalar
    values, each of one text. *)

From S2P Require Import Prelude Bytes.
Open Scope Z_scope.

(** Quotients and remainders by 64 of a number given by its digits. *)
Local Ltac digits64 := Z.to_euclidean_division_equations; lia.

Local Ltac range_tests := unfold in_range, is_cont in *; unbool; simplify_eq; try lia.

Lemma utf8_step_scalar bytes ch n :
  Forall (λ b, 0 <= b < 256) bytes → utf8_step bytes = (Some ch, n) →
  scalar ch ∧ take n bytes = encode_utf8 ch ∧ (0 < n ≤ length bytes)%nat.
Proof.
  intros Hb. unfold utf8_step.
  destruct bytes as [|b0 bytes]; [done|]. inversion_clear Hb as [|? ? B0 Hb'].
  destruct (b0 <? 128) eqn:E0.
  { intros [= <- <-]. unbool. unfold scalar, encode_utf8. zbool. simpl. split_and!; try lia. done. }
  repeat (case_match; try done); intros [= <- <-];
    repeat match goal with H : Forall _ (_ :: _) |- _ => inversion_clear H end;
    unfold in_range, is_cont in *; unbool; unfold scalar, encode_utf8;
    zbool; simpl; (split; [lia|split; [|lia]]); rewrite take_0;
    repeat (apply (f_equal2 cons); [digits64|]); done.
Qed.

Lemma encode_str_cons ch s : encode_str (ch :: s) = encode_utf8 ch ++ encode_str s.
Proof. done. Qed.

Lemma encode_str_app s t : encode_str (s ++ t) = encode_str s ++ encode_str t.
Proof. unfold encode_str. by rewrite fmap_app, concat_app. Qed.

Lemma encode_utf8_not_nil ch : encode_utf8 ch ≠ [].
Proof. unfold encode_utf8. by repeat case_match. Qed.

Lemma encode_str_nil_inv s : encode_str s = [] → s = [].
Proof.
  destruct s as [|ch s]; [done|]. rewrite encode_str_cons. intros [? _]%app_nil.
  by destruct (encode_utf8_not_nil ch).
Qed.

(** Decoding the encoding of a text of scalar values. *)
Lemma from_utf8_fuel_encode s fuel :
  Forall scalar s → (length (encode_str s) ≤ fuel)%nat → from_utf8_fuel fuel (encode_str s) = Some s.
Proof.
  intros Hs. revert fuel. induction Hs as [|ch s Hch _ IH]; intros fuel Hf; [by destruct fuel|].
  rewrite encode_str_cons in *. rewrite length_app, encode_utf8_length in Hf.
  pose proof (len_utf8_pos ch). destruct fuel as [|fuel]; [lia|].
  pose proof (utf8_step_encode ch (encode_str s) Hch) as Hstep.
  destruct (encode_utf8 ch ++ encode_str s) as [|b l] eqn:E.
  { by apply app_nil in E as [?%encode_utf8_not_nil ?]. }
  cbn [from_utf8_fuel]. rewrite Hstep, <-E, <-encode_utf8_length, drop_app_length. by rewrite IH by lia.
Qed.

Lemma from_utf8_encode s : Forall scalar s → from_utf8 (encode_str s) = Some s.
Proof. intros. by apply from_utf8_fuel_encode. Qed.

(** What is accepted is an encoding. *)
Lemma from_utf8_fuel_Some fuel bytes s :
  Forall (λ b, 0 <= b < 256) bytes → from_utf8_fuel fuel bytes = Some s →
  bytes = encode_str s ∧ Forall scalar s.
Proof.
  revert bytes s. induction fuel as [|fuel IH]; intros [|b bytes] s Hb Hs;
    cbn [from_utf8_fuel] in Hs; simplify_eq; [done..|].
  destruct (utf8_step (b :: bytes)) as [[ch|] n] eqn:E; [|done].
  apply fmap_Some in Hs as (s'&Hs&->). apply utf8_step_scalar in E as (Hch&Ht&?); [|done].
  apply IH in Hs as [Hd ?]; [|by apply Forall_drop].
  split; [|by constructor]. by rewrite encode_str_cons, <-Ht, <-Hd, take_drop.
Qed.

Lemma from_utf8_Some bytes s :
  Forall (λ b, 0 <= b < 256) bytes → from_utf8 bytes = Some s → bytes = encode_str s ∧ Forall scalar s.
Proof. apply from_utf8_fuel_Some. Qed.

(** The lossy decoder agrees where the strict one answers, and always answers
    scalar values. *)
Lemma from_utf8_lossy_fuel_Some fuel bytes s :
  from_utf8_fuel fuel bytes = Some s → from_utf8_lossy_fuel fuel bytes = s.
Proof.
  revert bytes s. induction fuel as [|fuel IH]; intros [|b bytes] s Hs;
    cbn [from_utf8_fuel from_utf8_lossy_fuel] in *; simplify_eq; [done..|].
  destruct (utf8_step (b :: bytes)) as [[ch|] n]; [|done].
  apply fmap_Some in Hs as (s'&?&->). cbn. f_equal. by apply IH.
Qed.

Lemma from_utf8_lossy_Some bytes s : from_utf8 bytes = Some s → from_utf8_lossy bytes = s.
Proof. apply from_utf8_lossy_fuel_Some. Qed.

Lemma from_utf8_lossy_scalar bytes : Forall (λ b, 0 <= b < 256) bytes → Forall scalar (from_utf8_lossy bytes).
Proof.
  unfold from_utf8_lossy. generalize (length bytes) as fuel. intros fuel. revert bytes.
  induction fuel as [|fuel IH]; intros [|b bytes] Hb; cbn [from_utf8_lossy_fuel]; [done..|].
  destruct (utf8_step (b :: bytes)) as [ch n] eqn:E. constructor; [|by apply IH, Forall_drop].
  destruct ch as [ch|]; simpl; [by eapply utf8_step_scalar in E as [? _]|].
  unfold scalar, replacement_char. lia.
Qed.

Lemma from_utf8_lossy_encode s : Forall scalar s → from_utf8_lossy (encode_str s) = s.
Proof. intros. by apply from_utf8_lossy_Some, from_utf8_encode. Qed.

Lemma utf8_step_pos b bytes : (0 < (utf8_step (b :: bytes)).2)%nat.
Proof. unfold utf8_step. repeat case_match; simpl; lia. Qed.

Lemma from_utf8_lossy_nil bytes : from_utf8_lossy bytes = [] → bytes = [].
Proof.
  destruct bytes as [|b bytes]; [done|]. unfold from_utf8_lossy.
  cbn [length from_utf8_lossy_fuel]. by destruct (utf8_step (b :: bytes)).
Qed.

Lemma encode_utf8_bytes ch : scalar ch → Forall (λ b, 0 <= b < 256) (encode_utf8 ch).
Proof.
  unfold scalar, encode_utf8. intros Hch.
  repeat case_match; unbool; repeat apply Forall_cons_2; try apply Forall_nil_2; try lia;
    Z.to_euclidean_division_equations; lia.
Qed.

Lemma encode_str_bytes s : Forall scalar s → Forall (λ b, 0 <= b < 256) (encode_str s).
Proof.
  induction 1 as [|ch s ?]; [done|]. rewrite encode_str_cons. apply Forall_app.
  split; [by apply encode_utf8_bytes|done].
Qed.

(** ** ASCII *)

Lemma encode_str_ascii s : Forall (λ b, b < 128) s → encode_str s = s.
Proof.
  induction 1 as [|b s Hb _ IH]; [done|]. rewrite encode_str_cons, IH.
  unfold encode_utf8. zbool. done.
Qed.

Lemma encode_utf8_ascii_inv ch : scalar ch → Forall (λ b, b < 128) (encode_utf8 ch) → ch < 128.
Proof.
  unfold scalar, encode_utf8. intros Hch. repeat case_match; unbool; [lia|..];
    intros Hb; inversion_clear Hb; Z.to_euclidean_division_equations; lia.
Qed.

Lemma encode_str_ascii_inv s : Forall scalar s → Forall (λ b, b < 128) (encode_str s) → Forall (λ b, b < 128) s.
Proof.
  induction 1 as [|ch s ?]; [done|]. rewrite encode_str_cons, Forall_app. intros [? ?].
  constructor; [by apply encode_utf8_ascii_inv|auto].
Qed.
