(* ===== verification/Text.v ===== *)
(** * Texts: a header and bytes

    [quilon-rt/src/mem.rs] (the header every [Text] carries and its producers)
    and [quilon-rt/src/text.rs] (the intrinsics behind the methods of [Text]).
    A [QnSlice] is null or points at a block: the grapheme count, the flags and
    the content; [len] is the slice's own length.  A [&str] is the list of its
    characters, and byte offsets into it are offsets into its UTF-8 encoding: a
    slice off a character boundary panics, a slice out of range panics, and
    [from_utf8_unchecked] of bytes that are not UTF-8 is undefined.

    The segmentation into grapheme clusters is the crate [unicode-segmentation],
    a parameter here: the class [Segmentation] states what the annex it
    implements documents, and [greedy] is one function that meets it. *)

From Stdlib Require Import Floats.SpecFloat.
From S2P Require Import Prelude Bytes Bidi Num.
Open Scope Z_scope.

(** How an intrinsic may end other than by returning: the report of [fail_at],
    a panic, or behaviour the language leaves undefined. *)
Inductive Stop : Type :=
| Failed (code : Z) (message : list Z)
| Panicked
| Undefined.

Record Block := mkBlock { bcount : Z; bflags : Z; content : list Z }.
Record QnSlice := mkSlice { data : option Block; len : Z }.

(** [QnSlice::empty]. *)
Definition empty_slice : QnSlice := mkSlice None 0.

(** ** The header *)

Definition TEXT_ASCII_ALIGNED : Z := 1.
Definition TEXT_VALID_UTF8 : Z := 2.
Definition TEXT_LITERAL : Z := 4.
Definition TEXT_NO_BIDI_CONTROLS : Z := 8.

Definition text_is_ascii (flags : Z) : bool := negb (Z.land flags TEXT_ASCII_ALIGNED =? 0).
Definition text_is_valid_utf8 (flags : Z) : bool := negb (Z.land flags TEXT_VALID_UTF8 =? 0).
Definition text_no_bidi_controls (flags : Z) : bool := negb (Z.land flags TEXT_NO_BIDI_CONTROLS =? 0).

Definition inherited_flags (ascii no_bidi : bool) : Z :=
  let flags := TEXT_VALID_UTF8 in
  let flags := if ascii then Z.lor flags TEXT_ASCII_ALIGNED else flags in
  if no_bidi then Z.lor flags TEXT_NO_BIDI_CONTROLS else flags.

Definition ascii_flags : Z :=
  Z.lor (Z.lor TEXT_ASCII_ALIGNED TEXT_VALID_UTF8) TEXT_NO_BIDI_CONTROLS.

Definition text_header_of (t : option Block) : Z * Z :=
  match t with
  | None => (0, ascii_flags)
  | Some block => (bcount block, bflags block)
  end.

Definition is_ascii (bytes : list Z) : bool := forallb (λ b, b <? 128) bytes.

Definition is_ascii_grapheme_aligned (bytes : list Z) : bool :=
  is_ascii bytes && negb (bool_decide (13 ∈ bytes)).

Definition GRAPHEME_MERGE_FLOOR : Z := 0x300.

(** ** Slices of a [&str] and of bytes *)

Definition byte_len (s : list Z) : nat := length (encode_str s).

(** [(&s[..n], &s[n..])]. *)
Fixpoint str_split_at (s : list Z) (n : nat) : result Stop (list Z * list Z) :=
  match n, s with
  | O, _ => Ok ([], s)
  | _, [] => Err Panicked
  | _, ch :: rest =>
      if (n <? len_utf8 ch)%nat then Err Panicked
      else '(before, after) ← str_split_at rest (n - len_utf8 ch); Ok (ch :: before, after)
  end.

(** [&s[a..b]]. *)
Definition str_range (s : list Z) (a b : nat) : result Stop (list Z) :=
  if (b <? a)%nat then Err Panicked
  else '(before, _) ← str_split_at s b; snd <$> str_split_at before a.

(** [&bytes[a..b]]. *)
Definition byte_range (bytes : list Z) (a b : Z) : result Stop (list Z) :=
  if (a <=? b) && (b <=? Z.of_nat (length bytes))
  then Ok (take (Z.to_nat (b - a)) (drop (Z.to_nat a) bytes))
  else Err Panicked.

(** [Ord::clamp], which panics on an empty range. *)
Definition clamp (n lo hi : Z) : result Stop Z :=
  if hi <? lo then Err Panicked else Ok (if n <? lo then lo else if hi <? n then hi else n).

(** [s.find(pattern)]: the byte offset of the first occurrence. *)
Definition str_find (s pattern : list Z) : option nat :=
  (λ i, byte_len (take i s)) <$> find_subslice s pattern.

(** [s.split(pattern)], of a pattern that is not empty: an occurrence consumes a
    character at least, so the length of the text is enough fuel. *)
Fixpoint str_split_fuel (fuel : nat) (s pattern : list Z) : list (list Z) :=
  match fuel, find_subslice s pattern with
  | S fuel', Some i => take i s :: str_split_fuel fuel' (drop (i + length pattern) s) pattern
  | _, _ => [s]
  end.
Definition str_split (s pattern : list Z) : list (list Z) := str_split_fuel (length s) s pattern.

Fixpoint intercalate (sep : list Z) (parts : list (list Z)) : list Z :=
  match parts with
  | [] => []
  | [part] => part
  | part :: rest => part ++ sep ++ intercalate sep rest
  end.

(** [s.replace(from, to)], [s.matches(from).count()], [s.replacen(from, to, n)]. *)
Definition str_replace (s from to : list Z) : list Z := intercalate to (str_split s from).
Definition str_matches (s from : list Z) : nat := length (str_split s from) - 1.
Definition str_replacen (s from to : list Z) (n : nat) : list Z :=
  let parts := str_split s from in
  intercalate to (take n parts ++ match drop n parts with [] => [] | rest => [intercalate from rest] end).

(** [Ord::cmp] of byte slices. *)
Fixpoint bytes_cmp (a b : list Z) : comparison :=
  match a, b with
  | [], [] => Eq
  | [], _ => Lt
  | _, [] => Gt
  | x :: a', y :: b' => match x ?= y with Eq => bytes_cmp a' b' | o => o end
  end.

(** ** Segmentation into grapheme clusters *)

(** No rule but CR x LF joins two characters below the floor. *)
Definition hard (c d : Z) : Prop :=
  c < GRAPHEME_MERGE_FLOOR ∧ d < GRAPHEME_MERGE_FLOOR ∧ ¬ (c = 13 ∧ d = 10).

(** What the annex documents: clusters cover the text, none is empty; two
    characters no rule joins are apart, whatever is around them; whether there is
    a boundary depends on the cluster to the left and the character to the right,
    so a boundary of a text cuts it into texts segmented alike, and what is
    appended meets the last cluster alone. *)
Class Segmentation (graphemes : list Z → list (list Z)) : Prop := {
  graphemes_concat s : concat (graphemes s) = s;
  graphemes_nonempty s : Forall (λ g, g ≠ []) (graphemes s);
  graphemes_break l c d r : hard c d → graphemes (l ++ [c] ++ d :: r) = graphemes (l ++ [c]) ++ graphemes (d :: r);
  graphemes_cut s gs gs' : graphemes s = gs ++ gs' → graphemes (concat gs) = gs ∧ graphemes (concat gs') = gs';
  graphemes_extend l r gs g : graphemes l = gs ++ [g] → graphemes (l ++ r) = gs ++ graphemes (g ++ r)
}.

Section text.
Context (graphemes : list Z → list (list Z)).
(** [str::to_uppercase] and [str::to_lowercase] come from the Unicode tables. *)
Context (to_uppercase to_lowercase : list Z → list Z).

Definition text_header (bytes : list Z) : Z * Z :=
  if is_ascii_grapheme_aligned bytes then (Z.of_nat (length bytes), ascii_flags)
  else
    let '(text, valid_utf8) :=
      match from_utf8 bytes with
      | Some s => (s, true)
      | None => (from_utf8_lossy bytes, false)
      end in
    let flags := if valid_utf8 then TEXT_VALID_UTF8 else 0 in
    let '(char_count, max_char, has_cr) :=
      fold_left (λ '(n, m, cr) ch, (n + 1, Z.max m ch, cr || (ch =? 13))) text (0, 0, false) in
    if (max_char <? GRAPHEME_MERGE_FLOOR) && negb has_cr
    then (char_count, Z.lor flags TEXT_NO_BIDI_CONTROLS)
    else
      let count := Z.of_nat (length (graphemes text)) in
      (count, if negb (existsb Bidi.is_bidi_control text) then Z.lor flags TEXT_NO_BIDI_CONTROLS else flags).

Definition literal_header (bytes : list Z) : Z * Z :=
  let '(count, flags) := text_header bytes in (count, Z.lor flags TEXT_LITERAL).

(** The buffer and the copy into it: a text without bytes needs none. *)
Definition alloc_text_with_header (bytes : list Z) (count flags : Z) : QnSlice :=
  if bool_decide (bytes = []) then empty_slice
  else mkSlice (Some (mkBlock count flags bytes)) (Z.of_nat (length bytes)).

Definition alloc_text_with_count (bytes : list Z) (count : Z) : QnSlice :=
  let flags := if is_ascii_grapheme_aligned bytes then ascii_flags else TEXT_VALID_UTF8 in
  alloc_text_with_header bytes count flags.

Definition alloc_text (bytes : list Z) : QnSlice :=
  let '(count, flags) := text_header bytes in alloc_text_with_header bytes count flags.

(** ** Reading a text *)

Definition byte_slice (t : QnSlice) : list Z :=
  match data t with
  | None => []
  | Some block => if len t <=? 0 then [] else take (Z.to_nat (len t)) (content block)
  end.

Definition text_str (t : QnSlice) : result Stop (list Z) :=
  let bytes := byte_slice t in
  if text_is_valid_utf8 (text_header_of (data t)).2
  then match from_utf8 bytes with Some s => Ok s | None => Err Undefined end
  else Ok (from_utf8_lossy bytes).

Definition __text_length (t : QnSlice) : Z :=
  if len t <=? 0 then 0 else (text_header_of (data t)).1.

Definition __text_cmp (a b : QnSlice) : Z :=
  match bytes_cmp (byte_slice a) (byte_slice b) with Lt => -1 | Eq => 0 | Gt => 1 end.

Definition __text_trim_start (t : QnSlice) : result Stop QnSlice :=
  s ← text_str t; Ok (alloc_text (encode_str (trim_start s))).
Definition __text_trim_end (t : QnSlice) : result Stop QnSlice :=
  s ← text_str t; Ok (alloc_text (encode_str (trim_end s))).
Definition __text_to_upper (t : QnSlice) : result Stop QnSlice :=
  s ← text_str t; Ok (alloc_text (encode_str (to_uppercase s))).
Definition __text_to_lower (t : QnSlice) : result Stop QnSlice :=
  s ← text_str t; Ok (alloc_text (encode_str (to_lowercase s))).

Definition __num_to_text (x : f64) : QnSlice := alloc_text (format_num x).
Definition __bool_to_text (b : Z) : QnSlice := alloc_text (bs (if negb (b =? 0) then "True" else "False")).

Definition __text_contains (h sub : QnSlice) : result Stop Z :=
  hay ← text_str h; sub ← text_str sub;
  Ok (if bool_decide (is_Some (find_subslice hay sub)) then 1 else 0).

(** ** Positions *)

(** The byte offset at which each cluster starts. *)
Fixpoint offsets (from : nat) (gs : list (list Z)) : list nat :=
  match gs with
  | [] => []
  | g :: gs' => from :: offsets (from + byte_len g) gs'
  end.

Definition text_find_from (h sub : QnSlice) (from : Z) : result Stop Z :=
  let '(count, flags) := text_header_of (data h) in
  let ascii := text_is_ascii flags in
  hay ← text_str h; sub ← text_str sub;
  from_byte ← (if ascii then n ← clamp from 0 (len h); Ok (Z.to_nat n)
               else n ← clamp from 0 count;
                    Ok (default (byte_len hay) (offsets 0 (graphemes hay) !! Z.to_nat n)));
  '(_, tail) ← str_split_at hay from_byte;
  match str_find tail sub with
  | Some relative =>
      let byte_idx := (from_byte + relative)%nat in
      if ascii then Ok (Z.of_nat byte_idx)
      else '(before, _) ← str_split_at hay byte_idx; Ok (Z.of_nat (length (graphemes before)))
  | None => Ok (-1)
  end.

Definition __text_index_of (h sub : QnSlice) : result Stop Z := text_find_from h sub 0.
Definition __text_index_of_from (h sub : QnSlice) (from : Z) : result Stop Z := text_find_from h sub from.

Definition __text_slice (t : QnSlice) (start stop : Z) : result Stop QnSlice :=
  let '(_, flags) := text_header_of (data t) in
  if text_is_ascii flags then
    lo ← clamp start 0 (len t); hi ← clamp stop 0 (len t);
    if hi <=? lo then Ok empty_slice
    else bytes ← byte_range (byte_slice t) lo hi; Ok (alloc_text_with_count bytes (hi - lo))
  else
    s ← text_str t;
    let bounds := offsets 0 (graphemes s) ++ [byte_len s] in
    let n := Z.of_nat (length bounds) - 1 in
    lo ← clamp start 0 n; hi ← clamp stop 0 n;
    if hi <=? lo then Ok empty_slice
    else match bounds !! Z.to_nat lo, bounds !! Z.to_nat hi with
         | Some a, Some b =>
             piece ← str_range s a b; Ok (alloc_text_with_count (encode_str piece) (hi - lo))
         | _, _ => Err Panicked
         end.

Definition text_array (parts : list (list Z)) : list QnSlice := (alloc_text ∘ encode_str) <$> parts.

Definition __text_graphemes (t : QnSlice) : result Stop (list QnSlice) :=
  s ← text_str t; Ok (text_array (graphemes s)).

Definition __text_at (t : QnSlice) (index : Z) : result Stop QnSlice :=
  if index <? 0 then Ok empty_slice
  else
    let '(_, flags) := text_header_of (data t) in
    if text_is_ascii flags then
      if len t <=? index then Ok empty_slice
      else bytes ← byte_range (byte_slice t) index (index + 1); Ok (alloc_text_with_count bytes 1)
    else
      s ← text_str t;
      match graphemes s !! Z.to_nat index with
      | Some grapheme => Ok (alloc_text_with_count (encode_str grapheme) 1)
      | None => Ok empty_slice
      end.

(** ** Occurrences *)

Definition __text_split (h sep : QnSlice) : result Stop (list QnSlice) :=
  sep ← text_str sep;
  if bool_decide (sep = []) then __text_graphemes h
  else hay ← text_str h; Ok (text_array (str_split hay sep)).

Definition REPLACE_EMPTY_FROM : Z := 506.
Definition REPLACE_INVALID_COUNT : Z := 510.

Definition __text_replace_all (h from to : QnSlice) : result Stop QnSlice :=
  from ← text_str from;
  if bool_decide (from = []) then
    Err (Failed REPLACE_EMPTY_FROM (bs "replaceAll: `from` must not be empty"))
  else hay ← text_str h; to ← text_str to;
       Ok (alloc_text (encode_str (str_replace hay from to))).

Definition is_nan (f : f64) : bool := match f with S754_nan => true | _ => false end.

Definition replace_text (hay from to : list Z) (count : f64) : result (Z * list Z) (list Z) :=
  if bool_decide (from = []) then
    Err (REPLACE_EMPTY_FROM, bs "replace: `from` must not be empty")
  else
    let count := f64_trunc count in
    if is_nan count || f64_lt count (f64_of_Z 1) then
      Err (REPLACE_INVALID_COUNT, bs "replace: count must be positive, got " ++ format_num count)
    else
      let occurrences := str_matches hay from in
      if f64_lt (f64_of_Z (Z.of_nat occurrences)) count then
        Err (REPLACE_INVALID_COUNT,
             bs "replace: count " ++ format_num count ++ bs " exceeds "
             ++ render 10 (Z.of_nat occurrences) ++ bs " occurrences")
      else Ok (str_replacen hay from to (Z.to_nat (as_usize count))).

Definition __text_replace (h from to : QnSlice) (count : f64) : result Stop QnSlice :=
  hay ← text_str h; from ← text_str from; to ← text_str to;
  match replace_text hay from to count with
  | Ok r => Ok (alloc_text (encode_str r))
  | Err (code, message) => Err (Failed code message)
  end.

(** ** Concatenation *)

Definition last_char (s : list Z) : Z := default 0 (last s).
Definition first_char (s : list Z) : Z := default 0 (head s).

(** Neither boundary character can merge with its neighbour. *)
Definition plain_seam (last_char first_char : Z) : bool :=
  (last_char <? GRAPHEME_MERGE_FLOOR) && (first_char <? GRAPHEME_MERGE_FLOOR)
  && negb ((last_char =? 13) && (first_char =? 10)).

Definition trailing (s : list Z) : list Z := default [] (last (graphemes s)).
Definition leading (s : list Z) : list Z := default [] (head (graphemes s)).

Definition seam_corrected (left : list Z) (l_count : Z) (l_ascii : bool)
    (right : list Z) (r_count : Z) (r_ascii : bool) : Z * bool :=
  if bool_decide (left = []) then (r_count, r_ascii)
  else if bool_decide (right = []) then (l_count, l_ascii)
  else if plain_seam (last_char left) (first_char right)
  then (l_count + r_count, l_ascii && r_ascii)
  else
    let left_last := trailing left in
    let right_first := leading right in
    let window_count := Z.of_nat (length (graphemes (left_last ++ right_first))) in
    let count := l_count + r_count - 2 + window_count in
    let ascii := l_ascii && r_ascii
                 && negb (bool_decide (left_last = [13]) && bool_decide (right_first = [10])) in
    (count, ascii).

Definition concat_header (l : QnSlice) (l_count : Z) (l_ascii : bool)
    (r : QnSlice) (r_count : Z) (r_ascii : bool) : result Stop (Z * bool) :=
  if len l <=? 0 then Ok (r_count, r_ascii)
  else if len r <=? 0 then Ok (l_count, l_ascii)
  else if l_ascii && r_ascii then Ok (l_count + r_count, true)
  else left ← text_str l; right ← text_str r;
       Ok (seam_corrected left l_count l_ascii right r_count r_ascii).

Definition __text_concat (l r : QnSlice) : result Stop QnSlice :=
  let total := Z.max (len l) 0 + Z.max (len r) 0 in
  if total <=? 0 then Ok empty_slice
  else
    let '(l_count, l_flags) := text_header_of (data l) in
    let '(r_count, r_flags) := text_header_of (data r) in
    let l_ascii := (len l <=? 0) || text_is_ascii l_flags in
    let r_ascii := (len r <=? 0) || text_is_ascii r_flags in
    '(count, ascii) ← concat_header l l_count l_ascii r r_count r_ascii;
    let no_bidi := ascii
      || (((len l <=? 0) || text_no_bidi_controls l_flags)
          && ((len r <=? 0) || text_no_bidi_controls r_flags)) in
    Ok (alloc_text_with_header (byte_slice l ++ byte_slice r) count (inherited_flags ascii no_bidi)).

(** One turn of the closure [fold]: the count so far and the cluster it ends in. *)
Definition join_fold (acc : option (Z * list Z)) (text : list Z) (count : Z) : option (Z * list Z) :=
  if bool_decide (text = []) then acc
  else match acc with
  | None => Some (count, trailing text)
  | Some (acc_count, acc_trailing) =>
      if plain_seam (last_char acc_trailing) (first_char text)
      then Some (acc_count + count, trailing text)
      else
        let window := acc_trailing ++ leading text in
        let window_count := Z.of_nat (length (graphemes window)) in
        Some (acc_count + count - 2 + window_count,
              if window_count =? 1 then window else trailing text)
  end.

Fixpoint join_counts (parts : list QnSlice) (sep : QnSlice) (sep_count : Z)
    (acc : option (Z * list Z)) : result Stop (option (Z * list Z)) :=
  match parts with
  | [] => Ok acc
  | part :: rest =>
      text ← text_str part;
      let acc := join_fold acc text (text_header_of (data part)).1 in
      if bool_decide (rest = []) then Ok acc
      else sep_text ← text_str sep; join_counts rest sep sep_count (join_fold acc sep_text sep_count)
  end.

Definition join_count_with_seams (parts : list QnSlice) (sep : QnSlice) (sep_count : Z) : result Stop Z :=
  acc ← join_counts parts sep sep_count None;
  Ok match acc with None => 0 | Some (count, _) => count end.

(** The sums over the pieces and the separators between them. *)
Fixpoint join_sums (parts : list QnSlice) (sep : QnSlice) (total_count : Z) (ascii no_bidi : bool) : Z * bool * bool :=
  match parts with
  | [] => (total_count, ascii, no_bidi)
  | part :: rest =>
      let bytes := byte_slice part in
      let '(count, flags) := text_header_of (data part) in
      let total_count := total_count + count in
      let ascii := ascii && (bool_decide (bytes = []) || text_is_ascii flags) in
      let no_bidi := no_bidi && (bool_decide (bytes = []) || text_no_bidi_controls flags) in
      if bool_decide (rest = []) then (total_count, ascii, no_bidi)
      else
        let sep_bytes := byte_slice sep in
        let '(sep_count, sep_flags) := text_header_of (data sep) in
        join_sums rest sep (total_count + sep_count)
          (ascii && (bool_decide (sep_bytes = []) || text_is_ascii sep_flags))
          (no_bidi && (bool_decide (sep_bytes = []) || text_no_bidi_controls sep_flags))
  end.

Definition __text_join (parts : list QnSlice) (sep : QnSlice) : result Stop QnSlice :=
  if bool_decide (parts = []) then Ok empty_slice
  else
    let '(total_count, ascii, no_bidi) := join_sums parts sep 0 true true in
    total_count ← (if negb ascii then join_count_with_seams parts sep (text_header_of (data sep)).1
                   else Ok total_count);
    Ok (alloc_text_with_header (intercalate (byte_slice sep) (byte_slice <$> parts)) total_count
          (inherited_flags ascii no_bidi)).

(** ** What a text of the runtime is *)

(** The header's count is exact; each bit it carries is true of the content. *)
Definition header_ok (count flags : Z) (bytes : list Z) : Prop :=
  count = Z.of_nat (length (graphemes (from_utf8_lossy bytes))) ∧
  (text_is_ascii flags = true → is_ascii_grapheme_aligned bytes = true) ∧
  (text_is_valid_utf8 flags = true → is_Some (from_utf8 bytes)) ∧
  (text_no_bidi_controls flags = true → Forall (λ c, Bidi.is_bidi_control c = false) (from_utf8_lossy bytes)).

Definition byte (b : Z) : Prop := 0 <= b < 256.

Definition wf (t : QnSlice) : Prop :=
  match data t with
  | None => len t = 0
  | Some block =>
      len t = Z.of_nat (length (content block)) ∧ content block ≠ [] ∧
      Forall byte (content block) ∧ header_ok (bcount block) (bflags block) (content block)
  end.

Definition contents (t : QnSlice) : list Z := match data t with None => [] | Some block => content block end.

(** What [str] a text decodes to, as its header's invariant has it. *)
Definition chars (t : QnSlice) : list Z := from_utf8_lossy (byte_slice t).

(** A position clamped to a length; the clusters between two positions. *)
Definition clamped (n : Z) (m : nat) : nat := Z.to_nat (Z.max 0 (Z.min n (Z.of_nat m))).
Definition run (gs : list (list Z)) (lo hi : nat) : list Z := concat (take (hi - lo) (drop lo gs)).

(** Where [sub] first occurs at or after a cluster: how many clusters the text
    before it has. *)
Definition find_position (s sub : list Z) (from : nat) : Z :=
  let skip := concat (take from (graphemes s)) in
  let tail := concat (drop from (graphemes s)) in
  match find_subslice tail sub with
  | Some i => Z.of_nat (length (graphemes (skip ++ take i tail)))
  | None => -1
  end.

(** The window of the last cluster on the left and the first on the right sees
    all of the seam's effect: no seam to speak of, the two stay apart, the right
    side ends with its first cluster or is cut off hard behind it. *)
Definition settled (l r : list Z) : Prop :=
  l = [] ∨ r = [] ∨ hard (last_char l) (first_char r) ∨
  graphemes (trailing l ++ leading r) = [trailing l; leading r] ∨
  graphemes r = [leading r] ∨
  ∃ rest, r = leading r ++ rest ∧ rest ≠ [] ∧ hard (last_char (leading r)) (first_char rest).

End text.

(** ** A segmentation, from a rule that joins *)

Section greedy.
Context (joins : list Z → Z → bool).

(** Whether the next character joins the cluster read so far. *)
Fixpoint greedy_from (cluster : list Z) (s : list Z) : list (list Z) :=
  match s with
  | [] => [cluster]
  | d :: rest =>
      if joins cluster d then greedy_from (cluster ++ [d]) rest
      else cluster :: greedy_from [d] rest
  end.

Definition greedy (s : list Z) : list (list Z) :=
  match s with [] => [] | c :: rest => greedy_from [c] rest end.

End greedy.

(** Combining marks and joiners extend, CR takes LF, an emoji follows a joiner
    that follows an emoji, regional indicators pair. *)
Definition sample_joins (cluster : list Z) (d : Z) : bool :=
  let c := last_char cluster in
  ((c =? 13) && (d =? 10))
  || ((32 <=? c) && (in_range 0x300 0x36F d || (d =? 0x200D)))
  || ((c =? 0x200D) && in_range 0x1F300 0x1FAFF (first_char cluster) && in_range 0x1F300 0x1FAFF d)
  || (in_range 0x1F1E6 0x1F1FF d && bool_decide (cluster = [c]) && in_range 0x1F1E6 0x1F1FF c).

Definition sample : list Z → list (list Z) := greedy sample_joins.
