(* ===== verification/TextProps.v ===== *)
(** * Texts: exact headers, positions, round trips

    Over any segmentation that meets its documented laws: a header counts the
    clusters of its content, the byte fast paths answer what the walk over
    clusters answers, [+] keeps the header exact where the window at the seam
    sees the whole effect (and an example where it does not), [join] undoes
    [split]. *)

From Stdlib Require Import Floats.SpecFloat.
From S2P Require Import Prelude Bytes Bidi Num Utf8 Text.
Open Scope Z_scope.

(** ** A rule that joins is a segmentation *)

Section greedy.
Context (joins : list Z → Z → bool).
Context (joins_hard : ∀ cluster d, hard (last_char cluster) d → joins cluster d = false).

Notation greedy_from := (greedy_from joins).
Notation greedy := (greedy joins).

Lemma greedy_from_concat cluster s : concat (greedy_from cluster s) = cluster ++ s.
Proof.
  revert cluster. induction s as [|d s IH]; intros cluster; [done|]. simpl.
  case_match; simpl; rewrite IH; [by rewrite <-app_assoc|done].
Qed.

Lemma greedy_from_nonempty cluster s : cluster ≠ [] → Forall (λ g, g ≠ []) (greedy_from cluster s).
Proof.
  revert cluster. induction s as [|d s IH]; intros cluster Hc; simpl; [by repeat constructor|].
  case_match; [by apply IH; destruct cluster|]. constructor; [done|by apply IH].
Qed.

Lemma greedy_from_not_nil cluster s : greedy_from cluster s ≠ [].
Proof. destruct s as [|d s]; simpl; [done|]. revert cluster d. induction s; intros; case_match; simpl; auto. Qed.

(** What is appended continues from the last cluster. *)
Lemma greedy_from_app cluster s r gs g :
  greedy_from cluster s = gs ++ [g] → greedy_from cluster (s ++ r) = gs ++ greedy_from g r.
Proof.
  revert cluster gs. induction s as [|d s IH]; intros cluster gs; simpl.
  - destruct gs as [|? [|]]; simpl; intros [=]; by subst.
  - case_match; [apply IH|]. destruct gs as [|g' gs]; simpl; intros [= Hg Hs].
    + by destruct (greedy_from_not_nil [d] s).
    + subst. f_equal. by apply IH.
Qed.

(** A cluster read in one piece may be read again from its first character. *)
Definition whole (cluster : list Z) : Prop := greedy cluster = [cluster].

Lemma whole_single c : whole [c].
Proof. done. Qed.

Lemma whole_restart cluster r : whole cluster → greedy (cluster ++ r) = greedy_from cluster r.
Proof.
  unfold whole. destruct cluster as [|c cluster]; [done|]. simpl. intros Hw.
  by apply (greedy_from_app _ _ r [] (c :: cluster)).
Qed.

Lemma whole_snoc cluster d : whole cluster → joins cluster d = true → whole (cluster ++ [d]).
Proof. intros Hw Hj. unfold whole. rewrite whole_restart by done. simpl. by rewrite Hj. Qed.

Lemma greedy_from_whole cluster s : whole cluster → Forall whole (greedy_from cluster s).
Proof.
  revert cluster. induction s as [|d s IH]; intros cluster Hw; simpl; [by repeat constructor|].
  case_match; [by apply IH, whole_snoc|]. constructor; [done|]. apply IH, whole_single.
Qed.

Lemma greedy_from_cut cluster s gs gs' :
  whole cluster → gs ≠ [] → greedy_from cluster s = gs ++ gs' →
  greedy (concat gs) = gs ∧ greedy (concat gs') = gs'.
Proof.
  revert cluster gs. induction s as [|d s IH]; intros cluster gs Hw Hgs; simpl.
  - intros Hs. symmetry in Hs. apply app_singleton in Hs as [[-> _]|[-> ->]]; [done|].
    simpl. by rewrite app_nil_r.
  - destruct (joins cluster d) eqn:Hj; [intros; apply (IH (cluster ++ [d])); auto using whole_snoc|].
    destruct gs as [|g gs]; [done|]. simpl. intros [= <- Hs].
    destruct gs as [|g gs]; simpl in *.
    + rewrite app_nil_r. split; [done|]. rewrite <-Hs, greedy_from_concat. by rewrite Hs.
    + destruct (IH [d] (g :: gs) (whole_single d) ltac:(done) Hs) as [H1 H2]. split; [|done].
      rewrite whole_restart by done. simpl in H1.
      assert (∃ rest, g ++ concat gs = d :: rest) as [rest Hr].
      { pose proof (greedy_from_concat [d] s) as Hc. rewrite Hs in Hc. simpl in Hc.
        rewrite concat_app, app_assoc in Hc.
        pose proof (greedy_from_nonempty [d] s ltac:(done)) as Hne. rewrite Hs in Hne.
        inversion_clear Hne. destruct g as [|c g]; [done|]. simplify_eq/=. eauto. }
      rewrite Hr in *. simpl in *. by rewrite Hj, H1.
Qed.

Lemma last_char_app l r : r ≠ [] → last_char (l ++ r) = last_char r.
Proof.
  intros Hr. unfold last_char. rewrite last_app.
  destruct (last r) eqn:E; [done|]. by apply last_None in E.
Qed.

Lemma greedy_from_last cluster s gs g :
  greedy_from cluster s = gs ++ [g] → cluster ≠ [] → last_char g = last_char (cluster ++ s).
Proof.
  intros Hs Hc. rewrite <-(greedy_from_concat cluster s), Hs, concat_app. simpl. rewrite app_nil_r.
  symmetry. apply last_char_app. pose proof (greedy_from_nonempty cluster s Hc) as Hne.
  rewrite Hs in Hne. apply Forall_app in Hne as [_ Hne]. by inversion_clear Hne.
Qed.

#[export] Instance greedy_segmentation : Segmentation greedy.
Proof.
  split.
  - intros [|c s]; [done|]. apply (greedy_from_concat [c] s).
  - intros [|c s]; [constructor|]. by apply greedy_from_nonempty.
  - intros l c d r Hh.
    assert (∀ cluster s gs g, cluster ≠ [] → greedy_from cluster s = gs ++ [g] → last_char (cluster ++ s) = c →
      greedy_from cluster (s ++ d :: r) = (gs ++ [g]) ++ greedy_from [d] r) as Hgo.
    { intros cluster s gs g Hc Hs Hl. rewrite (greedy_from_app _ _ _ _ _ Hs). simpl.
      rewrite joins_hard; [by rewrite <-app_assoc|]. by rewrite (greedy_from_last _ _ _ _ Hs), Hl. }
    assert (∃ x s, l ++ [c] = x :: s) as (x&s&Hxs) by (destruct l; simpl; eauto).
    rewrite app_assoc, Hxs. simpl.
    destruct (exists_last (greedy_from_not_nil [x] s)) as (gs&g&Hs).
    rewrite (Hgo [x] s gs g); [by rewrite Hs|done|done|].
    simpl. rewrite <-Hxs. unfold last_char. by rewrite last_snoc.
  - intros [|c s] gs gs' Hs; simpl in Hs.
    + symmetry in Hs. apply app_nil in Hs as [-> ->]. done.
    + destruct gs as [|g gs].
      * simpl in *. split; [done|]. rewrite <-Hs, greedy_from_concat. by rewrite Hs.
      * by eapply (greedy_from_cut [c] s).
  - intros l r gs g Hl. destruct l as [|c l]; [by destruct gs|]. simpl in Hl. simpl.
    rewrite (greedy_from_app _ _ _ _ _ Hl). f_equal. symmetry. apply whole_restart.
    pose proof (greedy_from_whole [c] l (whole_single c)) as Hw.
    rewrite Hl in Hw. apply Forall_app in Hw as [_ Hw]. by inversion_clear Hw.
Qed.

End greedy.

Lemma sample_hard cluster d : hard (last_char cluster) d → sample_joins cluster d = false.
Proof.
  unfold hard, GRAPHEME_MERGE_FLOOR, sample_joins, in_range. intros (?&?&Hn). zbool. simpl.
  rewrite !andb_false_r. simpl. rewrite orb_false_r.
  destruct (_ =? 13) eqn:E1, (d =? 10) eqn:E2; unbool; try done. by destruct Hn.
Qed.

#[export] Instance sample_segmentation : Segmentation sample.
Proof. apply greedy_segmentation, sample_hard. Qed.

(** ** Clusters *)

Section laws.
Context {graphemes : list Z → list (list Z)} `{!Segmentation graphemes}.

Notation trailing := (trailing graphemes).
Notation leading := (leading graphemes).

Lemma graphemes_nil : graphemes [] = [].
Proof.
  pose proof (graphemes_concat []) as Hc. pose proof (graphemes_nonempty []) as Hne.
  destruct (graphemes []) as [|g gs]; [done|]. inversion_clear Hne. by destruct g.
Qed.

Lemma graphemes_not_nil s : s ≠ [] → graphemes s ≠ [].
Proof. intros Hs Hg. apply Hs. by rewrite <-(graphemes_concat s), Hg. Qed.

Lemma graphemes_single c : graphemes [c] = [[c]].
Proof.
  pose proof (graphemes_concat [c]) as Hc. pose proof (graphemes_nonempty [c]) as Hne.
  destruct (graphemes [c]) as [|g gs]; [done|]. inversion_clear Hne as [|? ? Hg Hgs]. simpl in Hc.
  apply app_singleton in Hc as [[? _]|[-> Hgs']]; [done|].
  destruct gs as [|g' gs]; [done|]. inversion_clear Hgs. by destruct g'.
Qed.

Lemma graphemes_hard l r :
  l ≠ [] → r ≠ [] → hard (last_char l) (first_char r) → graphemes (l ++ r) = graphemes l ++ graphemes r.
Proof.
  intros Hl Hr Hh. destruct (exists_last Hl) as (l'&c&->). destruct r as [|d r]; [done|].
  rewrite <-app_assoc. apply graphemes_break. unfold last_char in Hh. by rewrite last_snoc in Hh.
Qed.

(** Characters below the floor other than a carriage return stand alone. *)
Lemma graphemes_plain s :
  Forall (λ c, c < GRAPHEME_MERGE_FLOOR ∧ c ≠ 13) s → graphemes s = (λ c, [c]) <$> s.
Proof.
  induction 1 as [|c s [Hc ?] Hs IH]; [apply graphemes_nil|]. destruct Hs as [|d s [Hd ?] _]; [apply graphemes_single|].
  change (c :: d :: s) with ([c] ++ d :: s) at 1.
  rewrite graphemes_hard, IH, graphemes_single; [done|done|done|]. split_and!; [done..|]. by intros [? _].
Qed.

Lemma length_graphemes_plain s :
  Forall (λ c, c < GRAPHEME_MERGE_FLOOR ∧ c ≠ 13) s → length (graphemes s) = length s.
Proof. intros. by rewrite graphemes_plain, length_fmap. Qed.

Lemma graphemes_trailing s : s ≠ [] → ∃ gs, graphemes s = gs ++ [trailing s].
Proof.
  intros Hs. destruct (exists_last (graphemes_not_nil s Hs)) as (gs&g&Hg). exists gs.
  unfold Text.trailing. by rewrite Hg, last_snoc.
Qed.

Lemma graphemes_leading s : s ≠ [] → ∃ gs, graphemes s = leading s :: gs.
Proof.
  intros Hs. unfold Text.leading. destruct (graphemes s) eqn:E; [by apply graphemes_not_nil in E|by eauto].
Qed.

(** A run of the clusters of a text is a text with these clusters. *)
Lemma graphemes_run s i j :
  graphemes (concat (take i (drop j (graphemes s)))) = take i (drop j (graphemes s)).
Proof.
  destruct (graphemes_cut s (take j (graphemes s)) (drop j (graphemes s))) as [_ Hd]; [by rewrite take_drop|].
  apply (graphemes_cut (concat (drop j (graphemes s))) _ (drop i (drop j (graphemes s)))).
  by rewrite take_drop.
Qed.

Lemma graphemes_one s i g : graphemes s !! i = Some g → graphemes g = [g].
Proof.
  intros Hg. pose proof (graphemes_run s 1 i) as Hr.
  rewrite (drop_S _ _ _ Hg) in Hr. simpl in Hr. by rewrite app_nil_r in Hr.
Qed.

(** *** The seam of two texts *)

(** A cluster the left side ends in and the text to the right of it decide. *)
Lemma graphemes_seam l r :
  l ≠ [] → length (graphemes (l ++ r)) = (length (graphemes l) - 1 + length (graphemes (trailing l ++ r)))%nat.
Proof.
  intros Hl. destruct (graphemes_trailing l Hl) as (gs&Hg).
  rewrite (graphemes_extend l r _ _ Hg), Hg, !length_app. simpl. lia.
Qed.

Lemma leading_rest r rest gs : graphemes r = leading r :: gs → r = leading r ++ rest → rest = concat gs.
Proof.
  intros Hg Hr. apply (app_inv_head (leading r)). rewrite <-Hr.
  by rewrite <-(graphemes_concat r) at 1; rewrite Hg.
Qed.

Lemma graphemes_rest r gs : graphemes r = leading r :: gs → graphemes (concat gs) = gs.
Proof. intros Hg. by apply (graphemes_cut r [leading r] gs). Qed.

Lemma leading_not_nil r : r ≠ [] → leading r ≠ [].
Proof.
  intros Hr. destruct (graphemes_leading r Hr) as [gs Hg]. pose proof (graphemes_nonempty r) as Hne.
  rewrite Hg in Hne. by inversion_clear Hne.
Qed.

(** The window counts for the whole right side. *)
Lemma settled_window l r :
  l ≠ [] → r ≠ [] → settled graphemes l r → ¬ hard (last_char l) (first_char r) →
  (length (graphemes (trailing l ++ r)) + 1 = length (graphemes r) + length (graphemes (trailing l ++ leading r)))%nat.
Proof.
  intros Hl Hr Hs Hn. destruct (graphemes_leading r Hr) as [gs Hg].
  pose proof (graphemes_concat r) as Hc. rewrite Hg in Hc. simpl in Hc.
  assert (Hrest : graphemes (concat gs) = gs) by (by eapply graphemes_rest).
  destruct Hs as [?|[?|[?|[Hw|[Hone|(rest&Hr'&Hne&Hh)]]]]]; [done..| | |].
  - assert (Hgo : graphemes ((trailing l ++ leading r) ++ concat gs) = [trailing l] ++ graphemes (leading r ++ concat gs))
      by (by apply graphemes_extend).
    rewrite <-app_assoc, Hc in Hgo. rewrite Hgo, Hw. simpl. lia.
  - rewrite Hg in Hone. simplify_eq. rewrite app_nil_r in Hc. rewrite <-Hc at 1. rewrite Hg. simpl. lia.
  - rewrite (leading_rest _ _ _ Hg Hr') in Hne, Hh. rewrite <-Hc at 1. rewrite app_assoc, graphemes_hard.
    + rewrite Hg, length_app, Hrest. simpl. lia.
    + intros [_ ?]%app_nil. by apply (leading_not_nil r).
    + done.
    + rewrite last_char_app; [done|]. by apply leading_not_nil.
Qed.

End laws.

(** ** Headers *)

Lemma is_ascii_true bytes : is_ascii bytes = true ↔ Forall (λ b, b < 128) bytes.
Proof.
  unfold is_ascii. induction bytes as [|b bytes IH]; simpl; [by split; [constructor|]|].
  by rewrite andb_true_iff, Z.ltb_lt, IH, Forall_cons.
Qed.

Lemma aligned_true bytes :
  is_ascii_grapheme_aligned bytes = true ↔ Forall (λ b, b < 128 ∧ b ≠ 13) bytes.
Proof.
  unfold is_ascii_grapheme_aligned. rewrite andb_true_iff, is_ascii_true, negb_true_iff, bool_decide_eq_false.
  rewrite Forall_and. apply and_iff_compat_l. rewrite Forall_forall. set_solver.
Qed.

Lemma aligned_decode bytes : is_ascii_grapheme_aligned bytes = true → from_utf8 bytes = Some bytes.
Proof. intros [H _]%aligned_true%Forall_and. by apply from_utf8_ascii. Qed.

Lemma aligned_plain bytes :
  is_ascii_grapheme_aligned bytes = true → Forall (λ c, c < GRAPHEME_MERGE_FLOOR ∧ c ≠ 13) bytes.
Proof. intros H%aligned_true. eapply Forall_impl; [exact H|]. unfold GRAPHEME_MERGE_FLOOR. simpl. lia. Qed.

Lemma aligned_app l r :
  is_ascii_grapheme_aligned (l ++ r) = is_ascii_grapheme_aligned l && is_ascii_grapheme_aligned r.
Proof. apply eq_true_iff_eq. by rewrite andb_true_iff, !aligned_true, Forall_app. Qed.

(** No bidirectional control is below the floor. *)
Lemma below_floor_no_bidi c : c < GRAPHEME_MERGE_FLOOR → Bidi.is_bidi_control c = false.
Proof.
  intros Hc. unfold Bidi.is_bidi_control. apply bool_decide_eq_false. intros [k Hk].
  unfold GRAPHEME_MERGE_FLOOR in Hc. unfold Bidi.classify in Hk.
  repeat case_bool_decide; repeat (case_match; unbool); simplify_eq; set_unfold; lia.
Qed.

Lemma plain_no_bidi s :
  Forall (λ c, c < GRAPHEME_MERGE_FLOOR ∧ c ≠ 13) s → existsb Bidi.is_bidi_control s = false.
Proof.
  induction 1 as [|c s [Hc _] _ IH]; [done|]. simpl. by rewrite below_floor_no_bidi, IH.
Qed.

(** The pass over the characters: their number, the largest, any carriage return. *)
Lemma header_pass s n m cr :
  fold_left (λ '(n, m, cr) ch, (n + 1, Z.max m ch, cr || (ch =? 13))) s (n, m, cr)
  = (n + Z.of_nat (length s), fold_left Z.max s m, cr || existsb (λ ch, ch =? 13) s).
Proof.
  revert n m cr. induction s as [|c s IH]; intros n m cr; simpl.
  - by rewrite Z.add_0_r, orb_false_r.
  - rewrite IH, orb_assoc. do 2 f_equal. lia.
Qed.

Lemma fold_max_below s m b : fold_left Z.max s m < b → Forall (λ c, c < b) s ∧ m < b.
Proof.
  revert m. induction s as [|c s IH]; intros m Hm; [done|]. cbn [fold_left] in Hm.
  apply IH in Hm as [? ?]. split; [constructor; [lia|done]|lia].
Qed.

Lemma existsb_false {A} (f : A → bool) s : existsb f s = false ↔ Forall (λ x, f x = false) s.
Proof.
  induction s as [|x s IH]; simpl; [by split; [constructor|]|]. rewrite orb_false_iff, IH, Forall_cons. done.
Qed.

Section headers.
Context {graphemes : list Z → list (list Z)} `{!Segmentation graphemes}.

(** The two shortcuts and the general path compute one header. *)
Lemma text_header_general bytes :
  Forall byte bytes →
  text_header graphemes bytes =
    (Z.of_nat (length (graphemes (from_utf8_lossy bytes))),
     if is_ascii_grapheme_aligned bytes then ascii_flags
     else Z.lor (if bool_decide (is_Some (from_utf8 bytes)) then TEXT_VALID_UTF8 else 0)
                (if existsb Bidi.is_bidi_control (from_utf8_lossy bytes) then 0 else TEXT_NO_BIDI_CONTROLS)).
Proof.
  intros Hb. unfold text_header. destruct (is_ascii_grapheme_aligned bytes) eqn:Ha.
  { rewrite (from_utf8_lossy_Some _ _ (aligned_decode _ Ha)).
    by rewrite length_graphemes_plain by (by apply aligned_plain). }
  assert (∀ text (valid : bool),
    (let '(char_count, max_char, has_cr) :=
       fold_left (λ '(n, m, cr) ch, (n + 1, Z.max m ch, cr || (ch =? 13))) text (0, 0, false) in
     let flags := if valid then TEXT_VALID_UTF8 else 0 in
     if (max_char <? GRAPHEME_MERGE_FLOOR) && negb has_cr
     then (char_count, Z.lor flags TEXT_NO_BIDI_CONTROLS)
     else
       (Z.of_nat (length (graphemes text)),
        if negb (existsb Bidi.is_bidi_control text) then Z.lor flags TEXT_NO_BIDI_CONTROLS else flags))
    = (Z.of_nat (length (graphemes text)),
       Z.lor (if valid then TEXT_VALID_UTF8 else 0)
             (if existsb Bidi.is_bidi_control text then 0 else TEXT_NO_BIDI_CONTROLS))) as Hgo.
  { intros text valid. rewrite header_pass. simpl. destruct (_ && _) eqn:Hp.
    - apply andb_true_iff in Hp as [Hmax Hcr]. unbool.
      destruct (fold_max_below _ _ _ Hmax) as [Hm _]. apply existsb_false in Hcr.
      assert (Forall (λ c, c < GRAPHEME_MERGE_FLOOR ∧ c ≠ 13) text) as Hpl.
      { apply Forall_and. split; [done|]. eapply Forall_impl; [exact Hcr|].
        intros c Hc. by apply Z.eqb_neq in Hc. }
      by rewrite plain_no_bidi, length_graphemes_plain by done.
    - destruct (existsb Bidi.is_bidi_control text); [|done]. by rewrite Z.lor_0_r. }
  destruct (from_utf8 bytes) as [s|] eqn:Hs.
  - rewrite (from_utf8_lossy_Some _ _ Hs). apply (Hgo s true).
  - apply (Hgo _ false).
Qed.

Lemma header_bits (ascii valid bidi : bool) :
  let flags := if ascii then ascii_flags
               else Z.lor (if valid then TEXT_VALID_UTF8 else 0) (if bidi then 0 else TEXT_NO_BIDI_CONTROLS) in
  text_is_ascii flags = ascii ∧ text_is_valid_utf8 flags = ascii || valid
  ∧ text_no_bidi_controls flags = ascii || negb bidi.
Proof. destruct ascii, valid, bidi; vm_compute; auto. Qed.

(** The header computed for bytes, by whichever of its paths, is the naive one: the
    count is the number of grapheme clusters of the decoded content, and each bit
    is set exactly when its property holds - all ASCII without a carriage return,
    valid UTF-8, no bidirectional control. *)
Theorem header_exact bytes :
  Forall byte bytes →
  let '(count, flags) := text_header graphemes bytes in
  count = Z.of_nat (length (graphemes (from_utf8_lossy bytes))) ∧
  text_is_ascii flags = is_ascii_grapheme_aligned bytes ∧
  text_is_valid_utf8 flags = bool_decide (is_Some (from_utf8 bytes)) ∧
  text_no_bidi_controls flags = negb (existsb Bidi.is_bidi_control (from_utf8_lossy bytes)).
Proof.
  intros Hb. rewrite text_header_general by done. split; [done|].
  destruct (header_bits (is_ascii_grapheme_aligned bytes) (bool_decide (is_Some (from_utf8 bytes)))
              (existsb Bidi.is_bidi_control (from_utf8_lossy bytes))) as (H1&H2&H3).
  split; [done|]. rewrite H2, H3. destruct (is_ascii_grapheme_aligned bytes) eqn:Ha; [|done].
  rewrite (from_utf8_lossy_Some _ _ (aligned_decode _ Ha)), (aligned_decode _ Ha).
  rewrite plain_no_bidi by (by apply aligned_plain). split; [|done]. by rewrite bool_decide_eq_true_2.
Qed.

End headers.

(** ** Texts of the runtime *)

Section texts.
Context {graphemes : list Z → list (list Z)} `{!Segmentation graphemes}.

Notation wf := (wf graphemes).
Notation header_ok := (header_ok graphemes).
Notation alloc_text := (alloc_text graphemes).

Lemma wf_bytes t : wf t → byte_slice t = contents t.
Proof.
  unfold wf, byte_slice, contents. destruct (data t) as [block|]; [|done]. intros (->&Hne&_).
  destruct (Z.of_nat (length (content block)) <=? 0) eqn:E; unbool.
  - by destruct (content block).
  - by rewrite Nat2Z.id, firstn_all.
Qed.

Lemma wf_byte t : wf t → Forall byte (byte_slice t).
Proof. intros Hw. rewrite wf_bytes by done. unfold wf, contents in *. destruct (data t); [tauto|constructor]. Qed.

Lemma wf_len t : wf t → len t = Z.of_nat (length (byte_slice t)).
Proof. intros Hw. rewrite wf_bytes by done. unfold wf, contents in *. destruct (data t); [tauto|done]. Qed.

Lemma header_ok_nil : header_ok 0 ascii_flags [].
Proof. split_and!; [by rewrite graphemes_nil|done|by eexists|constructor]. Qed.

(** Null or not, the header read off a text is true of its bytes. *)
Lemma wf_header t : wf t → header_ok (text_header_of (data t)).1 (text_header_of (data t)).2 (byte_slice t).
Proof.
  intros Hw. rewrite wf_bytes by done. unfold wf, contents in *. destruct (data t); [tauto|apply header_ok_nil].
Qed.

Lemma wf_text_str t : wf t → text_str t = Ok (chars t).
Proof.
  intros Hw. unfold text_str, chars. case_match eqn:Hv; [|done].
  destruct (wf_header t Hw) as (_&_&[s Hs]&_); [done|]. by rewrite Hs, (from_utf8_lossy_Some _ _ Hs).
Qed.

Lemma wf_scalar t : wf t → Forall scalar (chars t).
Proof. intros. by apply from_utf8_lossy_scalar, wf_byte. Qed.

Lemma wf_ascii t :
  wf t → text_is_ascii (text_header_of (data t)).2 = true →
  is_ascii_grapheme_aligned (byte_slice t) = true ∧ chars t = byte_slice t.
Proof.
  intros Hw Ha. destruct (wf_header t Hw) as (_&H&_). specialize (H Ha). split; [done|].
  by apply from_utf8_lossy_Some, aligned_decode.
Qed.

(** The count in the header is the number of clusters. *)
Lemma wf_length t : wf t → __text_length t = Z.of_nat (length (graphemes (chars t))).
Proof.
  intros Hw. unfold __text_length. rewrite wf_len by done. destruct (wf_header t Hw) as (Hc&_).
  destruct (Z.of_nat (length (byte_slice t)) <=? 0) eqn:E; unbool; [|done].
  unfold chars. destruct (byte_slice t); [|simpl in E; lia]. by rewrite graphemes_nil.
Qed.

Lemma wf_empty : wf empty_slice.
Proof. done. Qed.

Lemma alloc_with_header_wf bytes count flags :
  Forall byte bytes → (bytes ≠ [] → header_ok count flags bytes) →
  wf (alloc_text_with_header bytes count flags) ∧ byte_slice (alloc_text_with_header bytes count flags) = bytes.
Proof.
  intros Hb Hh. unfold alloc_text_with_header. case_bool_decide as Hne; [by subst|].
  assert (wf (mkSlice (Some (mkBlock count flags bytes)) (Z.of_nat (length bytes)))) as Hw
    by (split_and!; auto). by rewrite wf_bytes.
Qed.

Lemma alloc_text_wf bytes : Forall byte bytes → wf (alloc_text bytes) ∧ byte_slice (alloc_text bytes) = bytes.
Proof.
  intros Hb. unfold Text.alloc_text. rewrite text_header_general by done. apply alloc_with_header_wf; [done|].
  intros _. split; [done|].
  destruct (header_bits (is_ascii_grapheme_aligned bytes) (bool_decide (is_Some (from_utf8 bytes)))
              (existsb Bidi.is_bidi_control (from_utf8_lossy bytes))) as (->&->&->).
  split; [done|]. destruct (is_ascii_grapheme_aligned bytes) eqn:Ha; simpl.
  - rewrite (from_utf8_lossy_Some _ _ (aligned_decode _ Ha)), (aligned_decode _ Ha).
    split; [by eexists|]. intros _. by apply existsb_false, plain_no_bidi, aligned_plain.
  - split; [apply bool_decide_eq_true|]. intros ?. by apply existsb_false, negb_true_iff.
Qed.

(** Of a text of scalar values: the producers that encode a [&str]. *)
Lemma alloc_encoded s : Forall scalar s → wf (alloc_text (encode_str s)) ∧ chars (alloc_text (encode_str s)) = s.
Proof.
  intros Hs. destruct (alloc_text_wf (encode_str s)) as [Hw Hb]; [by apply encode_str_bytes|].
  split; [done|]. unfold chars. by rewrite Hb, from_utf8_lossy_encode.
Qed.

Lemma alloc_counted s count :
  Forall scalar s → count = Z.of_nat (length (graphemes s)) →
  wf (alloc_text_with_count (encode_str s) count) ∧ chars (alloc_text_with_count (encode_str s) count) = s.
Proof.
  intros Hs ->. unfold alloc_text_with_count, chars.
  destruct (alloc_with_header_wf (encode_str s) (Z.of_nat (length (graphemes s)))
    (if is_ascii_grapheme_aligned (encode_str s) then ascii_flags else TEXT_VALID_UTF8)) as [Hw ->].
  - by apply encode_str_bytes.
  - intros _. unfold Text.header_ok. rewrite from_utf8_lossy_encode, from_utf8_encode by done.
    destruct (is_ascii_grapheme_aligned (encode_str s)) eqn:Ha; split_and!; try done; try by eexists.
    intros _. apply existsb_false, plain_no_bidi.
    pose proof (aligned_decode _ Ha) as Hd. rewrite from_utf8_encode in Hd by done. simplify_eq.
    rewrite Hd. by apply aligned_plain.
  - split; [done|]. by rewrite from_utf8_lossy_encode.
Qed.

(** ** Offsets *)

Lemma byte_len_app s t : byte_len (s ++ t) = (byte_len s + byte_len t)%nat.
Proof. unfold byte_len. by rewrite encode_str_app, length_app. Qed.

Lemma byte_len_ascii s : Forall (λ b, b < 128) s → byte_len s = length s.
Proof. intros. unfold byte_len. by rewrite encode_str_ascii. Qed.

Lemma byte_len_cons c s : byte_len (c :: s) = (len_utf8 c + byte_len s)%nat.
Proof. unfold byte_len. by rewrite encode_str_cons, length_app, encode_utf8_length. Qed.

Lemma str_split_at_app s t : str_split_at (s ++ t) (byte_len s) = Ok (s, t).
Proof.
  induction s as [|c s IH]; [by destruct t|]. rewrite byte_len_cons. pose proof (len_utf8_pos c).
  destruct (len_utf8 c + byte_len s)%nat as [|n] eqn:E; [lia|]. cbn [str_split_at app].
  rewrite (proj2 (Nat.ltb_ge (S n) (len_utf8 c))) by lia.
  replace (S n - len_utf8 c)%nat with (byte_len s) by lia. by rewrite IH.
Qed.

Lemma str_range_app s t u : str_range (s ++ t ++ u) (byte_len s) (byte_len (s ++ t)) = Ok t.
Proof.
  unfold str_range. rewrite byte_len_app at 1.
  rewrite (proj2 (Nat.ltb_ge _ _)) by lia. rewrite app_assoc, str_split_at_app. simpl.
  by rewrite str_split_at_app.
Qed.

Lemma offsets_lookup from gs i :
  (i < length gs)%nat → offsets from gs !! i = Some (from + byte_len (concat (take i gs)))%nat.
Proof.
  revert from i. induction gs as [|g gs IH]; intros from i Hi; simpl in *; [lia|].
  destruct i as [|i]; simpl; [by rewrite Nat.add_0_r|].
  rewrite IH by lia. f_equal. rewrite byte_len_app. lia.
Qed.

Lemma length_offsets from gs : length (offsets from gs) = length gs.
Proof. revert from. induction gs; intros; simpl; auto. Qed.

Lemma bounds_lookup gs i :
  (i ≤ length gs)%nat →
  (offsets 0 gs ++ [byte_len (concat gs)]) !! i = Some (byte_len (concat (take i gs))).
Proof.
  intros Hi. destruct (decide (i < length gs)%nat).
  - rewrite lookup_app_l by (by rewrite length_offsets). by rewrite offsets_lookup.
  - rewrite lookup_app_r by (rewrite length_offsets; lia). rewrite length_offsets.
    replace i with (length gs) by lia. by rewrite Nat.sub_diag, firstn_all.
Qed.

(** ** Positions count clusters *)

Lemma clamp_Ok n m : clamp n 0 (Z.of_nat m) = Ok (Z.of_nat (clamped n m)).
Proof. unfold clamp, clamped. zbool. repeat case_match; unbool; f_equal; lia. Qed.

Lemma clamped_le n m : (clamped n m ≤ m)%nat.
Proof. unfold clamped. lia. Qed.

Lemma concat_singles (s : list Z) : concat ((λ c, [c]) <$> s) = s.
Proof. induction s as [|c s IH]; [done|]. rewrite fmap_cons. simpl. by f_equal. Qed.

Lemma run_singles (s : list Z) lo hi : run ((λ c, [c]) <$> s) lo hi = take (hi - lo) (drop lo s).
Proof. unfold run. by rewrite <-fmap_drop, <-fmap_take, concat_singles. Qed.

Lemma run_length (gs : list (list Z)) lo hi :
  (hi ≤ length gs)%nat → (lo ≤ hi)%nat → length (take (hi - lo) (drop lo gs)) = (hi - lo)%nat.
Proof. intros. rewrite length_take, length_drop. lia. Qed.

Lemma run_split (gs : list (list Z)) lo hi :
  (lo ≤ hi)%nat → concat gs = concat (take lo gs) ++ run gs lo hi ++ concat (drop hi gs) ∧
  concat (take hi gs) = concat (take lo gs) ++ run gs lo hi.
Proof.
  intros Hle. unfold run. rewrite app_assoc, <-!concat_app. rewrite take_drop_commute.
  replace (lo + (hi - lo))%nat with hi by lia.
  assert (take lo gs ++ drop lo (take hi gs) = take hi gs) as ->.
  { rewrite <-(take_drop lo (take hi gs)) at 2. by rewrite take_take, Nat.min_l by lia. }
  by rewrite take_drop.
Qed.

Lemma run_empty gs lo hi : (hi ≤ lo)%nat → run gs lo hi = [].
Proof. intros. unfold run. by replace (hi - lo)%nat with 0%nat by lia. Qed.

Lemma run_scalar s lo hi : Forall scalar s → Forall scalar (run (graphemes s) lo hi).
Proof.
  intros Hs. destruct (decide (lo ≤ hi)%nat) as [Hle|]; [|rewrite run_empty by lia; constructor].
  destruct (run_split (graphemes s) lo hi Hle) as [Hr _]. rewrite graphemes_concat in Hr.
  rewrite Hr, !Forall_app in Hs. tauto.
Qed.

(** On an aligned text the clusters are the bytes. *)
Lemma wf_ascii_graphemes t :
  wf t → text_is_ascii (text_header_of (data t)).2 = true →
  graphemes (chars t) = (λ c, [c]) <$> byte_slice t ∧ Forall (λ b, b < 128) (byte_slice t).
Proof.
  intros Hw Ha. destruct (wf_ascii t Hw Ha) as [Hal ->]. split.
  - by apply graphemes_plain, aligned_plain.
  - by apply aligned_true, Forall_and in Hal as [? _].
Qed.

(** A piece cut out of an aligned text by bytes. *)
Lemma aligned_piece t lo hi :
  wf t → text_is_ascii (text_header_of (data t)).2 = true →
  (lo ≤ hi)%nat → (hi ≤ length (byte_slice t))%nat →
  ∃ piece, byte_range (byte_slice t) (Z.of_nat lo) (Z.of_nat hi) = Ok piece ∧
           piece = encode_str (run (graphemes (chars t)) lo hi).
Proof.
  intros Hw Ha ? ?. destruct (wf_ascii_graphemes t Hw Ha) as [-> Hb]. rewrite run_singles.
  unfold byte_range. zbool. simpl. eexists; split; [done|].
  rewrite encode_str_ascii by (by apply Forall_take, Forall_drop).
  by rewrite Nat2Z.id, <-Nat2Z.inj_sub, Nat2Z.id by lia.
Qed.

(** The clusters between two positions, as a text of its own. *)
Lemma alloc_run t lo hi :
  wf t → (lo ≤ hi)%nat → (hi ≤ length (graphemes (chars t)))%nat →
  let r := alloc_text_with_count (encode_str (run (graphemes (chars t)) lo hi)) (Z.of_nat hi - Z.of_nat lo) in
  wf r ∧ chars r = run (graphemes (chars t)) lo hi.
Proof.
  intros Hw ? ?. apply alloc_counted; [by apply run_scalar, wf_scalar|].
  unfold run. rewrite graphemes_run, run_length by lia. lia.
Qed.

(** C20: [slice] answers the clusters from [start] to [stop], both clamped to the text,
    on either path - the byte copy of an ASCII-aligned receiver and the walk over
    clusters - with an exact header, and never panics. *)
Theorem slice_clusters t start stop :
  wf t →
  let gs := graphemes (chars t) in
  let lo := clamped start (length gs) in
  let hi := clamped stop (length gs) in
  ∃ r, __text_slice graphemes t start stop = Ok r ∧ wf r ∧
       graphemes (chars r) = take (hi - lo) (drop lo gs) ∧ __text_length r = Z.of_nat (hi - lo).
Proof.
  intros Hw gs lo hi.
  assert (∃ r, __text_slice graphemes t start stop = Ok r ∧ wf r ∧ chars r = run gs lo hi) as (r&Hr&Hwr&Hc).
  { assert (lo ≤ length gs)%nat by apply clamped_le. assert (hi ≤ length gs)%nat by apply clamped_le.
    assert (empty_run : (hi ≤ lo)%nat → wf empty_slice ∧ chars empty_slice = run gs lo hi)
      by (intros; by rewrite run_empty).
    unfold __text_slice. destruct (text_header_of (data t)) as [count flags] eqn:Hh.
    destruct (text_is_ascii flags) eqn:Ha.
    - destruct (wf_ascii_graphemes t Hw) as [Hg _]; [by rewrite Hh|].
      assert (length gs = length (byte_slice t)) as Hl by (unfold gs; by rewrite Hg, length_fmap).
      rewrite wf_len, <-Hl, !clamp_Ok by done. cbn [mbind result_bind]. fold lo hi.
      destruct (Z.of_nat hi <=? Z.of_nat lo) eqn:E; unbool; [eexists; split; [done|apply empty_run; lia]|].
      destruct (aligned_piece t lo hi Hw) as (piece&->&->); [by rewrite Hh|lia|lia|].
      cbn. eexists. split; [done|]. apply alloc_run; [done|lia|done].
    - rewrite wf_text_str by done. cbn [mbind result_bind]. fold gs.
      assert (Z.of_nat (length (offsets 0 gs ++ [byte_len (chars t)])) - 1 = Z.of_nat (length gs)) as ->
        by (rewrite length_app, length_offsets; simpl; lia).
      rewrite !clamp_Ok. cbn [mbind result_bind]. fold lo hi.
      destruct (Z.of_nat hi <=? Z.of_nat lo) eqn:E; unbool; [eexists; split; [done|apply empty_run; lia]|].
      assert (chars t = concat gs) as -> by (symmetry; apply graphemes_concat).
      rewrite !Nat2Z.id, !bounds_lookup by done.
      destruct (run_split gs lo hi) as [-> ->]; [lia|]. rewrite str_range_app. cbn.
      eexists. split; [done|]. apply alloc_run; [done|lia|done]. }
  exists r. rewrite wf_length, Hc by done. unfold run, gs. rewrite graphemes_run.
  split_and!; try done. rewrite length_take, length_drop.
  assert (hi ≤ length gs)%nat by apply clamped_le. unfold gs in *. lia.
Qed.

Lemma run_one (gs : list (list Z)) i g : gs !! i = Some g → run gs i (S i) = g.
Proof.
  intros Hg. unfold run. replace (S i - i)%nat with 1%nat by lia.
  rewrite (drop_S _ _ _ Hg). simpl. by rewrite app_nil_r.
Qed.

(** A cluster as a text of its own. *)
Lemma alloc_cluster t i g :
  wf t → graphemes (chars t) !! i = Some g →
  let r := alloc_text_with_count (encode_str g) 1 in wf r ∧ graphemes (chars r) = [g].
Proof.
  intros Hw Hg. pose proof (alloc_run t i (S i) Hw) as Hr. rewrite (run_one _ _ _ Hg) in Hr.
  replace (Z.of_nat (S i) - Z.of_nat i) with 1 in Hr by lia.
  apply lookup_lt_Some in Hg as Hlt. destruct Hr as [? Hr]; [lia|lia|].
  split; [done|]. rewrite Hr. by eapply graphemes_one.
Qed.

Lemma at_cluster t index :
  wf t → ∃ r, __text_at graphemes t index = Ok r ∧ wf r ∧
    match (if index <? 0 then None else graphemes (chars t) !! Z.to_nat index) with
    | Some g => graphemes (chars r) = [g]
    | None => r = empty_slice
    end.
Proof.
  intros Hw. unfold __text_at. destruct (index <? 0) eqn:Hi; unbool; [by eexists|].
  destruct (text_header_of (data t)) as [count flags] eqn:Hh. destruct (text_is_ascii flags) eqn:Ha.
  - destruct (wf_ascii_graphemes t Hw) as [Hgs _]; [by rewrite Hh|]. rewrite wf_len by done.
    assert (length (graphemes (chars t)) = length (byte_slice t)) as Hl by (by rewrite Hgs, length_fmap).
    destruct (_ <=? index) eqn:E; unbool.
    { eexists; split_and!; [done|done|]. by rewrite lookup_ge_None_2 by lia. }
    destruct (lookup_lt_is_Some_2 (graphemes (chars t)) (Z.to_nat index)) as [g Hg]; [lia|]. rewrite Hg.
    destruct (aligned_piece t (Z.to_nat index) (S (Z.to_nat index)) Hw) as (piece&Hp&->); [by rewrite Hh|lia|lia|].
    rewrite Z2Nat.id in Hp by lia. replace (Z.of_nat (S (Z.to_nat index))) with (index + 1) in Hp by lia.
    rewrite Hp, (run_one _ _ _ Hg). cbn. eexists; split; [done|]. by eapply alloc_cluster.
  - rewrite wf_text_str by done. cbn [mbind result_bind].
    destruct (graphemes (chars t) !! Z.to_nat index) as [g|] eqn:Hg; [|by eexists].
    eexists; split; [done|]. by eapply alloc_cluster.
Qed.

(** Where the search of [text_find_from] starts. *)
Lemma find_start h from :
  wf h →
  let n := clamped from (length (graphemes (chars h))) in
  (if text_is_ascii (text_header_of (data h)).2 then n ← clamp from 0 (len h); Ok (Z.to_nat n)
   else n ← clamp from 0 (text_header_of (data h)).1;
        Ok (default (byte_len (chars h)) (offsets 0 (graphemes (chars h)) !! Z.to_nat n)))
  = @Ok Stop _ (byte_len (concat (take n (graphemes (chars h))))).
Proof.
  intros Hw n. destruct (text_is_ascii _) eqn:Ha.
  - destruct (wf_ascii_graphemes h Hw Ha) as [Hg Hb].
    rewrite wf_len, clamp_Ok by done. cbn. rewrite Nat2Z.id. f_equal.
    rewrite Hg, <-fmap_take, concat_singles, byte_len_ascii by (by apply Forall_take).
    rewrite length_take. unfold n. rewrite Hg, length_fmap. symmetry. apply Nat.min_l, clamped_le.
  - destruct (wf_header h Hw) as [-> _]. fold (chars h). rewrite clamp_Ok. cbn. rewrite Nat2Z.id. fold n. f_equal.
    destruct (decide (n < length (graphemes (chars h)))%nat).
    + by rewrite offsets_lookup.
    + rewrite lookup_ge_None_2 by (rewrite length_offsets; lia). simpl.
      by rewrite take_ge, graphemes_concat by lia.
Qed.

(** C21: [indexOf] answers, on either path and without a panic, the number of clusters of
    the text before the first occurrence at or after [from] (clamped), or -1. *)
Theorem find_clusters h sub from :
  wf h → wf sub →
  text_find_from graphemes h sub from
  = Ok (find_position graphemes (chars h) (chars sub) (clamped from (length (graphemes (chars h))))).
Proof.
  intros Hh Hs. pose proof (find_start h from Hh) as Hstart.
  unfold text_find_from, find_position. set (n := clamped from _) in *.
  set (skip := concat (take n (graphemes (chars h)))) in *.
  set (tail := concat (drop n (graphemes (chars h)))).
  assert (Hst : chars h = skip ++ tail)
    by (unfold skip, tail; by rewrite <-concat_app, take_drop, graphemes_concat).
  destruct (text_header_of (data h)) as [count flags] eqn:Hhd. simpl in Hstart.
  rewrite !wf_text_str by done. cbn [mbind result_bind] in *. rewrite Hstart. cbn [mbind result_bind].
  rewrite Hst at 1. rewrite str_split_at_app. cbn [mbind result_bind]. unfold str_find.
  destruct (find_subslice tail (chars sub)) as [i|] eqn:Hf; [|done]. cbn [fmap option_fmap option_map].
  rewrite <-byte_len_app. destruct (text_is_ascii flags) eqn:Ha.
  - destruct (wf_ascii h Hh) as [Hal Hc]; [by rewrite Hhd|]. rewrite <-Hc, Hst in Hal.
    assert (is_ascii_grapheme_aligned (skip ++ take i tail) = true) as Hal'.
    { rewrite <-(take_drop i tail), app_assoc, aligned_app in Hal. by apply andb_true_iff in Hal as [? _]. }
    rewrite length_graphemes_plain by (by apply aligned_plain).
    rewrite byte_len_ascii; [done|]. by apply aligned_true, Forall_and in Hal' as [? _].
  - rewrite Hst, <-(take_drop i tail) at 1. rewrite app_assoc, str_split_at_app. done.
Qed.

(** ** Concatenation *)

Lemma inherited_bits ascii no_bidi :
  text_is_ascii (inherited_flags ascii no_bidi) = ascii ∧
  text_is_valid_utf8 (inherited_flags ascii no_bidi) = true ∧
  text_no_bidi_controls (inherited_flags ascii no_bidi) = no_bidi.
Proof. destruct ascii, no_bidi; vm_compute; auto. Qed.

Lemma plain_seam_true c d : plain_seam c d = true ↔ hard c d.
Proof.
  unfold plain_seam, hard. rewrite !andb_true_iff, negb_true_iff, !Z.ltb_lt, andb_false_iff, !Z.eqb_neq.
  split; [intros [[? ?] ?]; split_and!; [done|done|lia]|intros (?&?&?)].
  split; [done|]. destruct (decide (c = 13)); [right|left]; lia.
Qed.

(** The text decodes without loss. *)
Definition valid (t : QnSlice) : Prop := is_Some (from_utf8 (byte_slice t)).

Lemma valid_encode t : wf t → valid t → byte_slice t = encode_str (chars t).
Proof.
  intros Hw [s Hs]. unfold chars. rewrite (from_utf8_lossy_Some _ _ Hs).
  by apply from_utf8_Some; [apply wf_byte|].
Qed.

Lemma wf_nil t : wf t → len t <= 0 ↔ byte_slice t = [].
Proof. intros Hw. rewrite wf_len by done. destruct (byte_slice t); simpl; [split; [done|lia]|split; [lia|done]]. Qed.

Lemma chars_nil t : byte_slice t = [] → chars t = [].
Proof. unfold chars. by intros ->. Qed.

Lemma chars_not_nil t : byte_slice t ≠ [] → chars t ≠ [].
Proof. unfold chars. by intros ? ?%from_utf8_lossy_nil. Qed.

Lemma wf_count t : wf t → (text_header_of (data t)).1 = Z.of_nat (length (graphemes (chars t))).
Proof. intros Hw. by destruct (wf_header t Hw) as [? _]. Qed.

(** Empty or flagged: the content is aligned. *)
Lemma wf_ascii_or_empty t :
  wf t → (len t <=? 0) || text_is_ascii (text_header_of (data t)).2 = true →
  is_ascii_grapheme_aligned (byte_slice t) = true ∧ chars t = byte_slice t.
Proof.
  intros Hw [H|H]%orb_true_iff; [|by apply wf_ascii]. apply Z.leb_le, wf_nil in H; [|done].
  by rewrite (chars_nil _ H), H.
Qed.

Lemma wf_bidi_or_empty t :
  wf t → (len t <=? 0) || text_no_bidi_controls (text_header_of (data t)).2 = true →
  Forall (λ c, Bidi.is_bidi_control c = false) (chars t).
Proof.
  intros Hw [H|H]%orb_true_iff; [|by destruct (wf_header t Hw) as (_&_&_&Hb); apply Hb].
  apply Z.leb_le, wf_nil in H; [|done]. rewrite (chars_nil _ H). constructor.
Qed.

(** The corrected count is the count of the whole, where the window sees the
    seam. *)
Lemma seam_corrected_exact l r l_ascii r_ascii :
  l ≠ [] → r ≠ [] → settled graphemes l r → l_ascii && r_ascii = false →
  seam_corrected graphemes l (Z.of_nat (length (graphemes l))) l_ascii r (Z.of_nat (length (graphemes r))) r_ascii
  = (Z.of_nat (length (graphemes (l ++ r))), false).
Proof.
  intros Hl Hr Hs Ha. unfold seam_corrected. rewrite !bool_decide_eq_false_2, Ha by done.
  destruct (plain_seam _ _) eqn:Hp.
  - apply plain_seam_true in Hp. rewrite graphemes_hard, length_app by done. f_equal. lia.
  - f_equal. rewrite (graphemes_seam l r) by done.
    pose proof (settled_window l r Hl Hr Hs) as Hw.
    rewrite <-plain_seam_true, Hp in Hw. specialize (Hw ltac:(discriminate)).
    pose proof (graphemes_not_nil l Hl). destruct (graphemes l); [done|]. simpl. lia.
Qed.

Lemma concat_header_exact l r :
  wf l → wf r → settled graphemes (chars l) (chars r) → 0 < Z.max (len l) 0 + Z.max (len r) 0 →
  ∃ ascii,
    concat_header graphemes l (text_header_of (data l)).1 ((len l <=? 0) || text_is_ascii (text_header_of (data l)).2)
      r (text_header_of (data r)).1 ((len r <=? 0) || text_is_ascii (text_header_of (data r)).2)
    = Ok (Z.of_nat (length (graphemes (chars l ++ chars r))), ascii) ∧
    (ascii = true → is_ascii_grapheme_aligned (byte_slice l ++ byte_slice r) = true).
Proof.
  intros Hl Hr Hs Hpos. unfold concat_header. rewrite !wf_count by done.
  pose proof (wf_ascii_or_empty l Hl) as Hal. pose proof (wf_ascii_or_empty r Hr) as Har.
  destruct (len l <=? 0) eqn:El; unbool.
  { apply wf_nil in El as Hb; [|done]. rewrite (chars_nil _ Hb), Hb. eexists. split; [done|]. by apply Har. }
  destruct (len r <=? 0) eqn:Er; unbool.
  { apply wf_nil in Er as Hb; [|done]. rewrite (chars_nil _ Hb), Hb, !app_nil_r. eexists. split; [done|]. by apply Hal. }
  simpl in *. assert (Hl' : byte_slice l ≠ []) by (intros E; apply (wf_nil l Hl) in E; lia).
  assert (Hr' : byte_slice r ≠ []) by (intros E; apply (wf_nil r Hr) in E; lia).
  destruct (_ && _) eqn:Ha.
  - apply andb_true_iff in Ha as [Ha1 Ha2]. destruct (Hal Ha1) as [Hal' ->], (Har Ha2) as [Har' ->].
    assert (is_ascii_grapheme_aligned (byte_slice l ++ byte_slice r) = true) as Hc by (by rewrite aligned_app, Hal').
    eexists. split; [|by intros _]. do 2 f_equal.
    rewrite !length_graphemes_plain, length_app by (by apply aligned_plain). lia.
  - rewrite !wf_text_str by done. cbn [mbind result_bind].
    rewrite seam_corrected_exact by (done || by apply chars_not_nil). eexists. done.
Qed.


(** ** Splitting and joining *)

Lemma str_split_fuel_not_nil fuel s pat : str_split_fuel fuel s pat ≠ [].
Proof. destruct fuel; simpl; [done|]. by case_match. Qed.

Lemma intercalate_cons sep part parts : parts ≠ [] → intercalate sep (part :: parts) = part ++ sep ++ intercalate sep parts.
Proof. by destruct parts. Qed.

Lemma intercalate_split_fuel fuel s pat : intercalate pat (str_split_fuel fuel s pat) = s.
Proof.
  revert s. induction fuel as [|fuel IH]; intros s; [done|]. cbn [str_split_fuel].
  destruct (find_subslice s pat) as [i|] eqn:Hf; [|done].
  rewrite intercalate_cons by apply str_split_fuel_not_nil. rewrite IH.
  apply find_subslice_Some in Hf as ([k Hk]&_&_). rewrite <-drop_drop, Hk, drop_app_length.
  by rewrite <-Hk, take_drop.
Qed.

(** A piece before an occurrence holds none, and neither does the last. *)
Lemma find_subslice_take s pat i : pat ≠ [] → find_subslice s pat = Some i → find_subslice (take i s) pat = None.
Proof.
  intros Hp Hf. destruct (find_subslice (take i s) pat) as [j|] eqn:Hj; [|done].
  pose proof (find_subslice_bound _ _ _ Hj) as Hb. rewrite length_take in Hb.
  pose proof (find_subslice_app _ (drop i s) _ _ Hj) as Ha. rewrite take_drop, length_take in Ha.
  rewrite Ha in Hf by lia. destruct pat; [done|]. simplify_eq/=. lia.
Qed.

Lemma str_split_fuel_pieces fuel s pat :
  pat ≠ [] → (length s ≤ fuel)%nat → Forall (λ p, find_subslice p pat = None) (str_split_fuel fuel s pat).
Proof.
  intros Hp. revert s. induction fuel as [|fuel IH]; intros s Hf; cbn [str_split_fuel].
  - destruct s; simpl in Hf; [|lia]. destruct pat; [done|]. by repeat constructor.
  - destruct (find_subslice s pat) as [i|] eqn:Hs; [|by repeat constructor].
    constructor; [by apply find_subslice_take|]. apply IH.
    pose proof (find_subslice_bound _ _ _ Hs). rewrite length_drop. destruct pat; simpl in *; [done|lia].
Qed.

Lemma str_split_fuel_Forall (P : Z → Prop) fuel s pat :
  Forall P s → Forall (Forall P) (str_split_fuel fuel s pat).
Proof.
  revert s. induction fuel as [|fuel IH]; intros s Hs; cbn [str_split_fuel]; [by repeat constructor|].
  destruct (find_subslice s pat); [|by repeat constructor].
  constructor; [by apply Forall_take|]. by apply IH, Forall_drop.
Qed.

Lemma intercalate_encode sep parts :
  intercalate (encode_str sep) (encode_str <$> parts) = encode_str (intercalate sep parts).
Proof.
  induction parts as [|part [|part' parts] IH]; [done|done|].
  rewrite fmap_cons, !intercalate_cons by done. by rewrite IH, !encode_str_app.
Qed.

Lemma intercalate_nil parts : intercalate [] parts = concat parts.
Proof.
  induction parts as [|part [|part' parts] IH]; [done|simpl; by rewrite app_nil_r|].
  rewrite intercalate_cons by done. by rewrite IH.
Qed.

Lemma byte_slice_alloc bytes count flags : byte_slice (alloc_text_with_header bytes count flags) = bytes.
Proof.
  unfold alloc_text_with_header. case_bool_decide; [by subst|]. unfold byte_slice. simpl.
  destruct (Z.of_nat (length bytes) <=? 0) eqn:E; unbool; [by destruct bytes|].
  by rewrite Nat2Z.id, firstn_all.
Qed.

Lemma text_array_wf parts :
  Forall (Forall scalar) parts →
  Forall wf (text_array graphemes parts) ∧ chars <$> text_array graphemes parts = parts ∧
  byte_slice <$> text_array graphemes parts = encode_str <$> parts.
Proof.
  unfold text_array. induction 1 as [|part parts Hp _ (IHw&IHc&IHb)]; [done|].
  destruct (alloc_encoded part Hp) as [Hw Hc].
  destruct (alloc_text_wf (encode_str part)) as [_ Hb]; [by apply encode_str_bytes|].
  rewrite !fmap_cons. cbn [compose]. split_and!; [by constructor|by f_equal|by f_equal].
Qed.

Lemma join_counts_Ok parts sep sep_count acc :
  Forall wf parts → wf sep → ∃ acc', join_counts graphemes parts sep sep_count acc = Ok acc'.
Proof.
  intros Hp Hs. revert acc. induction Hp as [|part parts Hw _ IH]; intros acc; simpl; [by eexists|].
  rewrite !wf_text_str by done. cbn [mbind result_bind]. case_bool_decide; [by eexists|]. apply IH.
Qed.

Lemma join_content parts sep :
  Forall wf parts → wf sep →
  ∃ r, __text_join graphemes parts sep = Ok r ∧ byte_slice r = intercalate (byte_slice sep) (byte_slice <$> parts).
Proof.
  intros Hp Hs. unfold __text_join. case_bool_decide; [subst; by eexists|].
  destruct (join_sums _ _ _ _ _) as [[count ascii] no_bidi].
  destruct (join_counts_Ok parts sep (text_header_of (data sep)).1 None Hp Hs) as [acc Hacc].
  destruct ascii; simpl; [|unfold join_count_with_seams; rewrite Hacc; cbn [mbind result_bind]];
    eexists; (split; [done|apply byte_slice_alloc]).
Qed.

Lemma split_pieces t sep :
  wf t → wf sep →
  __text_split graphemes t sep =
    Ok (text_array graphemes (if bool_decide (chars sep = []) then graphemes (chars t) else str_split (chars t) (chars sep))).
Proof.
  intros Hw Hs. unfold __text_split, __text_graphemes. rewrite !wf_text_str by done. cbn [mbind result_bind].
  by case_bool_decide.
Qed.


End texts.

(** ** Replacing *)

(** [r] is [s] with its first [n] occurrences, left to right, replaced. *)
Inductive Replaced (from to : list Z) : nat → list Z → list Z → Prop :=
| Replaced_none s : Replaced from to 0 s s
| Replaced_next n s i r :
    find_subslice s from = Some i → Replaced from to n (drop (i + length from) s) r →
    Replaced from to (S n) s (take i s ++ to ++ r).

Lemma intercalate_one sep part : intercalate sep [part] = part.
Proof. done. Qed.

Lemma replacen_fuel from to n fuel s :
  (S n ≤ length (str_split_fuel fuel s from))%nat →
  Replaced from to n s
    (intercalate to (take n (str_split_fuel fuel s from)
      ++ match drop n (str_split_fuel fuel s from) with [] => [] | rest => [intercalate from rest] end)).
Proof.
  revert n s. induction fuel as [|fuel IH]; intros n s Hn.
  - simpl in *. assert (n = 0%nat) as -> by lia. simpl. constructor.
  - pose proof (intercalate_split_fuel (S fuel) s from) as Hs. cbn [str_split_fuel] in *.
    destruct (find_subslice s from) as [i|] eqn:Hf.
    + destruct n as [|n]; [cbn [take drop app]; rewrite intercalate_one, Hs; constructor|].
      simpl in Hn. specialize (IH n (drop (i + length from) s) ltac:(lia)).
      cbn [take drop app]. rewrite intercalate_cons; [by constructor|].
      destruct (drop n _) eqn:Hd; [|by intros [_ ?]%app_nil].
      apply (f_equal length) in Hd. rewrite length_drop in Hd. simpl in Hd. lia.
    + simpl in Hn. assert (n = 0%nat) as -> by lia. simpl. constructor.
Qed.

(** [replacen] replaces the first [n] of the occurrences. *)
Lemma replacen_replaced s from to n : (n ≤ str_matches s from)%nat → Replaced from to n s (str_replacen s from to n).
Proof.
  intros Hn. apply replacen_fuel. unfold str_matches, str_split in *.
  pose proof (str_split_fuel_not_nil (length s) s from).
  destruct (str_split_fuel (length s) s from); [done|]. simpl in *. lia.
Qed.

(** The tests of the sources, and the three failures. *)
Example replace_one : replace_text (bs "a-a-a") (bs "a") (bs "xx") (f64_of_Z 1) = Ok (bs "xx-a-a").
Proof. vm_compute. reflexivity. Qed.
Example replace_fraction : replace_text (bs "a-a-a") (bs "a") (bs "xx") (f64_ratio 29 10) = Ok (bs "xx-xx-a").
Proof. vm_compute. reflexivity. Qed.
Example replace_nothing : replace_text (bs "abc") (bs "") (bs "x") (f64_of_Z 1)
  = Err (506, bs "replace: `from` must not be empty").
Proof. vm_compute. reflexivity. Qed.
Example replace_negative : replace_text (bs "abc") (bs "b") (bs "x") (f64_of_Z (-3))
  = Err (510, bs "replace: count must be positive, got -3").
Proof. vm_compute. reflexivity. Qed.
Example replace_too_many : replace_text (bs "a-a-a") (bs "a") (bs "b") (f64_of_Z 5)
  = Err (510, bs "replace: count 5 exceeds 3 occurrences").
Proof. vm_compute. reflexivity. Qed.

(** ** Seams the window does not settle, and texts that are not UTF-8 *)

Definition text_of (s : list Z) : QnSlice := alloc_text sample (encode_str s).

(** Three regional indicators right of a fourth pair up anew: the count of the
    concatenation says 3, the text has 2 clusters. *)
Example flags_miscounted :
  __text_length <$> __text_concat sample (text_of [0x1F1E6]) (text_of [0x1F1E7; 0x1F1E8; 0x1F1E9]) = Ok 3
  ∧ length (sample [0x1F1E6; 0x1F1E7; 0x1F1E8; 0x1F1E9]) = 2%nat.
Proof. vm_compute. auto. Qed.

(** A joiner at the seam: an emoji, then a joiner and an emoji, are one cluster. *)
Example joiner_miscounted :
  __text_length <$> __text_concat sample (text_of [0x1F468]) (text_of [0x200D; 0x1F469]) = Ok 2
  ∧ length (sample [0x1F468; 0x200D; 0x1F469]) = 1%nat.
Proof. vm_compute. auto. Qed.

(** [join] keeps the window as the trailing cluster though the piece goes on
    behind it, so it counts what a chain of [+] does not. *)
Example join_is_not_plus :
  let parts := [text_of [101]; text_of [0x301; 0x1F1E6]; text_of [0x1F1E7]] in
  __text_length <$> __text_join sample parts empty_slice = Ok 3
  ∧ __text_length <$> (ab ← __text_concat sample (text_of [101]) (text_of [0x301; 0x1F1E6]);
                      __text_concat sample ab (text_of [0x1F1E7])) = Ok 2.
Proof. vm_compute. auto. Qed.

(** A byte that is not UTF-8, as standard input may hold: the text reads lossily,
    but what it is added to claims to be valid, and reading that is undefined. *)
Example invalid_claims_valid :
  text_str (alloc_text sample [255]) = Ok [replacement_char]
  ∧ (__text_concat sample (alloc_text sample [255]) (text_of (bs "x")) ≫= text_str) = Err Undefined.
Proof. vm_compute. auto. Qed.

(** A separator inside a cluster cuts it. *)
Example split_cuts_cluster :
  sample [101; 0x301; 120] = [[101; 0x301]; [120]]
  ∧ match __text_split sample (text_of [101; 0x301; 120]) (text_of [101]) with
    | Ok parts => map chars parts
    | Err _ => []
    end = [[]; [0x301; 120]].
Proof. vm_compute. auto. Qed.

(** ** Witnesses *)

Lemma text_of_wf s : Forall scalar s → wf sample (text_of s) ∧ valid (text_of s) ∧ chars (text_of s) = s.
Proof.
  intros Hs. destruct (alloc_encoded (graphemes := sample) s Hs) as [Hw Hc]. split_and!; [done| |done].
  unfold valid, text_of. rewrite (proj2 (alloc_text_wf (graphemes := sample) _ (encode_str_bytes _ Hs))).
  rewrite from_utf8_encode by done. by eexists.
Qed.

Ltac scalars := repeat constructor; unfold scalar; lia.

Definition accented : list Z := [101; 0x301; 98; 98; 0x1F1E6; 0x1F1E7].

Lemma accented_wf : wf sample (text_of accented) ∧ valid (text_of accented) ∧ chars (text_of accented) = accented.
Proof. apply text_of_wf. scalars. Qed.

Lemma letter_wf : wf sample (text_of [98]) ∧ valid (text_of [98]) ∧ chars (text_of [98]) = [98].
Proof. apply text_of_wf. scalars. Qed.

Lemma header_exact_witness :
  let '(count, flags) := text_header sample (encode_str accented) in
  count = 4 ∧ text_is_ascii flags = false ∧ text_is_valid_utf8 flags = true ∧ text_no_bidi_controls flags = true.
Proof. apply (header_exact (graphemes := sample) (encode_str accented)). apply encode_str_bytes. scalars. Defined.

Lemma slice_clusters_witness :
  ∃ r, __text_slice sample (text_of accented) (-1) 2 = Ok r ∧ wf sample r ∧
       sample (chars r) = [[101; 0x301]; [98]] ∧ __text_length r = 2.
Proof.
  pose proof (slice_clusters (graphemes := sample) (text_of accented) (-1) 2 (proj1 accented_wf)) as H.
  by rewrite (proj2 (proj2 accented_wf)) in H.
Defined.

Lemma find_clusters_witness : text_find_from sample (text_of accented) (text_of [98]) 2 = Ok 2.
Proof.
  rewrite (find_clusters (graphemes := sample)); [|apply accented_wf|apply letter_wf].
  by rewrite (proj2 (proj2 accented_wf)), (proj2 (proj2 letter_wf)).
Defined.


