(* ===== verification/Placement.v ===== *)
(** * Placement of fibers on workers: [quilon-rt/src/placement.rs]

    The registry the workers of a run share and the loops of the leader and the
    helpers over it ([run_leader], [run_helper], [drain_inbox], [spawn_placed] and
    [run] of [scheduler.rs]) as one machine: an event is one atomic operation of a
    placing thread or one turn of a worker.  A job installs a fiber; what a resumed
    fiber does - return, park, spawn others - and when a parked one becomes ready are
    choices of the environment.  Every helper has started: starting them is done
    before the first placement reads the registry, behind a barrier.  The counters
    are atomic [usize]s and wrap; a waker is the flag its reactor's next wait sees. *)

From S2P Require Import Prelude Machine.
Open Scope Z_scope.

Section placement.
Context {Job : Type}.

(** A fetch-and-add wraps at the width of the counter. *)
Definition wrap (n : Z) : Z := n mod 2 ^ 64.

Record WorkerHandle : Type := mkHandle {
  ready_len : Z;
  inbox_len : Z;
  inbox : list Job;
  woken : bool
}.

Definition new_handle : WorkerHandle := mkHandle 0 0 [] false.

Definition wake (h : WorkerHandle) : WorkerHandle := mkHandle (ready_len h) (inbox_len h) (inbox h) true.
Definition set_ready_len (len : nat) (h : WorkerHandle) : WorkerHandle :=
  mkHandle (Z.of_nat len) (inbox_len h) (inbox h) (woken h).

(** ** The operations, a step at a time *)

(** [place]: count the job, queue it, wake the worker. *)
Definition place_count (h : WorkerHandle) : WorkerHandle :=
  mkHandle (ready_len h) (wrap (inbox_len h + 1)) (inbox h) (woken h).
Definition place_push (job : Job) (h : WorkerHandle) : WorkerHandle :=
  mkHandle (ready_len h) (inbox_len h) (inbox h ++ [job]) (woken h).

(** [drain]: take what is queued, then count it off. *)
Definition drain_take (h : WorkerHandle) : list Job * WorkerHandle :=
  (inbox h, mkHandle (ready_len h) (inbox_len h) [] (woken h)).
Definition drain_count (jobs : list Job) (h : WorkerHandle) : WorkerHandle :=
  mkHandle (ready_len h) (wrap (inbox_len h - Z.of_nat (length jobs))) (inbox h) (woken h).

(** [Iterator::min] of the pairs of a length and an index. *)
Definition shorter (a b : Z * nat) : bool := (a.1 <? b.1) || ((a.1 =? b.1) && (a.2 <? b.2)%nat).
Definition least (pairs : list (Z * nat)) : option (Z * nat) :=
  foldr (λ p best, Some match best with Some q => if shorter q p then q else p | None => p end) None pairs.

Definition queue_lengths (handles : list WorkerHandle) : list (Z * nat) :=
  imap (λ index h, (ready_len h + inbox_len h, index)) handles.

(** The worker with the shortest queue, the lowest of them on a tie; [None] is the
    [expect] on an empty registry. *)
Definition shortest_queue (handles : list WorkerHandle) : option nat := snd <$> least (queue_lengths handles).

(** ** The workers of a run *)

(** Where a worker's loop is: before [drain]; the jobs it took, not counted off yet;
    the jobs it still has to run; resuming ready fibers; in its reactor's wait; past
    its loop. *)
Inductive Phase : Type :=
| Draining
| Took (jobs : list Job)
| Installing (jobs : list Job)
| Resuming
| Waiting
| Stopped.

(** A worker: its handle, and what its own thread knows - its ready and parked fibers. *)
Record Worker : Type := mkWorker {
  handle : WorkerHandle;
  phase : Phase;
  ready : nat;
  parked : nat
}.

Definition new_worker : Worker := mkWorker new_handle Draining 0 0.

(** Where a placement is: its target chosen, counted, queued, its worker woken. *)
Inductive Stage : Type :=
| Chosen
| Counted
| Queued
| Placed.
#[export] Instance Stage_eq_dec : EqDecision Stage.
Proof. solve_decision. Defined.

Record Placement : Type := mkPlacement { target : nat; job : Job; stage : Stage }.

(** [pushed] and [installed] record the order in which jobs entered inboxes and were
    run; [to_wake] the workers [request_shutdown] has still to wake. *)
Record Registry : Type := mkRegistry {
  workers : list Worker;
  placements : list Placement;
  shutdown : bool;
  to_wake : list nat;
  pushed : list (nat * Job);
  installed : list (nat * Job)
}.

(** The leader begins with the program's own fiber. *)
Definition start (helpers : nat) : Registry :=
  mkRegistry (mkWorker (set_ready_len 1 new_handle) Draining 1 0 :: replicate helpers new_worker) [] false [] [] [].

(** What a resumed fiber did: spawned others, and returned or parked. *)
Record Fate : Type := mkFate { spawned : nat; parks : bool }.

Inductive event : Type :=
| Choose (job : Job)
| Advance (placement : nat)
| Turn (worker : nat) (fate : Fate) (fired : nat)
| Fire (worker : nat) (fired : nat)
| Spurious (worker : nat)
| RequestShutdown
| WakeNext.

Definition with_worker (w : nat) (x : Worker) (s : Registry) : Registry :=
  mkRegistry (<[w := x]> (workers s)) (placements s) (shutdown s) (to_wake s) (pushed s) (installed s).
Definition with_placements (ps : list Placement) (s : Registry) : Registry :=
  mkRegistry (workers s) ps (shutdown s) (to_wake s) (pushed s) (installed s).

Definition on_handle (f : WorkerHandle → WorkerHandle) (x : Worker) : Worker :=
  mkWorker (f (handle x)) (phase x) (ready x) (parked x).

(** One operation of a placement. *)
Definition advance (k : nat) (s : Registry) : option Registry :=
  p ← placements s !! k;
  x ← workers s !! target p;
  match stage p with
  | Chosen =>
      Some (with_placements (<[k := mkPlacement (target p) (job p) Counted]> (placements s))
              (with_worker (target p) (on_handle place_count x) s))
  | Counted =>
      let s := with_placements (<[k := mkPlacement (target p) (job p) Queued]> (placements s))
                 (with_worker (target p) (on_handle (place_push (job p)) x) s) in
      Some (mkRegistry (workers s) (placements s) (shutdown s) (to_wake s)
              (pushed s ++ [(target p, job p)]) (installed s))
  | Queued =>
      Some (with_placements (<[k := mkPlacement (target p) (job p) Placed]> (placements s))
              (with_worker (target p) (on_handle wake x) s))
  | Placed => None
  end.

(** After its run queue is empty: a worker with nothing parked is done if it is the
    leader, or a helper asked to stop; any other waits. *)
Definition idle_phase (w : nat) (x : Worker) (s : Registry) : Phase :=
  if bool_decide (parked x = 0%nat) && (bool_decide (w = 0%nat) || shutdown s) then Stopped else Waiting.

(** The return of a wait: the fibers whose readiness fired are ready. *)
Definition fire (fired : nat) (x : Worker) : option Worker :=
  if (fired <=? parked x)%nat
  then Some (mkWorker (set_ready_len (ready x + fired) (mkHandle (ready_len (handle x)) (inbox_len (handle x))
                                                          (inbox (handle x)) false))
               Draining (ready x + fired) (parked x - fired))
  else None.

(** One turn of worker [w]'s loop. *)
Definition turn (w : nat) (fate : Fate) (fired : nat) (s : Registry) : option Registry :=
  x ← workers s !! w;
  let h := handle x in
  match phase x with
  | Draining =>
      let '(jobs, h) := drain_take h in Some (with_worker w (mkWorker h (Took jobs) (ready x) (parked x)) s)
  | Took jobs => Some (with_worker w (mkWorker (drain_count jobs h) (Installing jobs) (ready x) (parked x)) s)
  | Installing (job :: jobs) =>
      let s := with_worker w (mkWorker (set_ready_len (S (ready x)) h) (Installing jobs) (S (ready x)) (parked x)) s in
      Some (mkRegistry (workers s) (placements s) (shutdown s) (to_wake s) (pushed s) (installed s ++ [(w, job)]))
  | Installing [] => Some (with_worker w (mkWorker h Resuming (ready x) (parked x)) s)
  | Resuming =>
      match ready x with
      | S n =>
          let n := (n + spawned fate)%nat in
          Some (with_worker w (mkWorker (set_ready_len n h) Resuming n (parked x + if parks fate then 1 else 0)) s)
      | O => Some (with_worker w (mkWorker h (idle_phase w x s) 0 (parked x)) s)
      end
  | Waiting => if woken h then x ← fire fired x; Some (with_worker w x s) else None
  | Stopped => None
  end.

Definition step (e : event) (s : Registry) : option Registry :=
  match e with
  | Choose job =>
      target ← shortest_queue (handle <$> workers s);
      Some (with_placements (placements s ++ [mkPlacement target job Chosen]) s)
  | Advance k => advance k s
  | Turn w fate fired => turn w fate fired s
  | Fire w fired =>
      x ← workers s !! w;
      match phase x with
      | Waiting => if (0 <? fired)%nat then x ← fire fired x; Some (with_worker w x s) else None
      | _ => None
      end
  | Spurious w =>
      x ← workers s !! w;
      match phase x with
      | Waiting => Some (with_worker w (mkWorker (handle x) Draining (ready x) (parked x)) s)
      | _ => None
      end
  | RequestShutdown =>
      leader ← workers s !! 0%nat;
      match phase leader with
      | Stopped =>
          if shutdown s then None
          else Some (mkRegistry (workers s) (placements s) true (seq 0 (length (workers s))) (pushed s) (installed s))
      | _ => None
      end
  | WakeNext =>
      match to_wake s with
      | w :: rest =>
          x ← workers s !! w;
          let s := with_worker w (on_handle wake x) s in
          Some (mkRegistry (workers s) (placements s) (shutdown s) rest (pushed s) (installed s))
      | [] => None
      end
  end.

#[export] Instance placement_machine : Machine event Registry := step.

(** Nothing is left to do but what the environment decides: to place another job, to
    make a parked fiber ready, to return from a wait for no reason. *)
Definition quiescent (s : Registry) : Prop :=
  (∀ k, exec (Advance k) s = None) ∧ (∀ w fate, exec (Turn w fate 0) s = None) ∧
  exec RequestShutdown s = None ∧ exec WakeNext s = None.

(** ** What a worker is owed *)

Definition jobs_of (w : nat) (log : list (nat * Job)) : list Job := (filter (λ p, p.1 = w) log).*2.

(** How many placements on a worker are at a stage. *)
Definition is_staged (st : Stage) (w : nat) (p : Placement) : Z :=
  if decide (stage p = st ∧ target p = w) then 1 else 0.
Definition staged (st : Stage) (w : nat) (ps : list Placement) : Z := sum_over (is_staged st w) ps.

Definition taken (x : Worker) : list Job := match phase x with Took jobs => jobs | _ => [] end.
Definition in_hand (x : Worker) : list Job := match phase x with Took jobs | Installing jobs => jobs | _ => [] end.

End placement.

Arguments WorkerHandle : clear implicits.
Arguments Worker : clear implicits.
Arguments Phase : clear implicits.
Arguments Placement : clear implicits.
Arguments Registry : clear implicits.
Arguments event : clear implicits.
