(* ===== verification/PlacementProps.v ===== *)
(** * Placement: nothing is lost, counted twice or left asleep

    The invariant of the machine of [Placement]: what a worker's counter and inbox
    hold is what was placed on it and not run, and a worker waits only while nobody
    owes it a wake-up. *)

From S2P Require Import Prelude Machine Placement.
Open Scope Z_scope.

(** ** The shortest queue *)

Section shortest.
Context {Job : Type}.

Lemma shorter_spec a b : shorter a b = true ↔ a.1 < b.1 ∨ (a.1 = b.1 ∧ (a.2 < b.2)%nat).
Proof. unfold shorter. rewrite orb_true_iff, andb_true_iff, Z.ltb_lt, Z.eqb_eq, Nat.ltb_lt. done. Qed.

Lemma least_spec pairs p :
  least pairs = Some p → p ∈ pairs ∧ ∀ q, q ∈ pairs → shorter q p = false.
Proof.
  revert p. induction pairs as [|a pairs IH]; intros p; simpl; [done|].
  destruct (least pairs) as [b|] eqn:E.
  - destruct (IH b eq_refl) as [Hb Hmin]. destruct (shorter b a) eqn:Hba; intros [= <-].
    + split; [apply elem_of_cons; by right|]. intros q [->|Hq]%elem_of_cons; [|by apply Hmin].
      apply not_true_is_false. rewrite shorter_spec in *. lia.
    + split; [apply elem_of_cons; by left|]. intros q [->|Hq]%elem_of_cons.
      * apply not_true_is_false. rewrite shorter_spec. lia.
      * specialize (Hmin q Hq). apply not_true_is_false. intros Hqa. apply not_true_iff_false in Hmin, Hba.
        rewrite shorter_spec in *. lia.
  - intros [= <-]. destruct pairs as [|c pairs]; [|done].
    split; [apply elem_of_cons; by left|]. intros q ->%list_elem_of_singleton.
    apply not_true_is_false. rewrite shorter_spec. lia.
Qed.

(** The worker chosen has the least load, and those before it more. *)
Lemma shortest_queue_least (handles : list (WorkerHandle Job)) w :
  shortest_queue handles = Some w →
  ∃ h, handles !! w = Some h ∧ ∀ i h', handles !! i = Some h' →
    ready_len h + inbox_len h <= ready_len h' + inbox_len h' ∧
    ((i < w)%nat → ready_len h + inbox_len h < ready_len h' + inbox_len h').
Proof.
  unfold shortest_queue. intros (p&Hp&->)%fmap_Some. apply least_spec in Hp as [Hp Hmin].
  apply list_elem_of_lookup in Hp as [i Hi]. unfold queue_lengths in *. rewrite list_lookup_imap in Hi.
  apply fmap_Some in Hi as (h&Hh&->). simpl. exists h. split; [done|]. intros j h' Hj.
  assert (Hq : (ready_len h' + inbox_len h', j) ∈ imap (λ index h, (ready_len h + inbox_len h, index)) handles).
  { apply list_elem_of_lookup. exists j. by rewrite list_lookup_imap, Hj. }
  apply Hmin, not_true_iff_false in Hq. rewrite shorter_spec in Hq. simpl in Hq. lia.
Qed.

Lemma shortest_queue_Some (handles : list (WorkerHandle Job)) :
  handles ≠ [] → is_Some (shortest_queue handles).
Proof. destruct handles as [|h handles]; [done|]. intros _. unfold shortest_queue. simpl. by eexists. Qed.

End shortest.

(** ** The invariant *)

Section invariant.
Context {Job : Type}.
Implicit Types (s : Registry Job) (x : Worker Job) (w : nat).

(** A worker [x] at index [w]: [counted] and [queued] placements on it are between
    two of their steps, [p] and [i] are the jobs pushed to it and installed by it. *)
Record owed (counted queued : Z) (p i : list Job) (shut waking : Prop) w x : Prop := {
  owed_count : inbox_len (handle x)
    = wrap (Z.of_nat (length (inbox (handle x))) + counted + Z.of_nat (length (taken x)));
  owed_ready : ready_len (handle x) = Z.of_nat (ready x);
  owed_jobs : p = i ++ in_hand x ++ inbox (handle x);
  owed_wake : phase x ≠ Draining → woken (handle x) = true ∨ inbox (handle x) = [] ∨ 0 < queued;
  owed_idle : phase x = Waiting → parked x = 0%nat → w ≠ 0%nat ∧ (shut → woken (handle x) = true ∨ waking);
  owed_stop : phase x = Stopped → w = 0%nat ∨ shut;
  owed_quiet : phase x = Waiting ∨ phase x = Stopped → ready x = 0%nat
}.

Definition owed_in s w x : Prop :=
  owed (staged Counted w (placements s)) (staged Queued w (placements s)) (jobs_of w (pushed s))
    (jobs_of w (installed s)) (shutdown s = true) (w ∈ to_wake s) w x.

Record Inv s : Prop := {
  inv_owed : ∀ w x, workers s !! w = Some x → owed_in s w x;
  inv_targets : Forall (λ p, (target p < length (workers s))%nat) (placements s);
  inv_waking : Forall (λ w, (w < length (workers s))%nat) (to_wake s);
  inv_leader : workers s ≠ []
}.

Lemma wrap_succ n m : n = wrap m → wrap (n + 1) = wrap (m + 1).
Proof. intros ->. unfold wrap. by rewrite Zplus_mod_idemp_l. Qed.

Lemma wrap_sub n m k : n = wrap m → wrap (n - k) = wrap (m - k).
Proof. intros ->. unfold wrap. by rewrite Zminus_mod_idemp_l. Qed.

Lemma is_staged_other st w (p : Placement Job) : target p ≠ w → is_staged st w p = 0.
Proof. intros. unfold is_staged. by rewrite decide_False by tauto. Qed.

Lemma is_staged_here st w (p : Placement Job) :
  target p = w → is_staged st w p = if decide (stage p = st) then 1 else 0.
Proof. intros. unfold is_staged. apply decide_ext. tauto. Qed.

Lemma staged_insert st w (ps : list (Placement Job)) k p q :
  ps !! k = Some p → staged st w (<[k:=q]> ps) = staged st w ps - is_staged st w p + is_staged st w q.
Proof. apply sum_over_insert. Qed.

Lemma staged_chosen st w (ps : list (Placement Job)) t j :
  st ≠ Chosen → staged st w (ps ++ [mkPlacement t j Chosen]) = staged st w ps.
Proof.
  intros Hst. unfold staged. rewrite sum_over_app. simpl. unfold is_staged at 2.
  rewrite decide_False by (simpl; by intros [? _]). lia.
Qed.

Lemma staged_nonneg st w (ps : list (Placement Job)) : 0 <= staged st w ps.
Proof. apply sum_over_nonneg. intros p _. unfold is_staged. case_decide; lia. Qed.

Lemma jobs_of_snoc w log v (j : Job) :
  jobs_of w (log ++ [(v, j)]) = jobs_of w log ++ (if decide (v = w) then [j] else []).
Proof. unfold jobs_of. rewrite filter_app, fmap_app. f_equal. unfold filter. simpl. by case_decide. Qed.

(** An event on one worker: it stays owed what it is owed, and so do the others. *)
Lemma Inv_worker s s' w x x' :
  Inv s → workers s !! w = Some x → workers s' = <[w := x']> (workers s) →
  (owed_in s w x → owed_in s' w x') →
  (∀ v y, v ≠ w → owed_in s v y → owed_in s' v y) →
  Forall (λ p, (target p < length (workers s'))%nat) (placements s') →
  Forall (λ w, (w < length (workers s'))%nat) (to_wake s') → Inv s'.
Proof.
  intros HI Hx Hw Hhere Hthere ??. split; [|done|done|].
  - intros v y. rewrite Hw. intros [(->&<-&_)|[? Hv]]%list_lookup_insert_Some.
    + by apply Hhere, (inv_owed s HI).
    + by apply Hthere, (inv_owed s HI).
  - rewrite Hw. intros E. apply (f_equal length) in E. rewrite length_insert in E.
    apply length_zero_iff_nil in E. by apply (inv_leader s HI).
Qed.

(** [with_worker] alone changes nothing for the others. *)
Lemma Inv_with_worker s w x x' :
  Inv s → workers s !! w = Some x → (owed_in s w x → owed_in s w x') → Inv (with_worker w x' s).
Proof.
  intros HI Hx Ho. apply (Inv_worker s _ w x x'); try done; simpl; rewrite length_insert; apply HI.
Qed.

Lemma start_Inv helpers : Inv (start helpers).
Proof.
  split; simpl; [|constructor..|done].
  intros w x. destruct w as [|w]; simpl.
  - intros [= <-]. split; simpl; try done; by intros [?|?].
  - intros [-> _]%lookup_replicate. split; done.
Qed.

Lemma advance_Inv s s' k : Inv s → advance k s = Some s' → Inv s'.
Proof.
  intros HI. unfold advance. destruct (placements s !! k) as [p|] eqn:Hp; [|done]. simpl.
  destruct (workers s !! target p) as [x|] eqn:Hx; [|done]. simpl.
  assert (Ht : ∀ st, Forall (λ q : Placement Job, (target q < length (workers s))%nat)
                       (<[k := mkPlacement (target p) (job p) st]> (placements s))).
  { intros st. apply Forall_insert; [apply HI|]. by eapply lookup_lt_Some. }
  assert (Hother : ∀ st st' v, v ≠ target p →
            staged st v (<[k := mkPlacement (target p) (job p) st']> (placements s)) = staged st v (placements s)).
  { intros st st' v Hv. rewrite (staged_insert _ _ _ _ _ _ Hp), !is_staged_other by done. lia. }
  assert (Hhere : ∀ st st', staged st (target p) (<[k := mkPlacement (target p) (job p) st']> (placements s))
            = staged st (target p) (placements s) - (if decide (stage p = st) then 1 else 0) + (if decide (st' = st) then 1 else 0)).
  { intros st st'. rewrite (staged_insert _ _ _ _ _ _ Hp), !is_staged_here by done. done. }
  pose proof (staged_nonneg Queued (target p) (placements s)) as Hq.
  destruct (stage p) eqn:Hst; intros [= <-];
    (eapply (Inv_worker s _ (target p) x); [done|done|done| | |..]; simpl; rewrite ?length_insert; [| |apply Ht|apply HI]).
  - intros [C R J W I S Q]. split; simpl; rewrite ?Hhere; simpl; try done.
    + rewrite (wrap_succ _ _ C). f_equal. change (taken (on_handle place_count x)) with (taken x). lia.
    + intros H. destruct (W H) as [?|[?|?]]; auto with lia.
  - intros v y Hv [C R J W I S Q]. split; simpl; rewrite ?Hother by done; done.
  - intros [C R J W I S Q]. split; simpl; rewrite ?Hhere; simpl; try done.
    + rewrite C, length_app. f_equal. simpl. change (taken (on_handle (place_push (job p)) x)) with (taken x). lia.
    + rewrite jobs_of_snoc, decide_True, J by done. by rewrite !app_assoc.
    + intros _. right. right. lia.
  - intros v y Hv [C R J W I S Q]. split; simpl; rewrite ?Hother by done; try done.
    by rewrite jobs_of_snoc, decide_False, app_nil_r by done.
  - intros [C R J W I S Q]. split; simpl; rewrite ?Hhere; simpl; try done; auto.
    + rewrite C. f_equal. change (taken (on_handle wake x)) with (taken x). lia.
    + intros H Hpk. destruct (I H Hpk). auto.
  - intros v y Hv [C R J W I S Q]. split; simpl; rewrite ?Hother by done; done.
Qed.

Lemma idle_phase_cases w x s :
  (idle_phase w x s = Stopped ∧ (w = 0%nat ∨ shutdown s = true)) ∨
  (idle_phase w x s = Waiting ∧ (parked x = 0%nat → w ≠ 0%nat ∧ shutdown s = false)).
Proof.
  unfold idle_phase. destruct (bool_decide (parked x = 0%nat) && _) eqn:E.
  - left. split; [done|]. apply andb_true_iff in E as [_ E]. apply orb_true_iff in E as [E|E]; [left|by right].
    by apply bool_decide_eq_true in E.
  - right. split; [done|]. intros Hp. rewrite bool_decide_eq_true_2 in E by done. simpl in E.
    apply orb_false_iff in E as [E ?]. by apply bool_decide_eq_false in E.
Qed.

Lemma fire_owed c q p i shut waking w x fired x' :
  owed c q p i shut waking w x → phase x = Waiting → fire fired x = Some x' → owed c q p i shut waking w x'.
Proof.
  unfold fire. intros [C R J W I S Q] Hp. case_match; [|done]. intros [= <-].
  unfold taken, in_hand in *. rewrite Hp in *. split; unfold taken, in_hand; simpl; try done; try (by intros [?|?]); intros _; by apply W.
Qed.

Lemma turn_Inv s s' w fate fired : Inv s → turn w fate fired s = Some s' → Inv s'.
Proof.
  intros HI. unfold turn. destruct (workers s !! w) as [x|] eqn:Hx; [|done]. simpl.
  destruct (phase x) as [|jobs|[|j jobs]| | |] eqn:Hp.
  - intros [= <-]. apply (Inv_with_worker s w x _ HI Hx). intros [C R J W I S Q].
    unfold taken, in_hand in *. rewrite Hp in *. split; unfold taken, in_hand; simpl; try done; try (by intros [?|?]).
    + rewrite C. f_equal. simpl. lia.
    + by rewrite app_nil_r.
    + auto.
  - intros [= <-]. apply (Inv_with_worker s w x _ HI Hx). intros [C R J W I S Q].
    unfold taken, in_hand in *. rewrite Hp in *. split; unfold taken, in_hand; simpl; try done; try (by intros [?|?]); try (intros _; by apply W).
    rewrite (wrap_sub _ _ _ C). f_equal. simpl. lia.
  - intros [= <-]. apply (Inv_with_worker s w x _ HI Hx). intros [C R J W I S Q].
    unfold taken, in_hand in *. rewrite Hp in *. split; unfold taken, in_hand; simpl; try done; try (by intros [?|?]); intros _; by apply W.
  - intros [= <-]. eapply (Inv_worker s _ w x); [done|done|done| | |..]; simpl; rewrite ?length_insert; [| |apply HI|apply HI].
    + intros [C R J W I S Q]. unfold taken, in_hand in *. rewrite Hp in *. split; unfold taken, in_hand; simpl; try done; try (by intros [?|?]); try (intros _; by apply W).
      by rewrite jobs_of_snoc, decide_True, J, <-app_assoc by done.
    + intros v y Hv [C R J W I S Q]. split; unfold taken, in_hand; simpl; try done; try (by intros [?|?]); try (intros _; by apply W).
      by rewrite jobs_of_snoc, decide_False, app_nil_r by done.
  - destruct (ready x) as [|n] eqn:Hr; intros [= <-]; apply (Inv_with_worker s w x _ HI Hx);
      intros [C R J W I S Q]; unfold taken, in_hand in *; rewrite Hp, ?Hr in *.
    + destruct (idle_phase_cases w x s) as [[-> Hs]|[-> Hw]]; split; unfold taken, in_hand; simpl; try done; try (by intros [?|?]); try (intros _; by apply W).
      * intros _ Hz. destruct (Hw Hz) as [? ->]. done.
    + split; unfold taken, in_hand; simpl; try done; try (by intros [?|?]); intros _; by apply W.
  - destruct (woken (handle x)); [|done]. destruct (fire fired x) as [x'|] eqn:Hf; [|done]. intros [= <-].
    apply (Inv_with_worker s w x _ HI Hx). intros Ho. by eapply fire_owed.
  - done.
Qed.

Lemma step_Inv : invariant (M := placement_machine) Inv.
Proof.
  intros e s s' HI. change (step e s = Some s' → Inv s').
  destruct e as [j|k|w fate fired|w fired|w| |]; simpl.
  - destruct (shortest_queue (handle <$> workers s)) as [t|] eqn:Ht; [|done]. intros [= <-].
    apply shortest_queue_least in Ht as (h&Hh&_). rewrite list_lookup_fmap in Hh.
    apply fmap_Some in Hh as (x&Hx&_). apply lookup_lt_Some in Hx. split; simpl; [|apply Forall_app; split; [apply HI|by repeat constructor]|apply HI..].
    intros w y Hy. unfold owed_in. simpl. rewrite !staged_chosen by done. by apply (inv_owed s HI).
  - by apply advance_Inv.
  - by apply turn_Inv.
  - destruct (workers s !! w) as [x|] eqn:Hx; [|done]. simpl. destruct (phase x) eqn:Hp; try done.
    destruct (0 <? fired)%nat; [|done]. destruct (fire fired x) as [x'|] eqn:Hf; [|done]. intros [= <-].
    apply (Inv_with_worker s w x _ HI Hx). intros Ho. by eapply fire_owed.
  - destruct (workers s !! w) as [x|] eqn:Hx; [|done]. simpl. destruct (phase x) eqn:Hp; try done.
    intros [= <-]. apply (Inv_with_worker s w x _ HI Hx). intros [C R J W I S Q].
    unfold taken, in_hand in *. rewrite Hp in *. split; unfold taken, in_hand; simpl; try done; try (by intros [?|?]); intros _; by apply W.
  - destruct (workers s !! 0%nat) as [x|] eqn:Hx; [|done]. simpl. destruct (phase x) eqn:Hp; try done.
    destruct (shutdown s) eqn:Hs; [done|]. intros [= <-]. split; simpl; [|apply HI| |apply HI].
    + intros w y Hy. destruct (inv_owed s HI w y Hy) as [C R J W I S Q]. split; simpl; try done.
      * intros H Hz. destruct (I H Hz) as [? _]. split; [done|]. intros _. right.
        apply elem_of_seq. apply lookup_lt_Some in Hy. lia.
      * auto.
    + apply Forall_forall. intros w [_ ?]%elem_of_seq. lia.
  - destruct (to_wake s) as [|w rest] eqn:Hw; [done|]. destruct (workers s !! w) as [x|] eqn:Hx; [|done].
    simpl. intros [= <-]. pose proof (inv_waking s HI) as Hwk. rewrite Hw in Hwk. inversion_clear Hwk.
    eapply (Inv_worker s _ w x); [done|done|done| | |..]; simpl; rewrite ?length_insert; [| |apply HI|done].
    + intros [C R J W I S Q]. split; simpl; try done; [by left|]. intros H' Hz. destruct (I H' Hz). auto.
    + intros v y Hv [C R J W I S Q]. split; simpl; try done. intros H' Hz. destruct (I H' Hz) as [? HI']. split; [done|].
      intros Hsh. destruct (HI' Hsh) as [?|Hin]; [by left|]. rewrite Hw in Hin.
      apply elem_of_cons in Hin as [->|?]; [done|by right].
Qed.

Lemma reachable_Inv helpers es s : run (M := placement_machine) es (start helpers) = Some s → Inv s.
Proof. apply (run_invariant (M := placement_machine) Inv); [apply step_Inv|apply start_Inv]. Qed.

Lemma length_jobs_of w (log : list (nat * Job)) : (length (jobs_of w log) ≤ length log)%nat.
Proof. unfold jobs_of. rewrite length_fmap. apply length_filter. Qed.

Lemma staged_le st w (ps : list (Placement Job)) : staged st w ps <= Z.of_nat (length ps).
Proof.
  unfold staged. induction ps as [|p ps IH]; [done|]. cbn [sum_over foldr length].
  unfold sum_over in IH. unfold is_staged at 1. case_decide; lia.
Qed.

(** C16: However placements and workers interleave, a worker's inbox counter is what its
    inbox holds plus the placements that counted and have not queued yet plus the
    jobs it took and has not counted off: it never wraps below zero.  Its published
    run-queue length is the length of its run queue, and the jobs pushed to it are
    those it has installed, those in its hands and those in its inbox, in this
    order, each once. *)
Theorem placement_accounts helpers es s w x :
  run (M := placement_machine) es (start helpers) = Some s →
  Z.of_nat (length (pushed s)) + Z.of_nat (length (placements s)) < 2 ^ 64 →
  workers s !! w = Some x →
  inbox_len (handle x) = Z.of_nat (length (inbox (handle x))) + staged Counted w (placements s)
                         + Z.of_nat (length (taken x)) ∧
  ready_len (handle x) = Z.of_nat (ready x) ∧
  jobs_of w (pushed s) = jobs_of w (installed s) ++ in_hand x ++ inbox (handle x).
Proof.
  intros Hr Hb Hx. apply reachable_Inv in Hr as HI. destruct (inv_owed s HI w x Hx) as [C R J _ _ _ _].
  split_and!; [|done|done]. rewrite C. apply Z.mod_small.
  pose proof (staged_nonneg Counted w (placements s)). pose proof (staged_le Counted w (placements s)).
  pose proof (length_jobs_of w (pushed s)) as Hl. rewrite J, !length_app in Hl.
  assert (length (taken x) ≤ length (in_hand x))%nat by (unfold taken, in_hand; destruct (phase x); simpl; lia).
  lia.
Qed.

(** *** At rest *)

Lemma quiescent_placements s : Inv s → quiescent s → ∀ p, p ∈ placements s → stage p = Placed.
Proof.
  intros HI (Hq&_) p [k Hk]%list_elem_of_lookup. specialize (Hq k).
  change (advance k s = None) in Hq. unfold advance in Hq. rewrite Hk in Hq. simpl in Hq.
  assert (target p < length (workers s))%nat as Ht by (eapply (Forall_lookup_1 _ _ _ _ (inv_targets s HI)); exact Hk).
  apply lookup_lt_is_Some in Ht as [x Hx]. rewrite Hx in Hq. simpl in Hq. by destruct (stage p).
Qed.

Lemma quiescent_queued s w : Inv s → quiescent s → staged Queued w (placements s) = 0.
Proof.
  intros HI Hq. apply sum_over_zero. intros p Hp. unfold is_staged.
  by rewrite (quiescent_placements s HI Hq p Hp), decide_False by (by intros [? _]).
Qed.

Lemma quiescent_waking s : Inv s → quiescent s → to_wake s = [].
Proof.
  intros HI (_&_&_&Hq). change (step WakeNext s = None) in Hq. simpl in Hq.
  pose proof (inv_waking s HI) as Hw. destruct (to_wake s) as [|w rest]; [done|].
  inversion_clear Hw as [|? ? Hlt _]. apply lookup_lt_is_Some in Hlt as [x Hx]. by rewrite Hx in Hq.
Qed.

(** A worker that has no turn is past its loop, or waits for what nobody signalled. *)
Lemma quiescent_phase s w x :
  quiescent s → workers s !! w = Some x →
  phase x = Stopped ∨ (phase x = Waiting ∧ woken (handle x) = false).
Proof.
  intros (_&Hq&_) Hx. specialize (Hq w (mkFate 0 false)). change (turn w (mkFate 0 false) 0 s = None) in Hq.
  unfold turn in Hq. rewrite Hx in Hq. simpl in Hq.
  destruct (phase x) as [|jobs|[|j jobs]| | |]; try done; [by destruct (ready x)| |by left].
  right. destruct (woken (handle x)); [|done]. unfold fire in Hq. by destruct (0 <=? parked x)%nat.
Qed.

(** C15: No wake-up is lost: at rest every placement has been carried out, and every worker
    has stopped or waits with an empty inbox and an empty run queue, having
    installed exactly the jobs pushed to it, in order.  Once the leader has stopped
    only helpers that still hold a parked fiber wait; a helper stops only when asked
    to, which is after the leader has. *)
Theorem placement_serves helpers es s :
  run (M := placement_machine) es (start helpers) = Some s → quiescent s →
  (∀ p, p ∈ placements s → stage p = Placed) ∧
  (∀ w x, workers s !! w = Some x →
    ready x = 0%nat ∧
    (phase x = Waiting ∧ inbox (handle x) = [] ∧ jobs_of w (installed s) = jobs_of w (pushed s)
     ∨ phase x = Stopped ∧ (w = 0%nat ∨ shutdown s = true))) ∧
  (∀ leader, workers s !! 0%nat = Some leader → phase leader = Stopped →
    ∀ w x, workers s !! w = Some x → phase x = Stopped ∨ parked x ≠ 0%nat).
Proof.
  intros Hr Hq. apply reachable_Inv in Hr as HI. split; [by apply quiescent_placements|]. split.
  - intros w x Hx. destruct (inv_owed s HI w x Hx) as [C R J W I S Q].
    destruct (quiescent_phase s w x Hq Hx) as [Hp|[Hp Hw]]; (split; [by apply Q; auto|]); [right; auto|left].
    split; [done|]. unfold in_hand in J. rewrite Hp in J. destruct W as [?|[Hin|Hn]]; [by rewrite Hp|congruence| |].
    + rewrite Hin in *. by rewrite J, app_nil_r.
    + rewrite quiescent_queued in Hn by done. lia.
  - intros leader Hl Hs w x Hx. destruct (quiescent_phase s w x Hq Hx) as [?|[Hp Hw]]; [by left|].
    right. intros Hz. destruct (inv_owed s HI w x Hx) as [_ _ _ _ I _ _].
    destruct (I Hp Hz) as [_ Hsh]. destruct Hq as (Hq1&Hq2&Hq3&Hq4).
    assert (shutdown s = true) as Hd.
    { change (step RequestShutdown s = None) in Hq3. simpl in Hq3. rewrite Hl in Hq3. simpl in Hq3.
      rewrite Hs in Hq3. by destruct (shutdown s). }
    destruct (Hsh Hd) as [?|Hin]; [congruence|].
    rewrite quiescent_waking in Hin by (done || by split_and!). by apply not_elem_of_nil in Hin.
Qed.

End invariant.

(** ** A run *)

Definition returns : Fate := mkFate 0 false.
Definition waits : Fate := mkFate 0 true.

(** [main] launches a job, which goes to the idle helper, and waits for it; the
    helper runs it; [main] is resumed and returns; the helper is told to stop. *)
Definition one_launch : list (event nat) :=
  let loop w := replicate 3 (Turn w returns 0) in
  loop 0%nat ++ [Choose 7%nat; Advance 0; Advance 0; Advance 0; Turn 0 waits 0; Turn 0 returns 0]
  ++ loop 1%nat ++ replicate 3 (Turn 1 returns 0) ++ [Turn 1 returns 0] ++ loop 1%nat ++ [Turn 1 returns 0]
  ++ [Fire 0 1] ++ loop 0%nat ++ [Turn 0 returns 0; Turn 0 returns 0]
  ++ [RequestShutdown; WakeNext; WakeNext; Turn 1 returns 0] ++ loop 1%nat ++ [Turn 1 returns 0].

Definition after_launch : Registry nat := Eval vm_compute in
  match run (M := placement_machine) one_launch (start 1) with Some s => s | None => start 1 end.

Lemma one_launch_run : run (M := placement_machine) one_launch (start 1) = Some after_launch.
Proof. vm_compute. reflexivity. Qed.

Example after_launch_state :
  phase <$> workers after_launch = [Stopped; Stopped] ∧ installed after_launch = [(1%nat, 7%nat)].
Proof. vm_compute. auto. Qed.

Lemma placement_accounts_witness :
  ∃ x, workers after_launch !! 1%nat = Some x ∧ inbox_len (handle x) = 0 ∧ jobs_of 1 (pushed after_launch) = [7%nat].
Proof.
  eexists. split; [reflexivity|].
  destruct (placement_accounts 1 one_launch after_launch 1 _ one_launch_run ltac:(by vm_compute) eq_refl) as (Hc&_&Hj).
  split; [exact Hc|exact Hj].
Defined.

Lemma placement_serves_witness :
  quiescent after_launch ∧ ∀ p, p ∈ placements after_launch → stage p = Placed.
Proof.
  assert (quiescent after_launch) as Hq.
  { split_and!; [|intros [|[|w]] fate; reflexivity|reflexivity|reflexivity].
    intros [|[|k]]; reflexivity. }
  split; [exact Hq|]. apply (placement_serves 1 one_launch after_launch one_launch_run Hq).
Defined.

(** A job the leader places on itself and does not wait for is left in its inbox:
    only the scopes of launches, which settle before their fiber returns, make the
    leader's idleness the end of the program. *)
Example leader_leaves_inbox :
  let s := match run (M := placement_machine)
    (replicate 3 (Turn 0 returns 0) ++ [Turn 0 returns 0; Choose 7%nat; Advance 0; Advance 0; Advance 0; Turn 0 returns 0]) (start 0)
    with Some s => s | None => start 0 end in
  phase <$> workers s = [Stopped] ∧ installed s = [] ∧ pushed s = [(0%nat, 7%nat)].
Proof. vm_compute. auto. Qed.
