(* ===== verification/Analysis.v ===== *)
(** * The analyses of the language server: [src/lsp/analysis.rs]

    Name resolution over a linked program (go to definition, references, rename),
    hover, semantic tokens and test lenses.  The resolver keeps what the code keeps:
    the references and declarations found, the top-level names, and the open scopes
    - the innermost first here, last in the code.  Next to it, what it computes: the
    uses of an expression under an environment passed down. *)

From S2P Require Import Prelude Bytes Token Ast Walk.
Open Scope Z_scope.

(** ** Declarations and references *)

Record Declaration : Type := mkDeclaration { name : string; span : Span; is_local : bool }.
Record Reference : Type := mkReference { use_span : Span; declaration : Declaration }.

Record Resolver : Type := mkResolver {
  references : list Reference;
  declarations : list Declaration;
  top_level : gmap string Declaration;
  scopes : list (gmap string Declaration)
}.

(** [HashMap::entry(..).or_insert(..)]. *)
Definition or_insert (key : string) (d : Declaration) (m : gmap string Declaration) : gmap string Declaration :=
  match m !! key with Some _ => m | None => <[key := d]> m end.

Definition refer (use : Span) (d : Declaration) (r : Resolver) : Resolver :=
  mkResolver (references r ++ [mkReference use d]) (declarations r) (top_level r) (scopes r).

Definition record (d : Declaration) (r : Resolver) : Resolver :=
  if bool_decide (file (span d) = ROOT_FILE)
  then mkResolver (references r) (declarations r ++ [d]) (top_level r) (scopes r) else r.

Definition push (r : Resolver) : Resolver :=
  mkResolver (references r) (declarations r) (top_level r) (∅ :: scopes r).
Definition pop (r : Resolver) : Resolver :=
  mkResolver (references r) (declarations r) (top_level r) (tail (scopes r)).

Fixpoint lookup_scopes (n : string) (scopes : list (gmap string Declaration)) : option Declaration :=
  match scopes with
  | [] => None
  | scope :: rest => match scope !! n with Some d => Some d | None => lookup_scopes n rest end
  end.

Definition lookup (r : Resolver) (n : string) : option Declaration :=
  match lookup_scopes n (scopes r) with Some d => Some d | None => top_level r !! n end.

(** [if let Some(scope) = self.scopes.last_mut() { scope.insert(..) }]. *)
Definition insert_innermost (n : string) (d : Declaration) (r : Resolver) : Resolver :=
  mkResolver (references r) (declarations r) (top_level r)
    match scopes r with [] => [] | scope :: rest => <[n := d]> scope :: rest end.

Definition bind (n : string) (s : Span) (r : Resolver) : Resolver :=
  let d := mkDeclaration n s true in insert_innermost n d (record d r).

Definition declare_type_name (n : string) (s : Span) (local : bool) (r : Resolver) : Resolver :=
  let d := mkDeclaration n s local in
  let r := record d r in
  if local then insert_innermost n d r
  else mkResolver (references r) (declarations r) (or_insert n d (top_level r)) (scopes r).

Definition type_use (n : string) (s : Span) (r : Resolver) : Resolver :=
  match lookup r n with Some d => refer s d r | None => r end.

(** [name.len() as u32] past the start: the node's span opens on the name. *)
Definition name_span (n : string) (s : Span) : Span :=
  in_file (Token.start s) (Token.start s + Z.of_nat (String.length n)) (file s).

Fixpoint pattern_bindings (pattern : Pattern) (r : Resolver) : Resolver :=
  match pattern with
  | Pattern.Identifier n s => bind n s r
  | Pattern.Constructor n arguments s =>
      fold_left (λ r a, pattern_bindings a r) arguments (type_use n (name_span n s) r)
  | Pattern.Number _ _ | Pattern.Text _ _ | Pattern.Wildcard _ => r
  end.

(** ** The walk *)

Section items.
Context (expression : Expression → Resolver → Resolver).

Definition in_function (parameters : list Param) (body : Expression) (r : Resolver) : Resolver :=
  let r := fold_left (λ r p, bind (parameter_name p) (parameter_span p) r) parameters (push r) in
  pop (expression body r).

Definition trap_arm (arm : MatchArm Expression) (r : Resolver) : Resolver :=
  let r := push r in
  let r := match arm_pattern arm with
           | Pattern.Constructor _ arguments _ =>
               fold_left (λ r a, match a with Pattern.Identifier n s => bind n s r | _ => r end) arguments r
           | _ => r
           end in
  pop (expression (arm_body arm) r).

Definition method (m : MethodDeclaration Expression) (r : Resolver) : Resolver :=
  let r := bind RECEIVER (method_span m) (push r) in
  pop (in_function (method_parameters m) (method_body m) r).

Definition item (i : Item Expression) (r : Resolver) : Resolver :=
  match i with
  | ItemVariable d => expression (variable_value d) r
  | ItemFunction d => in_function (parameters d) (function_body d) r
  | ItemType d => fold_left (λ r m, method m r) (methods (type_definition d)) r
  | ItemTrap t => fold_left (λ r arm, trap_arm arm r) (arms t) r
  end.

Definition item_statement (i : Item Expression) (r : Resolver) : Resolver :=
  let declared r := item i (bind (item_name i) (item_span i) r) in
  match i with
  | ItemVariable d =>
      if mutable d then
        match lookup r (variable_name d) with
        | Some existing =>
            expression (variable_value d) (refer (name_span (variable_name d) (variable_span d)) existing r)
        | None => declared r
        end
      else declared r
  | _ => declared r
  end.

Definition statement (s : Statement Expression) (r : Resolver) : Resolver :=
  match s with
  | StatementItem i => item_statement i r
  | StatementExpression e => expression e r
  end.

Definition match_arm (arm : MatchArm Expression) (r : Resolver) : Resolver :=
  pop (expression (arm_body arm) (pattern_bindings (arm_pattern arm) (push r))).

End items.

Fixpoint expression (e : Expression) (r : Resolver) : Resolver :=
  let all := fold_left (λ r e, expression e r) in
  match e with
  | Expression.Identifier n s => match lookup r n with Some d => refer s d r | None => r end
  | Expression.Block statements _ =>
      pop (fold_left (λ r s, statement expression s r) statements (push r))
  | Expression.Lambda parameters _ body _ => in_function expression parameters body r
  | Expression.Call function arguments _ _ => all arguments (expression function r)
  | Expression.Match scrutinee arms _ =>
      fold_left (λ r arm, match_arm expression arm r) arms (expression scrutinee r)
  | Expression.BinaryOperator a _ b _ | Expression.FieldAssign a b _ | Expression.IndexAssign a b _
  | Expression.Index a b _ | Expression.Range a b _ => expression b (expression a r)
  | Expression.UnaryOperator _ e _ | Expression.FieldAccess e _ _ | Expression.Spread e _ => expression e r
  | Expression.If c a b _ => expression b (expression a (expression c r))
  | Expression.Array elements _ | Expression.SetLiteral elements _ => all elements r
  | Expression.MapLiteral entries _ =>
      fold_left (λ r entry, expression entry.2 (expression entry.1 r)) entries r
  | Expression.Record fields _ => fold_left (λ r field, expression field.2 r) fields r
  | Expression.Constructor type_name fields s =>
      fold_left (λ r field, expression field.2 r) fields (type_use type_name (name_span type_name s) r)
  | Expression.Interpolation parts _ =>
      fold_left (λ r part, match part with PartHole hole => expression hole r | PartLiteral _ => r end) parts r
  | Expression.Number _ _ | Expression.String _ _ | Expression.Bool _ _ | Expression.Unit _ => r
  end.

Definition declare_item (r : Resolver) (i : Item Expression) : Resolver :=
  let d := mkDeclaration (item_name i) (item_span i) false in
  let r := record d r in
  mkResolver (references r) (declarations r) (or_insert (name d) d (top_level r)) (scopes r).

(** [Resolver::walk]. *)
Definition walk (program : Program) : Resolver :=
  let r := fold_left declare_item (items program) (mkResolver [] [] ∅ []) in
  let r := fold_left (λ r d, declare_type_name (Ast.use_name d) (Ast.use_span d) false r)
             (variant_declarations program) r in
  let r := fold_left (λ r i, item expression i r) (items program) r in
  let r := fold_left (λ r block, expression block r) (test_blocks program) r in
  fold_left (λ r use, type_use (Ast.use_name use) (Ast.use_span use) r) (type_name_uses program) r.

(** ** Go to definition, references, rename *)

Definition covers (s : Span) (offset : Z) : bool :=
  bool_decide (file s = ROOT_FILE) && (Token.start s <=? offset) && (offset <? end_ s).

Definition find {A} (f : A → bool) (l : list A) : option A := head (filter (λ x, f x = true) l).

Definition declaration_at (program : Program) (offset : Z) : option (string * Span) :=
  (λ r, (name (declaration r), span (declaration r)))
    <$> find (λ r, covers (use_span r) offset) (references (walk program)).

Definition definition_at (program : Program) (offset : Z) : option Span := snd <$> declaration_at program offset.

Definition name_token_span (tokens : list Token) (d : Declaration) : option Span :=
  Token.span <$> find (λ t, bool_decide (kind t = TokenKind.Ident) && bool_decide (text t = name d)
                            && covers (span d) (Token.start (Token.span t))) tokens.

Definition matches_target (target d : Declaration) : bool :=
  if is_local target then bool_decide (span d = span target)
  else negb (is_local d) && bool_decide (name d = name target).

(** [sort_by_key(|span| span.start)], which is stable, then [dedup]. *)
Fixpoint insert_by_start (s : Span) (l : list Span) : list Span :=
  match l with
  | [] => [s]
  | t :: rest => if Token.start s <=? Token.start t then s :: l else t :: insert_by_start s rest
  end.
Definition sort_by_start (l : list Span) : list Span := foldr insert_by_start [] l.
Fixpoint dedup (l : list Span) : list Span :=
  match l with
  | s :: ((t :: _) as rest) => if bool_decide (s = t) then dedup rest else s :: dedup rest
  | _ => l
  end.

(** What stands at the offset: the declaration of a use there, else a declaration
    whose own name is there. *)
Definition target_at (r : Resolver) (tokens : list Token) (offset : Z) : option Declaration :=
  match find (λ ref, covers (use_span ref) offset) (references r) with
  | Some ref => Some (declaration ref)
  | None => find (λ d, match name_token_span tokens d with Some s => covers s offset | None => false end)
              (declarations r)
  end.

Definition spans_of (r : Resolver) (tokens : list Token) (target : Declaration) : list Span :=
  omap (name_token_span tokens) (filter (λ d, matches_target target d = true) (declarations r))
  ++ (use_span <$> filter (λ ref, matches_target target (declaration ref) = true) (references r)).

Definition references_at (program : Program) (tokens : option (list Token)) (offset : Z) : option (list Span) :=
  let r := walk program in
  tokens ← tokens;
  target ← target_at r tokens offset;
  if bool_decide (name target = RECEIVER) || negb (bool_decide (file (span target) = ROOT_FILE)) then None
  else Some (dedup (sort_by_start (spans_of r tokens target))).

(** Of the text's tokens: a single name is one [Ident] and the closing [Eof]. *)
Definition is_identifier (tokens : option (list Token)) : bool :=
  match tokens with
  | Some [token; eof] => bool_decide (kind token = TokenKind.Ident) && bool_decide (kind eof = TokenKind.Eof)
  | _ => false
  end.

(** ** Hover

    The tables are hash maps: their entries come in some order. *)

Definition width (s : Span) : Z * Z := (end_ s - Token.start s, Token.start s).
Definition width_lt (a b : Z * Z) : bool := (a.1 <? b.1) || ((a.1 =? b.1) && (a.2 <? b.2)).

(** [Iterator::min_by_key]: the first of the least. *)
Fixpoint min_by_width {A} (l : list (Span * A)) : option (Span * A) :=
  match l with
  | [] => None
  | x :: rest =>
      match min_by_width rest with
      | Some y => if width_lt (width y.1) (width x.1) then Some y else Some x
      | None => Some x
      end
  end.

Definition hover_at (types : list (Span * Ty)) (matchers : list (Span * string)) (offset : Z) : option (string * Span) :=
  let from_matchers := filter (λ x, covers x.1 offset = true) matchers in
  let from_types := (λ x, (x.1, type_label x.2)) <$> filter (λ x, covers x.1 offset = true) types in
  (λ x, (x.2, x.1)) <$> min_by_width (from_matchers ++ from_types).

(** ** Semantic tokens *)

Inductive SemanticTokenKind : Type :=
| BlockDelimiter
| ComparisonOperator
| TypeName
| FunctionName
| ParameterName.

Definition ends_operand (kind : TokenKind) : bool :=
  match kind with
  | TokenKind.Ident | TokenKind.Number _ | TokenKind.String _ | TokenKind.True | TokenKind.False
  | TokenKind.Unit | TokenKind.ParenClose | TokenKind.BracketClose => true
  | _ => false
  end.

Record DeclaredNames : Type := mkDeclaredNames {
  types : gset string;
  functions : gset string;
  parameter_names : gset string
}.

Definition add_type (n : string) (d : DeclaredNames) : DeclaredNames :=
  mkDeclaredNames ({[n]} ∪ types d) (functions d) (parameter_names d).
Definition add_function (n : string) (d : DeclaredNames) : DeclaredNames :=
  mkDeclaredNames (types d) ({[n]} ∪ functions d) (parameter_names d).
Definition collect_parameters (ps : list Param) (d : DeclaredNames) : DeclaredNames :=
  mkDeclaredNames (types d) (functions d) (foldl (λ names p, {[parameter_name p]} ∪ names) (parameter_names d) ps).

Definition collect_item_shallow (i : Item Expression) (d : DeclaredNames) : DeclaredNames :=
  match i with
  | ItemType declaration => add_type (type_name declaration) d
  | ItemFunction declaration => collect_parameters (parameters declaration) (add_function (function_name declaration) d)
  | ItemVariable _ | ItemTrap _ => d
  end.

Definition collect_node (node : Expression) (d : DeclaredNames) : ControlFlow Empty_set DeclaredNames :=
  Continue
    match node with
    | Expression.Lambda ps _ _ _ => collect_parameters ps d
    | Expression.Block statements _ =>
        foldl (λ d s, match s with StatementItem i => collect_item_shallow i d | StatementExpression _ => d end) d statements
    | _ => d
    end.

Definition collect_expression (e : Expression) (d : DeclaredNames) : DeclaredNames :=
  match try_for_each_subexpression collect_node e d with Continue d | Break _ d => d end.

Definition collect_item (d : DeclaredNames) (i : Item Expression) : DeclaredNames :=
  match i with
  | ItemType declaration =>
      foldl (λ d m, collect_expression (method_body m) (collect_parameters (method_parameters m) (add_function (method_name m) d)))
        (add_type (type_name declaration) d) (methods (type_definition declaration))
  | ItemFunction declaration =>
      collect_expression (function_body declaration)
        (collect_parameters (parameters declaration) (add_function (function_name declaration) d))
  | ItemVariable declaration => collect_expression (variable_value declaration) d
  | ItemTrap trap => foldl (λ d arm, collect_expression (arm_body arm) d) d (arms trap)
  end.

(** [DeclaredNames::of]. *)
Definition names_of (program : option Program) : DeclaredNames :=
  let none := mkDeclaredNames ∅ ∅ ∅ in
  match program with
  | None => none
  | Some program => foldl (λ d e, collect_expression e d) (foldl collect_item none (items program)) (test_blocks program)
  end.

Definition classify (d : DeclaredNames) (n : string) : option SemanticTokenKind :=
  if bool_decide (n ∈ types d) then Some TypeName
  else if bool_decide (n ∈ functions d) then Some FunctionName
  else if bool_decide (n ∈ parameter_names d) then Some ParameterName
  else None.

Definition token_class (d : DeclaredNames) (previous : option TokenKind) (t : Token) : option SemanticTokenKind :=
  match kind t with
  | TokenKind.BlockOpen =>
      Some (if default false (ends_operand <$> previous) then ComparisonOperator else BlockDelimiter)
  | TokenKind.BlockClose => Some BlockDelimiter
  | TokenKind.Gt => Some ComparisonOperator
  | TokenKind.Ident => classify d (text t)
  | _ => None
  end.

Fixpoint classified (d : DeclaredNames) (previous : option TokenKind) (tokens : list Token)
    : list (Span * SemanticTokenKind) :=
  match tokens with
  | [] => []
  | t :: rest =>
      match token_class d previous t with Some k => [(Token.span t, k)] | None => [] end
      ++ classified d (Some (kind t)) rest
  end.

Definition semantic_tokens (tokens : option (list Token)) (program : option Program) : list (Span * SemanticTokenKind) :=
  match tokens with None => [] | Some tokens => classified (names_of program) None tokens end.

(** ** Test lenses *)

Inductive TestLensKind : Type := Suite | Case.
#[export] Instance TestLensKind_eq_dec : EqDecision TestLensKind.
Proof. solve_decision. Defined.

Record TestLens : Type := mkTestLens { lens_kind : TestLensKind; lens_name : string; lens_path : string; lens_span : Span }.

Definition harness_call_kind (function : Expression) : option TestLensKind :=
  match function with
  | Expression.Identifier n _ =>
      if negb (bool_decide (46 ∈ bs n)) then None
      else if bool_decide (display_name n = "describe") then Some Suite
      else if bool_decide (display_name n = "it") then Some Case
      else None
  | _ => None
  end.

Fixpoint collect_test_lenses (e : Expression) (prefix : string) (lenses : list TestLens) : list TestLens :=
  match e with
  | Expression.Call function arguments false s =>
      match harness_call_kind function, arguments with
      | Some k, [Expression.String value _; body] =>
          let path := if bool_decide (prefix = "") then value else prefix +:+ "/" +:+ value in
          let lenses := lenses ++ [mkTestLens k value path s] in
          if bool_decide (k = Suite) then collect_test_lenses body path lenses else lenses
      | _, _ =>
          fold_left (λ lenses a, collect_test_lenses a prefix lenses) arguments (collect_test_lenses function prefix lenses)
      end
  | Expression.Lambda _ _ body _ => collect_test_lenses body prefix lenses
  | Expression.Block statements _ =>
      fold_left (λ lenses s, match s with StatementExpression e => collect_test_lenses e prefix lenses | StatementItem _ => lenses end)
        statements lenses
  | _ => lenses
  end.

Definition test_lenses (program : option Program) : list TestLens :=
  match program with
  | None => []
  | Some program => fold_left (λ lenses block, collect_test_lenses block "" lenses) (test_blocks program) []
  end.

(** ** What the walk finds

    The same, with the environment passed down instead of a stack pushed and popped:
    what an expression uses and declares, in order, under the declarations its names
    stand for. *)

Definition Environment : Type := string → option Declaration.
Definition found : Type := Reference + Declaration.

Definition extend (n : string) (d : Declaration) (env : Environment) : Environment :=
  λ m, if decide (m = n) then Some d else env m.

(** An environment that grows as the names of one scope are met. *)
Definition Scope : Type := Environment * list found.

Definition scope_bind (n : string) (s : Span) (w : Scope) : Scope :=
  let d := mkDeclaration n s true in (extend n d w.1, w.2 ++ [inr d]).

Definition use_of (n : string) (s : Span) (env : Environment) : list found :=
  match env n with Some d => [inl (mkReference s d)] | None => [] end.

Definition scope_find (fs : Environment → list found) (w : Scope) : Scope := (w.1, w.2 ++ fs w.1).

Fixpoint scope_pattern (pattern : Pattern) (w : Scope) : Scope :=
  match pattern with
  | Pattern.Identifier n s => scope_bind n s w
  | Pattern.Constructor n arguments s =>
      fold_left (λ w a, scope_pattern a w) arguments (scope_find (use_of n (name_span n s)) w)
  | Pattern.Number _ _ | Pattern.Text _ _ | Pattern.Wildcard _ => w
  end.

Section finds.
Context (finds : Expression → Environment → list found).

Definition function_finds (ps : list Param) (body : Expression) (env : Environment) : list found :=
  let w := fold_left (λ w p, scope_bind (parameter_name p) (parameter_span p) w) ps (env, []) in
  w.2 ++ finds body w.1.

Definition trap_arm_finds (arm : MatchArm Expression) (env : Environment) : list found :=
  let w := match arm_pattern arm with
           | Pattern.Constructor _ arguments _ =>
               fold_left (λ w a, match a with Pattern.Identifier n s => scope_bind n s w | _ => w end) arguments (env, [])
           | _ => (env, [])
           end in
  w.2 ++ finds (arm_body arm) w.1.

Definition method_finds (m : MethodDeclaration Expression) (env : Environment) : list found :=
  let w := scope_bind RECEIVER (method_span m) (env, []) in
  w.2 ++ function_finds (method_parameters m) (method_body m) w.1.

Definition item_finds (i : Item Expression) (env : Environment) : list found :=
  match i with
  | ItemVariable d => finds (variable_value d) env
  | ItemFunction d => function_finds (parameters d) (function_body d) env
  | ItemType d => methods (type_definition d) ≫= λ m, method_finds m env
  | ItemTrap t => arms t ≫= λ arm, trap_arm_finds arm env
  end.

Definition scope_item (i : Item Expression) (w : Scope) : Scope :=
  let declared := scope_find (item_finds i) (scope_bind (item_name i) (item_span i) w) in
  match i with
  | ItemVariable d =>
      if mutable d && bool_decide (is_Some (w.1 (variable_name d)))
      then scope_find (λ env, use_of (variable_name d) (name_span (variable_name d) (variable_span d)) env
                              ++ finds (variable_value d) env) w
      else declared
  | _ => declared
  end.

Definition scope_statement (w : Scope) (s : Statement Expression) : Scope :=
  match s with
  | StatementItem i => scope_item i w
  | StatementExpression e => scope_find (finds e) w
  end.

Definition arm_finds (arm : MatchArm Expression) (env : Environment) : list found :=
  let w := scope_pattern (arm_pattern arm) (env, []) in w.2 ++ finds (arm_body arm) w.1.

End finds.

Fixpoint finds (e : Expression) (env : Environment) : list found :=
  match e with
  | Expression.Identifier n s => use_of n s env
  | Expression.Block statements _ => (fold_left (scope_statement finds) statements (env, [])).2
  | Expression.Lambda ps _ body _ => function_finds finds ps body env
  | Expression.Call function arguments _ _ => finds function env ++ (arguments ≫= λ a, finds a env)
  | Expression.Match scrutinee arms _ => finds scrutinee env ++ (arms ≫= λ arm, arm_finds finds arm env)
  | Expression.BinaryOperator a _ b _ | Expression.FieldAssign a b _ | Expression.IndexAssign a b _
  | Expression.Index a b _ | Expression.Range a b _ => finds a env ++ finds b env
  | Expression.UnaryOperator _ e _ | Expression.FieldAccess e _ _ | Expression.Spread e _ => finds e env
  | Expression.If c a b _ => finds c env ++ finds a env ++ finds b env
  | Expression.Array elements _ | Expression.SetLiteral elements _ => elements ≫= λ a, finds a env
  | Expression.MapLiteral entries _ => entries ≫= λ entry, finds entry.1 env ++ finds entry.2 env
  | Expression.Record fields _ => fields ≫= λ field, finds field.2 env
  | Expression.Constructor type_name fields s =>
      use_of type_name (name_span type_name s) env ++ (fields ≫= λ field, finds field.2 env)
  | Expression.Interpolation parts _ =>
      parts ≫= λ part, match part with PartHole hole => finds hole env | PartLiteral _ => [] end
  | Expression.Number _ _ | Expression.String _ _ | Expression.Bool _ _ | Expression.Unit _ => []
  end.

(** The top-level names: the first item of a name, or else the first variant. *)
Definition top_declarations (p : Program) : list Declaration :=
  ((λ i, mkDeclaration (item_name i) (item_span i) false) <$> items p)
  ++ ((λ d, mkDeclaration (Ast.use_name d) (Ast.use_span d) false) <$> variant_declarations p).

Definition first_named (ds : list Declaration) : Environment := λ n, find (λ d, bool_decide (name d = n)) ds.

Definition program_finds (p : Program) : list found :=
  let env := first_named (top_declarations p) in
  (inr <$> top_declarations p) ++ (items p ≫= λ i, item_finds finds i env) ++ (test_blocks p ≫= λ b, finds b env)
  ++ (type_name_uses p ≫= λ u, use_of (Ast.use_name u) (Ast.use_span u) env).

Definition found_references (fs : list found) : list Reference :=
  omap (λ f, match f with inl ref => Some ref | inr _ => None end) fs.
Definition found_declarations (fs : list found) : list Declaration :=
  filter (λ d, file (span d) = ROOT_FILE) (omap (λ f, match f with inl _ => None | inr d => Some d end) fs).
