(* ===== verification/AnalysisProps.v ===== *)
(** * The resolver is lexical scoping, and hover does not depend on hash order

    The walk with its stack of scopes computes what passing environments down does;
    a hover does not depend on the order of the hash maps. *)

From S2P Require Import Prelude Bytes Token Ast Walk Analysis.
Open Scope Z_scope.

(** ** Induction through every body, a trap's included *)

Definition deep_statement_parts (s : Statement Expression) : list Expression :=
  match s with
  | StatementItem (ItemTrap t) => arm_body <$> arms t
  | _ => statement_parts s
  end.

Definition deep_parts (e : Expression) : list Expression :=
  match e with
  | Expression.Block statements _ => statements ≫= deep_statement_parts
  | _ => parts_of e
  end.

Lemma Expression_deep_ind (P : Expression → Prop) : (∀ e, Forall P (deep_parts e) → P e) → ∀ e, P e.
Proof.
  intros H. fix IH 1. intros e. apply H.
  destruct e as [| |parts| | | | | |function arguments| |statements| |expression arms| | | | |elements
    |entries|elements|fields|tn fields| |]; simpl; try (repeat (constructor; try apply IH); fail).
  - induction parts as [|[t|h] parts IHp]; simpl; [constructor|exact IHp|constructor; [apply IH|exact IHp]].
  - constructor; [apply IH|]. induction arguments; constructor; [apply IH|done].
  - induction statements as [|s statements IHs]; simpl; [constructor|]. apply Forall_app_2; [|exact IHs].
    destruct s as [[v|f|d|t]|e]; simpl; try (repeat (constructor; try apply IH); fail).
    + destruct (type_definition d) as [vs sp ms|fs ms]; simpl; induction ms; constructor; try apply IH; done.
    + destruct t as [arms s]. simpl. induction arms; constructor; [apply IH|done].
  - constructor; [apply IH|]. induction arms; constructor; [apply IH|done].
  - induction elements; constructor; [apply IH|done].
  - induction entries as [|[k v] entries IHe]; simpl; [constructor|].
    constructor; [apply IH|]. constructor; [apply IH|exact IHe].
  - induction elements; constructor; [apply IH|done].
  - induction fields; constructor; [apply IH|done].
  - induction fields; constructor; [apply IH|done].
Qed.

(** ** The walk and the environment *)

Definition emit (fs : list found) (r : Resolver) : Resolver :=
  mkResolver (references r ++ found_references fs) (declarations r ++ found_declarations fs) (top_level r) (scopes r).

Lemma emit_nil r : emit [] r = r.
Proof. destruct r. unfold emit. simpl. by rewrite !app_nil_r. Qed.

Lemma found_references_app fs gs : found_references (fs ++ gs) = found_references fs ++ found_references gs.
Proof. apply omap_app. Qed.

Lemma found_declarations_app fs gs : found_declarations (fs ++ gs) = found_declarations fs ++ found_declarations gs.
Proof. unfold found_declarations. by rewrite omap_app, filter_app. Qed.

Lemma emit_emit fs gs r : emit gs (emit fs r) = emit (fs ++ gs) r.
Proof. unfold emit. simpl. by rewrite found_references_app, found_declarations_app, <-!app_assoc. Qed.

Lemma lookup_emit fs r n : lookup (emit fs r) n = lookup r n.
Proof. done. Qed.

Lemma record_emit d r : record d r = emit [inr d] r.
Proof.
  unfold record, emit, found_references, found_declarations. simpl. unfold filter. simpl.
  case_bool_decide; case_decide; try done; destruct r; simpl; by rewrite ?app_nil_r.
Qed.

(** [r] is the resolver [r0] inside one more scope, with what [w] says found since. *)
Record inside_scope (r0 : Resolver) (w : Scope) (r : Resolver) : Prop := {
  sc_references : references r = references r0 ++ found_references w.2;
  sc_declarations : declarations r = declarations r0 ++ found_declarations w.2;
  sc_top : top_level r = top_level r0;
  sc_scopes : ∃ scope, scopes r = scope :: scopes r0;
  sc_lookup : ∀ n, lookup r n = w.1 n
}.

(** The walk of [e] adds what [e] is found to use and declare, and leaves the scopes
    as they were. *)
Definition agrees (e : Expression) : Prop :=
  ∀ env r, (∀ n, lookup r n = env n) → expression e r = emit (finds e env) r.

Lemma push_inside env r : (∀ n, lookup r n = env n) → inside_scope r (env, []) (push r).
Proof.
  intros Hl. split; simpl; rewrite ?app_nil_r; try done. by eexists.
Qed.

Lemma bind_inside n s r0 w r : inside_scope r0 w r → inside_scope r0 (scope_bind n s w) (bind n s r).
Proof.
  intros [R D T [scope S] L]. unfold bind. rewrite record_emit. unfold insert_innermost.
  split; simpl; rewrite ?S, ?R, ?D, ?T, ?found_references_app, ?found_declarations_app, ?app_assoc; try done; try by eexists.
  intros m. unfold lookup, extend. simpl. destruct (decide (m = n)) as [->|Hm].
  - by rewrite lookup_insert_eq.
  - rewrite lookup_insert_ne by done. rewrite <-L. unfold lookup. by rewrite S, T.
Qed.

Lemma emit_inside fs r0 w r :
  inside_scope r0 w r → inside_scope r0 (w.1, w.2 ++ fs) (emit fs r).
Proof.
  intros [R D T S L]. split; simpl; rewrite ?R, ?D, ?found_references_app, ?found_declarations_app, ?app_assoc; done.
Qed.

Lemma pop_inside r0 w r : inside_scope r0 w r → pop r = emit w.2 r0.
Proof. intros [R D T [scope S] L]. unfold pop, emit. by rewrite R, D, T, S. Qed.

Lemma refer_emit s d r : refer s d r = emit [inl (mkReference s d)] r.
Proof. unfold refer, emit. simpl. unfold found_declarations. simpl. by rewrite app_nil_r. Qed.

Lemma type_use_emit n s env r : (∀ n, lookup r n = env n) → type_use n s r = emit (use_of n s env) r.
Proof.
  intros Hl. unfold type_use, use_of. rewrite Hl. destruct (env n); [apply refer_emit|by rewrite emit_nil].
Qed.

Lemma fold_emit {A} (f : A → Resolver → Resolver) (g : A → list found) env (l : list A) r :
  (∀ n, lookup r n = env n) →
  Forall (λ a, ∀ r, (∀ n, lookup r n = env n) → f a r = emit (g a) r) l →
  fold_left (λ r a, f a r) l r = emit (l ≫= g) r.
Proof.
  intros Hl Hf. revert r Hl. induction Hf as [|a l Ha _ IH]; intros r Hl; simpl; [by rewrite emit_nil|].
  rewrite Ha, IH by done. by rewrite emit_emit.
Qed.

Lemma fold_inside {A} (f : A → Resolver → Resolver) (g : Scope → A → Scope) (l : list A) r0 w r :
  inside_scope r0 w r →
  Forall (λ a, ∀ w r, inside_scope r0 w r → inside_scope r0 (g w a) (f a r)) l →
  inside_scope r0 (fold_left g l w) (fold_left (λ r a, f a r) l r).
Proof.
  intros Hi Hf. revert w r Hi. induction Hf as [|a l Ha _ IH]; intros w r Hi; simpl; [done|]. apply IH. by apply Ha.
Qed.

Lemma find_inside (f : Resolver → Resolver) (g : Environment → list found) r0 w r :
  inside_scope r0 w r → (∀ env r, (∀ n, lookup r n = env n) → f r = emit (g env) r) →
  inside_scope r0 (scope_find g w) (f r).
Proof. intros Hi Hf. rewrite (Hf w.1 r) by apply Hi. by apply emit_inside. Qed.

Lemma pattern_inside p r0 w r : inside_scope r0 w r → inside_scope r0 (scope_pattern p w) (pattern_bindings p r).
Proof.
  revert p w r. fix IH 1. intros p w r Hi. destruct p as [n s| | |n arguments s|]; simpl; try done.
  - by apply bind_inside.
  - apply fold_inside.
    + apply find_inside; [done|]. intros. by apply type_use_emit.
    + induction arguments as [|a arguments IHa]; constructor; [intros; by apply IH|apply IHa].
Qed.

Lemma in_scope_emit r w e r1 :
  agrees e → inside_scope r w r1 → pop (expression e r1) = emit (w.2 ++ finds e w.1) r.
Proof.
  intros He Hi. rewrite (He w.1 r1) by apply Hi.
  by rewrite (pop_inside r (w.1, w.2 ++ finds e w.1)) by by apply emit_inside.
Qed.

Lemma in_function_emit ps body env r :
  agrees body → (∀ n, lookup r n = env n) → in_function expression ps body r = emit (function_finds finds ps body env) r.
Proof.
  intros Hb Hl. apply in_scope_emit; [done|]. apply (fold_inside _ (λ w p, scope_bind (parameter_name p) (parameter_span p) w)).
  - by apply push_inside.
  - apply Forall_forall. intros p _ w r' Hi. by apply bind_inside.
Qed.

Lemma trap_arm_emit arm env r :
  agrees (arm_body arm) → (∀ n, lookup r n = env n) → trap_arm expression arm r = emit (trap_arm_finds finds arm env) r.
Proof.
  intros Hb Hl. apply in_scope_emit; [done|]. pose proof (push_inside env r Hl) as Hp.
  destruct (arm_pattern arm) as [| | |n arguments s|]; try done.
  apply (fold_inside _ (λ w a, match a with Pattern.Identifier n s => scope_bind n s w | _ => w end)); [done|].
  apply Forall_forall. intros [] _ w r' Hi; try done. by apply bind_inside.
Qed.

Lemma method_emit m env r :
  agrees (method_body m) → (∀ n, lookup r n = env n) → method expression m r = emit (method_finds finds m env) r.
Proof.
  intros Hb Hl. unfold method, method_finds.
  pose proof (bind_inside RECEIVER (method_span m) _ _ _ (push_inside env r Hl)) as Hi.
  rewrite (in_function_emit _ _ _ _ Hb (sc_lookup _ _ _ Hi)).
  by rewrite (pop_inside _ _ _ (emit_inside _ _ _ _ Hi)).
Qed.

(** The bodies of an item. *)
Definition item_parts (i : Item Expression) : list Expression :=
  deep_statement_parts (StatementItem i).

Lemma item_emit i env r :
  Forall agrees (item_parts i) → (∀ n, lookup r n = env n) → item expression i r = emit (item_finds finds i env) r.
Proof.
  intros Hp Hl. destruct i as [d|d|d|t]; unfold item_parts in Hp; simpl in *.
  - apply Forall_inv in Hp. by apply Hp.
  - apply Forall_inv in Hp. by apply in_function_emit.
  - apply (fold_emit (λ m r, method expression m r) (λ m, method_finds finds m env) env); [done|].
    rewrite Forall_fmap in Hp. eapply Forall_impl; [exact Hp|]. intros m Hm r' Hl'. by apply method_emit.
  - apply (fold_emit (λ arm r, trap_arm expression arm r) (λ arm, trap_arm_finds finds arm env) env); [done|].
    rewrite Forall_fmap in Hp. eapply Forall_impl; [exact Hp|]. intros m Hm r' Hl'. by apply trap_arm_emit.
Qed.

Lemma statement_inside s r0 w r :
  Forall agrees (deep_statement_parts s) → inside_scope r0 w r →
  inside_scope r0 (scope_statement finds w s) (statement expression s r).
Proof.
  intros Hp Hi. destruct s as [i|e]; simpl.
  - assert (inside_scope r0 (scope_find (item_finds finds i) (scope_bind (item_name i) (item_span i) w))
              (item expression i (bind (item_name i) (item_span i) r))) as Hd.
    { apply find_inside; [by apply bind_inside|]. intros. by apply item_emit. }
    destruct i as [d|d|d|t]; try exact Hd. unfold item_statement, scope_item.
    destruct (mutable d); [|exact Hd]. rewrite (sc_lookup _ _ _ Hi). simpl.
    destruct (w.1 (variable_name d)) as [existing|] eqn:Hw; [|exact Hd].
    rewrite bool_decide_eq_true_2 by by eexists.
    apply Forall_inv in Hp. rewrite refer_emit, (Hp w.1) by (intros; apply Hi). rewrite emit_emit.
    unfold scope_find, use_of. rewrite Hw. by apply emit_inside.
  - apply find_inside; [done|]. intros. apply Forall_inv in Hp. by apply Hp.
Qed.

Lemma arm_emit arm env r :
  agrees (arm_body arm) → (∀ n, lookup r n = env n) → match_arm expression arm r = emit (arm_finds finds arm env) r.
Proof. intros Hb Hl. apply in_scope_emit; [done|]. by apply pattern_inside, push_inside. Qed.

Lemma all_emit es env r :
  Forall agrees es → (∀ n, lookup r n = env n) →
  fold_left (λ r e, expression e r) es r = emit (es ≫= λ e, finds e env) r.
Proof.
  intros He Hl. apply (fold_emit (λ e r, expression e r) (λ e, finds e env) env); [done|].
  eapply Forall_impl; [exact He|]. intros e H r' Hl'. by apply H.
Qed.

Lemma fields_emit (fields : list (string * Expression)) env r :
  Forall agrees fields.*2 → (∀ n, lookup r n = env n) →
  fold_left (λ r field, expression field.2 r) fields r = emit (fields ≫= λ field, finds field.2 env) r.
Proof.
  intros Hf Hl. apply (fold_emit (λ field r, expression field.2 r) (λ field, finds field.2 env) env); [done|].
  rewrite Forall_fmap in Hf. eapply Forall_impl; [exact Hf|]. intros [n e] H r' Hl'. by apply H.
Qed.

Lemma expression_agrees e : agrees e.
Proof.
  induction e as [e IH] using Expression_deep_ind. intros env r Hl.
  destruct e as [| |parts| | |n s|a op b s|op a s|function arguments member s|ps ret body s|statements s|c a b s|expression_ arms s
    |a f s|a b s|a b s|a b s|elements s|entries s|elements s|fields s|tn fields s|a b s|a s]; simpl in *;
    try (by rewrite emit_nil);
    repeat match goal with H : Forall _ (_ :: _) |- _ => apply Forall_cons in H as [? H] end;
    repeat match goal with H : agrees ?e |- context [expression ?e _] => rewrite (H env) by done; clear H end;
    rewrite ?emit_emit, <-?app_assoc; try done.
  - apply (fold_emit (λ part r, match part with PartHole hole => expression hole r | PartLiteral _ => r end)
             (λ part, match part with PartHole hole => finds hole env | PartLiteral _ => [] end) env); [done|].
    apply Forall_forall. intros [t|hole] Hin r' Hl'; [by rewrite emit_nil|].
    rewrite Forall_forall in IH. apply IH; [|done]. apply list_elem_of_omap. by exists (PartHole hole).
  - by apply type_use_emit.
  - by rewrite (all_emit arguments env), emit_emit.
  - by apply in_function_emit.
  - apply pop_inside, fold_inside; [by apply push_inside|]. apply Forall_forall. intros st Hin w r' Hi.
    apply statement_inside; [|done]. rewrite Forall_bind in IH. rewrite Forall_forall in IH. by apply IH.
  - rewrite <-emit_emit. apply (fold_emit (λ arm r, match_arm expression arm r) (λ arm, arm_finds finds arm env) env); [done|].
    rewrite Forall_fmap in IH. eapply Forall_impl; [exact IH|]. intros arm Ha r' Hl'. by apply arm_emit.
  - by apply all_emit.
  - apply (fold_emit (λ entry r, expression entry.2 (expression entry.1 r)) (λ entry, finds entry.1 env ++ finds entry.2 env) env);
      [done|]. rewrite Forall_bind in IH. eapply Forall_impl; [exact IH|]. intros [k v] Hkv r' Hl'. simpl in *.
    apply Forall_cons in Hkv as [Hk [Hv _]%Forall_cons]. by rewrite (Hk env), (Hv env), emit_emit.
  - by apply all_emit.
  - apply fields_emit; done.
  - rewrite (type_use_emit _ _ env), (fields_emit fields env) by done. by rewrite emit_emit.
Qed.

(** ** The whole program *)

(** A top-level name: the first of it stays. *)
Definition declare (r : Resolver) (d : Declaration) : Resolver :=
  let r := record d r in mkResolver (references r) (declarations r) (or_insert (name d) d (top_level r)) (scopes r).

Lemma find_cons {A} (f : A → bool) x l : find f (x :: l) = if f x then Some x else find f l.
Proof. unfold find. rewrite filter_cons. destruct (f x); [by rewrite decide_True|by rewrite decide_False]. Qed.

Lemma declare_emit r d :
  declare r d = mkResolver (references r) (declarations r ++ found_declarations [inr d])
                  (or_insert (name d) d (top_level r)) (scopes r).
Proof. unfold declare. rewrite record_emit. unfold emit. simpl. by rewrite app_nil_r. Qed.

Lemma declare_all ds r :
  let r' := fold_left declare ds r in
  references r' = references r ∧ declarations r' = declarations r ++ found_declarations (inr <$> ds) ∧
  scopes r' = scopes r ∧
  ∀ n, top_level r' !! n = match top_level r !! n with Some d => Some d | None => first_named ds n end.
Proof.
  revert r. induction ds as [|d ds IH]; intros r; simpl.
  - rewrite app_nil_r. split_and!; try done. intros n. by destruct (top_level r !! n).
  - destruct (IH (declare r d)) as (R&D&S&T). rewrite declare_emit in *. simpl in *.
    split_and!; [done| |done|].
    + rewrite D, <-app_assoc, <-found_declarations_app. done.
    + intros n. rewrite T. unfold first_named. rewrite find_cons. unfold or_insert.
      destruct (top_level r !! name d) as [d'|] eqn:Hd.
      * case_bool_decide as Hn; [|done]. subst n. by rewrite Hd.
      * case_bool_decide as Hn.
        -- subst n. by rewrite lookup_insert_eq, Hd.
        -- by rewrite lookup_insert_ne by done.
Qed.

Lemma found_references_declared ds : found_references (inr <$> ds) = [].
Proof. by induction ds. Qed.


(** ** Hover *)

Lemma width_lt_spec a b : width_lt a b = true ↔ a.1 < b.1 ∨ a.1 = b.1 ∧ a.2 < b.2.
Proof. unfold width_lt. rewrite orb_true_iff, andb_true_iff, !Z.ltb_lt, Z.eqb_eq. done. Qed.

Lemma min_by_width_spec {A} (l : list (Span * A)) :
  match min_by_width l with
  | None => l = []
  | Some y => y ∈ l ∧ ∀ x, x ∈ l → width_lt (width x.1) (width y.1) = false
  end.
Proof.
  induction l as [|x l IH]; simpl; [done|]. destruct (min_by_width l) as [y|].
  - destruct IH as [Hy Hl]. destruct (width_lt (width y.1) (width x.1)) eqn:W.
    + split; [by right|]. intros z [->|Hz]%elem_of_cons; [|by apply Hl].
      apply not_true_iff_false. intros W'. apply width_lt_spec in W, W'. lia.
    + split; [by left|]. intros z [->|Hz]%elem_of_cons; [apply not_true_iff_false; rewrite width_lt_spec; lia|].
      specialize (Hl z Hz). apply not_true_iff_false. apply not_true_iff_false in Hl, W.
      rewrite width_lt_spec in *. lia.
  - subst l. split; [by left|]. intros z ->%list_elem_of_singleton.
    apply not_true_iff_false. rewrite width_lt_spec. lia.
Qed.

Lemma covers_width_inj s t offset :
  covers s offset = true → covers t offset = true →
  width_lt (width s) (width t) = false → width_lt (width t) (width s) = false → s = t.
Proof.
  unfold covers. rewrite !andb_true_iff, !bool_decide_eq_true. intros [[Hs _] _] [[Ht _] _] W W'.
  apply not_true_iff_false in W, W'. rewrite width_lt_spec in W, W'. simpl in *.
  destruct s as [s1 s2 sf], t as [t1 t2 tf]; simpl in *. subst. f_equal; lia.
Qed.

Lemma NoDup_keys_fun {A B} (l : list (A * B)) a b b' : NoDup l.*1 → (a, b) ∈ l → (a, b') ∈ l → b = b'.
Proof.
  induction l as [|[c d] l IH]; simpl; [by intros _ ?%elem_of_nil|].
  intros [Hc Hn]%NoDup_cons [E|H]%elem_of_cons [E'|H']%elem_of_cons; simplify_eq; try done; [| |by apply IH];
    destruct Hc; apply list_elem_of_fmap; by eexists (_, _).
Qed.

Lemma NoDup_keys_filter {A B} (P : A * B → Prop) `{!∀ x, Decision (P x)} (l : list (A * B)) :
  NoDup l.*1 → NoDup (filter P l).*1.
Proof.
  induction l as [|[c d] l IH]; simpl; [done|]. intros [Hc Hn]%NoDup_cons. rewrite filter_cons.
  case_decide; [|by apply IH]. simpl. constructor; [|by apply IH]. intros ([c' d']&->&Hin)%list_elem_of_fmap.
  destruct Hc. apply list_elem_of_fmap. exists (c', d'). by apply list_elem_of_filter in Hin as [_ Hin].
Qed.

Lemma min_by_width_order {A} offset (l l' : list (Span * A)) :
  Forall (λ x, covers x.1 offset = true) l → NoDup l.*1 → l ≡ₚ l' → min_by_width l = min_by_width l'.
Proof.
  intros Hc Hn Hp. pose proof (min_by_width_spec l) as M. pose proof (min_by_width_spec l') as M'.
  destruct (min_by_width l) as [y|], (min_by_width l') as [y'|]; try done.
  - destruct M as [Hy Hl], M' as [Hy' Hl']. rewrite <-Hp in Hy'. rewrite Forall_forall in Hc.
    assert (y.1 = y'.1) as E.
    { apply (covers_width_inj _ _ offset); [by apply Hc|by apply Hc| |by apply Hl]. apply Hl'. by rewrite <-Hp. }
    f_equal. destruct y as [s a], y' as [s' a']; simpl in E; subst s'. f_equal.
    by apply (NoDup_keys_fun l s).
  - subst l'. destruct M as [Hy _]. rewrite Hp in Hy. by apply elem_of_nil in Hy.
  - subst l. destruct M' as [Hy _]. rewrite <-Hp in Hy. by apply elem_of_nil in Hy.
Qed.

Lemma min_by_width_app {A} (l l' : list (Span * A)) :
  min_by_width (l ++ l') =
  match min_by_width l, min_by_width l' with
  | Some x, Some y => if width_lt (width y.1) (width x.1) then Some y else Some x
  | Some x, None => Some x
  | None, m => m
  end.
Proof.
  induction l as [|x l IH]; simpl; [done|]. rewrite IH.
  destruct (min_by_width l) as [y|], (min_by_width l') as [z|]; [|by destruct (width_lt _ _)|done|done].
  destruct (width_lt (width y.1) (width x.1)) eqn:W1, (width_lt (width z.1) (width y.1)) eqn:W2, (width_lt (width z.1) (width x.1)) eqn:W3;
    rewrite ?W1, ?W2, ?W3; try done; exfalso;
    repeat match goal with H : width_lt _ _ = false |- _ => apply not_true_iff_false in H end;
    rewrite width_lt_spec in *; lia.
Qed.

(** The tables are hash maps: a hover answers the same whatever order they are read in. *)
Lemma hover_order types types' matchers matchers' offset :
  NoDup types.*1 → NoDup matchers.*1 → types ≡ₚ types' → matchers ≡ₚ matchers' →
  hover_at types matchers offset = hover_at types' matchers' offset.
Proof.
  intros Nt Nm Pt Pm. unfold hover_at. f_equal. rewrite !min_by_width_app.
  rewrite (min_by_width_order offset (filter (λ x, covers x.1 offset = true) matchers) (filter (λ x, covers x.1 offset = true) matchers')).
  1: rewrite (min_by_width_order offset ((λ x, (x.1, type_label x.2)) <$> filter (λ x, covers x.1 offset = true) types)
       ((λ x, (x.1, type_label x.2)) <$> filter (λ x, covers x.1 offset = true) types')); [done| | |].
  - rewrite Forall_fmap. apply Forall_forall. by intros x [Hx _]%list_elem_of_filter.
  - rewrite <-list_fmap_compose. by apply NoDup_keys_filter.
  - by rewrite Pt.
  - apply Forall_forall. by intros x [Hx _]%list_elem_of_filter.
  - by apply NoDup_keys_filter.
  - by rewrite Pm.
Qed.

(** ** Renaming, on small programs

    The program [x = true] with [f = () -> < x = x >], by offsets. *)

Definition at_ (n : Z) : Span := in_file n (n + 1) ROOT_FILE.
Definition bound (value : Expression) (n : Z) : Item Expression :=
  ItemVariable (mkVariableDeclaration false "x" None value false false (in_file n (n + 5) ROOT_FILE)).
Definition shadowing : Program :=
  mkProgram []
    [bound (Expression.Bool true (at_ 4)) 0;
     ItemFunction (mkFunctionDeclaration "f" [] None None
       (Expression.Block [StatementItem (bound (Expression.Identifier "x" (at_ 20)) 16)] (in_file 15 22 ROOT_FILE))
       false false (in_file 6 22 ROOT_FILE))]
    [] [] [].

(** A use in the initializer of a local that takes the name of an outer binding is
    resolved to the local, which is bound before its value is walked. *)
Example initializer_resolves_inward :
  definition_at shadowing 20 = Some (in_file 16 21 ROOT_FILE).
Proof. vm_compute. reflexivity. Qed.

(** The capture analysis takes the same use for the outer binding. *)
Example initializer_captured_outward :
  lambda_free_idents {["x"]} []
    (Expression.Block [StatementItem (bound (Expression.Identifier "x" (at_ 20)) 16)] (in_file 15 22 ROOT_FILE)) = ["x"].
Proof. vm_compute. reflexivity. Qed.
